(* ===== verification/_CoqProject ===== *)
-Q . S2P
Prelude.v
GoBase.v
GoUtf8.v
GoStrconv.v
GoRand.v
MrTypes.v
MrCoordinator.v
MrCoordinatorThm.v
MrWorker.v
MrWorkerThm.v
Json.v
MrWorkerIO.v
MrSequential.v
MrApps.v
MrTiming.v
Mains.v
MrSystem.v
MrSystemThm.v
MrRun.v
MrJob.v
MrLive.v
MrFiles.v
GoPath.v
Http.v
HttpListen.v
HttpServer.v
HttpServerThm.v
HttpConc.v
HttpConcThm.v
HttpSolo.v
Proxy.v
Bitset.v
Porcupine.v
PorcHeap.v
PorcLink.v
PorcSpec.v
PorcSearch.v
PorcCheck.v
Kv.v
Visualize.v
VisualizeThm.v
LabRpc.v
LabRpcThm.v
LabRpcCall.v
LabRpcCallThm.v
LabRpcLive.v
Persister.v
Clerks.v
ClerksThm.v
LabGob.v
LabGobThm.v
Harness.v
RaftConfig.v
RaftConfigThm.v
RaftDisk.v
RaftTester.v
RaftApply.v
RaftApplyThm.v
RaftSnapThm.v
RaftChecks.v
RaftChecksThm.v
KvConfig.v
KvConfigThm.v
KvTester.v
KvPartition.v
KvDisk.v
ShardConfig.v
ShardConfigThm.v
Skeletons.v
TestEnd.v
