(* ===== verification/Prelude.v ===== *)
(** * Verification of the TDA596/DIT240 distributed-systems labs

    The repository holds two labs in Go. Lab 1 ([Labs/Lab1]) is an HTTP library,
    a file server and a proxy built on it. Lab 2 ([Labs/Lab2/6.5840/src]) is a
    distributed MapReduce ([mr], with applications in [mrapps] and a sequential
    reference in [main/mrsequential.go]) inside the course's frame: the
    linearizability checker [porcupine] with the key-value model [models/kv.go],
    the simulated network [labrpc], its encoder [labgob], the Raft persister, the
    clerks of the shard controller and of the sharded key/value store, and the
    configurations ([config.go]) that run servers for the tests of Raft and of the
    services on it. This library models these parts as Rocq functions and step
    relations and proves what they promise.

    ** Conventions

    A Go function is a Rocq function of the same name. [(T, error)] is a sum
    whose left side is the error, a run-time panic is [None] in an [option].
    Strings are byte strings; [int] is [Z], with wrap-around where the code
    depends on it (the bucket hash, the checker's bit sets, durations). A Go map
    is a [gmap]; the order in which [range] yields its keys is an argument, any
    enumeration of the keys ([range_order]). What the operating system, the
    network and other libraries do (which calls fail, what the clock says, what
    a peer answers) is an argument or a nondeterministic step. Concurrent code
    is a step relation on an explicit state whose steps are the critical
    sections, messages and channel operations of the source.

    ** Parts and files

    - [Prelude] (this file): tactics, the hint database [labs] and lemmas on
      lists and maps. [GoBase], [GoUtf8], [GoStrconv], [GoPath]: what the labs use
      of the Go language and library ([strconv], [fmt], [sort], [strings],
      [unicode/utf8], [path], [path/filepath], [time]). [GoRand]: the random names
      and seeds of Lab 2, with [encoding/base64]. [Json]: [encoding/json] on
      [KeyValue].
    - MapReduce. [MrTypes] ([data.go], [task.go], [rpc.go], [global_id.go]) and
      [MrCoordinator] ([coordinator.go]): the handlers as functions on the record
      [Coordinator]; a task pointer in a reply is a key into the coordinator's
      tables, so a reply encoded later shows the later table. [MrWorker]
      ([worker.go], [bucket.go], [worker_rpc.go], [coordinator_rpc.go]): tasks on
      a file system with injected faults. [MrCoordinatorThm], [MrWorkerThm],
      [MrWorkerIO]: theorems per component; the latter two are proved against the
      interface [KVCodec]/[KVCodecLaws], which [Json] implements. [MrSystem]:
      coordinator, workers and messages in flight as one transition system;
      [MrSystemThm]: its invariant; [MrRun]: an executable scheduler for concrete
      runs; [MrJob]: the theorems about finished jobs; [MrLive]: every job can be
      finished; [MrFiles]: the output files, and the command lines compared. [MrSequential], [MrApps]: the sequential program and the applications; [MrTiming]: those that measure
      parallelism, as a transition system of workers. [Mains]: the command lines
      of [main/].
    - Lab 1. [Http] (responses, builder, dispatch), [HttpListen] (the accept loop
      and its semaphore), [HttpServer] and [HttpServerThm] (the file server),
      [HttpConc] and [HttpConcThm] (its handlers taken apart into system calls on
      names and inodes, for many requests at once), [HttpSolo] (alone, a request
      does there what [HttpServer] says), [Proxy].
    - Porcupine. [Bitset]; [Porcupine], the whole checker with its linked list
      of heap nodes, cache, backtracking and the goroutines of [checkParallel];
      [PorcHeap] and [PorcLink] (the list), [PorcSpec] (linearizability and the
      abstract search), [PorcSearch] (the loop refines the search), [PorcCheck]
      (the exported functions), [Kv] (the key-value model and its locality),
      [Visualize] and [VisualizeThm] (the data of the visualization).
    - [LabRpc], [LabRpcThm]: the network and the requests on it. [LabRpcCall],
      [LabRpcCallThm], [LabRpcLive]: the calls of clients, over an interface of gob.
      [LabGob], [LabGobThm]: the checks of [labgob] on types and values. [Persister].
      [Clerks], [ClerksThm].
    - Test configurations. [Harness]: loops that may panic, sets of ends, persister
      objects. [raft/config.go] and what there is of [raft/raft.go]: [RaftConfig]
      (servers on the network and their persisters, as the record [rcfg]; crashed
      instances stay in it as objects), [RaftConfigThm] (its network invariant),
      [RaftDisk] (its persister invariant), [RaftTester] (the operations of a test
      in any order), [RaftApply] (the readers of the apply channels),
      [RaftApplyThm], [RaftSnapThm], [RaftChecks] and [RaftChecksThm] ([one],
      [wait], the checks of leaders). [kvraft/config.go] and
      [shardctrler/config.go], the same code for two kinds of server: [KvConfig],
      over the class [ServerKind] with an instance for each; [KvConfigThm],
      [KvTester]; [KvPartition], which composes it with the network; [KvDisk], which
      sees a service as its Raft objects and gets its persister invariant from
      [RaftDisk]. [shardkv/config.go]: [ShardConfig] and
      [ShardConfigThm]. [Skeletons]: the functions and handlers of the servers that
      are left to be written. [TestEnd]: [cleanup] of the four configurations,
      composed with the network.

    ** What the theorems show

    - MapReduce. Every state reachable by RPCs is well formed; a task is handed
      out only if it is unassigned or timed out, reduce tasks only when every map
      task is done, and a worker waits only when there is nothing to hand out;
      a lost map output is rescheduled and forgotten. Buckets partition the
      pairs; reducing meets the reference; intermediate files are written
      atomically and read back. If replies are encoded while the coordinator
      holds its lock, every finished job computes exactly the reference result,
      whatever workers crash, stall or repeat tasks ([job_correct]); as the code
      encodes them after the lock is released, outputs can lack whole map tasks
      but nothing else ([job_outputs_from_whole_tasks], and the run
      [late_encoding_loses_output]). From every reachable state one more worker,
      running alone, finishes the job ([job_can_finish]). When workers have
      directories of their own, the files they leave hold, up to order, the lines
      of the sequential program ([commands_agree]); in a shared one a slow worker
      can truncate a finished file ([straggler_truncates_output]). The sequential program
      computes the reference result. The timing applications count exactly the workers that are
      at work at the same moment. Failures the code does not notice are theorems too.
    - Lab 1. No request path leaves the public directory; GET serves exactly the
      public tree; POST is atomic and read back by GET; concurrent requests are
      atomic although they take no lock ([requests_atomic]), unless a temporary name
      is drawn twice ([temp_name_reuse_corrupts]); the accept loop never
      serves more than the maximum and serves every connection; responses parse
      back; the proxy relays and answers every failure.
    - Porcupine. [checkSingle] terminates and decides linearizability, with
      certificates; so do [CheckOperations] and, when it does not say Unknown,
      [CheckOperationsTimeout], for every schedule of the goroutines; with the
      key-value model this is linearizability of the whole store.
    - labrpc executes a request at most once and its positive replies come from
      exactly one execution on a registered server; a call that returns true took
      effect at one moment while it ran; calls return if their handlers do; a
      reliable network delivers.
      The persister keeps what was saved under aliasing. The clerks return
      only what a server answered, the key/value clerk a server of the owning
      group in the last configuration it was given, and they return when the
      services answer from some point on. [labgob] reports every lower-case field
      a type reaches, once, and no other, also for recursive types.
    - Test configurations. In every state tests can reach, an end of any instance
      ever made is enabled exactly when the instance is current and both servers
      are on the net; what a server finds on its disk is what its current instance
      saved last, for Raft and, by refinement, for the services; servers can
      always be brought back; a partition links exactly the servers on one side,
      with the leader in the minority, and calls across it are neither executed nor
      answered, while those within a side arrive; the names of a joined group lead to its
      running servers. The readers of the apply channels accept exactly the
      histories in which servers agree and skip nothing, with snapshots relative
      to a committed log; [one] ends and returns only with agreement;
      [checkOneLeader] returns the only leader of the highest term. The visualized
      linearizations are replayed states of the model.

    ** Bounds and fuel

    Loops over data are structural. The loop of [checkSingle] takes fuel, and
    the theorems say that from some amount on it gives the result for every
    amount; the decoders take the length of the text, which is enough since every
    step consumes a byte; the retry loops of the clerks take a number of rounds
    and the theorems give a number that suffices. The loops of [one] end by the
    clock: a round takes at least 50 milliseconds of ten seconds, an inner round 20
    of two, so 201 and 101 rounds suffice. [checkType] takes the number of types as
    depth. Theorems about jobs assume that the number of tasks fits into an [int].

    ** Not modelled

    [net/http], [net/rpc], [plugin] and [encoding/gob] (outside the repository,
    they appear as outcomes of calls and as parameters), logging, the HTML page of
    [porcupine/visualization.go], reflection on Go types (a table of types is
    given), and the packages of older labs that some command lines call. The
    handlers of the Raft, kvraft, shardctrler and shardkv servers are empty
    skeletons in this repository and are modelled as such ([Skeletons]): with
    them the clerk of the sharded store never returns
    ([skeleton_kv_never_returns]) and [one] fails ([one_stub_fails]). *)
From Stdlib Require Export Ascii.
From stdpp Require Export gmap strings list sorting pretty.
From stdpp Require Export ssreflect.

Declare Scope go_scope.
Delimit Scope go_scope with go.
Global Open Scope Z_scope.

(** ** Results of fallible Go code

    A Go function returning [(T, error)] is modelled by [res E T]; a run-time
    panic (nil dereference, index out of range, division by zero) by [None]
    in an [option]. *)
Abbreviation res E T := (sum E T).
Abbreviation Err := inl (only parsing).
Abbreviation Ret := inr (only parsing).

(** ** Tactics *)

(** Destruct the scrutinee of the first [match]/[if] of the goal, keeping the
    equation, and clean up. *)
Ltac case_goal :=
  match goal with
  | |- context [match ?x with _ => _ end] =>
      lazymatch x with
      | context [match _ with _ => _ end] => fail
      | _ => let E := fresh "E" in destruct x eqn:E
      end
  end; simplify_eq/=.

(** The same for a hypothesis. *)
Ltac case_hyp H :=
  match type of H with
  | context [match ?x with _ => _ end] =>
      lazymatch x with
      | context [match _ with _ => _ end] => fail
      | _ => let E := fresh "E" in destruct x eqn:E
      end
  end; simplify_eq/=.

(** Boolean decisions of hypotheses turned into propositions. *)
Ltac bools :=
  repeat match goal with
  | H : bool_decide _ = true |- _ => apply bool_decide_eq_true in H
  | H : bool_decide _ = false |- _ => apply bool_decide_eq_false in H
  | H : andb _ _ = true |- _ => apply andb_true_iff in H as [? ?]
  | H : orb _ _ = false |- _ => apply orb_false_iff in H as [? ?]
  | H : negb _ = true |- _ => apply negb_true_iff in H
  | H : negb _ = false |- _ => apply negb_false_iff in H
  end.

(** A closed decidable proposition, by evaluation. *)
Ltac by_decide := apply (bool_decide_unpack _); vm_compute; exact I.

Create HintDb labs.

(** ** Lists *)

Section lists.
Context {A B : Type}.
Implicit Types (l : list A).

(** The first element satisfying a boolean test, as Go's
    [for ... { if p(x) { return x } }; return nil] finds it. *)
Fixpoint find_first (p : A → bool) (l : list A) : option A :=
  match l with
  | [] => None
  | x :: l' => if p x then Some x else find_first p l'
  end.

Lemma find_first_Some p l x :
  find_first p l = Some x → x ∈ l ∧ p x = true.
Proof.
  induction l as [|y l IH]; simpl; [done|].
  destruct (p y) eqn:Hp; intros ?; simplify_eq.
  - split; [left|done].
  - destruct IH; [done|]. split; [by right|done].
Qed.

Lemma find_first_None p l :
  find_first p l = None ↔ ∀ x, x ∈ l → p x = false.
Proof.
  induction l as [|y l IH]; simpl.
  - split; [|done]. intros _ x Hx. by apply elem_of_nil in Hx.
  - destruct (p y) eqn:Hp; split.
    + done.
    + intros H. specialize (H y ltac:(left)). congruence.
    + intros Hn x [->|Hx]%elem_of_cons; [done|]. by apply IH.
    + intros H. apply IH. intros x Hx. apply H. by right.
Qed.

Lemma perm_of_eq (l1 l2 : list A) : l1 = l2 → l1 ≡ₚ l2.
Proof. by intros ->. Qed.

Lemma concat_map_perm (f : A → list B) l1 l2 :
  l1 ≡ₚ l2 → concat (f <$> l1) ≡ₚ concat (f <$> l2).
Proof.
  induction 1 as [|x l1 l2 _ IH|x y l|l1 l2 l3 _ IH1 _ IH2]; csimpl.
  - done.
  - by rewrite IH.
  - rewrite !assoc. f_equiv. apply Permutation_app_comm.
  - by rewrite IH1.
Qed.
End lists.

(** ** Finite maps *)

Section maps.
Context `{Countable K} {A : Type}.
Implicit Types (m : gmap K A).

(** A Go [range] over a map visits every key once, in an order the language
    leaves unspecified. An iteration order of [m] is a list of its keys. *)
Definition range_order (ord : list K) (m : gmap K A) : Prop :=
  ord ≡ₚ (map_to_list m).*1.

Lemma range_order_NoDup ord m : range_order ord m → NoDup ord.
Proof. intros ->. apply NoDup_fst_map_to_list. Qed.

Lemma range_order_elem ord m k :
  range_order ord m → k ∈ ord ↔ is_Some (m !! k).
Proof.
  intros ->. rewrite list_elem_of_fmap. split.
  - intros ([k' x] & -> & Hk%elem_of_map_to_list). eauto.
  - intros [x Hx]. exists (k, x). by rewrite elem_of_map_to_list.
Qed.

(** The entries in the order in which the loop sees them. *)
Definition range_visit (ord : list K) (m : gmap K A) : list (K * A) :=
  omap (λ k, (k,.) <$> m !! k) ord.

Lemma elem_of_range_visit ord m k x :
  (k, x) ∈ range_visit ord m ↔ k ∈ ord ∧ m !! k = Some x.
Proof.
  rewrite /range_visit list_elem_of_omap. split.
  - intros (k' & Hk & Hm). destruct (m !! k') eqn:E; simplify_eq/=. done.
  - intros [Hk Hm]. exists k. by rewrite Hm.
Qed.

Lemma elem_of_range_visit_full ord m k x :
  range_order ord m → (k, x) ∈ range_visit ord m ↔ m !! k = Some x.
Proof.
  intros Ho. rewrite elem_of_range_visit (range_order_elem _ _ _ Ho).
  split; [by intros [_ ?]|]. eauto.
Qed.

Lemma range_visit_fst ord m : range_order ord m → (range_visit ord m).*1 = ord.
Proof.
  intros Ho. assert (∀ k, k ∈ ord → is_Some (m !! k)) as Hin.
  { intros k. by apply range_order_elem. }
  clear Ho. induction ord as [|k ord IH]; [done|]. rewrite /range_visit /=.
  destruct (Hin k ltac:(left)) as [x ->]. simpl. f_equal. apply IH.
  intros k' Hk'. apply Hin. by right.
Qed.

Lemma range_order_default m : range_order (map_to_list m).*1 m.
Proof. rewrite /range_order //. Qed.

(** All entries satisfy a boolean test: the Go loop
    [for _, x := range m { if !p(x) { return false } }; return true]. *)
Definition map_all (p : A → bool) (m : gmap K A) : bool :=
  forallb (λ kx, p kx.2) (map_to_list m).

Lemma map_all_true p m :
  map_all p m = true ↔ ∀ k x, m !! k = Some x → p x = true.
Proof.
  rewrite /map_all forallb_forall. split.
  - intros Hf k x Hk. apply (Hf (k, x)). apply list_elem_of_In.
    by rewrite elem_of_map_to_list.
  - intros Hf [k x] Hin%list_elem_of_In%elem_of_map_to_list. by eapply Hf.
Qed.

Lemma forallb_false {C} (p : C → bool) (l : list C) :
  forallb p l = false → ∃ x, x ∈ l ∧ p x = false.
Proof.
  induction l as [|x l IH]; simpl; [done|]. destruct (p x) eqn:Hp.
  - intros (y & ? & ?)%IH. exists y. split; [by right|done].
  - intros _. exists x. split; [left|done].
Qed.

Lemma map_all_false p m :
  map_all p m = false ↔ ∃ k x, m !! k = Some x ∧ p x = false.
Proof.
  split.
  - intros ([k x] & Hin%elem_of_map_to_list & ?)%forallb_false. eauto.
  - intros (k & x & Hk & Hp). apply not_true_iff_false. intros Hf.
    pose proof (proj1 (map_all_true p m) Hf k x Hk). congruence.
Qed.
End maps.

Lemma range_order_fmap `{Countable K} {A B} (f : A → B) ord (m : gmap K A) :
  range_order ord m → range_order ord (f <$> m).
Proof.
  rewrite /range_order => ->. rewrite map_to_list_fmap -list_fmap_compose //.
Qed.

(** Updating entries without changing what [f] sees of them. *)
Section fmap_same.
Context `{Countable K} {A B : Type} (f : A → B).
Implicit Types (m : gmap K A).

Lemma fmap_alter_same (g : A → A) k m :
  (∀ x, f (g x) = f x) → f <$> alter g k m = f <$> m.
Proof.
  intros Hg. apply map_eq. intros k'. rewrite !lookup_fmap lookup_alter.
  case_decide; [subst k'|done]. destruct (m !! k); simpl; [by rewrite Hg|done].
Qed.

Lemma fmap_insert_same k x y m :
  m !! k = Some x → f y = f x → f <$> <[k:=y]> m = f <$> m.
Proof.
  intros Hk Hf. rewrite fmap_insert Hf. apply insert_id. by rewrite lookup_fmap Hk.
Qed.

Lemma fmap_fmap_same (g : A → A) m :
  (∀ x, f (g x) = f x) → f <$> (g <$> m) = f <$> m.
Proof. intros Hg. rewrite -map_fmap_compose. apply map_fmap_ext => k x _ /=. apply Hg. Qed.
End fmap_same.
