(* ===== verification/GoBase.v ===== *)
(** * The Go language and standard library, as far as the labs use them

    Strings are byte strings ([string] of 8-bit [ascii]); [int] values are [Z]
    with the wrap-around written out where it matters. This file holds
    [strconv.Itoa], [sort.Strings], [strings.Join], [strings.HasPrefix],
    [strings.TrimPrefix], [strings.Contains], the splitting of
    [strings.FieldsFunc] on bytes, and [time.Duration] arithmetic. *)
From S2P Require Import Prelude.

(** ** Integers *)

Definition wrap_u32 (z : Z) : Z := z mod 2 ^ 32.
Definition wrap_u64 (z : Z) : Z := z mod 2 ^ 64.

(** The two's complement reading of the low 64 bits: Go's [int] and [int64]. *)
Definition wrap_i64 (z : Z) : Z := (z + 2 ^ 63) mod 2 ^ 64 - 2 ^ 63.

Definition byte_Z (a : ascii) : Z := Z.of_N (N_of_ascii a).

Lemma byte_Z_range a : 0 ≤ byte_Z a < 256.
Proof. destruct a as [[] [] [] [] [] [] [] []]; vm_compute; split; congruence. Qed.

(** ** time.Duration and time.Time

    A [time.Time] is its number of nanoseconds since the zero time; the value
    [time.Time{}] is [0]. [time.Since] saturates at the bounds of
    [time.Duration], an [int64] of nanoseconds. *)
Definition Second : Z := 1000000000.
Definition zero_time : Z := 0.
Definition minDuration : Z := - 2 ^ 63.
Definition maxDuration : Z := 2 ^ 63 - 1.
Definition time_Since (now t : Z) : Z := Z.max minDuration (Z.min maxDuration (now - t)).

Lemma time_Since_ge now t d :
  minDuration < d ≤ maxDuration → d ≤ time_Since now t ↔ d ≤ now - t.
Proof. rewrite /time_Since. lia. Qed.

(** ** Strings *)

Definition Itoa (z : Z) : string := pretty z.

#[global] Instance Itoa_inj : Inj (=) (=) Itoa.
Proof. apply _. Qed.

Fixpoint str_to_list (s : string) : list ascii :=
  match s with "" => [] | String a s => a :: str_to_list s end.

Fixpoint str_of_list (l : list ascii) : string :=
  match l with [] => "" | a :: l => String a (str_of_list l) end.

Lemma str_of_to_list s : str_of_list (str_to_list s) = s.
Proof. induction s as [|a s IH]; simpl; [done|]. by rewrite IH. Qed.

Lemma str_to_of_list l : str_to_list (str_of_list l) = l.
Proof. induction l as [|a l IH]; simpl; [done|]. by rewrite IH. Qed.

Lemma str_to_list_app s t : str_to_list (s +:+ t) = str_to_list s ++ str_to_list t.
Proof. induction s as [|a s IH]; [done|]. by rewrite /= -IH. Qed.

#[global] Instance str_to_list_inj : Inj (=) (=) str_to_list.
Proof. intros s t Hst. by rewrite -(str_of_to_list s) Hst str_of_to_list. Qed.

Lemma str_append_assoc (s t u : string) : (s +:+ t) +:+ u = s +:+ (t +:+ u).
Proof. apply (inj str_to_list). by rewrite !str_to_list_app assoc. Qed.

Lemma str_append_nil_r (s : string) : s +:+ "" = s.
Proof. apply (inj str_to_list). by rewrite str_to_list_app /= right_id_L. Qed.

(** Decimal digits: [Itoa] of a natural number is a non-empty run of them. *)
Definition is_digit (a : ascii) : bool := bool_decide (a ∈ str_to_list "0123456789").

Lemma pretty_N_go_digits x s :
  Forall is_digit (str_to_list s) → Forall is_digit (str_to_list (pretty_N_go x s)).
Proof.
  revert s. induction (N.lt_wf_0 x) as [x _ IH]; intros s Hs.
  assert (x = 0 ∨ 0 < x)%N as [->|?] by lia; [by rewrite pretty_N_go_0|].
  rewrite pretty_N_go_step //. apply IH; [by apply N.div_lt|]. simpl. constructor; [|done].
  rewrite /pretty_N_char. by repeat case_match.
Qed.

Lemma Itoa_digits z : 0 ≤ z → Forall is_digit (str_to_list (Itoa z)).
Proof.
  destruct z as [|p|p]; [by repeat constructor| |done]. intros _.
  rewrite /Itoa /pretty /= /pretty_positive /pretty /pretty_N. case_decide; [done|].
  apply pretty_N_go_digits. constructor.
Qed.

Lemma Itoa_no_dash z : 0 ≤ z → "-"%char ∉ str_to_list (Itoa z).
Proof.
  intros Hz Hin. pose proof (Itoa_digits z Hz) as Hd. rewrite Forall_forall in Hd.
  by specialize (Hd _ Hin).
Qed.

Lemma Itoa_nonempty z : Itoa z ≠ "".
Proof.
  assert (∀ x s, s ≠ "" → pretty_N_go x s ≠ "") as Hgo.
  { intros x. induction (N.lt_wf_0 x) as [x _ IH]; intros s Hs.
    assert (x = 0 ∨ 0 < x)%N as [->|?] by lia; [by rewrite pretty_N_go_0|].
    rewrite pretty_N_go_step //. apply IH; [by apply N.div_lt|done]. }
  destruct z as [|p|p]; [done| |done].
  rewrite /Itoa /pretty /= /pretty_positive /pretty /pretty_N. case_decide; [done|].
  rewrite pretty_N_go_step; [|lia]. by apply Hgo.
Qed.

(** Splitting at a separator that the first parts do not contain. *)
Lemma list_split_sep_inj {A} (sep : A) l1 l2 r1 r2 :
  sep ∉ l1 → sep ∉ l2 → l1 ++ sep :: r1 = l2 ++ sep :: r2 → l1 = l2 ∧ r1 = r2.
Proof.
  revert l2. induction l1 as [|x l1 IH]; intros [|y l2]; csimpl.
  - by intros _ _ [= ->].
  - intros _ Hn [= <- _]. destruct Hn. left.
  - intros Hn _ [= -> _]. destruct Hn. left.
  - intros [Hx1 Hn1]%not_elem_of_cons [Hx2 Hn2]%not_elem_of_cons [= -> Heq].
    destruct (IH l2 Hn1 Hn2 Heq) as [-> ->]. done.
Qed.

(** What follows a given prefix. *)
Fixpoint strip_prefix (p l : list ascii) : option (list ascii) :=
  match p, l with
  | [], _ => Some l
  | a :: p', b :: l' => if bool_decide (a = b) then strip_prefix p' l' else None
  | _ :: _, [] => None
  end.

Lemma strip_prefix_app p r : strip_prefix p (p ++ r) = Some r.
Proof. induction p as [|a p IH]; simpl; [done|]. by rewrite bool_decide_eq_true_2. Qed.

Lemma strip_prefix_Some p l r : strip_prefix p l = Some r ↔ l = p ++ r.
Proof.
  split; [|by intros ->; apply strip_prefix_app]. revert l. induction p as [|a p IH]; intros [|b l]; simpl; try done.
  - by intros [= ->].
  - by intros [= ->].
  - case_bool_decide; [|done]. subst. by intros ->%IH.
Qed.

(** [len(s)] *)
Definition slen (s : string) : Z := Z.of_nat (String.length s).

Lemma length_str_to_list s : length (str_to_list s) = String.length s.
Proof. induction s as [|a s IH]; simpl; [done|]. by rewrite IH. Qed.

(** [strings.Join(elems, sep)] *)
Fixpoint Join (elems : list string) (sep : string) : string :=
  match elems with
  | [] => ""
  | [s] => s
  | s :: elems' => s +:+ sep +:+ Join elems' sep
  end.

(** [strings.HasPrefix(s, prefix)] *)
Definition HasPrefix (s prefix : string) : bool := String.prefix prefix s.

Lemma HasPrefix_true s p : HasPrefix s p = true ↔ ∃ t, s = p +:+ t.
Proof.
  rewrite /HasPrefix. revert s. induction p as [|a p IH]; intros s; simpl.
  - split; [by exists s|]. by destruct s.
  - destruct s as [|b s]; [split; [done|by intros [? ?]]|]. simpl.
    destruct (Ascii.ascii_dec a b) as [->|Hne].
    + rewrite IH. split; intros [t Ht]; exists t; [by rewrite Ht|].
      by injection Ht.
    + split; [done|]. intros [t Ht]. by injection Ht.
Qed.

#[global] Arguments HasPrefix : simpl never.

(** [strings.TrimPrefix(s, prefix)] *)
Definition TrimPrefix (s prefix : string) : string :=
  if HasPrefix s prefix then
    str_of_list (drop (String.length prefix) (str_to_list s))
  else s.

(** [strings.Contains(s, substr)] *)
Fixpoint Contains (s substr : string) : bool :=
  HasPrefix s substr || match s with "" => false | String _ s' => Contains s' substr end.

Lemma Contains_true s u : Contains s u = true ↔ ∃ a b, s = a +:+ u +:+ b.
Proof.
  induction s as [|c s IH]; simpl.
  - rewrite orb_false_r HasPrefix_true. split.
    + intros [t Ht]. by exists "", t.
    + intros (a & b & Hab). destruct a; [|done]. by exists b.
  - rewrite orb_true_iff HasPrefix_true IH. split.
    + intros [[t Ht]|(a & b & Hab)]; [by exists "", t|].
      exists (String c a), b. by rewrite Hab.
    + intros (a & b & Hab). destruct a as [|d a]; [left; by exists b|].
      right. exists a, b. by injection Hab.
Qed.

(** [strings.LastIndex(s, c)] for a one-byte substring; [-1] when absent. *)
Fixpoint LastIndexByte_go (s : string) (c : ascii) (i last : Z) : Z :=
  match s with
  | "" => last
  | String a s' => LastIndexByte_go s' c (i + 1) (if bool_decide (a = c) then i else last)
  end.
Definition LastIndexByte (s : string) (c : ascii) : Z := LastIndexByte_go s c 0 (-1).

(** The lower case of an ASCII byte. *)
Definition lower_ascii (a : ascii) : ascii :=
  let n := N_of_ascii a in
  if (65 <=? n)%N && (n <=? 90)%N then ascii_of_N (n + 32) else a.

(** ** Sorting

    [sort.Strings] sorts bytewise. Go's sort is not stable, but equal strings
    are indistinguishable, so the result is the unique sorted permutation. *)
Definition sort_Strings (l : list string) : list string := merge_sort String.le l.

Lemma sort_Strings_sorted l : Sorted String.le (sort_Strings l).
Proof. apply Sorted_merge_sort, _. Qed.

Lemma sort_Strings_perm l : sort_Strings l ≡ₚ l.
Proof. apply merge_sort_Permutation. Qed.

(** Whatever permutation of the input a sorting algorithm produces, if it is
    sorted it is this one. *)
Lemma sort_Strings_unique l l' :
  Sorted String.le l' → l' ≡ₚ l → l' = sort_Strings l.
Proof.
  intros Hs Hp. apply (Sorted_unique String.le); [done|apply sort_Strings_sorted|].
  by rewrite sort_Strings_perm.
Qed.

#[global] Instance sort_Strings_Proper : Proper ((≡ₚ) ==> (=)) sort_Strings.
Proof.
  intros l1 l2 Hp. apply sort_Strings_unique; [apply sort_Strings_sorted|].
  by rewrite sort_Strings_perm.
Qed.

#[export] Hint Resolve sort_Strings_sorted sort_Strings_perm : labs.
#[export] Hint Rewrite str_append_assoc str_append_nil_r : labs.
