(* ===== verification/GoUtf8.v ===== *)
(** * UTF-8 as the Go library decodes and encodes it

    [utf8.DecodeRune] and [utf8.EncodeRune] on byte lists, the runes of a
    string, and [strings.ToLower]. The lower case of the runes outside ASCII
    comes from the tables of package [unicode] and is an argument. *)
From S2P Require Import Prelude GoBase.

Abbreviation bytes := (list ascii) (only parsing).

(** ** UTF-8 *)

Definition in_range (lo hi : Z) (a : ascii) : bool :=
  bool_decide (lo ≤ byte_Z a) && bool_decide (byte_Z a ≤ hi).
Definition cont : ascii → bool := in_range 0x80 0xBF.
Definition is_ascii : ascii → bool := in_range 0 0x7F.

(** The length of the well-formed sequence a string starts with, as
    [utf8.DecodeRune] determines it; [None] where it returns
    [(RuneError, 1)]. *)
Definition utf8_len (l : bytes) : option nat :=
  match l with
  | [] => None
  | a :: l1 =>
      if is_ascii a then Some 1%nat
      else if in_range 0xC2 0xDF a then
        match l1 with b :: _ => if cont b then Some 2%nat else None | _ => None end
      else if in_range 0xE0 0xEF a then
        match l1 with
        | b :: c :: _ =>
            let ok := if bool_decide (byte_Z a = 0xE0) then in_range 0xA0 0xBF b
                      else if bool_decide (byte_Z a = 0xED) then in_range 0x80 0x9F b
                      else cont b in
            if ok && cont c then Some 3%nat else None
        | _ => None
        end
      else if in_range 0xF0 0xF4 a then
        match l1 with
        | b :: c :: d :: _ =>
            let ok := if bool_decide (byte_Z a = 0xF0) then in_range 0x90 0xBF b
                      else if bool_decide (byte_Z a = 0xF4) then in_range 0x80 0x8F b
                      else cont b in
            if ok && cont c && cont d then Some 4%nat else None
        | _ => None
        end
      else None
  end.

(** A valid string is a sequence of well-formed sequences. *)
Inductive Utf8 : bytes → Prop :=
  | utf8_nil : Utf8 []
  | utf8_rune c l : utf8_len c = Some (length c) → Utf8 l → Utf8 (c ++ l).

Definition byte_of_Z (z : Z) : ascii := ascii_of_N (Z.to_N z).

(** [utf8.EncodeRune]; a surrogate is encoded as U+FFFD. *)
Definition EncodeRune (r : Z) : bytes :=
  let r := if bool_decide (0xD800 ≤ r ≤ 0xDFFF) then 0xFFFD else r in
  if bool_decide (r < 0x80) then [byte_of_Z r]
  else if bool_decide (r < 0x800) then [byte_of_Z (0xC0 + r / 64); byte_of_Z (0x80 + r mod 64)]
  else if bool_decide (r < 0x10000) then
    [byte_of_Z (0xE0 + r / 4096); byte_of_Z (0x80 + (r / 64) mod 64); byte_of_Z (0x80 + r mod 64)]
  else
    [byte_of_Z (0xF0 + r / 262144); byte_of_Z (0x80 + (r / 4096) mod 64);
     byte_of_Z (0x80 + (r / 64) mod 64); byte_of_Z (0x80 + r mod 64)].

(** [utf8.DecodeRuneInString]: code point and width; [(RuneError, 1)] for an
    ill-formed sequence. *)
Definition RuneError : Z := 0xFFFD.

Definition DecodeRune (l : list ascii) : Z * nat :=
  match utf8_len l, l with
  | Some 1%nat, a :: _ => (byte_Z a, 1%nat)
  | Some 2%nat, a :: b :: _ => ((byte_Z a - 0xC0) * 64 + (byte_Z b - 0x80), 2%nat)
  | Some 3%nat, a :: b :: c :: _ =>
      ((byte_Z a - 0xE0) * 4096 + (byte_Z b - 0x80) * 64 + (byte_Z c - 0x80), 3%nat)
  | Some 4%nat, a :: b :: c :: d :: _ =>
      ((byte_Z a - 0xF0) * 262144 + (byte_Z b - 0x80) * 4096 +
       (byte_Z c - 0x80) * 64 + (byte_Z d - 0x80), 4%nat)
  | _, _ => (RuneError, 1%nat)
  end.

(** The runes of a string with the bytes they occupy. Every rune takes a byte
    at least, so the length is enough fuel. *)
Fixpoint runes (fuel : nat) (l : list ascii) : list (Z * list ascii) :=
  match fuel, l with
  | S fuel', _ :: _ =>
      let '(r, n) := DecodeRune l in (r, take n l) :: runes fuel' (drop n l)
  | _, _ => []
  end.

(** [unicode.ToLower], with the table [lower] for the runes above ASCII *)
Definition rune_lower (lower : Z → Z) (r : Z) : Z :=
  if bool_decide (r < 0x80) then
    if bool_decide (65 ≤ r ≤ 90) then r + 32 else r
  else lower r.

(** [strings.ToLower(s)]: bytewise when the string is ASCII, rune by rune
    otherwise (ill-formed bytes become U+FFFD). *)
Definition ToLower (lower : Z → Z) (s : string) : string :=
  let l := str_to_list s in
  if forallb is_ascii l then str_of_list (lower_ascii <$> l)
  else str_of_list (concat ((λ rc, EncodeRune (rune_lower lower rc.1)) <$> runes (length l) l)).
