(* ===== verification/GoStrconv.v ===== *)
(** * Numbers in text

    What the programs use of [strconv] and of scanning in [fmt]: [ParseInt] in
    base ten for 64 bits, [Atoi], [ParseBool], and the verb [%d] of [Sscanf],
    with the values they give besides an error. *)
From S2P Require Import Prelude GoBase.

(** ** Decimal digits *)

(** The number a run of digits denotes, after [acc], and what follows it. *)
Fixpoint digits (l : list ascii) (acc : Z) : Z * list ascii :=
  match l with
  | a :: l' => if is_digit a then digits l' (acc * 10 + (byte_Z a - 48)) else (acc, l)
  | [] => (acc, [])
  end.

(** A number with a sign, at least one digit, and the rest. *)
Definition signed (l : list ascii) : option (Z * list ascii) :=
  let '(neg, l) := match l with
    | a :: l' => if bool_decide (a = "-"%char) then (true, l') else if bool_decide (a = "+"%char) then (false, l') else (false, l)
    | [] => (false, [])
    end in
  match l with
  | a :: _ => if is_digit a then let '(n, rest) := digits l 0 in Some (if neg : bool then - n else n, rest) else None
  | [] => None
  end.

Definition int64_range (n : Z) : bool := bool_decide (- 2 ^ 63 ≤ n < 2 ^ 63).

(** [strconv.ParseInt(s, 10, 64)]: the value and whether there is no error. A
    number out of range gives the nearest one in range, other text gives 0. *)
Definition ParseInt (s : string) : Z * bool :=
  match signed (str_to_list s) with
  | Some (n, []) => if int64_range n then (n, true) else (if bool_decide (n < 0) then - 2 ^ 63 else 2 ^ 63 - 1, false)
  | _ => (0, false)
  end.

Definition Atoi (s : string) : Z * bool := ParseInt s.

(** [strconv.ParseBool] *)
Definition ParseBool (s : string) : bool * bool :=
  if bool_decide (s ∈ ["1"; "t"; "T"; "true"; "TRUE"; "True"]) then (true, true)
  else if bool_decide (s ∈ ["0"; "f"; "F"; "false"; "FALSE"; "False"]) then (false, true)
  else (false, false).

(** [fmt.Sscanf(name, prefix + "%d", &x)] with one item and no error, for a
    prefix without blanks and per cents: the prefix, blanks, a number that fits,
    and anything. Of blanks those in ASCII are modelled. *)
Fixpoint skip_blanks (l : list ascii) : list ascii :=
  match l with
  | a :: l' => if bool_decide (byte_Z a ∈ [9; 11; 12; 13; 32]) then skip_blanks l' else l
  | [] => []
  end.

Definition Sscanf_d (prefix name : string) : option Z :=
  match strip_prefix (str_to_list prefix) (str_to_list name) with
  | Some rest =>
      match signed (skip_blanks rest) with
      | Some (n, _) => if int64_range n then Some n else None
      | None => None
      end
  | None => None
  end.

(** ** Printing and reading back *)

Lemma digits_pretty x s : digits (str_to_list (pretty_N_go x s)) 0 = digits (str_to_list s) (Z.of_N x).
Proof.
  revert s. induction (N.lt_wf_0 x) as [x _ IH]; intros s.
  assert (x = 0 ∨ 0 < x)%N as [->|?] by lia; [by rewrite pretty_N_go_0|].
  rewrite pretty_N_go_step // IH; [|by apply N.div_lt]. cbn [str_to_list digits].
  assert (x mod 10 < 10)%N as Hd by by apply N.mod_lt.
  assert (is_digit (pretty_N_char (x mod 10)) = true ∧ byte_Z (pretty_N_char (x mod 10)) = 48 + Z.of_N (x mod 10)) as [-> ->].
  { generalize dependent (x mod 10)%N. intros d Hd.
    assert (d ∈ [0; 1; 2; 3; 4; 5; 6; 7; 8; 9])%N as Hin by (rewrite !elem_of_cons; lia).
    repeat (apply elem_of_cons in Hin as [->|Hin]; [by split|]). by apply elem_of_nil in Hin. }
  f_equal. rewrite {3}(N.div_mod' x 10). lia.
Qed.

Lemma digits_Itoa z : 0 ≤ z → digits (str_to_list (Itoa z)) 0 = (z, []).
Proof.
  destruct z as [|p|p]; [done| |done]. intros _.
  rewrite /Itoa /pretty /= /pretty_positive /pretty /pretty_N. case_decide; [done|]. by rewrite digits_pretty.
Qed.

Lemma signed_Itoa z : 0 ≤ z → signed (str_to_list (Itoa z)) = Some (z, []).
Proof.
  intros Hz. pose proof (Itoa_digits z Hz) as Hd. pose proof (digits_Itoa z Hz) as Hv.
  destruct (str_to_list (Itoa z)) as [|a l] eqn:Hl.
  { destruct (Itoa_nonempty z). by apply (inj str_to_list). }
  inversion Hd as [|?? Ha _]; subst. rewrite /signed.
  rewrite (bool_decide_false (a = "-"%char)); [|by intros ->]. rewrite (bool_decide_false (a = "+"%char)); [|by intros ->].
  cbn iota. destruct (is_digit a) eqn:E; [|done]. by rewrite Hv.
Qed.

(** The sign of a negative number is read back too. *)
Lemma signed_Itoa_neg z : z < 0 → signed (str_to_list (Itoa z)) = Some (z, []).
Proof.
  intros Hz. destruct z as [|p|p]; [done..|].
  change (str_to_list (Itoa (Z.neg p))) with ("-"%char :: str_to_list (Itoa (Z.pos p))).
  pose proof (digits_Itoa (Z.pos p) ltac:(done)) as Hv. pose proof (Itoa_digits (Z.pos p) ltac:(done)) as Hd.
  destruct (str_to_list (Itoa (Z.pos p))) as [|a l] eqn:Hl.
  { destruct (Itoa_nonempty (Z.pos p)). by apply (inj str_to_list). }
  inversion Hd as [|?? Ha _]; subst. rewrite /signed bool_decide_true //. destruct (is_digit a) eqn:E; [|done]. by rewrite Hv.
Qed.

(** [strconv.ParseInt] reads what [strconv.Itoa] and [%d] print. *)
Lemma ParseInt_Itoa z : - 2 ^ 63 ≤ z < 2 ^ 63 → ParseInt (Itoa z) = (z, true).
Proof.
  intros Hz. rewrite /ParseInt. assert (signed (str_to_list (Itoa z)) = Some (z, [])) as ->.
  { destruct (Z.lt_ge_cases z 0); [by apply signed_Itoa_neg|by apply signed_Itoa]. }
  by rewrite /int64_range bool_decide_true.
Qed.

Lemma digit_not_blank a : is_digit a → bool_decide (byte_Z a ∈ [9; 11; 12; 13; 32]) = false.
Proof.
  rewrite /is_digit => /bool_decide_spec Ha. simpl in Ha.
  repeat (apply elem_of_cons in Ha as [->|Ha]; [reflexivity|]). by apply elem_of_nil in Ha.
Qed.

Lemma skip_blanks_Itoa z : 0 ≤ z → skip_blanks (str_to_list (Itoa z)) = str_to_list (Itoa z).
Proof.
  intros Hz. pose proof (Itoa_digits z Hz) as Hd. destruct (str_to_list (Itoa z)) as [|a l]; [done|].
  inversion Hd as [|?? Ha _]; subst. cbn [skip_blanks]. by rewrite digit_not_blank.
Qed.

(** [%d] reads back a number printed after the prefix. *)
Lemma Sscanf_d_Itoa prefix z : 0 ≤ z < 2 ^ 63 → Sscanf_d prefix (prefix +:+ Itoa z) = Some z.
Proof.
  intros Hz. rewrite /Sscanf_d str_to_list_app strip_prefix_app skip_blanks_Itoa; [|lia].
  rewrite signed_Itoa; [|lia]. rewrite /int64_range bool_decide_true //. lia.
Qed.

(** Only names that begin with the prefix are read. *)
Lemma Sscanf_d_prefix prefix name z : Sscanf_d prefix name = Some z → HasPrefix name prefix = true.
Proof.
  rewrite /Sscanf_d. destruct (strip_prefix _ _) as [rest|] eqn:Hs; [|done]. intros _.
  apply strip_prefix_Some in Hs. apply HasPrefix_true. exists (str_of_list rest).
  apply (inj str_to_list). by rewrite str_to_list_app str_to_of_list.
Qed.
