(* ===== verification/GoRand.v ===== *)
(** * Random names and seeds

    [randstring], [makeSeed] and [nrand] of the test configurations and clerks of
    Lab 2: the same few lines in [raft/config.go], [kvraft/config.go],
    [shardctrler/config.go], [shardkv/config.go] and the [client.go] files. The
    random bytes and the random number of [crypto/rand] are arguments;
    [base64.URLEncoding] is modelled with its padding. *)
From S2P Require Import Prelude GoBase.

(** ** [base64.URLEncoding] *)

Definition encodeURL : list ascii := str_to_list "ABCDEFGHIJKLMNOPQRSTUVWXYZabcdefghijklmnopqrstuvwxyz0123456789-_".

Definition char64 (v : Z) : ascii := nth (Z.to_nat v) encodeURL "="%char.

(** Six bits of a group, from bit [sh] on. *)
Definition bits6 (val sh : Z) : Z := Z.land (Z.shiftr val sh) 0x3F.

Fixpoint EncodeToString (src : list ascii) : list ascii :=
  match src with
  | a :: b :: c :: src' =>
      let val := Z.lor (Z.lor (Z.shiftl (byte_Z a) 16) (Z.shiftl (byte_Z b) 8)) (byte_Z c) in
      char64 (bits6 val 18) :: char64 (bits6 val 12) :: char64 (bits6 val 6) :: char64 (bits6 val 0) :: EncodeToString src'
  | [a; b] =>
      let val := Z.lor (Z.shiftl (byte_Z a) 16) (Z.shiftl (byte_Z b) 8) in
      [char64 (bits6 val 18); char64 (bits6 val 12); char64 (bits6 val 6); "="%char]
  | [a] =>
      let val := Z.shiftl (byte_Z a) 16 in
      [char64 (bits6 val 18); char64 (bits6 val 12); "="%char; "="%char]
  | [] => []
  end.

(** ** The functions *)

(** [b] is the slice of [2*n] bytes that [crand.Read] filled; [None] is the panic
    of [s[0:n]]. *)
Definition randstring (n : nat) (b : list ascii) : option string :=
  let s := EncodeToString b in
  if bool_decide (n ≤ length s)%nat then Some (str_of_list (take n s)) else None.

(** [bigx.Int64()] of the number [crand.Int] drew below [1 << 62]: its low bits. *)
Definition makeSeed (bigx : Z) : Z := wrap_i64 bigx.

Definition kv_randstring := randstring.
Definition sc_randstring := randstring.
Definition sk_randstring := randstring.
Definition kv_makeSeed := makeSeed.
Definition sk_makeSeed := makeSeed.
Definition kv_nrand := makeSeed.
Definition sc_nrand := makeSeed.
Definition sk_nrand := makeSeed.

(** ** What they give *)

Definition max62 : Z := Z.shiftl 1 62.

Lemma makeSeed_id bigx : 0 ≤ bigx < max62 → makeSeed bigx = bigx.
Proof. rewrite /max62 /makeSeed /wrap_i64. intros Hb. change (Z.shiftl 1 62) with (2 ^ 62) in Hb. rewrite Z.mod_small; lia. Qed.

(** Reading text in base 64, and bytes in base 256. *)
Definition digit64 (a : ascii) : Z :=
  match list_find (λ c, c = a) encodeURL with Some (i, _) => Z.of_nat i | None => 0 end.
Definition base (k : Z) (l : list Z) : Z := foldl (λ acc d, acc * k + d) 0 l.
Definition value64 (s : string) : Z := base 64 (digit64 <$> str_to_list s).
Definition value256 (b : list ascii) : Z := base 256 (byte_Z <$> b).

Lemma char64_digit v : 0 ≤ v < 64 → digit64 (char64 v) = v ∧ char64 v ∈ encodeURL.
Proof.
  intros Hv. assert (v ∈ seqZ 0 64) as Hin by (apply elem_of_seqZ; lia). revert Hin. clear Hv. revert v. apply Forall_forall.
  by_decide.
Qed.

Lemma bits6_range val sh : 0 ≤ bits6 val sh < 64.
Proof. rewrite /bits6. change 0x3F with (Z.ones 6). rewrite Z.land_ones; [|lia]. by apply Z.mod_pos_bound. Qed.

Lemma bits6_div val sh : 0 ≤ sh → bits6 val sh = val / 2 ^ sh mod 64.
Proof. intros Hs. rewrite /bits6. change 0x3F with (Z.ones 6). rewrite Z.land_ones; [|lia]. by rewrite Z.shiftr_div_pow2. Qed.

(** A group of three bytes is four digits, least significant last. *)
Lemma group_split val : 0 ≤ val < 2 ^ 24 →
  ((bits6 val 18 * 64 + bits6 val 12) * 64 + bits6 val 6) * 64 + bits6 val 0 = val.
Proof. intros Hv. rewrite !bits6_div; [|lia..]. change (2 ^ 0) with 1. Z.to_euclidean_division_equations. lia. Qed.

Lemma lor_shift a b k : 0 ≤ a → 0 ≤ b < 2 ^ k → 0 ≤ k → Z.lor (Z.shiftl a k) b = a * 2 ^ k + b.
Proof.
  intros Ha Hb Hk. rewrite -Z.add_nocarry_lor; [by rewrite Z.shiftl_mul_pow2|].
  apply Z.bits_inj'. intros i Hi. rewrite Z.land_spec Z.bits_0 Z.shiftl_spec //.
  destruct (decide (i < k)); [by rewrite Z.testbit_neg_r; [|lia]|].
  rewrite (proj1 (Z.bounded_iff_bits_nonneg k b Hk (proj1 Hb)) (proj2 Hb) i); [|lia]. apply andb_false_r.
Qed.

Lemma group3 a b c : Z.lor (Z.lor (Z.shiftl (byte_Z a) 16) (Z.shiftl (byte_Z b) 8)) (byte_Z c) =
  (byte_Z a * 256 + byte_Z b) * 256 + byte_Z c.
Proof.
  pose proof (byte_Z_range a). pose proof (byte_Z_range b). pose proof (byte_Z_range c).
  rewrite (lor_shift _ (Z.shiftl (byte_Z b) 8)); [|rewrite ?Z.shiftl_mul_pow2; lia..].
  rewrite Z.shiftl_mul_pow2; [|lia].
  replace (byte_Z a * 2 ^ 16 + byte_Z b * 2 ^ 8) with (Z.shiftl (byte_Z a * 256 + byte_Z b) 8)
    by (rewrite Z.shiftl_mul_pow2; lia).
  rewrite lor_shift; lia.
Qed.

Lemma group2 a b : Z.lor (Z.shiftl (byte_Z a) 16) (Z.shiftl (byte_Z b) 8) = (byte_Z a * 256 + byte_Z b) * 256.
Proof.
  pose proof (byte_Z_range a). pose proof (byte_Z_range b).
  rewrite lor_shift; rewrite ?Z.shiftl_mul_pow2; lia.
Qed.

Lemma base_app k l1 l2 : base k (l1 ++ l2) = base k l1 * k ^ Z.of_nat (length l2) + base k l2.
Proof.
  rewrite /base foldl_app. generalize (foldl (λ acc d, acc * k + d) 0 l1) as x. induction l2 as [|d l2 IH] using rev_ind; intros x.
  { simpl. lia. }
  rewrite !foldl_app /= IH length_app /=. rewrite Nat2Z.inj_add Z.pow_add_r; lia.
Qed.

Lemma base_range k l : 0 < k → Forall (λ d, 0 ≤ d < k) l → 0 ≤ base k l < k ^ Z.of_nat (length l).
Proof.
  intros Hk. induction l as [|d l IH] using rev_ind; [by intros _|]. intros [Hl Hd]%Forall_app. inversion Hd; subst.
  specialize (IH Hl). rewrite base_app length_app /= Nat2Z.inj_add Z.pow_add_r; [|lia..].
  change (base k [d]) with d. change (Z.of_nat 1) with 1. rewrite Z.pow_1_r. nia.
Qed.

(** The text is the bytes as a number in base 64, filled up with [p] zero bits,
    and then padding. *)
Lemma EncodeToString_spec src :
  ∃ ds pad p, EncodeToString src = (char64 <$> ds) ++ pad ∧ Forall (λ d, 0 ≤ d < 64) ds ∧
    0 ≤ p ∧ 6 * Z.of_nat (length ds) = 8 * Z.of_nat (length src) + p ∧ base 64 ds = value256 src * 2 ^ p.
Proof.
  remember (length src) as n eqn:Hn. revert src Hn. induction (lt_wf n) as [n _ IH]. intros src ->.
  destruct src as [|a [|b [|c src]]]; cbn [EncodeToString].
  - exists [], [], 0. split_and!; [done..].
  - set (val := Z.shiftl (byte_Z a) 16). pose proof (byte_Z_range a).
    assert (val = byte_Z a * 2 ^ 16) as Hv by (apply Z.shiftl_mul_pow2; lia).
    exists [bits6 val 18; bits6 val 12], ["="; "="]%char, 4.
    split_and!; [done|repeat (constructor; [apply bits6_range|]); constructor|lia|done|].
    rewrite /value256 /base /= !bits6_div; [|lia..]. rewrite Hv. Z.to_euclidean_division_equations. lia.
  - rewrite group2. set (val := (byte_Z a * 256 + byte_Z b) * 256). pose proof (byte_Z_range a). pose proof (byte_Z_range b).
    exists [bits6 val 18; bits6 val 12; bits6 val 6], ["="]%char, 2.
    split_and!; [done|repeat (constructor; [apply bits6_range|]); constructor|lia|done|].
    rewrite /value256 /base /= !bits6_div; [|lia..]. subst val. Z.to_euclidean_division_equations. lia.
  - rewrite group3. set (val := (byte_Z a * 256 + byte_Z b) * 256 + byte_Z c).
    pose proof (byte_Z_range a). pose proof (byte_Z_range b). pose proof (byte_Z_range c).
    destruct (IH (length src)) with (src := src) as (ds & pad & p & He & Hd & Hp & Hlen & Hb); [simpl; lia|done|].
    exists ([bits6 val 18; bits6 val 12; bits6 val 6; bits6 val 0] ++ ds), pad, p. rewrite He.
    split_and!; [done|apply Forall_app; split; [repeat (constructor; [apply bits6_range|]); constructor|done]|done|
      rewrite length_app /=; lia|].
    assert (value256 (a :: b :: c :: src) = val * 256 ^ Z.of_nat (length src) + value256 src) as ->.
    { rewrite /value256. change (byte_Z <$> a :: b :: c :: src) with ([byte_Z a; byte_Z b; byte_Z c] ++ (byte_Z <$> src)).
      rewrite base_app length_fmap. done. }
    rewrite base_app Hb. assert (base 64 [bits6 val 18; bits6 val 12; bits6 val 6; bits6 val 0] = val) as ->.
    { rewrite /base /=. apply group_split. subst val. lia. }
    rewrite Z.mul_add_distr_r -Z.mul_assoc. do 2 f_equal. change 64 with (2 ^ 6). change 256 with (2 ^ 8).
    rewrite -!Z.pow_mul_r -?Z.pow_add_r; [|lia..]. f_equal. lia.
Qed.

Lemma base_inj k l1 l2 :
  0 < k → Forall (λ d, 0 ≤ d < k) l1 → Forall (λ d, 0 ≤ d < k) l2 → length l1 = length l2 → base k l1 = base k l2 → l1 = l2.
Proof.
  intros Hk. revert l2. induction l1 as [|x l1 IH] using rev_ind; intros l2.
  { by destruct l2. }
  destruct l2 as [|y l2 _] using rev_ind; [rewrite length_app /=; lia|].
  intros [H1 Hx]%Forall_app [H2 Hy]%Forall_app Hlen Hb. inversion Hx; subst. inversion Hy; subst.
  rewrite !length_app /= in Hlen. rewrite !base_app /= !Z.pow_1_r in Hb.
  change (base k [x]) with x in Hb. change (base k [y]) with y in Hb.
  assert (base k l1 = base k l2 ∧ x = y) as [Hb' ->]
    by (apply (Z.div_mod_unique k); [left; lia..|lia]). by rewrite (IH l2 H1 H2 ltac:(lia) Hb').
Qed.

Lemma digits64 ds : Forall (λ d, 0 ≤ d < 64) ds →
  digit64 <$> (char64 <$> ds) = ds ∧ Forall (λ a, a ∈ encodeURL) (char64 <$> ds).
Proof.
  induction 1 as [|d ds Hd _ [IH1 IH2]]; [by split|]. destruct (char64_digit d Hd) as [E Hin].
  rewrite !fmap_cons E IH1. split; [done|by constructor].
Qed.

(** The name as digits: the leading 6n bits of the random bytes. *)
Lemma randstring_digits n b : length b = (2 * n)%nat →
  ∃ ds, randstring n b = Some (str_of_list (char64 <$> ds)) ∧ length ds = n ∧ Forall (λ d, 0 ≤ d < 64) ds ∧
    base 64 ds = value256 b / 2 ^ (10 * Z.of_nat n).
Proof.
  intros Hb. destruct (EncodeToString_spec b) as (ds & pad & p & He & Hd & Hp & Hlen & Hv). rewrite Hb in Hlen.
  assert (n ≤ length ds)%nat as Hn by lia. exists (take n ds).
  assert (Forall (λ d, 0 ≤ d < 64) (take n ds) ∧ Forall (λ d, 0 ≤ d < 64) (drop n ds)) as [Ht Hdr]
    by (apply Forall_app; by rewrite take_drop).
  split_and!.
  - rewrite /randstring He bool_decide_true; [|rewrite length_app length_fmap; lia]. rewrite take_app_le; [|rewrite length_fmap; lia].
    by rewrite -fmap_take.
  - rewrite length_take. lia.
  - done.
  - pose proof (base_range 64 _ ltac:(lia) Hdr) as Hr. rewrite length_drop in Hr.
    rewrite -{1}(take_drop n ds) base_app length_drop in Hv.
    assert (base 64 (take n ds) = (value256 b * 2 ^ p) / 64 ^ Z.of_nat (length ds - n)) as ->.
    { rewrite -Hv. symmetry. rewrite Z.div_add_l; [|lia]. rewrite Z.div_small //. lia. }
    replace (64 ^ Z.of_nat (length ds - n)) with (2 ^ (10 * Z.of_nat n) * 2 ^ p).
    + rewrite Z.div_mul_cancel_r //; lia.
    + change 64 with (2 ^ 6). rewrite -Z.pow_mul_r -?Z.pow_add_r; [|lia..]. f_equal. lia.
Qed.

(** The random names of the test configurations. From 2n random bytes
    randstring never panics and makes a name of exactly n characters, letters,
    digits, hyphens and underscores, no padding; read in base 64 it is the leading
    6n bits of the bytes, so that two draws give the same name exactly when these
    bits are the same. *)
Theorem randstring_names n b : length b = (2 * n)%nat →
  ∃ s, randstring n b = Some s ∧ String.length s = n ∧ Forall (λ a, a ∈ encodeURL) (str_to_list s) ∧
    value64 s = value256 b / 2 ^ (10 * Z.of_nat n) ∧
    ∀ b', length b' = (2 * n)%nat →
      randstring n b' = Some s ↔ value256 b' / 2 ^ (10 * Z.of_nat n) = value256 b / 2 ^ (10 * Z.of_nat n).
Proof.
  intros Hb. destruct (randstring_digits n b Hb) as (ds & Hs & Hlen & Hd & Hv). destruct (digits64 ds Hd) as [E1 E2].
  eexists. split; [done|]. rewrite -length_str_to_list /value64 !str_to_of_list length_fmap E1. split_and!; [done..|].
  intros b' Hb'. destruct (randstring_digits n b' Hb') as (ds' & Hs' & Hlen' & Hd' & Hv'). destruct (digits64 ds' Hd') as [E1' _].
  rewrite Hs' -Hv -Hv'. split.
  - intros [= He]. apply (f_equal str_to_list) in He. rewrite !str_to_of_list in He. by rewrite -E1 -E1' He.
  - intros He. do 2 f_equal. f_equal. apply (base_inj 64); [lia|done..|congruence|done].
Qed.

Lemma randstring_names_witness :
  ∃ s, randstring 3 (str_to_list "random") = Some s ∧ String.length s = 3%nat ∧ s = "cmF".
Proof.
  destruct (randstring_names 3 (str_to_list "random") eq_refl) as (s & Hs & Hl & _).
  exists s. split; [exact Hs|]. split; [exact Hl|]. vm_compute in Hs. congruence.
Defined.
