(* ===== verification/MrTypes.v ===== *)
(** * Package [mr]: data, tasks and RPC messages

    Models [mr/data.go], [mr/task.go], [mr/rpc.go] and [mr/global_id.go]:
    key/value pairs and the bucket hash, the task record and its two methods,
    the argument and reply structs of the RPCs, and the global ID counter. *)
From S2P Require Import Prelude GoBase.

(** ** [data.go] *)

Abbreviation Key := string (only parsing).
Abbreviation Value := string (only parsing).

Record KeyValue := mkKV { kv_Key : string; kv_Value : string }.

#[global] Instance KeyValue_eq_dec : EqDecision KeyValue.
Proof. solve_decision. Defined.

(** FNV-1a, 32 bits ([hash/fnv.New32a]). *)
Definition fnv_offset32 : Z := 2166136261.
Definition fnv_prime32 : Z := 16777619.

Fixpoint fnv32a (s : string) (hash : Z) : Z :=
  match s with
  | "" => hash
  | String a s' => fnv32a s' (wrap_u32 (Z.lxor hash (byte_Z a) * fnv_prime32))
  end.

Definition ihash (key : Key) : Z := Z.land (fnv32a key fnv_offset32) 0x7fffffff.

Lemma ihash_range key : 0 ≤ ihash key < 2 ^ 31.
Proof.
  rewrite /ihash. change 0x7fffffff with (Z.ones 31).
  rewrite Z.land_ones; [|lia]. by apply Z.mod_pos_bound.
Qed.

(** The remainder Go computes for [ihash(key) % nBuckets] is in range: Go's
    [%] truncates, which agrees with the mathematical remainder because the
    hash is never negative. *)
Lemma ihash_bucket_range key n : 0 < n → 0 ≤ Z.rem (ihash key) n < n.
Proof.
  intros Hn. pose proof (ihash_range key).
  rewrite Z.rem_mod_nonneg; [|lia..]. by apply Z.mod_pos_bound.
Qed.

(** ** [task.go] *)

Abbreviation TaskID := Z (only parsing).

Inductive TaskState := TaskStateNone | TaskStateUnassigned | TaskStateRunning | TaskStateDone.
Inductive TaskType := TaskNone | TaskWait | TaskMap | TaskReduce.

#[global] Instance TaskState_eq_dec : EqDecision TaskState.
Proof. solve_decision. Defined.
#[global] Instance TaskType_eq_dec : EqDecision TaskType.
Proof. solve_decision. Defined.

Definition taskTimeout : Z := 10 * Second.

Record Task := mkTask {
  ID : TaskID;
  Type_ : TaskType;
  State : TaskState;
  AssignedAt : Z;
}.

(** [func (t *Task) IsTimedOut() bool], at the clock reading [now]. *)
Definition IsTimedOut (now : Z) (t : Task) : bool :=
  bool_decide (taskTimeout ≤ time_Since now (AssignedAt t)).

(** [func (t *Task) MarkRunning(now time.Time)] *)
Definition MarkRunning (now : Z) (t : Task) : Task :=
  {| ID := ID t; Type_ := Type_ t; State := TaskStateRunning; AssignedAt := now |}.

(** [t.State = st] *)
Definition set_State (st : TaskState) (t : Task) : Task :=
  {| ID := ID t; Type_ := Type_ t; State := st; AssignedAt := AssignedAt t |}.

Record MapTask := mkMapTask {
  mt_Task : Task;
  mt_File : string;
  mt_Buckets : Z;
}.

Record ReduceTask := mkReduceTask {
  rt_Task : Task;
  rt_Bucket : Z;
  rt_MapTaskOutputs : gmap TaskID string;
}.

Definition upd_map_Task (f : Task → Task) (mt : MapTask) : MapTask :=
  {| mt_Task := f (mt_Task mt); mt_File := mt_File mt; mt_Buckets := mt_Buckets mt |}.

Definition upd_reduce_Task (f : Task → Task) (rt : ReduceTask) : ReduceTask :=
  {| rt_Task := f (rt_Task rt); rt_Bucket := rt_Bucket rt;
     rt_MapTaskOutputs := rt_MapTaskOutputs rt |}.

Definition upd_outputs (f : gmap TaskID string → gmap TaskID string)
    (rt : ReduceTask) : ReduceTask :=
  {| rt_Task := rt_Task rt; rt_Bucket := rt_Bucket rt;
     rt_MapTaskOutputs := f (rt_MapTaskOutputs rt) |}.

(** ** [rpc.go] *)

Record MapTaskData := mkMapTaskData {
  md_Key : string;
  md_Content : string;
  md_Buckets : Z;
}.

Record ReduceTaskData := mkReduceTaskData {
  rd_Bucket : Z;
  rd_MapTaskOutputs : gmap TaskID string;
}.

(** The reply as the worker decodes it; a nil pointer is [None]. *)
Record TaskReply := mkTaskReply {
  tr_Task : option Task;
  tr_MapData : option MapTaskData;
  tr_ReduceData : option ReduceTaskData;
}.

Record ReportTaskCompletionArgs := mkReportTaskCompletionArgs {
  rc_Task : option Task;
  rc_WorkerAddress : string;
}.

Record ReportMissingMapOutputsArgs := mkReportMissingMapOutputsArgs {
  rm_MapTaskID : TaskID;
}.

Record FetchBucketArgs := mkFetchBucketArgs {
  fb_MapTaskID : TaskID;
  fb_Bucket : Z;
}.

Record FetchBucketReply := mkFetchBucketReply {
  fr_KeyValues : list KeyValue;
}.

(** ** [global_id.go] *)

(** [globalID++; return globalID]: the new counter and the value returned. *)
Definition getGlobalID (globalID : Z) : Z * Z :=
  let globalID' := wrap_i64 (globalID + 1) in (globalID', globalID').
