(* ===== verification/MrCoordinator.v ===== *)
(** * Package [mr]: the coordinator

    Models [mr/coordinator.go]. The coordinator's two maps hold pointers to
    tasks; each pointer is stored under one key only, so the heap they point
    into is the pair of maps itself and a pointer is the key it is stored
    under. [RequestTask] puts such pointers into its reply: the reply it
    returns is a [ReplyRef], and [encode_reply] is what [net/rpc] does with it
    after the handler has returned and released the lock. *)
From S2P Require Import Prelude GoBase MrTypes.

Record Coordinator := mkCoordinator {
  mapTasks : gmap TaskID MapTask;
  reduceTasks : gmap TaskID ReduceTask;
}.

(** ** Replies before they are encoded *)

(** [*Task]: a task owned by the coordinator, or a fresh one. *)
Inductive TaskPtr :=
  | PtrMap (id : TaskID)
  | PtrReduce (id : TaskID)
  | PtrFresh (t : Task).

(** [TaskReply] with the pointers and the map it shares with the coordinator;
    [rr_ReduceData] is the bucket and the reduce task whose [MapTaskOutputs]
    map the reply refers to. *)
Record ReplyRef := mkReplyRef {
  rr_Task : TaskPtr;
  rr_MapData : option MapTaskData;
  rr_ReduceData : option (Z * TaskID);
}.

Definition deref_Task (c : Coordinator) (p : TaskPtr) : option Task :=
  match p with
  | PtrMap id => mt_Task <$> mapTasks c !! id
  | PtrReduce id => rt_Task <$> reduceTasks c !! id
  | PtrFresh t => Some t
  end.

Definition encode_reply (c : Coordinator) (r : ReplyRef) : TaskReply :=
  {| tr_Task := deref_Task c (rr_Task r);
     tr_MapData := rr_MapData r;
     tr_ReduceData :=
       '(bucket, id) ← rr_ReduceData r;
       rt ← reduceTasks c !! id;
       Some {| rd_Bucket := bucket; rd_MapTaskOutputs := rt_MapTaskOutputs rt |} |}.

(** ** [MakeCoordinator] *)

Definition make_map_task (taskID : TaskID) (filePath : string) (nReduceTasks : Z) : MapTask :=
  {| mt_Task := {| ID := taskID; Type_ := TaskMap; State := TaskStateUnassigned;
                   AssignedAt := zero_time |};
     mt_File := filePath; mt_Buckets := nReduceTasks |}.

Definition make_reduce_task (taskID : TaskID) (bucket : Z) : ReduceTask :=
  {| rt_Task := {| ID := taskID; Type_ := TaskReduce; State := TaskStateUnassigned;
                   AssignedAt := zero_time |};
     rt_Bucket := bucket; rt_MapTaskOutputs := ∅ |}.

Fixpoint make_map_tasks (files : list string) (n : Z) (globalID : Z)
    (m : gmap TaskID MapTask) : Z * gmap TaskID MapTask :=
  match files with
  | [] => (globalID, m)
  | filePath :: files' =>
      let '(globalID', taskID) := getGlobalID globalID in
      make_map_tasks files' n globalID' (<[taskID := make_map_task taskID filePath n]> m)
  end.

(** The loop [for bucket := 0; bucket < nReduceTasks; bucket++], from [bucket]
    with [k] iterations left. *)
Fixpoint make_reduce_tasks (k : nat) (bucket : Z) (globalID : Z)
    (m : gmap TaskID ReduceTask) : Z * gmap TaskID ReduceTask :=
  match k with
  | O => (globalID, m)
  | S k' =>
      let '(globalID', taskID) := getGlobalID globalID in
      make_reduce_tasks k' (bucket + 1) globalID'
        (<[taskID := make_reduce_task taskID bucket]> m)
  end.

Definition MakeCoordinator (globalID : Z) (files : list string) (nReduceTasks : Z)
    : Z * Coordinator :=
  let '(globalID1, ms) := make_map_tasks files nReduceTasks globalID ∅ in
  let '(globalID2, rs) := make_reduce_tasks (Z.to_nat nReduceTasks) 0 globalID1 ∅ in
  (globalID2, {| mapTasks := ms; reduceTasks := rs |}).

(** ** Queries under the lock *)

Definition task_done (t : Task) : bool := bool_decide (State t = TaskStateDone).

Definition allMapTasksDoneLocked (c : Coordinator) : bool :=
  map_all (λ mt, task_done (mt_Task mt)) (mapTasks c).

Definition allReduceTasksDoneLocked (c : Coordinator) : bool :=
  map_all (λ rt, task_done (rt_Task rt)) (reduceTasks c).

Definition Done (c : Coordinator) : bool :=
  allMapTasksDoneLocked c && allReduceTasksDoneLocked c.

Definition shouldAssignTask (now : Z) (task : Task) : bool :=
  bool_decide (State task = TaskStateUnassigned) ||
  (bool_decide (State task = TaskStateRunning) && IsTimedOut now task).

(** [clk id] is the clock when the loop looks at task [id]; [ord] is the order
    in which [range] visits the map. The result is the pointer found, with the
    struct it points to. *)
Definition pickMapTaskLocked (clk : TaskID → Z) (ord : list TaskID) (c : Coordinator)
    : option (TaskID * MapTask) :=
  find_first (λ p, shouldAssignTask (clk p.1) (mt_Task p.2)) (range_visit ord (mapTasks c)).

Definition pickReduceTaskLocked (clk : TaskID → Z) (ord : list TaskID) (c : Coordinator)
    : option (TaskID * ReduceTask) :=
  find_first (λ p, shouldAssignTask (clk p.1) (rt_Task p.2)) (range_visit ord (reduceTasks c)).

(** ** RPC handlers *)

Inductive CoordErr := ErrCannotReadFile (file : string).

Definition wait_reply (now : Z) : ReplyRef :=
  {| rr_Task := PtrFresh (MarkRunning now {| ID := 0; Type_ := TaskWait;
                            State := TaskStateNone; AssignedAt := zero_time |});
     rr_MapData := None; rr_ReduceData := None |}.

Definition mark_map_running (now : Z) (id : TaskID) (c : Coordinator) : Coordinator :=
  {| mapTasks := alter (upd_map_Task (MarkRunning now)) id (mapTasks c);
     reduceTasks := reduceTasks c |}.

Definition mark_reduce_running (now : Z) (id : TaskID) (c : Coordinator) : Coordinator :=
  {| mapTasks := mapTasks c;
     reduceTasks := alter (upd_reduce_Task (MarkRunning now)) id (reduceTasks c) |}.

(** What the environment supplies to one call of [RequestTask]: the clock
    readings, the two iteration orders and the disk [os.ReadFile] reads. *)
Record ReqEnv := mkReqEnv {
  re_clk : TaskID → Z;
  re_now : Z;
  re_mapOrd : list TaskID;
  re_reduceOrd : list TaskID;
  re_ReadFile : string → option string;
}.

(** The orders are iteration orders of the two maps. *)
Definition env_ok (e : ReqEnv) (c : Coordinator) : Prop :=
  range_order (re_mapOrd e) (mapTasks c) ∧ range_order (re_reduceOrd e) (reduceTasks c).

Definition RequestTask (e : ReqEnv) (c : Coordinator) : Coordinator * res CoordErr ReplyRef :=
  match pickMapTaskLocked (re_clk e) (re_mapOrd e) c with
  | Some (id, mapTask) =>
      let c' := mark_map_running (re_now e) id c in
      match re_ReadFile e (mt_File mapTask) with
      | None => (c', inl (ErrCannotReadFile (mt_File mapTask)))
      | Some fileContent =>
          (c', inr {| rr_Task := PtrMap id;
                      rr_MapData := Some {| md_Key := mt_File mapTask;
                                            md_Content := fileContent;
                                            md_Buckets := mt_Buckets mapTask |};
                      rr_ReduceData := None |})
      end
  | None =>
      if negb (allMapTasksDoneLocked c) then (c, inr (wait_reply (re_now e)))
      else
        match pickReduceTaskLocked (re_clk e) (re_reduceOrd e) c with
        | Some (id, reduceTask) =>
            (mark_reduce_running (re_now e) id c,
             inr {| rr_Task := PtrReduce id; rr_MapData := None;
                    rr_ReduceData := Some (rt_Bucket reduceTask, id) |})
        | None => (c, inr (wait_reply (re_now e)))
        end
  end.

(** The nil dereference of [args.Task] is the only way this handler panics. *)
Definition ReportTaskCompletion (args : ReportTaskCompletionArgs) (c : Coordinator)
    : option Coordinator :=
  match rc_Task args with
  | None => None
  | Some task =>
      Some
        match Type_ task with
        | TaskMap =>
            match mapTasks c !! ID task with
            | Some mapTask =>
                if negb (bool_decide (State (mt_Task mapTask) = TaskStateDone)) then
                  {| mapTasks := <[ID task := upd_map_Task (set_State TaskStateDone) mapTask]>
                                   (mapTasks c);
                     reduceTasks :=
                       upd_outputs (λ outs, <[ID (mt_Task mapTask) := rc_WorkerAddress args]> outs)
                         <$> reduceTasks c |}
                else c
            | None => c
            end
        | TaskReduce =>
            match reduceTasks c !! ID task with
            | Some reduceTask =>
                {| mapTasks := mapTasks c;
                   reduceTasks := <[ID task := upd_reduce_Task (set_State TaskStateDone) reduceTask]>
                                    (reduceTasks c) |}
            | None => c
            end
        | _ => c
        end
  end.

Definition reset_task (t : Task) : Task :=
  {| ID := ID t; Type_ := Type_ t; State := TaskStateUnassigned; AssignedAt := zero_time |}.

Definition ReportMissingMapOutputs (args : ReportMissingMapOutputsArgs) (c : Coordinator)
    : Coordinator :=
  match mapTasks c !! rm_MapTaskID args with
  | None => c
  | Some mapTask =>
      if bool_decide (State (mt_Task mapTask) = TaskStateDone) then
        {| mapTasks := <[rm_MapTaskID args := upd_map_Task reset_task mapTask]> (mapTasks c);
           reduceTasks := upd_outputs (delete (ID (mt_Task mapTask))) <$> reduceTasks c |}
      else c
  end.

(** ** The coordinator as a transition system *)

Inductive coord_step : Coordinator → Coordinator → Prop :=
  | cs_request e c c' r :
      env_ok e c → RequestTask e c = (c', r) → coord_step c c'
  | cs_complete args c c' :
      ReportTaskCompletion args c = Some c' → coord_step c c'
  | cs_missing args c :
      coord_step c (ReportMissingMapOutputs args c).

(** What never changes: the input file and bucket count of each map task, the
    bucket of each reduce task. *)
Definition map_skel (c : Coordinator) : gmap TaskID (string * Z) :=
  (λ mt, (mt_File mt, mt_Buckets mt)) <$> mapTasks c.
Definition reduce_skel (c : Coordinator) : gmap TaskID Z := rt_Bucket <$> reduceTasks c.

(** The invariant: tasks sit under their own IDs with their types and a real
    state, and the producers recorded in every reduce task are exactly those
    of the completed map tasks. *)
Record coord_wf (c : Coordinator) : Prop := {
  wf_map : ∀ id mt, mapTasks c !! id = Some mt →
    ID (mt_Task mt) = id ∧ Type_ (mt_Task mt) = TaskMap ∧ State (mt_Task mt) ≠ TaskStateNone;
  wf_reduce : ∀ id rt, reduceTasks c !! id = Some rt →
    ID (rt_Task rt) = id ∧ Type_ (rt_Task rt) = TaskReduce ∧ State (rt_Task rt) ≠ TaskStateNone;
  wf_outputs : ∀ rid rt tid, reduceTasks c !! rid = Some rt →
    is_Some (rt_MapTaskOutputs rt !! tid) ↔
    ∃ mt, mapTasks c !! tid = Some mt ∧ State (mt_Task mt) = TaskStateDone;
}.

(** ** Lemmas *)

Lemma wrap_i64_small z : - 2 ^ 63 ≤ z < 2 ^ 63 → wrap_i64 z = z.
Proof. intros Hz. rewrite /wrap_i64 Z.mod_small; lia. Qed.

Lemma make_map_tasks_spec files n : ∀ g m,
  0 ≤ g → g + Z.of_nat (length files) < 2 ^ 63 →
  let '(g', m') := make_map_tasks files n g m in
  g' = g + Z.of_nat (length files) ∧
  ∀ id, m' !! id =
    match files !! Z.to_nat (id - g - 1) with
    | Some f => if bool_decide (g < id) then Some (make_map_task id f n) else m !! id
    | None => m !! id
    end.
Proof.
  induction files as [|f files IH]; intros g m Hg Hlen; simpl.
  - split; [lia|done].
  - simpl in Hlen. rewrite wrap_i64_small; [|lia].
    specialize (IH (g + 1) (<[g + 1 := make_map_task (g + 1) f n]> m)).
    destruct (make_map_tasks files n _ _) as [g' m'].
    destruct IH as [-> Hm']; [lia..|]. split; [lia|]. intros id. rewrite Hm'.
    destruct (Z.lt_total id (g + 1)) as [Hlt|[->|Hgt]].
    + rewrite (lookup_insert_ne m); [|lia].
      rewrite !(bool_decide_eq_false_2 (_ < id)); [|lia..].
      by repeat case_match.
    + rewrite (bool_decide_eq_false_2 (g + 1 < g + 1)); [|lia].
      replace (g + 1 - g - 1) with 0 by lia. simpl.
      rewrite bool_decide_eq_true_2; [|lia].
      rewrite lookup_insert_eq. by destruct (files !! _).
    + rewrite (lookup_insert_ne m); [|lia].
      rewrite !bool_decide_eq_true_2; [|lia..].
      replace (Z.to_nat (id - g - 1)) with (S (Z.to_nat (id - (g + 1) - 1))) by lia.
      done.
Qed.

Lemma make_reduce_tasks_spec k : ∀ b g m,
  0 ≤ g → g + Z.of_nat k < 2 ^ 63 →
  let '(g', m') := make_reduce_tasks k b g m in
  g' = g + Z.of_nat k ∧
  ∀ id, m' !! id =
    if bool_decide (g < id ≤ g + Z.of_nat k)
    then Some (make_reduce_task id (b + (id - g - 1))) else m !! id.
Proof.
  induction k as [|k IH]; intros b g m Hg Hk; simpl.
  - split; [lia|]. intros id. rewrite bool_decide_eq_false_2; [done|lia].
  - rewrite wrap_i64_small; [|lia].
    specialize (IH (b + 1) (g + 1) (<[g + 1 := make_reduce_task (g + 1) b]> m)).
    destruct (make_reduce_tasks k _ _ _) as [g' m'].
    destruct IH as [-> Hm']; [lia..|]. split; [lia|]. intros id. rewrite Hm'.
    repeat case_bool_decide; try lia.
    + do 2 f_equal. lia.
    + assert (id = g + 1) as -> by lia. rewrite lookup_insert_eq.
      do 2 f_equal. lia.
    + rewrite lookup_insert_ne; [done|lia].
Qed.
