(* ===== verification/MrCoordinatorThm.v ===== *)
(** * Package [mr]: theorems about the coordinator

    The initial state, the invariant [coord_wf] and the task skeleton along
    every sequence of RPCs, what [RequestTask] may hand out and when it makes
    a worker wait, the map/reduce barrier, and completion. *)
From S2P Require Import Prelude GoBase MrTypes MrCoordinator.

(** ** Initial state *)

Section make.
Context (files : list string) (n : Z).
Abbreviation nfiles := (Z.of_nat (length files)).
Hypothesis Hfits : nfiles + Z.max 0 n < 2 ^ 63.
Abbreviation c0 := (MakeCoordinator 0 files n).2.

Lemma MakeCoordinator_map_lookup id mt :
  mapTasks c0 !! id = Some mt ↔
  ∃ i f, files !! i = Some f ∧ id = Z.of_nat i + 1 ∧ mt = make_map_task id f n.
Proof using Hfits.
  rewrite /MakeCoordinator.
  pose proof (make_map_tasks_spec files n 0 ∅) as Hm.
  destruct (make_map_tasks files n 0 ∅) as [g1 ms].
  destruct Hm as [-> Hms]; [lia..|].
  destruct (make_reduce_tasks _ _ _ _) as [g2 rs]. simpl. rewrite Hms lookup_empty.
  split.
  - destruct (files !! _) as [f|] eqn:Hf; [|done]. case_bool_decide; [|done].
    intros [= <-]. exists (Z.to_nat (id - 0 - 1)), f. split; [done|]. split; [lia|done].
  - intros (i & f & Hf & -> & ->).
    replace (Z.to_nat (Z.of_nat i + 1 - 0 - 1)) with i by lia. rewrite Hf.
    rewrite bool_decide_eq_true_2; [done|lia].
Qed.

Lemma MakeCoordinator_reduce_lookup id rt :
  reduceTasks c0 !! id = Some rt ↔
  ∃ b, 0 ≤ b < n ∧ id = nfiles + 1 + b ∧ rt = make_reduce_task id b.
Proof using Hfits.
  rewrite /MakeCoordinator.
  pose proof (make_map_tasks_spec files n 0 ∅) as Hm.
  destruct (make_map_tasks files n 0 ∅) as [g1 ms]. destruct Hm as [-> _]; [lia..|].
  pose proof (make_reduce_tasks_spec (Z.to_nat n) 0 (0 + nfiles) ∅) as Hr.
  destruct (make_reduce_tasks _ _ _ _) as [g2 rs]. destruct Hr as [-> Hrs]; [lia..|].
  simpl. rewrite Hrs lookup_empty. split.
  - case_bool_decide; [|done]. intros [= <-].
    exists (id - nfiles - 1). split; [lia|]. split; [lia|]. f_equal; lia.
  - intros (b & Hb & -> & ->). rewrite bool_decide_eq_true_2; [|lia].
    do 2 f_equal. lia.
Qed.

Lemma MakeCoordinator_wf : coord_wf c0.
Proof using Hfits.
  split.
  - intros id mt (i & f & _ & -> & ->)%MakeCoordinator_map_lookup. done.
  - intros id rt (b & _ & -> & ->)%MakeCoordinator_reduce_lookup. done.
  - intros rid rt tid (b & _ & -> & ->)%MakeCoordinator_reduce_lookup. simpl.
    rewrite lookup_empty. split; [by intros [? ?]|].
    by intros (mt & (i & f & _ & -> & ->)%MakeCoordinator_map_lookup & ?).
Qed.
End make.

(** ** One step *)

(** What a pick returns: an entry of the map that may be assigned; [None] only
    when there is none. *)
Lemma pickMap_Some clk ord c id mt :
  pickMapTaskLocked clk ord c = Some (id, mt) →
  mapTasks c !! id = Some mt ∧ shouldAssignTask (clk id) (mt_Task mt) = true.
Proof. intros [[_ ?]%elem_of_range_visit ?]%find_first_Some. done. Qed.

Lemma pickMap_None clk ord c :
  range_order ord (mapTasks c) → pickMapTaskLocked clk ord c = None ↔
  ∀ id mt, mapTasks c !! id = Some mt → shouldAssignTask (clk id) (mt_Task mt) = false.
Proof.
  intros Ho. rewrite /pickMapTaskLocked find_first_None. split.
  - intros Hf id mt Hid. apply (Hf (id, mt)). by apply elem_of_range_visit_full.
  - intros Hf [id mt] Hin. apply Hf. by apply (elem_of_range_visit_full ord).
Qed.

Lemma pickReduce_Some clk ord c id rt :
  pickReduceTaskLocked clk ord c = Some (id, rt) →
  reduceTasks c !! id = Some rt ∧ shouldAssignTask (clk id) (rt_Task rt) = true.
Proof. intros [[_ ?]%elem_of_range_visit ?]%find_first_Some. done. Qed.

Lemma pickReduce_None clk ord c :
  range_order ord (reduceTasks c) → pickReduceTaskLocked clk ord c = None ↔
  ∀ id rt, reduceTasks c !! id = Some rt → shouldAssignTask (clk id) (rt_Task rt) = false.
Proof.
  intros Ho. rewrite /pickReduceTaskLocked find_first_None. split.
  - intros Hf id rt Hid. apply (Hf (id, rt)). by apply elem_of_range_visit_full.
  - intros Hf [id rt] Hin. apply Hf. by apply (elem_of_range_visit_full ord).
Qed.

Lemma shouldAssign_not_done now t :
  shouldAssignTask now t = true → State t ≠ TaskStateDone.
Proof. rewrite /shouldAssignTask. destruct (State t); done. Qed.

Lemma allMapTasksDone_true c :
  allMapTasksDoneLocked c = true ↔
  ∀ id mt, mapTasks c !! id = Some mt → State (mt_Task mt) = TaskStateDone.
Proof.
  rewrite /allMapTasksDoneLocked map_all_true /task_done.
  by setoid_rewrite bool_decide_eq_true.
Qed.

Lemma allReduceTasksDone_true c :
  allReduceTasksDoneLocked c = true ↔
  ∀ id rt, reduceTasks c !! id = Some rt → State (rt_Task rt) = TaskStateDone.
Proof.
  rewrite /allReduceTasksDoneLocked map_all_true /task_done.
  by setoid_rewrite bool_decide_eq_true.
Qed.

(** The three ways in which a handler changes the tables. *)
Lemma mark_map_running_wf now id mt c :
  coord_wf c → mapTasks c !! id = Some mt → State (mt_Task mt) ≠ TaskStateDone →
  coord_wf (mark_map_running now id c).
Proof.
  intros [Hm Hr Ho] Hid Hst. split; simpl; [|done|].
  - intros id' mt'. rewrite lookup_alter. case_decide; [subst id'|by apply Hm].
    rewrite Hid. intros [= <-]. by destruct (Hm _ _ Hid) as (? & ? & ?).
  - intros rid rt tid Hrid. rewrite (Ho _ _ tid Hrid) lookup_alter.
    case_decide; [subst tid|done]. rewrite Hid. split; intros (mt' & [= <-] & ?); done.
Qed.

Lemma mark_reduce_running_wf now id c :
  coord_wf c → coord_wf (mark_reduce_running now id c).
Proof.
  intros [Hm Hr Ho]. split; simpl; [done|..].
  - intros id' rt'. rewrite lookup_alter. case_decide; [subst id'|by apply Hr].
    intros (rt & Hid & ->)%fmap_Some. by destruct (Hr _ _ Hid) as (? & ? & ?).
  - intros rid rt tid. rewrite lookup_alter. case_decide; [|by apply Ho].
    intros (rt' & Hid & ->)%fmap_Some. by apply (Ho id rt').
Qed.

Lemma RequestTask_wf e c c' r :
  coord_wf c → RequestTask e c = (c', r) → coord_wf c'.
Proof.
  intros Hwf. rewrite /RequestTask.
  destruct (pickMapTaskLocked _ _ _) as [[id mt]|] eqn:Hpick.
  - apply pickMap_Some in Hpick as [Hid Hs%shouldAssign_not_done].
    pose proof (mark_map_running_wf (re_now e) _ _ _ Hwf Hid Hs).
    by destruct (re_ReadFile _ _); intros [= <- <-].
  - destruct (negb _); [by intros [= <- <-]|].
    destruct (pickReduceTaskLocked _ _ _) as [[id rt]|]; intros [= <- <-]; [|done].
    by apply mark_reduce_running_wf.
Qed.

Lemma ReportTaskCompletion_wf args c c' :
  coord_wf c → ReportTaskCompletion args c = Some c' → coord_wf c'.
Proof.
  rewrite /ReportTaskCompletion. intros Hwf H. destruct (rc_Task args) as [task|]; [|done].
  injection H as <-. destruct Hwf as [Hm Hr Ho]. destruct (Type_ task); [done..| |].
  - destruct (mapTasks c !! ID task) as [mt|] eqn:Hid; [|done].
    destruct (Hm _ _ Hid) as (HID & Hty & _). case_bool_decide as Hst; [done|]. simpl.
    split; simpl.
    + intros id' mt'. rewrite lookup_insert. case_decide as Hd; [subst id'|by apply Hm].
      by intros [= <-].
    + intros id' rt'. rewrite lookup_fmap. intros (rt & Hrt & ->)%fmap_Some. by apply (Hr _ rt).
    + intros rid rt' tid. rewrite lookup_fmap. intros (rt & Hrt & ->)%fmap_Some. simpl.
      rewrite HID !lookup_insert. case_decide as Hd; [|by apply (Ho _ rt _ ltac:(eassumption))].
      subst tid. split; [by eauto|done].
  - destruct (reduceTasks c !! ID task) as [rt|] eqn:Hid; [|done]. split; simpl; [done|..].
    + intros id' rt'. rewrite lookup_insert. case_decide as Hd; [subst id'|by apply Hr].
      intros [= <-]. by destruct (Hr _ _ Hid) as (? & ? & ?).
    + intros rid rt' tid. rewrite lookup_insert. case_decide as Hd; [subst rid|by apply Ho].
      intros [= <-]. by apply (Ho _ rt _ ltac:(eassumption)).
Qed.

Lemma ReportMissingMapOutputs_wf args c :
  coord_wf c → coord_wf (ReportMissingMapOutputs args c).
Proof.
  rewrite /ReportMissingMapOutputs. intros [Hm Hr Ho].
  destruct (mapTasks c !! _) as [mt|] eqn:Hid; [|done].
  destruct (Hm _ _ Hid) as (HID & Hty & _). case_bool_decide as Hst; [|done].
  split; simpl.
  - intros id' mt'. rewrite lookup_insert. case_decide as Hd; [subst id'|by apply Hm].
    by intros [= <-].
  - intros id' rt'. rewrite lookup_fmap. intros (rt & Hrt & ->)%fmap_Some. by apply (Hr _ rt).
  - intros rid rt' tid. rewrite lookup_fmap. intros (rt & Hrt & ->)%fmap_Some. simpl.
    rewrite HID lookup_delete lookup_insert. case_decide as Hd; [|by apply (Ho _ rt _ ltac:(eassumption))].
    split; [by intros [? ?]|]. by intros (mt' & [= <-] & ?).
Qed.

(** No handler changes the skeleton. *)
Lemma coord_step_skel c c' :
  coord_step c c' → map_skel c' = map_skel c ∧ reduce_skel c' = reduce_skel c.
Proof.
  intros [e c1 c2 r Henv Hreq|args c1 c2 Hrep|args c1]; rewrite /map_skel /reduce_skel.
  - revert Hreq. rewrite /RequestTask.
    destruct (pickMapTaskLocked _ _ _) as [[id mt]|].
    + destruct (re_ReadFile _ _); intros [= <- <-]; simpl; by rewrite fmap_alter_same.
    + destruct (negb _); [by intros [= <- <-]|].
      destruct (pickReduceTaskLocked _ _ _) as [[id rt]|]; intros [= <- <-]; simpl;
        by rewrite ?fmap_alter_same.
  - revert Hrep. rewrite /ReportTaskCompletion.
    destruct (rc_Task args) as [task|]; [|done]. intros [= <-].
    destruct (Type_ task); [done..| |].
    + destruct (mapTasks c1 !! _) as [mt|] eqn:Hid; [|done]. case_bool_decide; [done|]; simpl.
      by rewrite (fmap_insert_same _ _ mt) // fmap_fmap_same.
    + destruct (reduceTasks c1 !! _) as [rt|] eqn:Hid; [|done]; simpl.
      by rewrite (fmap_insert_same _ _ rt).
  - rewrite /ReportMissingMapOutputs. destruct (mapTasks c1 !! _) as [mt|] eqn:Hid; [|done].
    case_bool_decide; [|done]; simpl. by rewrite (fmap_insert_same _ _ mt) // fmap_fmap_same.
Qed.

Lemma coord_step_wf c c' : coord_step c c' → coord_wf c → coord_wf c'.
Proof.
  intros [e c1 c2 r Henv Hreq|args c1 c2 Hrep|args c1] Hwf.
  - by eapply RequestTask_wf.
  - by eapply ReportTaskCompletion_wf.
  - by apply ReportMissingMapOutputs_wf.
Qed.

#[export] Hint Resolve MakeCoordinator_wf RequestTask_wf ReportTaskCompletion_wf
  ReportMissingMapOutputs_wf : labs.

Lemma coord_steps_wf c c' :
  rtc coord_step c c' → coord_wf c →
  coord_wf c' ∧ map_skel c' = map_skel c ∧ reduce_skel c' = reduce_skel c.
Proof.
  induction 1 as [c|c1 c2 c3 Hs _ IH]; [done|]. intros Hwf.
  destruct IH as (? & -> & ->); [by eapply coord_step_wf|].
  destruct (coord_step_skel _ _ Hs) as [-> ->]. done.
Qed.

(** What [RequestTask] can answer, as a case analysis on the reply. *)
Lemma RequestTask_inv e c c' out :
  RequestTask e c = (c', out) →
  (∃ id mt, mapTasks c !! id = Some mt ∧
     shouldAssignTask (re_clk e id) (mt_Task mt) = true ∧
     c' = mark_map_running (re_now e) id c ∧
     out = match re_ReadFile e (mt_File mt) with
           | None => inl (ErrCannotReadFile (mt_File mt))
           | Some content => inr {| rr_Task := PtrMap id;
               rr_MapData := Some {| md_Key := mt_File mt; md_Content := content;
                                     md_Buckets := mt_Buckets mt |};
               rr_ReduceData := None |}
           end) ∨
  (∃ id rt, reduceTasks c !! id = Some rt ∧
     shouldAssignTask (re_clk e id) (rt_Task rt) = true ∧
     allMapTasksDoneLocked c = true ∧
     c' = mark_reduce_running (re_now e) id c ∧
     out = inr {| rr_Task := PtrReduce id; rr_MapData := None;
                  rr_ReduceData := Some (rt_Bucket rt, id) |}) ∨
  (c' = c ∧ out = inr (wait_reply (re_now e)) ∧
   pickMapTaskLocked (re_clk e) (re_mapOrd e) c = None ∧
   (allMapTasksDoneLocked c = true →
    pickReduceTaskLocked (re_clk e) (re_reduceOrd e) c = None)).
Proof.
  rewrite /RequestTask.
  destruct (pickMapTaskLocked _ _ _) as [[id mt]|] eqn:Hm.
  { apply pickMap_Some in Hm as [Hid Hs]. intros Heq. left. exists id, mt.
    split; [done|]. split; [done|]. by destruct (re_ReadFile _ _); simplify_eq. }
  destruct (allMapTasksDoneLocked c) eqn:Hall; simpl; intros Heq.
  - destruct (pickReduceTaskLocked _ _ _) as [[id rt]|] eqn:Hr; simplify_eq.
    + apply pickReduce_Some in Hr as [Hid Hs]. right; left. by exists id, rt.
    + right; right. done.
  - simplify_eq. right; right. done.
Qed.

(** ** Properties *)

(** [MakeCoordinator] creates one unassigned map task per input file and
    one unassigned reduce task per bucket, numbered consecutively from 1 with
    the map tasks first, and no other task. *)
Theorem MakeCoordinator_spec files n :
  Z.of_nat (length files) + Z.max 0 n < 2 ^ 63 →
  let c := (MakeCoordinator 0 files n).2 in
  (∀ id mt, mapTasks c !! id = Some mt ↔
     ∃ i f, files !! i = Some f ∧ id = Z.of_nat i + 1 ∧ mt = make_map_task id f n) ∧
  (∀ id rt, reduceTasks c !! id = Some rt ↔
     ∃ b, 0 ≤ b < n ∧ id = Z.of_nat (length files) + 1 + b ∧ rt = make_reduce_task id b).
Proof.
  intros Hfits. split; intros.
  - by apply MakeCoordinator_map_lookup.
  - by apply MakeCoordinator_reduce_lookup.
Qed.

Lemma MakeCoordinator_spec_witness :
  mapTasks (MakeCoordinator 0 ["x"; "y"] 2).2 !! 2 = Some (make_map_task 2 "y" 2) ∧
  reduceTasks (MakeCoordinator 0 ["x"; "y"] 2).2 !! 4 = Some (make_reduce_task 4 1).
Proof.
  destruct (MakeCoordinator_spec ["x"; "y"] 2 ltac:(done)) as [Hm Hr]. split.
  - apply Hm. by exists 1%nat, "y".
  - apply Hr. by exists 1.
Defined.

(** C5: In every state the coordinator reaches by any sequence of RPCs (with
    any arguments, clock readings and iteration orders) each task sits under
    its own ID with its type, the producers recorded for the reduce tasks are
    exactly the completed map tasks, and the set of tasks, their files and
    buckets are those of the start. *)
Theorem coord_reachable_wf files n c :
  Z.of_nat (length files) + Z.max 0 n < 2 ^ 63 →
  rtc coord_step (MakeCoordinator 0 files n).2 c →
  coord_wf c ∧
  map_skel c = map_skel (MakeCoordinator 0 files n).2 ∧
  reduce_skel c = reduce_skel (MakeCoordinator 0 files n).2.
Proof. intros Hfits Hs. apply (coord_steps_wf _ _ Hs). by apply MakeCoordinator_wf. Qed.

(** A run with one file and one bucket: the map task is requested and reported. *)
Definition demo_env (now : Z) (ms rs : list Z) : ReqEnv :=
  {| re_clk := λ _, now; re_now := now; re_mapOrd := ms; re_reduceOrd := rs;
     re_ReadFile := λ f, if bool_decide (f = "x") then Some "the the cat" else None |}.
Definition demo_c0 : Coordinator := (MakeCoordinator 0 ["x"] 1).2.
Definition demo_c1 : Coordinator := (RequestTask (demo_env 5 [1] [2]) demo_c0).1.
Definition demo_c2 : Coordinator :=
  default demo_c1 (ReportTaskCompletion
    {| rc_Task := mt_Task <$> mapTasks demo_c1 !! 1; rc_WorkerAddress := "w1" |} demo_c1).

Lemma demo_c2_reachable : rtc coord_step demo_c0 demo_c2.
Proof.
  apply (rtc_l _ _ demo_c1).
  { apply (cs_request (demo_env 5 [1] [2]) _ _ (RequestTask (demo_env 5 [1] [2]) demo_c0).2).
    - split; by vm_compute.
    - by vm_compute. }
  apply rtc_once.
  apply (cs_complete {| rc_Task := mt_Task <$> mapTasks demo_c1 !! 1; rc_WorkerAddress := "w1" |}).
  by vm_compute.
Qed.

Lemma demo_c2_wf : coord_wf demo_c2.
Proof. apply (coord_steps_wf _ _ demo_c2_reachable). by apply MakeCoordinator_wf. Qed.

Lemma coord_reachable_wf_witness :
  coord_wf demo_c2 ∧ mapTasks demo_c2 !! 1 =
    Some (mkMapTask (mkTask 1 TaskMap TaskStateDone 5) "x" 1).
Proof.
  split; [|by vm_compute].
  apply (coord_reachable_wf ["x"] 1 demo_c2); [by vm_compute|apply demo_c2_reachable].
Defined.

(** [RequestTask] only hands out a task that is unassigned or has been
    running for at least ten seconds, never a completed one; the task handed
    out becomes running from now on, and no other task changes. *)
Theorem RequestTask_assignable e c c' r id :
  RequestTask e c = (c', inr r) →
  (rr_Task r = PtrMap id → ∃ mt, mapTasks c !! id = Some mt ∧
     (State (mt_Task mt) = TaskStateUnassigned ∨
      State (mt_Task mt) = TaskStateRunning ∧
      taskTimeout ≤ re_clk e id - AssignedAt (mt_Task mt)) ∧
     c' = mark_map_running (re_now e) id c) ∧
  (rr_Task r = PtrReduce id → ∃ rt, reduceTasks c !! id = Some rt ∧
     (State (rt_Task rt) = TaskStateUnassigned ∨
      State (rt_Task rt) = TaskStateRunning ∧
      taskTimeout ≤ re_clk e id - AssignedAt (rt_Task rt)) ∧
     c' = mark_reduce_running (re_now e) id c).
Proof.
  assert (∀ now t, shouldAssignTask now t = true →
    State t = TaskStateUnassigned ∨
    State t = TaskStateRunning ∧ taskTimeout ≤ now - AssignedAt t) as Hassign.
  { intros now t [Hs|[Hs Ht]%andb_true_iff]%orb_true_iff;
      apply bool_decide_eq_true in Hs; [by left|]. right. split; [done|].
    by apply bool_decide_eq_true, time_Since_ge in Ht. }
  intros [(id' & mt & Hid & Hs & -> & Hout)|[(id' & rt & Hid & Hs & Hall & -> & Hout)|
    (-> & Hout & _)]]%RequestTask_inv.
  - destruct (re_ReadFile _ _); simplify_eq/=. split; [|done]. intros [= ->]. eauto.
  - simplify_eq/=. split; [done|]. intros [= ->]. eauto.
  - simplify_eq/=. done.
Qed.

Lemma RequestTask_assignable_witness :
  ∃ mt, mapTasks demo_c0 !! 1 = Some mt ∧ State (mt_Task mt) = TaskStateUnassigned.
Proof.
  destruct (RequestTask_assignable (demo_env 5 [1] [2]) demo_c0 demo_c1
    {| rr_Task := PtrMap 1; rr_MapData := Some (mkMapTaskData "x" "the the cat" 1);
       rr_ReduceData := None |} 1 ltac:(by vm_compute)) as [Hm _].
  destruct (Hm eq_refl) as (mt & Hmt & [Hu|[Hr Ht]] & _); exists mt; [done|].
  vm_compute in Hmt. injection Hmt as <-. done.
Defined.

(** The barrier between the phases: when [RequestTask] hands out a reduce
    task, every map task is completed and the producer table of that task
    names a worker for every map task, and for nothing else. *)
Theorem RequestTask_barrier e c c' r rid :
  coord_wf c → RequestTask e c = (c', inr r) → rr_Task r = PtrReduce rid →
  (∀ id mt, mapTasks c !! id = Some mt → State (mt_Task mt) = TaskStateDone) ∧
  ∃ t d, tr_Task (encode_reply c' r) = Some t ∧
    ID t = rid ∧ Type_ t = TaskReduce ∧
    tr_ReduceData (encode_reply c' r) = Some d ∧
    reduce_skel c !! rid = Some (rd_Bucket d) ∧
    dom (rd_MapTaskOutputs d) = dom (mapTasks c).
Proof.
  intros Hwf Hreq Hr. pose proof (RequestTask_wf _ _ _ _ Hwf Hreq) as Hwf'.
  apply RequestTask_inv in Hreq as [(id' & mt & Hid & _ & -> & Hout)|
    [(id & rt & Hid & Hs & Hall & -> & Hout)|(-> & Hout & _)]].
  { destruct (re_ReadFile _ _); by simplify_eq/=. }
  2:{ by simplify_eq/=. }
  simplify_eq/=. rewrite allMapTasksDone_true in Hall. split; [done|].
  assert (reduceTasks (mark_reduce_running (re_now e) rid c) !! rid =
    Some (upd_reduce_Task (MarkRunning (re_now e)) rt)) as Hlk.
  { rewrite /= lookup_alter decide_True // Hid //. }
  rewrite /encode_reply /= in Hlk |- *. rewrite Hlk /=.
  eexists _, _. split; [done|]. simpl.
  destruct (wf_reduce _ Hwf _ _ Hid) as (-> & -> & _). split; [done|]. split; [done|].
  split; [done|]. simpl. split; [by rewrite /reduce_skel lookup_fmap Hid|].
  apply set_eq. intros tid. rewrite !elem_of_dom (wf_outputs _ Hwf _ _ tid Hid).
  split; [intros (mt & ? & _); eauto|]. intros [mt Hmt]. eauto.
Qed.

Lemma RequestTask_barrier_witness :
  ∃ d, tr_ReduceData (encode_reply (RequestTask (demo_env 6 [1] [2]) demo_c2).1
      {| rr_Task := PtrReduce 2; rr_MapData := None; rr_ReduceData := Some (0, 2) |}) = Some d ∧
    dom (rd_MapTaskOutputs d) = {[1]}.
Proof.
  destruct (RequestTask_barrier (demo_env 6 [1] [2]) demo_c2
    (RequestTask (demo_env 6 [1] [2]) demo_c2).1
    {| rr_Task := PtrReduce 2; rr_MapData := None; rr_ReduceData := Some (0, 2) |} 2
    demo_c2_wf ltac:(by vm_compute) eq_refl) as (_ & t & d & _ & _ & _ & Hd & _ & Hdom).
  exists d. split; [done|]. rewrite Hdom. by vm_compute.
Defined.

(** [RequestTask] tells a worker to wait exactly when there is nothing to
    hand out: no map task can be assigned, and either some map task is not
    completed yet or no reduce task can be assigned. In particular a worker
    is never told to wait while an assignable task of the current phase
    exists, and waiting changes nothing. *)
Theorem RequestTask_wait_iff e c :
  env_ok e c →
  RequestTask e c = (c, inr (wait_reply (re_now e))) ↔
  (∀ id mt, mapTasks c !! id = Some mt →
     shouldAssignTask (re_clk e id) (mt_Task mt) = false) ∧
  (allMapTasksDoneLocked c = true → ∀ id rt, reduceTasks c !! id = Some rt →
     shouldAssignTask (re_clk e id) (rt_Task rt) = false).
Proof.
  intros [Hm Hr].
  rewrite -(pickMap_None _ _ _ Hm) -(pickReduce_None _ _ _ Hr). split.
  - intros [(id & mt & _ & _ & _ & Hout)|[(id & rt & _ & _ & _ & _ & Hout)|
      (_ & _ & Hpm & Hpr)]]%RequestTask_inv; [| |done].
    + by destruct (re_ReadFile _ _).
    + done.
  - intros [Hpm Hpr]. rewrite /RequestTask Hpm.
    destruct (allMapTasksDoneLocked c); [by rewrite Hpr|done].
Qed.

Lemma RequestTask_wait_iff_witness :
  RequestTask (demo_env 6 [1] [2]) demo_c1 = (demo_c1, inr (wait_reply 6)).
Proof.
  apply (RequestTask_wait_iff (demo_env 6 [1] [2]) demo_c1).
  - split; by vm_compute.
  - split.
    + intros id mt Hid.
      replace (mapTasks demo_c1) with
        ({[1 := mkMapTask (mkTask 1 TaskMap TaskStateRunning 5) "x" 1]} : gmap Z MapTask)
        in Hid by (by vm_compute).
      apply lookup_singleton_Some in Hid as [<- <-]. by vm_compute.
    + by vm_compute.
Defined.

(** When the input file of the task picked cannot be read, the handler
    returns an error, but only after it has marked the task running: the task
    is then withheld from every request until ten seconds have passed. *)
Theorem RequestTask_read_error e c c' err :
  RequestTask e c = (c', inl err) →
  ∃ id mt, mapTasks c !! id = Some mt ∧ err = ErrCannotReadFile (mt_File mt) ∧
    re_ReadFile e (mt_File mt) = None ∧
    c' = mark_map_running (re_now e) id c ∧
    ∀ e' c'' r, RequestTask e' c' = (c'', inr r) →
      re_clk e' id - re_now e < taskTimeout → rr_Task r ≠ PtrMap id.
Proof.
  intros [(id & mt & Hid & Hs & -> & Hout)|[(id & rt & _ & _ & _ & _ & Hout)|
    (_ & Hout & _)]]%RequestTask_inv; [|done..].
  exists id, mt. destruct (re_ReadFile _ _) eqn:Hrd; [done|]. simplify_eq.
  do 4 (split; [done|]). intros e' c'' r Hreq Hlt Heq.
  apply RequestTask_inv in Hreq as [(id' & mt' & Hid' & Hs' & -> & Hout')|
    [(id' & rt & _ & _ & _ & _ & Hout')|(_ & Hout' & _)]]; [|by simplify_eq/=..].
  destruct (re_ReadFile e' _); simplify_eq/=.
  rewrite lookup_alter decide_True // Hid /= in Hid'. simplify_eq/=.
  rewrite /shouldAssignTask /= in Hs'. apply bool_decide_eq_true in Hs'.
  apply time_Since_ge in Hs'; [|done]. simpl in Hs'. lia.
Qed.

Lemma RequestTask_read_error_witness :
  ∃ id mt, mapTasks (MakeCoordinator 0 ["gone"] 1).2 !! id = Some mt ∧
    ErrCannotReadFile "gone" = ErrCannotReadFile (mt_File mt).
Proof.
  destruct (RequestTask_read_error (demo_env 5 [1] [2]) (MakeCoordinator 0 ["gone"] 1).2
    (RequestTask (demo_env 5 [1] [2]) (MakeCoordinator 0 ["gone"] 1).2).1
    (ErrCannotReadFile "gone") ltac:(by vm_compute)) as (id & mt & ? & ? & _).
  by exists id, mt.
Defined.

(** When the outputs of a completed map task are reported missing, the
    job is not done any more, the task is handed out again by the next request
    whatever the clock says, no reduce task refers to the lost outputs, and
    no reduce task is handed out before the map task has been completed
    again. *)
Theorem ReportMissing_reschedules args c mt :
  coord_wf c → mapTasks c !! rm_MapTaskID args = Some mt →
  State (mt_Task mt) = TaskStateDone →
  let c' := ReportMissingMapOutputs args c in
  Done c' = false ∧
  (∃ mt', mapTasks c' !! rm_MapTaskID args = Some mt' ∧
     ∀ now, shouldAssignTask now (mt_Task mt') = true) ∧
  (∀ rid rt, reduceTasks c' !! rid = Some rt →
     rt_MapTaskOutputs rt !! rm_MapTaskID args = None) ∧
  (∀ e c'' r rid, RequestTask e c' = (c'', inr r) → rr_Task r ≠ PtrReduce rid).
Proof.
  intros Hwf Hid Hst c'.
  assert (mapTasks c' !! rm_MapTaskID args = Some (upd_map_Task reset_task mt)) as Hid'.
  { rewrite /c' /ReportMissingMapOutputs Hid bool_decide_eq_true_2 //=. apply lookup_insert_eq. }
  assert (allMapTasksDoneLocked c' = false) as Hall.
  { apply not_true_iff_false. intros Hall. rewrite allMapTasksDone_true in Hall.
    by specialize (Hall _ _ Hid'). }
  repeat split.
  - by rewrite /Done Hall.
  - by eexists.
  - intros rid rt Hrid. apply eq_None_not_Some.
    rewrite (wf_outputs _ (ReportMissingMapOutputs_wf args c Hwf) _ _ _ Hrid).
    intros (mt' & Hmt' & Hd). rewrite Hid' in Hmt'. by simplify_eq/=.
  - intros e c'' r rid [(id & mt' & _ & _ & _ & Hout)|[(id & rt & _ & _ & Hall' & _)|
      (_ & Hout & _)]]%RequestTask_inv.
    + by destruct (re_ReadFile _ _); simplify_eq/=.
    + congruence.
    + by simplify_eq/=.
Qed.

Lemma ReportMissing_reschedules_witness :
  Done (ReportMissingMapOutputs {| rm_MapTaskID := 1 |} demo_c2) = false.
Proof.
  destruct (ReportMissing_reschedules {| rm_MapTaskID := 1 |} demo_c2
    (mkMapTask (mkTask 1 TaskMap TaskStateDone 5) "x" 1)
    demo_c2_wf ltac:(by vm_compute) ltac:(by vm_compute)) as [HD _].
  exact HD.
Defined.
