(* ===== verification/MrWorker.v ===== *)
(** * Package [mr]: the worker

    Models [mr/worker.go], [mr/bucket.go], [mr/worker_rpc.go] and the client
    side of [mr/coordinator_rpc.go]: bucketing, grouping and reducing, the
    intermediate and output files, and one iteration of the worker's loop.

    A working directory is a finite map from file names to contents. What the
    operating system decides (names of temporary files, failures) is an
    explicit argument of the operation. The encoding of the intermediate
    files is a [KVCodec]: one [Encode] per pair, and a stream decoder. *)
From S2P Require Import Prelude GoBase MrTypes.

Abbreviation FS := (gmap string string) (only parsing).

Inductive WorkerErr :=
  | ErrMissingTask
  | ErrMapMissingData (id : TaskID)
  | ErrReduceMissingData (id : TaskID)
  | ErrUnsupportedTaskType (ty : TaskType)
  | ErrCreateTemp
  | ErrWrite (filename : string)
  | ErrCloseTemp
  | ErrRename (filename : string)
  | ErrOpen (filename : string)
  | ErrDecode (filename : string)
  | ErrCreate (filename : string)
  | ErrFetch (mapTaskID : TaskID) (bucket : Z) (address : string).

(** ** Bucketing (pure part of the map side) *)

(** [buckets[bucket] = append(buckets[bucket], kv)], panicking out of range. *)
Definition append_at (buckets : list (list KeyValue)) (bucket : Z) (kv : KeyValue)
    : option (list (list KeyValue)) :=
  if bool_decide (0 ≤ bucket) then
    old ← buckets !! Z.to_nat bucket;
    Some (<[Z.to_nat bucket := old ++ [kv]]> buckets)
  else None.

Fixpoint bucket_loop (keyValues : list KeyValue) (nBuckets : Z)
    (buckets : list (list KeyValue)) : option (list (list KeyValue)) :=
  match keyValues with
  | [] => Some buckets
  | kv :: keyValues' =>
      if bool_decide (nBuckets = 0) then None (* integer division by zero *)
      else buckets' ← append_at buckets (Z.rem (ihash (kv_Key kv)) nBuckets) kv;
           bucket_loop keyValues' nBuckets buckets'
  end.

Definition bucketContents (keyValues : list KeyValue) (nBuckets : Z)
    : option (list (list KeyValue)) :=
  if bool_decide (nBuckets < 0) then None (* make: len out of range *)
  else bucket_loop keyValues nBuckets (replicate (Z.to_nat nBuckets) []).

(** ** Grouping and reducing (pure part of the reduce side) *)

Definition group_add (grouped : gmap string (list string)) (kv : KeyValue)
    : gmap string (list string) :=
  <[kv_Key kv := default [] (grouped !! kv_Key kv) ++ [kv_Value kv]]> grouped.

Definition groupByKey (keyValues : list KeyValue) : gmap string (list string) :=
  foldl group_add ∅ keyValues.

(** [ord] is the order in which [range groupedContents] yields the keys. *)
Definition reduceContents (ord : list string) (groupedContents : gmap string (list string))
    (reducef : string → list string → string) : list KeyValue :=
  let sortedKeys := sort_Strings ord in
  (λ key, mkKV key (reducef key (default [] (groupedContents !! key)))) <$> sortedKeys.

(** ** File names *)

Definition taskIntermediateFileName (taskID : TaskID) (bucket : Z) : string :=
  "mr-" +:+ Itoa taskID +:+ "-" +:+ Itoa bucket.

Definition reduceOutputFileName (bucket : Z) : string := "mr-out-" +:+ Itoa bucket.

(** ** Encoding of the intermediate files *)

Inductive DecodeResult :=
  | DecEOF
  | DecBad
  | DecValue (kv : KeyValue) (rest : string).

(** The two operations of [encoding/json] the worker uses on [KeyValue]. *)
Class KVCodec := {
  codec_Encode : KeyValue → string;
  codec_Decode : string → DecodeResult;
}.

Section worker.
Context `{KVCodec}.

(** The loop of [readBucketFile]: decode until [io.EOF]. [None] is running out
    of fuel. *)
Fixpoint decode_loop (fuel : nat) (s : string) (acc : list KeyValue)
    : option (res unit (list KeyValue)) :=
  match fuel with
  | O => None
  | S fuel' =>
      match codec_Decode s with
      | DecEOF => Some (inr acc)
      | DecBad => Some (inl tt)
      | DecValue kv rest => decode_loop fuel' rest (acc ++ [kv])
      end
  end.

(** Every decoded value consumes input, so one more iteration than there are
    bytes is enough (see [decode_loop_total]). *)
Definition decode_fuel (s : string) : nat := S (String.length s).

(** [openable] is whether the operating system opens an existing file. *)
Definition readBucketFile (openable : bool) (fs : FS) (taskID : TaskID) (bucket : Z)
    : res WorkerErr (list KeyValue) :=
  let filename := taskIntermediateFileName taskID bucket in
  match (if openable then fs !! filename else None) with
  | None => inl (ErrOpen filename)
  | Some content =>
      match decode_loop (decode_fuel content) content [] with
      | Some (inr keyValues) => inr keyValues
      | _ => inl (ErrDecode filename)
      end
  end.

(** What the operating system does to one call of [writeBucketToFile]: the
    name [os.CreateTemp] invents (or its failure), the first [Encode] that
    fails, if any, and the outcomes of [Close] and [Rename]. *)
Record WriteEnv := mkWriteEnv {
  we_tmp : option string;
  we_encode_fails_at : option nat;
  we_close_ok : bool;
  we_rename_ok : bool;
}.

Definition encode_all (keyValues : list KeyValue) : string :=
  foldr (λ kv s, codec_Encode kv +:+ s) "" keyValues.

Definition writeBucketToFile (env : WriteEnv) (fs : FS) (taskID : TaskID) (bucket : Z)
    (keyValues : list KeyValue) : FS * option WorkerErr :=
  let filename := taskIntermediateFileName taskID bucket in
  match we_tmp env with
  | None => (fs, Some ErrCreateTemp)
  | Some tmp =>
      let fs1 := <[tmp := ""]> fs in
      let remove fs := delete tmp fs in (* defer os.Remove(tmp.Name()) *)
      let encoded := match we_encode_fails_at env with
                     | Some i => bool_decide (length keyValues ≤ i)%nat
                     | None => true
                     end in
      if negb encoded then
        let written := encode_all (take (default 0%nat (we_encode_fails_at env)) keyValues) in
        (remove (<[tmp := written]> fs1), Some (ErrWrite filename))
      else
        let fs2 := <[tmp := encode_all keyValues]> fs1 in
        if negb (we_close_ok env) then (remove fs2, Some ErrCloseTemp)
        else if negb (we_rename_ok env) then (remove fs2, Some (ErrRename filename))
        else (remove (<[filename := encode_all keyValues]> (delete tmp fs2)), None)
  end.

(** [envs bucket] is the environment of the write of that bucket. *)
Fixpoint writeBuckets_loop (envs : Z → WriteEnv) (fs : FS) (taskID : TaskID) (bucket : Z)
    (buckets : list (list KeyValue)) : FS * option WorkerErr :=
  match buckets with
  | [] => (fs, None)
  | keyValues :: buckets' =>
      match writeBucketToFile (envs bucket) fs taskID bucket keyValues with
      | (fs', Some err) => (fs', Some err)
      | (fs', None) => writeBuckets_loop envs fs' taskID (bucket + 1) buckets'
      end
  end.

Definition writeBucketsToFiles (envs : Z → WriteEnv) (fs : FS) (taskID : TaskID)
    (buckets : list (list KeyValue)) : FS * option WorkerErr :=
  writeBuckets_loop envs fs taskID 0 buckets.

(** [None] is a panic (of [bucketContents]). *)
Definition runMapTask (envs : Z → WriteEnv) (fs : FS) (task : Task) (data : MapTaskData)
    (mapf : string → string → list KeyValue) : option (FS * option WorkerErr) :=
  let mappedContents := mapf (md_Key data) (md_Content data) in
  buckets ← bucketContents mappedContents (md_Buckets data);
  Some (writeBucketsToFiles envs fs (ID task) buckets).

(** ** Output files *)

(** [fmt.Fprintf(file, "%v %v\n", kv.Key, kv.Value)] *)
Definition output_line (kv : KeyValue) : string :=
  kv_Key kv +:+ " " +:+ kv_Value kv +:+ String "010" "".

(** The bytes that reach the file when the [i]-th [Fprintf] succeeds iff
    [line_ok i]: its error is not looked at. *)
Fixpoint write_lines (line_ok : nat → bool) (i : nat) (reducedContents : list KeyValue)
    : string :=
  match reducedContents with
  | [] => ""
  | kv :: rest =>
      (if line_ok i then output_line kv else "") +:+ write_lines line_ok (S i) rest
  end.

Definition writeReducedContentsToBucketFile (create_ok : bool) (line_ok : nat → bool)
    (fs : FS) (bucket : Z) (reducedContents : list KeyValue) : FS * option WorkerErr :=
  let filename := reduceOutputFileName bucket in
  if negb create_ok then (fs, Some (ErrCreate filename))
  else (<[filename := write_lines line_ok 0 reducedContents]> fs, None).

(** ** Fetching buckets *)

(** The handler [WorkerDataService.FetchBucket]. *)
Definition FetchBucket (openable : bool) (fs : FS) (args : FetchBucketArgs)
    : res WorkerErr FetchBucketReply :=
  match readBucketFile openable fs (fb_MapTaskID args) (fb_Bucket args) with
  | inl err => inl err
  | inr keyValues => inr {| fr_KeyValues := keyValues |}
  end.

(** One RPC attempt, as [net/rpc] reports it to [CallWorker] and
    [CallCoordinator]. *)
Inductive RpcOutcome (Reply : Type) :=
  | DialFailed
  | CallFailed
  | CallOk (reply : Reply).
Global Arguments DialFailed {_}.
Global Arguments CallFailed {_}.
Global Arguments CallOk {_} _.

(** [CallWorker] and [CallCoordinator] return [true] and fill in the reply
    exactly when both the dial and the call succeed. *)
Definition CallWorker {Reply} (o : RpcOutcome Reply) : option Reply :=
  match o with DialFailed => None | CallFailed => None | CallOk reply => Some reply end.

Definition CallCoordinator {Reply} (o : RpcOutcome Reply) : option Reply :=
  match o with DialFailed => None | CallFailed => None | CallOk reply => Some reply end.

Definition fetchBucketFromWorker
    (net : string → FetchBucketArgs → RpcOutcome FetchBucketReply)
    (address : string) (mapTaskID : TaskID) (bucket : Z) : res WorkerErr (list KeyValue) :=
  let args := {| fb_MapTaskID := mapTaskID; fb_Bucket := bucket |} in
  match CallWorker (net address args) with
  | None => inl (ErrFetch mapTaskID bucket address)
  | Some reply => inr (fr_KeyValues reply)
  end.

(** ** Tasks *)

(** The RPCs a worker sends to the coordinator while it runs a task. *)
Inductive CoordCall :=
  | ReportCompletion (args : ReportTaskCompletionArgs)
  | ReportMissing (args : ReportMissingMapOutputsArgs).

Definition reportTaskCompletion (workerAddress : string) (task : Task) : CoordCall :=
  ReportCompletion {| rc_Task := Some task; rc_WorkerAddress := workerAddress |}.

Definition reportMissingMapOutputs (mapTaskID : TaskID) : CoordCall :=
  ReportMissing {| rm_MapTaskID := mapTaskID |}.

(** What one execution of a task meets: the worker's address and directory,
    the write environments, the iteration orders, and the network. *)
Record TaskEnv := mkTaskEnv {
  te_workerAddress : string;
  te_writes : Z → WriteEnv;
  te_openable : TaskID → bool;
  te_net : string → FetchBucketArgs → RpcOutcome FetchBucketReply;
  te_outputsOrd : list TaskID;
  te_groupOrd : list string;
  te_create_ok : bool;
  te_line_ok : nat → bool;
}.

(** One iteration of the loop of [runReduceTask]. *)
Definition read_map_output (env : TaskEnv) (fs : FS) (bucket : Z) (mapTaskID : TaskID)
    (producerAddress : string) : res WorkerErr (list KeyValue) :=
  if bool_decide (producerAddress = te_workerAddress env)
  then readBucketFile (te_openable env mapTaskID) fs mapTaskID bucket
  else fetchBucketFromWorker (te_net env) producerAddress mapTaskID bucket.

Fixpoint collect_outputs (env : TaskEnv) (fs : FS) (bucket : Z)
    (outputs : list (TaskID * string)) (mappedContents : list KeyValue)
    : res (TaskID * WorkerErr) (list KeyValue) :=
  match outputs with
  | [] => inr mappedContents
  | (mapTaskID, producerAddress) :: outputs' =>
      match read_map_output env fs bucket mapTaskID producerAddress with
      | inl err => inl (mapTaskID, err)
      | inr contents => collect_outputs env fs bucket outputs' (mappedContents ++ contents)
      end
  end.

Definition runReduceTask (env : TaskEnv) (fs : FS) (task : Task) (data : ReduceTaskData)
    (reducef : string → list string → string) : FS * list CoordCall * option WorkerErr :=
  match collect_outputs env fs (rd_Bucket data)
          (range_visit (te_outputsOrd env) (rd_MapTaskOutputs data)) [] with
  | inl (mapTaskID, err) => (fs, [reportMissingMapOutputs mapTaskID], Some err)
  | inr mappedContents =>
      let groupedContents := groupByKey mappedContents in
      let reducedContents := reduceContents (te_groupOrd env) groupedContents reducef in
      let '(fs', err) := writeReducedContentsToBucketFile (te_create_ok env) (te_line_ok env)
                           fs (rd_Bucket data) reducedContents in
      (fs', [], err)
  end.

(** [None] is a panic. The sleep of a [TaskWait] has no effect on the state. *)
Definition executeTask (env : TaskEnv) (fs : FS) (reply : TaskReply)
    (mapf : string → string → list KeyValue) (reducef : string → list string → string)
    : option (FS * list CoordCall * option WorkerErr) :=
  match tr_Task reply with
  | None => Some (fs, [], Some ErrMissingTask)
  | Some task =>
      match Type_ task with
      | TaskMap =>
          match tr_MapData reply with
          | None => Some (fs, [], Some (ErrMapMissingData (ID task)))
          | Some data =>
              '(fs', err) ← runMapTask (te_writes env) fs task data mapf;
              match err with
              | Some e => Some (fs', [], Some e)
              | None => Some (fs', [reportTaskCompletion (te_workerAddress env) task], None)
              end
          end
      | TaskReduce =>
          match tr_ReduceData reply with
          | None => Some (fs, [], Some (ErrReduceMissingData (ID task)))
          | Some data =>
              let '(fs', calls, err) := runReduceTask env fs task data reducef in
              match err with
              | Some e => Some (fs', calls, Some e)
              | None => Some (fs', calls ++ [reportTaskCompletion (te_workerAddress env) task], None)
              end
          end
      | TaskWait => Some (fs, [], None)
      | TaskNone => Some (fs, [], Some (ErrUnsupportedTaskType TaskNone))
      end
  end.

(** [askCoordinatorForTask]: no reply whatever the reason of the failure. *)
Definition askCoordinatorForTask (o : RpcOutcome TaskReply) : option TaskReply :=
  CallCoordinator o.

(** The loop of [Worker] over the outcomes of its successive requests: it ends
    with the first request that fails, and ignores the errors of the tasks.
    The result is the directory and all RPCs sent. *)
Fixpoint Worker (mapf : string → string → list KeyValue)
    (reducef : string → list string → string) (fs : FS)
    (rounds : list (RpcOutcome TaskReply * TaskEnv)) : option (FS * list CoordCall) :=
  match rounds with
  | [] => Some (fs, [])
  | (o, env) :: rounds' =>
      match askCoordinatorForTask o with
      | None => Some (fs, [])
      | Some reply =>
          '(fs', calls, _) ← executeTask env fs reply mapf reducef;
          '(fs'', calls') ← Worker mapf reducef fs' rounds';
          Some (fs'', calls ++ calls')
      end
  end.
End worker.

(** ** Addresses

    [getenv] returns the empty string for an unset variable. *)
Definition getCoordinatorAddress (getenv : string → string) : string :=
  let addr := getenv "MR_COORDINATOR_ADDRESS" in
  if bool_decide (addr = "") then "0.0.0.0:7777" else addr.

Definition getWorkerListenAddress (getenv : string → string) : string :=
  let addr := getenv "MR_WORKER_LISTEN_ADDRESS" in
  if bool_decide (addr = "") then "127.0.0.1:" else addr.

Definition getWorkerPublicAddress (getenv : string → string) : string :=
  let addr := getenv "MR_WORKER_PUBLIC_ADDRESS" in
  if bool_decide (addr = "") then getWorkerListenAddress getenv else addr.

(** [server()]: the address is computed once and kept in [workerAddress];
    [None] is the exit of [log.Fatalf] when the port cannot be listened on or
    the service not registered. *)
Definition server (getenv : string → string) (listen_ok register_ok : bool)
    (workerAddress : string) : option string :=
  if negb (bool_decide (workerAddress = "")) then Some workerAddress
  else if negb listen_ok then None
  else if negb register_ok then None
  else Some (getWorkerPublicAddress getenv).
