(* ===== verification/MrWorkerThm.v ===== *)
(** * Package [mr]: theorems about the worker

    Bucketing, grouping and reducing meet their reference definitions; file
    names do not collide; and the interface [KVCodec] of the encoding of
    intermediate files, with the lemmas on writing and reading bucket files
    that hold for every codec. *)
From S2P Require Import Prelude GoBase MrTypes MrWorker.

(** ** Reference definitions *)

(** The bucket of a pair. *)
Definition bucket_of (n : Z) (kv : KeyValue) : Z := Z.rem (ihash (kv_Key kv)) n.

(** The pairs of a bucket, in order. *)
Definition bucket_ref (n b : Z) (kvs : list KeyValue) : list KeyValue :=
  filter (λ kv, bucket_of n kv = b) kvs.

(** The values of a key, in order. *)
Definition values_of (k : string) (kvs : list KeyValue) : list string :=
  kv_Value <$> filter (λ kv, kv_Key kv = k) kvs.

(** The keys, without duplicates. *)
Definition distinct_keys (kvs : list KeyValue) : list string :=
  elements (list_to_set (kv_Key <$> kvs) : gset string).

(** Reduce every key once, in the order of the keys. *)
Definition reduce_ref (reducef : string → list string → string) (kvs : list KeyValue)
    : list KeyValue :=
  (λ k, mkKV k (reducef k (values_of k kvs))) <$> sort_Strings (distinct_keys kvs).

(** The interface a reduce function must meet for the result not to depend on
    the order in which the values arrive. *)
Class OrderInsensitive (reducef : string → list string → string) : Prop :=
  reduce_perm k vs vs' : vs ≡ₚ vs' → reducef k vs = reducef k vs'.

(** ** Bucketing *)

Lemma bucket_of_range n kv : 0 < n → 0 ≤ bucket_of n kv < n.
Proof. apply ihash_bucket_range. Qed.

Lemma bucket_loop_spec n kvs : ∀ bs,
  0 < n → length bs = Z.to_nat n →
  bucket_loop kvs n bs = Some (imap (λ i b, b ++ bucket_ref n (Z.of_nat i) kvs) bs).
Proof.
  induction kvs as [|kv kvs IH]; intros bs Hn Hlen; simpl.
  - f_equal. apply list_eq. intros i. rewrite list_lookup_imap.
    destruct (bs !! i); simpl; [|done]. by rewrite right_id_L.
  - rewrite bool_decide_eq_false_2; [|lia]. rewrite -/(bucket_of n kv).
    pose proof (bucket_of_range n kv Hn) as Hb. set (b := bucket_of n kv) in *.
    rewrite /append_at bool_decide_eq_true_2; [|lia].
    destruct (lookup_lt_is_Some_2 bs (Z.to_nat b)) as [old Hold]; [lia|]. rewrite Hold /=.
    rewrite IH; [|done|by rewrite length_insert]. f_equal.
    apply list_eq. intros i. rewrite !list_lookup_imap list_lookup_insert.
    case_decide as Hi.
    + destruct Hi as [<- Hi]. rewrite Hold /=. f_equal.
      rewrite /bucket_ref filter_cons_True; [|lia]. by rewrite -assoc_L.
    + destruct (bs !! i) as [x|] eqn:Hx; simpl; [|done]. do 2 f_equal.
      apply lookup_lt_Some in Hx. rewrite /bucket_ref filter_cons_False //. lia.
Qed.

Lemma bucketContents_eq kvs n :
  0 < n → bucketContents kvs n = Some ((λ b, bucket_ref n b kvs) <$> seqZ 0 n).
Proof.
  intros Hn. rewrite /bucketContents bool_decide_eq_false_2; [|lia].
  rewrite bucket_loop_spec //; [|by rewrite length_replicate]. f_equal.
  apply list_eq. intros i. rewrite list_lookup_imap list_lookup_fmap.
  destruct (decide (i < Z.to_nat n)%nat) as [Hi|Hi].
  - rewrite lookup_replicate_2 // lookup_seqZ_lt; [|lia]. simpl. by rewrite Z.add_0_l.
  - rewrite !lookup_ge_None_2 //; rewrite ?length_replicate ?length_seqZ; lia.
Qed.

(** Filtering by a classifier with values in a duplicate-free list splits a
    list into its classes. *)
Lemma concat_filter_perm {A} (c : A → Z) (l : list A) (cs : list Z) :
  NoDup cs → (∀ x, x ∈ l → c x ∈ cs) →
  concat ((λ b, filter (λ x, c x = b) l) <$> cs) ≡ₚ l.
Proof.
  intros Hnd. induction l as [|x l IH]; intros Hin.
  - clear. induction cs; [done|]; csimpl. done.
  - assert (c x ∈ cs) as Hx by (apply Hin; left).
    rewrite -{2}IH; [|intros y Hy; apply Hin; by right].
    clear IH Hin. apply list_elem_of_split in Hx as (cs1 & cs2 & ->).
    apply NoDup_app in Hnd as (_ & Hn1 & Hn2). apply NoDup_cons in Hn2 as [Hn2 _].
    assert (∀ ds : list Z, c x ∉ ds → (λ b, filter (λ y, c y = b) (x :: l)) <$> ds =
       (λ b, filter (λ y, c y = b) l) <$> ds) as Hsame.
    { intros ds Hds. apply list_fmap_ext. intros i b Hb. apply filter_cons_False.
      intros <-. by apply Hds, list_elem_of_lookup; exists i. }
    rewrite !fmap_app !fmap_cons Hsame; [|intros ?; by apply (Hn1 (c x)); [|left]].
    rewrite (Hsame cs2) // filter_cons_True // !concat_app /=.
    symmetry. apply Permutation_middle.
Qed.

(** ** Grouping *)

Lemma groupByKey_go kvs : ∀ m k,
  foldl group_add m kvs !! k =
  match values_of k kvs with [] => m !! k | vs => Some (default [] (m !! k) ++ vs) end.
Proof.
  induction kvs as [|kv kvs IH]; intros m k; [done|]. csimpl. rewrite IH.
  rewrite /group_add /values_of lookup_insert filter_cons.
  destruct (decide (kv_Key kv = k)) as [->|Hne]; csimpl.
  - destruct (kv_Value <$> _) as [|v vs]; [done|]. simpl. by rewrite -assoc_L.
  - done.
Qed.

Lemma groupByKey_lookup kvs k :
  groupByKey kvs !! k = match values_of k kvs with [] => None | vs => Some vs end.
Proof. rewrite /groupByKey groupByKey_go lookup_empty. by destruct (values_of k kvs). Qed.

Lemma values_of_nil k kvs : values_of k kvs = [] ↔ k ∉ kv_Key <$> kvs.
Proof.
  rewrite /values_of. split.
  - intros Hnil (kv & -> & Hkv)%list_elem_of_fmap. apply fmap_nil_inv in Hnil.
    assert (kv ∈ filter (λ kv', kv_Key kv' = kv_Key kv) kvs) as Hin
      by by apply list_elem_of_filter.
    rewrite Hnil in Hin. by apply elem_of_nil in Hin.
  - intros Hk. induction kvs as [|kv kvs IH]; [done|]. csimpl in Hk.
    apply not_elem_of_cons in Hk as [? ?]. rewrite filter_cons_False; [by apply IH|done].
Qed.

Lemma distinct_keys_NoDup kvs : NoDup (distinct_keys kvs).
Proof. rewrite /distinct_keys. apply NoDup_elements. Qed.

Lemma distinct_keys_elem k kvs : k ∈ distinct_keys kvs ↔ k ∈ kv_Key <$> kvs.
Proof. by rewrite /distinct_keys elem_of_elements elem_of_list_to_set. Qed.

Lemma distinct_keys_group kvs : distinct_keys kvs ≡ₚ (map_to_list (groupByKey kvs)).*1.
Proof.
  apply NoDup_Permutation; [apply distinct_keys_NoDup|apply NoDup_fst_map_to_list|].
  intros k. rewrite distinct_keys_elem.
  rewrite (range_order_elem _ _ k (range_order_default (groupByKey kvs))).
  rewrite groupByKey_lookup. destruct (values_of k kvs) eqn:Hv.
  - apply values_of_nil in Hv. split; [done|by intros [? ?]].
  - split; [eauto|]. intros _. apply dec_stable. intros Hk%values_of_nil. congruence.
Qed.

Lemma default_group k kvs : default [] (groupByKey kvs !! k) = values_of k kvs.
Proof. rewrite groupByKey_lookup. by destruct (values_of k kvs). Qed.

Lemma reduceContents_ref ord kvs reducef :
  range_order ord (groupByKey kvs) →
  reduceContents ord (groupByKey kvs) reducef = reduce_ref reducef kvs.
Proof.
  intros Ho. rewrite /reduceContents /reduce_ref Ho -distinct_keys_group.
  apply list_fmap_ext. intros i k _. by rewrite default_group.
Qed.

#[global] Instance values_of_Proper k : Proper ((≡ₚ) ==> (≡ₚ)) (values_of k).
Proof. intros l1 l2 Hp. rewrite /values_of. by rewrite Hp. Qed.

#[global] Instance distinct_keys_Proper : Proper ((≡ₚ) ==> (≡ₚ)) distinct_keys.
Proof.
  intros l1 l2 Hp. apply NoDup_Permutation; [apply distinct_keys_NoDup..|].
  intros k. by rewrite !distinct_keys_elem Hp.
Qed.

#[global] Instance reduce_ref_Proper reducef :
  OrderInsensitive reducef → Proper ((≡ₚ) ==> (=)) (reduce_ref reducef).
Proof.
  intros Hr l1 l2 Hp. rewrite /reduce_ref (sort_Strings_Proper _ _ (distinct_keys_Proper _ _ Hp)).
  apply list_fmap_ext. intros i k _.
  f_equal. apply Hr. by rewrite Hp.
Qed.

(** ** File names *)

Lemma dash_not_digit : is_digit "-" = false.
Proof. done. Qed.

Lemma taskIntermediateFileName_inj id b id' b' :
  0 ≤ id → 0 ≤ id' →
  taskIntermediateFileName id b = taskIntermediateFileName id' b' → id = id' ∧ b = b'.
Proof.
  intros Hid Hid' Heq. rewrite /taskIntermediateFileName in Heq.
  apply (inj (String.app "mr-")) in Heq. apply (f_equal str_to_list) in Heq.
  rewrite !str_to_list_app /= in Heq.
  apply list_split_sep_inj in Heq as [H1 H2]; [|by apply Itoa_no_dash..].
  split; apply (inj Itoa); by apply (inj str_to_list).
Qed.

(** An intermediate file name continues "mr-" with a digit, which neither an
    output file nor a temporary file ([os.CreateTemp] with pattern
    ["mr-bucket-*"]) does. *)
Lemma taskIntermediateFileName_digit id b c s :
  0 ≤ id → is_digit c = false → taskIntermediateFileName id b ≠ "mr-" +:+ String c s.
Proof.
  intros Hid Hc Heq. rewrite /taskIntermediateFileName in Heq.
  apply (inj (String.app "mr-")) in Heq.
  pose proof (Itoa_digits id Hid) as Hd. pose proof (Itoa_nonempty id) as Hne.
  destruct (Itoa id) as [|a rest]; [done|]. injection Heq as <- _.
  apply Forall_cons_1 in Hd as [Hd _]. by rewrite Hc in Hd.
Qed.

(** ** Files *)

(** What the worker relies on of the codec: decoding consumes input, and a
    file written pair by pair decodes to the same pairs. *)
Class KVCodecLaws `{KVCodec} := {
  codec_valid : KeyValue → Prop;
  codec_progress s kv rest :
    codec_Decode s = DecValue kv rest → (String.length rest < String.length s)%nat;
  codec_roundtrip kvs :
    Forall codec_valid kvs → ∃ fuel, decode_loop fuel (encode_all kvs) [] = Some (inr kvs);
}.

Section files.
Context `{KVCodecLaws}.

Lemma decode_loop_more fuel : ∀ fuel' s acc r,
  decode_loop fuel s acc = Some r → (fuel ≤ fuel')%nat → decode_loop fuel' s acc = Some r.
Proof.
  induction fuel as [|fuel IH]; intros [|fuel'] s acc r; simpl; [done|done|lia|].
  intros Hd Hle. destruct (codec_Decode s); [done..|]. apply IH; [done|lia].
Qed.

Lemma decode_loop_fuel fuel : ∀ s acc,
  (String.length s < fuel)%nat → is_Some (decode_loop fuel s acc).
Proof.
  induction fuel as [|fuel IH]; intros s acc Hlen; [lia|]. simpl.
  destruct (codec_Decode s) as [| |kv rest] eqn:Hd; [done..|].
  apply IH. apply codec_progress in Hd. lia.
Qed.

Lemma decode_file kvs :
  Forall codec_valid kvs →
  decode_loop (decode_fuel (encode_all kvs)) (encode_all kvs) [] = Some (inr kvs).
Proof.
  intros [fuel Hf]%codec_roundtrip.
  destruct (decode_loop_fuel (decode_fuel (encode_all kvs)) (encode_all kvs) [])
    as [r Hr]; [rewrite /decode_fuel; lia|].
  pose proof (decode_loop_more _ (Nat.max fuel (decode_fuel (encode_all kvs))) _ _ _ Hf) as H1.
  pose proof (decode_loop_more _ (Nat.max fuel (decode_fuel (encode_all kvs))) _ _ _ Hr) as H2.
  rewrite Hr. rewrite H1 in H2; [|lia]. symmetry. apply H2. lia.
Qed.

Lemma readBucketFile_written fs id b kvs :
  Forall codec_valid kvs →
  fs !! taskIntermediateFileName id b = Some (encode_all kvs) →
  readBucketFile true fs id b = inr kvs.
Proof. intros Hv Hfs. by rewrite /readBucketFile Hfs decode_file. Qed.

(** [CreateTemp] creates its file exclusively and never under the name of
    an intermediate file. *)
Definition env_fresh (env : WriteEnv) (fs : FS) : Prop :=
  ∀ tmp, we_tmp env = Some tmp → fs !! tmp = None ∧ ∃ s, tmp = "mr-bucket-" +:+ s.

Lemma writeBucketToFile_cases env fs id b kvs :
  0 ≤ id → env_fresh env fs →
  (writeBucketToFile env fs id b kvs).2 = None ∧
  (writeBucketToFile env fs id b kvs).1 =
    <[taskIntermediateFileName id b := encode_all kvs]> fs ∨
  (writeBucketToFile env fs id b kvs).2 ≠ None ∧ (writeBucketToFile env fs id b kvs).1 = fs.
Proof.
  intros Hid Hfresh. rewrite /writeBucketToFile.
  destruct (we_tmp env) as [tmp|] eqn:Htmp; [|by right].
  destruct (Hfresh _ Htmp) as [Hnone [s Hs]].
  assert (∀ x, delete tmp (<[tmp := x]> (<[tmp := ""]> fs)) = fs) as Hdel.
  { intros x. by rewrite insert_insert_eq delete_insert_id. }
  assert (tmp ≠ taskIntermediateFileName id b) as Hne.
  { intros ->. by apply (taskIntermediateFileName_digit id b "b" ("ucket-" +:+ s)) in Hs. }
  destruct (negb _); [right; by rewrite Hdel|].
  destruct (we_close_ok env); simpl; [|right; by rewrite Hdel].
  destruct (we_rename_ok env); simpl; [|right; by rewrite Hdel].
  left. rewrite Hdel delete_insert_ne // delete_id //.
Qed.
End files.

(** The writes of all buckets of a map task, from [bucket] on. *)
Section write_all.
Context `{KVCodecLaws}.

(** Writing intermediate files keeps the temporary names free. *)
Lemma env_fresh_insert env fs id b s :
  0 ≤ id → env_fresh env fs → env_fresh env (<[taskIntermediateFileName id b := s]> fs).
Proof.
  intros Hid Hf tmp Htmp. destruct (Hf tmp Htmp) as [Hnone [u ->]]. split; [|by exists u].
  rewrite lookup_insert_ne //.
  by apply (taskIntermediateFileName_digit id b "b" ("ucket-" +:+ u)).
Qed.

(** Whether or not all writes succeed, an intermediate file of this task is
    either untouched or holds the whole bucket, and nothing else changes. *)
Lemma writeBuckets_loop_files envs id bs : ∀ bucket fs fs' err,
  0 ≤ id → 0 ≤ bucket → (∀ b, env_fresh (envs b) fs) →
  writeBuckets_loop envs fs id bucket bs = (fs', err) →
  (∀ name, (∀ i, (i < length bs)%nat →
              name ≠ taskIntermediateFileName id (bucket + Z.of_nat i)) →
     fs' !! name = fs !! name) ∧
  (∀ i kvs, bs !! i = Some kvs →
     fs' !! taskIntermediateFileName id (bucket + Z.of_nat i) = Some (encode_all kvs) ∨
     err ≠ None ∧ fs' !! taskIntermediateFileName id (bucket + Z.of_nat i) =
                  fs !! taskIntermediateFileName id (bucket + Z.of_nat i)).
Proof.
  induction bs as [|kvs0 bs IH]; intros bucket fs fs' err Hid Hb Hfresh; simpl.
  { intros [= <- <-]. done. }
  pose proof (writeBucketToFile_cases (envs bucket) fs id bucket kvs0 Hid (Hfresh _)) as Hc.
  destruct (writeBucketToFile _ _ _ _ _) as [fs1 e1]. simpl in Hc.
  destruct Hc as [[-> ->]|[He ->]].
  - intros Hloop. apply IH in Hloop as [Hother Hfiles];
      [|lia..|intros b; by apply env_fresh_insert].
    assert (∀ i : nat, bucket + 1 + Z.of_nat i = bucket + Z.of_nat (S i)) as Hsh by lia.
    split.
    + intros name Hname. rewrite Hother.
      * rewrite lookup_insert_ne //. specialize (Hname 0%nat ltac:(simpl; lia)).
        by rewrite Z.add_0_r in Hname.
      * intros i Hi. rewrite Hsh. apply Hname. simpl. lia.
    + assert (fs' !! taskIntermediateFileName id bucket = Some (encode_all kvs0)) as H0'.
      { rewrite Hother; [by rewrite lookup_insert_eq|].
        intros i _ Heq. apply taskIntermediateFileName_inj in Heq as [_ ?]; lia. }
      intros [|i] kvs; simpl.
      * intros [= ->]. left. by rewrite Z.add_0_r.
      * intros Hi. rewrite -Hsh. destruct (Hfiles i kvs Hi) as [?|[? Heq]]; [by left|right].
        split; [done|]. rewrite Heq lookup_insert_ne //.
        intros Heq'. apply taskIntermediateFileName_inj in Heq' as [_ ?]; lia.
  - destruct e1 as [e|]; [|done]. intros [= <- <-]. split; [done|]. intros i kvs _. by right.
Qed.
End write_all.

(** ** Properties *)

(** [bucketContents] puts every pair, in order, into the bucket numbered by
    the hash of its key modulo the number of buckets: it never panics, it
    returns exactly [nBuckets] buckets, together they are a rearrangement of
    the input, and pairs with the same key share a bucket. *)
Theorem bucketContents_spec kvs n :
  0 < n →
  ∃ bs, bucketContents kvs n = Some bs ∧ length bs = Z.to_nat n ∧
    (∀ b, 0 ≤ b < n → bs !! Z.to_nat b = Some (bucket_ref n b kvs)) ∧
    concat bs ≡ₚ kvs.
Proof.
  intros Hn. exists ((λ b, bucket_ref n b kvs) <$> seqZ 0 n).
  split; [by apply bucketContents_eq|]. split; [by rewrite length_fmap length_seqZ|]. split.
  - intros b Hb. rewrite list_lookup_fmap lookup_seqZ_lt; [|lia]. simpl.
    by rewrite Z.add_0_l Z2Nat.id; [|lia].
  - apply concat_filter_perm; [apply NoDup_seqZ|].
    intros kv _. apply elem_of_seqZ. pose proof (bucket_of_range n kv Hn). lia.
Qed.

Lemma bucketContents_spec_witness :
  ∃ bs, bucketContents [mkKV "a" "1"; mkKV "b" "2"; mkKV "a" "3"] 3 = Some bs ∧
    concat bs ≡ₚ [mkKV "a" "1"; mkKV "b" "2"; mkKV "a" "3"].
Proof.
  destruct (bucketContents_spec [mkKV "a" "1"; mkKV "b" "2"; mkKV "a" "3"] 3)
    as (bs & Hbs & _ & _ & Hp); [lia|].
  by exists bs.
Defined.

(** With no bucket at all (a coordinator started with zero reduce tasks)
    the worker panics with a division by zero as soon as a map task produces
    a pair; a negative number of buckets panics in any case. *)
Theorem bucketContents_no_bucket kvs n :
  n ≤ 0 → bucketContents kvs n = None ↔ n < 0 ∨ kvs ≠ [].
Proof.
  intros Hn. rewrite /bucketContents. case_bool_decide; [naive_solver|].
  assert (n = 0) as -> by lia. destruct kvs; simpl; naive_solver lia.
Qed.

(** Whatever order the language iterates its maps in, reducing the grouped
    pairs yields one pair per distinct key, in increasing order of the keys,
    each computed by the reduce function from the values of that key in their
    order of arrival. *)
Theorem reduceContents_spec ord kvs reducef :
  range_order ord (groupByKey kvs) →
  reduceContents ord (groupByKey kvs) reducef = reduce_ref reducef kvs ∧
  Sorted String.le (kv_Key <$> reduce_ref reducef kvs) ∧
  NoDup (kv_Key <$> reduce_ref reducef kvs) ∧
  ∀ k v, mkKV k v ∈ reduce_ref reducef kvs ↔
    k ∈ kv_Key <$> kvs ∧ v = reducef k (values_of k kvs).
Proof.
  intros Ho. split; [by apply reduceContents_ref|].
  assert (kv_Key <$> reduce_ref reducef kvs = sort_Strings (distinct_keys kvs)) as ->.
  { rewrite /reduce_ref -list_fmap_compose. apply list_fmap_id. }
  split; [apply sort_Strings_sorted|].
  split; [rewrite sort_Strings_perm; apply distinct_keys_NoDup|].
  intros k v. rewrite /reduce_ref list_elem_of_fmap. split.
  - intros (k' & [= -> ->] & Hk). rewrite sort_Strings_perm distinct_keys_elem in Hk. done.
  - intros [Hk ->]. exists k. split; [done|]. by rewrite sort_Strings_perm distinct_keys_elem.
Qed.

Lemma reduceContents_spec_witness :
  reduceContents ["b"; "a"] (groupByKey [mkKV "b" "1"; mkKV "a" "2"; mkKV "b" "3"])
    (λ _ vs, Join vs ",") = [mkKV "a" "2"; mkKV "b" "1,3"].
Proof.
  destruct (reduceContents_spec ["b"; "a"] [mkKV "b" "1"; mkKV "a" "2"; mkKV "b" "3"]
    (λ _ vs, Join vs ",")) as [-> _].
  - rewrite /range_order. replace ((map_to_list _).*1) with ["a"; "b"] by (by vm_compute).
    apply Permutation_swap.
  - by vm_compute.
Defined.
