(* ===== verification/Json.v ===== *)
(** * [encoding/json] on [KeyValue]

    The worker writes its intermediate files with [json.NewEncoder(f).Encode]
    and reads them with [json.NewDecoder(f).Decode]. This file models both on
    the struct [KeyValue]: the escaping of the encoder (HTML escaping is on by
    default, invalid UTF-8 is replaced, U+2028 and U+2029 are escaped) and the
    decoding of string literals with all their escapes. The decoder accepts
    the member order the encoder produces; a document with other members or
    another order is outside the model ([DecBad]). The instances [json_codec]
    and [json_laws] discharge the worker's codec interface for all pairs of
    valid UTF-8 strings. *)
From S2P Require Import Prelude GoBase GoUtf8 MrTypes MrWorker MrWorkerThm.

(** ** Encoding of strings *)

Definition hex_digit (n : Z) : ascii :=
  nth (Z.to_nat n) (str_to_list "0123456789abcdef") "0"%char.

Definition quote : ascii := ascii_of_N 34.
Definition bslash : ascii := "\"%char.

(** Bytes below [utf8.RuneSelf]. *)
Definition enc_ascii (a : ascii) : bytes :=
  let n := byte_Z a in
  if bool_decide (a = quote) || bool_decide (a = bslash) then [bslash; a]
  else if bool_decide (n = 8) then [bslash; "b"%char]
  else if bool_decide (n = 12) then [bslash; "f"%char]
  else if bool_decide (n = 10) then [bslash; "n"%char]
  else if bool_decide (n = 13) then [bslash; "r"%char]
  else if bool_decide (n = 9) then [bslash; "t"%char]
  else if bool_decide (n < 32) || bool_decide (a = "<"%char) || bool_decide (a = ">"%char)
          || bool_decide (a = "&"%char) then
    str_to_list "\u00" ++ [hex_digit (n / 16); hex_digit (n mod 16)]
  else [a].

(** [U+2028] and [U+2029] are [E2 80 A8] and [E2 80 A9]. *)
Definition line_sep : bytes := [ascii_of_N 0xE2; ascii_of_N 0x80; ascii_of_N 0xA8].
Definition para_sep : bytes := [ascii_of_N 0xE2; ascii_of_N 0x80; ascii_of_N 0xA9].

Definition enc_rune (c : bytes) : bytes :=
  match c with
  | [a] => enc_ascii a
  | _ => if bool_decide (c = line_sep) then str_to_list "\u2028"
         else if bool_decide (c = para_sep) then str_to_list "\u2029" else c
  end.

(** The loop of [appendString]; every iteration consumes a byte, so the
    length of the string is enough fuel. *)
Fixpoint enc_body (fuel : nat) (l : bytes) : bytes :=
  match fuel with
  | O => []
  | S fuel' =>
      match l with
      | [] => []
      | _ :: l' =>
          match utf8_len l with
          | Some n => enc_rune (take n l) ++ enc_body fuel' (drop n l)
          | None => str_to_list "\ufffd" ++ enc_body fuel' l'
          end
      end
  end.

Definition enc_string (l : bytes) : bytes := quote :: enc_body (length l) l ++ [quote].

(** [Encode] of a [KeyValue]: the two members and a newline. *)
Definition key_member : bytes := str_to_list "{" ++ quote :: str_to_list "Key" ++ quote :: [":"%char].
Definition value_member : bytes := "," %char :: quote :: str_to_list "Value" ++ quote :: [":"%char].

Definition json_Encode (kv : KeyValue) : string :=
  str_of_list (key_member ++ enc_string (str_to_list (kv_Key kv)) ++
    value_member ++ enc_string (str_to_list (kv_Value kv)) ++ ["}"%char; "010"%char]).

(** ** Decoding of strings *)

Definition hex_val (a : ascii) : option Z :=
  let n := byte_Z a in
  if in_range 48 57 a then Some (n - 48)
  else if in_range 97 102 a then Some (n - 87)
  else if in_range 65 70 a then Some (n - 55)
  else None.

(** Four hexadecimal digits. *)
Definition hex4 (l : bytes) : option (Z * bytes) :=
  match l with
  | a :: b :: c :: d :: rest =>
      x ← hex_val a; y ← hex_val b; z ← hex_val c; w ← hex_val d;
      Some (((x * 16 + y) * 16 + z) * 16 + w, rest)
  | _ => None
  end.

(** What follows a backslash: the bytes it stands for and the rest. *)
Definition dec_escape (l : bytes) : option (bytes * bytes) :=
  match l with
  | [] => None
  | a :: rest =>
      if bool_decide (a = quote) || bool_decide (a = bslash) || bool_decide (a = "/"%char)
      then Some ([a], rest)
      else if bool_decide (a = "b"%char) then Some ([ascii_of_N 8], rest)
      else if bool_decide (a = "f"%char) then Some ([ascii_of_N 12], rest)
      else if bool_decide (a = "n"%char) then Some ([ascii_of_N 10], rest)
      else if bool_decide (a = "r"%char) then Some ([ascii_of_N 13], rest)
      else if bool_decide (a = "t"%char) then Some ([ascii_of_N 9], rest)
      else if bool_decide (a = "u"%char) then
        '(r, rest1) ← hex4 rest;
        if bool_decide (0xD800 ≤ r < 0xDC00) then
          (* a high surrogate followed by an escaped low one is one rune *)
          match rest1 with
          | x :: y :: rest2 =>
              match (if bool_decide (x = bslash) && bool_decide (y = "u"%char)
                     then hex4 rest2 else None) with
              | Some (r2, rest3) =>
                  if bool_decide (0xDC00 ≤ r2 < 0xE000)
                  then Some (EncodeRune (0x10000 + (r - 0xD800) * 1024 + (r2 - 0xDC00)), rest3)
                  else Some (EncodeRune 0xFFFD, rest1)
              | None => Some (EncodeRune 0xFFFD, rest1)
              end
          | _ => Some (EncodeRune 0xFFFD, rest1)
          end
        else Some (EncodeRune r, rest1)
      else None
  end.

(** The body of a string literal up to its closing quote. *)
Fixpoint dec_body (fuel : nat) (l : bytes) : option (bytes * bytes) :=
  match fuel with
  | O => None
  | S fuel' =>
      match l with
      | [] => None
      | a :: l' =>
          if bool_decide (a = quote) then Some ([], l')
          else if bool_decide (a = bslash) then
            '(c, rest) ← dec_escape l';
            '(s, rest') ← dec_body fuel' rest;
            Some (c ++ s, rest')
          else if bool_decide (byte_Z a < 32) then None
          else
            match utf8_len l with
            | Some n =>
                '(s, rest) ← dec_body fuel' (drop n l);
                Some (take n l ++ s, rest)
            | None =>
                '(s, rest) ← dec_body fuel' l';
                Some (EncodeRune 0xFFFD ++ s, rest)
            end
      end
  end.

Definition dec_string (l : bytes) : option (bytes * bytes) :=
  match l with
  | a :: l' => if bool_decide (a = quote) then dec_body (S (length l')) l' else None
  | [] => None
  end.

Definition is_space (a : ascii) : bool :=
  bool_decide (a ∈ [ascii_of_N 32; ascii_of_N 9; ascii_of_N 10; ascii_of_N 13]).

Fixpoint skip_space (l : bytes) : bytes :=
  match l with a :: l' => if is_space a then skip_space l' else l | [] => [] end.

Definition dec_kv (l : bytes) : option (KeyValue * bytes) :=
  l1 ← strip_prefix key_member l;
  '(k, l2) ← dec_string l1;
  l3 ← strip_prefix value_member l2;
  '(v, l4) ← dec_string l3;
  l5 ← strip_prefix ["}"%char] l4;
  Some (mkKV (str_of_list k) (str_of_list v), l5).

Definition json_Decode (s : string) : DecodeResult :=
  match skip_space (str_to_list s) with
  | [] => DecEOF
  | l => match dec_kv l with
         | Some (kv, rest) => DecValue kv (str_of_list rest)
         | None => DecBad
         end
  end.

#[global] Instance json_codec : KVCodec :=
  {| codec_Encode := json_Encode; codec_Decode := json_Decode |}.

(** ** Round trip *)

(** A well-formed sequence is recognised whatever follows it. *)
Lemma utf8_len_app c r :
  utf8_len c = Some (length c) → utf8_len (c ++ r) = Some (length c).
Proof.
  intros Hc. destruct c as [|a [|b [|x [|y c]]]]; csimpl in *; try done;
    repeat case_match; simplify_eq/=; try done.
Qed.

Lemma utf8_len_cases c :
  utf8_len c = Some (length c) →
  (∃ a, c = [a] ∧ is_ascii a = true) ∨
  (∃ a c', c = a :: c' ∧ c' ≠ [] ∧ is_ascii a = false).
Proof.
  destruct c as [|a c]; [done|]. intros Hc. destruct (is_ascii a) eqn:Ha.
  - left. exists a. split; [|done]. simpl in Hc. rewrite Ha in Hc. by destruct c.
  - right. exists a, c. split; [done|]. split; [|done]. intros ->. simpl in Hc.
    rewrite Ha in Hc. by repeat case_match.
Qed.

(** Decoding undoes the escaping of one ASCII byte; [256] cases. *)
Lemma dec_enc_ascii a fuel r :
  is_ascii a = true →
  dec_body (S fuel) (enc_ascii a ++ r) =
  ('(s, rest) ← dec_body fuel r; Some (a :: s, rest)).
Proof.
  intros Ha.
  destruct a as [[] [] [] [] [] [] [] []]; first [discriminate Ha|reflexivity].
Qed.

Lemma high_byte_plain a :
  is_ascii a = false → a ≠ quote ∧ a ≠ bslash ∧ ¬ byte_Z a < 32.
Proof.
  intros Ha. destruct a as [[] [] [] [] [] [] [] []]; first [discriminate Ha|done].
Qed.

Lemma dec_enc_rune c fuel r :
  utf8_len c = Some (length c) →
  dec_body (S fuel) (enc_rune c ++ r) = ('(s, rest) ← dec_body fuel r; Some (c ++ s, rest)).
Proof.
  intros Hc. destruct (utf8_len_cases c Hc) as [(a & -> & Ha)|(a & c' & -> & Hne & Ha)].
  { by apply dec_enc_ascii. }
  destruct c' as [|b c']; [done|]. rewrite /enc_rune.
  case_bool_decide as Hl; [by rewrite Hl|]. case_bool_decide as Hp; [by rewrite Hp|].
  destruct (high_byte_plain a Ha) as (? & ? & ?).
  change (dec_body (S fuel) (((a :: b :: c') ++ r))) with
    (if bool_decide (a = quote) then Some ([], (b :: c') ++ r)
     else if bool_decide (a = bslash) then
       '(c0, rest) ← dec_escape ((b :: c') ++ r);
       '(s, rest') ← dec_body fuel rest; Some (c0 ++ s, rest')
     else if bool_decide (byte_Z a < 32) then None
     else match utf8_len ((a :: b :: c') ++ r) with
          | Some n => '(s, rest) ← dec_body fuel (drop n ((a :: b :: c') ++ r));
                      Some (take n ((a :: b :: c') ++ r) ++ s, rest)
          | None => '(s, rest) ← dec_body fuel ((b :: c') ++ r);
                    Some (EncodeRune 0xFFFD ++ s, rest)
          end).
  rewrite !bool_decide_eq_false_2 // utf8_len_app //.
  by rewrite take_app_length drop_app_length.
Qed.

Lemma enc_body_rune c l fuel :
  utf8_len c = Some (length c) →
  enc_body (S fuel) (c ++ l) = enc_rune c ++ enc_body fuel l.
Proof.
  intros Hc. destruct c as [|a c]; [done|].
  pose proof (utf8_len_app _ l Hc) as Hl. change ((a :: c) ++ l) with (a :: (c ++ l)) in *.
  cbn [enc_body]. rewrite Hl. by rewrite -/((a :: c) ++ l) take_app_length drop_app_length.
Qed.

Lemma enc_rune_length c : utf8_len c = Some (length c) → (0 < length (enc_rune c))%nat.
Proof.
  intros Hc. destruct (utf8_len_cases c Hc) as [(a & -> & Ha)|(a & c' & -> & Hne & Ha)].
  - rewrite /enc_rune /enc_ascii. repeat case_match; simpl; lia.
  - rewrite /enc_rune. destruct c'; [done|]. repeat case_bool_decide; simpl; lia.
Qed.

Lemma dec_enc_body l : Utf8 l → ∀ fuel k r,
  (length l ≤ fuel)%nat → (length (enc_body fuel l) < k)%nat →
  dec_body k (enc_body fuel l ++ quote :: r) = Some (l, r).
Proof.
  induction 1 as [|c l Hc Hl IH]; intros fuel k r Hf Hk.
  - destruct k as [|k]; [lia|]. by destruct fuel.
  - assert (0 < length c)%nat as Hpos by (destruct c; [done|simpl; lia]).
    rewrite length_app in Hf. destruct fuel as [|fuel]; [lia|].
    rewrite enc_body_rune // length_app in Hk. pose proof (enc_rune_length c Hc).
    destruct k as [|k]; [lia|].
    rewrite enc_body_rune // -assoc_L dec_enc_rune // IH //; lia.
Qed.

Lemma dec_enc_string l r : Utf8 l → dec_string (enc_string l ++ r) = Some (l, r).
Proof.
  intros Hl. rewrite /dec_string /enc_string. cbn [app].
  rewrite bool_decide_eq_true_2 // -assoc_L. cbn [app].
  apply dec_enc_body; [done..|]. rewrite length_app. lia.
Qed.

Definition kv_utf8 (kv : KeyValue) : Prop :=
  Utf8 (str_to_list (kv_Key kv)) ∧ Utf8 (str_to_list (kv_Value kv)).

Lemma json_Encode_Decode kv s :
  kv_utf8 kv → json_Decode (json_Encode kv +:+ s) = DecValue kv (String "010" s).
Proof.
  intros [Hk Hv]. rewrite /json_Decode /json_Encode str_to_list_app str_to_of_list.
  rewrite -!assoc_L.
  match goal with |- context [skip_space ?x] => set (l := x) end.
  change (skip_space l) with l.
  assert (dec_kv l = Some (kv, "010"%char :: str_to_list s)) as Hd.
  { rewrite /dec_kv /l strip_prefix_app. cbn [mbind option_bind].
    rewrite dec_enc_string //. cbn [mbind option_bind].
    rewrite strip_prefix_app. cbn [mbind option_bind].
    rewrite dec_enc_string //=. rewrite !str_of_to_list. by destruct kv. }
  destruct l as [|x l'] eqn:Hl; [done|]. by rewrite Hd /= str_of_to_list.
Qed.

(** A decoded value consumes input. *)
Lemma skip_space_length l : (length (skip_space l) ≤ length l)%nat.
Proof. induction l as [|a l IH]; simpl; [lia|]. destruct (is_space a); simpl; lia. Qed.

Lemma strip_prefix_length p : ∀ l r, strip_prefix p l = Some r → length l = (length p + length r)%nat.
Proof.
  induction p as [|a p IH]; intros l r; simpl; [by intros [= ->]|].
  destruct l as [|b l]; [done|]. case_bool_decide; [|done]. intros Hs%IH. simpl. lia.
Qed.

Lemma hex4_length l r rest : hex4 l = Some (r, rest) → (length rest < length l)%nat.
Proof.
  rewrite /hex4. intros Hh. destruct l as [|a [|b [|c [|d l]]]]; try done.
  destruct (hex_val a), (hex_val b), (hex_val c), (hex_val d); simplify_eq/=. lia.
Qed.

Lemma dec_escape_length l c rest : dec_escape l = Some (c, rest) → (length rest < length l)%nat.
Proof.
  rewrite /dec_escape. destruct l as [|a l]; [done|].
  do 6 (destruct (_ : bool); [intros [= _ <-]; simpl; lia|]).
  destruct (bool_decide _); [|done].
  destruct (hex4 l) as [[r rest1]|] eqn:Hh; [|done]. apply hex4_length in Hh.
  cbn [mbind option_bind]. destruct (bool_decide _); [|intros [= _ <-]; simpl; lia].
  destruct rest1 as [|x [|y rest2]]; [intros [= _ <-]; simpl in *; lia..|].
  destruct (bool_decide (x = bslash) && _); [|intros [= _ <-]; simpl in *; lia].
  destruct (hex4 rest2) as [[r2 rest3]|] eqn:Hh2; [|intros [= _ <-]; simpl in *; lia].
  apply hex4_length in Hh2. destruct (bool_decide _); intros [= _ <-]; simpl in *; lia.
Qed.

Lemma dec_body_length fuel : ∀ l s rest,
  dec_body fuel l = Some (s, rest) → (length rest < length l)%nat.
Proof.
  induction fuel as [|fuel IH]; intros l s rest; [done|].
  destruct l as [|a l]; [done|]. cbn [dec_body].
  destruct (bool_decide _); [intros [= _ <-]; simpl; lia|].
  destruct (bool_decide _).
  { destruct (dec_escape l) as [[c r1]|] eqn:He; [|done]. cbn [mbind option_bind].
    destruct (dec_body fuel r1) as [[s1 r2]|] eqn:Hd; [|done]. cbn [mbind option_bind].
    intros [= _ <-]. apply IH in Hd. apply dec_escape_length in He. simpl. lia. }
  destruct (bool_decide _); [done|].
  destruct (utf8_len (a :: l)) as [n|].
  - destruct (dec_body fuel (drop n (a :: l))) as [[s1 r2]|] eqn:Hd; [|done].
    cbn [mbind option_bind]. intros [= _ <-]. apply IH in Hd. rewrite length_drop in Hd. lia.
  - destruct (dec_body fuel l) as [[s1 r2]|] eqn:Hd; [|done].
    cbn [mbind option_bind]. intros [= _ <-]. apply IH in Hd. simpl. lia.
Qed.

Lemma dec_string_length l s rest : dec_string l = Some (s, rest) → (length rest ≤ length l)%nat.
Proof.
  destruct l as [|a l]; [done|]. cbn [dec_string]. case_bool_decide; [|done].
  intros Hd%dec_body_length. simpl. lia.
Qed.

Lemma json_Decode_progress s kv rest :
  json_Decode s = DecValue kv rest → (String.length rest < String.length s)%nat.
Proof.
  rewrite /json_Decode -!length_str_to_list. pose proof (skip_space_length (str_to_list s)) as Hs.
  destruct (skip_space (str_to_list s)) as [|a l]; [done|].
  destruct (dec_kv (a :: l)) as [[kv' r]|] eqn:Hkv; [|done]. intros [= <- <-].
  rewrite str_to_of_list. revert Hkv. rewrite /dec_kv.
  destruct (strip_prefix key_member (a :: l)) as [l1|] eqn:H1; [|done].
  apply strip_prefix_length in H1. cbn [mbind option_bind].
  destruct (dec_string l1) as [[k l2]|] eqn:H2; [|done]. apply dec_string_length in H2.
  cbn [mbind option_bind].
  destruct (strip_prefix value_member l2) as [l3|] eqn:H3; [|done].
  apply strip_prefix_length in H3. cbn [mbind option_bind].
  destruct (dec_string l3) as [[v l4]|] eqn:H4; [|done]. apply dec_string_length in H4.
  cbn [mbind option_bind].
  destruct (strip_prefix ["}"%char] l4) as [l5|] eqn:H5; [|done].
  apply strip_prefix_length in H5. cbn [mbind option_bind]. intros [= _ <-].
  change (length key_member) with 7%nat in H1. lia.
Qed.

(** Decoding the rest of a file after the newline of the previous value. *)
Lemma json_Decode_newline s : json_Decode (String "010" s) = json_Decode s.
Proof. done. Qed.

Lemma json_stream kvs : Forall kv_utf8 kvs → ∀ acc,
  decode_loop (S (length kvs)) (encode_all kvs) acc = Some (inr (acc ++ kvs)) ∧
  decode_loop (S (length kvs)) (String "010" (encode_all kvs)) acc = Some (inr (acc ++ kvs)).
Proof.
  induction 1 as [|kv kvs Hkv _ IH]; intros acc.
  - by rewrite right_id_L.
  - destruct (IH (acc ++ [kv])) as [_ IH2]. rewrite -assoc_L in IH2.
    split; cbn [length decode_loop codec_Decode json_codec].
    + by rewrite /= json_Encode_Decode.
    + by rewrite json_Decode_newline /= json_Encode_Decode.
Qed.

#[global] Instance json_laws : KVCodecLaws.
Proof.
  refine {| codec_valid := kv_utf8 |}.
  - apply json_Decode_progress.
  - intros kvs Hv. exists (S (length kvs)). by destruct (json_stream kvs Hv []).
Defined.

(** ** A decision procedure for validity, for concrete strings *)

Fixpoint utf8b (fuel : nat) (l : bytes) : bool :=
  match l, fuel with
  | [], _ => true
  | _, O => false
  | _, S fuel' =>
      match utf8_len l with Some n => utf8b fuel' (drop n l) | None => false end
  end.

Lemma utf8_len_take l n : utf8_len l = Some n → utf8_len (take n l) = Some n ∧ length (take n l) = n.
Proof.
  destruct l as [|a [|b [|c [|d l]]]]; intros Hn; simpl in Hn; try done;
    repeat case_match; simplify_eq/=; split; try done;
    repeat match goal with H : ?x = _ |- context [?x] => rewrite H end; done.
Qed.

Lemma utf8b_sound fuel : ∀ l, utf8b fuel l = true → Utf8 l.
Proof.
  induction fuel as [|fuel IH]; intros [|a l]; simpl; try done; [constructor..|].
  intros Hb. destruct (utf8_len (a :: l)) as [n|] eqn:Hn.
  - simpl in Hn. rewrite Hn in Hb. apply IH in Hb.
    rewrite -(take_drop n (a :: l)). destruct (utf8_len_take (a :: l) n Hn) as [Ht Hl].
    apply utf8_rune; [by rewrite Ht Hl|done].
  - simpl in Hn. by rewrite Hn in Hb.
Qed.

Definition kv_utf8b (kv : KeyValue) : bool :=
  utf8b (String.length (kv_Key kv)) (str_to_list (kv_Key kv)) &&
  utf8b (String.length (kv_Value kv)) (str_to_list (kv_Value kv)).

Lemma kv_utf8b_sound kvs : forallb kv_utf8b kvs = true → Forall kv_utf8 kvs.
Proof.
  rewrite forallb_forall. intros Hb. apply Forall_forall. intros kv Hkv%list_elem_of_In.
  destruct (andb_prop _ _ (Hb kv Hkv)) as [H1 H2].
  split; by eapply utf8b_sound.
Qed.
