(* ===== verification/MrWorkerIO.v ===== *)
(** * Package [mr]: theorems about the worker's files and reports

    Proved against the codec interface of [MrWorkerThm.v]; the witnesses use
    the JSON instance of [Json.v]. *)
From S2P Require Import Prelude GoBase MrTypes MrWorker MrWorkerThm Json.

Section io.
Context `{KVCodecLaws}.

(** What a map task of [n] buckets leaves behind. *)
Lemma runMapTask_files envs fs task data mapf fs' err :
  0 ≤ ID task → 0 < md_Buckets data → (∀ b, env_fresh (envs b) fs) →
  runMapTask envs fs task data mapf = Some (fs', err) →
  let kvs := mapf (md_Key data) (md_Content data) in
  let n := md_Buckets data in
  (∀ name, (∀ b, 0 ≤ b < n → name ≠ taskIntermediateFileName (ID task) b) →
     fs' !! name = fs !! name) ∧
  (∀ b, 0 ≤ b < n →
     let name := taskIntermediateFileName (ID task) b in
     fs' !! name = Some (encode_all (bucket_ref n b kvs)) ∨
     err ≠ None ∧ fs' !! name = fs !! name).
Proof.
  intros Hid Hn Hfresh Hrun kvs n. rewrite /runMapTask bucketContents_eq // in Hrun.
  injection Hrun as Hrun. rewrite /writeBucketsToFiles in Hrun.
  apply writeBuckets_loop_files in Hrun as [Hother Hf]; [|done..]. split.
  - intros name Hname. apply Hother. intros i Hi. rewrite length_fmap length_seqZ in Hi.
    apply Hname. lia.
  - intros b Hb name. specialize (Hf (Z.to_nat b) (bucket_ref n b kvs)).
    rewrite Z.add_0_l Z2Nat.id in Hf; [|lia]. apply Hf.
    rewrite list_lookup_fmap lookup_seqZ_lt; [|lia]. simpl.
    by rewrite Z.add_0_l Z2Nat.id; [|lia].
Qed.
End io.

(** ** Properties *)

(** C30: Bucket files are written atomically: whichever step fails (creating
    the temporary file, any [Encode], [Close] or [Rename]), the directory is
    exactly what it was before, without the temporary file; if all succeed,
    the only change is that the bucket's file holds the whole encoding. *)
Theorem writeBucketToFile_atomic `{KVCodec} env fs id b kvs :
  0 ≤ id → env_fresh env fs →
  writeBucketToFile env fs id b kvs =
    (<[taskIntermediateFileName id b := encode_all kvs]> fs, None) ∨
  ∃ err, writeBucketToFile env fs id b kvs = (fs, Some err).
Proof.
  intros Hid Hfresh. pose proof (writeBucketToFile_cases env fs id b kvs Hid Hfresh) as Hc.
  destruct (writeBucketToFile env fs id b kvs) as [fs' [e|]]; simpl in Hc.
  - right. exists e. by destruct Hc as [[? _]|[_ ->]].
  - left. by destruct Hc as [[_ ->]|[? _]].
Qed.

Lemma writeBucketToFile_atomic_witness :
  ∃ err, writeBucketToFile
    {| we_tmp := Some "mr-bucket-77"; we_encode_fails_at := Some 1%nat;
       we_close_ok := true; we_rename_ok := true |}
    {["mr-3-0" := "old"]} 3 0 [mkKV "a" "1"; mkKV "b" "2"] = ({["mr-3-0" := "old"]}, Some err).
Proof.
  destruct (writeBucketToFile_atomic
    {| we_tmp := Some "mr-bucket-77"; we_encode_fails_at := Some 1%nat;
       we_close_ok := true; we_rename_ok := true |}
    {["mr-3-0" := "old"]} 3 0 [mkKV "a" "1"; mkKV "b" "2"]) as [Hc|Hc].
  - lia.
  - intros tmp [= <-]. split; [by vm_compute|by exists "77"].
  - exfalso. apply (f_equal snd) in Hc. by vm_compute in Hc.
  - exact Hc.
Defined.

(** Map output survives the disk and the codec: after a map task ran
    without error, every bucket file of the task reads back as exactly the
    pairs of that bucket, in order, and no other file changed. *)
Theorem runMapTask_roundtrip `{KVCodecLaws} envs fs task data mapf fs' :
  0 ≤ ID task → 0 < md_Buckets data → (∀ b, env_fresh (envs b) fs) →
  Forall codec_valid (mapf (md_Key data) (md_Content data)) →
  runMapTask envs fs task data mapf = Some (fs', None) →
  (∀ b, 0 ≤ b < md_Buckets data →
     readBucketFile true fs' (ID task) b =
     inr (bucket_ref (md_Buckets data) b (mapf (md_Key data) (md_Content data)))) ∧
  (∀ name, (∀ b, 0 ≤ b < md_Buckets data → name ≠ taskIntermediateFileName (ID task) b) →
     fs' !! name = fs !! name).
Proof.
  intros Hid Hn Hfresh Hv Hrun.
  destruct (runMapTask_files _ _ _ _ _ _ _ Hid Hn Hfresh Hrun) as [Hother Hfiles].
  split; [|done]. intros b Hb. destruct (Hfiles b Hb) as [Hf|[? _]]; [|done].
  apply readBucketFile_written; [|done].
  apply Forall_forall. intros kv [_ Hkv]%list_elem_of_filter.
  rewrite Forall_forall in Hv. by apply Hv.
Qed.

Definition demo_write (b : Z) : WriteEnv :=
  {| we_tmp := Some ("mr-bucket-" +:+ Itoa b); we_encode_fails_at := None;
     we_close_ok := true; we_rename_ok := true |}.
Definition demo_mapf (_ content : string) : list KeyValue := [mkKV content "1"; mkKV "k<&>" content].

Lemma runMapTask_roundtrip_witness :
  ∃ fs', runMapTask demo_write ∅ (mkTask 7 TaskMap TaskStateRunning 0)
           (mkMapTaskData "f" "caf" 2) demo_mapf = Some (fs', None) ∧
    readBucketFile true fs' 7 0 = inr (bucket_ref 2 0 (demo_mapf "f" "caf")).
Proof.
  eexists. split; [by vm_compute|].
  apply (runMapTask_roundtrip demo_write ∅ (mkTask 7 TaskMap TaskStateRunning 0)
           (mkMapTaskData "f" "caf" 2) demo_mapf); simpl.
  - lia.
  - lia.
  - intros b tmp [= <-]. split; [apply lookup_empty|by eexists].
  - by apply kv_utf8b_sound; vm_compute.
  - by vm_compute.
  - lia.
Defined.

(** The round trip needs valid UTF-8: a pair with a stray byte comes back
    with the replacement character in its place, so two different keys can
    be merged on their way through the intermediate files. *)
Theorem invalid_utf8_merged :
  let kv1 := mkKV (String "255" "") "1" in
  let kv2 := mkKV (String "254" "") "2" in
  let fs := {[taskIntermediateFileName 1 0 := encode_all [kv1; kv2]]} in
  kv_Key kv1 ≠ kv_Key kv2 ∧
  ∃ kvs, readBucketFile true fs 1 0 = inr kvs ∧ length kvs = 2%nat ∧
    length (distinct_keys kvs) = 1%nat.
Proof. split; [done|]. eexists. by vm_compute. Qed.

(** The RPCs sent for one task. *)
(** The producers of a reduce task can all be read. *)
Definition all_outputs_read `{KVCodec} (env : TaskEnv) (fs : FS) (data : ReduceTaskData) : Prop :=
  ∀ id addr, (id, addr) ∈ range_visit (te_outputsOrd env) (rd_MapTaskOutputs data) →
    ∃ kvs, read_map_output env fs (rd_Bucket data) id addr = inr kvs.

Lemma collect_outputs_cases `{KVCodec} env fs bucket outs acc :
  match collect_outputs env fs bucket outs acc with
  | inl (id, e) => ∃ addr, (id, addr) ∈ outs ∧ read_map_output env fs bucket id addr = inl e
  | inr _ => ∀ id addr, (id, addr) ∈ outs → ∃ kvs, read_map_output env fs bucket id addr = inr kvs
  end.
Proof.
  revert acc. induction outs as [|[id addr] outs IH]; intros acc; simpl; [by intros ?? ?%elem_of_nil|].
  destruct (read_map_output env fs bucket id addr) as [e|kvs] eqn:Er.
  - exists addr. split; [left|done].
  - specialize (IH (acc ++ kvs)). destruct (collect_outputs _ _ _ _ _) as [[id' e']|?].
    + destruct IH as (addr' & ? & ?). exists addr'. split; [by right|done].
    + intros id' addr' [Heq|Hin]%elem_of_cons; [simplify_eq; eauto|by apply IH].
Qed.

(** Without a missing output there are no calls; with one it is reported. *)
Lemma runReduceTask_calls `{KVCodec} env fs task data reducef fs' calls err :
  runReduceTask env fs task data reducef = (fs', calls, err) →
  calls = [] ∧ all_outputs_read env fs data ∨
  ∃ id addr e, calls = [reportMissingMapOutputs id] ∧ err = Some e ∧
    (id, addr) ∈ range_visit (te_outputsOrd env) (rd_MapTaskOutputs data) ∧
    read_map_output env fs (rd_Bucket data) id addr = inl e.
Proof.
  rewrite /runReduceTask. pose proof (collect_outputs_cases env fs (rd_Bucket data)
    (range_visit (te_outputsOrd env) (rd_MapTaskOutputs data)) []) as Hc.
  destruct (collect_outputs _ _ _ _ _) as [[id e]|kvs].
  - destruct Hc as (addr & ? & ?). intros [= _ <- <-]. right. by exists id, addr, e.
  - destruct (writeReducedContentsToBucketFile _ _ _ _ _). intros [= _ <- <-]. by left.
Qed.

(** [executeTask] reports a task as completed exactly when it is a map or
    reduce task that ran without error, and then reports that very task under
    the worker's own address, once, as its last call. A reduce task runs without
    error only if the output of every producer it was told of could be read;
    a missing output is reported only for a reduce task, for a producer it was
    told of and whose output could not be read, and then nothing else is. *)
Theorem executeTask_reports `{KVCodec} env fs reply mapf reducef fs' calls err :
  executeTask env fs reply mapf reducef = Some (fs', calls, err) →
  ((∃ args, ReportCompletion args ∈ calls) ↔
    err = None ∧ ∃ task, tr_Task reply = Some task ∧
      (Type_ task = TaskMap ∨ Type_ task = TaskReduce)) ∧
  (∀ args, ReportCompletion args ∈ calls →
    rc_Task args = tr_Task reply ∧ rc_WorkerAddress args = te_workerAddress env ∧
    calls = [ReportCompletion args] ∧
    ∀ task data, tr_Task reply = Some task → Type_ task = TaskReduce → tr_ReduceData reply = Some data →
      all_outputs_read env fs data) ∧
  (∀ args, ReportMissing args ∈ calls → calls = [ReportMissing args] ∧
    ∃ task data addr e, tr_Task reply = Some task ∧ Type_ task = TaskReduce ∧ tr_ReduceData reply = Some data ∧
      err = Some e ∧ (rm_MapTaskID args, addr) ∈ range_visit (te_outputsOrd env) (rd_MapTaskOutputs data) ∧
      read_map_output env fs (rd_Bucket data) (rm_MapTaskID args) addr = inl e).
Proof.
  rewrite /executeTask. intros Hex.
  assert (∀ e : WorkerErr, ¬ Some e = None) as Hne by done.
  destruct (tr_Task reply) as [task|] eqn:Ht; [|set_solver].
  destruct (Type_ task) eqn:Hty; [set_solver| |..].
  - simplify_eq. split_and!; [|set_solver..]. split; [set_solver|].
    intros (_ & t & [= <-] & [?|?]); congruence.
  - destruct (tr_MapData reply) as [data|]; [|set_solver].
    destruct (runMapTask _ _ _ _ _) as [[fs1 [e|]]|]; simplify_eq/=; [set_solver|].
    rewrite /reportTaskCompletion. split_and!.
    + split; [|set_solver]. intros _. split; [done|]. exists task. auto.
    + intros args [= ->]%list_elem_of_singleton. split_and!; [done..|]. congruence.
    + set_solver.
  - destruct (tr_ReduceData reply) as [data|]; [|set_solver].
    destruct (runReduceTask _ _ _ _ _) as [[fs1 calls1] e1] eqn:Hr.
    apply runReduceTask_calls in Hr as [[-> Hall]|(id & addr & e & -> & -> & Hin & Hread)].
    + destruct e1 as [e|]; simplify_eq/=; [set_solver|]. rewrite /reportTaskCompletion. split_and!.
      * split; [|set_solver]. intros _. split; [done|]. exists task. auto.
      * intros args [= ->]%list_elem_of_singleton. split_and!; [done..|]. by intros ? ? [= <-] _ [= <-].
      * set_solver.
    + simplify_eq/=. rewrite /reportMissingMapOutputs. split_and!; [set_solver..|].
      intros args [= ->]%list_elem_of_singleton. split; [done|]. by exists task, data, addr, e.
Qed.

Definition demo_task_env : TaskEnv :=
  {| te_workerAddress := "w1"; te_writes := demo_write; te_openable := λ _, true;
     te_net := λ _ _, DialFailed; te_outputsOrd := [1]; te_groupOrd := [];
     te_create_ok := true; te_line_ok := λ _, true |}.

Lemma executeTask_reports_witness :
  ∃ fs' calls, executeTask demo_task_env ∅
      (mkTaskReply (Some (mkTask 7 TaskMap TaskStateRunning 0))
         (Some (mkMapTaskData "f" "caf" 2)) None) demo_mapf (λ _ _, "") =
    Some (fs', calls, None) ∧ ∃ args, ReportCompletion args ∈ calls.
Proof.
  eexists _, _. split; [by vm_compute|].
  eapply (executeTask_reports demo_task_env ∅
      (mkTaskReply (Some (mkTask 7 TaskMap TaskStateRunning 0))
         (Some (mkMapTaskData "f" "caf" 2)) None) demo_mapf (λ _ _, "")); [by vm_compute|].
  split; [done|]. eexists. split; [done|]. by left.
Defined.


Definition with_line_ok (line_ok : nat → bool) (env : TaskEnv) : TaskEnv :=
  {| te_workerAddress := te_workerAddress env; te_writes := te_writes env;
     te_openable := te_openable env; te_net := te_net env;
     te_outputsOrd := te_outputsOrd env; te_groupOrd := te_groupOrd env;
     te_create_ok := te_create_ok env; te_line_ok := line_ok |}.

(** A failed write of an output line goes unnoticed: the error and the
    reports of a reduce task do not depend on which lines reached the file.
    Even when none did, the task is reported completed over an empty file. *)
Theorem output_write_failure_silent `{KVCodec} env fs task data mapf reducef fs' calls :
  Type_ task = TaskReduce →
  executeTask env fs (mkTaskReply (Some task) None (Some data)) mapf reducef =
    Some (fs', calls, None) →
  executeTask (with_line_ok (λ _, false) env) fs (mkTaskReply (Some task) None (Some data))
    mapf reducef =
    Some (<[reduceOutputFileName (rd_Bucket data) := ""]> fs, calls, None).
Proof.
  assert (∀ kvs i, write_lines (λ _, false) i kvs = "") as Hlines.
  { induction kvs as [|kv kvs IH]; intros i; [done|]. simpl. by rewrite IH. }
  assert (∀ bucket outs acc, collect_outputs (with_line_ok (λ _, false) env) fs bucket outs acc =
    collect_outputs env fs bucket outs acc) as Hcollect.
  { intros bucket outs. induction outs as [|[id addr] outs IH]; intros acc; [done|].
    simpl. rewrite /read_map_output /=. case_match; [done|]. apply IH. }
  intros Hty. rewrite /executeTask /= Hty /runReduceTask Hcollect /=.
  destruct (collect_outputs _ _ _ _ _) as [[id e]|kvs]; [done|].
  rewrite /writeReducedContentsToBucketFile. destruct (te_create_ok env); simpl; [|done].
  intros [= _ <-]. by rewrite Hlines.
Qed.

Lemma output_write_failure_silent_witness :
  executeTask (with_line_ok (λ _, false) demo_task_env) ∅
    (mkTaskReply (Some (mkTask 9 TaskReduce TaskStateRunning 0)) None
       (Some (mkReduceTaskData 0 ∅))) demo_mapf (λ _ _, "") =
  Some ({["mr-out-0" := ""]},
        [reportTaskCompletion "w1" (mkTask 9 TaskReduce TaskStateRunning 0)], None).
Proof.
  rewrite (output_write_failure_silent demo_task_env ∅ (mkTask 9 TaskReduce TaskStateRunning 0)
    (mkReduceTaskData 0 ∅) demo_mapf (λ _ _, "") {["mr-out-0" := ""]}
    [reportTaskCompletion "w1" (mkTask 9 TaskReduce TaskStateRunning 0)]); [done|done|].
  by vm_compute.
Defined.
