(* ===== verification/MrSequential.v ===== *)
(** * [main/mrsequential.go]: the sequential MapReduce

    The reference implementation the tests compare against: map every input
    file, sort all pairs by key, reduce each run of equal keys. The sort is
    Go's [sort.Sort], which is not stable: the theorems hold for every sorted
    rearrangement. *)
From S2P Require Import Prelude GoBase MrTypes MrWorker MrWorkerThm.

(** [type ByKey]: [Less] compares keys; a list is sorted when no later key is
    smaller. *)
Definition ByKey_Less (a b : KeyValue) : bool := String.ltb (kv_Key a) (kv_Key b).
Definition key_le (a b : KeyValue) : Prop := String.le (kv_Key a) (kv_Key b).

#[global] Instance key_le_dec : RelDecision key_le.
Proof. intros a b. rewrite /key_le. apply _. Defined.
#[global] Instance key_le_trans : Transitive key_le.
Proof. intros a b c. rewrite /key_le. apply transitivity. Qed.
#[global] Instance key_le_total : Total key_le.
Proof. intros a b. apply (total String.le). Qed.

Definition sort_ByKey (l : list KeyValue) : list KeyValue := merge_sort key_le l.

(** The first loop: [None] is the [log.Fatalf] on an unreadable file. *)
Fixpoint map_files (readFile : string → option string)
    (mapf : string → string → list KeyValue) (filenames : list string)
    (intermediate : list KeyValue) : option (list KeyValue) :=
  match filenames with
  | [] => Some intermediate
  | filename :: rest =>
      content ← readFile filename;
      map_files readFile mapf rest (intermediate ++ mapf filename content)
  end.

(** The inner loop over [j]: the pairs that continue the run of [key]. *)
Fixpoint span_key (key : string) (l : list KeyValue) : list KeyValue * list KeyValue :=
  match l with
  | [] => ([], [])
  | kv :: l' =>
      if bool_decide (kv_Key kv = key)
      then let '(run, rest) := span_key key l' in (kv :: run, rest)
      else ([], l)
  end.

(** The outer loop over [i]; each iteration consumes at least one pair, so the
    length of the list is enough fuel. *)
Fixpoint reduce_runs_go (fuel : nat) (reducef : string → list string → string)
    (l : list KeyValue) : list KeyValue :=
  match fuel, l with
  | S fuel', kv :: l' =>
      let '(run, rest) := span_key (kv_Key kv) l' in
      let values := kv_Value <$> (kv :: run) in
      mkKV (kv_Key kv) (reducef (kv_Key kv) values) :: reduce_runs_go fuel' reducef rest
  | _, _ => []
  end.

Definition reduce_runs (reducef : string → list string → string) (l : list KeyValue)
    : list KeyValue := reduce_runs_go (length l) reducef l.

(** [main] of [mrsequential.go], with the plugin's functions, the arguments
    after the plugin, and the disk: the pairs printed to [mr-out-0]. *)
Definition mrsequential (readFile : string → option string)
    (mapf : string → string → list KeyValue) (reducef : string → list string → string)
    (filenames : list string) : option (list KeyValue) :=
  intermediate ← map_files readFile mapf filenames [];
  Some (reduce_runs reducef (sort_ByKey intermediate)).

(** ** Lemmas *)

Lemma span_key_spec k l run rest :
  span_key k l = (run, rest) →
  l = run ++ rest ∧ Forall (λ kv, kv_Key kv = k) run ∧
  (∀ kv, head rest = Some kv → kv_Key kv ≠ k).
Proof.
  revert run rest. induction l as [|kv l IH]; intros run rest; simpl.
  - by intros [= <- <-].
  - case_bool_decide as Hk.
    + destruct (span_key k l) as [run' rest']. intros [= <- <-].
      destruct (IH _ _ eq_refl) as (-> & Hf & Hh). split; [done|]. split; [by constructor|done].
    + intros [= <- <-]. split; [done|]. split; [constructor|]. by intros kv' [= <-].
Qed.

Lemma values_of_app k l1 l2 : values_of k (l1 ++ l2) = values_of k l1 ++ values_of k l2.
Proof. by rewrite /values_of filter_app fmap_app. Qed.

Lemma values_of_run k l : Forall (λ kv, kv_Key kv = k) l → values_of k l = kv_Value <$> l.
Proof.
  rewrite /values_of. induction 1 as [|kv l Hk _ IH]; [done|].
  rewrite filter_cons_True //; csimpl. by rewrite IH.
Qed.

(** In a sorted list the pairs after a run have larger keys. *)
Lemma sorted_run k kv run rest :
  Sorted key_le (kv :: run ++ rest) → kv_Key kv = k →
  Forall (λ kv, kv_Key kv = k) run →
  (∀ kv', head rest = Some kv' → kv_Key kv' ≠ k) →
  Sorted key_le rest ∧ ∀ kv', kv' ∈ rest → String.le k (kv_Key kv') ∧ kv_Key kv' ≠ k.
Proof.
  intros Hs Hk Hrun Hhead.
  apply Sorted_StronglySorted in Hs; [|apply _].
  rewrite app_comm_cons in Hs. pose proof (StronglySorted_app_1_r _ _ _ Hs) as Hsr.
  split; [by apply StronglySorted_Sorted|]. intros kv' Hin.
  assert (String.le k (kv_Key kv')) as Hle.
  { rewrite -Hk. apply (StronglySorted_app_1_elem_of _ _ _ kv kv' Hs); [left|done]. }
  split; [done|]. intros Heq. destruct rest as [|r rest]; [by apply elem_of_nil in Hin|].
  specialize (Hhead r eq_refl). apply Hhead. apply (anti_symm String.le).
  - apply elem_of_cons in Hin as [->|Hin]; [by rewrite Heq|].
    inversion_clear Hsr as [|? ? _ Hf]. rewrite Forall_forall in Hf.
    rewrite -Heq. by apply Hf.
  - rewrite -Hk. apply (StronglySorted_app_1_elem_of _ _ _ kv r Hs); left.
Qed.

Lemma reduce_runs_go_spec reducef fuel : ∀ l,
  (length l ≤ fuel)%nat → Sorted key_le l →
  ∃ ks, reduce_runs_go fuel reducef l = (λ k, mkKV k (reducef k (values_of k l))) <$> ks ∧
    Sorted String.le ks ∧ NoDup ks ∧ ∀ k, k ∈ ks ↔ k ∈ kv_Key <$> l.
Proof.
  induction fuel as [|fuel IH]; intros l Hlen Hs.
  { destruct l; [|simpl in Hlen; lia]. exists []. repeat split; try constructor; set_solver. }
  destruct l as [|kv l].
  { exists []. repeat split; try constructor; set_solver. }
  cbn [reduce_runs_go]. destruct (span_key (kv_Key kv) l) as [run rest] eqn:Hsp.
  apply span_key_spec in Hsp as (-> & Hrun & Hhead).
  destruct (sorted_run _ _ _ _ Hs eq_refl Hrun Hhead) as [Hsr Hgt].
  rewrite /= length_app in Hlen.
  destruct (IH rest ltac:(lia) Hsr) as (ks & -> & Hks & Hnd & Hel).
  assert (kv_Key kv ∉ kv_Key <$> rest) as Hnin.
  { intros (kv' & Heq & Hin)%list_elem_of_fmap. destruct (Hgt _ Hin). congruence. }
  exists (kv_Key kv :: ks). split; [|split; [|split]].
  - csimpl. f_equal.
    + f_equal. f_equal. rewrite app_comm_cons values_of_app.
      rewrite (proj2 (values_of_nil (kv_Key kv) rest) Hnin) right_id_L.
      rewrite values_of_run //. by constructor.
    + apply list_fmap_ext. intros i k Hk%list_elem_of_lookup_2. f_equal. f_equal.
      rewrite app_comm_cons values_of_app.
      rewrite (proj2 (values_of_nil k (kv :: run))) //.
      rewrite fmap_cons not_elem_of_cons. apply Hel in Hk. split; [by intros ->|].
      intros (kv' & -> & Hin)%list_elem_of_fmap. rewrite Forall_forall in Hrun.
      rewrite (Hrun _ Hin) in Hk. done.
  - constructor; [done|]. destruct ks as [|k ks]; constructor.
    assert (k ∈ kv_Key <$> rest) as (kv' & -> & Hin)%list_elem_of_fmap by (apply Hel; left).
    by apply Hgt.
  - constructor; [|done]. by rewrite Hel.
  - intros k. rewrite elem_of_cons Hel fmap_cons fmap_app elem_of_cons elem_of_app.
    split; [naive_solver|]. intros [->|[(kv' & -> & Hin)%list_elem_of_fmap|Hin]]; [by left| |by right].
    left. rewrite Forall_forall in Hrun. by apply Hrun.
Qed.

Lemma reduce_runs_sorted reducef l :
  Sorted key_le l → reduce_runs reducef l = reduce_ref reducef l.
Proof.
  intros Hs. rewrite /reduce_runs /reduce_ref.
  destruct (reduce_runs_go_spec reducef (length l) l) as (ks & -> & Hks & Hnd & Hel); [done..|].
  f_equal. apply sort_Strings_unique; [done|].
  apply NoDup_Permutation; [done|apply distinct_keys_NoDup|].
  intros k. by rewrite Hel distinct_keys_elem.
Qed.

Lemma map_files_spec readFile mapf files : ∀ acc kvs,
  map_files readFile mapf files acc = Some kvs ↔
  (∀ f, f ∈ files → is_Some (readFile f)) ∧
  kvs = acc ++ concat ((λ f, mapf f (default "" (readFile f))) <$> files).
Proof.
  induction files as [|f files IH]; intros acc kvs; csimpl.
  - rewrite right_id_L. split; [intros [= <-]; set_solver|by intros [_ ->]].
  - destruct (readFile f) as [content|] eqn:Hf; csimpl.
    + rewrite IH -assoc_L. split; intros [Hall ->]; (split; [|done]).
      * intros f' [->|Hin]%elem_of_cons; [eauto|by apply Hall].
      * intros f' Hin. apply Hall. by right.
    + split; [done|]. intros [Hall _]. destruct (Hall f ltac:(left)) as [? ?]. congruence.
Qed.

(** ** Properties *)

(** C22: The sequential program computes the reference result: for a reduce
    function that does not depend on the order of the values, whatever
    sorted rearrangement the (unstable) sort produces, the loop over runs of
    equal keys reduces every distinct key once, in order, with all of its
    values from all input files. *)
Theorem mrsequential_correct `{!OrderInsensitive reducef} readFile mapf files sorted :
  (∀ f, f ∈ files → is_Some (readFile f)) →
  let kvs := concat ((λ f, mapf f (default "" (readFile f))) <$> files) in
  Sorted key_le sorted → sorted ≡ₚ kvs →
  reduce_runs reducef sorted = reduce_ref reducef kvs ∧
  mrsequential readFile mapf reducef files = Some (reduce_ref reducef kvs).
Proof.
  intros Hread kvs Hs Hp. split.
  - rewrite reduce_runs_sorted //. by apply reduce_ref_Proper.
  - rewrite /mrsequential (proj2 (map_files_spec readFile mapf files [] kvs)) //=. f_equal.
    rewrite reduce_runs_sorted; [|apply Sorted_merge_sort, _].
    apply reduce_ref_Proper; [done|apply merge_sort_Permutation].
Qed.

Lemma mrsequential_correct_witness :
  ∃ kvs, mrsequential (λ f, Some f) (λ f c, [mkKV f c; mkKV "z" f])
    (λ _ vs, Itoa (Z.of_nat (length vs))) ["b"; "a"] = Some kvs ∧ length kvs = 3%nat.
Proof.
  assert (OrderInsensitive (λ _ vs, Itoa (Z.of_nat (length vs)))) as Hoi.
  { intros k vs vs' Hp. by rewrite Hp. }
  destruct (mrsequential_correct (reducef := λ _ vs, Itoa (Z.of_nat (length vs)))
    (λ f, Some f) (λ f c, [mkKV f c; mkKV "z" f]) ["b"; "a"]
    [mkKV "a" "a"; mkKV "b" "b"; mkKV "z" "a"; mkKV "z" "b"]) as [_ ->].
  - eauto.
  - by apply (bool_decide_unpack _); vm_compute.
  - by apply (bool_decide_unpack _); vm_compute.
  - eexists. split; [done|]. by vm_compute.
Defined.
