(* ===== verification/MrApps.v ===== *)
(** * The MapReduce applications of [mrapps/]

    [wc.go], [indexer.go], [early_exit.go], [crash.go], [nocrash.go] and
    [jobcount.go]; [mtiming.go] and [rtiming.go] are in [MrTiming]. Each
    application is a pair [Map]/[Reduce]; what it takes from its surroundings
    (random numbers, the process ID, the directory) is an argument.

    [unicode.IsLetter] is a parameter above ASCII, where its table is data of
    the Go library; what is used of it is that the replacement character is
    not a letter. *)
From S2P Require Import Prelude GoBase GoUtf8 MrTypes MrWorker MrWorkerThm Json.

(** ** Splitting into words *)

(** The maximal runs of runes that do not satisfy [f], none of them empty. *)
Fixpoint fields (f : Z → bool) (rs : list (Z * list ascii)) (cur : list ascii) : list string :=
  let flush := match cur with [] => [] | _ => [str_of_list cur] end in
  match rs with
  | [] => flush
  | (r, c) :: rs' => if f r then flush ++ fields f rs' [] else fields f rs' (cur ++ c)
  end.

(** [strings.FieldsFunc(s, f)] *)
Definition FieldsFunc (s : string) (f : Z → bool) : list string :=
  fields f (runes (String.length s) (str_to_list s)) [].

Definition ascii_letter (r : Z) : bool :=
  bool_decide (65 ≤ r ≤ 90) || bool_decide (97 ≤ r ≤ 122).

Section apps.
(** [unicode.IsLetter] for code points from [0x80] on. *)
Variable nonascii_letter : Z → bool.

Definition IsLetter (r : Z) : bool :=
  if bool_decide (r < 0x80) then ascii_letter r else nonascii_letter r.

Definition words (contents : string) : list string :=
  FieldsFunc contents (λ r, negb (IsLetter r)).

(** ** [wc.go] *)

Definition wc_Map (filename contents : string) : list KeyValue :=
  (λ w, mkKV w "1") <$> words contents.

(** ** [indexer.go]; [ord] is the order in which [range m] yields the words *)

Definition indexer_m (value : string) : gmap string bool :=
  foldl (λ m w, <[w := true]> m) ∅ (words value).

Definition indexer_Map (ord : list string) (document value : string) : list KeyValue :=
  (λ p, mkKV p.1 document) <$> range_visit ord (indexer_m value).
End apps.

Definition wc_Reduce (key : string) (values : list string) : string :=
  Itoa (Z.of_nat (length values)).

Definition indexer_Reduce (key : string) (values : list string) : string :=
  let values := sort_Strings values in
  Itoa (Z.of_nat (length values)) +:+ " " +:+ Join values ",".

(** ** [early_exit.go] *)

Definition early_exit_Map (filename contents : string) : list KeyValue := [mkKV filename "1"].

(** The seconds slept and the result. *)
Definition early_exit_Reduce (key : string) (values : list string) : Z * string :=
  (if Contains key "sherlock" || Contains key "tom" then 3 else 0,
   Itoa (Z.of_nat (length values))).

(** ** [crash.go] and [nocrash.go] *)

Inductive CrashEffect := Crashed | Continue (sleep_ms : Z).

(** [rr] is the random number below 1000, [ms] the one below 10000. *)
Definition crash_maybeCrash (rr ms : Z) : CrashEffect :=
  if bool_decide (rr < 330) then Crashed
  else if bool_decide (rr < 660) then Continue ms
  else Continue 0.

(** The guard is [false && rr.Int64() < 500]. *)
Definition nocrash_maybeCrash (rr : Z) : CrashEffect :=
  if false && bool_decide (rr < 500) then Crashed else Continue 0.

Definition crash_pairs (filename contents : string) : list KeyValue :=
  [mkKV "a" filename; mkKV "b" (Itoa (slen filename));
   mkKV "c" (Itoa (slen contents)); mkKV "d" "xyzzy"].

(** [None]: the process exited. *)
Definition crash_Map (rr ms : Z) (filename contents : string) : option (list KeyValue) :=
  match crash_maybeCrash rr ms with
  | Crashed => None
  | Continue _ => Some (crash_pairs filename contents)
  end.

Definition sorted_join (values : list string) : string := Join (sort_Strings values) " ".

Definition crash_Reduce (rr ms : Z) (key : string) (values : list string) : option string :=
  match crash_maybeCrash rr ms with
  | Crashed => None
  | Continue _ => Some (sorted_join values)
  end.

Definition nocrash_Map (rr : Z) (filename contents : string) : option (list KeyValue) :=
  match nocrash_maybeCrash rr with
  | Crashed => None
  | Continue _ => Some (crash_pairs filename contents)
  end.

Definition nocrash_Reduce (rr : Z) (key : string) (values : list string) : option string :=
  match nocrash_maybeCrash rr with
  | Crashed => None
  | Continue _ => Some (sorted_join values)
  end.

(** ** [jobcount.go] *)

Definition jobcount_prefix : string := "mr-worker-jobcount".
Definition jobcount_file (pid count : Z) : string :=
  "mr-worker-jobcount-" +:+ Itoa pid +:+ "-" +:+ Itoa count.

(** The process-wide [count] and the shared directory; [None] is the panic
    when the file cannot be written. *)
Definition jobcount_Map (pid : Z) (write_ok : bool) (count : Z) (fs : FS)
    : option (Z * FS * list KeyValue) :=
  let f := jobcount_file pid count in
  let count' := wrap_i64 (count + 1) in
  if write_ok then Some (count', <[f := "x"]> fs, [mkKV "a" "x"]) else None.

Definition jobcount_Reduce (fs : FS) (key : string) (values : list string) : string :=
  Itoa (Z.of_nat (length (filter (λ name, HasPrefix name jobcount_prefix = true)
                            (map_to_list fs).*1))).

(** ** The applications meet the interface of the framework *)

#[global] Instance wc_order_insensitive : OrderInsensitive wc_Reduce.
Proof. intros k vs vs' Hp. by rewrite /wc_Reduce Hp. Qed.

#[global] Instance indexer_order_insensitive : OrderInsensitive indexer_Reduce.
Proof. intros k vs vs' Hp. by rewrite /indexer_Reduce (sort_Strings_Proper _ _ Hp). Qed.

#[global] Instance early_exit_order_insensitive :
  OrderInsensitive (λ k vs, (early_exit_Reduce k vs).2).
Proof. intros k vs vs' Hp. by rewrite /early_exit_Reduce /= Hp. Qed.

#[global] Instance sorted_join_order_insensitive : OrderInsensitive (λ _ vs, sorted_join vs).
Proof. intros k vs vs' Hp. by rewrite /sorted_join (sort_Strings_Proper _ _ Hp). Qed.

(** ** Lemmas *)

Lemma DecodeRune_width l : l ≠ [] → (0 < (DecodeRune l).2 ≤ length l)%nat.
Proof.
  intros Hl. rewrite /DecodeRune. destruct l as [|a l]; [done|].
  destruct (utf8_len (a :: l)) as [[|[|[|[|[|n]]]]]|]; simpl; try lia;
    destruct l as [|b [|c [|d l]]]; simpl; lia.
Qed.

(** The bytes of a rune other than the replacement for an ill-formed sequence
    are well formed. *)
Lemma DecodeRune_wellformed l r n :
  DecodeRune l = (r, n) → r ≠ RuneError → utf8_len (take n l) = Some (length (take n l)).
Proof.
  rewrite /DecodeRune. destruct (utf8_len l) as [m|] eqn:Hm; [|intros [= <- <-]; done].
  intros Hd Hr. destruct (utf8_len_take l m Hm) as [H1 H2].
  assert (n = m) as ->.
  { destruct m as [|[|[|[|[|m]]]]]; simplify_eq/=;
      destruct l as [|a [|b [|c [|d l]]]]; by simplify_eq/=. }
  by rewrite H1 H2.
Qed.

Lemma Utf8_app l1 l2 : Utf8 l1 → Utf8 l2 → Utf8 (l1 ++ l2).
Proof.
  induction 1 as [|c l Hc _ IH]; intros H2; [done|]. rewrite -assoc_L.
  apply utf8_rune; [done|]. by apply IH.
Qed.

Lemma Utf8_one c : utf8_len c = Some (length c) → Utf8 c.
Proof. intros Hc. rewrite -(right_id_L [] (++) c). apply utf8_rune; [done|constructor]. Qed.

Lemma fields_utf8 f fuel : ∀ l cur,
  f RuneError = true → Utf8 cur →
  Forall (λ w, Utf8 (str_to_list w)) (fields f (runes fuel l) cur).
Proof.
  intros l cur Hf. revert l cur.
  assert (∀ cur, Utf8 cur → Forall (λ w, Utf8 (str_to_list w))
    match cur with [] => [] | _ => [str_of_list cur] end) as Hflush.
  { intros [|a cur] Hc; repeat constructor. by rewrite str_to_of_list. }
  induction fuel as [|fuel IH]; intros l cur Hc; [by apply Hflush|].
  destruct l as [|a l]; [by apply Hflush|]. cbn [runes].
  destruct (DecodeRune (a :: l)) as [r n] eqn:Hd. cbn [fields].
  destruct (f r) eqn:Hfr.
  - apply Forall_app. split; [by apply Hflush|]. apply IH. constructor.
  - apply IH. apply Utf8_app; [done|]. apply Utf8_one.
    apply (DecodeRune_wellformed _ _ _ Hd). congruence.
Qed.

(** ** What the words of a text are

    [word_split rs ws]: the runes [rs] are runs of letters, the words [ws],
    separated, preceded and followed by runes that are not letters. *)
Section word_split.
Variable letter : Z → bool.
Notation is_letter := (λ rc : Z * list ascii, letter rc.1 = true).
Notation no_letter := (λ rc : Z * list ascii, letter rc.1 = false).

Definition bytes_of (rs : list (Z * list ascii)) : string := str_of_list (concat rs.*2).

Inductive word_split : list (Z * list ascii) → list string → Prop :=
| split_none rs : Forall no_letter rs → word_split rs []
| split_last pre w : Forall no_letter pre → w ≠ [] → Forall is_letter w → word_split (pre ++ w) [bytes_of w]
| split_word pre w rc rest ws :
    Forall no_letter pre → w ≠ [] → Forall is_letter w → no_letter rc → word_split rest ws →
    word_split (pre ++ w ++ rc :: rest) (bytes_of w :: ws).

Lemma word_split_skip rc rs ws : no_letter rc → word_split rs ws → word_split (rc :: rs) ws.
Proof.
  intros Hrc [rs' H|pre w H|pre w rc' rest ws' H]; [by constructor; constructor|..].
  - apply (split_last (rc :: pre)); [by constructor|done..].
  - apply (split_word (rc :: pre)); [by constructor|done..].
Qed.

Lemma fields_word_split rs w :
  Forall (λ rc, rc.2 ≠ []) (w ++ rs) → Forall is_letter w →
  word_split (w ++ rs) (fields (λ r, negb (letter r)) rs (concat w.*2)).
Proof.
  assert (∀ w : list (Z * list ascii), Forall (λ rc, rc.2 ≠ []) w → w ≠ [] → concat w.*2 ≠ []) as Hne.
  { intros [|[r c] w'] Hw Hw'; [done|]. inv Hw. simpl in *. by destruct c. }
  revert w. induction rs as [|[r c] rs IH]; intros w Hbytes Hw; simpl.
  - rewrite right_id_L in Hbytes |- *. destruct (decide (w = [])) as [->|Hw']; [by constructor|].
    pose proof (Hne w Hbytes Hw') as Hc. pose proof (split_last [] w (Forall_nil_2 _) Hw' Hw) as Hs.
    rewrite /bytes_of in Hs. by destruct (concat w.*2).
  - pose proof Hbytes as Hb. apply Forall_app in Hb as [Hbw Hb]. destruct (letter r) eqn:Hr; simpl.
    + specialize (IH (w ++ [(r, c)])). rewrite -assoc_L fmap_app concat_app /= right_id_L in IH.
      apply IH; [done|]. apply Forall_app. split; [done|]. by apply Forall_singleton.
    + assert (word_split rs (fields (λ r, negb (letter r)) rs [])) as Hrest.
      { apply (IH []); [by inv Hb|done]. }
      destruct (decide (w = [])) as [->|Hw']; [by apply word_split_skip|].
      pose proof (Hne w Hbw Hw') as Hc.
      pose proof (split_word [] w (r, c) rs _ (Forall_nil_2 _) Hw' Hw Hr Hrest) as Hs.
      rewrite /bytes_of in Hs. by destruct (concat w.*2).
Qed.
End word_split.

Lemma runes_bytes fuel l : Forall (λ rc, rc.2 ≠ []) (runes fuel l).
Proof.
  revert l. induction fuel as [|fuel IH]; intros [|a l]; [constructor..|]. cbn [runes].
  pose proof (DecodeRune_width (a :: l) ltac:(done)) as Hw. destruct (DecodeRune (a :: l)) as [r n]. constructor; [|by apply IH].
  simpl in *. by destruct n; [lia|].
Qed.

(** The runes of a text with their bytes. *)
Definition text_runes (s : string) : list (Z * list ascii) := runes (String.length s) (str_to_list s).

Lemma words_split nonascii s : word_split (IsLetter nonascii) (text_runes s) (words nonascii s).
Proof. apply (fields_word_split _ _ []); [apply runes_bytes|constructor]. Qed.

Lemma values_of_words w ws :
  values_of w ((λ w, mkKV w "1") <$> ws) = replicate (length (filter (λ x, x = w) ws)) "1".
Proof.
  rewrite /values_of. induction ws as [|x ws IH]; [done|]. csimpl.
  rewrite !filter_cons. simpl. destruct (decide (x = w)); csimpl; by rewrite IH.
Qed.

Lemma concat_words {A} (g : A → list string) (l : list A) :
  concat ((λ x, (λ w, mkKV w "1") <$> g x) <$> l) = (λ w, mkKV w "1") <$> concat (g <$> l).
Proof. induction l as [|x l IH]; [done|]. csimpl. by rewrite IH fmap_app. Qed.

Lemma wc_Map_valid nonascii filename contents :
  nonascii RuneError = false → Forall kv_utf8 (wc_Map nonascii filename contents).
Proof.
  intros Hr. rewrite /wc_Map Forall_fmap.
  assert (Forall (λ w, Utf8 (str_to_list w)) (words nonascii contents)) as Hw.
  { apply fields_utf8; [|constructor]. by rewrite /IsLetter /= Hr. }
  eapply Forall_impl; [exact Hw|]. intros w Hu. split; [done|].
  by apply (utf8b_sound 1).
Qed.

(** ** Properties *)

(** Word count. The words of a text are its maximal runs of letters. In the
    reference result of the word-count application, a word has a line iff it
    occurs among the words of the input files, and the line gives the number of
    its occurrences. *)
Theorem wc_correct nonascii files :
  ∃ ws, Forall2 (λ f ws, word_split (IsLetter nonascii) (text_runes f.2) ws) files ws ∧
  ∀ w v,
    mkKV w v ∈ reduce_ref wc_Reduce (concat ((λ f, wc_Map nonascii f.1 f.2) <$> files)) ↔
    w ∈ concat ws ∧ v = Itoa (Z.of_nat (length (filter (λ x, x = w) (concat ws)))).
Proof.
  exists ((λ f, words nonascii f.2) <$> files). split.
  { apply Forall2_fmap_r, Forall_Forall2_diag, Forall_forall. intros f _. apply words_split. }
  intros w v. rewrite /wc_Map (concat_words (λ f, words nonascii f.2)). set (all := concat _).
  rewrite /reduce_ref list_elem_of_fmap. setoid_rewrite sort_Strings_perm.
  setoid_rewrite distinct_keys_elem. rewrite -list_fmap_compose.
  assert ((kv_Key ∘ (λ w, mkKV w "1")) <$> all = all) as -> by apply list_fmap_id.
  rewrite /wc_Reduce. split.
  - intros (k & [= <- ->] & Hin). by rewrite values_of_words length_replicate.
  - intros [Hin ->]. exists w. by rewrite values_of_words length_replicate.
Qed.
