(* ===== verification/MrTiming.v ===== *)
(** * How many workers run at once

    Models [mrapps/mtiming.go] and [mrapps/rtiming.go]: workers find out how
    many of them run a task at the same time by leaving files in the common
    directory. Both files contain the same function [nparallel], for two phases;
    its steps are interleaved with those of other workers, which may start and
    die at any point, and with other changes of the directory. *)
From S2P Require Import Prelude GoBase GoStrconv MrTypes MrWorker MrWorkerThm MrApps.

(** ** [nparallel] *)

Definition worker_file_prefix (phase : string) : string := "mr-worker-" +:+ phase +:+ "-".
Definition myfilename (phase : string) (pid : Z) : string := worker_file_prefix phase +:+ Itoa pid.

(** [fmt.Sscanf(name, "mr-worker-<phase>-%d", &xpid)] with [n == 1 && err == nil] *)
Definition scan_pid (phase name : string) : option Z := Sscanf_d (worker_file_prefix phase) name.

(** The loop over the names; [kill xpid] is whether [syscall.Kill(xpid, 0)]
    succeeds. *)
Definition count_alive (phase : string) (kill : Z → bool) (names : list string) : Z :=
  foldl (λ ret name,
    match scan_pid phase name with
    | Some xpid => if kill xpid then wrap_i64 (ret + 1) else ret
    | None => ret
    end) 0 names.

(** [dd.Readdirnames(1000000)] *)
Definition Readdirnames (fs : FS) : list string :=
  let names := (map_to_list fs).*1 in
  if bool_decide (Z.of_nat (length names) ≤ 1000000) then names else take (Z.to_nat 1000000) names.

Definition scan_dir (phase : string) (kill : Z → bool) (fs : FS) : Z := count_alive phase kill (Readdirnames fs).

(** Where a worker is: it has written its file, or scanned the directory. *)
Inductive NPc := Written | Scanned (ret : Z).

Record NState := mkNS {
  n_fs : FS;                           (* the common directory *)
  n_alive : gset Z;                    (* processes *)
  n_calls : gmap Z NPc;                (* workers inside nparallel *)
  n_left : gset Z;                     (* processes that died and left their file *)
  n_returned : list (Z * Z);           (* results, with the worker *)
}.

Section nparallel.
(** [Kill] with a number that is no process ID addresses groups of processes. *)
Context (phase : string) (kill_group : Z → bool).

Definition kill (alive : gset Z) (xpid : Z) : bool :=
  if bool_decide (0 < xpid) then bool_decide (xpid ∈ alive) else kill_group xpid.

(** A process ends: killed from outside, or by a panic of its own. *)
Definition die (p : Z) (s : NState) : NState :=
  mkNS (n_fs s) (n_alive s ∖ {[p]}) (delete p (n_calls s))
    (if bool_decide (is_Some (n_calls s !! p)) then {[p]} ∪ n_left s else n_left s) (n_returned s).

Inductive np_step (s : NState) : NState → Prop :=
| np_start p :
    0 < p < 2 ^ 63 → p ∉ n_alive s →
    np_step s (mkNS (n_fs s) ({[p]} ∪ n_alive s) (n_calls s) (n_left s) (n_returned s))
| np_die p : p ∈ n_alive s → np_step s (die p s)
| np_write p :
    p ∈ n_alive s → n_calls s !! p = None →
    np_step s (mkNS (<[myfilename phase p := "x"]> (n_fs s)) (n_alive s) (<[p := Written]> (n_calls s))
      (n_left s ∖ {[p]}) (n_returned s))
| np_write_fails p content :           (* the file may have been created *)
    p ∈ n_alive s → n_calls s !! p = None →
    np_step s (mkNS (<[myfilename phase p := content]> (n_fs s)) (n_alive s ∖ {[p]}) (n_calls s)
      ({[p]} ∪ n_left s) (n_returned s))
| np_scan p :
    n_calls s !! p = Some Written →
    np_step s (mkNS (n_fs s) (n_alive s) (<[p := Scanned (scan_dir phase (kill (n_alive s)) (n_fs s))]> (n_calls s))
      (n_left s) (n_returned s))
| np_remove p ret :
    n_calls s !! p = Some (Scanned ret) → is_Some (n_fs s !! myfilename phase p) →
    np_step s (mkNS (delete (myfilename phase p) (n_fs s)) (n_alive s) (delete p (n_calls s))
      (n_left s) (n_returned s ++ [(p, ret)]))
| np_remove_fails p ret :
    n_calls s !! p = Some (Scanned ret) → n_fs s !! myfilename phase p = None → np_step s (die p s)
| np_other name f :                    (* other files come and go *)
    HasPrefix name (worker_file_prefix phase) = false →
    np_step s (mkNS (partial_alter f name (n_fs s)) (n_alive s) (n_calls s) (n_left s) (n_returned s)).

Definition np_init (fs : FS) : NState := mkNS fs ∅ ∅ ∅ [].
End nparallel.

(** The two copies of the function. *)
Definition mtiming_nparallel (kill_group : Z → bool) : NState → NState → Prop := np_step "map" kill_group.
Definition rtiming_nparallel (kill_group : Z → bool) : NState → NState → Prop := np_step "reduce" kill_group.

(** [ts] is the time formatted with one decimal, [n] the result of [nparallel]. *)
Definition mtiming_Map (pid : Z) (ts : string) (n : Z) : list KeyValue :=
  [mkKV ("times-" +:+ Itoa pid) ts; mkKV ("parallel-" +:+ Itoa pid) (Itoa n)].

Definition mtiming_Reduce (key : string) (values : list string) : string := sorted_join values.

Definition rtiming_Map (filename contents : string) : list KeyValue :=
  (λ k, mkKV k "1") <$> ["a"; "b"; "c"; "d"; "e"; "f"; "g"; "h"; "i"; "j"].

Definition rtiming_Reduce (n : Z) (key : string) (values : list string) : string := Itoa n.

#[global] Instance mtiming_order_insensitive : OrderInsensitive mtiming_Reduce.
Proof. exact sorted_join_order_insensitive. Qed.

(** ** Counting *)

Lemma scan_pid_own phase p : 0 < p < 2 ^ 63 → scan_pid phase (myfilename phase p) = Some p.
Proof. intros Hp. apply Sscanf_d_Itoa. lia. Qed.

(** The two phases do not see each other's files. *)
Lemma scan_pid_phases p :
  scan_pid "map" (myfilename "reduce" p) = None ∧ scan_pid "reduce" (myfilename "map" p) = None.
Proof. split; reflexivity. Qed.

Lemma myfilename_prefix phase p : HasPrefix (myfilename phase p) (worker_file_prefix phase) = true.
Proof. apply HasPrefix_true. by eexists. Qed.

Lemma myfilename_inj phase p q : 0 < p < 2 ^ 63 → 0 < q < 2 ^ 63 → myfilename phase p = myfilename phase q → p = q.
Proof. intros Hp Hq He. apply (f_equal (scan_pid phase)) in He. rewrite !scan_pid_own // in He. by injection He. Qed.

(** Without overflow the loop counts the names it accepts. *)
Definition accepted (phase : string) (kill : Z → bool) (name : string) : bool :=
  match scan_pid phase name with Some xpid => kill xpid | None => false end.

Lemma count_alive_filter phase kill names :
  Z.of_nat (length names) < 2 ^ 63 → count_alive phase kill names = Z.of_nat (length (filter (accepted phase kill) names)).
Proof.
  intros Hlen. rewrite /count_alive.
  assert (∀ ret, 0 ≤ ret → ret + Z.of_nat (length names) < 2 ^ 63 →
    foldl (λ ret name, match scan_pid phase name with
      Some xpid => if kill xpid then wrap_i64 (ret + 1) else ret | None => ret end) ret names =
    ret + Z.of_nat (length (filter (accepted phase kill) names))) as Hgo; [|rewrite Hgo; lia].
  clear Hlen. induction names as [|name names IH]; intros ret H0 Hr; [rewrite filter_nil /=; lia|].
  rewrite filter_cons. cbn [foldl length] in *.
  assert (accepted phase kill name = match scan_pid phase name with Some xpid => kill xpid | None => false end) as -> by done.
  destruct (scan_pid phase name) as [xpid|]; [destruct (kill xpid)|]; case_decide; try done; try (rewrite IH; lia).
  cbn [length]. rewrite /wrap_i64 Z.mod_small; [|lia]. rewrite IH; lia.
Qed.

Section inv.
Context (phase : string) (kill_group : Z → bool).
Notation file := (myfilename phase).

(** Who has a file in the directory. *)
Definition writers (s : NState) : gset Z := dom (n_calls s) ∪ n_left s.

Record np_inv (s : NState) : Prop := {
  np_alive : ∀ p, p ∈ n_alive s ∪ n_left s → 0 < p < 2 ^ 63;
  np_calls : dom (n_calls s) ⊆ n_alive s;
  np_disj : dom (n_calls s) ## n_left s;
  np_files : ∀ name, HasPrefix name (worker_file_prefix phase) = true →
    is_Some (n_fs s !! name) ↔ ∃ p, p ∈ writers s ∧ name = file p;
}.

Lemma writers_range s p : np_inv s → p ∈ writers s → 0 < p < 2 ^ 63.
Proof. intros [Ha Hc _ _] Hp. apply Ha. unfold writers in Hp. set_solver. Qed.

Lemma np_own_file s p : np_inv s → p ∈ writers s → is_Some (n_fs s !! file p).
Proof. intros Hi Hp. apply (np_files _ Hi); [apply myfilename_prefix|eauto]. Qed.

(** Adding and removing one's file. *)
Lemma files_insert s p content (X : gset Z) :
  np_inv s → (∀ q, q ∈ X ↔ q = p ∨ q ∈ writers s) →
  ∀ name, HasPrefix name (worker_file_prefix phase) = true →
    is_Some (<[file p := content]> (n_fs s) !! name) ↔ ∃ q, q ∈ X ∧ name = file q.
Proof.
  intros Hi HX name Hn. rewrite lookup_insert_is_Some (np_files _ Hi name Hn). setoid_rewrite HX. split.
  - intros [<-|[_ (q & Hq & ->)]]; eauto.
  - intros (q & [->|Hq] & ->); [by left|]. destruct (decide (file p = file q)); [by left|]. right. eauto.
Qed.

Lemma files_delete s p (X : gset Z) :
  np_inv s → p ∈ writers s → (∀ q, q ∈ X ↔ q ≠ p ∧ q ∈ writers s) →
  ∀ name, HasPrefix name (worker_file_prefix phase) = true →
    is_Some (delete (file p) (n_fs s) !! name) ↔ ∃ q, q ∈ X ∧ name = file q.
Proof.
  intros Hi Hp HX name Hn. rewrite lookup_delete_is_Some (np_files _ Hi name Hn). setoid_rewrite HX. split.
  - intros [Hne (q & Hq & ->)]. exists q. split_and!; [|done..]. by intros ->.
  - intros (q & [Hne Hq] & ->). split; [|eauto]. intros He. apply Hne.
    symmetry. eapply myfilename_inj; [by eapply writers_range..|done].
Qed.

Lemma writers_die p s : writers (die p s) = writers s.
Proof.
  rewrite /writers /die /=. apply set_eq. intros q. rewrite dom_delete_L. case_bool_decide as Hp.
  - apply elem_of_dom in Hp. destruct (decide (q = p)); set_solver.
  - assert (p ∉ dom (n_calls s)) by by rewrite elem_of_dom. set_solver.
Qed.

Lemma die_inv p s : np_inv s → np_inv (die p s).
Proof.
  intros [H1 H2 H3 H4]. split.
  - intros q. rewrite /die /=. case_bool_decide as Hp; [apply elem_of_dom in Hp|]; intros Hq; apply H1; set_solver.
  - rewrite /die /= dom_delete_L. set_solver.
  - rewrite /die /= dom_delete_L. case_bool_decide; set_solver.
  - rewrite writers_die. apply H4.
Qed.

Lemma np_step_inv s s' : np_inv s → np_step phase kill_group s s' → np_inv s'.
Proof.
  intros Hi Hs. pose proof Hi as [H1 H2 H3 H4].
  destruct Hs as [p Hp Hn|p Hp|p Hp Hc|p c Hp Hc|p Hc|p ret Hc Hf|p ret Hc Hf|name f Hn].
  - split; simpl; [|set_solver|done|exact H4]. intros q. rewrite !elem_of_union elem_of_singleton.
    intros [[->|Hq]|Hq]; [done|apply H1; set_solver..].
  - by apply die_inv.
  - split; simpl.
    + intros q Hq. apply H1. set_solver.
    + rewrite dom_insert_L. set_solver.
    + rewrite dom_insert_L. set_solver.
    + apply (files_insert s); [done|]. intros q. rewrite /writers /= dom_insert_L. destruct (decide (q = p)); set_solver.
  - assert (p ∉ dom (n_calls s)) as Hd by by rewrite elem_of_dom Hc; intros [].
    split; simpl.
    + intros q Hq. apply H1. set_solver.
    + set_solver.
    + set_solver.
    + apply (files_insert s); [done|]. intros q. rewrite /writers /=. set_solver.
  - assert (p ∈ dom (n_calls s)) as Hd by (rewrite elem_of_dom; by eexists).
    assert (dom (<[p := Scanned (scan_dir phase (kill kill_group (n_alive s)) (n_fs s))]> (n_calls s)) = dom (n_calls s)) as Ed
      by (rewrite dom_insert_L; set_solver).
    split; rewrite /writers /= ?Ed; [done..|exact H4].
  - assert (p ∈ dom (n_calls s)) as Hd by (rewrite elem_of_dom; by eexists).
    split; simpl; [done|rewrite dom_delete_L; set_solver..|].
    apply files_delete; [done|by apply elem_of_union_l|]. intros q. rewrite /writers /= dom_delete_L. set_solver.
  - by apply die_inv.
  - split; [done..|]. intros name' Hn'. simpl. rewrite lookup_partial_alter_ne; [by apply H4|]. intros ->. congruence.
Qed.

Lemma np_reachable_inv fs s :
  (∀ name, is_Some (fs !! name) → HasPrefix name (worker_file_prefix phase) = false) →
  rtc (np_step phase kill_group) (np_init fs) s → np_inv s.
Proof.
  intros Hfs. revert s. refine (rtc_ind_r np_inv (np_init fs) _ _).
  - split; simpl; [set_solver..|]. intros name Hn. split; [intros Hf; apply Hfs in Hf; congruence|].
    intros (p & Hp & _). unfold writers in Hp. set_solver.
  - intros s s' _ Hs Hi. by eapply np_step_inv.
Qed.

Lemma accepted_file s name :
  np_inv s → is_Some (n_fs s !! name) →
  accepted phase (kill kill_group (n_alive s)) name ↔ ∃ p, p ∈ writers s ∩ n_alive s ∧ name = file p.
Proof.
  intros Hi Hf. split.
  - rewrite /accepted. destruct (scan_pid phase name) as [x|] eqn:Hx; [|done].
    apply Sscanf_d_prefix in Hx as Hn. apply (np_files _ Hi name Hn) in Hf as (p & Hp & ->).
    pose proof (writers_range _ _ Hi Hp) as Hr. rewrite scan_pid_own // in Hx. injection Hx as ->.
    rewrite /kill bool_decide_true; [|lia]. intros Ha%bool_decide_unpack. exists x. set_solver.
  - intros (p & [Hp Ha]%elem_of_intersection & ->). pose proof (writers_range _ _ Hi Hp) as Hr.
    rewrite /accepted scan_pid_own // /kill bool_decide_true; [|lia]. by apply bool_decide_pack.
Qed.

Lemma scan_dir_size s :
  np_inv s → Z.of_nat (size (n_fs s)) ≤ 1000000 →
  scan_dir phase (kill kill_group (n_alive s)) (n_fs s) = Z.of_nat (size (writers s ∩ n_alive s)).
Proof.
  intros Hi Hsz. assert (length (map_to_list (n_fs s)).*1 = size (n_fs s)) as Hlen.
  { by rewrite length_fmap length_map_to_list. }
  rewrite /scan_dir /Readdirnames bool_decide_true; [|by rewrite Hlen].
  rewrite count_alive_filter; [|rewrite Hlen; lia]. f_equal.
  trans (length (file <$> elements (writers s ∩ n_alive s))); [|by rewrite length_fmap]. apply Permutation_length.
  apply NoDup_Permutation.
  - apply NoDup_filter, NoDup_fst_map_to_list.
  - apply NoDup_fmap_2_strong; [|apply NoDup_elements]. intros p q Hp Hq.
    apply elem_of_elements, elem_of_intersection in Hp as [Hp _], Hq as [Hq _].
    apply myfilename_inj; by eapply writers_range.
  - intros name.
    assert (name ∈ (map_to_list (n_fs s)).*1 ↔ is_Some (n_fs s !! name)) as Hin.
    { rewrite list_elem_of_fmap. split.
      - intros ([k v] & -> & Hkv%elem_of_map_to_list). by exists v.
      - intros [v Hv]. exists (name, v). by rewrite elem_of_map_to_list. }
    rewrite list_elem_of_filter Hin list_elem_of_fmap. split.
    + intros [Ha Hf]. apply (accepted_file s) in Ha as (p & Hp & ->); [|done..]. exists p. by rewrite elem_of_elements.
    + intros (p & -> & Hp%elem_of_elements). assert (is_Some (n_fs s !! file p)) as Hf.
      { apply np_own_file; [done|]. by apply elem_of_intersection in Hp as [? _]. }
      split; [|done]. apply accepted_file; eauto.
Qed.
End inv.


(** Two workers in the phase, a third one has left; and the job's own files. *)
Definition timing_fs : FS := {[ "mr-3-0" := "{}" ]}.

Definition timing_run : NState :=
  mkNS (<[myfilename "map" 12 := "x"]> (<[myfilename "map" 7 := "x"]> timing_fs)) ({[12]} ∪ ({[7]} ∪ ∅))
    (<[12 := Written]> (<[7 := Written]> ∅)) ((∅ ∖ {[7]}) ∖ {[12]}) [].

Lemma timing_run_reachable : rtc (np_step "map" (λ _, true)) (np_init timing_fs) timing_run.
Proof.
  eapply rtc_l; [apply (np_start "map" _ _ 7); [lia|by_decide]|].
  eapply rtc_l; [apply (np_start "map" _ _ 12); [lia|by_decide]|].
  eapply rtc_l; [apply (np_write "map" _ _ 7); [by_decide|reflexivity]|].
  eapply rtc_l; [apply (np_write "map" _ _ 12); [by_decide|reflexivity]|].
  apply rtc_refl.
Qed.


(** A process that died in the phase is counted again once its ID is in use:
    worker 7 died, and a new process 7 is not in [nparallel]. *)
Definition reused_run : NState :=
  mkNS (<[myfilename "map" 12 := "x"]> (<[myfilename "map" 7 := "x"]> ∅)) {[12; 7]} {[12 := Written]} {[7]} [].

Example reused_counts : scan_dir "map" (kill (λ _, true) (n_alive reused_run)) (n_fs reused_run) = 2.
Proof. reflexivity. Qed.
