(* ===== verification/Mains.v ===== *)
(** * Command lines

    The [main] functions of Lab 2: [mrcoordinator.go], [mrworker.go] and
    [mrsequential.go] with [loadPlugin], and the daemons and clients of older labs
    ([diskvd.go], [lockc.go], [lockd.go], [pbc.go], [pbd.go], [viewd.go]), whose
    packages are not in the repository: what a [main] does is to call them with
    arguments, or to print its usage and exit. [os.Args] is the argument, with
    the program's name in front. *)
From S2P Require Import Prelude GoBase GoStrconv MrTypes MrCoordinator MrWorker MrSequential.

(** What a [main] comes to: its usage message and exit status 1, [log.Fatalf] with
    a reason, a panic, or the work it goes on with. *)
Inductive Outcome (E A : Type) := Usage | Fatalf (e : E) | Panics | Runs (a : A).
Arguments Usage {_ _}.
Arguments Fatalf {_ _} _.
Arguments Panics {_ _}.
Arguments Runs {_ _} _.

Definition then_run {E A B} (o : Outcome E A) (f : A → Outcome E B) : Outcome E B :=
  match o with Usage => Usage | Fatalf e => Fatalf e | Panics => Panics | Runs a => f a end.

(** ** MapReduce *)

Inductive PluginErr := CannotLoad | CannotFindMap | CannotFindReduce | CannotOpen.

Section plugin.
(** Package plugin: a loaded plugin gives symbols by name; a symbol may or may
    not have the type it is asserted to have. *)
Context {Sym : Type} (Open : string → option (string → option Sym)).
Context (as_map : Sym → option (string → string → list KeyValue)) (as_reduce : Sym → option (string → list string → string)).

Definition loadPlugin (filename : string) :
    Outcome PluginErr ((string → string → list KeyValue) * (string → list string → string)) :=
  match Open filename with
  | None => Fatalf CannotLoad
  | Some p =>
      match p "Map" with
      | None => Fatalf CannotFindMap
      | Some xmapf =>
          match as_map xmapf with
          | None => Panics
          | Some mapf =>
              match p "Reduce" with
              | None => Fatalf CannotFindReduce
              | Some xreducef =>
                  match as_reduce xreducef with None => Panics | Some reducef => Runs (mapf, reducef) end
              end
          end
      end
  end.

Definition seq_loadPlugin := loadPlugin.

(** The functions [mr.Worker] is called with. *)
Definition mrworker_main (args : list string) := 
  match args with
  | [_; xxx] => loadPlugin xxx
  | _ => Usage
  end.

(** The lines printed to [mr-out-0]. *)
Definition mrsequential_main (readFile : string → option string) (args : list string) : Outcome PluginErr (list KeyValue) :=
  match args with
  | _ :: xxx :: ((_ :: _) as filenames) =>
      then_run (seq_loadPlugin xxx) (λ '(mapf, reducef),
        match mrsequential readFile mapf reducef filenames with Some out => Runs out | None => Fatalf CannotOpen end)
  | _ => Usage
  end.
End plugin.

(** [server] of the coordinator: the address it will listen on, unless it cannot be
    registered; the goroutine it starts ends the process if the address cannot be
    listened on. *)
Definition coordinator_server (getenv : string → string) (register_ok listen_ok : bool) : option (string * bool) :=
  if register_ok then Some (getCoordinatorAddress getenv, listen_ok) else None.

(** The coordinator that is made, for ten reduce tasks. *)
Definition mrcoordinator_start (args : list string) : Outcome PluginErr Coordinator :=
  match args with
  | _ :: ((_ :: _) as files) => Runs (MakeCoordinator 0 files 10).2
  | _ => Usage
  end.

(** [for m.Done() == false { time.Sleep(time.Second) }], and one more second:
    [polls] is the coordinator as [Done] finds it, once a second. The result is
    how many seconds were slept; [None]: the loop goes on. *)
Fixpoint mrcoordinator_loop (polls : list Coordinator) : option nat :=
  match polls with
  | [] => None
  | m :: polls => if Done m then Some 1%nat else S <$> mrcoordinator_loop polls
  end.

(** ** Older labs *)

Inductive LockReq := Lock (primary backup name : string) | Unlock (primary backup name : string).

Definition lockc_main (args : list string) : Outcome unit LockReq :=
  match args with
  | [_; flag; primary; backup; name] =>
      if bool_decide (flag = "-l") then Runs (Lock primary backup name)
      else if bool_decide (flag = "-u") then Runs (Unlock primary backup name) else Usage
  | _ => Usage
  end.

(** The arguments of [lockservice.StartServer]. *)
Definition lockd_main (args : list string) : Outcome unit (string * string * bool) :=
  match args with
  | [_; flag; primary; backup] =>
      if bool_decide (flag = "-p") then Runs (primary, backup, true)
      else if bool_decide (flag = "-b") then Runs (primary, backup, false) else Usage
  | _ => Usage
  end.

Inductive PbReq := PbGet (view key : string) | PbPut (view key value : string).

Definition pbc_main (args : list string) : Outcome unit PbReq :=
  match args with
  | [_; view; key] => Runs (PbGet view key)
  | [_; view; key; value] => Runs (PbPut view key value)
  | _ => Usage
  end.

Definition pbd_main (args : list string) : Outcome unit (string * string) :=
  match args with [_; view; port] => Runs (view, port) | _ => Usage end.

Definition viewd_main (args : list string) : Outcome unit string :=
  match args with [_; port] => Runs port | _ => Usage end.

(** ** diskvd *)

(** The variables of [main], which are the arguments of [diskv.StartServer]. *)
Record Diskv := mkDiskv {
  gid : Z; masters : list string; replicas : list string; me : Z; unreliable : bool; dir : string; restart : bool;
}.

Definition diskv_init : Diskv := mkDiskv (-1) [] [] (-1) false "" false.

(** One flag with its value; errors of the conversions are dropped. *)
Definition diskv_flag (a0 a1 : string) (d : Diskv) : option Diskv :=
  let '(mkDiskv g ms rs i u dr r) := d in
  if bool_decide (a0 = "-g") then Some (mkDiskv (ParseInt a1).1 ms rs i u dr r)
  else if bool_decide (a0 = "-m") then Some (mkDiskv g (ms ++ [a1]) rs i u dr r)
  else if bool_decide (a0 = "-s") then Some (mkDiskv g ms (rs ++ [a1]) i u dr r)
  else if bool_decide (a0 = "-i") then Some (mkDiskv g ms rs (Atoi a1).1 u dr r)
  else if bool_decide (a0 = "-u") then Some (mkDiskv g ms rs i (ParseBool a1).1 dr r)
  else if bool_decide (a0 = "-d") then Some (mkDiskv g ms rs i u a1 r)
  else if bool_decide (a0 = "-r") then Some (mkDiskv g ms rs i u dr (ParseBool a1).1)
  else None.

(** [for i := 1; i+1 < len(os.Args); i += 2], on the arguments from [i] on. *)
Fixpoint diskv_flags (args : list string) (d : Diskv) : option Diskv :=
  match args with
  | a0 :: a1 :: args' => d ← diskv_flag a0 a1 d; diskv_flags args' d
  | _ => Some d
  end.

Definition diskv_valid (d : Diskv) : bool :=
  negb (bool_decide (gid d < 0) || bool_decide (me d < 0) || bool_decide (Z.of_nat (length (masters d)) < 1) ||
        bool_decide (me d >= Z.of_nat (length (replicas d))) || bool_decide (dir d = "")).

Definition diskvd_main (args : list string) : Outcome unit Diskv :=
  match diskv_flags (tail args) diskv_init with
  | Some d => if diskv_valid d then Runs d else Usage
  | None => Usage
  end.

(** ** Properties *)

(** The loop of [mrcoordinator] ends at the first poll that finds the job done. *)
Lemma mrcoordinator_loop_spec polls k :
  mrcoordinator_loop polls = Some (S k) ↔
  (∃ m, polls !! k = Some m ∧ Done m = true) ∧ ∀ j m, (j < k)%nat → polls !! j = Some m → Done m = false.
Proof.
  revert k. induction polls as [|m polls IH]; intros k; simpl.
  { split; [by intros [=]|]. intros [(m & Hm & _) _]. by rewrite lookup_nil in Hm. }
  destruct (Done m) eqn:Hd.
  - destruct k as [|k]; simpl.
    + split; [|done]. intros _. split; [by exists m|]. intros j m' Hj. lia.
    + split; [by intros [=]|]. intros [_ Hf]. specialize (Hf 0%nat m ltac:(lia) eq_refl). congruence.
  - destruct k as [|k]; simpl.
    + split.
      * destruct polls as [|m' polls]; [done|]. simpl. destruct (Done m'); [done|]. by destruct (mrcoordinator_loop polls).
      * intros [(m' & [= <-] & Hm') _]. congruence.
    + rewrite fmap_Some. split.
      * intros (j & Hj & [= <-]). apply IH in Hj as [Hm Hf]. split; [done|].
        intros [|j'] m' Hj' Hm'; [by simplify_eq/=|]. eapply Hf; [|done]. lia.
      * intros [Hm Hf]. exists (S k). split; [|done]. apply IH. split; [done|].
        intros j m' Hj Hm'. apply (Hf (S j)); [lia|done].
Qed.

(** The flags for a configuration of [diskvd]. *)
Definition show_bool (b : bool) : string := if b then "true" else "false".
Definition diskv_args (d : Diskv) : list string :=
  ["-g"; Itoa (gid d)] ++ (masters d ≫= λ m, ["-m"; m]) ++ (replicas d ≫= λ r, ["-s"; r]) ++
  ["-i"; Itoa (me d); "-u"; show_bool (unreliable d); "-d"; dir d; "-r"; show_bool (restart d)].

Lemma diskv_flags_masters ms args d :
  diskv_flags ((ms ≫= λ m, ["-m"; m]) ++ args) d =
  diskv_flags args (mkDiskv (gid d) (masters d ++ ms) (replicas d) (me d) (unreliable d) (dir d) (restart d)).
Proof.
  revert d. induction ms as [|m ms IH]; intros d; [by destruct d; simpl; rewrite app_nil_r|].
  change ((m :: ms) ≫= λ m, ["-m"; m]) with (["-m"; m] ++ (ms ≫= λ m, ["-m"; m])). destruct d as [g msd rs i u dr r].
  simpl. rewrite IH /=. by rewrite -assoc_L.
Qed.

Lemma diskv_flags_replicas rs args d :
  diskv_flags ((rs ≫= λ r, ["-s"; r]) ++ args) d =
  diskv_flags args (mkDiskv (gid d) (masters d) (replicas d ++ rs) (me d) (unreliable d) (dir d) (restart d)).
Proof.
  revert d. induction rs as [|r rs IH]; intros d; [by destruct d; simpl; rewrite app_nil_r|].
  change ((r :: rs) ≫= λ r, ["-s"; r]) with (["-s"; r] ++ (rs ≫= λ r, ["-s"; r])). destruct d as [g ms rsd i u dr rr].
  simpl. rewrite IH /=. by rewrite -assoc_L.
Qed.

(** A valid configuration is read back from its flags. *)
Lemma diskvd_roundtrip d prog :
  diskv_valid d = true → gid d < 2 ^ 63 → me d < 2 ^ 63 → diskvd_main (prog :: diskv_args d) = Runs d.
Proof.
  intros Hv Hg Hm. pose proof Hv as Hv'. rewrite /diskv_valid in Hv'. bools.
  assert (diskv_flags (diskv_args d) diskv_init = Some d) as Hf.
  2: { rewrite /diskvd_main. cbn [tail]. by rewrite Hf Hv. }
  rewrite /diskv_args. cbn [app diskv_flags]. simpl (diskv_flag "-g" _ _). cbn [mbind option_bind].
  rewrite diskv_flags_masters diskv_flags_replicas. cbn -[ParseBool ParseInt Atoi show_bool Itoa].
  rewrite /Atoi !ParseInt_Itoa; [|lia..]. destruct d as [g ms rs i [] dr []]; reflexivity.
Qed.

(** Numbers that cannot be read count as 0, and an argument without a value is
    ignored: both command lines start server 0 of group 0. *)
Example diskvd_bad_numbers :
  diskvd_main ["diskvd"; "-g"; "one"; "-m"; "m"; "-s"; "s"; "-i"; "?"; "-d"; "d"] = Runs (mkDiskv 0 ["m"] ["s"] 0 false "d" false) ∧
  diskvd_main ["diskvd"; "-g"; "0"; "-m"; "m"; "-s"; "s"; "-i"; "0"; "-d"; "d"; "-x"] = Runs (mkDiskv 0 ["m"] ["s"] 0 false "d" false).
Proof. split; reflexivity. Qed.
