(* ===== verification/MrSystem.v ===== *)
(** * Package [mr]: coordinator and workers together

    The distributed job as a transition system: the coordinator, any number of
    workers (each with an address and a working directory, which workers may
    share), and the messages between them. A worker goes through the phases
    of [Worker]/[executeTask]/[runReduceTask] one RPC or file operation at a
    time; requests, replies and reports can be lost, fetches can fail, tasks
    can fail and workers can crash or join at any moment, and the clock and
    the iteration orders are arbitrary.

    Handlers run under the coordinator's lock, so each is one step. The reply
    of [RequestTask] refers to the coordinator's own task and producer table;
    [net/rpc] encodes it after the handler has returned. The parameter
    [locked] says whether encoding happens in the same step as the handler
    ([true]) or at any later time ([false], what the code does). *)
From S2P Require Import Prelude GoBase MrTypes MrCoordinator MrWorker.

(** Where a worker is in its loop. *)
Inductive WPhase :=
  | WIdle                                    (* about to ask for a task *)
  | WPending (r : ReplyRef)                  (* handler done, reply not encoded yet *)
  | WHolding (r : TaskReply)                 (* reply received *)
  | WFetching (t : Task) (bucket : Z)        (* in the loop of runReduceTask *)
      (todo : list (TaskID * string)) (acc : list KeyValue)
  | WWriting (t : Task) (bucket : Z) (out : list KeyValue) (* output file created *)
  | WReport (t : Task)                       (* about to report completion *)
  | WReportMissing (id : TaskID)             (* about to report missing outputs *)
  | WDead.

Record Sys := mkSys {
  s_coord : Coordinator;
  s_phase : gmap nat WPhase;
  s_dirs : gmap nat FS;
  (* every completed write of an output file: bucket and contents *)
  s_log : list (Z * list KeyValue);
}.

Definition dir_of (s : Sys) (d : nat) : FS := default ∅ (s_dirs s !! d).

Definition set_coord (c : Coordinator) (s : Sys) : Sys :=
  {| s_coord := c; s_phase := s_phase s; s_dirs := s_dirs s; s_log := s_log s |}.
Definition set_phase (w : nat) (p : WPhase) (s : Sys) : Sys :=
  {| s_coord := s_coord s; s_phase := <[w := p]> (s_phase s); s_dirs := s_dirs s;
     s_log := s_log s |}.
Definition set_dir (d : nat) (fs : FS) (s : Sys) : Sys :=
  {| s_coord := s_coord s; s_phase := s_phase s; s_dirs := <[d := fs]> (s_dirs s);
     s_log := s_log s |}.
Definition add_log (b : Z) (out : list KeyValue) (s : Sys) : Sys :=
  {| s_coord := s_coord s; s_phase := s_phase s; s_dirs := s_dirs s;
     s_log := (b, out) :: s_log s |}.

Section system.
Context `{KVCodec}.
Context (mapf : string → string → list KeyValue) (reducef : string → list string → string).
(** The coordinator's disk: the input files do not change during the job. *)
Context (input : string → option string).
(** The address and the working directory of each worker. *)
Context (w_addr : nat → string) (w_dir : nat → nat).

Definition init_sys (files : list string) (n : Z) : Sys :=
  {| s_coord := (MakeCoordinator 0 files n).2; s_phase := ∅; s_dirs := ∅; s_log := [] |}.

(** Replies on which [executeTask] does nothing but return (possibly an error). *)
Definition nothing_to_do (r : TaskReply) : bool :=
  match tr_Task r with
  | None => true
  | Some t =>
      match Type_ t with
      | TaskMap => bool_decide (tr_MapData r = None)
      | TaskReduce => bool_decide (tr_ReduceData r = None)
      | _ => true
      end
  end.

(** What a worker [w] reads for map task [id] produced at [addr]: its own
    directory, or that of a live worker listening at that address. *)
Inductive fetched (s : Sys) (w : nat) (b : Z) (id : TaskID) (addr : string)
    : list KeyValue → Prop :=
  | fetched_local kvs :
      addr = w_addr w →
      readBucketFile true (dir_of s (w_dir w)) id b = inr kvs →
      fetched s w b id addr kvs
  | fetched_remote w' reply p :
      addr ≠ w_addr w → w_addr w' = addr →
      s_phase s !! w' = Some p → p ≠ WDead →
      FetchBucket true (dir_of s (w_dir w'))
        {| fb_MapTaskID := id; fb_Bucket := b |} = inr reply →
      fetched s w b id addr (fr_KeyValues reply).

Inductive sys_step (locked : bool) : Sys → Sys → Prop :=
  | st_join s w :
      s_phase s !! w = None →
      sys_step locked s (set_phase w WIdle s)
  | st_crash s w :
      sys_step locked s (set_phase w WDead s)
  | st_request s w e c' r :
      s_phase s !! w = Some WIdle →
      env_ok e (s_coord s) → re_ReadFile e = input →
      RequestTask e (s_coord s) = (c', inr r) →
      sys_step locked s
        (set_phase w (if locked then WHolding (encode_reply c' r) else WPending r)
           (set_coord c' s))
  | st_request_lost s w e c' out :
      (* the handler returned an error, or its reply was lost: the worker exits *)
      s_phase s !! w = Some WIdle →
      env_ok e (s_coord s) → re_ReadFile e = input →
      RequestTask e (s_coord s) = (c', out) →
      sys_step locked s (set_phase w WDead (set_coord c' s))
  | st_encode s w r :
      s_phase s !! w = Some (WPending r) →
      sys_step locked s (set_phase w (WHolding (encode_reply (s_coord s) r)) s)
  | st_nothing s w r :
      s_phase s !! w = Some (WHolding r) → nothing_to_do r = true →
      sys_step locked s (set_phase w WIdle s)
  | st_map s w r t data envs fs' err :
      s_phase s !! w = Some (WHolding r) →
      tr_Task r = Some t → Type_ t = TaskMap → tr_MapData r = Some data →
      (∀ b tmp, we_tmp (envs b) = Some tmp →
         dir_of s (w_dir w) !! tmp = None ∧ ∃ u, tmp = "mr-bucket-" +:+ u) →
      runMapTask envs (dir_of s (w_dir w)) t data mapf = Some (fs', err) →
      sys_step locked s
        (set_phase w (match err with None => WReport t | Some _ => WIdle end)
           (set_dir (w_dir w) fs' s))
  | st_reduce s w r t data ord :
      s_phase s !! w = Some (WHolding r) →
      tr_Task r = Some t → Type_ t = TaskReduce → tr_ReduceData r = Some data →
      range_order ord (rd_MapTaskOutputs data) →
      sys_step locked s
        (set_phase w (WFetching t (rd_Bucket data)
                        (range_visit ord (rd_MapTaskOutputs data)) []) s)
  | st_fetch s w t b id addr todo acc kvs :
      s_phase s !! w = Some (WFetching t b ((id, addr) :: todo) acc) →
      fetched s w b id addr kvs →
      sys_step locked s (set_phase w (WFetching t b todo (acc ++ kvs)) s)
  | st_fetch_fail s w t b id addr todo acc :
      s_phase s !! w = Some (WFetching t b ((id, addr) :: todo) acc) →
      sys_step locked s (set_phase w (WReportMissing id) s)
  | st_create s w t b acc ord :
      s_phase s !! w = Some (WFetching t b [] acc) →
      range_order ord (groupByKey acc) →
      sys_step locked s
        (set_phase w (WWriting t b (reduceContents ord (groupByKey acc) reducef))
           (set_dir (w_dir w)
              (<[reduceOutputFileName b := ""]> (dir_of s (w_dir w))) s))
  | st_create_fail s w t b acc :
      s_phase s !! w = Some (WFetching t b [] acc) →
      sys_step locked s (set_phase w WIdle s)
  | st_written s w t b out :
      s_phase s !! w = Some (WWriting t b out) →
      sys_step locked s
        (set_phase w (WReport t)
           (add_log b out
              (set_dir (w_dir w)
                 (<[reduceOutputFileName b := write_lines (λ _, true) 0 out]>
                    (dir_of s (w_dir w))) s)))
  | st_report s w t c' :
      s_phase s !! w = Some (WReport t) →
      ReportTaskCompletion {| rc_Task := Some t; rc_WorkerAddress := w_addr w |} (s_coord s)
        = Some c' →
      sys_step locked s (set_phase w WIdle (set_coord c' s))
  | st_report_lost s w t :
      s_phase s !! w = Some (WReport t) →
      sys_step locked s (set_phase w WIdle s)
  | st_missing s w id :
      s_phase s !! w = Some (WReportMissing id) →
      sys_step locked s
        (set_phase w WIdle
           (set_coord (ReportMissingMapOutputs {| rm_MapTaskID := id |} (s_coord s)) s))
  | st_missing_lost s w id :
      s_phase s !! w = Some (WReportMissing id) →
      sys_step locked s (set_phase w WIdle s).

Definition sys_reachable (locked : bool) (files : list string) (n : Z) (s : Sys) : Prop :=
  rtc (sys_step locked) (init_sys files n) s.
End system.
