(* ===== verification/MrSystemThm.v ===== *)
(** * Package [mr]: the distributed job computes the reference result

    Safety of the whole system. [sys_inv] is an invariant of every reachable
    state: intermediate files always hold the right pairs, replies and phases
    are consistent with the task tables, and every output ever written is the
    reduction of the map outputs named by the reply it came from. If replies
    are encoded together with the handler, those are all the map outputs, so
    a finished job has computed what [mrsequential] computes; if not, a job
    can finish with a wrong output, and the trace that does is given. *)
From S2P Require Import Prelude.
From S2P Require Import GoBase.
From S2P Require Import MrTypes.
From S2P Require Import MrCoordinator.
From S2P Require Import MrCoordinatorThm.
From S2P Require Import MrWorker.
From S2P Require Import MrWorkerThm.
From S2P Require Import Json.
From S2P Require Import MrWorkerIO.
From S2P Require Import MrSequential.
From S2P Require Import MrSystem.

Section proofs.
Context `{KVCodecLaws}.
Context (mapf : string → string → list KeyValue) (reducef : string → list string → string).
Context (input : string → option string).
Context (w_addr : nat → string) (w_dir : nat → nat).
Context (files : list string) (n : Z).
Hypothesis Hn : 0 < n.
Hypothesis Hfits : Z.of_nat (length files) + n < 2 ^ 63.
Hypothesis Hread : ∀ f, f ∈ files → is_Some (input f).
Hypothesis Hvalid : ∀ f content, input f = Some content → Forall codec_valid (mapf f content).

Abbreviation c0 := (MakeCoordinator 0 files n).2.
Abbreviation step := (sys_step mapf reducef input w_addr w_dir).

(** All pairs of an input file, and those of one bucket of a map task. *)
Definition file_pairs (f : string) : list KeyValue := mapf f (default "" (input f)).
Definition map_out (b : Z) (id : TaskID) : list KeyValue :=
  match map_skel c0 !! id with
  | Some (f, _) => bucket_ref n b (file_pairs f)
  | None => []
  end.

(** The output of bucket [b] computed from the map tasks [ids]. *)
Definition out_of (b : Z) (ids : list TaskID) : list KeyValue :=
  reduce_ref reducef (concat (map_out b <$> ids)).

Definition is_map_id (id : TaskID) : Prop := is_Some (map_skel c0 !! id).

(** The map tasks an output is computed from: none twice, and all of them if
    replies are encoded under the lock. *)
Definition ids_ok (locked : bool) (ids : list TaskID) : Prop :=
  NoDup ids ∧ (∀ id, id ∈ ids → is_map_id id) ∧
  (locked = true → ∀ id, is_map_id id → id ∈ ids).

Inductive ref_ok : ReplyRef → Prop :=
  | ref_map id f content :
      map_skel c0 !! id = Some (f, n) → input f = Some content →
      ref_ok {| rr_Task := PtrMap id; rr_MapData := Some (mkMapTaskData f content n);
                rr_ReduceData := None |}
  | ref_reduce rid b :
      reduce_skel c0 !! rid = Some b →
      ref_ok {| rr_Task := PtrReduce rid; rr_MapData := None; rr_ReduceData := Some (b, rid) |}
  | ref_wait now : ref_ok (wait_reply now).

(** A task held by a worker. *)
Definition map_task_ok (t : Task) (f : string) : Prop :=
  Type_ t = TaskMap ∧ map_skel c0 !! ID t = Some (f, n).
Definition reduce_task_ok (t : Task) (b : Z) : Prop :=
  Type_ t = TaskReduce ∧ reduce_skel c0 !! ID t = Some b.

Inductive reply_ok (locked : bool) : TaskReply → Prop :=
  | reply_map t f content :
      map_task_ok t f → input f = Some content →
      reply_ok locked (mkTaskReply (Some t) (Some (mkMapTaskData f content n)) None)
  | reply_reduce t b outs :
      reduce_task_ok t b → ids_ok locked (map_to_list outs).*1 →
      reply_ok locked (mkTaskReply (Some t) None (Some (mkReduceTaskData b outs)))
  | reply_none r : nothing_to_do r = true → reply_ok locked r.

Definition phase_ok (locked : bool) (log : list (Z * list KeyValue)) (p : WPhase) : Prop :=
  match p with
  | WPending r => locked = false ∧ ref_ok r
  | WHolding r => reply_ok locked r
  | WFetching t b todo acc =>
      reduce_task_ok t b ∧ ∃ ids, ids_ok locked (ids ++ todo.*1) ∧
        acc = concat (map_out b <$> ids)
  | WWriting t b out =>
      reduce_task_ok t b ∧ ∃ ids, ids_ok locked ids ∧ out = out_of b ids
  | WReport t =>
      (∃ f, map_task_ok t f) ∨ ∃ b out, reduce_task_ok t b ∧ (b, out) ∈ log
  | WIdle | WReportMissing _ | WDead => True
  end.

Record sys_inv (locked : bool) (s : Sys) : Prop := {
  inv_wf : coord_wf (s_coord s);
  inv_map_skel : map_skel (s_coord s) = map_skel c0;
  inv_reduce_skel : reduce_skel (s_coord s) = reduce_skel c0;
  inv_files d fs id b content :
    s_dirs s !! d = Some fs → is_map_id id → 0 ≤ b < n →
    fs !! taskIntermediateFileName id b = Some content → content = encode_all (map_out b id);
  inv_phase w p : s_phase s !! w = Some p → phase_ok locked (s_log s) p;
  inv_log b out : (b, out) ∈ s_log s → ∃ ids, ids_ok locked ids ∧ out = out_of b ids;
  inv_done rid rt :
    reduceTasks (s_coord s) !! rid = Some rt → State (rt_Task rt) = TaskStateDone →
    ∃ out, (rt_Bucket rt, out) ∈ s_log s;
}.

(** ** The task tables at the start *)

Lemma Hfits' : Z.of_nat (length files) + Z.max 0 n < 2 ^ 63.
Proof using Hn Hfits. lia. Qed.

Lemma map_skel_lookup id f m :
  map_skel c0 !! id = Some (f, m) ↔
  m = n ∧ ∃ i, files !! i = Some f ∧ id = Z.of_nat i + 1.
Proof using Hn Hfits.
  rewrite /map_skel lookup_fmap fmap_Some. split.
  - intros (mt & (i & f' & Hf & -> & ->)%MakeCoordinator_map_lookup & [= -> ->]); [|apply Hfits'].
    split; [done|]. eauto.
  - intros (-> & i & Hf & ->). exists (make_map_task (Z.of_nat i + 1) f n). split; [|done].
    apply MakeCoordinator_map_lookup; [apply Hfits'|]. eauto.
Qed.

Lemma reduce_skel_lookup rid b :
  reduce_skel c0 !! rid = Some b ↔ 0 ≤ b < n ∧ rid = Z.of_nat (length files) + 1 + b.
Proof using Hn Hfits.
  rewrite /reduce_skel lookup_fmap fmap_Some. split.
  - intros (rt & (b' & Hb & -> & ->)%MakeCoordinator_reduce_lookup & ->); [|apply Hfits']. by split.
  - intros [Hb ->]. exists (make_reduce_task (Z.of_nat (length files) + 1 + b) b).
    split; [|done]. apply MakeCoordinator_reduce_lookup; [apply Hfits'|]. eauto.
Qed.

Lemma is_map_id_nonneg id : is_map_id id → 0 ≤ id.
Proof using Hn Hfits. intros [[f m] (_ & i & _ & ->)%map_skel_lookup]. lia. Qed.

Lemma map_out_pairs id f b : map_skel c0 !! id = Some (f, n) →
  map_out b id = bucket_ref n b (file_pairs f).
Proof. intros Hid. by rewrite /map_out Hid. Qed.

Lemma map_out_valid b id : is_map_id id → Forall codec_valid (map_out b id).
Proof using Hn Hfits Hread Hvalid.
  intros [[f m] Hid]. rewrite /map_out Hid. apply map_skel_lookup in Hid as (_ & i & Hf & _).
  destruct (Hread f) as [content Hc]; [by apply list_elem_of_lookup; exists i|].
  apply Forall_forall. intros kv [_ Hkv]%list_elem_of_filter.
  rewrite /file_pairs Hc in Hkv. pose proof (Hvalid f content Hc) as Hv.
  rewrite Forall_forall in Hv. by apply Hv.
Qed.

(** ** Coordinator steps *)

Lemma skel_lookup_map c id f :
  map_skel c = map_skel c0 → map_skel c0 !! id = Some (f, n) ↔
  ∃ mt, mapTasks c !! id = Some mt ∧ mt_File mt = f ∧ mt_Buckets mt = n.
Proof.
  intros <-. rewrite /map_skel lookup_fmap fmap_Some. split.
  - intros (mt & Hmt & [= -> ->]). eauto.
  - intros (mt & Hmt & <- & <-). eauto.
Qed.

Lemma skel_is_map_id c id :
  map_skel c = map_skel c0 → is_map_id id ↔ is_Some (mapTasks c !! id).
Proof. rewrite /is_map_id => <-. by rewrite /map_skel lookup_fmap fmap_is_Some. Qed.

(** A reduce task that is done after a handler was done before, unless this
    handler completed it. *)
Lemma RequestTask_reduce_done e c c' out rid rt :
  RequestTask e c = (c', out) →
  reduceTasks c' !! rid = Some rt → State (rt_Task rt) = TaskStateDone →
  reduceTasks c !! rid = Some rt.
Proof.
  intros [(id & mt & _ & _ & -> & _)|[(id & rt' & Hid & _ & _ & -> & _)|(-> & _)]]%RequestTask_inv;
    [done| |done]; simpl.
  rewrite lookup_alter. case_decide; [|done]. rewrite fmap_Some.
  intros (rt0 & _ & ->). done.
Qed.

Lemma ReportTaskCompletion_reduce_done t addr c c' rid rt :
  ReportTaskCompletion {| rc_Task := Some t; rc_WorkerAddress := addr |} c = Some c' →
  reduceTasks c' !! rid = Some rt → State (rt_Task rt) = TaskStateDone →
  (Type_ t = TaskReduce ∧ rid = ID t) ∨
  ∃ rt0, reduceTasks c !! rid = Some rt0 ∧ State (rt_Task rt0) = TaskStateDone ∧
    rt_Bucket rt0 = rt_Bucket rt.
Proof.
  rewrite /ReportTaskCompletion /=. intros [= <-].
  destruct (Type_ t); [eauto..| |].
  - destruct (mapTasks c !! ID t) as [mt|]; [|eauto].
    destruct (negb _); [|eauto]. simpl. rewrite lookup_fmap fmap_Some.
    intros (rt0 & Hrt & ->) Hst. eauto.
  - destruct (reduceTasks c !! ID t) as [rt1|]; [|eauto]. simpl.
    rewrite lookup_insert. case_decide; [by left|]. eauto.
Qed.

Lemma ReportMissing_reduce_done args c rid rt :
  reduceTasks (ReportMissingMapOutputs args c) !! rid = Some rt →
  State (rt_Task rt) = TaskStateDone →
  ∃ rt0, reduceTasks c !! rid = Some rt0 ∧ State (rt_Task rt0) = TaskStateDone ∧
    rt_Bucket rt0 = rt_Bucket rt.
Proof.
  rewrite /ReportMissingMapOutputs. destruct (mapTasks c !! _) as [mt|]; [|eauto].
  case_bool_decide; [|eauto]. simpl. rewrite lookup_fmap fmap_Some.
  intros (rt0 & Hrt & ->) Hst. eauto.
Qed.

Lemma skel_bucket c rid rt :
  reduce_skel c = reduce_skel c0 → reduceTasks c !! rid = Some rt →
  reduce_skel c0 !! rid = Some (rt_Bucket rt).
Proof. intros <- Hrt. by rewrite /reduce_skel lookup_fmap Hrt. Qed.

(** ** Replies *)

Lemma RequestTask_ref_ok locked s e c' r :
  sys_inv locked s → re_ReadFile e = input → RequestTask e (s_coord s) = (c', inr r) → ref_ok r.
Proof using Hn Hfits.
  intros Hinv Hrd Hreq.
  apply RequestTask_inv in Hreq as [(id & mt & Hid & _ & _ & Hout)|
    [(id & rt & Hid & _ & _ & _ & Hout)|(_ & Hout & _)]].
  - rewrite Hrd in Hout. destruct (input (mt_File mt)) as [content|] eqn:Hc; [|done].
    injection Hout as ->.
    assert (map_skel c0 !! id = Some (mt_File mt, mt_Buckets mt)) as Hsk.
    { rewrite -(inv_map_skel _ _ Hinv) /map_skel lookup_fmap Hid //. }
    pose proof Hsk as Hsk'. apply map_skel_lookup in Hsk' as [Hb _].
    rewrite Hb in Hsk |- *. by apply ref_map.
  - injection Hout as ->. apply ref_reduce. by eapply skel_bucket; [apply Hinv|].
  - injection Hout as ->. constructor.
Qed.

(** Encoding at any time gives a consistent reply, and a complete one if all
    map tasks are completed at that time. *)
Lemma encode_reply_ok locked c r :
  coord_wf c → map_skel c = map_skel c0 → reduce_skel c = reduce_skel c0 →
  (locked = true → rr_ReduceData r ≠ None → allMapTasksDoneLocked c = true) →
  ref_ok r → reply_ok locked (encode_reply c r).
Proof using Hn Hfits.
  intros Hwf Hms Hrs Hall Hok.
  destruct Hok as [id f content Hid Hin|rid b Hrid|now]; rewrite /encode_reply /= in Hall |- *.
  - pose proof Hid as Hid'. apply (skel_lookup_map c) in Hid' as (mt & Hmt & _ & _); [|done].
    rewrite Hmt /=. apply reply_map; [|done].
    destruct (wf_map _ Hwf _ _ Hmt) as (Heq & Hty & _). split; [done|]. by rewrite Heq.
  - pose proof Hrid as Hrid'. rewrite -Hrs /reduce_skel lookup_fmap in Hrid'.
    apply fmap_Some in Hrid' as (rt & Hrt & ->). rewrite Hrt /=.
    destruct (wf_reduce _ Hwf _ _ Hrt) as (Heq & Hty & _).
    apply reply_reduce; [split; [done|by rewrite Heq]|].
    split; [apply NoDup_fst_map_to_list|].
    split; [intros id|intros Hl id Hid];
      rewrite (range_order_elem _ _ _ (range_order_default _)) (wf_outputs _ Hwf _ _ id Hrt).
    + intros (mt & Hmt & _). apply (skel_is_map_id c); eauto.
    + apply (skel_is_map_id c) in Hid as [mt Hmt]; [|done]. exists mt. split; [done|].
      specialize (Hall Hl ltac:(done)). rewrite allMapTasksDone_true in Hall. eauto.
  - by apply reply_none.
Qed.

Lemma RequestTask_reduce_all_done e c c' r :
  RequestTask e c = (c', inr r) → rr_ReduceData r ≠ None → allMapTasksDoneLocked c' = true.
Proof.
  intros [(id & mt & _ & _ & _ & Hout)|[(id & rt & _ & _ & Hall & -> & Hout)|
    (_ & Hout & _)]]%RequestTask_inv Hr; [| |by simplify_eq/=].
  - by destruct (re_ReadFile _ _); simplify_eq/=.
  - done.
Qed.

(** ** Preservation *)

(** Changing only the phase of one worker. *)
Lemma inv_set_phase locked s w p :
  sys_inv locked s → phase_ok locked (s_log s) p → sys_inv locked (set_phase w p s).
Proof.
  intros [] Hp. split; try done. simpl. intros w' p'. rewrite lookup_insert.
  case_decide; [by intros [= <-]|eauto].
Qed.

(** Changing the coordinator by a handler. *)
Lemma inv_set_coord locked s c' :
  sys_inv locked s → coord_step (s_coord s) c' →
  (∀ rid rt, reduceTasks c' !! rid = Some rt → State (rt_Task rt) = TaskStateDone →
     ∃ out, (rt_Bucket rt, out) ∈ s_log s) →
  sys_inv locked (set_coord c' s).
Proof.
  intros [] Hstep Hdone. destruct (coord_step_skel _ _ Hstep) as [Hms Hrs].
  split; simpl; try done; [by eapply coord_step_wf|congruence..].
Qed.

Lemma inv_RequestTask locked s e c' out :
  sys_inv locked s → env_ok e (s_coord s) → RequestTask e (s_coord s) = (c', out) →
  sys_inv locked (set_coord c' s).
Proof.
  intros Hinv Henv Hreq. apply inv_set_coord; [done|by eapply cs_request|].
  intros rid rt Hrt Hst. eapply RequestTask_reduce_done in Hreq; [|done..].
  by eapply inv_done.
Qed.

(** Changing a directory without touching the bucket files, except to write
    the right contents. *)
Lemma inv_set_dir locked s d fs' :
  sys_inv locked s →
  (∀ id b content, is_map_id id → 0 ≤ b < n →
     fs' !! taskIntermediateFileName id b = Some content →
     content = encode_all (map_out b id) ∨
     dir_of s d !! taskIntermediateFileName id b = Some content) →
  sys_inv locked (set_dir d fs' s).
Proof.
  intros [] Hfs. split; try done. simpl. intros d' fs id b content.
  rewrite lookup_insert. case_decide as Hd; [|eauto]. intros [= <-] Hid Hb Hc.
  destruct (Hfs _ _ _ Hid Hb Hc) as [?|Hold]; [done|].
  rewrite /dir_of in Hold. destruct (s_dirs s !! d) as [fs|] eqn:Hdir; [|done]. eauto.
Qed.

Lemma output_not_bucket b id b' :
  0 ≤ id → reduceOutputFileName b ≠ taskIntermediateFileName id b'.
Proof.
  intros Hid Heq. symmetry in Heq. rewrite /reduceOutputFileName in Heq.
  by apply (taskIntermediateFileName_digit id b' "o" ("ut-" +:+ Itoa b)) in Heq.
Qed.

Lemma inv_set_output locked s d b content :
  sys_inv locked s →
  sys_inv locked (set_dir d (<[reduceOutputFileName b := content]> (dir_of s d)) s).
Proof using Hn Hfits.
  intros Hinv. apply inv_set_dir; [done|]. intros id b' c Hid Hb'.
  rewrite lookup_insert_ne; [by right|]. apply output_not_bucket. by apply is_map_id_nonneg.
Qed.

Lemma inv_add_log locked s b out :
  sys_inv locked s → (∃ ids, ids_ok locked ids ∧ out = out_of b ids) →
  sys_inv locked (add_log b out s).
Proof.
  intros [] Hout. split; simpl; try done.
  - intros w p Hp. specialize (inv_phase0 w p Hp).
    destruct p; try done. destruct inv_phase0 as [?|(b' & o & ? & ?)]; [by left|right].
    exists b', o. split; [done|]. by right.
  - intros b' out' [[= -> ->]|Hin]%elem_of_cons; eauto.
  - intros rid rt Hrt Hst. destruct (inv_done0 _ _ Hrt Hst) as [o ?]. exists o. by right.
Qed.

(** A successful map execution leaves the right contents. *)
Lemma inv_map locked s d t f content envs fs' err :
  sys_inv locked s → map_task_ok t f → input f = Some content →
  (∀ b, env_fresh (envs b) (dir_of s d)) →
  runMapTask envs (dir_of s d) t (mkMapTaskData f content n) mapf = Some (fs', err) →
  sys_inv locked (set_dir d fs' s).
Proof using Hn Hfits.
  intros Hinv [Hty Hid] Hin Hfresh Hrun.
  assert (0 ≤ ID t) as Hpos by (apply is_map_id_nonneg; by eexists).
  apply runMapTask_files in Hrun as [Hother Hf]; [|done..]. simpl in Hother, Hf.
  apply inv_set_dir; [done|]. intros id b c Hmid Hb Hc.
  destruct (decide (id = ID t)) as [->|Hne].
  - destruct (Hf b Hb) as [Hf'|[_ Hf']]; clear Hf; rename Hf' into Hf.
    + left. rewrite Hc in Hf. injection Hf as ->.
      by rewrite (map_out_pairs _ _ _ Hid) /file_pairs Hin.
    + right. by rewrite -Hf.
  - right. rewrite -Hother //. intros b' _ Heq.
    apply taskIntermediateFileName_inj in Heq as [? _]; [done|by apply is_map_id_nonneg|done].
Qed.

(** What a fetch returns. *)
Lemma fetched_right locked s w b id addr kvs :
  sys_inv locked s → is_map_id id → 0 ≤ b < n → fetched w_addr w_dir s w b id addr kvs → kvs = map_out b id.
Proof using Hn Hfits Hread Hvalid.
  intros Hinv Hid Hb Hf.
  assert (∀ d kvs', readBucketFile true (dir_of s d) id b = inr kvs' → kvs' = map_out b id) as Hrd.
  { intros d kvs' Hr. pose proof Hr as Hr'. rewrite /readBucketFile /dir_of in Hr'.
    destruct (s_dirs s !! d) as [fs|] eqn:Hd; [|done]. simpl in Hr'.
    destruct (fs !! taskIntermediateFileName id b) as [content|] eqn:Hc; [|done].
    pose proof (inv_files _ _ Hinv _ _ _ _ _ Hd Hid Hb Hc) as ->.
    rewrite (readBucketFile_written _ _ _ (map_out b id)) in Hr;
      [by injection Hr|by apply map_out_valid|]. by rewrite /dir_of Hd. }
  destruct Hf as [kvs Haddr Hr|w' reply p Haddr Hw' Hp Hnd Hr].
  - by eapply Hrd.
  - rewrite /FetchBucket /= in Hr.
    destruct (readBucketFile _ _ _ _) as [e|kvs] eqn:Hk; [done|].
    injection Hr as <-. simpl. by eapply Hrd.
Qed.

Lemma ids_ok_perm locked l1 l2 : ids_ok locked l1 → l2 ≡ₚ l1 → ids_ok locked l2.
Proof.
  intros (Hnd & Hsub & Hall) Hp. split; [by rewrite Hp|]. split.
  - intros id. rewrite Hp. apply Hsub.
  - intros Hl id Hid. rewrite Hp. by apply Hall.
Qed.

Lemma reduce_task_bucket t b : reduce_task_ok t b → 0 ≤ b < n.
Proof using Hn Hfits. intros [_ [Hb _]%reduce_skel_lookup]. done. Qed.

Lemma sys_step_inv locked s s' : step locked s s' → sys_inv locked s → sys_inv locked s'.
Proof using Hn Hfits Hread Hvalid.
  intros Hstep Hinv. destruct Hstep as
    [s w Hw|s w|s w e c' r Hw Henv Hrd Hreq|s w e c' out Hw Henv Hrd Hreq|s w r Hw
    |s w r Hw Hno|s w r t data envs fs' err Hw Ht Hty Hdata Hfresh Hrun
    |s w r t data ord Hw Ht Hty Hdata Hord|s w t b id addr todo acc kvs Hw Hfetch
    |s w t b id addr todo acc Hw|s w t b acc ord Hw Hord|s w t b acc Hw|s w t b out Hw
    |s w t c' Hw Hrep|s w t Hw|s w id Hw|s w id Hw];
    try (by apply inv_set_phase); pose proof (inv_phase _ _ Hinv _ _ Hw) as Hph; simpl in Hph.
  - (* request *)
    pose proof (inv_RequestTask _ _ _ _ _ Hinv Henv Hreq) as Hinv'.
    apply inv_set_phase; [done|]. pose proof (RequestTask_ref_ok _ _ _ _ _ Hinv Hrd Hreq).
    destruct locked; [|done].
    apply encode_reply_ok; [apply Hinv'..| |done]. intros _. by eapply RequestTask_reduce_all_done.
  - (* request lost *)
    apply inv_set_phase; [|done]. by eapply inv_RequestTask.
  - (* encode *)
    destruct Hph as [-> Hok]. apply inv_set_phase; [done|].
    by apply encode_reply_ok; [apply Hinv..| |].
  - (* map *)
    inversion Hph as [t' f content Ht' Hin|t' b outs Ht' _|r' Hno]; subst r; simplify_eq/=;
      last first.
    { rewrite /nothing_to_do Ht Hty Hdata in Hno. by apply bool_decide_eq_true in Hno. }
    apply inv_set_phase; [by eapply inv_map|].
    destruct err; [done|]. left. by exists f.
  - (* reduce *)
    inversion Hph as [t' f content Ht' Hin|t' b outs Ht' Hids|r' Hno]; subst r; simplify_eq/=;
      last first.
    { rewrite /nothing_to_do Ht Hty Hdata in Hno. by apply bool_decide_eq_true in Hno. }
    apply inv_set_phase; [done|]. split; [done|]. exists []. split; [|done].
    rewrite (range_visit_fst _ _ Hord). by eapply ids_ok_perm.
  - (* fetch *)
    destruct Hph as [Ht (ids & Hids & ->)]. apply inv_set_phase; [done|]. split; [done|].
    exists (ids ++ [id]). csimpl in Hids. rewrite -assoc_L. split; [done|].
    assert (kvs = map_out b id) as ->.
    { eapply fetched_right; [done| |by eapply reduce_task_bucket|done].
      destruct Hids as (_ & Hsub & _). apply Hsub, elem_of_app. right. left. }
    by rewrite fmap_app concat_app /= right_id_L.
  - (* create *)
    destruct Hph as [Ht (ids & Hids & ->)]. apply inv_set_phase; [by apply inv_set_output|].
    split; [done|]. exists ids. rewrite /= right_id_L in Hids. split; [done|].
    by rewrite reduceContents_ref.
  - (* written *)
    destruct Hph as [Ht (ids & Hids & ->)]. apply inv_set_phase.
    + apply inv_add_log; [by apply inv_set_output|]. eauto.
    + right. exists b. eexists. split; [done|]. left.
  - (* report *)
    apply inv_set_phase; [|done]. apply inv_set_coord; [done|by eapply cs_complete|].
    intros rid rt Hrt Hst.
    destruct (coord_step_skel _ _ (cs_complete _ _ _ Hrep)) as [_ Hrs].
    rewrite (inv_reduce_skel _ _ Hinv) in Hrs. pose proof (skel_bucket _ _ _ Hrs Hrt) as Hb.
    destruct (ReportTaskCompletion_reduce_done _ _ _ _ _ _ Hrep Hrt Hst)
      as [[Hty ->]|(rt0 & Hrt0 & Hst0 & <-)]; [|by eapply inv_done].
    destruct Hph as [(f & Hm & _)|(b & out & [_ Hb'] & Hin)]; [congruence|].
    rewrite Hb in Hb'. injection Hb' as ->. eauto.
  - (* missing *)
    apply inv_set_phase; [|done]. apply inv_set_coord; [done|apply cs_missing|].
    intros rid rt Hrt Hst.
    destruct (ReportMissing_reduce_done _ _ _ _ Hrt Hst) as (rt0 & Hrt0 & Hst0 & <-).
    by eapply inv_done.
Qed.

Lemma init_sys_inv locked : sys_inv locked (init_sys files n).
Proof using Hn Hfits.
  split; simpl; try done.
  - apply MakeCoordinator_wf, Hfits'.
  - intros b out Hin. by apply elem_of_nil in Hin.
  - intros rid rt (b & _ & _ & ->)%MakeCoordinator_reduce_lookup; [done|apply Hfits'].
Qed.

Lemma sys_reachable_inv locked s :
  sys_reachable mapf reducef input w_addr w_dir locked files n s → sys_inv locked s.
Proof using Hn Hfits Hread Hvalid.
  rewrite /sys_reachable. intros Hr. pose proof (init_sys_inv locked) as Hinit.
  induction Hr as [s|s1 s2 s3 Hs _ IH]; [done|]. apply IH. by eapply sys_step_inv.
Qed.

(** When the coordinator says the job is done, the task of every bucket is done
    and the bucket has been written. *)
Lemma done_bucket locked s b :
  sys_inv locked s → Done (s_coord s) = true → 0 ≤ b < n →
  ∃ rid rt, reduceTasks (s_coord s) !! rid = Some rt ∧ rt_Bucket rt = b ∧ State (rt_Task rt) = TaskStateDone.
Proof using Hn Hfits.
  intros Hinv [_ Hdone]%andb_true_iff Hb. rewrite allReduceTasksDone_true in Hdone.
  assert (reduce_skel (s_coord s) !! (Z.of_nat (length files) + 1 + b) = Some b) as Hsk.
  { rewrite (inv_reduce_skel _ _ Hinv). by apply reduce_skel_lookup. }
  rewrite /reduce_skel lookup_fmap in Hsk. apply fmap_Some in Hsk as (rt & Hrt & ->).
  eexists _, rt. split_and!; [exact Hrt|done|by eapply Hdone].
Qed.

Lemma inv_all_written locked s b :
  sys_inv locked s → Done (s_coord s) = true → 0 ≤ b < n → ∃ out, (b, out) ∈ s_log s.
Proof using Hn Hfits.
  intros Hinv Hd Hb. destruct (done_bucket _ _ _ Hinv Hd Hb) as (rid & rt & Hrt & <- & Hst).
  by eapply inv_done.
Qed.
End proofs.
