(* ===== verification/MrRun.v ===== *)
(** * Package [mr]: an executable scheduler for the job

    [sys_step] is a relation; [do_action] executes one chosen step of it, so
    that whole runs of the job can be evaluated. [run_sound] turns an evaluated
    run into a reachable state. Used by the concrete runs of [MrJob.v]. *)
From S2P Require Import Prelude GoBase MrTypes MrCoordinator MrWorker MrWorkerThm Json MrSystem.

Inductive action :=
  | AJoin (w : nat)
  | ACrash (w : nat)
  | ARequest (w : nat) (now : Z)
  | AEncode (w : nat)
  | AMap (w : nat)
  | AReduce (w : nat)
  | AFetchLocal (w : nat)
  | AFetchFail (w : nat)
  | ACreate (w : nat)
  | AWritten (w : nat)
  | AReport (w : nat)
  | AMissing (w : nat).

Section run.
Context (mapf : string → string → list KeyValue) (reducef : string → list string → string).
Context (input : string → option string) (w_addr : nat → string) (w_dir : nat → nat).
Context (locked : bool).

Definition run_env (now : Z) (c : Coordinator) : ReqEnv :=
  {| re_clk := λ _, now; re_now := now; re_mapOrd := (map_to_list (mapTasks c)).*1;
     re_reduceOrd := (map_to_list (reduceTasks c)).*1; re_ReadFile := input |}.

Definition run_write (b : Z) : WriteEnv :=
  {| we_tmp := Some ("mr-bucket-" +:+ Itoa b); we_encode_fails_at := None;
     we_close_ok := true; we_rename_ok := true |}.

Definition no_temp (fs : FS) : bool :=
  forallb (λ kx, negb (HasPrefix kx.1 "mr-bucket-")) (map_to_list fs).

Definition do_action (a : action) (s : Sys) : option Sys :=
  match a with
  | AJoin w =>
      match s_phase s !! w with None => Some (set_phase w WIdle s) | Some _ => None end
  | ACrash w => Some (set_phase w WDead s)
  | ARequest w now =>
      match s_phase s !! w with
      | Some WIdle =>
          match RequestTask (run_env now (s_coord s)) (s_coord s) with
          | (c', inr r) =>
              Some (set_phase w (if locked then WHolding (encode_reply c' r) else WPending r)
                      (set_coord c' s))
          | _ => None
          end
      | _ => None
      end
  | AEncode w =>
      match s_phase s !! w with
      | Some (WPending r) => Some (set_phase w (WHolding (encode_reply (s_coord s) r)) s)
      | _ => None
      end
  | AMap w =>
      match s_phase s !! w with
      | Some (WHolding {| tr_Task := Some t; tr_MapData := Some data; tr_ReduceData := x |}) =>
          if bool_decide (Type_ t = TaskMap) && no_temp (dir_of s (w_dir w)) then
            match runMapTask run_write (dir_of s (w_dir w)) t data mapf with
            | Some (fs', None) => Some (set_phase w (WReport t) (set_dir (w_dir w) fs' s))
            | _ => None
            end
          else None
      | _ => None
      end
  | AReduce w =>
      match s_phase s !! w with
      | Some (WHolding {| tr_Task := Some t; tr_MapData := x; tr_ReduceData := Some data |}) =>
          if bool_decide (Type_ t = TaskReduce) then
            Some (set_phase w (WFetching t (rd_Bucket data)
                    (range_visit (map_to_list (rd_MapTaskOutputs data)).*1
                       (rd_MapTaskOutputs data)) []) s)
          else None
      | _ => None
      end
  | AFetchLocal w =>
      match s_phase s !! w with
      | Some (WFetching t b ((id, addr) :: todo) acc) =>
          if bool_decide (addr = w_addr w) then
            match readBucketFile true (dir_of s (w_dir w)) id b with
            | inr kvs => Some (set_phase w (WFetching t b todo (acc ++ kvs)) s)
            | inl _ => None
            end
          else None
      | _ => None
      end
  | AFetchFail w =>
      match s_phase s !! w with
      | Some (WFetching t b ((id, addr) :: todo) acc) => Some (set_phase w (WReportMissing id) s)
      | _ => None
      end
  | ACreate w =>
      match s_phase s !! w with
      | Some (WFetching t b [] acc) =>
          Some (set_phase w (WWriting t b
                  (reduceContents (map_to_list (groupByKey acc)).*1 (groupByKey acc) reducef))
                  (set_dir (w_dir w)
                     (<[reduceOutputFileName b := ""]> (dir_of s (w_dir w))) s))
      | _ => None
      end
  | AWritten w =>
      match s_phase s !! w with
      | Some (WWriting t b out) =>
          Some (set_phase w (WReport t)
                  (add_log b out
                     (set_dir (w_dir w)
                        (<[reduceOutputFileName b := write_lines (λ _, true) 0 out]>
                           (dir_of s (w_dir w))) s)))
      | _ => None
      end
  | AReport w =>
      match s_phase s !! w with
      | Some (WReport t) =>
          c' ← ReportTaskCompletion {| rc_Task := Some t; rc_WorkerAddress := w_addr w |}
                 (s_coord s);
          Some (set_phase w WIdle (set_coord c' s))
      | _ => None
      end
  | AMissing w =>
      match s_phase s !! w with
      | Some (WReportMissing id) =>
          Some (set_phase w WIdle
                  (set_coord (ReportMissingMapOutputs {| rm_MapTaskID := id |} (s_coord s)) s))
      | _ => None
      end
  end.

Fixpoint run (acts : list action) (s : Sys) : option Sys :=
  match acts with
  | [] => Some s
  | a :: acts' => s' ← do_action a s; run acts' s'
  end.

Lemma no_temp_fresh fs b tmp :
  no_temp fs = true → we_tmp (run_write b) = Some tmp →
  fs !! tmp = None ∧ ∃ u, tmp = "mr-bucket-" +:+ u.
Proof.
  intros Hno [= <-]. split; [|by eexists]. apply eq_None_not_Some. intros [x Hx].
  rewrite /no_temp forallb_forall in Hno.
  specialize (Hno ("mr-bucket-" +:+ Itoa b, x)). simpl in Hno.
  assert (negb (HasPrefix ("mr-bucket-" +:+ Itoa b) "mr-bucket-") = true) as Hn.
  { apply Hno. apply list_elem_of_In. by apply elem_of_map_to_list. }
  apply negb_true_iff in Hn.
  assert (HasPrefix ("mr-bucket-" +:+ Itoa b) "mr-bucket-" = true); [|congruence].
  apply HasPrefix_true. eauto.
Qed.

Lemma do_action_sound a s s' :
  do_action a s = Some s' → sys_step mapf reducef input w_addr w_dir locked s s'.
Proof.
  destruct a as [w|w|w now|w|w|w|w|w|w|w|w|w]; rewrite /do_action;
    [| |destruct (s_phase s !! w) as [[| | | | | | |]|] eqn:Hw; try done..].
  - destruct (s_phase s !! w) eqn:Hw; [done|]. intros [= <-]. by apply st_join.
  - intros [= <-]. apply st_crash.
  - destruct (RequestTask _ _) as [c' [e|r]] eqn:Hreq; [done|]. intros [= <-].
    eapply (st_request _ _ _ _ _ _ s w (run_env now (s_coord s))); [done| |done|done]. split; apply range_order_default.
  - intros [= <-]. by apply st_encode.
  - destruct r as [[t|] [data|] x]; try done.
    destruct (bool_decide _ && _) eqn:Hc; [|done]. bools.
    destruct (runMapTask _ _ _ _ _) as [[fs' [e|]]|] eqn:Hrun; try done. intros [= <-].
    eapply (st_map _ _ _ _ _ _ _ _ _ _ _ _ _ None); [done..| |done].
    intros b tmp. by apply no_temp_fresh.
  - destruct r as [[t|] x [data|]]; try done. case_bool_decide; [|done]. intros [= <-].
    eapply st_reduce; [done..|]. apply range_order_default.
  - destruct todo as [|[id addr] todo]; [done|]. case_bool_decide; [|done].
    destruct (readBucketFile _ _ _ _) as [e|kvs] eqn:Hr; [done|]. intros [= <-].
    eapply st_fetch; [done|]. by apply fetched_local.
  - destruct todo as [|[id addr] todo]; [done|]. intros [= <-]. by eapply st_fetch_fail.
  - destruct todo; [|done]. intros [= <-]. eapply st_create; [done|]. apply range_order_default.
  - intros [= <-]. by apply st_written.
  - destruct (ReportTaskCompletion _ _) as [c'|] eqn:Hrep; [|done]. intros [= <-].
    by eapply st_report.
  - intros [= <-]. by apply st_missing.
Qed.

Lemma run_sound acts : ∀ s s',
  run acts s = Some s' → rtc (sys_step mapf reducef input w_addr w_dir locked) s s'.
Proof.
  induction acts as [|a acts IH]; intros s s'; simpl; [by intros [= <-]|].
  destruct (do_action a s) as [s1|] eqn:Ha; [|done]. simpl. intros Hr.
  eapply rtc_l; [by eapply do_action_sound|]. by apply IH.
Qed.
End run.
