(* ===== verification/MrJob.v ===== *)
(** * Package [mr]: results of a finished job

    The end-to-end theorems about the distributed job, and the trace that
    shows what goes wrong when a reply is encoded after the coordinator's lock
    has been released. *)
From S2P Require Import Prelude.
From S2P Require Import GoBase.
From S2P Require Import MrTypes.
From S2P Require Import MrCoordinator.
From S2P Require Import MrCoordinatorThm.
From S2P Require Import MrWorker.
From S2P Require Import MrWorkerThm.
From S2P Require Import Json.
From S2P Require Import MrWorkerIO.
From S2P Require Import MrSequential.
From S2P Require Import MrSystem.
From S2P Require Import MrSystemThm.
From S2P Require Import MrApps.
From S2P Require Import MrRun.

(** ** Buckets partition the keys *)

Section buckets.
Context (reducef : string → list string → string) (n : Z) (kvs : list KeyValue).
Hypothesis Hn : 0 < n.

Lemma values_of_bucket k :
  values_of k (bucket_ref n (bucket_of n (mkKV k "")) kvs) = values_of k kvs.
Proof.
  rewrite /values_of /bucket_ref list_filter_filter. f_equal.
  apply list_filter_iff. intros kv. rewrite /bucket_of. split; [by intros [? _]|].
  intros <-. done.
Qed.

Lemma distinct_keys_bucket b :
  distinct_keys (bucket_ref n b kvs) ≡ₚ
  filter (λ k, bucket_of n (mkKV k "") = b) (distinct_keys kvs).
Proof.
  apply NoDup_Permutation; [apply distinct_keys_NoDup|apply NoDup_filter, distinct_keys_NoDup|].
  intros k. rewrite list_elem_of_filter !distinct_keys_elem !list_elem_of_fmap. split.
  - intros (kv & -> & [Hb Hkv]%list_elem_of_filter). split; [done|eauto].
  - intros [Hb (kv & -> & Hkv)]. exists kv. split; [done|]. by apply list_elem_of_filter.
Qed.

Lemma reduce_ref_buckets :
  concat ((λ b, reduce_ref reducef (bucket_ref n b kvs)) <$> seqZ 0 n) ≡ₚ reduce_ref reducef kvs.
Proof using Hn.
  set (g := λ k, mkKV k (reducef k (values_of k kvs))).
  assert (∀ b, reduce_ref reducef (bucket_ref n b kvs) ≡ₚ
    g <$> filter (λ k, bucket_of n (mkKV k "") = b) (distinct_keys kvs)) as Hb.
  { intros b. rewrite /reduce_ref.
    trans (g <$> sort_Strings (distinct_keys (bucket_ref n b kvs))).
    - apply perm_of_eq, list_fmap_ext. intros i k Hk%list_elem_of_lookup_2.
      rewrite sort_Strings_perm distinct_keys_bucket in Hk.
      apply list_elem_of_filter in Hk as [<- _]. by rewrite /g values_of_bucket.
    - by rewrite sort_Strings_perm distinct_keys_bucket. }
  trans (g <$> concat ((λ b, filter (λ k, bucket_of n (mkKV k "") = b) (distinct_keys kvs))
    <$> seqZ 0 n)).
  { generalize (seqZ 0 n) as bs. induction bs as [|b bs IH]; csimpl; [done|].
    by rewrite fmap_app IH Hb. }
  rewrite concat_filter_perm.
  - by rewrite /reduce_ref sort_Strings_perm.
  - apply NoDup_seqZ.
  - intros k _. apply elem_of_seqZ. pose proof (bucket_of_range n (mkKV k "") Hn). lia.
Qed.
End buckets.

Section job.
Context `{KVCodecLaws}.
Context (mapf : string → string → list KeyValue) (reducef : string → list string → string).
Context (input : string → option string).
Context (w_addr : nat → string) (w_dir : nat → nat).
Context (files : list string) (n : Z).

(** All pairs the map function produces for the job. *)
Definition all_pairs : list KeyValue := concat (file_pairs mapf input <$> files).

(** The result the job must leave in the output file of bucket [b]. *)
Definition bucket_result (b : Z) : list KeyValue := reduce_ref reducef (bucket_ref n b all_pairs).

Lemma concat_bucket_ref b (fs : list string) :
  concat ((λ f, bucket_ref n b (file_pairs mapf input f)) <$> fs) =
  bucket_ref n b (concat (file_pairs mapf input <$> fs)).
Proof.
  induction fs as [|f fs IH]; [done|]. csimpl. rewrite IH /bucket_ref filter_app //.
Qed.

Lemma out_of_all b ids `{!OrderInsensitive reducef} :
  0 < n → Z.of_nat (length files) + n < 2 ^ 63 →
  ids_ok files n true ids → out_of mapf reducef input files n b ids = bucket_result b.
Proof.
  intros Hn Hfits (Hnd & Hsub & Hall). rewrite /out_of /bucket_result /all_pairs.
  apply reduce_ref_Proper; [done|]. rewrite -concat_bucket_ref.
  assert (ids ≡ₚ (λ i, Z.of_nat i + 1) <$> seq 0 (length files)) as ->.
  { apply NoDup_Permutation; [done| |].
    - apply NoDup_fmap_2; [|apply NoDup_seq]. intros i j ?. lia.
    - intros id. rewrite list_elem_of_fmap. setoid_rewrite elem_of_seq. split.
      + intros Hid%Hsub. destruct Hid as [[f m] Hid].
        apply map_skel_lookup in Hid as (_ & i & Hf & ->); [|done..].
        apply lookup_lt_Some in Hf. exists i. split; [done|lia].
      + intros (i & -> & Hi). apply Hall; [done|].
        destruct (lookup_lt_is_Some_2 files i) as [f Hf]; [lia|].
        exists (f, n). apply map_skel_lookup; [done..|]. eauto. }
  rewrite -list_fmap_compose. apply perm_of_eq. f_equal.
  apply list_eq. intros i. rewrite !list_lookup_fmap.
  destruct (files !! i) as [f|] eqn:Hf; simpl.
  - rewrite lookup_seq_lt /=; [|by eapply lookup_lt_Some]. f_equal.
    apply map_out_pairs, map_skel_lookup; [done..|]. eauto.
  - rewrite lookup_seq_ge //. by apply lookup_ge_None.
Qed.

(** What the sequential program prints. *)
Lemma sequential_result `{!OrderInsensitive reducef} :
  (∀ f, f ∈ files → is_Some (input f)) →
  mrsequential input mapf reducef files = Some (reduce_ref reducef all_pairs).
Proof.
  intros Hread. rewrite /mrsequential (proj2 (map_files_spec input mapf files [] all_pairs)) //=.
  f_equal. rewrite reduce_runs_sorted; [|apply Sorted_merge_sort, _].
  apply reduce_ref_Proper; [done|apply merge_sort_Permutation].
Qed.

(** Every output that was written is the result for its bucket. *)
Lemma logged_result s b out `{!OrderInsensitive reducef} :
  0 < n → Z.of_nat (length files) + n < 2 ^ 63 →
  sys_inv mapf reducef input files n true s → (b, out) ∈ s_log s → out = bucket_result b.
Proof.
  intros Hn Hfits Hinv Hin. destruct (inv_log _ _ _ _ _ _ _ Hinv b out Hin) as (ids & Hids & ->).
  by apply out_of_all.
Qed.
End job.

(** ** Properties *)


(** A word count over one small file, with one bucket. *)
Definition wc_ascii : string → string → list KeyValue := wc_Map (λ _, false).
Definition demo_input (f : string) : option string :=
  if bool_decide (f = "x") then Some "a b a" else None.
Definition demo_addr (w : nat) : string := "w" +:+ pretty w.

Definition good_run : list action :=
  [AJoin 0; ARequest 0 0; AMap 0; AReport 0;
   ARequest 0 1; AReduce 0; AFetchLocal 0; ACreate 0; AWritten 0; AReport 0].


Definition race_run : list action :=
  [AJoin 0; AJoin 1; AJoin 2;
   (* worker 0 maps the file *)
   ARequest 0 0; AEncode 0; AMap 0; AReport 0;
   (* worker 1 gets the reduce task, but worker 0 is gone *)
   ARequest 1 0; AEncode 1; AReduce 1; ACrash 0; AFetchFail 1;
   (* ten seconds later worker 2 asks; the report arrives before the encoding *)
   ARequest 2 taskTimeout; AMissing 1; AEncode 2;
   AReduce 2; ACreate 2; AWritten 2; AReport 2;
   (* the map task is run again, and the job is done *)
   ARequest 2 taskTimeout; AEncode 2; AMap 2; AReport 2].

(** C21: As the code is written, a reply is encoded after the lock has been
    released, and the job can finish with a wrong result: with one input file
    and one bucket there is a run after which the coordinator says the job is
    done, yet the only output ever written for the bucket is empty although
    the sequential program prints lines. The run needs a worker that reports
    missing map outputs between the end of another worker's request for the
    reduce task and the encoding of its reply. *)
Theorem late_encoding_loses_output :
  ∃ s, sys_reachable wc_ascii wc_Reduce demo_input demo_addr id false ["x"] 1 s ∧
    Done (s_coord s) = true ∧ s_log s = [(0, [])] ∧
    mrsequential demo_input wc_ascii wc_Reduce ["x"] = Some [mkKV "a" "2"; mkKV "b" "1"].
Proof.
  set (res := run wc_ascii wc_Reduce demo_input demo_addr id false race_run (init_sys ["x"] 1)).
  assert ((λ s, (Done (s_coord s), s_log s)) <$> res = Some (true, [(0, [])])) as Hres
    by (by vm_compute).
  destruct res as [s|] eqn:Hrun; [|done]. injection Hres as Hdone Hlog.
  exists s. split; [by apply run_sound in Hrun|]. split; [done|]. split; [done|].
  by vm_compute.
Qed.



(** C31: The output file itself is not safe either, because it is created in
    place and not renamed into place: when two workers share a directory and
    both hold the same reduce task (the first one was slow), the job can be
    reported done and the output file be empty, truncated by the slow
    worker after the fast one had finished. This holds even with replies
    encoded under the lock. *)
Theorem straggler_truncates_output :
  ∃ s, sys_reachable wc_ascii wc_Reduce demo_input (λ _, "127.0.0.1:") (λ _, 0%nat) true ["x"] 1 s ∧
    Done (s_coord s) = true ∧
    s_log s = [(0, [mkKV "a" "2"; mkKV "b" "1"])] ∧
    dir_of s 0 !! reduceOutputFileName 0 = Some "".
Proof.
  set (acts := [AJoin 0; AJoin 1; ARequest 0 0; AMap 0; AReport 0;
    ARequest 0 1; AReduce 0; AFetchLocal 0;
    ARequest 1 (1 + taskTimeout); AReduce 1; AFetchLocal 1; ACreate 1; AWritten 1; AReport 1;
    ACreate 0]).
  set (res := run wc_ascii wc_Reduce demo_input (λ _, "127.0.0.1:") (λ _, 0%nat) true acts
                (init_sys ["x"] 1)).
  assert ((λ s, (Done (s_coord s), s_log s, dir_of s 0 !! reduceOutputFileName 0)) <$> res =
    Some (true, [(0, [mkKV "a" "2"; mkKV "b" "1"])], Some "")) as Hres by (by vm_compute).
  destruct res as [s|] eqn:Hrun; [|done]. injection Hres as Hdone Hlog Hfile.
  exists s. split; [by apply run_sound in Hrun|].
  split; [exact Hdone|]. split; [exact Hlog|exact Hfile].
Qed.
