(* ===== verification/MrLive.v ===== *)
(** * Package [mr]: the job can always be finished

    Recovery of the whole system. Whatever workers did before (crashed with
    tasks in hand, vanished with the map outputs they had produced, left half
    of a directory behind), one worker that joins and meets no failure of its
    own finishes the job, without any step of another worker: tasks in the
    hands of lost workers time out and are handed out again, and a map output
    that cannot be read is reported missing and produced again.

    The progress measure is the number of items not yet [achieved]: map tasks
    whose output the worker itself holds, and completed reduce tasks. No step
    of the worker takes an achieved item away, and every round of its loop
    that does not end in a completed job adds one, or resets a map task whose
    round then adds one. *)
From S2P Require Import Prelude GoBase MrTypes MrCoordinator MrCoordinatorThm MrWorker.
From S2P Require Import MrWorkerThm Json MrWorkerIO MrSequential MrSystem MrSystemThm MrApps MrRun MrJob.

(** ** Clocks and temporary names *)

Lemma late_bound {A} (f : A → Z) (m : gmap Z A) :
  ∃ T, ∀ k x, m !! k = Some x → f x ≤ T.
Proof.
  induction m as [|k x m Hk [T IH]] using map_ind; [by exists 0|].
  exists (Z.max T (f x)). intros k' x'. rewrite lookup_insert. case_decide.
  - intros [= <-]. lia.
  - intros Hx'. specialize (IH _ _ Hx'). lia.
Qed.

(** A task that is not done is handed out once the clock is late enough. *)
Lemma shouldAssign_late T t :
  State t ≠ TaskStateNone → State t ≠ TaskStateDone → AssignedAt t + taskTimeout ≤ T →
  shouldAssignTask T t = true.
Proof.
  intros Hn Hd Hle. rewrite /shouldAssignTask /IsTimedOut.
  destruct (State t); try done. simpl. apply bool_decide_eq_true_2.
  apply time_Since_ge; [done|lia].
Qed.

(** A clock reading at which no assignment holds any more. *)
Lemma late_clock c : coord_wf c →
  ∃ T, (∀ id mt, mapTasks c !! id = Some mt → State (mt_Task mt) ≠ TaskStateDone →
          shouldAssignTask T (mt_Task mt) = true) ∧
       (∀ id rt, reduceTasks c !! id = Some rt → State (rt_Task rt) ≠ TaskStateDone →
          shouldAssignTask T (rt_Task rt) = true).
Proof.
  intros Hwf.
  destruct (late_bound (λ mt, AssignedAt (mt_Task mt) + taskTimeout) (mapTasks c)) as [T1 H1].
  destruct (late_bound (λ rt, AssignedAt (rt_Task rt) + taskTimeout) (reduceTasks c)) as [T2 H2].
  exists (Z.max T1 T2). split; intros id x Hx Hd.
  - apply shouldAssign_late; [by eapply wf_map|done|]. specialize (H1 _ _ Hx). simpl in H1. lia.
  - apply shouldAssign_late; [by eapply wf_reduce|done|]. specialize (H2 _ _ Hx). simpl in H2. lia.
Qed.

(** [os.CreateTemp] can always find a name. *)
Lemma temp_free (fs : FS) : ∃ u, fs !! ("mr-bucket-" +:+ u) = None.
Proof.
  set (rest := λ kx : string * string,
    str_of_list <$> strip_prefix (str_to_list "mr-bucket-") (str_to_list kx.1)).
  exists (fresh (omap rest (map_to_list fs))). apply eq_None_not_Some. intros [x Hx].
  apply (infinite_is_fresh (omap rest (map_to_list fs))), list_elem_of_omap.
  eexists. split; [by apply elem_of_map_to_list|].
  rewrite /rest /fst str_to_list_app strip_prefix_app. cbn [fmap option_fmap option_map].
  by rewrite str_of_to_list.
Qed.

(** ** A map task run without failures *)

Section map_ok.
Context `{KVCodec}.

Definition write_ok (u : string) : WriteEnv :=
  {| we_tmp := Some ("mr-bucket-" +:+ u); we_encode_fails_at := None;
     we_close_ok := true; we_rename_ok := true |}.

Lemma writeBuckets_loop_ok u id bs : ∀ bucket fs,
  ∃ fs', writeBuckets_loop (λ _, write_ok u) fs id bucket bs = (fs', None).
Proof. induction bs as [|kvs bs IH]; intros bucket fs; simpl; [by eexists|apply IH]. Qed.

Lemma runMapTask_ok u fs t data mapf :
  0 < md_Buckets data → ∃ fs', runMapTask (λ _, write_ok u) fs t data mapf = Some (fs', None).
Proof.
  intros Hn. rewrite /runMapTask bucketContents_eq //. cbn [mbind option_bind].
  destruct (writeBuckets_loop_ok u (ID t)
    ((λ b, bucket_ref (md_Buckets data) b (mapf (md_Key data) (md_Content data))) <$>
       seqZ 0 (md_Buckets data)) 0 fs) as [fs' Hfs].
  exists fs'. by rewrite /writeBucketsToFiles Hfs.
Qed.
End map_ok.

(** ** Items achieved by a worker *)

Section achieved.
Context (addr : string) (n : Z).

(** Map task [id] is done, recorded at [addr], and its files are in [fs]. *)
Record good (c : Coordinator) (fs : FS) (id : TaskID) : Prop := {
  good_done : ∃ mt, mapTasks c !! id = Some mt ∧ State (mt_Task mt) = TaskStateDone;
  good_addr : ∀ rid rt, reduceTasks c !! rid = Some rt → rt_MapTaskOutputs rt !! id = Some addr;
  good_files : ∀ b, 0 ≤ b < n → is_Some (fs !! taskIntermediateFileName id b);
}.

Definition reduced (c : Coordinator) (rid : TaskID) : Prop :=
  ∃ rt, reduceTasks c !! rid = Some rt ∧ State (rt_Task rt) = TaskStateDone.

(** Nothing achieved is lost. *)
Definition keeps (c : Coordinator) (fs : FS) (c' : Coordinator) (fs' : FS) : Prop :=
  (∀ id, good c fs id → good c' fs' id) ∧ (∀ rid, reduced c rid → reduced c' rid).

Lemma keeps_trans c fs c1 fs1 c2 fs2 :
  keeps c fs c1 fs1 → keeps c1 fs1 c2 fs2 → keeps c fs c2 fs2.
Proof. intros [H1 H2] [H3 H4]. split; eauto. Qed.

Lemma keeps_files c fs fs' :
  (∀ id b, is_Some (fs !! taskIntermediateFileName id b) →
           is_Some (fs' !! taskIntermediateFileName id b)) → keeps c fs c fs'.
Proof. intros Hfs. split; [|done]. intros id []. split; eauto. Qed.

Lemma keeps_mark_map now id mt c fs :
  mapTasks c !! id = Some mt → State (mt_Task mt) ≠ TaskStateDone →
  keeps c fs (mark_map_running now id c) fs.
Proof.
  intros Hid Hst. split; [|done]. intros id' [(mt' & Hmt' & Hst') Ha Hf]. split; [|done..].
  exists mt'. split; [|done]. simpl. rewrite lookup_alter_ne //. intros ->. by simplify_eq.
Qed.

Lemma keeps_mark_reduce now rid rt c fs :
  reduceTasks c !! rid = Some rt → State (rt_Task rt) ≠ TaskStateDone →
  keeps c fs (mark_reduce_running now rid c) fs.
Proof.
  intros Hid Hst. split.
  - intros id [Hd Ha Hf]. split; [done| |done]. intros rid' rt'. simpl. rewrite lookup_alter.
    case_decide; [|by apply Ha]. intros (rt0 & Hrt0 & ->)%fmap_Some. by eapply (Ha _ rt0).
  - intros rid' (rt' & Hrt' & Hst'). exists rt'. split; [|done]. simpl.
    rewrite lookup_alter_ne //. intros ->. by simplify_eq.
Qed.

(** Completing a map task at [addr] after its files have been written. *)
Lemma keeps_complete_map t mt c fs :
  Type_ t = TaskMap → mapTasks c !! ID t = Some mt → ID (mt_Task mt) = ID t →
  State (mt_Task mt) ≠ TaskStateDone →
  (∀ b, 0 ≤ b < n → is_Some (fs !! taskIntermediateFileName (ID t) b)) →
  ∃ c', ReportTaskCompletion {| rc_Task := Some t; rc_WorkerAddress := addr |} c = Some c' ∧
    keeps c fs c' fs ∧ good c' fs (ID t).
Proof.
  intros Hty Hmt HID Hst Hfs. eexists. split; [reflexivity|].
  rewrite Hty Hmt bool_decide_eq_false_2 //= HID. split.
  - split.
    + intros id [(mt' & Hmt' & Hst') Ha Hf]. assert (ID t ≠ id) by (intros Heq; rewrite Heq in Hmt; by simplify_eq).
      split; simpl; [|intros rid rt'|done].
      * exists mt'. by rewrite lookup_insert_ne.
      * rewrite lookup_fmap. intros (rt & Hrt & ->)%fmap_Some. simpl.
        rewrite lookup_insert_ne //. by eapply (Ha _ rt).
    + intros rid (rt & Hrt & Hs). exists (upd_outputs (insert (ID t) addr) rt).
      split; [|done]. by rewrite /= lookup_fmap Hrt.
  - split; simpl; [|intros rid rt'|done].
    + eexists. by rewrite lookup_insert_eq.
    + rewrite lookup_fmap. intros (rt & Hrt & ->)%fmap_Some. simpl. by rewrite lookup_insert_eq.
Qed.

Lemma keeps_complete_reduce t rt c fs :
  Type_ t = TaskReduce → reduceTasks c !! ID t = Some rt →
  ∃ c', ReportTaskCompletion {| rc_Task := Some t; rc_WorkerAddress := addr |} c = Some c' ∧
    keeps c fs c' fs ∧ reduced c' (ID t).
Proof.
  intros Hty Hrt. eexists. split; [reflexivity|]. rewrite Hty Hrt /=. split; [split|].
  - intros id [Hd Ha Hf]. split; simpl; [done|intros rid rt'|done].
    rewrite lookup_insert. case_decide; [|by apply Ha]. intros [= <-]. by eapply (Ha _ _ Hrt).
  - intros rid (rt' & Hrt' & Hs). rewrite /reduced /= lookup_insert.
    case_decide; [by eexists|by exists rt'].
  - eexists. by rewrite /= lookup_insert_eq.
Qed.

(** Resetting a map task that the worker does not hold itself. *)
Lemma keeps_missing id c fs :
  coord_wf c → ¬ good c fs id →
  keeps c fs (ReportMissingMapOutputs {| rm_MapTaskID := id |} c) fs.
Proof.
  intros Hwf Hng. rewrite /ReportMissingMapOutputs /=.
  destruct (mapTasks c !! id) as [mt|] eqn:Hmt; [|done]. case_bool_decide; [|done].
  destruct (wf_map _ Hwf _ _ Hmt) as (HID & _ & _). rewrite HID. split.
  - intros id' Hg. assert (id ≠ id') by (by intros ->).
    destruct Hg as [(mt' & Hmt' & Hst') Ha Hf]. split; simpl; [|intros rid rt'|done].
    + exists mt'. by rewrite lookup_insert_ne.
    + rewrite lookup_fmap. intros (rt & Hrt & ->)%fmap_Some. simpl.
      rewrite lookup_delete_ne //. by eapply (Ha _ rt).
  - intros rid (rt & Hrt & Hs). exists (upd_outputs (delete id) rt). split; [|done].
    by rewrite /= lookup_fmap Hrt.
Qed.
End achieved.

(** ** A worker that runs alone *)

Section solo.
Context `{KVCodecLaws}.
Context (mapf : string → string → list KeyValue) (reducef : string → list string → string).
Context (input : string → option string).
Context (w_addr : nat → string) (w_dir : nat → nat).
Context (files : list string) (n : Z).
Context (locked : bool) (w : nat).

Abbreviation step := (sys_step mapf reducef input w_addr w_dir locked).
Abbreviation inv := (sys_inv mapf reducef input files n locked).
Abbreviation wfs := (λ s : Sys, dir_of s (w_dir w)).

(** The worker stays alive, and gives up a fetch only if nobody can serve it. *)
Definition no_failure (s : Sys) (p : WPhase) : Prop :=
  match p with
  | WDead => False
  | WReportMissing id => ∀ t b addr todo acc kvs,
      s_phase s !! w = Some (WFetching t b ((id, addr) :: todo) acc) →
      ¬ fetched w_addr w_dir s w b id addr kvs
  | _ => True
  end.

(** A step of the system that is a step of [w], without a failure of [w]. *)
Definition solo_step (s s' : Sys) : Prop :=
  step s s' ∧ (∀ w', w' ≠ w → s_phase s' !! w' = s_phase s !! w') ∧
  ∃ p, s_phase s' !! w = Some p ∧ no_failure s p.

Lemma solo_intro s s1 p :
  step s (set_phase w p s1) → s_phase s1 = s_phase s → no_failure s p →
  solo_step s (set_phase w p s1).
Proof.
  intros Hs Hph Hp. split; [done|]. split.
  - intros w' Hw'. by rewrite /= lookup_insert_ne // Hph.
  - exists p. by rewrite /= lookup_insert_eq.
Qed.

Lemma solo_others s s' w' :
  rtc solo_step s s' → w' ≠ w → s_phase s' !! w' = s_phase s !! w'.
Proof.
  induction 1 as [s|s1 s2 s3 (_ & Ho & _) _ IH]; [done|]. intros Hw'.
  rewrite IH //. by apply Ho.
Qed.

Lemma phase_set p s : s_phase (set_phase w p s) !! w = Some p.
Proof. by rewrite /= lookup_insert_eq. Qed.

Lemma set_phase_set p q s : set_phase w p (set_phase w q s) = set_phase w p s.
Proof. by rewrite /set_phase /= insert_insert_eq. Qed.

Lemma dir_set fs s : dir_of (set_dir (w_dir w) fs s) (w_dir w) = fs.
Proof. by rewrite /dir_of /= lookup_insert_eq. Qed.

Hypothesis Hn : 0 < n.
Hypothesis Hfits : Z.of_nat (length files) + n < 2 ^ 63.
Hypothesis Hread : ∀ f, f ∈ files → is_Some (input f).
Hypothesis Hvalid : ∀ f content, input f = Some content → Forall codec_valid (mapf f content).

Lemma solo_inv s s' : rtc solo_step s s' → inv s → inv s'.
Proof using Hn Hfits Hread Hvalid.
  induction 1 as [s|s1 s2 s3 (Hs & _) _ IH]; [done|]. intros Hinv. apply IH.
  by eapply sys_step_inv.
Qed.

(** A request that is answered, encoded at once or later. *)
Lemma solo_request s T c' r :
  s_phase s !! w = Some WIdle → RequestTask (run_env input T (s_coord s)) (s_coord s) = (c', inr r) →
  rtc solo_step s (set_phase w (WHolding (encode_reply c' r)) (set_coord c' s)).
Proof.
  intros Hw Hreq.
  assert (solo_step s (set_phase w (if locked then WHolding (encode_reply c' r) else WPending r)
            (set_coord c' s))) as Hstep.
  { apply solo_intro; [|done|by destruct locked].
    eapply (st_request _ _ _ _ _ _ s w (run_env input T (s_coord s))); [done| |done|done].
    split; apply range_order_default. }
  destruct locked; [by apply rtc_once|].
  eapply rtc_l; [exact Hstep|]. apply rtc_once.
  rewrite -(set_phase_set (WHolding _) (WPending r)).
  apply solo_intro; [|done|done].
  change (encode_reply c' r) with
    (encode_reply (s_coord (set_phase w (WPending r) (set_coord c' s))) r).
  apply st_encode, phase_set.
Qed.

(** ** A round with a map task *)

Lemma request_map s :
  inv s → allMapTasksDoneLocked (s_coord s) = false →
  ∃ T id mt content, mapTasks (s_coord s) !! id = Some mt ∧
    State (mt_Task mt) ≠ TaskStateDone ∧ input (mt_File mt) = Some content ∧
    RequestTask (run_env input T (s_coord s)) (s_coord s) =
      (mark_map_running T id (s_coord s),
       inr {| rr_Task := PtrMap id; rr_MapData := Some (mkMapTaskData (mt_File mt) content n);
              rr_ReduceData := None |}).
Proof using Hn Hfits Hread.
  intros Hinv Hall.
  destruct (late_clock (s_coord s)) as (T & Hlate & _); [by apply Hinv|]. exists T.
  destruct (RequestTask (run_env input T (s_coord s)) (s_coord s)) as [c' out] eqn:Hreq.
  pose proof Hreq as [(id & mt & Hid & Hsh & -> & ->)|[(id & rt & _ & _ & Hd & _)|
    (_ & _ & Hpick & _)]]%RequestTask_inv; [|congruence|].
  - exists id, mt. simpl.
    assert (map_skel (MakeCoordinator 0 files n).2 !! id = Some (mt_File mt, mt_Buckets mt))
      as Hsk by (rewrite -(inv_map_skel _ _ _ _ _ _ _ Hinv) /map_skel lookup_fmap Hid //).
    apply map_skel_lookup in Hsk as (-> & i & Hf & _); [|done..].
    destruct (Hread (mt_File mt)) as [content Hc]; [by apply list_elem_of_lookup; exists i|].
    exists content. rewrite Hc. split; [done|]. split; [by eapply shouldAssign_not_done|done].
  - exfalso. rewrite pickMap_None in Hpick; [|apply range_order_default].
    apply not_true_iff_false in Hall. apply Hall, allMapTasksDone_true.
    intros id mt Hid. destruct (decide (State (mt_Task mt) = TaskStateDone)); [done|].
    specialize (Hpick _ _ Hid). simpl in Hpick. rewrite (Hlate _ _ Hid) // in Hpick.
Qed.

(** Running the task: the directory it leaves. *)
Lemma solo_map s t f content :
  s_phase s !! w = Some (WHolding (mkTaskReply (Some t) (Some (mkMapTaskData f content n)) None)) →
  Type_ t = TaskMap → 0 ≤ ID t →
  ∃ fs', rtc solo_step s (set_phase w (WReport t) (set_dir (w_dir w) fs' s)) ∧
    (∀ id b, is_Some (wfs s !! taskIntermediateFileName id b) →
             is_Some (fs' !! taskIntermediateFileName id b)) ∧
    (∀ b, 0 ≤ b < n → is_Some (fs' !! taskIntermediateFileName (ID t) b)).
Proof using Hn Hfits.
  intros Hw Hty Hpos. destruct (temp_free (wfs s)) as [u Hu].
  destruct (runMapTask_ok u (wfs s) t (mkMapTaskData f content n) mapf Hn) as [fs' Hrun].
  assert (∀ b : Z, env_fresh (write_ok u) (wfs s)) as Hfresh.
  { intros _ tmp [= <-]. split; [done|by eexists]. }
  exists fs'. split.
  { apply rtc_once, solo_intro; [|done|done].
    by eapply (st_map _ _ _ _ _ _ s w _ t _ (λ _, write_ok u) fs' None);
      [..|intros b; apply Hfresh|exact Hrun]. }
  apply runMapTask_files in Hrun as [Hother Hfs]; [|done..]. simpl in Hother, Hfs.
  assert (∀ b, 0 ≤ b < n → is_Some (fs' !! taskIntermediateFileName (ID t) b)) as Hnew.
  { intros b Hb. by destruct (Hfs b Hb) as [->|[? _]]. }
  split; [|done]. intros id b Hold.
  destruct (decide (taskIntermediateFileName id b ∈ taskIntermediateFileName (ID t) <$> seqZ 0 n))
    as [(b' & -> & Hb'%elem_of_seqZ)%list_elem_of_fmap|Hno]; [apply Hnew; lia|].
  rewrite Hother //. intros b' Hb' Heq. apply Hno. rewrite Heq.
  apply list_elem_of_fmap. exists b'. split; [done|]. apply elem_of_seqZ. lia.
Qed.

(** While a map task is not done, the next round of the worker completes one. *)
Lemma map_round s :
  inv s → s_phase s !! w = Some WIdle → allMapTasksDoneLocked (s_coord s) = false →
  ∃ s' id, rtc solo_step s s' ∧ s_phase s' !! w = Some WIdle ∧
    keeps (w_addr w) n (s_coord s) (wfs s) (s_coord s') (wfs s') ∧ is_map_id files n id ∧
    ¬ good (w_addr w) n (s_coord s) (wfs s) id ∧ good (w_addr w) n (s_coord s') (wfs s') id.
Proof using Hn Hfits Hread.
  intros Hinv Hw Hall.
  destruct (request_map s Hinv Hall) as (T & id & mt & content & Hid & Hst & _ & Hreq).
  apply solo_request in Hreq; [|done]. set (c1 := mark_map_running T id (s_coord s)) in *.
  destruct (wf_map _ (inv_wf _ _ _ _ _ _ _ Hinv) _ _ Hid) as (HID & Hty & _).
  set (t := MarkRunning T (mt_Task mt)).
  assert (mapTasks c1 !! id = Some (upd_map_Task (MarkRunning T) mt)) as Hid1
    by rewrite /c1 /= lookup_alter_eq Hid //.
  assert (is_map_id files n id) as Hmid.
  { eapply skel_is_map_id; [by eapply inv_map_skel|]. by eexists. }
  rewrite /encode_reply /= Hid1 /= -/t in Hreq.
  set (s1 := set_phase w _ (set_coord c1 s)) in Hreq.
  destruct (solo_map s1 t (mt_File mt) content) as (fs' & Hmap & Hkeep & Hnew);
    [apply phase_set|done|rewrite /= HID; by eapply is_map_id_nonneg|].
  rewrite /= HID in Hnew.
  destruct (keeps_complete_map (w_addr w) n t (upd_map_Task (MarkRunning T) mt) c1 fs')
    as (c2 & Hrep & Hk2 & Hgood); [done|by rewrite /= HID|done|done|by rewrite /= HID|].
  rewrite /= HID in Hgood.
  set (s2 := set_phase w WIdle (set_coord c2 (set_phase w (WReport t) (set_dir (w_dir w) fs' s1)))).
  assert (dir_of s2 (w_dir w) = fs') as Hd by exact (dir_set fs' s1).
  exists s2, id.
  split; [|split; [apply phase_set|]].
  { etrans; [exact Hreq|]. etrans; [exact Hmap|].
    apply rtc_once, solo_intro; [|done|done]. by eapply st_report; [apply phase_set|]. }
  cbv beta. rewrite Hd. split; [|split; [done|split; [|done]]].
  - eapply keeps_trans; [|exact Hk2]. eapply keeps_trans; [by eapply keeps_mark_map|].
    by apply keeps_files.
  - intros [(mt' & Hmt' & Hst') _ _]. simplify_eq.
Qed.

(** ** A round with a reduce task *)

Lemma set_phase_id p s : s_phase s !! w = Some p → set_phase w p s = s.
Proof. intros Hw. destruct s. by rewrite /set_phase /= insert_id. Qed.

(** Whether anybody can serve a fetch. *)
Lemma fetched_dec s b id addr :
  (∃ kvs, fetched w_addr w_dir s w b id addr kvs) ∨
  (∀ kvs, ¬ fetched w_addr w_dir s w b id addr kvs).
Proof.
  destruct (decide (addr = w_addr w)) as [Ha|Ha].
  { destruct (readBucketFile true (wfs s) id b) as [e|kvs] eqn:Hr.
    - right. intros kvs Hf. destruct Hf; congruence.
    - left. exists kvs. by apply fetched_local. }
  set (serves := λ wp : nat * WPhase,
    bool_decide (w_addr wp.1 = addr) && (match wp.2 with WDead => false | _ => true end) &&
    (match FetchBucket true (dir_of s (w_dir wp.1)) {| fb_MapTaskID := id; fb_Bucket := b |} with
     | inl _ => false | inr _ => true end)).
  destruct (find_first serves (map_to_list (s_phase s))) as [[w' p]|] eqn:Hf.
  - apply find_first_Some in Hf as [Hin%elem_of_map_to_list Hs].
    apply andb_true_iff in Hs as [[Hw' Hp]%andb_true_iff Hr]. apply bool_decide_eq_true in Hw'.
    simpl in Hw', Hp, Hr. left.
    destruct (FetchBucket _ _ _) as [e|reply] eqn:Hfb; [done|].
    eexists. eapply fetched_remote; [done..| |done]. by destruct p.
  - right. intros kvs Hfe. destruct Hfe as [kvs ? _|w' reply p _ Hw' Hp Hnd Hr]; [done|].
    rewrite find_first_None in Hf. specialize (Hf (w', p)).
    rewrite /serves /= Hr bool_decide_eq_true_2 // andb_true_r in Hf.
    assert (match p with WDead => false | _ => true end = true) as Hl by (by destruct p).
    rewrite Hl in Hf. by discriminate Hf; apply elem_of_map_to_list.
Qed.

(** The loop of [runReduceTask] gets to its end, or gives up at a map task
    whose output is not readable in the worker's own directory. *)
Lemma fetch_loop t b todo : ∀ s acc,
  s_phase s !! w = Some (WFetching t b todo acc) →
  (∃ acc', rtc solo_step s (set_phase w (WFetching t b [] acc') s)) ∨
  (∃ id addr, (id, addr) ∈ todo ∧ rtc solo_step s (set_phase w (WReportMissing id) s) ∧
     (addr = w_addr w → ∀ kvs, readBucketFile true (wfs s) id b ≠ inr kvs)).
Proof.
  induction todo as [|[id addr] todo IH]; intros s acc Hw.
  { left. exists acc. by rewrite set_phase_id. }
  destruct (fetched_dec s b id addr) as [[kvs Hf]|Hno].
  - set (s1 := set_phase w (WFetching t b todo (acc ++ kvs)) s).
    assert (solo_step s s1) as Hs.
    { apply solo_intro; [|done|done]. by eapply st_fetch. }
    destruct (IH s1 (acc ++ kvs)) as [[acc' Hr]|(id' & addr' & Hin & Hr & Hbad)];
      [apply phase_set|left; exists acc'|right; exists id', addr'];
      rewrite set_phase_set in Hr.
    + by eapply rtc_l.
    + split; [by right|]. split; [by eapply rtc_l|]. done.
  - right. exists id, addr. split; [left|]. split.
    + apply rtc_once, solo_intro; [|done|].
      * by eapply st_fetch_fail.
      * intros t' b' addr' todo' acc' kvs Hw'. rewrite Hw in Hw'. injection Hw' as -> -> -> -> ->.
        apply Hno.
    + intros Ha kvs Hr. by eapply (Hno kvs), fetched_local.
Qed.

Lemma request_reduce s :
  inv s → allMapTasksDoneLocked (s_coord s) = true →
  allReduceTasksDoneLocked (s_coord s) = false →
  ∃ T rid rt, reduceTasks (s_coord s) !! rid = Some rt ∧ State (rt_Task rt) ≠ TaskStateDone ∧
    RequestTask (run_env input T (s_coord s)) (s_coord s) =
      (mark_reduce_running T rid (s_coord s),
       inr {| rr_Task := PtrReduce rid; rr_MapData := None;
              rr_ReduceData := Some (rt_Bucket rt, rid) |}).
Proof.
  intros Hinv Hall Hred.
  destruct (late_clock (s_coord s)) as (T & _ & Hlate); [by apply Hinv|]. exists T.
  destruct (RequestTask (run_env input T (s_coord s)) (s_coord s)) as [c' out] eqn:Hreq.
  pose proof Hreq as [(id & mt & Hid & Hsh & _)|[(rid & rt & Hrid & Hsh & _ & -> & ->)|
    (_ & _ & _ & Hpick)]]%RequestTask_inv.
  - exfalso. apply (shouldAssign_not_done _ _ Hsh). rewrite allMapTasksDone_true in Hall. eauto.
  - exists rid, rt. split; [done|]. split; [by eapply shouldAssign_not_done|done].
  - exfalso. specialize (Hpick Hall). rewrite pickReduce_None in Hpick; [|apply range_order_default].
    apply not_true_iff_false in Hred. apply Hred, allReduceTasksDone_true.
    intros id rt Hid. destruct (decide (State (rt_Task rt) = TaskStateDone)); [done|].
    specialize (Hpick _ _ Hid). simpl in Hpick. rewrite (Hlate _ _ Hid) // in Hpick.
Qed.

(** Creating and writing the output file, then reporting. *)
Lemma solo_output s t b acc rt :
  s_phase s !! w = Some (WFetching t b [] acc) →
  Type_ t = TaskReduce → reduceTasks (s_coord s) !! ID t = Some rt →
  ∃ s', rtc solo_step s s' ∧ s_phase s' !! w = Some WIdle ∧
    keeps (w_addr w) n (s_coord s) (wfs s) (s_coord s') (wfs s') ∧ reduced (s_coord s') (ID t).
Proof.
  intros Hw Hty Hrt.
  set (out := reduceContents (map_to_list (groupByKey acc)).*1 (groupByKey acc) reducef).
  set (s1 := set_phase w (WWriting t b out)
    (set_dir (w_dir w) (<[reduceOutputFileName b := ""]> (wfs s)) s)).
  assert (solo_step s s1) as H1.
  { apply solo_intro; [|done|done]. eapply st_create; [done|]. apply range_order_default. }
  set (s2 := set_phase w (WReport t) (add_log b out (set_dir (w_dir w)
    (<[reduceOutputFileName b := write_lines (λ _, true) 0 out]> (wfs s1)) s1))).
  assert (solo_step s1 s2) as H2.
  { apply solo_intro; [|done|done]. apply st_written, phase_set. }
  destruct (keeps_complete_reduce (w_addr w) n t rt (s_coord s2) (wfs s2)) as (c' & Hrep & Hk & Hr);
    [done..|].
  exists (set_phase w WIdle (set_coord c' s2)). split; [|split; [apply phase_set|]].
  { eapply rtc_l; [exact H1|]. eapply rtc_l; [exact H2|].
    apply rtc_once, solo_intro; [|done|done]. by eapply st_report; [apply phase_set|]. }
  split; [|done]. eapply keeps_trans; [|exact Hk]. apply keeps_files. intros id b' Hold.
  assert (∀ (fs : FS) content, is_Some (fs !! taskIntermediateFileName id b') →
    is_Some (<[reduceOutputFileName b := content]> fs !! taskIntermediateFileName id b')) as Hins.
  { intros fs content Hfs. rewrite lookup_insert. by case_decide. }
  rewrite /s2 /s1 /dir_of /= !lookup_insert_eq /=. by do 2 apply Hins.
Qed.

(** An output the worker holds itself can be read. *)
Lemma good_readable s c id b :
  inv s → is_map_id files n id → 0 ≤ b < n → good (w_addr w) n c (wfs s) id →
  readBucketFile true (wfs s) id b = inr (map_out mapf input files n b id).
Proof using Hn Hfits Hread Hvalid.
  intros Hinv Hid Hb Hg. destruct (good_files _ _ _ _ _ Hg b Hb) as [content Hc].
  apply readBucketFile_written; [by apply map_out_valid|]. rewrite Hc. f_equal.
  revert Hc. rewrite /dir_of. destruct (s_dirs s !! w_dir w) as [fs|] eqn:Hd; [|done].
  by eapply inv_files.
Qed.

Lemma missing_undone c id mt :
  mapTasks c !! id = Some mt → State (mt_Task mt) = TaskStateDone →
  allMapTasksDoneLocked (ReportMissingMapOutputs {| rm_MapTaskID := id |} c) = false.
Proof.
  intros Hmt Hst. apply not_true_iff_false. rewrite allMapTasksDone_true. intros Hall.
  rewrite /ReportMissingMapOutputs /= Hmt bool_decide_eq_true_2 // in Hall.
  specialize (Hall id _ (lookup_insert_eq _ _ _)). done.
Qed.

(** When all map tasks are done but not all reduce tasks, the next round
    completes a reduce task, or resets a map task whose output is gone. *)
Lemma reduce_round s :
  inv s → s_phase s !! w = Some WIdle → allMapTasksDoneLocked (s_coord s) = true →
  allReduceTasksDoneLocked (s_coord s) = false →
  ∃ s', rtc solo_step s s' ∧ s_phase s' !! w = Some WIdle ∧
    keeps (w_addr w) n (s_coord s) (wfs s) (s_coord s') (wfs s') ∧
    (allMapTasksDoneLocked (s_coord s') = false ∨
     ∃ rid, is_Some (reduceTasks (s_coord s) !! rid) ∧ ¬ reduced (s_coord s) rid ∧
       reduced (s_coord s') rid).
Proof using Hn Hfits Hread Hvalid.
  intros Hinv Hw Hall Hred.
  destruct (request_reduce s Hinv Hall Hred) as (T & rid & rt & Hrid & Hst & Hreq).
  apply solo_request in Hreq; [|done]. set (c1 := mark_reduce_running T rid (s_coord s)) in *.
  destruct (wf_reduce _ (inv_wf _ _ _ _ _ _ _ Hinv) _ _ Hrid) as (HID & Hty & _).
  set (t := MarkRunning T (rt_Task rt)).
  assert (reduceTasks c1 !! rid = Some (upd_reduce_Task (MarkRunning T) rt)) as Hrid1
    by rewrite /c1 /= lookup_alter_eq Hrid //.
  rewrite /encode_reply /= Hrid1 /= -/t in Hreq.
  set (s1 := set_phase w _ (set_coord c1 s)) in Hreq.
  set (outs := rt_MapTaskOutputs rt) in *.
  set (s2 := set_phase w (WFetching t (rt_Bucket rt) (range_visit (map_to_list outs).*1 outs) []) s1).
  assert (rtc solo_step s s2) as H2.
  { etrans; [exact Hreq|]. apply rtc_once, solo_intro; [|done|done].
    eapply (st_reduce _ _ _ _ _ _ s1 w _ t (mkReduceTaskData (rt_Bucket rt) outs));
      [apply phase_set|done..|apply range_order_default]. }
  assert (keeps (w_addr w) n (s_coord s) (wfs s) c1 (wfs s)) as Hk1 by (by eapply keeps_mark_reduce).
  destruct (fetch_loop _ _ _ s2 [] (phase_set _ _)) as [[acc H3]|(id & addr & Hin & H3 & Hbad)].
  - destruct (solo_output (set_phase w (WFetching t (rt_Bucket rt) [] acc) s2) t (rt_Bucket rt) acc
      (upd_reduce_Task (MarkRunning T) rt)) as (s' & H4 & Hidle & Hk & Hdone);
      [apply phase_set|done|by rewrite /= HID|].
    exists s'. split; [by do 2 (etrans; [eassumption|])|]. split; [done|].
    split; [by eapply keeps_trans|]. right. exists rid. rewrite /= HID in Hdone.
    split; [by eexists|]. split; [|done]. intros (rt' & Hrt' & ?). by simplify_eq.
  - apply elem_of_range_visit in Hin as [_ Haddr].
    destruct (proj1 (wf_outputs _ (inv_wf _ _ _ _ _ _ _ Hinv) _ _ id Hrid)) as (mt & Hmt & Hmst);
      [by eexists|].
    set (s3 := set_phase w (WReportMissing id) s2) in H3.
    exists (set_phase w WIdle (set_coord
      (ReportMissingMapOutputs {| rm_MapTaskID := id |} (s_coord s3)) s3)).
    split; [|split; [apply phase_set|split; [|left; by eapply missing_undone]]].
    { do 2 (etrans; [eassumption|]). apply rtc_once, solo_intro; [|done|done].
      apply st_missing, phase_set. }
    eapply keeps_trans; [exact Hk1|]. apply (keeps_missing (w_addr w) n id c1 (wfs s)).
    { apply (inv_wf _ _ _ _ _ _ _ (solo_inv _ _ H2 Hinv)). }
    intros Hg. assert (addr = w_addr w) as Ha.
    { pose proof (good_addr _ _ _ _ _ Hg _ _ Hrid1) as Hg'. simpl in Hg'. fold outs in Hg'. congruence. }
    eapply (Hbad Ha), (good_readable s c1); [done| | |done].
    + eapply skel_is_map_id; [by eapply inv_map_skel|]. by eexists.
    + eapply reduce_skel_lookup; [done..|]. eapply skel_bucket; [by eapply inv_reduce_skel|done].
Qed.

(** ** Rounds until the job is done *)

(** The items of the job, and whether one is achieved. *)
Definition item : Type := TaskID + TaskID.
Definition achieved (s : Sys) (x : item) : Prop :=
  match x with
  | inl id => good (w_addr w) n (s_coord s) (wfs s) id
  | inr rid => reduced (s_coord s) rid
  end.
Definition items (s : Sys) : list item :=
  (inl <$> (map_to_list (mapTasks (s_coord s))).*1) ++
  (inr <$> (map_to_list (reduceTasks (s_coord s))).*1).

Lemma elem_of_items s x :
  x ∈ items s ↔ match x with
                | inl id => is_Some (mapTasks (s_coord s) !! id)
                | inr rid => is_Some (reduceTasks (s_coord s) !! rid)
                end.
Proof.
  rewrite /items elem_of_app !list_elem_of_fmap.
  destruct x as [id|id]; rewrite -(range_order_elem _ _ id (range_order_default _)).
  - split; [|by left; exists id]. intros [(? & [= ->] & ?)|(? & ? & ?)]; done.
  - split; [|by right; exists id]. intros [(? & ? & ?)|(? & [= ->] & ?)]; done.
Qed.

(** One round, or two: everything achieved stays, and one more item is. *)
Lemma solo_round s :
  inv s → s_phase s !! w = Some WIdle → Done (s_coord s) = false →
  ∃ s' x, rtc solo_step s s' ∧ s_phase s' !! w = Some WIdle ∧
    (∀ y, achieved s y → achieved s' y) ∧ x ∈ items s ∧ ¬ achieved s x ∧ achieved s' x.
Proof using Hn Hfits Hread Hvalid.
  intros Hinv Hw Hdone.
  assert (∀ s1, rtc solo_step s s1 → s_phase s1 !! w = Some WIdle →
    keeps (w_addr w) n (s_coord s) (wfs s) (s_coord s1) (wfs s1) →
    allMapTasksDoneLocked (s_coord s1) = false →
    ∃ s' x, rtc solo_step s s' ∧ s_phase s' !! w = Some WIdle ∧
    (∀ y, achieved s y → achieved s' y) ∧ x ∈ items s ∧ ¬ achieved s x ∧ achieved s' x) as Hmap.
  { intros s1 H1 Hw1 Hk1 Hall. pose proof (solo_inv _ _ H1 Hinv) as Hinv1.
    destruct (map_round s1 Hinv1 Hw1 Hall) as (s' & id & H2 & Hw2 & Hk2 & Hid & Hno & Hyes).
    destruct (keeps_trans _ _ _ _ _ _ _ _ Hk1 Hk2) as [Hg Hr].
    exists s', (inl id). split; [by etrans|]. split; [done|]. split; [by intros [y|y]; [apply Hg|apply Hr]|].
    split; [|split; [|done]].
    - apply elem_of_items. eapply skel_is_map_id; [by eapply inv_map_skel|done].
    - intros Hgs. apply Hno. by apply Hk1. }
  destruct (allMapTasksDoneLocked (s_coord s)) eqn:Hall; [|by apply (Hmap s)].
  rewrite /Done Hall /= in Hdone.
  destruct (reduce_round s Hinv Hw Hall Hdone) as
    (s' & H1 & Hw1 & Hk & [Hall'|(rid & Hrid & Hno & Hyes)]); [by apply (Hmap s')|].
  exists s', (inr rid). split; [done|]. split; [done|].
  split; [by intros [y|y]; [apply Hk|apply Hk]|]. by rewrite elem_of_items.
Qed.

Lemma items_stable s s' x : inv s → inv s' → x ∈ items s' → x ∈ items s.
Proof.
  intros Hinv Hinv'. rewrite !elem_of_items. destruct x as [id|id].
  - rewrite -!(skel_is_map_id files n); [done|by eapply inv_map_skel..].
  - pose proof (inv_reduce_skel _ _ _ _ _ _ _ Hinv) as H1.
    pose proof (inv_reduce_skel _ _ _ _ _ _ _ Hinv') as H2. rewrite -H2 in H1.
    apply (f_equal (.!! id)) in H1. rewrite /reduce_skel !lookup_fmap in H1.
    intros Hs. by rewrite -(fmap_is_Some rt_Bucket) H1 fmap_is_Some.
Qed.

(** All that is left to do is in [todo]. *)
Lemma solo_finishes k : ∀ s (todo : list item),
  (length todo ≤ k)%nat → inv s → s_phase s !! w = Some WIdle →
  (∀ x, x ∈ items s → achieved s x ∨ x ∈ todo) →
  ∃ s', rtc solo_step s s' ∧ Done (s_coord s') = true.
Proof using Hn Hfits Hread Hvalid.
  induction k as [|k IH]; intros s todo Hlen Hinv Hw Hleft;
    (destruct (Done (s_coord s)) eqn:Hd; [by exists s|]);
    destruct (solo_round s Hinv Hw Hd) as (s1 & x & H1 & Hw1 & Hk & Hx & Hno & Hyes);
    (destruct (Hleft x Hx) as [?|Hin]; [done|]).
  { destruct todo; [by apply elem_of_nil in Hin|simpl in Hlen; lia]. }
  pose proof (solo_inv _ _ H1 Hinv) as Hinv1.
  destruct (IH s1 (filter (.≠ x) todo)) as (s' & H2 & Hd2); [|done|done| |].
  - assert (length (filter (.≠ x) todo) < length todo)%nat; [|lia].
    apply length_filter_lt with x; [done|]. by intros [].
  - intros y Hy. destruct (Hleft y) as [?|Hyt]; [by eapply items_stable|left; by apply Hk|].
    destruct (decide (y = x)) as [->|]; [by left|]. right. by apply list_elem_of_filter.
  - exists s'. split; [by etrans|done].
Qed.
End solo.

(** ** Properties *)


(** Worker 0 has mapped the file and is gone with its output. *)
Definition lost_run : list action :=
  [AJoin 0; ARequest 0 0; AEncode 0; AMap 0; AReport 0; ARequest 0 1; ACrash 0].

