(* ===== verification/MrFiles.v ===== *)
(** * Package [mr]: the output files of a job

    [MrJob] is about every version of an output that was ever written. This
    file is about what lies on the disks in the end. Output files are created
    in place, so with a shared directory a slow worker can truncate a finished
    file ([straggler_truncates_output]). When every worker has a working
    directory of its own, that cannot happen to the file the coordinator has
    been told about: the worker that reported it is done with the bucket, is
    never handed it again, and nobody else writes to its directory.

    The invariant [files_inv] says so; with it the command lines agree: what
    the workers of a job started by [mrcoordinator] leave behind is, up to the
    order of the lines, what [mrsequential] prints for the same files. *)
From S2P Require Import Prelude GoBase MrTypes MrCoordinator MrCoordinatorThm MrWorker.
From S2P Require Import MrWorkerThm Json MrWorkerIO MrSequential MrSystem MrSystemThm MrApps MrRun MrJob Mains.

#[global] Instance reduceOutputFileName_inj : Inj (=) (=) reduceOutputFileName.
Proof. intros b b' Heq. by apply (inj (String.app "mr-out-")), (inj Itoa) in Heq. Qed.

(** A worker in this phase may still create the output file of bucket [b]. *)
Definition touches (p : WPhase) (b : Z) : Prop :=
  match p with
  | WPending r => ∃ rid, rr_ReduceData r = Some (b, rid)
  | WHolding r => ∃ d, tr_ReduceData r = Some d ∧ rd_Bucket d = b
  | WFetching _ b' _ _ | WWriting _ b' _ => b' = b
  | WIdle | WReport _ | WReportMissing _ | WDead => False
  end.

Section files.
Context `{KVCodecLaws}.
Context (mapf : string → string → list KeyValue) (reducef : string → list string → string).
Context (input : string → option string).
Context (w_addr : nat → string) (w_dir : nat → nat).
Context (files : list string) (n : Z).
Context `{!Inj (=) (=) w_dir}.

Abbreviation step := (sys_step mapf reducef input w_addr w_dir).
Abbreviation inv := (sys_inv mapf reducef input files n).

(** The directory of [w] holds a complete output of bucket [b]. *)
Definition has_output (s : Sys) (w : nat) (b : Z) : Prop :=
  ∃ out, (b, out) ∈ s_log s ∧
    dir_of s (w_dir w) !! reduceOutputFileName b = Some (write_lines (λ _, true) 0 out).

(** [w] is through with bucket [b]. *)
Definition through (s : Sys) (w : nat) (b : Z) : Prop :=
  ∀ p, s_phase s !! w = Some p → ¬ touches p b.

Record files_inv (s : Sys) : Prop := {
  fi_report w t b : s_phase s !! w = Some (WReport t) → reduce_task_ok files n t b →
    has_output s w b;
  fi_done rid rt : reduceTasks (s_coord s) !! rid = Some rt →
    State (rt_Task rt) = TaskStateDone →
    ∃ w, has_output s w (rt_Bucket rt) ∧ through s w (rt_Bucket rt);
}.

(** ** Changes of one part of the state *)

Lemma files_set_phase s w p :
  files_inv s →
  (∀ b, touches p b → ∃ p0, s_phase s !! w = Some p0 ∧ touches p0 b) →
  (∀ t b, p = WReport t → reduce_task_ok files n t b → has_output s w b) →
  files_inv (set_phase w p s).
Proof.
  intros [Hrep Hdone] Ht Hr. split.
  - intros w' t b. simpl. rewrite lookup_insert. case_decide as Hw; [|apply Hrep].
    subst w'. intros [= ->]. by apply Hr.
  - intros rid rt Hrt Hst. destruct (Hdone _ _ Hrt Hst) as (w' & Ho & Hth).
    exists w'. split; [done|]. intros p'. simpl. rewrite lookup_insert. case_decide as Hw; [|apply Hth].
    subst w'. intros [= <-] (p0 & Hp0 & Hb)%Ht. by eapply Hth.
Qed.

(** A new table in which no more reduce tasks are done. *)
Lemma files_set_coord s c' :
  files_inv s →
  (∀ rid rt, reduceTasks c' !! rid = Some rt → State (rt_Task rt) = TaskStateDone →
     ∃ rt0, reduceTasks (s_coord s) !! rid = Some rt0 ∧ State (rt_Task rt0) = TaskStateDone ∧
       rt_Bucket rt0 = rt_Bucket rt) →
  files_inv (set_coord c' s).
Proof.
  intros [Hrep Hdone] Hc. split; [done|]. intros rid rt Hrt Hst.
  destruct (Hc _ _ Hrt Hst) as (rt0 & Hrt0 & Hst0 & <-). by eapply Hdone.
Qed.

(** A new directory of [w] that keeps the outputs [w] is through with. *)
Lemma has_output_dir s w fs' w' b :
  (w' = w → fs' !! reduceOutputFileName b = dir_of s (w_dir w) !! reduceOutputFileName b) →
  has_output s w' b → has_output (set_dir (w_dir w) fs' s) w' b.
Proof using All.
  intros Hsame (out & Hin & Hf). exists out. split; [done|].
  rewrite /dir_of /= lookup_insert. case_decide as Hd; [|done].
  apply (inj w_dir) in Hd as ->. by rewrite /= Hsame.
Qed.

Lemma files_set_dir s w p fs' :
  files_inv s → s_phase s !! w = Some p → (∀ t, p ≠ WReport t) →
  (∀ b, ¬ touches p b →
     fs' !! reduceOutputFileName b = dir_of s (w_dir w) !! reduceOutputFileName b) →
  files_inv (set_dir (w_dir w) fs' s).
Proof using All.
  intros [Hrep Hdone] Hp Hnr Hsame. split.
  - intros w' t b Hw' Ht. apply has_output_dir; [|by eapply Hrep].
    intros ->. simpl in Hw'. rewrite Hp in Hw'. injection Hw' as ->. by destruct (Hnr t).
  - intros rid rt Hrt Hst. destruct (Hdone _ _ Hrt Hst) as (w' & Ho & Hth).
    exists w'. split; [|done]. apply has_output_dir; [|done]. intros ->. apply Hsame. by apply Hth.
Qed.

Lemma files_add_log s b out : files_inv s → files_inv (add_log b out s).
Proof.
  assert (∀ w b', has_output s w b' → has_output (add_log b out s) w b') as Hmono.
  { intros w b' (o & Hin & Hf). exists o. split; [by right|done]. }
  intros [Hrep Hdone]. split.
  - intros w t b' Hw Ht. by eapply Hmono, Hrep.
  - intros rid rt Hrt Hst. destruct (Hdone _ _ Hrt Hst) as (w & Ho & Hth).
    exists w. split; [by apply Hmono|done].
Qed.

Lemma insert_other (fs : FS) b b' content :
  b' ≠ b → <[reduceOutputFileName b := content]> fs !! reduceOutputFileName b' =
           fs !! reduceOutputFileName b'.
Proof. intros Hne. rewrite lookup_insert_ne //. intros ?%(inj _). congruence. Qed.

Hypothesis Hn : 0 < n.
Hypothesis Hfits : Z.of_nat (length files) + n < 2 ^ 63.

(** A map task leaves the output files alone. *)
Lemma runMapTask_outputs envs fs t f content fs' err b :
  0 ≤ ID t → (∀ b, env_fresh (envs b) fs) →
  runMapTask envs fs t (mkMapTaskData f content n) mapf = Some (fs', err) →
  fs' !! reduceOutputFileName b = fs !! reduceOutputFileName b.
Proof using Hn.
  intros Hid Hfresh Hrun. apply runMapTask_files in Hrun as [Hother _]; [|done..].
  apply Hother. intros b' _. by apply output_not_bucket.
Qed.

(** ** The request for a task *)

(** A bucket that is handed out is not done. *)
Lemma RequestTask_bucket locked s e c' r b rid :
  inv locked s → RequestTask e (s_coord s) = (c', inr r) → rr_ReduceData r = Some (b, rid) →
  ∀ rid' rt', reduceTasks (s_coord s) !! rid' = Some rt' →
    State (rt_Task rt') = TaskStateDone → rt_Bucket rt' ≠ b.
Proof using Hn Hfits.
  intros Hinv Hreq Hr rid' rt' Hrt' Hst' Heq.
  apply RequestTask_inv in Hreq as [(id & mt & _ & _ & _ & Hout)|
    [(id & rt & Hid & Hsh & _ & _ & Hout)|(_ & Hout & _)]].
  - destruct (re_ReadFile e (mt_File mt)); [|done]. injection Hout as ->. done.
  - injection Hout as ->. injection Hr as <- <-.
    pose proof (inv_reduce_skel _ _ _ _ _ _ _ Hinv) as Hrs.
    pose proof (skel_bucket _ _ _ _ _ Hrs Hid) as H1.
    pose proof (skel_bucket _ _ _ _ _ Hrs Hrt') as H2.
    apply reduce_skel_lookup in H1 as [_ H1]; [|done..].
    apply reduce_skel_lookup in H2 as [_ H2]; [|done..].
    assert (rid' = id) as -> by congruence. rewrite Hid in Hrt'. injection Hrt' as <-.
    by apply shouldAssign_not_done in Hsh.
  - by injection Hout as ->.
Qed.

Lemma encode_touches c r b : touches (WHolding (encode_reply c r)) b → touches (WPending r) b.
Proof.
  rewrite /touches /encode_reply /=. intros (d & Hd & <-).
  destruct (rr_ReduceData r) as [[b' rid]|]; [|done]. cbn [mbind option_bind] in Hd.
  destruct (reduceTasks c !! rid) as [rt|]; [|done]. injection Hd as <-. by exists rid.
Qed.

Lemma files_request locked s w e c' r p :
  inv locked s → files_inv s → RequestTask e (s_coord s) = (c', inr r) →
  (∀ b, touches p b → touches (WPending r) b) → (∀ t, p ≠ WReport t) →
  files_inv (set_phase w p (set_coord c' s)).
Proof using Hn Hfits.
  intros Hinv [Hrep Hdone] Hreq Ht Hnr. split.
  - intros w' t b. simpl. rewrite lookup_insert. case_decide as Hw; [|apply Hrep].
    intros [= ->]. by destruct (Hnr t).
  - intros rid rt Hrt Hst. eapply RequestTask_reduce_done in Hrt as Hrt0; [|done..].
    destruct (Hdone _ _ Hrt0 Hst) as (w' & Ho & Hth). exists w'. split; [done|].
    intros p'. simpl. rewrite lookup_insert. case_decide as Hw; [|apply Hth].
    intros [= <-] (rid' & Hr)%Ht. by eapply RequestTask_bucket.
Qed.

(** ** Preservation *)

Lemma files_step locked s s' : step locked s s' → inv locked s → files_inv s → files_inv s'.
Proof using All.
  intros Hstep Hinv Hf. destruct Hstep as
    [s w Hw|s w|s w e c' r Hw Henv Hrd Hreq|s w e c' out Hw Henv Hrd Hreq|s w r Hw
    |s w r Hw Hno|s w r t data envs fs' err Hw Ht Hty Hdata Hfresh Hrun
    |s w r t data ord Hw Ht Hty Hdata Hord|s w t b id addr todo acc kvs Hw Hfetch
    |s w t b id addr todo acc Hw|s w t b acc ord Hw Hord|s w t b acc Hw|s w t b out Hw
    |s w t c' Hw Hrep|s w t Hw|s w id Hw|s w id Hw];
    try (by apply files_set_phase).
  - (* request *)
    eapply files_request; [done..| |by destruct locked]. intros b.
    destruct locked; [apply encode_touches|done].
  - (* request lost *)
    apply files_set_phase; [|done..]. apply files_set_coord; [done|]. intros rid rt Hrt Hst.
    exists rt. split; [by eapply RequestTask_reduce_done|done].
  - (* encode *)
    apply files_set_phase; [done| |done]. intros b Hb%encode_touches. eauto.
  - (* map *)
    pose proof (inv_phase _ _ _ _ _ _ _ Hinv _ _ Hw) as Hph.
    inversion Hph as [t' f content Ht' Hin|t' b outs Ht' _|r' Hno]; subst r; simplify_eq/=;
      last first.
    { rewrite /nothing_to_do Ht Hty Hdata in Hno. by apply bool_decide_eq_true in Hno. }
    apply files_set_phase; [|by destruct err|].
    + eapply files_set_dir; [done|exact Hw|done|]. intros b _.
      eapply runMapTask_outputs; [|exact Hfresh|exact Hrun].
      eapply is_map_id_nonneg; [done..|]. destruct Ht' as [_ Ht']. by eexists.
    + intros t' b. destruct err; [done|]. intros [= <-] [Hr _]. congruence.
  - (* reduce *)
    apply files_set_phase; [done| |done]. intros b Hb. exists (WHolding r). split; [done|].
    by exists data.
  - (* fetch *)
    apply files_set_phase; [done| |done]. intros b' Hb. eauto.
  - (* create *)
    apply files_set_phase; [|intros b' Hb; eauto|done].
    eapply files_set_dir; [done|exact Hw|done|]. intros b' Hb'. apply insert_other.
    intros ->. by apply Hb'.
  - (* written *)
    pose proof (inv_phase _ _ _ _ _ _ _ Hinv _ _ Hw) as [[_ Hsk] _].
    apply files_set_phase; [|done|].
    + apply files_add_log. eapply files_set_dir; [done|exact Hw|done|]. intros b' Hb'.
      apply insert_other. intros ->. by apply Hb'.
    + intros t' b' [= <-] [_ Hsk']. rewrite Hsk in Hsk'. injection Hsk' as <-.
      exists out. split; [left|]. by rewrite /dir_of /= !lookup_insert_eq.
  - (* report *)
    assert (files_inv (set_phase w WIdle s)) as [Hrep' Hdone'] by (by apply files_set_phase).
    split; [done|]. intros rid rt Hrt Hst.
    pose proof (coord_step_skel _ _ (cs_complete _ _ _ Hrep)) as [_ Hrs].
    rewrite (inv_reduce_skel _ _ _ _ _ _ _ Hinv) in Hrs.
    pose proof (skel_bucket _ _ _ _ _ Hrs Hrt) as Hb.
    destruct (ReportTaskCompletion_reduce_done _ _ _ _ _ _ Hrep Hrt Hst)
      as [[Hty ->]|(rt0 & Hrt0 & Hst0 & <-)]; [|exact (Hdone' _ _ Hrt0 Hst0)].
    exists w. split; [exact (fi_report _ Hf _ _ _ Hw (conj Hty Hb))|].
    intros p. rewrite /= lookup_insert_eq. intros [= <-]. by intros [].
  - (* missing *)
    apply files_set_phase; [|done..]. apply files_set_coord; [done|]. intros rid rt.
    apply ReportMissing_reduce_done.
Qed.

Lemma init_files : files_inv (init_sys files n).
Proof using Hn Hfits.
  split; simpl; [done|]. intros rid rt (b & _ & _ & ->)%MakeCoordinator_reduce_lookup; [done|lia].
Qed.

Hypothesis Hread : ∀ f, f ∈ files → is_Some (input f).
Hypothesis Hvalid : ∀ f content, input f = Some content → Forall codec_valid (mapf f content).

Lemma reachable_files locked s :
  sys_reachable mapf reducef input w_addr w_dir locked files n s → files_inv s.
Proof using All.
  rewrite /sys_reachable. intros Hr.
  pose proof init_files as Hf.
  assert (inv locked (init_sys files n)) as Hinv by (by apply init_sys_inv).
  induction Hr as [s|s1 s2 s3 Hs _ IH]; [done|].
  apply IH; [by eapply files_step|by eapply sys_step_inv].
Qed.

(** The files of a finished job: one complete output of every bucket, among
    those that were logged. *)
Lemma done_files locked s :
  sys_reachable mapf reducef input w_addr w_dir locked files n s → Done (s_coord s) = true →
  ∀ b, 0 ≤ b < n → ∃ w, has_output s w b.
Proof using All.
  intros Hr Hd b Hb. pose proof (reachable_files _ _ Hr) as Hf.
  pose proof (sys_reachable_inv _ _ _ _ _ _ _ Hn Hfits Hread Hvalid _ _ Hr) as Hinv.
  destruct (done_bucket _ _ _ _ _ Hn Hfits _ _ _ Hinv Hd Hb) as (rid & rt & Hrt & <- & Hst).
  destruct (fi_done _ Hf _ _ Hrt Hst) as (w & Hw & _). eauto.
Qed.
End files.

(** ** Properties *)

(** The lines of a file, sorted: what the tests compare. *)
Definition sorted_lines (out : list KeyValue) : list string := sort_Strings (output_line <$> out).


(** A plugin with the word count. *)
Definition demo_Open (f : string) :
    option (string → option ((string → string → list KeyValue) + (string → list string → string))) :=
  if bool_decide (f = "wc.so") then
    Some (λ name, if bool_decide (name = "Map") then Some (inl wc_ascii)
                  else if bool_decide (name = "Reduce") then Some (inr wc_Reduce) else None)
  else None.
Definition demo_as_map (y : (string → string → list KeyValue) + (string → list string → string)) :=
  match y with inl f => Some f | inr _ => None end.
Definition demo_as_reduce (y : (string → string → list KeyValue) + (string → list string → string)) :=
  match y with inl _ => None | inr f => Some f end.

(** One worker maps the file and reduces all ten buckets. *)
Definition ten_run : list action :=
  [AJoin 0; ARequest 0 0; AMap 0; AReport 0] ++
  concat (replicate 10 [ARequest 0 1; AReduce 0; AFetchLocal 0; ACreate 0; AWritten 0; AReport 0]).

