(* ===== verification/GoPath.v ===== *)
(** * The path packages of the Go library, as far as the labs use them

    [path.Clean], and of [path/filepath] on Unix [Join], [Abs], [Rel], [Base]
    and [Ext]. A path is split at its slashes into segments; the cleaning rules
    of [path.Clean] (drop empty and dot segments, let dot-dot remove the
    segment before it, drop dot-dot at the root) are a fold over them. The
    lemmas give the behaviour on rooted paths: a cleaned rooted path is a slash
    followed by proper segments. *)
From S2P Require Import Prelude GoBase.

(** ** Segments *)

(** [strings.Split(s, "/")] *)
Fixpoint segs (s : string) : list string :=
  match s with
  | "" => [""]
  | String a s' =>
      if bool_decide (a = "/"%char) then "" :: segs s'
      else match segs s' with h :: t => String a h :: t | [] => [] end
  end.

Definition noslash (s : string) : Prop := "/"%char ∉ str_to_list s.

#[global] Instance noslash_dec s : Decision (noslash s).
Proof. unfold noslash. apply _. Defined.

(** A segment that names an entry of a directory. *)
Definition proper_seg (s : string) : Prop := noslash s ∧ s ≠ "" ∧ s ≠ "." ∧ s ≠ "..".

(** ** The operations *)

Definition clean_step (rooted : bool) (stack : list string) (seg : string) : list string :=
  if bool_decide (seg = "") || bool_decide (seg = ".") then stack
  else if bool_decide (seg = "..") then
    match stack with
    | [] => if rooted then [] else [".."]
    | top :: rest => if bool_decide (top = "..") then ".." :: stack else rest
    end
  else seg :: stack.

(** The segments of the cleaned path, last one first. *)
Definition clean_stack (rooted : bool) (stack : list string) (l : list string) : list string :=
  foldl (clean_step rooted) stack l.

Definition IsAbs (p : string) : bool := HasPrefix p "/".

(** [path.Clean(p)], which [filepath.Clean] is on Unix *)
Definition Clean (p : string) : string :=
  if bool_decide (p = "") then "." else
  let out := reverse (clean_stack (IsAbs p) [] (segs p)) in
  if IsAbs p then "/" +:+ Join out "/"
  else match out with [] => "." | _ => Join out "/" end.

(** [filepath.Join(elem...)] *)
Fixpoint path_Join (elem : list string) : string :=
  match elem with
  | [] => ""
  | e :: rest => if bool_decide (e = "") then path_Join rest else Clean (Join elem "/")
  end.

(** [filepath.Abs(p)], with the result of [os.Getwd()] *)
Definition Abs (Getwd : option string) (p : string) : option string :=
  if IsAbs p then Some (Clean p)
  else wd ← Getwd; Some (path_Join [wd; p]).

Fixpoint strip_common (base targ : list string) : list string * list string :=
  match base, targ with
  | b :: base', t :: targ' =>
      if bool_decide (b = t) then strip_common base' targ' else (base, targ)
  | _, _ => (base, targ)
  end.

(** The segments of a cleaned path. *)
Definition clean_segs (p : string) : list string :=
  reverse (clean_stack (IsAbs p) [] (segs p)).

(** [filepath.Rel(basepath, targpath)]; [None] is its error *)
Definition Rel (basepath targpath : string) : option string :=
  if bool_decide (Clean basepath = Clean targpath) then Some "."
  else if negb (bool_decide (IsAbs basepath = IsAbs targpath)) then None
  else
    let '(b, t) := strip_common (clean_segs basepath) (clean_segs targpath) in
    if bool_decide (head b = Some "..") then None
    else Some (Join ((const ".." <$> b) ++ t) "/").

(** [filepath.Base(p)] *)
Definition Base (p : string) : string :=
  if bool_decide (p = "") then "." else
  match filter (λ s, s ≠ "") (reverse (segs p)) with
  | [] => "/"
  | s :: _ => s
  end.

(** The suffix from the last dot, if there is one before any slash. *)
Fixpoint Ext_go (r acc : list ascii) : list ascii :=
  match r with
  | [] => []
  | a :: r' =>
      if bool_decide (a = "/"%char) then []
      else if bool_decide (a = "."%char) then a :: acc
      else Ext_go r' (a :: acc)
  end.

(** [filepath.Ext(p)] *)
Definition Ext (p : string) : string := str_of_list (Ext_go (reverse (str_to_list p)) []).

(** ** Lemmas *)

Lemma segs_nonempty s : segs s ≠ [].
Proof. induction s as [|a s IH]; simpl; [done|]. case_bool_decide; [done|]. by destruct (segs s). Qed.

Lemma segs_noslash_all s : Forall noslash (segs s).
Proof.
  induction s as [|a s IH]; simpl; [repeat constructor; apply not_elem_of_nil|].
  case_bool_decide; [constructor; [apply not_elem_of_nil|done]|].
  destruct (segs s) as [|h t]; [done|]. inversion_clear IH.
  constructor; [|done]. rewrite /noslash /=. by apply not_elem_of_cons.
Qed.

Lemma segs_app s t : segs (s +:+ String "/" t) = segs s ++ segs t.
Proof.
  induction s as [|a s IH]; [done|]. simpl.
  case_bool_decide; [by rewrite IH|]. rewrite IH.
  destruct (segs s) eqn:Hs; [by destruct (segs_nonempty s)|done].
Qed.

Lemma segs_noslash s : noslash s → segs s = [s].
Proof.
  induction s as [|a s IH]; [done|]. rewrite /noslash /=.
  intros [Ha Hs]%not_elem_of_cons. rewrite bool_decide_false // IH //.
Qed.

Lemma Join_cons s l sep : l ≠ [] → Join (s :: l) sep = s +:+ sep +:+ Join l sep.
Proof. by destruct l. Qed.

Lemma segs_Join l : l ≠ [] → Forall noslash l → segs (Join l "/") = l.
Proof.
  intros Hne Hl. induction Hl as [|s l Hs Hl IH]; [done|].
  destruct l as [|s' l]; [by apply segs_noslash|].
  rewrite Join_cons // segs_app IH // segs_noslash //.
Qed.

Lemma Join_nonempty l sep : l ≠ [] → Forall (λ s, s ≠ "") l → Join l sep ≠ "".
Proof.
  intros Hne Hl. destruct Hl as [|s l Hs Hl]; [done|]. destruct l; [done|].
  rewrite Join_cons //. by destruct s.
Qed.

Lemma proper_noslash l : Forall proper_seg l → Forall noslash l.
Proof. intros Hl. apply (Forall_impl _ _ _ Hl). by intros ? []. Qed.

Lemma proper_nonempty l : Forall proper_seg l → Forall (λ s, s ≠ "") l.
Proof. intros Hl. apply (Forall_impl _ _ _ Hl). by intros ? (_ & ? & _). Qed.

#[export] Hint Resolve proper_noslash proper_nonempty segs_nonempty segs_noslash_all : labs.

Lemma clean_stack_app r st l1 l2 :
  clean_stack r st (l1 ++ l2) = clean_stack r (clean_stack r st l1) l2.
Proof. apply foldl_app. Qed.

Lemma clean_stack_cons r st s l :
  clean_stack r st (s :: l) = clean_stack r (clean_step r st s) l.
Proof. done. Qed.

Lemma clean_step_push r st s : proper_seg s → clean_step r st s = s :: st.
Proof. intros (_ & ? & ? & ?). rewrite /clean_step !bool_decide_false //. Qed.

Lemma clean_stack_proper_input r st l :
  Forall proper_seg l → clean_stack r st l = reverse l ++ st.
Proof.
  intros Hl. revert st. induction Hl as [|s l Hs Hl IH]; intros st; [done|].
  by rewrite clean_stack_cons clean_step_push // IH reverse_cons -assoc.
Qed.

(** At the root, dot-dot never climbs: only proper segments remain. *)
Lemma clean_stack_proper st l :
  Forall proper_seg st → Forall noslash l → Forall proper_seg (clean_stack true st l).
Proof.
  intros Hst Hl. revert st Hst. induction Hl as [|s l Hs Hl IH]; intros st Hst; [done|].
  rewrite clean_stack_cons. apply IH. rewrite /clean_step.
  case_bool_decide as He; simpl; [done|]. case_bool_decide; [done|].
  case_bool_decide; [|by repeat constructor].
  destruct Hst as [|top st Htop Hst]; [constructor|].
  rewrite bool_decide_false //. by destruct Htop as (_ & _ & _ & ?).
Qed.

(** The segments a request for [p] under a root amounts to. *)
Definition rooted_segs (p : string) : list string := reverse (clean_stack true [] (segs p)).

Lemma rooted_segs_proper p : Forall proper_seg (rooted_segs p).
Proof. apply Forall_reverse, clean_stack_proper; [constructor|apply segs_noslash_all]. Qed.

#[export] Hint Resolve rooted_segs_proper : labs.

Definition abs_of (l : list string) : string := "/" +:+ Join l "/".
#[global] Arguments abs_of : simpl never.

Lemma IsAbs_slash p : IsAbs (String "/" p) = true.
Proof. by apply HasPrefix_true; exists p. Qed.

Lemma IsAbs_inv p : IsAbs p = true → ∃ q, p = String "/" q.
Proof. intros [q ->]%HasPrefix_true. by exists q. Qed.

Lemma IsAbs_abs_of l : IsAbs (abs_of l) = true.
Proof. apply IsAbs_slash. Qed.

Lemma Clean_rooted p : Clean (String "/" p) = abs_of (rooted_segs p).
Proof. rewrite /Clean IsAbs_slash bool_decide_false //. Qed.

Lemma rooted_segs_Join l : Forall proper_seg l → rooted_segs (Join l "/") = l.
Proof.
  intros Hl. rewrite /rooted_segs. destruct (decide (l = [])) as [->|Hne]; [done|].
  rewrite segs_Join; [|done|auto with labs].
  by rewrite clean_stack_proper_input // right_id_L reverse_involutive.
Qed.

Lemma rooted_segs_app p l :
  Forall proper_seg l → l ≠ [] → rooted_segs (p +:+ String "/" (Join l "/")) = rooted_segs p ++ l.
Proof.
  intros Hl Hne. rewrite /rooted_segs segs_app clean_stack_app segs_Join; [|done|auto with labs].
  by rewrite clean_stack_proper_input // reverse_app reverse_involutive.
Qed.

Lemma Clean_abs_of l : Forall proper_seg l → Clean (abs_of l) = abs_of l.
Proof. intros Hl. rewrite /abs_of Clean_rooted rooted_segs_Join //. Qed.

Lemma clean_segs_abs_of l : Forall proper_seg l → clean_segs (abs_of l) = l.
Proof.
  intros Hl. rewrite /clean_segs IsAbs_abs_of. change (rooted_segs (String "/" (Join l "/")) = l).
  rewrite -{2}(rooted_segs_Join l) //.
Qed.

Lemma abs_of_inj l1 l2 :
  Forall proper_seg l1 → Forall proper_seg l2 → abs_of l1 = abs_of l2 → l1 = l2.
Proof. intros H1 H2 He. rewrite -(clean_segs_abs_of l1) // -(clean_segs_abs_of l2) // He //. Qed.

Lemma strip_common_app l r : strip_common l (l ++ r) = ([], r).
Proof. induction l as [|s l IH]; [by destruct r|]. simpl. rewrite bool_decide_true //. Qed.

(** [Rel] of a path below the base is the rest of the path. *)
Lemma Rel_below b l :
  Forall proper_seg b → Forall proper_seg l →
  Rel (abs_of b) (abs_of (b ++ l)) = Some (match l with [] => "." | _ => Join l "/" end).
Proof.
  intros Hb Hl. assert (Forall proper_seg (b ++ l)) as Hbl by by apply Forall_app.
  rewrite /Rel !Clean_abs_of // !IsAbs_abs_of !clean_segs_abs_of //.
  destruct l as [|s l]; [rewrite right_id_L bool_decide_true //|].
  rewrite bool_decide_false; [by rewrite strip_common_app|].
  intros He%abs_of_inj; [|done..]. apply (f_equal length) in He.
  rewrite length_app /= in He. lia.
Qed.

Lemma Clean_relative l :
  Forall proper_seg l → l ≠ [] → Clean ("./" +:+ Join l "/") = Join l "/".
Proof.
  intros Hl Hne. rewrite /Clean. change ("./" +:+ ?s) with (String "." (String "/" s)).
  rewrite bool_decide_false //.
  replace (IsAbs _) with false; [|by symmetry].
  change (segs (String "." (String "/" (Join l "/")))) with ("." :: segs (Join l "/")).
  rewrite segs_Join; [|done|auto with labs].
  rewrite clean_stack_cons clean_stack_proper_input // right_id_L reverse_involutive.
  by destruct l.
Qed.

Lemma Abs_relative w l :
  Forall proper_seg l → l ≠ [] → IsAbs (Join l "/") = false →
  Abs (Some (String "/" w)) (Join l "/") = Some (abs_of (rooted_segs w ++ l)).
Proof.
  intros Hl Hne Hrel. rewrite /Abs Hrel.
  change (Some (Clean (String "/" (w +:+ String "/" (Join l "/")))) = Some (abs_of (rooted_segs w ++ l))).
  rewrite Clean_rooted rooted_segs_app //.
Qed.

Lemma IsAbs_Join_proper l : Forall proper_seg l → IsAbs (Join l "/") = false.
Proof.
  intros Hl. destruct Hl as [|s l [Hs [Hne _]] Hl]; [done|].
  destruct (IsAbs _) eqn:E; [|done]. apply IsAbs_inv in E as [q Hq]. exfalso. apply Hs.
  destruct s as [|a s]; [done|]. destruct l; injection Hq as -> _; by left.
Qed.

Lemma Base_noslash s : noslash s → s ≠ "" → Base s = s.
Proof.
  intros Hs Hne. rewrite /Base bool_decide_false // segs_noslash // /=.
  rewrite filter_cons_True //.
Qed.

(** [Base] returns a segment of the path, or one of the two special names. *)
Lemma Base_cases p : Base p = "." ∨ Base p = "/" ∨ (noslash (Base p) ∧ Base p ≠ "").
Proof.
  rewrite /Base. case_bool_decide; [by left|].
  destruct (filter _ _) as [|s l] eqn:E; [by right; left|]. right; right.
  assert (s ∈ filter (λ s, s ≠ "") (reverse (segs p))) as Hin by (rewrite E; left).
  apply list_elem_of_filter in Hin as [? Hin].
  split; [|done]. revert Hin. apply Forall_forall, Forall_reverse, segs_noslash_all.
Qed.
