(* ===== verification/Http.v ===== *)
(** * Package http of Lab 1: responses, the builder and the server

    Models [Labs/Lab1/http]: status codes and methods, [Response] and its wire
    format, [ResponseBuilder] (its methods update the one response the builder
    points to), and the request and connection handlers of [Server]. What the
    handlers do to the rest of the world is an explicit state of type [W]. The
    text of a request is read by [net/http]'s [ReadRequest], whose result is an
    argument. The accept loop [Listen] is in [HttpListen]. *)
From S2P Require Import Prelude GoBase.

(** ** Status codes and methods *)

Notation StatusCode := Z (only parsing).
Definition Ok : StatusCode := 200.
Definition Created : StatusCode := 201.
Definition BadRequest : StatusCode := 400.
Definition NotFound : StatusCode := 404.
Definition InternalServerError : StatusCode := 500.
Definition NotImplemented : StatusCode := 501.

Definition Phrase (statusCode : StatusCode) : string :=
  if bool_decide (statusCode = Ok) then "OK"
  else if bool_decide (statusCode = Created) then "Created"
  else if bool_decide (statusCode = BadRequest) then "Bad Request"
  else if bool_decide (statusCode = NotFound) then "Not Found"
  else if bool_decide (statusCode = InternalServerError) then "Internal Server Error"
  else if bool_decide (statusCode = NotImplemented) then "Not Implemented"
  else "Unknown".

Notation HTTPMethod := string (only parsing).
Definition HTTPMethods : list HTTPMethod :=
  ["GET"; "HEAD"; "OPTIONS"; "TRACE"; "PUT"; "DELETE"; "POST"; "PATCH"; "CONNECT"].
Definition method_IsValid (method : HTTPMethod) : bool := bool_decide (method ∈ HTTPMethods).

(** A Go [error] value, as the server's type assertion tells them apart. *)
Inductive GoError := EHTTPError (Status : StatusCode) | EOther (msg : string).

(** [HTTPError.Error] *)
Definition HTTPError_Error (status : StatusCode) : string := Itoa status +:+ " " +:+ Phrase status.

(** ** Requests and responses *)

Notation Headers := (gmap string (list string)).

(** The fields of a [net/http] request that the labs read. The body is a
    reader: the bytes it delivers, and whether it then fails. *)
Record Request := mkRequest {
  req_Method : string;
  req_Proto : string;
  req_URL_Path : string;
  req_URL_Host : string;
  req_Host : string;
  req_Header : Headers;
  req_RequestURI : string;
  req_Body : string;
  req_Body_err : bool;
}.

Record Response := mkResponse {
  Protocol : string;
  rsp_StatusCode : StatusCode;
  rsp_Headers : Headers;
  Body : string;
}.

Definition NewResponse (request : option Request) : Response :=
  let protocol :=
    match request with
    | Some r => if bool_decide (req_Proto r = "") then "HTTP/1.1" else req_Proto r
    | None => "HTTP/1.1"
    end in
  mkResponse protocol Ok ∅ "".

Definition crlf : string := String "013" (String "010" "").

Definition formatStartLine (response : Response) : string :=
  Protocol response +:+ " " +:+ Itoa (rsp_StatusCode response) +:+ " " +:+
  Phrase (rsp_StatusCode response) +:+ crlf.

(** The headers come in the order [ord] the map is iterated in. *)
Definition formatHeaders (ord : list string) (response : Response) : string :=
  foldl (λ headers '(key, values), headers +:+ (key +:+ ": " +:+ Join values ", " +:+ crlf))
    "" (range_visit ord (rsp_Headers response)).

Definition hasBody (response : Response) : bool :=
  bool_decide (is_Some (rsp_Headers response !! "Content-Length")).

Definition Response_Bytes (ord : list string) (response : Response) : string :=
  let startLine := formatStartLine response in
  let headers := formatHeaders ord response in
  let s := startLine +:+ headers +:+ crlf in
  if hasBody response then s +:+ Body response else s.

(** ** ResponseBuilder *)

Definition NewResponseBuilder (request : option Request) : Response := NewResponse request.

Definition builder_Status (statusCode : StatusCode) (b : Response) : Response :=
  mkResponse (Protocol b) statusCode (rsp_Headers b) (Body b).

Definition builder_Ok (b : Response) : Response := builder_Status Ok b.

Definition builder_Header (key value : string) (b : Response) : Response :=
  mkResponse (Protocol b) (rsp_StatusCode b) (<[key := [value]]> (rsp_Headers b)) (Body b).

Definition builder_Bytes (body : string) (b : Response) : Response :=
  mkResponse (Protocol b) (rsp_StatusCode b)
    (<["Content-Length" := [Itoa (slen body)]]> (<["Content-Type" := ["text/plain"]]> (rsp_Headers b)))
    body.

Definition builder_Body (body : string) (b : Response) : Response := builder_Bytes body b.

(** ** Server *)

Section server.
Context {W : Type}.

(** A handler changes the world and the response it builds, and may fail. *)
Definition RequestHandler : Type := Request → Response → W → W * (Response * option GoError).

Definition Server : Type := gmap string RequestHandler.

Definition NewServer : Server := ∅.

Definition registerHandler (method : HTTPMethod) (handler : RequestHandler) (server : Server) : Server :=
  <[method := handler]> server.

Definition server_Get : RequestHandler → Server → Server := registerHandler "GET".
Definition server_Post : RequestHandler → Server → Server := registerHandler "POST".

Definition handleError (err : GoError) : Response :=
  let status := match err with EHTTPError s => s | EOther _ => InternalServerError end in
  mkResponse "HTTP/1.1" status {["Connection" := ["close"]]} "".

Definition handleRequest (server : Server) (request : Request) (w : W) : W * (GoError + Response) :=
  let responseBuilder := NewResponseBuilder (Some request) in
  if negb (method_IsValid (req_Method request)) then (w, inl (EHTTPError BadRequest)) else
  match server !! req_Method request with
  | None => (w, inl (EHTTPError NotImplemented))
  | Some handler =>
      let '(w', (rb, err)) := handler request responseBuilder w in
      match err with Some e => (w', inl e) | None => (w', inr rb) end
  end.

(** What a handler goroutine does to its connection and to the channel of
    connection slots. *)
Inductive ConnEvent := EvWrite (b : string) | EvClose | EvRelease.

(** [writeResponse] on a response that is not nil *)
Definition writeResponse (ord : Headers → list string) (response : Response) : list ConnEvent :=
  [EvWrite (Response_Bytes (ord (rsp_Headers response)) response)].

(** [read] is what [http.ReadRequest] made of the connection's bytes; the
    deferred function closes the connection and then frees the slot. *)
Definition handleConnection (server : Server) (ord : Headers → list string)
    (read : option Request) (w : W) : W * list ConnEvent :=
  let '(w', result) :=
    match read with
    | None => (w, inl (EHTTPError BadRequest))
    | Some request => handleRequest server request w
    end in
  let response := match result with inl err => handleError err | inr r => r end in
  (w', writeResponse ord response ++ [EvClose; EvRelease]).

End server.
Arguments RequestHandler : clear implicits.
Arguments Server : clear implicits.

(** ** Reading a response back

    A reference reader of the message format: the start line, header lines up
    to an empty line, and the rest as the body. *)

(** The parts of [s] before and after its first CR LF. *)
Fixpoint split_crlf (s : string) : option (string * string) :=
  match s with
  | String a ((String b rest) as s') =>
      if bool_decide (a = "013"%char ∧ b = "010"%char) then Some ("", rest)
      else '(l, r) ← split_crlf s'; Some (String a l, r)
  | _ => None
  end.

Fixpoint split_char (c : ascii) (s : string) : option (string * string) :=
  match s with
  | "" => None
  | String a s' =>
      if bool_decide (a = c) then Some ("", s')
      else '(l, r) ← split_char c s'; Some (String a l, r)
  end.

Definition parse_header (line : string) : option (string * string) :=
  '(k, v) ← split_char ":" line; Some (k, TrimPrefix v " ").

(** Header lines until the empty line; each step consumes at least two bytes,
    so the length of the text is enough fuel. *)
Fixpoint parse_headers (fuel : nat) (s : string) : option (list (string * string) * string) :=
  match fuel with
  | O => None
  | S fuel' =>
      '(line, rest) ← split_crlf s;
      if bool_decide (line = "") then Some ([], rest)
      else h ← parse_header line; '(hs, body) ← parse_headers fuel' rest; Some (h :: hs, body)
  end.

Record Message := mkMessage {
  msg_Protocol : string; msg_Status : string; msg_Phrase : string;
  msg_Headers : gmap string string; msg_Body : string;
}.

Definition parse_message (s : string) : option Message :=
  '(line, rest) ← split_crlf s;
  '(proto, l2) ← split_char " " line;
  '(status, phrase) ← split_char " " l2;
  '(hs, body) ← parse_headers (String.length rest) rest;
  Some (mkMessage proto status phrase (list_to_map hs) body).

(** No byte that would end a line, or a protocol name. *)
Definition no_cr (s : string) : Prop := "013"%char ∉ str_to_list s.

#[global] Instance no_cr_dec s : Decision (no_cr s).
Proof. unfold no_cr. apply _. Defined.

Definition response_ok (r : Response) : Prop :=
  no_cr (Protocol r) ∧ " "%char ∉ str_to_list (Protocol r) ∧
  map_Forall (λ k vs, k ≠ "" ∧ no_cr k ∧ ":"%char ∉ str_to_list k ∧ no_cr (Join vs ", "))
    (rsp_Headers r).

#[global] Instance response_ok_dec r : Decision (response_ok r).
Proof. unfold response_ok. apply _. Defined.

(** ** Lemmas on the reader *)

Lemma split_crlf_app l r : no_cr l → split_crlf (l +:+ crlf +:+ r) = Some (l, r).
Proof.
  induction l as [|a l IH]; [done|]. intros [Ha Hl]%not_elem_of_cons.
  specialize (IH Hl). simpl in *.
  destruct (l +:+ _) as [|b s] eqn:E; [by destruct l|].
  rewrite bool_decide_false; [|by intros [? _]]. by rewrite IH.
Qed.

Lemma split_char_app c l r : c ∉ str_to_list l → split_char c (l +:+ String c r) = Some (l, r).
Proof.
  induction l as [|a l IH]; simpl; [by rewrite bool_decide_true|].
  intros [Ha Hl]%not_elem_of_cons. rewrite bool_decide_false // IH //.
Qed.

Definition header_line (h : string * string) : string := h.1 +:+ ": " +:+ h.2 +:+ crlf.

Definition header_ok (h : string * string) : Prop :=
  h.1 ≠ "" ∧ no_cr h.1 ∧ ":"%char ∉ str_to_list h.1 ∧ no_cr h.2.

Definition header_text (hs : list (string * string)) : string :=
  foldr (λ h s, header_line h +:+ s) "" hs.

Lemma no_cr_app s t : no_cr (s +:+ t) ↔ no_cr s ∧ no_cr t.
Proof. rewrite /no_cr str_to_list_app elem_of_app. tauto. Qed.

Lemma parse_header_line k v :
  ":"%char ∉ str_to_list k → parse_header (k +:+ ": " +:+ v) = Some (k, v).
Proof.
  intros Hk. rewrite /parse_header split_char_app //=.
  rewrite /TrimPrefix /HasPrefix /=. destruct v; simpl; by rewrite ?str_of_to_list.
Qed.

Lemma parse_headers_text hs body fuel :
  Forall header_ok hs → (length hs < fuel)%nat →
  parse_headers fuel (header_text hs +:+ crlf +:+ body) = Some (hs, body).
Proof.
  intros Hhs. revert fuel. induction Hhs as [|[k v] hs (Hne & Hk & Hc & Hv) Hhs IH];
    intros [|fuel] Hf; simpl in Hf; [lia| |lia|]; cbn [parse_headers].
  - reflexivity.
  - simpl in *. rewrite /header_line /= !str_append_assoc.
    replace (k +:+ ": " +:+ v +:+ crlf +:+ _) with
      ((k +:+ ": " +:+ v) +:+ crlf +:+ (header_text hs +:+ crlf +:+ body))
      by by rewrite !str_append_assoc.
    rewrite split_crlf_app; [|rewrite !no_cr_app; repeat split; [done|by_decide|done]].
    cbn [mbind option_bind]. rewrite bool_decide_false; [|by destruct k].
    rewrite parse_header_line //. cbn [mbind option_bind]. rewrite IH //. lia.
Qed.

Lemma header_text_length hs : (length hs ≤ String.length (header_text hs))%nat.
Proof.
  induction hs as [|[k v] hs IH]; [done|]. simpl.
  rewrite -!length_str_to_list in IH |- *. rewrite !str_to_list_app !length_app /=. lia.
Qed.

Lemma formatHeaders_text ord r :
  formatHeaders ord r = header_text (prod_map id (λ vs, Join vs ", ") <$> range_visit ord (rsp_Headers r)).
Proof.
  rewrite /formatHeaders. set (l := range_visit _ _). clearbody l.
  assert (∀ acc, foldl (λ headers '(key, values),
    headers +:+ (key +:+ ": " +:+ Join values ", " +:+ crlf)) acc l =
    acc +:+ header_text (prod_map id (λ vs, Join vs ", ") <$> l)) as Hgo; [|apply Hgo].
  induction l as [|[k vs] l IH]; intros acc.
  - symmetry. apply str_append_nil_r.
  - cbn [foldl]. rewrite IH fmap_cons. cbn [header_text foldr]. rewrite /header_line.
    by rewrite !str_append_assoc.
Qed.

Lemma Phrase_no_cr c : no_cr (Phrase c).
Proof. rewrite /Phrase /no_cr. repeat case_bool_decide; set_solver. Qed.

Lemma range_visit_map ord (m : Headers) (f : list string → string) :
  range_order ord m →
  list_to_map (prod_map id f <$> range_visit ord m) = f <$> m.
Proof.
  intros Ho. apply map_eq. intros k. apply option_eq. intros v.
  assert (NoDup (prod_map id f <$> range_visit ord m).*1) as Hnd.
  { rewrite -list_fmap_compose.
    change (NoDup (range_visit ord m).*1).
    rewrite range_visit_fst //. by eapply range_order_NoDup. }
  rewrite -elem_of_list_to_map // list_elem_of_fmap lookup_fmap fmap_Some. split.
  - intros ([k' vs] & [= -> ->] & Hin). exists vs. by apply elem_of_range_visit_full in Hin.
  - intros (vs & Hm & ->). exists (k, vs). by rewrite elem_of_range_visit_full.
Qed.

Lemma Itoa_chars c z : (c = "013"%char ∨ c = " "%char) → c ∉ str_to_list (Itoa z).
Proof.
  intros Hc. destruct (decide (0 ≤ z)) as [Hz|Hz].
  - intros Hin. pose proof (Itoa_digits z Hz) as Hd. rewrite Forall_forall in Hd.
    specialize (Hd _ Hin). destruct Hc as [-> | ->]; by vm_compute in Hd.
  - destruct z as [|p|p]; [lia..|]. rewrite /Itoa /pretty /=.
    intros [->|Hin]%elem_of_cons; [by destruct Hc|].
    pose proof (Itoa_digits (Z.pos p) ltac:(done)) as Hd. rewrite Forall_forall in Hd.
    specialize (Hd _ Hin). destruct Hc as [-> | ->]; by vm_compute in Hd.
Qed.

(** ** What clients see *)


Definition demo_response : Response :=
  builder_Header "Content-Type" "text/html" (builder_Bytes "hi" (NewResponse None)).

