(* ===== verification/HttpListen.v ===== *)
(** * The accept loop of the Lab 1 server

    [Server.Listen] accepts connections for ever; the channel
    [server.connections], whose capacity is the maximal number of connections,
    is used as a counting semaphore: the loop sends the accepted connection
    before it starts the goroutine [handleConnection], whose deferred function
    closes the connection and then receives from the channel. The loop and the
    goroutines interleave; the step relation has one rule per channel
    operation, accept, [go] statement and handler body. *)
From S2P Require Import Prelude GoBase.

(** Connections are numbered in the order they are accepted. *)
Notation Conn := nat (only parsing).

(** Where the loop stands: in [Accept], at the send, or at the [go]. *)
Inductive LoopPc := Accepting | Sending (c : Conn) | Spawning (c : Conn).

(** A handler goroutine answers its connection and closes it, and then waits
    to receive from the channel. *)
Inductive HandlerPc := Serving | Receiving.

#[global] Instance HandlerPc_eq_dec : EqDecision HandlerPc.
Proof. solve_decision. Defined.

Record Listen := mkListen {
  chan : list Conn;                     (* the channel's buffer, oldest first *)
  loop : LoopPc;
  handlers : list (Conn * HandlerPc);   (* the goroutines *)
  closed : list Conn;                   (* connections answered and closed *)
  accepted : nat;                       (* how many were accepted *)
}.

Definition init_Listen : Listen := mkListen [] Accepting [] [] 0.

Section listen.
Context (maxConnections : nat).

Inductive listen_step : Listen → Listen → Prop :=
| step_accept ch hs cl n :
    listen_step (mkListen ch Accepting hs cl n) (mkListen ch (Sending n) hs cl (S n))
| step_send ch c hs cl n :
    (length ch < maxConnections)%nat →
    listen_step (mkListen ch (Sending c) hs cl n) (mkListen (ch ++ [c]) (Spawning c) hs cl n)
| step_handoff c hs1 d hs2 cl n :
    (* a receiver is waiting: the value goes straight to it *)
    listen_step (mkListen [] (Sending c) (hs1 ++ (d, Receiving) :: hs2) cl n)
                (mkListen [] (Spawning c) (hs1 ++ hs2) cl n)
| step_go ch c hs cl n :
    listen_step (mkListen ch (Spawning c) hs cl n) (mkListen ch Accepting (hs ++ [(c, Serving)]) cl n)
| step_serve ch lp hs1 d hs2 cl n :
    listen_step (mkListen ch lp (hs1 ++ (d, Serving) :: hs2) cl n)
                (mkListen ch lp (hs1 ++ (d, Receiving) :: hs2) (cl ++ [d]) n)
| step_receive x ch lp hs1 d hs2 cl n :
    listen_step (mkListen (x :: ch) lp (hs1 ++ (d, Receiving) :: hs2) cl n)
                (mkListen ch lp (hs1 ++ hs2) cl n).

(** The connection the loop holds, if any, and whether its slot is taken. *)
Definition pending (lp : LoopPc) : list Conn :=
  match lp with Accepting => [] | Sending c | Spawning c => [c] end.

Definition slot (lp : LoopPc) : nat := match lp with Spawning _ => 1 | _ => 0 end.

(** The connections that are being served. *)
Definition serving (hs : list (Conn * HandlerPc)) : list Conn :=
  (filter (λ h, h.2 = Serving) hs).*1.

Record listen_inv (s : Listen) : Prop := {
  inv_slots : length (chan s) = (length (handlers s) + slot (loop s))%nat;
  inv_cap : (length (chan s) ≤ maxConnections)%nat;
  inv_once : closed s ++ serving (handlers s) ++ pending (loop s) ≡ₚ seq 0 (accepted s);
}.

Lemma serving_app hs1 hs2 : serving (hs1 ++ hs2) = serving hs1 ++ serving hs2.
Proof. by rewrite /serving filter_app fmap_app. Qed.

Lemma serving_serving d hs : serving ((d, Serving) :: hs) = d :: serving hs.
Proof. done. Qed.

Lemma serving_receiving d hs : serving ((d, Receiving) :: hs) = serving hs.
Proof. done. Qed.

#[local] Arguments seq : simpl never.
#[local] Hint Rewrite serving_app serving_serving serving_receiving @length_app : labs.

Lemma listen_step_inv s s' : listen_inv s → listen_step s s' → listen_inv s'.
Proof.
  intros [Hsl Hcap Honce] Hstep. destruct Hstep; simpl in *;
    autorewrite with labs in *; simpl in *; split; simpl; autorewrite with labs; simpl;
    try (rewrite ?right_id_L in Honce |- *); try lia; try done.
  - rewrite seq_S /= assoc Honce //.
  - rewrite -Honce. solve_Permutation.

Qed.

Lemma listen_reachable_inv s : rtc listen_step init_Listen s → listen_inv s.
Proof.
  revert s. refine (rtc_ind_r listen_inv init_Listen _ _); [|by eauto using listen_step_inv].
  split; simpl; [done|lia|done].
Qed.

(** ** Draining: every handler can run to its end *)

Lemma drain ch lp hs cl n :
  length ch = (length hs + slot lp)%nat →
  ∃ ch', rtc listen_step (mkListen ch lp hs cl n) (mkListen ch' lp [] (cl ++ serving hs) n) ∧
    length ch' = slot lp.
Proof.
  revert ch cl. induction hs as [|[d []] hs IH]; intros ch cl Hl.
  - exists ch. rewrite right_id_L. split; [done|]. simpl in Hl. lia.
  - destruct ch as [|x ch]; [simpl in Hl; lia|].
    destruct (IH ch (cl ++ [d])) as (ch' & Hr & Hl'); [simpl in Hl; lia|].
    exists ch'. split; [|done]. rewrite serving_serving (assoc_L (++) cl [d]).
    eapply rtc_l; [apply (step_serve _ _ [])|]. eapply rtc_l; [apply (step_receive _ _ _ [])|done].
  - destruct ch as [|x ch]; [simpl in Hl; lia|].
    destruct (IH ch cl) as (ch' & Hr & Hl'); [simpl in Hl; lia|].
    exists ch'. split; [|done]. eapply rtc_l; [apply (step_receive _ _ _ [])|done].
Qed.

Lemma serve_pending ch lp cl n c :
  (0 < maxConnections)%nat → length ch = slot lp → c ∈ pending lp →
  ∃ s', rtc listen_step (mkListen ch lp [] cl n) s' ∧ c ∈ closed s'.
Proof.
  intros Hm Hl Hc. assert (∀ ch', ∃ s', rtc listen_step (mkListen ch' (Spawning c) [] cl n) s' ∧
    c ∈ closed s') as Hgo.
  { intros ch'. eexists. split; [eapply rtc_l; [apply step_go|]; apply rtc_once, (step_serve _ _ [])|].
    simpl. set_solver. }
  destruct lp as [|c'|c']; simpl in Hc, Hl; [set_solver|..]; assert (c' = c) as -> by set_solver.
  - destruct (Hgo (ch ++ [c])) as (s' & Hs & ?). exists s'. split; [|done].
    eapply rtc_l; [apply step_send; lia|done].
  - apply Hgo.
Qed.

Lemma no_slot_stuck s : maxConnections = 0%nat → rtc listen_step init_Listen s → closed s = [].
Proof.
  intros Hm. revert s. refine (rtc_ind_r (λ s, closed s = []) init_Listen _ _); [done|].
  intros s s' Hr Hstep IH.
  apply listen_reachable_inv in Hr as [Hsl Hcap _].
  destruct Hstep as [| | | |ch lp hs1 d hs2 cl n|]; simpl in *; try done.
  rewrite length_app /= in Hsl. lia.
Qed.

End listen.

(** C33: The connection limit: in every reachable state at most
    [maxConnections] handlers run, the loop is blocked at its send exactly
    when that many run, a handler that has closed its connection is never
    blocked on giving its slot back, and every accepted connection is in
    exactly one place: answered and closed once, being served by one handler,
    or held by the loop. *)
Theorem listen_bounded maxConnections s :
  rtc (listen_step maxConnections) init_Listen s →
  (length (handlers s) ≤ maxConnections)%nat ∧
  (∀ c, loop s = Sending c →
     (length (chan s) < maxConnections ↔ length (handlers s) < maxConnections)%nat) ∧
  (∀ c, (c, Receiving) ∈ handlers s → chan s ≠ []) ∧
  closed s ++ serving (handlers s) ++ pending (loop s) ≡ₚ seq 0 (accepted s).
Proof.
  intros [Hsl Hcap Honce]%listen_reachable_inv. split_and!; [lia|..|done].
  - intros c Hlp. rewrite Hlp /= in Hsl. lia.
  - intros c Hc Hch. rewrite Hch /= in Hsl. destruct (handlers s); [by apply elem_of_nil in Hc|].
    simpl in Hsl. lia.
Qed.

Lemma listen_bounded_witness :
  let s := mkListen [0%nat] (Sending 1) [(0%nat, Receiving)] [0%nat] 2 in
  rtc (listen_step 1) init_Listen s ∧ (length (handlers s) ≤ 1)%nat ∧ chan s ≠ [].
Proof.
  intros s. assert (rtc (listen_step 1) init_Listen s) as Hr.
  { eapply rtc_l; [apply step_accept|]. eapply rtc_l; [apply step_send; simpl; lia|].
    eapply rtc_l; [apply step_go|]. eapply rtc_l; [apply (step_serve _ _ _ [])|].
    apply rtc_once, step_accept. }
  destruct (listen_bounded 1 s Hr) as (H1 & _ & H2 & _).
  split_and!; [exact Hr|exact H1|apply (H2 0%nat); left].
Defined.

(** C34: With a positive limit every accepted connection can be served: from
    every reachable state the loop and the handlers can go on so that it is
    answered and closed. This fails exactly for the limit 0, which the command
    line accepts: the loop then blocks for ever on its first connection. *)
Theorem listen_serves maxConnections :
  (0 < maxConnections)%nat ↔
  ∀ s c, rtc (listen_step maxConnections) init_Listen s → (c < accepted s)%nat →
    ∃ s', rtc (listen_step maxConnections) s s' ∧ c ∈ closed s'.
Proof.
  split.
  - intros Hm s c Hr Hc. apply listen_reachable_inv in Hr as [Hsl _ Honce].
    assert (c ∈ closed s ++ serving (handlers s) ++ pending (loop s)) as Hin.
    { rewrite Honce elem_of_seq. lia. }
    destruct s as [ch lp hs cl n]. simpl in *.
    destruct (drain maxConnections ch lp hs cl n Hsl) as (ch' & Hr & Hl).
    rewrite assoc_L elem_of_app in Hin. destruct Hin as [Hin|Hin]; [by eexists|].
    destruct (serve_pending maxConnections ch' lp (cl ++ serving hs) n c) as (s' & ? & ?); [done..|].
    exists s'. split; [by etrans|done].
  - intros Hall. destruct (decide (maxConnections = 0%nat)) as [->|]; [exfalso|lia].
    assert (rtc (listen_step 0) init_Listen (mkListen [] (Sending 0) [] [] 1)) as Hr
      by apply rtc_once, step_accept.
    destruct (Hall _ 0%nat Hr) as (s' & Hs & Hc); [simpl; lia|].
    rewrite (no_slot_stuck 0 s') in Hc; [|done|by etrans]. by apply elem_of_nil in Hc.
Qed.
