(* ===== verification/HttpServer.v ===== *)
(** * The file server of Lab 1

    Models [Labs/Lab1/http_server]: the content-type table, the mapping of
    request paths to files under [./public], reading and uploading, and the GET
    and POST handlers. The disk is a map from clean absolute paths to files and
    directories (without symbolic links). Whatever else an operating-system
    call may answer is in the environment [Env]: a fault per call, the working
    directory, the random part of the temporary name. *)
From S2P Require Import Prelude GoBase GoUtf8 GoPath Http.

Inductive FErr :=
  | ErrNotExist | ErrPermission | ErrInvalid | errUnsupportedContentType
  | FOther (msg : string).

Inductive Node := File (data : string) | Dir.
Notation Disk := (gmap string Node).

Record Env := mkEnv {
  e_Getwd : option string;
  e_lower : Z → Z;                 (* the lower case of the runes above ASCII *)
  e_Stat : string → option FErr;   (* faults of the calls, [None] for success *)
  e_ReadFile : string → option FErr;
  e_CreateTemp : option FErr;
  e_TempSuffix : string;           (* digits *)
  e_Copied : nat;                  (* bytes written before a failed copy *)
  e_Copy : option FErr;
  e_Sync : option FErr;
  e_Close : option FErr;
  e_Rename : option FErr;
  e_Remove : bool;                 (* does [os.Remove] succeed? *)
}.

Definition publicDir : string := "./public".

Definition allowedContentTypes : gmap string string :=
  list_to_map [(".html", "text/html"); (".txt", "text/plain"); (".css", "text/css");
               (".jpg", "image/jpeg"); (".jpeg", "image/jpeg"); (".gif", "image/gif")].

Section env.
Context (env : Env).

Definition contentTypeForPath (p : string) : option string :=
  let ext := ToLower (e_lower env) (Ext p) in
  allowedContentTypes !! ext.

Definition resolvePath (requestPath : string) : FErr + string :=
  let cleaned := Clean ("/" +:+ requestPath) in
  let cleaned := TrimPrefix cleaned "/" in
  let fullPath := path_Join [publicDir; cleaned] in
  match Abs (e_Getwd env) publicDir with
  | None => inl (FOther "getwd")
  | Some absBase =>
      match Abs (e_Getwd env) fullPath with
      | None => inl (FOther "getwd")
      | Some absFull =>
          match Rel absBase absFull with
          | None => inl (FOther "Rel: can't make relative")
          | Some rel => if HasPrefix rel ".." then inl ErrPermission else inr absFull
          end
      end
  end.

(** ** The disk *)

(** Looking a path up, one directory at a time. *)
Fixpoint walk (disk : Disk) (dir rest : list string) : FErr + Node :=
  match disk !! abs_of dir with
  | None => inl ErrNotExist
  | Some n =>
      match rest, n with
      | [], _ => inr n
      | s :: rest', Dir => walk disk (dir ++ [s]) rest'
      | _ :: _, File _ => inl (FOther "not a directory")
      end
  end.

Definition os_Stat (disk : Disk) (p : string) : FErr + Node :=
  match e_Stat env p with Some e => inl e | None => walk disk [] (clean_segs p) end.

Definition os_ReadFile (disk : Disk) (p : string) : FErr + string :=
  match e_ReadFile env p with
  | Some e => inl e
  | None => match walk disk [] (clean_segs p) with
            | inl e => inl e
            | inr Dir => inl (FOther "is a directory")
            | inr (File data) => inr data
            end
  end.

(** A relative path as the operating system resolves it. *)
Definition os_path (p : string) : option string := Abs (e_Getwd env) p.

(** [os.CreateTemp(publicDir, "upload-")]: the name of the new file and its
    place on the disk. *)
Definition os_CreateTemp (disk : Disk) : FErr + (string * Disk) :=
  match e_CreateTemp env, os_path publicDir,
        os_path (publicDir +:+ "/upload-" +:+ e_TempSuffix env) with
  | Some e, _, _ => inl e
  | None, Some dir, Some name =>
      match walk disk [] (clean_segs dir) with
      | inl e => inl e
      | inr (File _) => inl (FOther "not a directory")
      | inr Dir =>
          match disk !! name with
          | Some _ => inl (FOther "file exists")
          | None => inr (name, <[name := File ""]> disk)
          end
      end
  | None, _, _ => inl ErrNotExist
  end.

(** [os.Rename(old, new)] within a directory *)
Definition os_Rename (disk : Disk) (old new : string) : Disk * option FErr :=
  match e_Rename env with
  | Some e => (disk, Some e)
  | None =>
      match disk !! old, disk !! new with
      | None, _ => (disk, Some ErrNotExist)
      | _, Some Dir => (disk, Some (FOther "file exists"))
      | Some n, _ => (<[new := n]> (delete old disk), None)
      end
  end.

Definition os_Remove (disk : Disk) (p : string) : Disk :=
  if e_Remove env then delete p disk else disk.

(** ** Reading and uploading *)

Definition readFile (disk : Disk) (requestPath : string) : FErr + string :=
  match resolvePath requestPath with
  | inl err => inl err
  | inr diskPath =>
      match os_Stat disk diskPath with
      | inl err => inl err
      | inr Dir => inl ErrInvalid
      | inr (File _) => os_ReadFile disk diskPath
      end
  end.

(** The body of [saveUploadedFile] after the file is created, up to the
    deferred removal; [io.Copy] fails when the reader or the disk fails. *)
Definition save_steps (disk : Disk) (tmpName body : string) (body_err : bool)
    (destination : string) : Disk * option FErr :=
  match e_Copy env, body_err with
  | Some e, _ => (<[tmpName := File (String.substring 0 (e_Copied env) body)]> disk, Some e)
  | None, true => (<[tmpName := File body]> disk, Some (FOther "read"))
  | None, false =>
      let disk := <[tmpName := File body]> disk in
      match e_Sync env, e_Close env with
      | Some e, _ => (disk, Some e)
      | None, Some e => (disk, Some e)
      | None, None => os_Rename disk tmpName destination
      end
  end.

Definition saveUploadedFile (disk : Disk) (body : string) (body_err : bool)
    (destination : string) : Disk * option FErr :=
  match os_CreateTemp disk with
  | inl err => (disk, Some err)
  | inr (tmpName, disk1) =>
      let '(disk2, err) := save_steps disk1 tmpName body body_err destination in
      (os_Remove disk2 tmpName, err)
  end.

Definition writeFile (disk : Disk) (requestPath body : string) (body_err : bool) : Disk * option FErr :=
  let filename := Base requestPath in
  if bool_decide (filename ∈ [""; "."; "/"]) then (disk, Some ErrInvalid) else
  match contentTypeForPath filename with
  | None => (disk, Some errUnsupportedContentType)
  | Some _ =>
      match resolvePath filename with
      | inl err => (disk, Some err)
      | inr destination => saveUploadedFile disk body body_err destination
      end
  end.

(** ** The handlers *)

Definition statusFromFileError (err : FErr) : Z :=
  match err with
  | ErrNotExist => NotFound
  | ErrPermission | ErrInvalid | errUnsupportedContentType => BadRequest
  | FOther _ => InternalServerError
  end.

Definition getHandler : RequestHandler Disk := λ r rb disk,
  match contentTypeForPath (req_URL_Path r) with
  | None => (disk, (rb, Some (EHTTPError BadRequest)))
  | Some contentType =>
      match readFile disk (req_URL_Path r) with
      | inl err => (disk, (rb, Some (EHTTPError (statusFromFileError err))))
      | inr data => (disk, (builder_Header "Content-Type" contentType (builder_Bytes data rb), None))
      end
  end.

Definition postHandler : RequestHandler Disk := λ r rb disk,
  let '(disk', err) := writeFile disk (req_URL_Path r) (req_Body r) (req_Body_err r) in
  match err with
  | Some e => (disk', (rb, Some (EHTTPError (statusFromFileError e))))
  | None => (disk', (builder_Status Created rb, None))
  end.

Definition file_server : Server Disk :=
  server_Post postHandler (server_Get getHandler NewServer).

End env.

(** [net.JoinHostPort(host, port)] *)
Definition JoinHostPort (host port : string) : string :=
  if Contains host ":" || Contains host "%" then "[" +:+ host +:+ "]:" +:+ port
  else host +:+ ":" +:+ port.

(** The flags of the command line and its other arguments. *)
Record Flags := mkFlags {
  f_host : string; f_port : string; f_portAlias : string; f_maxConnections : nat;
  f_args : list string;
}.

Definition flags_port (f : Flags) : string :=
  match f_args f with
  | a :: _ => a
  | [] => if bool_decide (f_portAlias f = "") then f_port f else f_portAlias f
  end.

(** [main]: what it hands to [Listen], unless [os.MkdirAll] fails. *)
Definition server_main (env : Env) (mkdir : Disk → option Disk) (f : Flags) (disk : Disk) :
    option (Disk * Server Disk * string * nat) :=
  disk' ← mkdir disk;
  Some (disk', file_server env, JoinHostPort (f_host f) (flags_port f), f_maxConnections f).
