(* ===== verification/HttpServerThm.v ===== *)
(** * The file server is confined, atomic and consistent

    Theorems on [HttpServer]: no request leaves the public directory, an
    upload either appears whole or leaves no trace, and what was uploaded is
    what a later GET returns. *)
From S2P Require Import Prelude GoBase GoUtf8 GoPath Http HttpServer.

(** Does the request name an entry whose first segment starts with two dots? *)
Definition dotdot_name (p : string) : bool :=
  match rooted_segs p with s :: _ => HasPrefix s ".." | [] => false end.

(** The place a request path denotes when the server was started in [/wd]. *)
Definition public_path (wd : string) (l : list string) : string :=
  abs_of (rooted_segs wd ++ "public" :: l).

#[global] Arguments public_path : simpl never.

Lemma public_path_app wd l : public_path wd l = abs_of ((rooted_segs wd ++ ["public"]) ++ l).
Proof. by rewrite -assoc_L. Qed.

Lemma proper_public : proper_seg "public".
Proof. split_and!; [by_decide|done..]. Qed.

#[local] Hint Resolve proper_public : labs.

Lemma TrimPrefix_abs_of l : TrimPrefix (abs_of l) "/" = Join l "/".
Proof. rewrite /TrimPrefix -/(IsAbs (abs_of l)) IsAbs_abs_of /=. apply str_of_to_list. Qed.

Lemma join_public l :
  Forall proper_seg l → path_Join [publicDir; Join l "/"] = Join ("public" :: l) "/".
Proof.
  intros Hl. destruct (decide (l = [])) as [->|Hne]; [done|].
  change (Clean ("./" +:+ ("public" +:+ "/" +:+ Join l "/")) = Join ("public" :: l) "/").
  rewrite -Join_cons //. apply Clean_relative; [|done]. by constructor; auto with labs.
Qed.

Lemma Abs_public wd l :
  Forall proper_seg l →
  Abs (Some (String "/" wd)) (Join ("public" :: l) "/") = Some (public_path wd l).
Proof.
  intros Hl. assert (Forall proper_seg ("public" :: l)) by (constructor; auto with labs).
  apply Abs_relative; [done|done|]. by apply IsAbs_Join_proper.
Qed.

Lemma Abs_dot_slash wd l :
  Forall proper_seg l → l ≠ [] →
  Abs (Some (String "/" wd)) ("./" +:+ Join l "/") = Some (abs_of (rooted_segs wd ++ l)).
Proof.
  intros Hl Hne.
  change (Some (Clean (String "/" (wd +:+ String "/" ("./" +:+ Join l "/")))) =
          Some (abs_of (rooted_segs wd ++ l))).
  rewrite Clean_rooted /rooted_segs segs_app clean_stack_app.
  change (segs ("./" +:+ Join l "/")) with ("." :: segs (Join l "/")).
  rewrite segs_Join; [|done|auto with labs].
  rewrite clean_stack_cons clean_stack_proper_input // reverse_app reverse_involutive //.
Qed.

Lemma HasPrefix_dotdot_Join s l :
  noslash s → HasPrefix (Join (s :: l) "/") ".." = HasPrefix s "..".
Proof.
  intros Hs. destruct l as [|s' l]; [done|]. rewrite Join_cons //.
  apply eq_bool_prop_intro. rewrite !Is_true_true !HasPrefix_true. split.
  - intros [t Ht]. destruct s as [|a [|b s]]; simplify_eq/=. by exists s.
  - intros [t ->]. eexists. by rewrite str_append_assoc.
Qed.

Section resolve.
Context (env : Env) (wd : string).
Hypothesis Hwd : e_Getwd env = Some (String "/" wd).

Lemma resolvePath_eq p :
  resolvePath env p =
    if dotdot_name p then inl ErrPermission else inr (public_path wd (rooted_segs p)).
Proof.
  rewrite /resolvePath (Clean_rooted p) TrimPrefix_abs_of join_public; [|auto with labs].
  rewrite Hwd (Abs_dot_slash wd ["public"]); [|by constructor; auto with labs|done].
  rewrite Abs_public; [|auto with labs]. rewrite public_path_app.
  rewrite Rel_below; [|apply Forall_app; split; [auto with labs|by constructor; auto with labs]|auto with labs].
  rewrite /dotdot_name. pose proof (rooted_segs_proper p) as Hp.
  destruct Hp as [|s l [Hs _] _]; [done|]. by rewrite HasPrefix_dotdot_Join.
Qed.

End resolve.

(** C8: No request escapes the public directory. For a server started in any
    directory and any request path, with any mixture of slashes, dots and
    dot-dots, let [l] be the plain names the path denotes when its dot and
    dot-dot segments are resolved from the root, where a dot-dot stays. Then
    [resolvePath] gives the place of [l] below the public directory, unless the
    first of these names starts with two dots: it refuses those, which is not
    needed for containment and refuses files such as [..notes.txt] that lie in
    the directory. *)
Theorem resolvePath_contained env wd p :
  e_Getwd env = Some (String "/" wd) →
  let l := rooted_segs p in
  Forall proper_seg l ∧
  (resolvePath env p = inr (public_path wd l) ∧ (∀ s l', l = s :: l' → HasPrefix s ".." = false) ∨
   resolvePath env p = inl ErrPermission ∧ ∃ s l', l = s :: l' ∧ HasPrefix s ".." = true).
Proof.
  intros Hwd l. split; [apply rooted_segs_proper|].
  pose proof (resolvePath_eq env wd Hwd p) as ->. rewrite /dotdot_name -/l. clearbody l.
  destruct l as [|s l']; [by left|]. destruct (HasPrefix s "..") eqn:Hs; [by right; eauto|left]. split; [done|]. by intros ? ? [= <- <-].
Qed.

Definition demo_env : Env :=
  mkEnv (Some "/srv") id (λ _, None) (λ _, None) None "42" 0 None None None None true.

Lemma resolvePath_contained_witness :
  resolvePath demo_env "/..notes.txt" = inl ErrPermission ∧
  resolvePath demo_env "/../a//b/../../etc/./passwd" = inr "/srv/public/etc/passwd".
Proof.
  split; [vm_compute; reflexivity|].
  destruct (resolvePath_contained demo_env "srv" "/../a//b/../../etc/./passwd") as [_ [[-> _]|[H _]]];
    [reflexivity|vm_compute; reflexivity|vm_compute in H; discriminate].
Defined.

(** ** Looking files up *)

Lemma clean_segs_public wd l :
  Forall proper_seg l → clean_segs (public_path wd l) = rooted_segs wd ++ "public" :: l.
Proof.
  intros Hl. apply clean_segs_abs_of, Forall_app. split; [auto with labs|].
  constructor; auto with labs.
Qed.

Lemma public_path_inj wd l1 l2 :
  Forall proper_seg l1 → Forall proper_seg l2 → public_path wd l1 = public_path wd l2 → l1 = l2.
Proof.
  intros H1 H2 He%(f_equal clean_segs). rewrite !clean_segs_public // in He. by simplify_eq.
Qed.

(** A new entry of an existing directory is found. *)
Lemma walk_insert disk dir rest s n :
  Forall proper_seg (dir ++ rest ++ [s]) → walk disk dir rest = inr Dir →
  walk (<[abs_of (dir ++ rest ++ [s]) := n]> disk) dir (rest ++ [s]) = inr n.
Proof.
  revert dir. induction rest as [|s' rest IH]; intros dir Hp Hw; simpl in *.
  - assert (abs_of dir ≠ abs_of (dir ++ [s])) as Hne.
    { intros He%abs_of_inj; [|by apply Forall_app in Hp as [? _]|done].
      apply (f_equal length) in He. rewrite length_app /= in He. lia. }
    rewrite lookup_insert_ne //. destruct (disk !! abs_of dir); [|done].
    simplify_eq. by rewrite lookup_insert_eq.
  - assert (abs_of dir ≠ abs_of (dir ++ s' :: rest ++ [s])) as Hne.
    { intros He%abs_of_inj; [|by apply Forall_app in Hp as [? _]|done].
      apply (f_equal length) in He. rewrite length_app /= in He. lia. }
    rewrite lookup_insert_ne //. destruct (disk !! abs_of dir) as [[]|]; [done| |done].
    specialize (IH (dir ++ [s'])). rewrite -!assoc_L in IH. by apply IH.
Qed.

(** What a GET for the entry [l] of the public directory has to answer. *)
Definition get_ref (wd : string) (disk : Disk) (p : string) (ct : option string) : Z + (string * string) :=
  match ct with
  | None => inl BadRequest
  | Some ct =>
      if dotdot_name p then inl BadRequest else
      match walk disk [] (rooted_segs wd ++ "public" :: rooted_segs p) with
      | inr (File data) => inr (data, ct)
      | inr Dir => inl BadRequest
      | inl ErrNotExist => inl NotFound
      | inl _ => inl InternalServerError
      end
  end.

Definition get_response (data ct proto : string) : Response :=
  mkResponse proto Ok
    (<["Content-Type" := [ct]]> {["Content-Length" := [Itoa (slen data)]]}) data.

Lemma walk_error disk dir rest e :
  walk disk dir rest = inl e → e = ErrNotExist ∨ e = FOther "not a directory".
Proof.
  revert dir. induction rest as [|s rest IH]; intros dir; simpl;
    destruct (disk !! abs_of dir) as [[]|]; naive_solver.
Qed.

Lemma readFile_ref env wd disk p :
  e_Getwd env = Some (String "/" wd) → (∀ q, e_Stat env q = None) → (∀ q, e_ReadFile env q = None) →
  match readFile env disk p with
  | inr data => get_ref wd disk p (Some "") = inr (data, "")
  | inl e => get_ref wd disk p (Some "") = inl (statusFromFileError e)
  end.
Proof.
  intros Hwd Hs Hr. rewrite /readFile (resolvePath_eq env wd Hwd) /get_ref.
  destruct (dotdot_name p); [done|]. rewrite /os_Stat /os_ReadFile Hs Hr.
  rewrite clean_segs_public; [|auto with labs].
  destruct (walk _ _ _) as [e|[data|]] eqn:Hw; [|done..].
  by apply walk_error in Hw as [-> | ->].
Qed.

Lemma handle_get env req disk :
  req_Method req = "GET" →
  handleRequest (file_server env) req disk =
    let '(w', (rb, err)) := getHandler env req (NewResponse (Some req)) disk in
    match err with Some e => (w', inl e) | None => (w', inr rb) end.
Proof. intros Hm. rewrite /handleRequest Hm. done. Qed.

Lemma handle_post env req disk :
  req_Method req = "POST" →
  handleRequest (file_server env) req disk =
    let '(w', (rb, err)) := postHandler env req (NewResponse (Some req)) disk in
    match err with Some e => (w', inl e) | None => (w', inr rb) end.
Proof. intros Hm. rewrite /handleRequest Hm. done. Qed.

Definition proto_of (req : Request) : string := Protocol (NewResponse (Some req)).

Lemma builder_get data ct req :
  builder_Header "Content-Type" ct (builder_Bytes data (NewResponse (Some req))) =
  get_response data ct (proto_of req).
Proof. rewrite /builder_Header /builder_Bytes /get_response /=. by f_equal. Qed.

(** GET, when the operating system reports no fault of its own. *)
Lemma get_correct env wd req disk :
  e_Getwd env = Some (String "/" wd) → (∀ q, e_Stat env q = None) → (∀ q, e_ReadFile env q = None) →
  req_Method req = "GET" →
  handleRequest (file_server env) req disk =
    (disk, match get_ref wd disk (req_URL_Path req) (contentTypeForPath env (req_URL_Path req)) with
           | inl status => inl (EHTTPError status)
           | inr (data, ct) => inr (get_response data ct (proto_of req))
           end).
Proof.
  intros Hwd Hs Hr Hm. rewrite handle_get // /getHandler.
  destruct (contentTypeForPath env _) as [ct|] eqn:Hct; [|done].
  pose proof (readFile_ref env wd disk (req_URL_Path req) Hwd Hs Hr) as Href.
  destruct (readFile _ _ _) as [e|data].
  - unfold get_ref in *. destruct (dotdot_name _); [congruence|].
    destruct (walk _ _ _) as [[]|[]]; congruence.
  - unfold get_ref in *. destruct (dotdot_name _); [done|].
    destruct (walk _ _ _) as [[]|[]]; simplify_eq/=.
    by rewrite builder_get.
Qed.

(** ** Uploads *)

Record env_ok (env : Env) (wd : string) : Prop := {
  ok_Getwd : e_Getwd env = Some (String "/" wd);
  ok_suffix : Forall is_digit (str_to_list (e_TempSuffix env));
}.

Definition temp_name (env : Env) : string := "upload-" +:+ e_TempSuffix env.

Lemma digit_not c : is_digit c → c ≠ "/"%char ∧ c ≠ "."%char.
Proof. intros Hd. split; intros ->; by vm_compute in Hd. Qed.

Lemma temp_name_chars env wd c :
  env_ok env wd → c ∈ str_to_list (temp_name env) → c ≠ "/"%char ∧ c ≠ "."%char.
Proof.
  intros [_ Hs]. rewrite /temp_name str_to_list_app elem_of_app. intros [Hc|Hc].
  - assert (Forall (λ c, c ≠ "/"%char ∧ c ≠ "."%char) (str_to_list "upload-")) as Hu by by_decide.
    by eapply Forall_forall in Hu.
  - eapply Forall_forall in Hs; [|done]. by apply digit_not.
Qed.

Lemma temp_name_proper env wd : env_ok env wd → proper_seg (temp_name env).
Proof.
  intros He. split_and!; try done. intros Hin. by eapply temp_name_chars in Hin as [? _].
Qed.

Lemma Ext_go_nodot r acc : "."%char ∉ r → Ext_go r acc = [].
Proof.
  revert acc. induction r as [|a r IH]; intros acc; simpl; [done|].
  intros [Ha Hr]%not_elem_of_cons. case_bool_decide; [done|]. rewrite bool_decide_false //. by apply IH.
Qed.

Lemma Ext_go_slash r acc : Ext_go (r ++ ["/"%char]) acc = Ext_go r acc.
Proof. revert acc. induction r as [|a r IH]; intros acc; simpl; [done|]. by rewrite IH. Qed.

Lemma Ext_slash f : Ext (String "/" f) = Ext f.
Proof. rewrite /Ext /= reverse_cons Ext_go_slash //. Qed.

Lemma temp_name_not_allowed env wd : env_ok env wd → contentTypeForPath env (temp_name env) = None.
Proof.
  intros He. rewrite /contentTypeForPath /Ext Ext_go_nodot; [done|].
  rewrite elem_of_reverse. intros Hin. by eapply temp_name_chars in Hin as [_ ?].
Qed.

(** A name with an allowed extension is a plain file name. *)
Lemma allowed_proper env f ct :
  contentTypeForPath env f = Some ct → noslash f → proper_seg f.
Proof. intros Hct Hs. split_and!; [done|..]; intros ->; by vm_compute in Hct. Qed.

Lemma rooted_segs_name f : proper_seg f → rooted_segs f = [f].
Proof. intros Hf. by rewrite -{1}(rooted_segs_Join [f]) //; constructor. Qed.

Lemma rooted_segs_slash f : rooted_segs (String "/" f) = rooted_segs f.
Proof. done. Qed.

Lemma os_path_public env wd l :
  env_ok env wd → Forall proper_seg l →
  os_path env ("./" +:+ Join ("public" :: l) "/") = Some (public_path wd l).
Proof.
  intros [Hwd _] Hl. rewrite /os_path Hwd Abs_dot_slash //. constructor; auto with labs.
Qed.

Lemma CreateTemp_spec env wd disk name disk1 :
  env_ok env wd → os_CreateTemp env disk = inr (name, disk1) →
  name = public_path wd [temp_name env] ∧ disk !! name = None ∧ disk1 = <[name := File ""]> disk ∧
  walk disk [] (rooted_segs wd ++ ["public"]) = inr Dir.
Proof.
  intros He. rewrite /os_CreateTemp.
  change publicDir with ("./" +:+ Join ["public"] "/") at 1.
  change (publicDir +:+ "/upload-" +:+ e_TempSuffix env) with
    ("./" +:+ Join ["public"; temp_name env] "/").
  rewrite !(os_path_public env wd) //; [|by repeat constructor; eapply temp_name_proper].
  rewrite clean_segs_public //.
  destruct (e_CreateTemp env); [done|]. destruct (walk _ _ _) as [|[]] eqn:Hw; [done..|].
  destruct (disk !! _) eqn:Hd; [done|]. intros ?; simplify_eq. done.
Qed.

(** No step of an upload failed. *)
Definition no_fault (env : Env) (body_err : bool) : Prop :=
  body_err = false ∧ e_CreateTemp env = None ∧ e_Copy env = None ∧ e_Sync env = None ∧
  e_Close env = None ∧ e_Rename env = None.

(** An upload either puts the whole body in place or leaves the disk alone. *)
Lemma saveUploadedFile_cases env wd disk body body_err dest :
  env_ok env wd → e_Remove env = true → dest ≠ public_path wd [temp_name env] →
  (∃ err, saveUploadedFile env disk body body_err dest = (disk, Some err)) ∨
  saveUploadedFile env disk body body_err dest = (<[dest := File body]> disk, None) ∧
    no_fault env body_err ∧ walk disk [] (rooted_segs wd ++ ["public"]) = inr Dir.
Proof.
  intros He Hrm Hne. rewrite /saveUploadedFile.
  destruct (os_CreateTemp env disk) as [err|[tmp disk1]] eqn:Hc; [by left; exists err|].
  destruct (CreateTemp_spec _ _ _ _ _ He Hc) as (-> & Hfresh & -> & Hw).
  set (tmp := public_path wd [temp_name env]) in *.
  assert (∀ n m, delete tmp (<[tmp := n]> (<[tmp := m]> disk)) = disk) as Hdel.
  { intros n m. rewrite insert_insert_eq delete_insert_eq delete_id //. }
  assert (e_CreateTemp env = None) as Hct by (rewrite /os_CreateTemp in Hc; by destruct (e_CreateTemp env)).
  rewrite /no_fault Hct /save_steps /os_Rename /os_Remove Hrm !lookup_insert_eq lookup_insert_ne // lookup_insert_ne //.
  destruct (e_Copy env), body_err, (e_Sync env), (e_Close env), (e_Rename env), (disk !! dest) as [[]|];
    rewrite ?Hdel; try (by left; eexists);
    (right; split; [|done]; rewrite delete_insert_ne // delete_id //).
Qed.

(** The destination of an upload, when it has one. *)
Lemma writeFile_cases env wd disk p body body_err :
  env_ok env wd → e_Remove env = true →
  (∃ err, writeFile env disk p body body_err = (disk, Some err)) ∨
  ∃ ct, writeFile env disk p body body_err = (<[public_path wd [Base p] := File body]> disk, None) ∧
    no_fault env body_err ∧ contentTypeForPath env (Base p) = Some ct ∧ proper_seg (Base p) ∧
    dotdot_name (Base p) = false ∧ walk disk [] (rooted_segs wd ++ ["public"]) = inr Dir.
Proof.
  intros He Hrm. rewrite /writeFile. case_bool_decide as Hspecial; [by left; eexists|].
  destruct (contentTypeForPath env (Base p)) as [ct|] eqn:Hct; [|by left; eexists].
  assert (proper_seg (Base p)) as Hp.
  { apply (allowed_proper _ _ _ Hct). destruct (Base_cases p) as [Hb|[Hb|[? _]]]; [|by set_solver|done].
    rewrite Hb in Hct. by vm_compute in Hct. }
  rewrite (resolvePath_eq env wd (ok_Getwd _ _ He)). destruct (dotdot_name (Base p)) eqn:Hdd; [by left; eexists|].
  rewrite rooted_segs_name //.
  destruct (saveUploadedFile_cases env wd disk body body_err (public_path wd [Base p]))
    as [?|(-> & ? & ?)]; [done|done| |by left|right; by exists ct].
  intros Heq%public_path_inj; [|by constructor|constructor; [by eapply temp_name_proper|done]].
  injection Heq as Heq. rewrite Heq (temp_name_not_allowed _ _ He) in Hct. done.
Qed.

(** GET serves exactly the public tree. When the operating system
    reports no fault of its own, a GET answers 200 with the whole content of a
    file, its length and its content type, exactly when the extension is in
    the table, the first name does not start with two dots and the path names a
    file below the public directory; it answers 404 when the path does not
    exist, 400 for a directory, an extension outside the table or a name that
    starts with two dots, 500 when the path leads through a file; and it never
    changes the disk. *)
Theorem GET_correct env wd req disk :
  e_Getwd env = Some (String "/" wd) → (∀ q, e_Stat env q = None) → (∀ q, e_ReadFile env q = None) →
  req_Method req = "GET" →
  handleRequest (file_server env) req disk =
    (disk, match get_ref wd disk (req_URL_Path req) (contentTypeForPath env (req_URL_Path req)) with
           | inl status => inl (EHTTPError status)
           | inr (data, ct) => inr (get_response data ct (proto_of req))
           end).
Proof. apply get_correct. Qed.

Definition demo_disk : Disk :=
  list_to_map [("/", Dir); ("/srv", Dir); ("/srv/public", Dir); ("/srv/public/a.txt", File "hello")].

Definition demo_request (method path body : string) : Request :=
  mkRequest method "HTTP/1.1" path "" "localhost" ∅ path body false.

Lemma GET_correct_witness :
  handleRequest (file_server demo_env) (demo_request "GET" "/x/../a.TXT" "") demo_disk =
    (demo_disk, inl (EHTTPError NotFound)) ∧
  handleRequest (file_server demo_env) (demo_request "GET" "/x/../a.txt" "") demo_disk =
    (demo_disk, inr (get_response "hello" "text/plain" "HTTP/1.1")).
Proof.
  split; (rewrite (GET_correct demo_env "srv"); [vm_compute; reflexivity|reflexivity..]).
Defined.

(** POST is atomic. Whatever fails (the reader, creating, writing,
    syncing, closing or renaming the temporary file), if the temporary file can
    be removed the disk is exactly what it was; a POST that answers 201 met no
    fault in any of these steps and has stored exactly the body sent, under the
    last name of the request path directly in the public directory, and changed
    nothing else. *)
Theorem POST_atomic env wd req disk :
  env_ok env wd → e_Remove env = true → req_Method req = "POST" →
  (∃ err, handleRequest (file_server env) req disk = (disk, inl err)) ∨
  ∃ r, handleRequest (file_server env) req disk =
      (<[public_path wd [Base (req_URL_Path req)] := File (req_Body req)]> disk, inr r) ∧
    rsp_StatusCode r = Created ∧ no_fault env (req_Body_err req) ∧ proper_seg (Base (req_URL_Path req)).
Proof.
  intros He Hrm Hm. rewrite handle_post // /postHandler.
  destruct (writeFile_cases env wd disk (req_URL_Path req) (req_Body req) (req_Body_err req) He Hrm)
    as [[err ->]|(ct & -> & ? & _ & ? & _)]; [left; by eexists|].
  right. eexists. done.
Qed.

Lemma POST_atomic_witness :
  env_ok demo_env "srv" ∧
  handleRequest (file_server demo_env) (demo_request "POST" "/deep/b.gif" "GIF") demo_disk =
    (<["/srv/public/b.gif" := File "GIF"]> demo_disk,
     inr (builder_Status Created (NewResponse None))) ∧
  ((∃ err, handleRequest (file_server demo_env) (demo_request "POST" "/b.exe" "x") demo_disk =
      (demo_disk, inl err)) ∨
   ∃ r, handleRequest (file_server demo_env) (demo_request "POST" "/b.exe" "x") demo_disk =
      (<["/srv/public/b.exe" := File "x"]> demo_disk, inr r) ∧
    rsp_StatusCode r = Created ∧ no_fault demo_env false ∧ proper_seg "b.exe").
Proof.
  assert (env_ok demo_env "srv") as He by (split; [reflexivity|by_decide]).
  split; [exact He|]. split; [vm_compute; reflexivity|].
  apply (POST_atomic demo_env "srv" (demo_request "POST" "/b.exe" "x") demo_disk He); reflexivity.
Defined.

(** C32: What was uploaded is what is served: after a POST that answered 201,
    a GET for the last name of its path answers 200 with the body that was
    sent, the right length, and the content type of the name's extension. *)
Theorem POST_GET_roundtrip env env' wd post get disk disk' r :
  env_ok env wd → e_Remove env = true → req_Method post = "POST" →
  handleRequest (file_server env) post disk = (disk', inr r) →
  e_Getwd env' = Some (String "/" wd) → e_lower env' = e_lower env →
  (∀ q, e_Stat env' q = None) → (∀ q, e_ReadFile env' q = None) →
  req_Method get = "GET" → req_URL_Path get = "/" +:+ Base (req_URL_Path post) →
  ∃ ct, contentTypeForPath env (Base (req_URL_Path post)) = Some ct ∧
    handleRequest (file_server env') get disk' =
      (disk', inr (get_response (req_Body post) ct (proto_of get))).
Proof.
  intros He Hrm Hpost Hrun Hwd Hlow Hs Hr Hget Hpath.
  rewrite handle_post // /postHandler in Hrun.
  destruct (writeFile_cases env wd disk (req_URL_Path post) (req_Body post) (req_Body_err post) He Hrm)
    as [[err Hw]|(ct & Hw & _ & Hct & Hp & Hdd & Hdir)]; rewrite Hw in Hrun; simplify_eq/=.
  exists ct. split; [done|]. rewrite (get_correct env' wd) // Hpath.
  set (f := Base (req_URL_Path post)) in *. change ("/" +:+ f) with (String "/" f).
  replace (contentTypeForPath env' (String "/" f)) with (Some ct);
    [|rewrite -Hct /contentTypeForPath Ext_slash Hlow //].
  rewrite /get_ref /dotdot_name rooted_segs_slash. rewrite /dotdot_name in Hdd. rewrite Hdd.
  rewrite (rooted_segs_name f) // public_path_app.
  replace (rooted_segs wd ++ ["public"; f]) with ((rooted_segs wd ++ ["public"]) ++ [f])
    by by rewrite -assoc_L.
  rewrite (walk_insert disk [] (rooted_segs wd ++ ["public"]) f (File (req_Body post))); [done| |done].
  rewrite -!assoc_L. simpl. apply Forall_app. split; [auto with labs|].
  constructor; [apply proper_public|by constructor].
Qed.

Lemma POST_GET_roundtrip_witness :
  ∃ ct, contentTypeForPath demo_env "b.gif" = Some ct ∧
    handleRequest (file_server demo_env) (demo_request "GET" "/b.gif" "")
      (handleRequest (file_server demo_env) (demo_request "POST" "/deep/b.gif" "GIF") demo_disk).1 =
    ((handleRequest (file_server demo_env) (demo_request "POST" "/deep/b.gif" "GIF") demo_disk).1,
     inr (get_response "GIF" ct "HTTP/1.1")).
Proof.
  apply (POST_GET_roundtrip demo_env demo_env "srv" (demo_request "POST" "/deep/b.gif" "GIF")
    (demo_request "GET" "/b.gif" "") demo_disk _ (builder_Status Created (NewResponse None)));
    [split; [reflexivity|by_decide]|reflexivity|reflexivity|vm_compute; reflexivity|reflexivity..].
Defined.
