(* ===== verification/HttpConc.v ===== *)
(** * The file server with concurrent connections

    [Listen] runs one goroutine per connection, and the handlers of
    [http_server.go] share the public directory without any lock. Here the
    handlers of [HttpServer] are taken apart into their system calls, so that
    the calls of many requests can be interleaved.

    A name of the disk leads to a directory or to an inode. An open file is an
    inode: renaming or removing the name it was opened by does not touch it, and
    [os.ReadFile] and [io.Copy] move bytes a piece at a time. [exec] performs
    one event of one request; the events carry what is left open (which random
    suffix [os.CreateTemp] draws, how many bytes a call moves, which call fails
    and how). [reuse] says whether [os.CreateTemp] may draw a name it has drawn
    before; it only promises that no file of that name exists at the time. *)
From S2P Require Import Prelude GoBase GoPath Http HttpServer.

(** ** The disk *)

Inductive Entry := EFile (ino : nat) | EDir.

#[global] Instance Entry_eq_dec : EqDecision Entry.
Proof. solve_decision. Defined.

Record CDisk := mkCDisk { names : gmap string Entry; inodes : gmap nat string }.

(** What a look at the disk shows: the disk of [HttpServer]. *)
Definition node_of (d : CDisk) (e : Entry) : Node :=
  match e with EDir => Dir | EFile ino => File (default "" (inodes d !! ino)) end.
Definition view (d : CDisk) : Disk := node_of d <$> names d.

(** ** Requests *)

Inductive Req :=
  | RGet (path : string)
  | RPost (path body : string) (body_err : bool).

Inductive Answer :=
  | AData (contentType data : string)
  | ACreated
  | AStatus (status : Z).

(** Where a handler is: the next system call it makes. *)
Inductive HPhase :=
  | GetStat (contentType diskPath : string)
  | GetOpen (contentType diskPath : string)
  | GetRead (contentType : string) (ino : nat) (data : string)
  | PostCreate (destination : string)
  | PostCopy (destination tmpName : string) (ino : nat) (rest : string)
  | PostRename (destination tmpName : string)
  | PostRemove (tmpName : string) (err : option FErr)   (* the deferred call *)
  | Answered (a : Answer).

Record CState := mkCState {
  c_disk : CDisk;
  c_handlers : gmap nat (Req * HPhase);
  c_used : gset string;             (* the temporary names drawn so far *)
}.

Definition failed (err : FErr) : HPhase := Answered (AStatus (statusFromFileError err)).

Section conc.
Context (env : Env).

(** The beginning of the handlers, up to their first system call on a file. *)
Definition get_begin (path : string) : HPhase :=
  match contentTypeForPath env path with
  | None => Answered (AStatus BadRequest)
  | Some contentType =>
      match resolvePath env path with
      | inl err => failed err
      | inr diskPath => GetStat contentType diskPath
      end
  end.

Definition post_target (path : string) : FErr + string :=
  let filename := Base path in
  if bool_decide (filename ∈ [""; "."; "/"]) then inl ErrInvalid else
  match contentTypeForPath env filename with
  | None => inl errUnsupportedContentType
  | Some _ => resolvePath env filename
  end.

Definition post_begin (path : string) : HPhase :=
  match post_target path with inl err => failed err | inr destination => PostCreate destination end.

Definition begin (r : Req) : HPhase :=
  match r with RGet path => get_begin path | RPost path _ _ => post_begin path end.

(** ** System calls *)

Definition with_suffix (suffix : string) : Env :=
  {| e_Getwd := e_Getwd env; e_lower := e_lower env; e_Stat := e_Stat env; e_ReadFile := e_ReadFile env;
     e_CreateTemp := None; e_TempSuffix := suffix; e_Copied := e_Copied env; e_Copy := e_Copy env;
     e_Sync := e_Sync env; e_Close := e_Close env; e_Rename := e_Rename env; e_Remove := e_Remove env |}.

Definition str_take (k : nat) (s : string) : string := str_of_list (take k (str_to_list s)).
Definition str_drop (k : nat) (s : string) : string := str_of_list (drop k (str_to_list s)).

Definition stat_file (d : CDisk) (contentType diskPath : string) : HPhase :=
  match walk (view d) [] (clean_segs diskPath) with
  | inl err => failed err
  | inr Dir => failed ErrInvalid
  | inr (File _) => GetOpen contentType diskPath
  end.

Definition open_file (d : CDisk) (contentType diskPath : string) : HPhase :=
  match walk (view d) [] (clean_segs diskPath), names d !! abs_of (clean_segs diskPath) with
  | inl err, _ => failed err
  | inr _, Some (EFile ino) => GetRead contentType ino ""
  | inr _, _ => failed (FOther "is a directory")
  end.

(** One [read] of at most [S k] bytes, at the end of the file the last one. *)
Definition read_file (d : CDisk) (contentType : string) (ino : nat) (data : string) (k : nat) : HPhase :=
  let rest := str_drop (String.length data) (default "" (inodes d !! ino)) in
  if bool_decide (rest = "") then Answered (AData contentType data)
  else GetRead contentType ino (data +:+ str_take (S k) rest).

(** [os.CreateTemp]: the new disk and phase, and the name drawn. *)
Definition create_temp (d : CDisk) (suffix destination body : string) : CDisk * HPhase * option string :=
  match os_CreateTemp (with_suffix suffix) (view d) with
  | inl err => (d, failed err, None)
  | inr (tmpName, _) =>
      let ino := fresh (dom (inodes d)) in
      (mkCDisk (<[tmpName := EFile ino]> (names d)) (<[ino := ""]> (inodes d)),
       PostCopy destination tmpName ino body, Some tmpName)
  end.

(** One [write] of [io.Copy]. *)
Definition write_file (d : CDisk) (ino : nat) (bytes : string) : CDisk :=
  mkCDisk (names d) (alter (λ old, old +:+ bytes) ino (inodes d)).

Definition rename_file (d : CDisk) (old new : string) : CDisk * option FErr :=
  match names d !! old, names d !! new with
  | None, _ => (d, Some ErrNotExist)
  | _, Some EDir => (d, Some (FOther "file exists"))
  | Some e, _ => (mkCDisk (<[new := e]> (delete old (names d))) (inodes d), None)
  end.

Definition remove_file (d : CDisk) (ok : bool) (name : string) : CDisk :=
  if ok then mkCDisk (delete name (names d)) (inodes d) else d.

(** ** Events *)

Inductive Event :=
  | EArrive (h : nat) (r : Req)
  | EStat (h : nat)
  | EOpen (h : nat)
  | ERead (h : nat) (k : nat)
  | ECreate (h : nat) (suffix : string)
  | EWrite (h : nat) (k : nat)
  | EClose (h : nat)                    (* [Sync] and [Close] *)
  | ERename (h : nat)
  | ERemove (h : nat) (ok : bool)
  | EFault (h : nat) (err : FErr).      (* the next call fails *)

Definition put (h : nat) (r : Req) (p : HPhase) (d : CDisk) (s : CState) : CState :=
  mkCState d (<[h := (r, p)]> (c_handlers s)) (c_used s).

Definition fault (p : HPhase) (err : FErr) : option HPhase :=
  match p with
  | GetStat _ _ | GetOpen _ _ | GetRead _ _ _ | PostCreate _ => Some (failed err)
  | PostCopy _ tmpName _ _ | PostRename _ tmpName => Some (PostRemove tmpName (Some err))
  | PostRemove _ _ | Answered _ => None
  end.

Definition body_of (r : Req) : string := match r with RPost _ body _ => body | RGet _ => "" end.
Definition body_err_of (r : Req) : bool := match r with RPost _ _ err => err | RGet _ => false end.

(** [None]: this is not what the handler does next. *)
Definition exec (reuse : bool) (ev : Event) (s : CState) : option CState :=
  let d := c_disk s in
  match ev with
  | EArrive h r =>
      match c_handlers s !! h with
      | None => Some (put h r (begin r) d s)
      | Some _ => None
      end
  | EStat h =>
      match c_handlers s !! h with
      | Some (r, GetStat ct p) => Some (put h r (stat_file d ct p) d s)
      | _ => None
      end
  | EOpen h =>
      match c_handlers s !! h with
      | Some (r, GetOpen ct p) => Some (put h r (open_file d ct p) d s)
      | _ => None
      end
  | ERead h k =>
      match c_handlers s !! h with
      | Some (r, GetRead ct ino data) => Some (put h r (read_file d ct ino data k) d s)
      | _ => None
      end
  | ECreate h suffix =>
      match c_handlers s !! h with
      | Some (r, PostCreate dest) =>
          if negb (forallb is_digit (str_to_list suffix)) then None else
          match create_temp d suffix dest (body_of r) with
          | (d', p, Some tmpName) =>
              if negb reuse && bool_decide (tmpName ∈ c_used s) then None
              else Some (mkCState d' (<[h := (r, p)]> (c_handlers s)) ({[tmpName]} ∪ c_used s))
          | (d', p, None) => Some (put h r p d' s)
          end
      | _ => None
      end
  | EWrite h k =>
      match c_handlers s !! h with
      | Some (r, PostCopy dest tmp ino rest) =>
          if bool_decide (rest = "") then None
          else Some (put h r (PostCopy dest tmp ino (str_drop (S k) rest))
                       (write_file d ino (str_take (S k) rest)) s)
      | _ => None
      end
  | EClose h =>
      match c_handlers s !! h with
      | Some (r, PostCopy dest tmp ino rest) =>
          if bool_decide (rest = "") then
            Some (put h r (if body_err_of r then PostRemove tmp (Some (FOther "read"))
                           else PostRename dest tmp) d s)
          else None
      | _ => None
      end
  | ERename h =>
      match c_handlers s !! h with
      | Some (r, PostRename dest tmp) =>
          let '(d', err) := rename_file d tmp dest in Some (put h r (PostRemove tmp err) d' s)
      | _ => None
      end
  | ERemove h ok =>
      match c_handlers s !! h with
      | Some (r, PostRemove tmp err) =>
          Some (put h r (match err with Some e => failed e | None => Answered ACreated end)
                  (remove_file d ok tmp) s)
      | _ => None
      end
  | EFault h err =>
      match c_handlers s !! h with
      | Some (r, p) => p' ← fault p err; Some (put h r p' d s)
      | None => None
      end
  end.

Definition conc_step (reuse : bool) (s s' : CState) : Prop := ∃ ev, exec reuse ev s = Some s'.

Fixpoint exec_all (reuse : bool) (evs : list Event) (s : CState) : option CState :=
  match evs with [] => Some s | ev :: evs' => s' ← exec reuse ev s; exec_all reuse evs' s' end.

Lemma exec_all_sound reuse evs : ∀ s s',
  exec_all reuse evs s = Some s' → rtc (conc_step reuse) s s'.
Proof.
  induction evs as [|ev evs IH]; intros s s'; simpl; [by intros [= <-]|].
  destruct (exec reuse ev s) as [s1|] eqn:He; [|done]. cbn [mbind option_bind]. intros Hr.
  eapply rtc_l; [by exists ev|]. by apply IH.
Qed.

(** ** One request at a time

    The events of a request that runs alone add up to the handlers of
    [HttpServer]. *)

Lemma writeFile_target disk path body body_err :
  writeFile env disk path body body_err =
    match post_target path with
    | inl err => (disk, Some err)
    | inr destination => saveUploadedFile env disk body body_err destination
    end.
Proof.
  rewrite /writeFile /post_target. case_bool_decide; [done|].
  by destruct (contentTypeForPath env (Base path)).
Qed.
End conc.
