(* ===== verification/HttpConcThm.v ===== *)
(** * Concurrent requests to the file server are atomic

    Theorems on [HttpConc]. As long as [os.CreateTemp] does not draw a name it
    has drawn before, every download returns the content a file had at one
    moment while the download ran, and every upload answered with 201 replaced
    its file at one moment while it ran, with its whole body; nothing else ever
    changes what is served. When a name can be drawn again, the deferred
    [os.Remove] of one upload can hit the temporary file of another, and an
    upload answered with 201 can leave a piece of a third one under its name. *)
From S2P Require Import Prelude GoBase GoUtf8 GoPath Http HttpServer HttpServerThm HttpConc.

(** ** Extensions *)

Lemma Ext_go_cut r r' acc : "/"%char ∉ r → Ext_go (r ++ "/"%char :: r') acc = Ext_go r acc.
Proof.
  revert acc. induction r as [|a r IH]; intros acc; simpl; [done|].
  intros [Ha Hr]%not_elem_of_cons. rewrite bool_decide_false //. case_bool_decide; [done|]. by apply IH.
Qed.

Lemma Ext_last q f : noslash f → Ext (q +:+ String "/" f) = Ext f.
Proof.
  intros Hf. rewrite /Ext str_to_list_app /= reverse_app reverse_cons -assoc_L /=.
  rewrite Ext_go_cut //. by rewrite elem_of_reverse.
Qed.

Lemma last_segment p : ∃ f, noslash f ∧ Ext p = Ext f ∧ (p = f ∨ ∃ q, p = q +:+ String "/" f).
Proof.
  assert (noslash p ∨ ∃ q f, noslash f ∧ p = q +:+ String "/" f) as [Hp|(q & f & Hf & ->)].
  { induction p as [|a p IH]; [by left; apply not_elem_of_nil|].
    destruct IH as [Hp|(q & f & Hf & ->)]; [|right; by exists (String a q), f].
    destruct (decide (a = "/"%char)) as [->|Ha]; [right; by exists "", p|].
    left. by apply not_elem_of_cons. }
  - by exists p; eauto.
  - exists f. split_and!; [done|by apply Ext_last|]. eauto.
Qed.

(** The last segment of a path with a known extension survives cleaning. *)
Lemma allowed_last env p ct :
  contentTypeForPath env p = Some ct →
  ∃ l f, rooted_segs p = l ++ [f] ∧ contentTypeForPath env f = Some ct.
Proof.
  intros Hct. destruct (last_segment p) as (f & Hf & He & Hp).
  assert (contentTypeForPath env f = Some ct) as Hcf by (by rewrite /contentTypeForPath -He).
  pose proof (allowed_proper _ _ _ Hcf Hf) as Hpf.
  destruct Hp as [->|[q ->]]; [exists [], f; by rewrite rooted_segs_name|].
  exists (rooted_segs q), f. split; [|done]. by apply (rooted_segs_app q [f]); [constructor|].
Qed.

Section proofs.
Context (env : Env) (wd : string).
Hypothesis Hwd : e_Getwd env = Some (String "/" wd).

Definition is_temp (p : string) : Prop :=
  ∃ u, Forall is_digit (str_to_list u) ∧ p = public_path wd ["upload-" +:+ u].

Lemma suffix_ok u : Forall is_digit (str_to_list u) → env_ok (with_suffix env u) wd.
Proof using Hwd. by split. Qed.

(** Temporary names have no extension, so no request reaches them. *)
Lemma resolved_not_temp p ct q :
  contentTypeForPath env p = Some ct → resolvePath env p = inr q → ¬ is_temp q.
Proof using Hwd.
  intros Hct. rewrite (resolvePath_eq env wd Hwd). destruct (dotdot_name p); [done|].
  intros [= <-] (u & Hu & Heq). pose proof (suffix_ok u Hu) as Hok.
  apply public_path_inj in Heq; [|auto with labs|].
  2: { constructor; [|done]. exact (temp_name_proper _ _ Hok). }
  destruct (allowed_last _ _ _ Hct) as (l & f & Hl & Hf). rewrite Heq in Hl.
  destruct l as [|x [|y l]]; [|done..]. injection Hl as <-.
  pose proof (temp_name_not_allowed _ _ Hok) as Hno. by rewrite /temp_name /contentTypeForPath /= in Hno Hf; congruence.
Qed.

(** ** What a phase means for the disk *)

Definition target_ok (r : Req) (dest : string) : Prop :=
  ∃ path body err, r = RPost path body err ∧ post_target env path = inr dest.

Definition get_ok (r : Req) (ct p : string) : Prop :=
  ∃ path, r = RGet path ∧ contentTypeForPath env path = Some ct ∧ resolvePath env path = inr p.

Lemma target_not_temp r dest : target_ok r dest → ¬ is_temp dest.
Proof using Hwd.
  intros (path & body & err & _ & Ht). revert Ht. rewrite /post_target. case_bool_decide; [done|].
  destruct (contentTypeForPath env (Base path)) as [ct|] eqn:Hct; [|done]. by apply (resolved_not_temp _ ct).
Qed.

Lemma get_not_temp r ct p : get_ok r ct p → ¬ is_temp p.
Proof using Hwd. intros (path & _ & Hct & Hr). by eapply resolved_not_temp. Qed.

(** [tmp] is the only name of inode [ino], which holds [c]. *)
Definition only_link (d : CDisk) (tmp : string) (ino : nat) (c : string) : Prop :=
  names d !! tmp = Some (EFile ino) ∧ inodes d !! ino = Some c ∧
  ∀ p, names d !! p = Some (EFile ino) → p = tmp.

Definition phase_ok (d : CDisk) (used : gset string) (r : Req) (ph : HPhase) : Prop :=
  match ph with
  | GetStat ct p | GetOpen ct p => get_ok r ct p
  | GetRead ct ino data => is_Some (inodes d !! ino)
  | PostCreate dest => target_ok r dest
  | PostCopy dest tmp ino rest => target_ok r dest ∧ is_temp tmp ∧ tmp ∈ used ∧
      ∃ c, only_link d tmp ino c ∧ c +:+ rest = body_of r
  | PostRename dest tmp => target_ok r dest ∧ is_temp tmp ∧ tmp ∈ used ∧
      ∃ ino, only_link d tmp ino (body_of r)
  | PostRemove tmp _ => is_temp tmp ∧ tmp ∈ used
  | Answered _ => True
  end.

(** The temporary name a handler holds, the inodes it writes to and reads. *)
Definition temp_of (ph : HPhase) : option string :=
  match ph with PostCopy _ tmp _ _ | PostRename _ tmp | PostRemove tmp _ => Some tmp | _ => None end.
Definition copies (ph : HPhase) : option nat :=
  match ph with PostCopy _ _ ino _ => Some ino | _ => None end.
Definition reads (ph : HPhase) : option nat :=
  match ph with GetRead _ ino _ => Some ino | _ => None end.

(** Two handlers do not get into each other's way. *)
Definition disjoint_opt {A} (x y : option A) : Prop := ∀ a, x = Some a → y ≠ Some a.
Definition apart (p q : HPhase) : Prop :=
  disjoint_opt (temp_of p) (temp_of q) ∧ disjoint_opt (reads p) (copies q) ∧
  disjoint_opt (copies p) (reads q).

Record conc_inv (s : CState) : Prop := {
  ci_alloc p ino : names (c_disk s) !! p = Some (EFile ino) → is_Some (inodes (c_disk s) !! ino);
  ci_phase h r ph : c_handlers s !! h = Some (r, ph) → phase_ok (c_disk s) (c_used s) r ph;
  ci_apart h h' r r' ph ph' : h ≠ h' → c_handlers s !! h = Some (r, ph) →
    c_handlers s !! h' = Some (r', ph') → apart ph ph';
}.

#[local] Instance apart_sym : Symmetric apart.
Proof. intros p q (H1 & H2 & H3). rewrite /apart /disjoint_opt in H1 H2 H3 |- *. naive_solver. Qed.

(** The new phase holds nothing the old one did not hold. *)
Definition gives_up (p p' : HPhase) : Prop :=
  (∀ t, temp_of p' = Some t → temp_of p = Some t) ∧
  (∀ i, copies p' = Some i → copies p = Some i) ∧ (∀ i, reads p' = Some i → reads p = Some i).

Lemma apart_gives_up p p' q : gives_up p p' → apart p q → apart p' q.
Proof. rewrite /apart /disjoint_opt. intros (H1 & H2 & H3) (K1 & K2 & K3). naive_solver. Qed.

(** ** What an event may do to the disk *)

(** The handler holds the temporary name [t] and writes to inode [i]. *)
Record frame (t : option string) (i : option nat) (d d' : CDisk) : Prop := {
  fr_names q : is_temp q → t ≠ Some q → names d' !! q = names d !! q;
  fr_inodes ino c : inodes d !! ino = Some c → i ≠ Some ino → inodes d' !! ino = Some c;
  fr_links p ino : names d' !! p = Some (EFile ino) →
    names d !! p = Some (EFile ino) ∨ (∃ q, t = Some q ∧ names d !! q = Some (EFile ino)) ∨
    (inodes d !! ino = None ∧ is_Some (inodes d' !! ino));
  fr_alloc ino : is_Some (inodes d !! ino) → is_Some (inodes d' !! ino);
}.

Lemma frame_refl t i d : frame t i d d.
Proof. split; eauto. Qed.

Lemma only_link_frame t i d d' tmp ino c :
  frame t i d d' → is_temp tmp → t ≠ Some tmp →
  (∀ j, i = Some j → ∃ q, t = Some q ∧ names d !! q = Some (EFile j)) →
  only_link d tmp ino c → only_link d' tmp ino c.
Proof.
  intros Hf Htmp Ht Hi (Hn & Hc & Hu). split_and!.
  - by rewrite (fr_names _ _ _ _ Hf).
  - apply (fr_inodes _ _ _ _ Hf); [done|]. intros Hij. destruct (Hi _ Hij) as (q & -> & Hq).
    apply Ht. f_equal. by apply Hu.
  - intros p Hp. destruct (fr_links _ _ _ _ Hf _ _ Hp) as [?|[(q & -> & Hq)|[Hno _]]].
    + by apply Hu.
    + destruct Ht. f_equal. by apply Hu.
    + congruence.
Qed.

Lemma phase_ok_frame t i d d' used used' r ph :
  frame t i d d' → used ⊆ used' → disjoint_opt t (temp_of ph) →
  (∀ j, i = Some j → ∃ q, t = Some q ∧ names d !! q = Some (EFile j)) →
  phase_ok d used r ph → phase_ok d' used' r ph.
Proof.
  intros Hf Hused Ht Hi. destruct ph as [ct p|ct p|ct ino data|dest|dest tmp ino rest|dest tmp|tmp err|a];
    simpl in *; try done.
  - by eapply fr_alloc.
  - intros (? & ? & ? & c & Hl & ?). split_and!; [done|done|set_solver|]. exists c. split; [|done].
    eapply only_link_frame; [done..| |done|done]. intros E. by destruct (Ht _ E).
  - intros (? & ? & ? & ino & Hl). split_and!; [done|done|set_solver|]. exists ino.
    eapply only_link_frame; [done..| |done|done]. intros E. by destruct (Ht _ E).
  - set_solver.
Qed.

(** One handler moves on. *)
Lemma inv_put s h r p p' t i d' used' :
  conc_inv s → c_handlers s !! h = Some (r, p) →
  frame t i (c_disk s) d' → c_used s ⊆ used' →
  (∀ h' r' q, h' ≠ h → c_handlers s !! h' = Some (r', q) → disjoint_opt t (temp_of q)) →
  (∀ j, i = Some j → ∃ q, t = Some q ∧ names (c_disk s) !! q = Some (EFile j)) →
  phase_ok d' used' r p' →
  (∀ h' r' q, h' ≠ h → c_handlers s !! h' = Some (r', q) → apart p' q) →
  conc_inv (mkCState d' (<[h := (r, p')]> (c_handlers s)) used').
Proof.
  intros [Ha Hp Hap] Hh Hf Hused Ht Hi Hp' Hap'. split; simpl.
  - intros q ino Hq. destruct (fr_links _ _ _ _ Hf _ _ Hq) as [Ho|[(q' & _ & Ho)|[_ Ho]]]; [..|done];
      eapply fr_alloc; eauto.
  - intros h' r' q. rewrite lookup_insert. case_decide as Hd; [intros [= <- <-]; done|].
    intros Hq. eapply phase_ok_frame; [done..| | |by eapply Hp]; [|done]. by eapply Ht.
  - intros h1 h2 r1 r2 q1 q2 Hne. rewrite !lookup_insert. repeat case_decide; simplify_eq.
    + intros [= <- <-] Hq. by eapply Hap'.
    + intros Hq [= <- <-]. symmetry. by eapply Hap'.
    + by eapply Hap.
Qed.

(** ** What is served *)

Definition served (d : CDisk) (p : string) : option string :=
  match names d !! p with Some (EFile ino) => inodes d !! ino | _ => None end.

Definition same_served (d d' : CDisk) : Prop := ∀ p, ¬ is_temp p → served d' p = served d p.

(** The moment an upload takes effect. *)
Definition takes_effect (h : nat) (r : Req) (dest : string) (s s' : CState) : Prop :=
  target_ok r dest ∧
  (∃ tmp, c_handlers s !! h = Some (r, PostRename dest tmp) ∧
          c_handlers s' !! h = Some (r, PostRemove tmp None)) ∧
  ∀ p, ¬ is_temp p →
    served (c_disk s') p = if decide (p = dest) then Some (body_of r) else served (c_disk s) p.

(** Files that are open for reading do not change. *)
Definition keeps_open (s s' : CState) : Prop := ∀ h r ct ino data c,
  c_handlers s !! h = Some (r, GetRead ct ino data) → inodes (c_disk s) !! ino = Some c →
  inodes (c_disk s') !! ino = Some c.

Definition step_ok (s s' : CState) : Prop :=
  conc_inv s' ∧ keeps_open s s' ∧
  (same_served (c_disk s) (c_disk s') ∨ ∃ h r dest, takes_effect h r dest s s').

(** Steps that do not touch the disk. *)
Lemma quiet s h r p p' :
  conc_inv s → c_handlers s !! h = Some (r, p) →
  phase_ok (c_disk s) (c_used s) r p' →
  (∀ h' r' q, h' ≠ h → c_handlers s !! h' = Some (r', q) → apart p' q) →
  step_ok s (put h r p' (c_disk s) s).
Proof.
  intros Hinv Hh Hp Ha. split; [|split; [by intros ??|by left]].
  by eapply (inv_put s h r p p' None None); [..|apply frame_refl| | | | |].
Qed.

Lemma quiet_gives_up s h r p p' :
  conc_inv s → c_handlers s !! h = Some (r, p) →
  phase_ok (c_disk s) (c_used s) r p' → gives_up p p' →
  step_ok s (put h r p' (c_disk s) s).
Proof.
  intros Hinv Hh Hp Hg. eapply quiet; [done..|]. intros h' r' q Hne Hq.
  eapply apart_gives_up; [done|]. by eapply (ci_apart _ Hinv h h').
Qed.

(** Steps of a handler that holds a temporary name. *)
Lemma touch s h r p p' t i d' :
  conc_inv s → c_handlers s !! h = Some (r, p) →
  temp_of p = Some t → copies p = i →
  frame (Some t) i (c_disk s) d' →
  (∀ j, i = Some j → names (c_disk s) !! t = Some (EFile j)) →
  phase_ok d' (c_used s) r p' → gives_up p p' →
  conc_inv (put h r p' d' s) ∧ keeps_open s (put h r p' d' s).
Proof.
  intros Hinv Hh Ht Hc Hf Hi Hp' Hg. split.
  - eapply (inv_put s h r p p' (Some t) i); [done..| | | |].
    + intros h' r' q Hne Hq a [= <-]. by eapply (ci_apart _ Hinv h h'); [congruence|..].
    + eauto.
    + done.
    + intros h' r' q Hne Hq. eapply apart_gives_up; [done|]. by eapply (ci_apart _ Hinv h h'); [congruence|..].
  - intros h' r' ct ino data c Hh' Hino. apply (fr_inodes _ _ _ _ Hf); [done|]. rewrite -Hc. intros Hcp.
    assert (h ≠ h') as Hne by (intros ->; rewrite Hh in Hh'; injection Hh' as -> ->; done).
    destruct (ci_apart _ Hinv h h' _ _ _ _ Hne Hh Hh') as (_ & _ & Hd). by apply (Hd ino).
Qed.

Lemma gives_up_answered p a : gives_up p (Answered a).
Proof. done. Qed.

Lemma gives_up_failed p e : gives_up p (failed e).
Proof. done. Qed.

(** ** The events *)

Lemma begin_ok d used r : phase_ok d used r (begin env r).
Proof.
  destruct r as [path|path body err]; simpl.
  - rewrite /get_begin. destruct (contentTypeForPath env path) as [ct|] eqn:Hct; [|done].
    destruct (resolvePath env path) as [e|p] eqn:Hr; [done|]. by exists path.
  - rewrite /post_begin. destruct (post_target env path) as [e|dest] eqn:Ht; [done|].
    by exists path, body, err.
Qed.

Lemma begin_holds r : temp_of (begin env r) = None ∧ reads (begin env r) = None ∧ copies (begin env r) = None.
Proof.
  destruct r; simpl; rewrite /get_begin /post_begin; by repeat case_match.
Qed.

Lemma arrive_ok s h r : conc_inv s → c_handlers s !! h = None → step_ok s (put h r (begin env r) (c_disk s) s).
Proof.
  intros [Ha Hp Hap] Hh. destruct (begin_holds r) as (E1 & E2 & E3).
  assert (∀ q, apart (begin env r) q) as Hb.
  { intros q. rewrite /apart /disjoint_opt E1 E2 E3. done. }
  split; [|split; [by intros ??|by left]]. split; simpl; [done| |].
  - intros h' r' q. rewrite lookup_insert. case_decide; [|apply Hp]. intros [= <- <-]. apply begin_ok.
  - intros h1 h2 r1 r2 q1 q2 Hne. rewrite !lookup_insert. repeat case_decide; simplify_eq.
    + intros [= <- <-] _. apply Hb.
    + intros _ [= <- <-]. symmetry. apply Hb.
    + by eapply Hap.
Qed.

Lemma stat_ok s h r ct p :
  conc_inv s → c_handlers s !! h = Some (r, GetStat ct p) →
  step_ok s (put h r (stat_file (c_disk s) ct p) (c_disk s) s).
Proof.
  intros Hinv Hh. pose proof (ci_phase _ Hinv _ _ _ Hh) as Hp.
  eapply quiet_gives_up; [done..| |]; rewrite /stat_file; by destruct (walk _ _ _) as [e|[]].
Qed.

(** The path a GET looks up is clean. *)
Lemma get_ok_path r ct p : get_ok r ct p → abs_of (clean_segs p) = p.
Proof using Hwd.
  intros (path & _ & _ & Hr). rewrite (resolvePath_eq env wd Hwd) in Hr.
  destruct (dotdot_name path); [done|]. injection Hr as <-.
  rewrite clean_segs_public; [done|auto with labs].
Qed.

Lemma open_ok s h r ct p :
  conc_inv s → c_handlers s !! h = Some (r, GetOpen ct p) →
  step_ok s (put h r (open_file (c_disk s) ct p) (c_disk s) s).
Proof using Hwd.
  intros Hinv Hh. pose proof (ci_phase _ Hinv _ _ _ Hh) as Hp. simpl in Hp.
  rewrite /open_file (get_ok_path _ _ _ Hp).
  destruct (walk _ _ _) as [e|n]; [by eapply quiet_gives_up|].
  destruct (names (c_disk s) !! p) as [[ino|]|] eqn:Hn; [|by eapply quiet_gives_up..].
  eapply quiet; [done..|by eapply ci_alloc|]. intros h' r' q Hne Hq.
  split_and!; intros a; [done| |done]. intros [= <-] Hc. destruct q; simplify_eq/=.
  pose proof (ci_phase _ Hinv _ _ _ Hq) as (_ & Htemp & _ & c & (_ & _ & Hu) & _).
  apply (get_not_temp _ _ _ Hp). by rewrite (Hu _ Hn).
Qed.

Lemma read_ok s h r ct ino data k :
  conc_inv s → c_handlers s !! h = Some (r, GetRead ct ino data) →
  step_ok s (put h r (read_file (c_disk s) ct ino data k) (c_disk s) s).
Proof.
  intros Hinv Hh. pose proof (ci_phase _ Hinv _ _ _ Hh) as Hp.
  eapply quiet_gives_up; [done..| |]; rewrite /read_file; by case_bool_decide.
Qed.

Lemma fault_ok s h r p p' err :
  conc_inv s → c_handlers s !! h = Some (r, p) → fault p err = Some p' →
  step_ok s (put h r p' (c_disk s) s).
Proof.
  intros Hinv Hh Hf. pose proof (ci_phase _ Hinv _ _ _ Hh) as Hp.
  eapply quiet_gives_up; [done..| |]; destruct p; simplify_eq/=; try done; naive_solver.
Qed.

Lemma close_ok s h r dest tmp ino :
  conc_inv s → c_handlers s !! h = Some (r, PostCopy dest tmp ino "") →
  step_ok s (put h r (if body_err_of r then PostRemove tmp (Some (FOther "read"))
                      else PostRename dest tmp) (c_disk s) s).
Proof.
  intros Hinv Hh. pose proof (ci_phase _ Hinv _ _ _ Hh) as (Ht & Htmp & Hu & c & Hl & Hc).
  eapply quiet_gives_up; [done..| |]; destruct (body_err_of r); try done.
  split_and!; [done..|]. exists ino. rewrite -Hc. by rewrite str_append_nil_r.
Qed.

Lemma create_temp_spec d suffix dest body d' ph tmp :
  Forall is_digit (str_to_list suffix) →
  create_temp env d suffix dest body = (d', ph, Some tmp) →
  is_temp tmp ∧ names d !! tmp = None ∧ ∃ ino, inodes d !! ino = None ∧
    d' = mkCDisk (<[tmp := EFile ino]> (names d)) (<[ino := ""]> (inodes d)) ∧
    ph = PostCopy dest tmp ino body.
Proof using Hwd.
  intros Hd. rewrite /create_temp.
  destruct (os_CreateTemp (with_suffix env suffix) (view d)) as [e|[t disk]] eqn:Hc; [done|].
  destruct (CreateTemp_spec _ _ _ _ _ (suffix_ok _ Hd) Hc) as (Ht & Hnone & _).
  intros [= <- <- <-]. split_and!.
  - exists suffix. by rewrite Ht.
  - rewrite /view lookup_fmap in Hnone. by apply fmap_None in Hnone.
  - exists (fresh (dom (inodes d))). split; [|done]. apply not_elem_of_dom, is_fresh.
Qed.

Lemma create_ok s h r dest suffix d' ph tmp :
  conc_inv s → c_handlers s !! h = Some (r, PostCreate dest) →
  Forall is_digit (str_to_list suffix) →
  create_temp env (c_disk s) suffix dest (body_of r) = (d', ph, Some tmp) → tmp ∉ c_used s →
  step_ok s (mkCState d' (<[h := (r, ph)]> (c_handlers s)) ({[tmp]} ∪ c_used s)).
Proof using Hwd.
  intros Hinv Hh Hd Hc Hused. pose proof (ci_phase _ Hinv _ _ _ Hh) as Ht.
  destruct (create_temp_spec _ _ _ _ _ _ _ Hd Hc) as (Htmp & Hnone & ino & Hino & -> & ->).
  assert (∀ h' r' q, c_handlers s !! h' = Some (r', q) → temp_of q ≠ Some tmp) as Hfree.
  { intros h' r' q Hq Heq. pose proof (ci_phase _ Hinv _ _ _ Hq) as Hp.
    destruct q; simplify_eq/=; naive_solver. }
  assert (∀ h' r' q, c_handlers s !! h' = Some (r', q) → reads q ≠ Some ino) as Hfree'.
  { intros h' r' q Hq Heq. pose proof (ci_phase _ Hinv _ _ _ Hq) as Hp.
    destruct q; simplify_eq/=. rewrite Hino in Hp. by destruct Hp. }
  assert (∀ p, names (c_disk s) !! p ≠ Some (EFile ino)) as Hlink.
  { intros p Hp. destruct (ci_alloc _ Hinv _ _ Hp) as [c ?]. congruence. }
  split; [|split; [|left]].
  - eapply (inv_put s h r _ _ (Some tmp) None); [done..| |set_solver| |done| |].
    + split; simpl.
      * intros q _ Hq. rewrite lookup_insert_ne //. congruence.
      * intros j c Hj _. rewrite lookup_insert_ne //. congruence.
      * intros p j [[-> [= <-]]|[_ Hp]]%lookup_insert_Some; [|by left]. right; right.
        by rewrite lookup_insert_eq.
      * intros j Hj. rewrite lookup_insert. by case_decide.
    + intros h' r' q _ Hq a [= <-]. by eapply Hfree.
    + split_and!; [done|done|set_solver|]. exists "". split; [|done]. split_and!; simpl.
      * by rewrite lookup_insert_eq.
      * by rewrite lookup_insert_eq.
      * by intros p [[-> _]|[_ Hp%Hlink]]%lookup_insert_Some.
    + intros h' r' q _ Hq. split_and!; intros a; [|done|]; intros [= <-]; [by eapply Hfree|by eapply Hfree'].
  - intros h' r' ct j data c Hh' Hj. simpl. rewrite lookup_insert_ne //. congruence.
  - intros p Hp. rewrite /served /= lookup_insert_ne; [|by intros ->].
    destruct (names (c_disk s) !! p) as [[j|]|] eqn:Hpj; [|done..].
    rewrite lookup_insert_ne //. by intros ->; eapply Hlink.
Qed.

Lemma str_take_drop k s : str_take k s +:+ str_drop k s = s.
Proof.
  apply (inj str_to_list). by rewrite str_to_list_app !str_to_of_list take_drop.
Qed.

Lemma write_ok s h r dest tmp ino rest k :
  conc_inv s → c_handlers s !! h = Some (r, PostCopy dest tmp ino rest) →
  step_ok s (put h r (PostCopy dest tmp ino (str_drop k rest))
               (write_file (c_disk s) ino (str_take k rest)) s).
Proof.
  intros Hinv Hh. pose proof (ci_phase _ Hinv _ _ _ Hh) as (Ht & Htmp & Hu & c & (Hn & Hc & Hl) & Hb).
  assert (frame (Some tmp) (Some ino) (c_disk s) (write_file (c_disk s) ino (str_take k rest))) as Hf.
  { split; simpl; [done| |by left|].
    - intros j c' Hj Hne. rewrite lookup_alter_ne //. congruence.
    - intros j Hj. rewrite lookup_alter. case_decide; [by rewrite fmap_is_Some; subst|done]. }
  destruct (touch s h r _ (PostCopy dest tmp ino (str_drop k rest)) tmp (Some ino) _ Hinv Hh
    eq_refl eq_refl Hf) as [H1 H2]; [by intros j [= <-]| |done|].
  - split_and!; [done..|]. exists (c +:+ str_take k rest). split; [|].
    + split_and!; [done| |done]. by rewrite /= lookup_alter_eq Hc.
    + by rewrite str_append_assoc str_take_drop.
  - split; [done|]. split; [done|left]. intros p Hp. rewrite /served /=.
    destruct (names (c_disk s) !! p) as [[j|]|] eqn:Hpj; [|done..].
    rewrite lookup_alter_ne //. intros ->. apply Hp. by rewrite (Hl _ Hpj).
Qed.

Lemma renamed_effect s h r dest tmp d' err :
  conc_inv s → c_handlers s !! h = Some (r, PostRename dest tmp) →
  rename_file (c_disk s) tmp dest = (d', err) → err = None →
  takes_effect h r dest s (put h r (PostRemove tmp err) d' s).
Proof using Hwd.
  intros Hinv Hh Hr ->. destruct (ci_phase _ Hinv _ _ _ Hh) as (Ht & Htmp & _ & ino & Hn & Hc & _).
  pose proof (target_not_temp _ _ Ht) as Hdest. assert (tmp ≠ dest) as Hne by (by intros ->).
  assert (d' = mkCDisk (<[dest := EFile ino]> (delete tmp (names (c_disk s)))) (inodes (c_disk s))) as ->.
  { revert Hr. rewrite /rename_file Hn. by destruct (names (c_disk s) !! dest) as [[]|]; intros [= <-]. }
  split; [done|]. split; [exists tmp; by rewrite /= lookup_insert_eq|].
  intros p Hp. rewrite /served /=. case_decide as Hd; [subst p; by rewrite lookup_insert_eq|].
  rewrite lookup_insert_ne // lookup_delete_ne //. by intros ->.
Qed.

Lemma rename_ok s h r dest tmp d' err :
  conc_inv s → c_handlers s !! h = Some (r, PostRename dest tmp) →
  rename_file (c_disk s) tmp dest = (d', err) → step_ok s (put h r (PostRemove tmp err) d' s).
Proof using Hwd.
  intros Hinv Hh. pose proof (ci_phase _ Hinv _ _ _ Hh) as (Ht & Htmp & Hu & ino & Hn & Hc & Hl).
  pose proof (target_not_temp _ _ Ht) as Hdest.
  assert (tmp ≠ dest) as Hne by (by intros ->).
  rewrite /rename_file Hn. destruct (decide (names (c_disk s) !! dest = Some EDir)) as [Hdir|Hdir].
  { rewrite Hdir. intros [= <- <-]. by eapply quiet_gives_up. }
  assert (∀ x, (match names (c_disk s) !! dest with Some EDir => (c_disk s, Some (FOther "file exists")) | _ => x end) = x)
    as -> by (intros x; by destruct (names (c_disk s) !! dest) as [[]|]).
  intros [= <- <-]. set (d' := mkCDisk _ _).
  assert (frame (Some tmp) None (c_disk s) d') as Hf.
  { split; simpl; [|done| |done].
    - intros q Hq Hqt. rewrite lookup_insert_ne; [|by intros ->]. rewrite lookup_delete_ne //. congruence.
    - intros p j [[-> [= <-]]|[_ Hp]]%lookup_insert_Some; [right; left; eauto|].
      apply lookup_delete_Some in Hp as [_ Hp]. by left. }
  destruct (touch s h r _ (PostRemove tmp None) tmp None d' Hinv Hh eq_refl eq_refl Hf) as [H1 H2]; [done|done|done|].
  split; [done|]. split; [done|right]. exists h, r, dest. eapply renamed_effect; [done..| |done].
  rewrite /rename_file Hn. by destruct (names (c_disk s) !! dest) as [[]|].
Qed.

Lemma remove_ok s h r tmp err ok :
  conc_inv s → c_handlers s !! h = Some (r, PostRemove tmp err) →
  step_ok s (put h r (match err with Some e => failed e | None => Answered ACreated end)
               (remove_file (c_disk s) ok tmp) s).
Proof.
  intros Hinv Hh. pose proof (ci_phase _ Hinv _ _ _ Hh) as (Htmp & Hu).
  set (p' := match err with Some e => _ | None => _ end).
  assert (phase_ok (remove_file (c_disk s) ok tmp) (c_used s) r p' ∧ gives_up (PostRemove tmp err) p') as [Hp Hg]
    by (by destruct err).
  rewrite /remove_file in Hp |- *. destruct ok; [|by eapply quiet_gives_up].
  set (d' := mkCDisk _ _) in *.
  assert (frame (Some tmp) None (c_disk s) d') as Hf.
  { split; simpl; [|done| |done].
    - intros q _ Hq. rewrite lookup_delete_ne //. congruence.
    - intros p j [_ Hj]%lookup_delete_Some. by left. }
  destruct (touch s h r _ p' tmp None d' Hinv Hh eq_refl eq_refl Hf) as [H1 H2]; [done|done|done|].
  split; [done|]. split; [done|left]. intros p Hnt. rewrite /served /= lookup_delete_ne //. by intros ->.
Qed.

(** The next call of the handler, when the event is that call. *)
Ltac next_call p := destruct p as [ct p|ct p|ct ino data|dest|dest tmp ino rest|dest tmp|tmp err|a]; try done.

Lemma exec_ok ev s s' : conc_inv s → exec env false ev s = Some s' → step_ok s s'.
Proof using Hwd.
  intros Hinv. destruct ev as [h r|h|h|h k|h suffix|h k|h|h|h ok|h err]; simpl;
    destruct (c_handlers s !! h) as [[r' p]|] eqn:Hh; try done.
  - intros [= <-]. by apply arrive_ok.
  - next_call p.
    intros [= <-]. by apply stat_ok.
  - next_call p.
    intros [= <-]. by apply open_ok.
  - next_call p.
    intros [= <-]. by apply read_ok.
  - next_call p.
    destruct (forallb is_digit (str_to_list suffix)) eqn:Hd; [|done]. simpl.
    assert (Forall is_digit (str_to_list suffix)) as Hd'.
    { apply Forall_forall. intros c Hc. apply Is_true_true. rewrite forallb_forall in Hd.
      by apply Hd, list_elem_of_In. }
    destruct (create_temp env (c_disk s) suffix dest (body_of r')) as [[d' ph] [tmp|]] eqn:Hc.
    + case_bool_decide; [done|]. intros [= <-]. by eapply create_ok.
    + intros [= <-]. revert Hc. rewrite /create_temp.
      destruct (os_CreateTemp _ _) as [e|[t disk]]; [|done]. intros [= <- <-].
      by eapply quiet_gives_up.
  - next_call p.
    case_bool_decide; [done|]. intros [= <-]. by apply write_ok.
  - next_call p.
    case_bool_decide; [|done]. subst rest. intros [= <-]. by eapply close_ok.
  - next_call p.
    destruct (rename_file (c_disk s) tmp dest) as [d' err] eqn:Hr. intros [= <-]. by eapply rename_ok.
  - next_call p.
    intros [= <-]. by apply remove_ok.
  - destruct (fault p err) as [p'|] eqn:Hf; [|done]. cbn [mbind option_bind]. intros [= <-].
    by eapply fault_ok.
Qed.

(** ** Where a phase comes from *)

Inductive comes_from (s s' : CState) (h : nat) (r : Req) : HPhase → Prop :=
  | cf_same ph : c_handlers s !! h = Some (r, ph) → comes_from s s' h r ph
  | cf_open ct p : c_handlers s !! h = Some (r, GetOpen ct p) → c_disk s' = c_disk s →
      comes_from s s' h r (open_file (c_disk s) ct p)
  | cf_read ct ino data k : c_handlers s !! h = Some (r, GetRead ct ino data) →
      c_disk s' = c_disk s → comes_from s s' h r (read_file (c_disk s) ct ino data k)
  | cf_rename dest tmp d' err : c_handlers s !! h = Some (r, PostRename dest tmp) →
      rename_file (c_disk s) tmp dest = (d', err) → s' = put h r (PostRemove tmp err) d' s →
      comes_from s s' h r (PostRemove tmp err)
  | cf_removed tmp : c_handlers s !! h = Some (r, PostRemove tmp None) →
      comes_from s s' h r (Answered ACreated)
  | cf_other ph : (∀ tmp, c_handlers s !! h ≠ Some (r, PostRemove tmp None)) →
      match ph with GetRead _ _ _ | PostRemove _ None | Answered (AData _ _) | Answered ACreated => False
                  | _ => True end →
      (∀ a, c_handlers s !! h ≠ Some (r, Answered a)) →
      comes_from s s' h r ph.

(** The handler itself, or another one, whose phase is as it was. *)
Ltac moved Hput := intros [= <-] [Hs|(-> & -> & ->)]%Hput; [by apply cf_same|].

Lemma exec_phase ev s s' h r ph :
  exec env false ev s = Some s' → c_handlers s' !! h = Some (r, ph) → comes_from s s' h r ph.
Proof.
  assert (∀ h0 r0 (p0 : HPhase) (m : gmap nat (Req * HPhase)), <[h0 := (r0, p0)]> m !! h = Some (r, ph) →
    m !! h = Some (r, ph) ∨ h = h0 ∧ r = r0 ∧ ph = p0) as Hput.
  { intros h0 r0 p0 m [[-> [= -> ->]]|[_ ?]]%lookup_insert_Some; eauto. }
  destruct ev as [h0 r0|h0|h0|h0 k|h0 suffix|h0 k|h0|h0|h0 ok|h0 err]; simpl;
    destruct (c_handlers s !! h0) as [[r1 p]|] eqn:Hh; try done.
  - moved Hput. apply cf_other; [congruence| |congruence].
    destruct r0; simpl; rewrite /get_begin /post_begin; by repeat case_match.
  - next_call p. moved Hput.
    apply cf_other; [congruence| |congruence]. rewrite /stat_file. by repeat case_match.
  - next_call p. moved Hput. by apply cf_open.
  - next_call p. moved Hput. by apply cf_read.
  - next_call p. destruct (negb _); [done|]. rewrite /create_temp.
    destruct (os_CreateTemp _ _) as [e|[t disk]].
    + moved Hput. apply cf_other; [congruence|done|congruence].
    + case_bool_decide; [done|]. moved Hput.
      apply cf_other; [congruence|done|congruence].
  - next_call p. case_bool_decide; [done|].
    moved Hput. apply cf_other; [congruence|done|congruence].
  - next_call p. case_bool_decide; [|done].
    moved Hput. apply cf_other; [congruence| |congruence].
    by destruct (body_err_of r1).
  - next_call p.
    destruct (rename_file (c_disk s) tmp dest) as [d' err] eqn:Hr.
    moved Hput. by eapply cf_rename.
  - next_call p.
    moved Hput. destruct err as [e|]; [|by eapply cf_removed].
    apply cf_other; [congruence|done|congruence].
  - destruct (fault p err) as [p'|] eqn:Hf; [|done]. cbn [mbind option_bind].
    moved Hput.
    apply cf_other; rewrite ?Hh; destruct p; simplify_eq/=; naive_solver.
Qed.

(** A handler keeps its request. *)
Lemma exec_req ev s s' h r p :
  exec env false ev s = Some s' → c_handlers s !! h = Some (r, p) →
  ∃ p', c_handlers s' !! h = Some (r, p').
Proof.
  intros He Hh.
  assert (∀ h0 r1 p1 (p0 : HPhase), c_handlers s !! h0 = Some (r1, p1) →
    ∃ p', <[h0 := (r1, p0)]> (c_handlers s) !! h = Some (r, p')) as Hput.
  { intros h0 r1 p1 p0 H0. rewrite lookup_insert. case_decide; [|by eauto]. subst h0. simplify_eq. eauto. }
  revert He. destruct ev as [h0 r0|h0|h0|h0 k|h0 suffix|h0 k|h0|h0|h0 ok|h0 err]; simpl;
    destruct (c_handlers s !! h0) as [[r1 p1]|] eqn:Hh0; try done.
  - intros [= <-]. simpl. rewrite lookup_insert. case_decide; [congruence|eauto].
  - destruct p1; try done. intros [= <-]. by eapply Hput.
  - destruct p1; try done. intros [= <-]. by eapply Hput.
  - destruct p1; try done. intros [= <-]. by eapply Hput.
  - destruct p1; try done. destruct (negb _); [done|].
    destruct (create_temp _ _ _ _ _) as [[d' ph] [tmp|]]; [case_bool_decide; [done|]|]; intros [= <-]; by eapply Hput.
  - destruct p1; try done. case_bool_decide; [done|]. intros [= <-]. by eapply Hput.
  - destruct p1; try done. case_bool_decide; [|done]. intros [= <-]. by eapply Hput.
  - destruct p1; try done. destruct (rename_file _ _ _) as [d' err]. intros [= <-]. by eapply Hput.
  - destruct p1; try done. intros [= <-]. by eapply Hput.
  - destruct (fault p1 err) as [p'|]; [|done]. intros [= <-]. by eapply Hput.
Qed.

(** ** Histories *)

Abbreviation step := (conc_step env false).

(** Every file of the disk the server starts with has its content. *)
Definition disk_ok (d : CDisk) : Prop := ∀ p ino, names d !! p = Some (EFile ino) → is_Some (inodes d !! ino).
Definition conc_start (d : CDisk) : CState := mkCState d ∅ ∅.

Context (d0 : CDisk).
Hypothesis Hd0 : disk_ok d0.

Lemma reachable_inv s : rtc step (conc_start d0) s → conc_inv s.
Proof using Hwd Hd0.
  revert s. apply rtc_ind_r; [by split|]. intros s s' _ [ev He] Hinv. by eapply exec_ok in He as (? & _).
Qed.

(** The download [h] opened its file in a state [s1], in which it held [c]. *)
Definition opened (s : CState) (h : nat) (r : Req) (ct c : string) : Prop :=
  ∃ p s1, rtc step (conc_start d0) s1 ∧ rtc step s1 s ∧
    c_handlers s1 !! h = Some (r, GetOpen ct p) ∧ get_ok r ct p ∧ served (c_disk s1) p = Some c.

Lemma opened_step s s' h r ct c : step s s' → opened s h r ct c → opened s' h r ct c.
Proof. intros Hs (p & s1 & H1 & H2 & H3). exists p, s1. split; [done|]. split; [by eapply rtc_r|done]. Qed.

Definition downloads (s : CState) : Prop := ∀ h r ph, c_handlers s !! h = Some (r, ph) →
  match ph with
  | GetRead ct ino data => ∃ rest, inodes (c_disk s) !! ino = Some (data +:+ rest) ∧ opened s h r ct (data +:+ rest)
  | Answered (AData ct data) => opened s h r ct data
  | _ => True
  end.

Lemma str_drop_app a b : str_drop (String.length a) (a +:+ b) = b.
Proof.
  rewrite /str_drop str_to_list_app -(length_str_to_list a) drop_app_length. apply str_of_to_list.
Qed.

Lemma downloads_reachable s : rtc step (conc_start d0) s → downloads s.
Proof using Hwd Hd0.
  revert s. apply rtc_ind_r; [done|]. intros s s' Hreach Hs IH. pose proof (reachable_inv _ Hreach) as Hinv.
  pose proof Hs as [ev He]. pose proof (exec_ok _ _ _ Hinv He) as (_ & Hkeep & _).
  intros h r ph Hph. destruct (exec_phase _ _ _ _ _ _ He Hph) as
    [ph Hh|ct p Hh Hd|ct ino data k Hh Hd|dest tmp d' err Hh _ _|tmp Hh|ph _ Hno _]; try done.
  - pose proof (IH _ _ _ Hh) as Hold. destruct ph as [| |ct ino data| | | | |[ct data| |]]; try done.
    + destruct Hold as (rest & Hino & Ho). exists rest. split; [by eapply Hkeep|by eapply opened_step].
    + by eapply opened_step.
  - pose proof (ci_phase _ Hinv _ _ _ Hh) as Hg. simpl in Hg. rewrite /open_file (get_ok_path _ _ _ Hg).
    destruct (walk _ _ _) as [e|n]; [done|].
    destruct (names (c_disk s) !! p) as [[ino|]|] eqn:Hn; [|done..].
    destruct (ci_alloc _ Hinv _ _ Hn) as [c Hc]. exists c. rewrite Hd. split; [done|].
    exists p, s. split_and!; [done|by apply rtc_once|done|done|]. by rewrite /served Hn.
  - destruct (IH _ _ _ Hh) as (rest & Hino & Ho). rewrite /read_file Hino /= str_drop_app.
    case_bool_decide as Hr.
    + subst rest. rewrite str_append_nil_r in Ho. by eapply opened_step.
    + exists (str_drop (S k) rest). rewrite str_append_assoc str_take_drop Hd. split; [done|by eapply opened_step].
  - by destruct ph as [| |ct ino data| | | | |[ct data| |]].
Qed.

(** The upload [h] has taken effect on the way to [s]. *)
Definition effected (s : CState) (h : nat) (r : Req) : Prop :=
  ∃ dest s1 s2, rtc step (conc_start d0) s1 ∧ step s1 s2 ∧ rtc step s2 s ∧ takes_effect h r dest s1 s2.

Definition created (s : CState) (h : nat) (r : Req) : Prop :=
  (∃ tmp, c_handlers s !! h = Some (r, PostRemove tmp None)) ∨ c_handlers s !! h = Some (r, Answered ACreated).

Lemma effected_step s s' h r : step s s' → effected s h r → effected s' h r.
Proof. intros Hs (dest & s1 & s2 & H1 & H2 & H3 & H4). exists dest, s1, s2. split_and!; [done|done|by eapply rtc_r|done]. Qed.

Lemma created_effected s h r : rtc step (conc_start d0) s → created s h r → effected s h r.
Proof using Hwd Hd0.
  intros Hr. revert s Hr h r. refine (rtc_ind_r _ _ _ _); [by intros h r [[tmp ?]|?]|].
  intros s s' Hreach Hs IH h r Hc. pose proof (reachable_inv _ Hreach) as Hinv. pose proof Hs as [ev He].
  assert (∀ ph, c_handlers s' !! h = Some (r, ph) →
    match ph with PostRemove _ None | Answered ACreated => effected s' h r | _ => True end) as Hall.
  { intros ph Hph. destruct (exec_phase _ _ _ _ _ _ He Hph) as
      [ph Hh|ct p Hh Hd|ct ino data k Hh Hd|dest tmp d' err Hh Hren ->|tmp Hh|ph _ Hno _].
    - destruct ph as [| | | | | |tmp [e|]|[| |]]; try done; (eapply effected_step; [done|]); apply IH; [left; eauto|by right].
    - rewrite /open_file. by repeat case_match.
    - rewrite /read_file. by case_bool_decide.
    - destruct err as [e|]; [done|]. exists dest, s. eexists. split_and!; [done|exact Hs|done|].
      by eapply renamed_effect.
    - eapply effected_step; [done|]. apply IH. left; eauto.
    - by destruct ph as [| | | | | |tmp [e|]|[| |]]. }
  destruct Hc as [[tmp Ht]|Ha]; [exact (Hall _ Ht)|exact (Hall _ Ha)].
Qed.

Lemma created_stays s s' h r : rtc step s s' → created s h r → created s' h r.
Proof.
  induction 1 as [s|s1 s2 s3 [ev He] _ IH]; [done|]. intros Hc. apply IH.
  assert (∃ p, c_handlers s1 !! h = Some (r, p)) as [p Hp] by (destruct Hc as [[tmp ?]|?]; eauto).
  destruct (exec_req _ _ _ _ _ _ He Hp) as [p' Hp'].
  assert (∀ dest tmp ct q ino data, p ≠ PostRename dest tmp ∧ p ≠ GetOpen ct q ∧ p ≠ GetRead ct ino data) as Hnot
    by (destruct Hc as [[tmp ?]|?]; simplify_eq; done).
  destruct (exec_phase _ _ _ _ _ _ He Hp') as
    [ph Hh|ct q Hh Hd|ct ino data k Hh Hd|dest tmp d' err Hh Hren ->|tmp Hh|ph Hn1 _ Hn2];
    [by destruct Hc as [[tmp ?]|?]; simplify_eq; [left; eauto|right]|naive_solver..|by right|].
  destruct Hc as [[tmp Ht]|Ha]; [by destruct (Hn1 tmp)|by destruct (Hn2 ACreated)].
Qed.
End proofs.

(** ** Properties *)

(** C9: Concurrent requests are atomic, without a lock. Let any number of
    requests run at once on any disk, their system calls interleaved in any
    order and any of them failing, with temporary names drawn without
    repetition. Then (1) a step changes what is served under a name that is not
    temporary only when an upload takes effect: its own name, no other, gets its
    whole body at once; (2) a download answered with data returns the content
    its path had at one moment after the request arrived, never a mixture; (3) an
    upload answered with 201 took effect at one moment while it ran; (4) one that
    took effect is not answered with an error. *)
Theorem requests_atomic env wd d0 s :
  e_Getwd env = Some (String "/" wd) → disk_ok d0 →
  rtc (conc_step env false) (conc_start d0) s →
  (∀ s', conc_step env false s s' → same_served wd (c_disk s) (c_disk s') ∨
     ∃ h r dest, takes_effect env wd h r dest s s') ∧
  (∀ h r ct data, c_handlers s !! h = Some (r, Answered (AData ct data)) →
     ∃ path p s1, r = RGet path ∧ contentTypeForPath env path = Some ct ∧ resolvePath env path = inr p ∧
       rtc (conc_step env false) (conc_start d0) s1 ∧ rtc (conc_step env false) s1 s ∧
       c_handlers s1 !! h = Some (r, GetOpen ct p) ∧ served (c_disk s1) p = Some data) ∧
  (∀ h r, c_handlers s !! h = Some (r, Answered ACreated) →
     ∃ dest s1 s2, rtc (conc_step env false) (conc_start d0) s1 ∧ conc_step env false s1 s2 ∧
       rtc (conc_step env false) s2 s ∧ takes_effect env wd h r dest s1 s2) ∧
  (∀ h r dest s1 s2 status, takes_effect env wd h r dest s1 s2 → rtc (conc_step env false) s2 s →
     c_handlers s !! h ≠ Some (r, Answered (AStatus status))).
Proof.
  intros Hwd Hd0 Hreach. pose proof (reachable_inv env wd Hwd d0 Hd0 s Hreach) as Hinv. split_and!.
  - intros s' [ev He]. by destruct (exec_ok env wd Hwd _ _ _ Hinv He) as (_ & _ & ?).
  - intros h r ct data Hh. destruct (downloads_reachable env wd Hwd d0 Hd0 s Hreach _ _ _ Hh)
      as (p & s1 & H1 & H2 & H3 & (path & -> & Hct & Hr) & H4). exists path, p, s1. done.
  - intros h r Hh. apply (created_effected env wd Hwd d0 Hd0 s h r Hreach). by right.
  - intros h r dest s1 s2 status (_ & (tmp & _ & Ht) & _) Hr Hh.
    destruct (created_stays env s2 s h r Hr) as [[tmp' ?]|?]; [left; eauto|congruence..].
Qed.

(** A server in [/srv] with one file; two uploads and a download of it overlap. *)
Definition conc_env : Env :=
  {| e_Getwd := Some "/srv"; e_lower := λ z, z; e_Stat := λ _, None; e_ReadFile := λ _, None;
     e_CreateTemp := None; e_TempSuffix := "0"; e_Copied := 0; e_Copy := None; e_Sync := None;
     e_Close := None; e_Rename := None; e_Remove := true |}.
Definition conc_disk : CDisk :=
  mkCDisk (list_to_map [("/", EDir); ("/srv", EDir); ("/srv/public", EDir); ("/srv/public/a.txt", EFile 0)])
    {[0%nat := "old"]}.

Definition overlap : list Event :=
  [EArrive 0 (RGet "/a.txt"); EStat 0; EOpen 0; ERead 0 0;
   EArrive 1 (RPost "/a.txt" "new" false); ECreate 1 "17"; EWrite 1 0; EWrite 1 5; EClose 1; ERename 1;
   ERead 0 0; ERemove 1 true; ERead 0 0; ERead 0 0].

Lemma requests_atomic_witness :
  ∃ s, exec_all conc_env false overlap (conc_start conc_disk) = Some s ∧
    c_handlers s !! 0%nat = Some (RGet "/a.txt", Answered (AData "text/plain" "old")) ∧
    served (c_disk s) "/srv/public/a.txt" = Some "new" ∧
    ∃ p s1, rtc (conc_step conc_env false) (conc_start conc_disk) s1 ∧ served (c_disk s1) p = Some "old".
Proof.
  set (res := exec_all conc_env false overlap (conc_start conc_disk)).
  assert ((λ s, (c_handlers s !! 0%nat, served (c_disk s) "/srv/public/a.txt")) <$> res =
    Some (Some (RGet "/a.txt", Answered (AData "text/plain" "old")), Some "new")) as Hres by (vm_compute; reflexivity).
  destruct res as [s|] eqn:Hrun; [|done]. injection Hres as Hh Hserved.
  destruct (requests_atomic conc_env "srv" conc_disk s) as (_ & Hget & _ & _).
  - reflexivity.
  - intros p ino. rewrite /conc_disk /=. rewrite !lookup_insert_Some lookup_empty.
    intros [[_ ?]|[_ [[_ ?]|[_ [[_ ?]|[_ [[_ [= <-]]|[_ ?]]]]]]]]; try done.
  - by apply exec_all_sound with overlap.
  - destruct (Hget _ _ _ _ Hh) as (path & p & s1 & _ & _ & _ & H1 & _ & _ & H2).
    exists s. split; [reflexivity|]. split; [exact Hh|]. split; [exact Hserved|]. exists p, s1. split; [exact H1|exact H2].
Defined.

(** Three uploads whose temporary names coincide. *)
Definition collision : list Event :=
  [EArrive 1 (RPost "/a.txt" "A" false); ECreate 1 "17"; EWrite 1 0; EClose 1; ERename 1;
   EArrive 2 (RPost "/b.txt" "B" false); ECreate 2 "17"; EWrite 2 0; EClose 2;
   ERemove 1 true;                      (* removes the file of the second *)
   EArrive 3 (RPost "/c.txt" "CC" false); ECreate 3 "17"; EWrite 3 0;
   ERename 2; ERemove 2 true;           (* moves the file of the third *)
   EArrive 4 (RGet "/b.txt"); EStat 4; EOpen 4; ERead 4 0; ERead 4 0;
   EWrite 3 0; EClose 3; ERename 3; ERemove 3 true].

(** C10: The deferred [os.Remove] is not harmless. [os.CreateTemp] may draw a
    name again once no file has it, and after a successful rename no file has
    the old temporary name, which the upload nevertheless removes when it
    returns. There is a run of three uploads, none of whose system calls is made
    to fail, in which the second is answered with 201 while a download of its
    name returns a piece of the third body, and the third is answered with 404. *)
Theorem temp_name_reuse_corrupts :
  ∃ s, rtc (conc_step conc_env true) (conc_start conc_disk) s ∧
    c_handlers s !! 2%nat = Some (RPost "/b.txt" "B" false, Answered ACreated) ∧
    c_handlers s !! 4%nat = Some (RGet "/b.txt", Answered (AData "text/plain" "C")) ∧
    c_handlers s !! 3%nat = Some (RPost "/c.txt" "CC" false, Answered (AStatus NotFound)) ∧
    served (c_disk s) "/srv/public/b.txt" = Some "CC".
Proof.
  set (res := exec_all conc_env true collision (conc_start conc_disk)).
  assert ((λ s, (c_handlers s !! 2%nat, c_handlers s !! 4%nat, c_handlers s !! 3%nat,
                 served (c_disk s) "/srv/public/b.txt")) <$> res =
    Some (Some (RPost "/b.txt" "B" false, Answered ACreated),
          Some (RGet "/b.txt", Answered (AData "text/plain" "C")),
          Some (RPost "/c.txt" "CC" false, Answered (AStatus NotFound)), Some "CC")) as Hres
    by (vm_compute; reflexivity).
  destruct res as [s|] eqn:Hrun; [|done]. injection Hres as H2 H4 H3 Hb.
  exists s. split_and!; [|exact H2|exact H4|exact H3|exact Hb]. by apply exec_all_sound with collision.
Qed.
