(* ===== verification/HttpSolo.v ===== *)
(** * A request that runs alone

    The events of [HttpConc] add up to the handlers of [HttpServer]: when no
    other request interferes and no call fails, a download answers what
    [getHandler] answers on the disk as it looks, and an upload leaves the disk
    and the answer that [postHandler] gives. *)
From S2P Require Import Prelude GoBase GoUtf8 GoPath Http HttpServer HttpServerThm HttpConc HttpConcThm.

Section solo.
Context (env : Env) (wd : string) (reuse : bool).
Hypothesis Henv : env_ok env wd.

(** The answers of the handlers of [HttpServer]. *)
Definition get_answer (disk : Disk) (path : string) : Answer :=
  match contentTypeForPath env path with
  | None => AStatus BadRequest
  | Some contentType =>
      match readFile env disk path with
      | inl err => AStatus (statusFromFileError err)
      | inr data => AData contentType data
      end
  end.

Definition post_answer (err : option FErr) : Answer :=
  match err with Some e => AStatus (statusFromFileError e) | None => ACreated end.

Lemma phase_put h r p d s : c_handlers (put h r p d s) !! h = Some (r, p).
Proof. by rewrite /= lookup_insert_eq. Qed.

(** Reading an open file to its end. *)
Lemma read_all s h r ct ino data :
  c_handlers s !! h = Some (r, GetRead ct ino "") → inodes (c_disk s) !! ino = Some data →
  ∃ s', rtc (conc_step env reuse) s s' ∧ c_disk s' = c_disk s ∧
    c_handlers s' !! h = Some (r, Answered (AData ct data)).
Proof.
  intros Hh Hino. destruct (decide (data = "")) as [->|Hne].
  { exists (put h r (Answered (AData ct "")) (c_disk s) s). split_and!; [|done|apply phase_put].
    apply rtc_once. exists (ERead h 0). by rewrite /= Hh /read_file Hino. }
  set (s1 := put h r (GetRead ct ino data) (c_disk s) s).
  exists (put h r (Answered (AData ct data)) (c_disk s) s1). split_and!; [|done|apply phase_put].
  apply (rtc_l _ _ s1); [exists (ERead h (String.length data))|apply rtc_once; exists (ERead h 0)].
  - rewrite /= Hh /read_file Hino. change (str_drop (String.length "") _) with (str_of_list (str_to_list data)).
    rewrite str_of_to_list bool_decide_false // /str_take take_ge; [|rewrite length_str_to_list; lia].
    by rewrite str_of_to_list.
  - rewrite /= lookup_insert_eq /read_file /= Hino /=.
    rewrite bool_decide_true //. rewrite /str_drop drop_ge //. by rewrite length_str_to_list.
Qed.

Lemma walk_file d l data :
  walk (view d) [] l = inr (File data) →
  ∃ ino, names d !! abs_of l = Some (EFile ino) ∧ data = default "" (inodes d !! ino).
Proof.
  intros Hw. assert (view d !! abs_of ([] ++ l) = Some (File data)) as Hv.
  { revert Hw. generalize (@nil string) as dir. induction l as [|x l IH]; intros dir; simpl.
    - rewrite right_id_L. destruct (view d !! abs_of dir) as [n|]; [|done]. by intros [= ->].
    - destruct (view d !! abs_of dir) as [[]|]; [done| |done]. intros Hw. apply IH in Hw. by rewrite -assoc_L in Hw. }
  rewrite /view lookup_fmap /= in Hv. apply fmap_Some in Hv as ([ino|] & Hn & Hd); [|done].
  exists ino. split; [done|]. by injection Hd.
Qed.

Lemma solo_get s h path :
  disk_ok (c_disk s) → (∀ q, e_Stat env q = None) → (∀ q, e_ReadFile env q = None) →
  c_handlers s !! h = None →
  ∃ s', rtc (conc_step env reuse) s s' ∧ c_disk s' = c_disk s ∧
    c_handlers s' !! h = Some (RGet path, Answered (get_answer (view (c_disk s)) path)).
Proof using Henv.
  intros Hok Hst Hrd Hh. set (s1 := put h (RGet path) (get_begin env path) (c_disk s) s).
  assert (conc_step env reuse s s1) as H1 by (exists (EArrive h (RGet path)); by rewrite /= Hh).
  assert (∀ p, get_begin env path = p → c_handlers s1 !! h = Some (RGet path, p)) as Hp1 by (intros p <-; apply phase_put).
  rewrite /get_answer /get_begin in Hp1 |- *.
  destruct (contentTypeForPath env path) as [ct|] eqn:Hct;
    [|exists s1; split_and!; [by apply rtc_once|done|by apply Hp1]].
  rewrite /readFile. destruct (resolvePath env path) as [e|p] eqn:Hr;
    [exists s1; split_and!; [by apply rtc_once|done|by apply Hp1]|].
  assert (get_ok env (RGet path) ct p) as Hg by by exists path.
  set (s2 := put h (RGet path) (stat_file (c_disk s) ct p) (c_disk s) s1).
  assert (rtc (conc_step env reuse) s s2) as H2.
  { eapply rtc_l; [exact H1|]. apply rtc_once. exists (EStat h). by rewrite /= (Hp1 _ eq_refl). }
  rewrite /os_Stat /os_ReadFile Hst Hrd.
  destruct (walk (view (c_disk s)) [] (clean_segs p)) as [e|[data|]] eqn:Hw;
    [exists s2; split_and!; [done|done|by rewrite /s2 phase_put /stat_file Hw]| |
     exists s2; split_and!; [done|done|by rewrite /s2 phase_put /stat_file Hw]].
  destruct (walk_file _ _ _ Hw) as (ino & Hn & Hd). destruct (Hok _ _ Hn) as [c Hc].
  rewrite Hc /= in Hd. subst c.
  set (s3 := put h (RGet path) (GetRead ct ino "") (c_disk s) s2).
  destruct (read_all s3 h (RGet path) ct ino data) as (s' & H4 & Hd4 & Hh4); [apply phase_put|done|].
  exists s'. split_and!; [|done|done]. etrans; [exact H2|]. eapply rtc_l; [|exact H4].
  exists (EOpen h). rewrite /= lookup_insert_eq /stat_file Hw. by rewrite /open_file Hw Hn.
Qed.

(** Copying the whole body. *)
Lemma copy_all s h r dest tmp ino rest c :
  c_handlers s !! h = Some (r, PostCopy dest tmp ino rest) → inodes (c_disk s) !! ino = Some c →
  ∃ s', rtc (conc_step env reuse) s s' ∧ c_handlers s' !! h = Some (r, PostCopy dest tmp ino "") ∧
    c_disk s' = mkCDisk (names (c_disk s)) (<[ino := c +:+ rest]> (inodes (c_disk s))).
Proof.
  intros Hh Hino. destruct (decide (rest = "")) as [->|Hne].
  { exists s. split_and!; [done|done|]. rewrite str_append_nil_r insert_id //. by destruct (c_disk s). }
  set (k := String.length rest).
  exists (put h r (PostCopy dest tmp ino (str_drop (S k) rest)) (write_file (c_disk s) ino (str_take (S k) rest)) s).
  split_and!.
  - apply rtc_once. exists (EWrite h k). by rewrite /= Hh bool_decide_false.
  - rewrite phase_put /str_drop drop_ge //. rewrite length_str_to_list. lia.
  - rewrite /= /write_file /str_take take_ge; [|rewrite length_str_to_list; lia]. rewrite str_of_to_list. f_equal.
    apply map_eq. intros j. rewrite lookup_alter lookup_insert. case_decide; [subst j; by rewrite Hino|done].
Qed.

Lemma view_insert d p ino c :
  (∀ q, names d !! q ≠ Some (EFile ino)) →
  view (mkCDisk (<[p := EFile ino]> (names d)) (<[ino := c]> (inodes d))) = <[p := File c]> (view d).
Proof.
  intros Hl. apply map_eq. intros q. rewrite /view lookup_fmap /= !lookup_insert lookup_fmap.
  case_decide; [by rewrite /= lookup_insert_eq|]. destruct (names d !! q) as [[j|]|] eqn:Hq; [|done..]. simpl.
  rewrite lookup_insert_ne //. intros ->. by apply (Hl q).
Qed.

Lemma view_rename d old new d' err :
  e_Rename env = None → rename_file d old new = (d', err) → os_Rename env (view d) old new = (view d', err).
Proof.
  intros He. rewrite /rename_file /os_Rename He /view !lookup_fmap.
  destruct (names d !! old) as [e|]; simpl; [|by intros [= <- <-]].
  assert (node_of d <$> <[new := e]> (delete old (names d)) =
    <[new := node_of d e]> (delete old (node_of d <$> names d))) as Hv by by rewrite fmap_insert fmap_delete.
  destruct (names d !! new) as [[]|]; simpl; intros [= <- <-]; rewrite /= -?Hv; done.
Qed.

Lemma view_remove d p : e_Remove env = true → view (remove_file d true p) = os_Remove env (view d) p.
Proof. intros He. by rewrite /os_Remove He /view /= fmap_delete. Qed.

(** From a complete copy to the answer. *)
Lemma finish_upload s h r dest tmp ino :
  c_handlers s !! h = Some (r, PostCopy dest tmp ino "") → body_err_of r = false →
  e_Rename env = None → e_Remove env = true →
  ∃ s', rtc (conc_step env reuse) s s' ∧
    view (c_disk s') = os_Remove env (os_Rename env (view (c_disk s)) tmp dest).1 tmp ∧
    c_handlers s' !! h = Some (r, Answered (post_answer (os_Rename env (view (c_disk s)) tmp dest).2)).
Proof.
  intros Hh Hb Hrn Hrm. set (s1 := put h r (PostRename dest tmp) (c_disk s) s).
  destruct (rename_file (c_disk s) tmp dest) as [d' err] eqn:Hr.
  rewrite (view_rename _ _ _ _ _ Hrn Hr) /=. set (s2 := put h r (PostRemove tmp err) d' s1).
  exists (put h r (Answered (post_answer err)) (remove_file d' true tmp) s2).
  split_and!; [|by rewrite /= view_remove|apply phase_put].
  apply (rtc_l _ _ s1); [|apply (rtc_l _ _ s2); [|apply rtc_once]].
  - exists (EClose h). by rewrite /= Hh bool_decide_true // Hb.
  - exists (ERename h). by rewrite /= lookup_insert_eq Hr.
  - exists (ERemove h true). rewrite /= lookup_insert_eq. by destruct err.
Qed.

Lemma solo_post s h path body :
  disk_ok (c_disk s) → no_fault env false → e_Remove env = true →
  c_handlers s !! h = None → public_path wd [temp_name env] ∉ c_used s →
  ∃ s', rtc (conc_step env reuse) s s' ∧
    view (c_disk s') = (writeFile env (view (c_disk s)) path body false).1 ∧
    c_handlers s' !! h = Some (RPost path body false,
      Answered (post_answer (writeFile env (view (c_disk s)) path body false).2)).
Proof using Henv.
  intros Hok (_ & Hct & Hcp & Hsy & Hcl & Hrn) Hrm Hh Hused. rewrite writeFile_target.
  set (r := RPost path body false). set (s1 := put h r (post_begin env path) (c_disk s) s).
  assert (conc_step env reuse s s1) as H1 by (exists (EArrive h r); by rewrite /= Hh).
  assert (∀ p, post_begin env path = p → c_handlers s1 !! h = Some (r, p)) as Hp1 by (intros p <-; apply phase_put).
  rewrite /post_begin in Hp1. destruct (post_target env path) as [e|dest] eqn:Ht.
  { exists s1. split_and!; [by apply rtc_once|done|by apply Hp1]. }
  specialize (Hp1 _ eq_refl).
  assert (forallb is_digit (str_to_list (e_TempSuffix env)) = true) as Hdig.
  { apply forallb_forall. intros c Hc%list_elem_of_In. apply Is_true_true.
    by eapply Forall_forall in Hc; [|apply (ok_suffix _ _ Henv)]. }
  assert (os_CreateTemp (with_suffix env (e_TempSuffix env)) (view (c_disk s)) = os_CreateTemp env (view (c_disk s))) as Hos.
  { by rewrite /os_CreateTemp Hct. }
  rewrite /saveUploadedFile.
  destruct (os_CreateTemp env (view (c_disk s))) as [e|[tmp disk1]] eqn:Hc.
  { exists (put h r (failed e) (c_disk s) s1). split_and!; [|done|apply phase_put].
    eapply rtc_l; [exact H1|]. apply rtc_once. exists (ECreate h (e_TempSuffix env)).
    by rewrite /= lookup_insert_eq /post_begin Ht Hdig /= /create_temp Hos. }
  destruct (CreateTemp_spec _ _ _ _ _ Henv Hc) as (-> & Hnone & -> & _). set (tmp := public_path wd [temp_name env]) in *.
  set (ino := fresh (dom (inodes (c_disk s)))). assert (inodes (c_disk s) !! ino = None) as Hino by apply not_elem_of_dom, is_fresh.
  assert (∀ q, names (c_disk s) !! q ≠ Some (EFile ino)) as Hl.
  { intros q Hq. destruct (Hok _ _ Hq). congruence. }
  set (d2 := mkCDisk (<[tmp := EFile ino]> (names (c_disk s))) (<[ino := ""]> (inodes (c_disk s)))).
  set (s2 := mkCState d2 (<[h := (r, PostCopy dest tmp ino body)]> (c_handlers s1)) ({[tmp]} ∪ c_used s)).
  assert (conc_step env reuse s1 s2) as H2.
  { exists (ECreate h (e_TempSuffix env)). rewrite /= lookup_insert_eq /post_begin Ht Hdig /= /create_temp Hos.
    rewrite bool_decide_false; [|exact Hused]. by rewrite andb_false_r /s2 /s1 /put /= /post_begin Ht. }
  destruct (copy_all s2 h r dest tmp ino body "") as (s3 & H3 & Hh3 & Hd3); [by rewrite /= lookup_insert_eq|by rewrite /= lookup_insert_eq|].
  assert (view (c_disk s3) = <[tmp := File body]> (view (c_disk s))) as Hv3.
  { rewrite Hd3 /= insert_insert_eq. by apply view_insert. }
  destruct (finish_upload s3 h r dest tmp ino Hh3 eq_refl Hrn Hrm) as (s' & H4 & Hv4 & Hh4).
  rewrite Hv3 in Hv4, Hh4. rewrite /save_steps Hcp Hsy Hcl insert_insert_eq.
  destruct (os_Rename env (<[tmp := File body]> (view (c_disk s))) tmp dest) as [d5 err] eqn:Hr5.
  exists s'. split_and!; [|exact Hv4|exact Hh4].
  eapply rtc_l; [exact H1|]. eapply rtc_l; [exact H2|]. by etrans.
Qed.
End solo.
