(* ===== verification/Proxy.v ===== *)
(** * The proxy of Lab 1

    Models [Labs/Lab1/proxy/proxy.go]: a GET handler that forwards the request
    to the host it names and relays the answer. The network is the environment
    [Net]: whether dialling and writing succeed and what [net/http]'s
    [ReadResponse] reads. The state of the server is the list of requests it
    has forwarded. *)
From S2P Require Import Prelude GoBase GoPath Http HttpServer.

(** What [ReadResponse] returns, its body being a reader that may fail. *)
Record Upstream := mkUpstream {
  up_StatusCode : Z; up_Header : Headers; up_Body : string; up_Body_err : bool;
}.

Record Net := mkNet {
  n_Dial : string → bool;
  n_Write : string → Request → bool;
  n_ReadResponse : string → Request → option Upstream;
  n_order : Headers → list string;    (* iteration order of the header map *)
}.

Notation Sent := (list (string * Request)).

Section proxy.
Context (net : Net).

Definition targetHost (request : Request) : option string :=
  let h := req_URL_Host request in
  let h := if bool_decide (h = "") then req_Host request else h in
  if bool_decide (h = "") then None
  else Some (if Contains h ":" then h else h +:+ ":80").

(** [request.Header.Del("Proxy-Connection"); request.RequestURI = ""] *)
Definition forwarded (r : Request) : Request :=
  mkRequest (req_Method r) (req_Proto r) (req_URL_Path r) (req_URL_Host r) (req_Host r)
    (delete "Proxy-Connection" (req_Header r)) "" (req_Body r) (req_Body_err r).

Definition relay_headers (ord : list string) (h : Headers) (rb : Response) : Response :=
  foldl (λ rb '(headerKey, headerValues), builder_Header headerKey (Join headerValues ", ") rb)
    rb (range_visit ord h).

Definition handleProxyRequest : RequestHandler Sent := λ request rb sent,
  match targetHost request with
  | None => (sent, (rb, Some (EHTTPError BadRequest)))
  | Some target =>
      if negb (n_Dial net target) then (sent, (rb, Some (EHTTPError InternalServerError))) else
      let request := forwarded request in
      if negb (n_Write net target request)
      then (sent, (rb, Some (EHTTPError InternalServerError))) else
      let sent := sent ++ [(target, request)] in
      match n_ReadResponse net target request with
      | None => (sent, (rb, Some (EHTTPError InternalServerError)))
      | Some response =>
          if up_Body_err response then (sent, (rb, Some (EHTTPError InternalServerError))) else
          let rb := builder_Bytes (up_Body response) (builder_Status (up_StatusCode response) rb) in
          (sent, (relay_headers (n_order net (up_Header response)) (up_Header response) rb, None))
      end
  end.

Definition proxy_server : Server Sent := server_Get handleProxyRequest NewServer.

Definition proxy_main (f : Flags) : Server Sent * string * nat :=
  (proxy_server, JoinHostPort (f_host f) (flags_port f), f_maxConnections f).

End proxy.

(** ** Theorems *)

(** The headers of the relayed answer: those of the upstream answer, their
    values joined, over the two the builder sets. *)
Definition relayed (up : Upstream) : Headers :=
  ((λ vs, [Join vs ", "]) <$> up_Header up) ∪
  {["Content-Length" := [Itoa (slen (up_Body up))]; "Content-Type" := ["text/plain"]]}.

Lemma relay_headers_eq ord h rb :
  range_order ord h →
  relay_headers ord h rb =
    mkResponse (Protocol rb) (rsp_StatusCode rb)
      (((λ vs, [Join vs ", "]) <$> h) ∪ rsp_Headers rb) (Body rb).
Proof.
  intros Ho.
  assert (∀ l rb, NoDup l.*1 → foldl (λ rb '(k, vs), builder_Header k (Join vs ", ") rb) rb l =
    mkResponse (Protocol rb) (rsp_StatusCode rb)
      (((λ vs, [Join vs ", "]) <$> list_to_map l) ∪ rsp_Headers rb) (Body rb)) as Hgo.
  { intros l. induction l as [|[k vs] l IH]; intros rb' Hnd; csimpl.
    - rewrite fmap_empty left_id_L. by destruct rb'.
    - apply NoDup_cons in Hnd as [Hk Hnd]. rewrite IH //. simpl. f_equal.
      rewrite fmap_insert. apply map_eq. intros k'. rewrite !lookup_union.
      destruct (decide (k' = k)) as [->|Hne]; [|by rewrite !lookup_insert_ne].
      rewrite !lookup_insert_eq lookup_fmap not_elem_of_list_to_map_1 //. by destruct (rsp_Headers rb' !! k). }
  rewrite /relay_headers Hgo; [|rewrite range_visit_fst //; by eapply range_order_NoDup].
  repeat f_equal. apply map_eq. intros k. apply option_eq. intros vs.
  rewrite -elem_of_list_to_map; [|rewrite range_visit_fst //; by eapply range_order_NoDup].
  by apply elem_of_range_visit_full.
Qed.

(** C36: The proxy is transparent. If a GET names a host, the host can be
    reached and answers, the request is forwarded once, to port 80 unless the
    host names a port, unchanged but for the Proxy-Connection header; and the
    client gets the upstream status, the whole upstream body and every
    upstream header (its values joined), whatever order the language iterates
    the headers in. Only Content-Type and Content-Length are supplied when the
    upstream has none. *)
Theorem proxy_relays net request sent host up :
  req_Method request = "GET" →
  (req_URL_Host request = host ∨ req_URL_Host request = "" ∧ req_Host request = host) → host ≠ "" →
  let target := if Contains host ":" then host else host +:+ ":80" in
  let fwd := mkRequest "GET" (req_Proto request) (req_URL_Path request) (req_URL_Host request) (req_Host request)
    (delete "Proxy-Connection" (req_Header request)) "" (req_Body request) (req_Body_err request) in
  n_Dial net target = true → n_Write net target fwd = true →
  n_ReadResponse net target fwd = Some up → up_Body_err up = false →
  range_order (n_order net (up_Header up)) (up_Header up) →
  handleRequest (proxy_server net) request sent =
    (sent ++ [(target, fwd)],
     inr (mkResponse (Protocol (NewResponse (Some request))) (up_StatusCode up)
            (relayed up) (up_Body up))).
Proof.
  intros Hm Hhost Hne target fwd Hd Hw Hr Hb Ho. rewrite /handleRequest Hm.
  assert (forwarded request = fwd) as Hfwd by (by rewrite /forwarded Hm).
  change (proxy_server net !! "GET") with (Some (handleProxyRequest net)).
  assert (targetHost request = Some target) as Ht.
  { rewrite /targetHost. destruct Hhost as [->|[-> ->]].
    - by rewrite !(bool_decide_false (host = "")).
    - rewrite (bool_decide_true ("" = "")) // bool_decide_false //. }
  cbn -[handleProxyRequest]. rewrite /handleProxyRequest Ht Hd Hfwd Hw Hr Hb /=.
  rewrite relay_headers_eq //.
Qed.

Definition demo_net : Net :=
  mkNet (λ t, bool_decide (t = "example.org:80")) (λ _ _, true)
    (λ _ r, Some (mkUpstream 203 {["Vary" := ["a"; "b"]]} (req_URL_Path r) false))
    (λ h, (map_to_list h).*1).

Definition demo_proxy_request : Request :=
  mkRequest "GET" "HTTP/1.0" "/x" "example.org" "example.org"
    {["Proxy-Connection" := ["keep-alive"]; "Accept" := ["*"]]} "http://example.org/x" "" false.

Lemma proxy_relays_witness :
  handleRequest (proxy_server demo_net) demo_proxy_request [] =
    ([("example.org:80", forwarded demo_proxy_request)],
     inr (mkResponse "HTTP/1.0" 203
       {["Vary" := ["a, b"]; "Content-Length" := ["2"]; "Content-Type" := ["text/plain"]]} "/x")).
Proof.
  rewrite (proxy_relays demo_net demo_proxy_request [] "example.org"
    (mkUpstream 203 {["Vary" := ["a"; "b"]]} "/x" false));
    [vm_compute; reflexivity|reflexivity|left; reflexivity|discriminate|reflexivity|reflexivity|reflexivity|reflexivity|apply range_order_default].
Defined.

(** Whatever goes wrong is answered, and nothing else is sent: a request
    that names no host gets 400, a failure to dial, to write, to read the
    answer or its body gets 500, a method without a handler (POST) 501 and an
    unknown one 400; at most one complete request is forwarded, and none at
    all unless the host could be dialled. *)
Theorem proxy_errors net request sent sent' err :
  handleRequest (proxy_server net) request sent = (sent', inl err) →
  (sent' = sent ∨
   ∃ target, targetHost request = Some target ∧ n_Dial net target = true ∧
     sent' = sent ++ [(target, forwarded request)]) ∧
  err = EHTTPError
    (if negb (method_IsValid (req_Method request)) then BadRequest
     else if negb (bool_decide (req_Method request = "GET")) then NotImplemented
     else if bool_decide (targetHost request = None) then BadRequest
     else InternalServerError).
Proof.
  rewrite /handleRequest. destruct (method_IsValid _); [|by intros; simplify_eq/=; auto].
  cbn [negb]. destruct (decide (req_Method request = "GET")) as [Hm|Hm].
  - rewrite (bool_decide_true (_ = "GET")) // Hm.
    change (proxy_server net !! "GET") with (Some (handleProxyRequest net)).
    cbn -[handleProxyRequest]. rewrite /handleProxyRequest.
    destruct (targetHost request) as [t|] eqn:Ht; [|intros; simplify_eq/=; auto].
    destruct (n_Dial net t) eqn:Hd; cbn [negb]; [|intros; simplify_eq/=; auto].
    destruct (n_Write net t _); cbn [negb]; [|intros; simplify_eq/=; auto].
    destruct (n_ReadResponse net t _) as [up|]; [destruct (up_Body_err up)|];
      intros; simplify_eq/=; eauto 10.
  - rewrite (bool_decide_false (_ = "GET")) //.
    rewrite /proxy_server /server_Get /registerHandler lookup_insert_ne // lookup_empty.
    intros; simplify_eq/=; auto.
Qed.

Lemma proxy_errors_witness :
  EHTTPError InternalServerError = EHTTPError InternalServerError ∧
  handleRequest (proxy_server (mkNet (λ _, false) (λ _ _, true) (λ _ _, None) (λ _, [])))
    demo_proxy_request [] = ([], inl (EHTTPError InternalServerError)).
Proof.
  assert (handleRequest (proxy_server (mkNet (λ _, false) (λ _ _, true) (λ _ _, None) (λ _, [])))
    demo_proxy_request [] = ([], inl (EHTTPError InternalServerError))) as H by reflexivity.
  split; [|exact H]. exact (proj2 (proxy_errors _ _ _ _ _ H)).
Defined.
