(* ===== verification/Bitset.v ===== *)
(** * Bit sets of the linearizability checker

    Models [porcupine/bitset.go]: a set of small numbers as a slice of 64-bit
    chunks. An index outside the slice is a run-time panic ([None]). The
    predicate [bs_repr] ties a bit set to the finite set it stands for; it
    determines the bit set, so comparing chunks compares sets. *)
From S2P Require Import Prelude GoBase.

Notation bitset := (list Z) (only parsing).

(** A chunk is a [uint64]. *)
Definition u64 (z : Z) : Prop := 0 ≤ z < 2 ^ 64.

Definition newBitset (bits : Z) : bitset :=
  let extra := if bool_decide (bits mod 64 = 0) then 0 else 1 in
  replicate (Z.to_nat (bits / 64 + extra)) 0.

Definition bitset_clone (b : bitset) : bitset := b.

Definition bitsetIndex (pos : Z) : nat * Z := (Z.to_nat (pos / 64), pos mod 64).

Definition bitset_set (b : bitset) (pos : Z) : option bitset :=
  let '(major, minor) := bitsetIndex pos in
  v ← b !! major; Some (<[major := Z.lor v (wrap_u64 (Z.shiftl 1 minor))]> b).

Definition bitset_clear (b : bitset) (pos : Z) : option bitset :=
  let '(major, minor) := bitsetIndex pos in
  v ← b !! major; Some (<[major := Z.ldiff v (wrap_u64 (Z.shiftl 1 minor))]> b).

Definition bitset_get (b : bitset) (pos : Z) : option bool :=
  let '(major, minor) := bitsetIndex pos in
  v ← b !! major; Some (negb (bool_decide (Z.land v (wrap_u64 (Z.shiftl 1 minor)) = 0))).

(** [bits.OnesCount64] *)
Definition OnesCount64 (v : Z) : Z :=
  Z.of_nat (length (filter (λ i, Z.testbit v (Z.of_nat i) = true) (seq 0 64))).

Definition popcnt (b : bitset) : Z := foldl (λ total v, total + OnesCount64 v) 0 b.

Definition bitset_hash (b : bitset) : Z := foldl Z.lxor (wrap_u64 (popcnt b)) b.

Definition bitset_equals (b b2 : bitset) : bool :=
  bool_decide (length b = length b2) && forallb (λ '(x, y), bool_decide (x = y)) (zip b b2).

(** ** The set a bit set stands for *)

(** The bit at a position. *)
Definition bit (b : bitset) (i : Z) : bool :=
  Z.testbit (nth (Z.to_nat (i / 64)) b 0) (i mod 64).

Definition nchunks (n : Z) : nat := length (newBitset n).

Record bs_repr (n : Z) (b : bitset) (X : gset Z) : Prop := {
  repr_length : length b = nchunks n;
  repr_u64 : Forall u64 b;
  repr_bits : ∀ i, 0 ≤ i → bit b i = bool_decide (i ∈ X);
  repr_range : ∀ i, i ∈ X → 0 ≤ i < n;
}.

Lemma u64_testbit v i : u64 v → 64 ≤ i → Z.testbit v i = false.
Proof.
  intros [Hv1 Hv2] Hi. destruct (decide (v = 0)) as [->|]; [apply Z.bits_0|].
  apply Z.bits_above_log2; [done|]. apply Z.lt_le_trans with 64; [|done]. apply Z.log2_lt_pow2; lia.
Qed.

Lemma u64_of_bits v : 0 ≤ v → (∀ i, 64 ≤ i → Z.testbit v i = false) → u64 v.
Proof.
  intros H0 Hb. split; [done|]. destruct (decide (v = 0)) as [->|]; [done|].
  apply Z.log2_lt_cancel. rewrite Z.log2_pow2 //.
  destruct (decide (Z.log2 v < 64)) as [|Hge]; [done|].
  pose proof (Z.bit_log2 v ltac:(lia)) as Hbit. rewrite Hb in Hbit; [done|lia].
Qed.

Lemma minor_mask m : 0 ≤ m < 64 → wrap_u64 (Z.shiftl 1 m) = 2 ^ m.
Proof.
  intros Hm. rewrite Z.shiftl_1_l /wrap_u64 Z.mod_small //. split; [apply Z.pow_nonneg; lia|].
  apply Z.pow_lt_mono_r; lia.
Qed.

Lemma testbit_pow m i : 0 ≤ m → Z.testbit (2 ^ m) i = bool_decide (i = m).
Proof.
  intros Hm. case_bool_decide as Hi; [subst; by apply Z.pow2_bits_true|].
  apply Z.pow2_bits_false. lia.
Qed.

Lemma u64_lor a b : u64 a → u64 b → u64 (Z.lor a b).
Proof.
  intros Ha Hb. apply u64_of_bits; [apply Z.lor_nonneg; split; [apply Ha|apply Hb]|].
  intros i Hi. by rewrite Z.lor_spec !u64_testbit.
Qed.

Lemma u64_ldiff a b : u64 a → 0 ≤ b → u64 (Z.ldiff a b).
Proof.
  intros Ha Hb. apply u64_of_bits; [apply Z.ldiff_nonneg; left; apply Ha|].
  intros i Hi. by rewrite Z.ldiff_spec (u64_testbit a).
Qed.

Lemma u64_pow m : 0 ≤ m < 64 → u64 (2 ^ m).
Proof. intros Hm. split; [apply Z.pow_nonneg; lia|apply Z.pow_lt_mono_r; lia]. Qed.

Lemma nchunks_bound n i : 0 ≤ i < n → (Z.to_nat (i / 64) < nchunks n)%nat.
Proof.
  intros Hi. rewrite /nchunks /newBitset length_replicate.
  pose proof (Z.div_mod n 64 ltac:(lia)). pose proof (Z.mod_pos_bound n 64 ltac:(lia)).
  pose proof (Z.div_mod i 64 ltac:(lia)). pose proof (Z.mod_pos_bound i 64 ltac:(lia)).
  pose proof (Z.div_pos i 64 ltac:(lia) ltac:(lia)).
  case_bool_decide; lia.
Qed.

(** Changing one chunk changes the bits of that chunk only. *)
Lemma bit_insert b k v i :
  0 ≤ i → (k < length b)%nat →
  bit (<[k := v]> b) i = if decide (Z.to_nat (i / 64) = k) then Z.testbit v (i mod 64) else bit b i.
Proof.
  intros Hi Hk. rewrite /bit !nth_lookup. case_decide as Hd; [subst|].
  - by rewrite list_lookup_insert_eq.
  - by rewrite list_lookup_insert_ne.
Qed.

Lemma same_position pos i :
  0 ≤ pos → 0 ≤ i → Z.to_nat (i / 64) = Z.to_nat (pos / 64) → i mod 64 = pos mod 64 → i = pos.
Proof.
  intros Hp Hi Hd Hm. rewrite (Z.div_mod i 64) // (Z.div_mod pos 64) // Hm.
  pose proof (Z.div_pos i 64 Hi). pose proof (Z.div_pos pos 64 Hp). lia.
Qed.

Section update.
Context (n : Z) (b : bitset) (X : gset Z) (pos : Z).
Hypotheses (Hb : bs_repr n b X) (Hpos : 0 ≤ pos < n).

Let major := Z.to_nat (pos / 64).
Let minor := pos mod 64.

Lemma chunk_lookup : ∃ v, b !! major = Some v ∧ u64 v.
Proof.
  destruct (lookup_lt_is_Some_2 b major) as [v Hv].
  { rewrite (repr_length _ _ _ Hb). by apply nchunks_bound. }
  exists v. split; [done|]. by eapply Forall_lookup_1 in Hv; [|apply Hb].
Qed.

Lemma minor_range : 0 ≤ minor < 64.
Proof. apply Z.mod_pos_bound. lia. Qed.

Lemma bit_chunk v i :
  b !! major = Some v → 0 ≤ i → Z.to_nat (i / 64) = major → bit b i = Z.testbit v (i mod 64).
Proof. intros Hv Hi Hd. rewrite /bit Hd. by rewrite (nth_lookup_Some _ _ _ v). Qed.

Lemma bitset_set_spec : ∃ b', bitset_set b pos = Some b' ∧ bs_repr n b' ({[pos]} ∪ X).
Proof.
  destruct chunk_lookup as (v & Hv & Hu). pose proof minor_range.
  exists (<[major := Z.lor v (2 ^ minor)]> b). split.
  { rewrite /bitset_set /bitsetIndex -/major -/minor Hv /= minor_mask //. }
  split.
  - rewrite length_insert. apply Hb.
  - apply Forall_insert; [apply Hb|]. apply u64_lor; [done|by apply u64_pow].
  - intros i Hi. rewrite bit_insert //; [|by eapply lookup_lt_Some].
    case_decide as Hd.
    + rewrite Z.lor_spec testbit_pow; [|lia]. rewrite -(bit_chunk v i) // (repr_bits _ _ _ Hb) //.
      apply eq_bool_prop_intro. rewrite orb_True !bool_decide_spec elem_of_union elem_of_singleton.
      split; [|intros [->|]; auto]. intros [?|Hm]; [auto|]. left. by apply same_position; [lia|..].
    + rewrite (repr_bits _ _ _ Hb) //. apply bool_decide_ext.
      rewrite elem_of_union elem_of_singleton. split; [auto|]. intros [->|]; [done|done].
  - intros i [->%elem_of_singleton|?]%elem_of_union; [done|by apply (repr_range _ _ _ Hb)].
Qed.

Lemma bitset_clear_spec : ∃ b', bitset_clear b pos = Some b' ∧ bs_repr n b' (X ∖ {[pos]}).
Proof.
  destruct chunk_lookup as (v & Hv & Hu). pose proof minor_range.
  exists (<[major := Z.ldiff v (2 ^ minor)]> b). split.
  { rewrite /bitset_clear /bitsetIndex -/major -/minor Hv /= minor_mask //. }
  split.
  - rewrite length_insert. apply Hb.
  - apply Forall_insert; [apply Hb|]. apply u64_ldiff; [done|apply Z.pow_nonneg; lia].
  - intros i Hi. rewrite bit_insert //; [|by eapply lookup_lt_Some].
    case_decide as Hd.
    + rewrite Z.ldiff_spec testbit_pow; [|lia]. rewrite -(bit_chunk v i) // (repr_bits _ _ _ Hb) //.
      apply eq_bool_prop_intro. rewrite andb_True negb_True !bool_decide_spec elem_of_difference elem_of_singleton.
      split; [intros [? Hm]; split; [done|]; by intros ->|]. intros [? Hne]. split; [done|].
      intros Hm. apply Hne. by apply same_position; [lia|..].
    + rewrite (repr_bits _ _ _ Hb) //. apply bool_decide_ext.
      rewrite elem_of_difference elem_of_singleton. split; [|by intros []]. intros ?. split; [done|]. by intros ->.
  - intros i [? _]%elem_of_difference. by apply (repr_range _ _ _ Hb).
Qed.

Lemma bitset_get_spec : bitset_get b pos = Some (bool_decide (pos ∈ X)).
Proof.
  destruct chunk_lookup as (v & Hv & Hu). pose proof minor_range.
  rewrite /bitset_get /bitsetIndex -/major -/minor Hv /= minor_mask //. f_equal.
  rewrite -(repr_bits _ _ _ Hb); [|lia]. rewrite (bit_chunk v) //; [|lia].
  case_bool_decide as Hz; simpl.
  - destruct (Z.testbit v (pos mod 64)) eqn:Ht; [|done].
    apply (f_equal (λ z, Z.testbit z minor)) in Hz. rewrite Z.land_spec Z.bits_0 testbit_pow in Hz; [|lia].
    by rewrite /minor Ht bool_decide_true in Hz.
  - destruct (Z.testbit v (pos mod 64)) eqn:Ht; [done|]. destruct Hz. apply Z.bits_inj'. intros j Hj.
    rewrite Z.land_spec Z.bits_0 testbit_pow; [|lia]. case_bool_decide; [|by rewrite andb_false_r].
    subst. by rewrite /minor Ht.
Qed.

End update.

Lemma newBitset_repr n : bs_repr n (newBitset n) ∅.
Proof.
  split; [done|by apply Forall_replicate| |set_solver].
  intros i Hi. rewrite bool_decide_false; [|set_solver]. rewrite /bit /newBitset nth_lookup.
  destruct (replicate _ _ !! _) as [v|] eqn:Hv; simpl; [|by rewrite Z.bits_0].
  apply lookup_replicate in Hv as [-> _]. apply Z.bits_0.
Qed.

(** The chunks are determined by the bits. *)
Lemma bs_repr_unique n b1 b2 X : bs_repr n b1 X → bs_repr n b2 X → b1 = b2.
Proof.
  intros [Hl1 Hu1 Hb1 _] [Hl2 Hu2 Hb2 _]. apply list_eq. intros k.
  destruct (b1 !! k) as [v1|] eqn:H1.
  - destruct (lookup_lt_is_Some_2 b2 k) as [v2 H2].
    { apply lookup_lt_Some in H1. lia. }
    rewrite H2. f_equal. apply Z.bits_inj'. intros j Hj.
    eapply Forall_lookup_1 in Hu1; [|done]. eapply Forall_lookup_1 in Hu2; [|done].
    destruct (decide (64 ≤ j)); [by rewrite !u64_testbit|].
    pose proof (Hb1 (Z.of_nat k * 64 + j) ltac:(lia)) as E1.
    rewrite -(Hb2 (Z.of_nat k * 64 + j) ltac:(lia)) /bit in E1.
    rewrite Z.div_add_l // Z.div_small in E1; [|lia].
    rewrite Z.add_0_r Nat2Z.id Z.add_comm Z_mod_plus_full Z.mod_small in E1; [|lia].
    by rewrite (nth_lookup_Some _ _ _ v1) // (nth_lookup_Some _ _ _ v2) // in E1.
  - symmetry. apply lookup_ge_None. apply lookup_ge_None in H1. lia.
Qed.

Lemma bs_repr_inj n b X1 X2 : bs_repr n b X1 → bs_repr n b X2 → X1 = X2.
Proof.
  intros [_ _ H1 R1] [_ _ H2 R2]. apply set_eq. intros i. split; intros Hi.
  - pose proof (R1 i Hi). apply (bool_decide_eq_true (i ∈ X2)). rewrite -H2; [|lia].
    rewrite H1; [|lia]. by apply bool_decide_eq_true.
  - pose proof (R2 i Hi). apply (bool_decide_eq_true (i ∈ X1)). rewrite -H1; [|lia].
    rewrite H2; [|lia]. by apply bool_decide_eq_true.
Qed.

Lemma bitset_equals_true b b2 : bitset_equals b b2 = true ↔ b = b2.
Proof.
  rewrite /bitset_equals. revert b2. induction b as [|x b IH]; intros [|y b2]; simpl; [done..|].
  rewrite andb_true_iff bool_decide_eq_true. specialize (IH b2).
  rewrite andb_true_iff bool_decide_eq_true in IH. rewrite andb_true_iff bool_decide_eq_true.
  split; [|by intros [= -> ->]; split; [done|]; split; [done|]; apply IH].
  intros ([= ?] & -> & ?). f_equal. by apply IH.
Qed.

(** C38: A bit set implements a finite set. If a bit set of capacity [n]
    stands for [X] and [pos] is below [n], then none of its operations panics:
    [set] gives the bit set of [X] with [pos], [clear] that of [X] without it,
    [get] tests membership, and [equals] on two bit sets of that capacity
    decides whether they stand for the same set. [newBitset] stands for the
    empty set. *)
Theorem bitset_implements_set n b X pos :
  bs_repr n b X → 0 ≤ pos < n →
  bs_repr n (newBitset n) ∅ ∧
  (∃ b', bitset_set b pos = Some b' ∧ bs_repr n b' ({[pos]} ∪ X)) ∧
  (∃ b', bitset_clear b pos = Some b' ∧ bs_repr n b' (X ∖ {[pos]})) ∧
  bitset_get b pos = Some (bool_decide (pos ∈ X)) ∧
  ∀ b2 X2, bs_repr n b2 X2 → bitset_equals b b2 = bool_decide (X = X2).
Proof.
  intros Hb Hpos. split_and!; [apply newBitset_repr|by apply bitset_set_spec|by apply bitset_clear_spec|
    by eapply bitset_get_spec|].
  intros b2 X2 Hb2. case_bool_decide as HX.
  - subst. apply bitset_equals_true. by eapply bs_repr_unique.
  - apply not_true_iff_false. intros ->%bitset_equals_true. apply HX. by eapply bs_repr_inj.
Qed.

Lemma bitset_implements_set_witness :
  bitset_set (newBitset 70) 65 = Some [0; 2] ∧ ∃ b', bitset_set (newBitset 70) 65 = Some b' ∧
    bs_repr 70 b' ({[65]} ∪ ∅).
Proof.
  split; [reflexivity|].
  exact (proj1 (proj2 (bitset_implements_set 70 (newBitset 70) ∅ 65 (newBitset_repr 70) ltac:(lia)))).
Defined.
