(* ===== verification/Porcupine.v ===== *)
(** * The linearizability checker

    Models [porcupine/model.go], [porcupine/checker.go] and
    [porcupine/porcupine.go]. Inputs and outputs of operations (Go values of
    type [interface{}]) have types [In] and [Out]; a value is one or the other.
    The entries of a history form a doubly linked list whose nodes live in a
    heap: a map from addresses to nodes, [lift] and [unlift] being the pointer
    updates of the source. The search of [checkSingle] is a loop over an
    explicit state; a nil dereference, a failed type assertion and an index out
    of range are [Panicked]. The checking goroutines of [checkParallel] are
    represented by the order their results arrive in and by what each of them
    reads from the kill flag. *)
From S2P Require Import Prelude GoBase Bitset.

(** ** model.go *)

Record Operation {In Out : Type} := mkOperation {
  op_ClientId : Z; op_Input : In; op_Call : Z; op_Output : Out; op_Return : Z;
}.
Arguments Operation : clear implicits.
Arguments mkOperation {_ _} _ _ _ _ _.

Inductive EventKind := CallEvent | ReturnEvent.

Record Event {In Out : Type} := mkEvent {
  ev_ClientId : Z; ev_Kind : EventKind; ev_Value : In + Out; ev_Id : Z;
}.
Arguments Event : clear implicits.
Arguments mkEvent {_ _} _ _ _ _.

(** The functions a user may leave nil are [option]s. *)
Record Model {In Out State : Type} := mkModel {
  Partition : option (list (Operation In Out) → list (list (Operation In Out)));
  PartitionEvent : option (list (Event In Out) → list (list (Event In Out)));
  Init : State;
  Step : State → In → Out → bool * State;
  Equal : option (State → State → bool);
  DescribeOperation : option (In → Out → string);
  DescribeState : option (State → string);
}.
Arguments Model : clear implicits.

(** A model in which nothing is nil, as [fillDefault] returns it. *)
Record FModel {In Out State : Type} := mkFModel {
  f_Partition : list (Operation In Out) → list (list (Operation In Out));
  f_PartitionEvent : list (Event In Out) → list (list (Event In Out));
  f_Init : State;
  f_Step : State → In → Out → bool * State;
  f_Equal : State → State → bool;
  f_DescribeOperation : In → Out → string;
  f_DescribeState : State → string;
}.
Arguments FModel : clear implicits.

Inductive CheckResult := Unknown | Ok | Illegal.

Inductive entryKind := callEntry | returnEntry.

#[global] Instance entryKind_eq_dec : EqDecision entryKind.
Proof. solve_decision. Defined.
#[global] Instance CheckResult_eq_dec : EqDecision CheckResult.
Proof. solve_decision. Defined.

Definition NoPartition {A} (history : list A) : list (list A) := [history].

(** [state1 == state2] *)
Definition ShallowEqual {State} `{EqDecision State} (state1 state2 : State) : bool := bool_decide (state1 = state2).

(** [fmt_op] and [fmt_state] are the [%v] formats of the default
    descriptions. *)
Definition fillDefault {In Out State} `{EqDecision State} (fmt_op : In → Out → string) (fmt_state : State → string)
    (model : Model In Out State) : FModel In Out State :=
  mkFModel _ _ _ (default NoPartition (Partition model)) (default NoPartition (PartitionEvent model))
    (Init model) (Step model) (default ShallowEqual (Equal model))
    (default fmt_op (DescribeOperation model)) (default fmt_state (DescribeState model)).

Section checker.
Context {In Out State : Type}.

(** ** Entries *)

Record entry := mkEntry {
  e_kind : entryKind; e_value : In + Out; e_id : Z; e_time : Z; e_clientId : Z;
}.

Definition byTime_Less (a b : entry) : bool :=
  if negb (bool_decide (e_time a = e_time b)) then bool_decide (e_time a < e_time b)
  else bool_decide (e_kind a = callEntry) && bool_decide (e_kind b = returnEntry).

Fixpoint makeEntries_go (id : Z) (history : list (Operation In Out)) : list entry :=
  match history with
  | [] => []
  | elem :: history' =>
      mkEntry callEntry (inl (op_Input elem)) id (op_Call elem) (op_ClientId elem) ::
      mkEntry returnEntry (inr (op_Output elem)) id (op_Return elem) (op_ClientId elem) ::
      makeEntries_go (id + 1) history'
  end.

(** [sort.Sort(byTime(entries))] is not stable: [sort] is any function that
    sorts by [byTime_Less]. *)
Definition makeEntries (sort : list entry → list entry) (history : list (Operation In Out)) : list entry :=
  sort (makeEntries_go 0 history).

Fixpoint renumber_go (m : gmap Z Z) (id : Z) (events : list (Event In Out)) : list (Event In Out) :=
  match events with
  | [] => []
  | v :: events' =>
      match m !! ev_Id v with
      | Some r => mkEvent (ev_ClientId v) (ev_Kind v) (ev_Value v) r :: renumber_go m id events'
      | None => mkEvent (ev_ClientId v) (ev_Kind v) (ev_Value v) id ::
                renumber_go (<[ev_Id v := id]> m) (id + 1) events'
      end
  end.

Definition renumber (events : list (Event In Out)) : list (Event In Out) := renumber_go ∅ 0 events.

(** The index of an event serves as its time. *)
Definition convertEntries (events : list (Event In Out)) : list entry :=
  imap (λ i elem,
    mkEntry (match ev_Kind elem with ReturnEvent => returnEntry | CallEvent => callEntry end)
      (ev_Value elem) (ev_Id elem) (Z.of_nat i) (ev_ClientId elem)) events.

(** ** The linked list *)

Record node := mkNode {
  n_value : option (In + Out);   (* nil in the head *)
  n_match : option nat;
  n_id : Z;
  n_next : option nat;
  n_prev : option nat;
}.

Notation heap := (gmap nat node).

Definition set_next (p : nat) (v : option nat) : heap → heap :=
  alter (λ n, mkNode (n_value n) (n_match n) (n_id n) v (n_prev n)) p.
Definition set_prev (p : nat) (v : option nat) : heap → heap :=
  alter (λ n, mkNode (n_value n) (n_match n) (n_id n) (n_next n) v) p.

Definition insertBefore (h : heap) (n : nat) (mark : option nat) : heap :=
  match mark with
  | None => h
  | Some mark =>
      let beforeMark := h !! mark ≫= n_prev in
      let h := set_prev mark (Some n) h in
      let h := set_next n (Some mark) h in
      match beforeMark with
      | None => h
      | Some b => set_next b (Some n) (set_prev n (Some b) h)
      end
  end.

(** Following [next]; the fuel is the number of nodes. *)
Fixpoint list_length (fuel : nat) (h : heap) (n : option nat) : Z :=
  match fuel, n with
  | S fuel', Some p => 1 + list_length fuel' h (h !! p ≫= n_next)
  | _, _ => 0
  end.

(** The loop of [makeLinkedEntries] runs from the last entry to the first;
    the node of the [i]-th entry has address [i]. *)
Fixpoint makeLinkedEntries_go (i : nat) (entries : list entry) : heap * gmap Z nat * option nat :=
  match entries with
  | [] => (∅, ∅, None)
  | elem :: entries' =>
      let '(h, m, root) := makeLinkedEntries_go (S i) entries' in
      match e_kind elem with
      | returnEntry =>
          let h := <[i := mkNode (Some (e_value elem)) None (e_id elem) None None]> h in
          (insertBefore h i root, <[e_id elem := i]> m, Some i)
      | callEntry =>
          let h := <[i := mkNode (Some (e_value elem)) (m !! e_id elem) (e_id elem) None None]> h in
          (insertBefore h i root, m, Some i)
      end
  end.

Definition makeLinkedEntries (entries : list entry) : heap * option nat :=
  let '(h, _, root) := makeLinkedEntries_go 0 entries in (h, root).

(** [entry.prev.next = entry.next; entry.next.prev = entry.prev] and the same
    for the matching return, whose [next] may be nil. *)
Definition lift (h : heap) (p : nat) : option heap :=
  entry ← h !! p;
  pp ← n_prev entry; let h := set_next pp (n_next entry) h in
  entry ← h !! p;
  pn ← n_next entry; let h := set_prev pn (n_prev entry) h in
  m ← n_match entry;
  mn ← h !! m;
  mp ← n_prev mn; let h := set_next mp (n_next mn) h in
  mn ← h !! m;
  Some (match n_next mn with None => h | Some nx => set_prev nx (n_prev mn) h end).

Definition unlift (h : heap) (p : nat) : option heap :=
  entry ← h !! p;
  m ← n_match entry;
  mn ← h !! m;
  mp ← n_prev mn; let h := set_next mp (Some m) h in
  mn ← h !! m;
  let h := match n_next mn with None => h | Some nx => set_prev nx (Some m) h end in
  entry ← h !! p;
  pp ← n_prev entry; let h := set_next pp (Some p) h in
  entry ← h !! p;
  pn ← n_next entry; Some (set_prev pn (Some p) h).

(** ** The cache *)

Record cacheEntry := mkCacheEntry { ca_linearized : list Z; ca_state : State }.
Notation Cache := (gmap Z (list cacheEntry)).

Definition cacheContains (model : FModel In Out State) (cache : Cache) (entry : cacheEntry) : bool :=
  existsb (λ elem, bitset_equals (ca_linearized entry) (ca_linearized elem) &&
                   f_Equal model (ca_state entry) (ca_state elem))
    (default [] (cache !! bitset_hash (ca_linearized entry))).

Definition cacheInsert (cache : Cache) (entry : cacheEntry) : Cache :=
  let hash := bitset_hash (ca_linearized entry) in
  <[hash := default [] (cache !! hash) ++ [entry]]> cache.

(** ** checkSingle *)

Record callsEntry := mkCallsEntry { ce_entry : nat; ce_state : State }.

(** A pointer to a slice of operation numbers: the slices are numbered in the
    order they are made. *)
Notation SeqPtr := (nat * list Z)%type.

Record CState := mkCState {
  c_entry : option nat;
  c_heap : heap;
  c_linearized : list Z;
  c_cache : Cache;
  c_calls : list callsEntry;
  c_state : State;
  c_longest : list (option SeqPtr);
  c_nseq : nat;
}.

Definition calls_ids (h : heap) (calls : list callsEntry) : option (list Z) :=
  mapM (λ v, n_id <$> h !! ce_entry v) calls.

(** The loop that records the longest partial linearization of each operation
    linearized so far. *)
Fixpoint update_longest (seq : SeqPtr) (ids : list Z) (longest : list (option SeqPtr)) :
    option (list (option SeqPtr)) :=
  match ids with
  | [] => Some longest
  | id :: ids' =>
      cur ← longest !! Z.to_nat id;
      let better := match cur with
                    | None => true
                    | Some (_, l) => bool_decide (length l < length seq.2)%nat
                    end in
      update_longest seq ids' (if better then <[Z.to_nat id := Some seq]> longest else longest)
  end.

Inductive Outcome := Continue (st : CState) | Returned (ok : bool) (longest : list (option SeqPtr)) | Panicked.

Definition from_option_outcome (o : option CState) : Outcome :=
  match o with Some st => Continue st | None => Panicked end.

(** The branch for a call entry whose step is legal and not cached yet:
    linearize it and start over from the head. *)
Definition linearize (head : nat) (st : CState) (p : nat) (nd : node) (newLinearized : list Z) (newState : State) :
    option CState :=
  h' ← lift (c_heap st) p;
  hd ← h' !! head;
  lin' ← bitset_set (c_linearized st) (n_id nd);
  Some (mkCState (n_next hd) h' lin' (cacheInsert (c_cache st) (mkCacheEntry newLinearized newState))
          (c_calls st ++ [mkCallsEntry p (c_state st)]) newState (c_longest st) (c_nseq st)).

(** The branch for a return entry, with at least one call on the stack: undo
    the last call and go on behind it. *)
Definition backtrack (computePartial : bool) (st : CState) (calls : list callsEntry) (top : callsEntry) :
    option CState :=
  longest ← if computePartial then
    (ids ← calls_ids (c_heap st) (c_calls st); update_longest (c_nseq st, ids) ids (c_longest st))
    else Some (c_longest st);
  nd ← c_heap st !! ce_entry top;
  lin' ← bitset_clear (c_linearized st) (n_id nd);
  h' ← unlift (c_heap st) (ce_entry top);
  nd' ← h' !! ce_entry top;
  Some (mkCState (n_next nd') h' lin' (c_cache st) calls (ce_state top) longest (S (c_nseq st))).

Definition move_on (st : CState) (nd : node) : CState :=
  mkCState (n_next nd) (c_heap st) (c_linearized st) (c_cache st) (c_calls st) (c_state st)
    (c_longest st) (c_nseq st).

(** One iteration of the loop, its condition and the code after it
    included. *)
Definition check_iter (model : FModel In Out State) (computePartial kill : bool) (head : nat) (st : CState) : Outcome :=
  match c_heap st !! head with
  | None => Panicked
  | Some hd =>
  match n_next hd with
  | None =>
      match calls_ids (c_heap st) (c_calls st) with
      | None => Panicked
      | Some seq => Returned true (const (Some (c_nseq st, seq)) <$> c_longest st)
      end
  | Some _ =>
  if kill then Returned false (c_longest st) else
  match c_entry st with
  | None => Panicked
  | Some p =>
  match c_heap st !! p with
  | None => Panicked
  | Some nd =>
  match n_match nd with
  | Some m =>
      match n_value nd, c_heap st !! m ≫= n_value with
      | Some (inl i), Some (inr o) =>
          let '(ok, newState) := f_Step model (c_state st) i o in
          if ok then
            match bitset_set (bitset_clone (c_linearized st)) (n_id nd) with
            | None => Panicked
            | Some newLinearized =>
                if negb (cacheContains model (c_cache st) (mkCacheEntry newLinearized newState))
                then from_option_outcome (linearize head st p nd newLinearized newState)
                else Continue (move_on st nd)
            end
          else Continue (move_on st nd)
      | _, _ => Panicked
      end
  | None =>
      match reverse (c_calls st) with
      | [] => Returned false (c_longest st)
      | top :: rest => from_option_outcome (backtrack computePartial st (reverse rest) top)
      end
  end end end end end.

(** The loop; [kill i] is what its [i]-th iteration reads from the kill flag.
    [None] means that the fuel ran out. *)
Fixpoint check_loop (model : FModel In Out State) (computePartial : bool) (kill : nat → bool) (head : nat)
    (fuel : nat) (st : CState) : option Outcome :=
  match fuel with
  | O => None
  | S fuel' =>
      match check_iter model computePartial (kill O) head st with
      | Continue st' => check_loop model computePartial (λ i, kill (S i)) head fuel' st'
      | o => Some o
      end
  end.

(** The state before the loop, and the address of the head node. *)
Definition check_start (model : FModel In Out State) (history : list entry) : nat * CState :=
  let '(h, entry) := makeLinkedEntries history in
  let n := list_length (length history) h entry / 2 in
  let head := length history in
  let h := insertBefore (<[head := mkNode None None (-1) None None]> h) head entry in
  (head, mkCState entry h (newBitset n) ∅ [] (f_Init model) (replicate (Z.to_nat n) None) 0).

Definition checkSingle (model : FModel In Out State) (history : list entry) (computePartial : bool)
    (kill : nat → bool) (fuel : nat) : option Outcome :=
  let '(head, st) := check_start model history in
  check_loop model computePartial kill head fuel st.

(** ** checkParallel *)

Record linearizationInfo := mkInfo {
  li_history : list (list entry);
  li_partialLinearizations : list (list (list Z));
}.

(** What the scheduler decides: the order in which the goroutines' results
    are received, after how many of them the timer fires (if there is one), what
    each goroutine reads from the kill flag in each iteration, and the order in
    which a set of pointers is iterated. *)
Record Schedule := mkSchedule {
  sc_order : list nat;
  sc_timer : option nat;
  sc_kill : nat → nat → bool;
  sc_range : list SeqPtr → list SeqPtr;
}.

Section parallel.
Context (model : FModel In Out State) (history : list (list entry)) (computeInfo : bool) (fuel : nat).

(** The [i]-th goroutine. *)
Definition goroutine (sched : Schedule) (i : nat) : option (bool * list (option SeqPtr)) :=
  sub ← history !! i;
  match checkSingle model sub computeInfo (sc_kill sched i) fuel with
  | Some (Returned ok l) => Some (ok, l)
  | _ => None
  end.

(** The receive loop: whether all results so far were true, and whether it
    timed out. [None] if it blocks for ever (or a goroutine panicked). *)
Fixpoint receive (results : nat → option bool) (order : list nat) (timer : option nat)
    (count : nat) (ok : bool) : option (bool * bool) :=
  match timer with
  | Some O => Some (ok, true)
  | _ =>
      match order with
      | [] => None
      | i :: order' =>
          result ← results i;
          let count := S count in
          let ok := ok && result in
          if negb ok && negb computeInfo then Some (ok, false)
          else if bool_decide (length history ≤ count)%nat then Some (ok, false)
          else receive results order' (pred <$> timer) count ok
      end
  end.

(** The distinct partial linearizations of one partition. *)
Definition partials (sched : Schedule) (longest : list (option SeqPtr)) : list (list Z) :=
  snd <$> sc_range sched (remove_dups (omap (λ v : option SeqPtr, v) longest)).

Definition checkParallel (timeout : Z) (sched : Schedule) : option (CheckResult * linearizationInfo) :=
  let timer := if bool_decide (0 < timeout) then sc_timer sched else None in
  received ← receive (λ i, fst <$> goroutine sched i) (sc_order sched) timer 0 true;
  let '(ok, timedOut) := (received : bool * bool) in
  info ← if computeInfo then
           longest ← mapM (λ i, snd <$> goroutine sched i) (seq 0 (length history));
           Some (mkInfo history (partials sched <$> longest))
         else Some (mkInfo [] []);
  Some (if negb ok then Illegal else if timedOut then Unknown else Ok, info).

End parallel.

Definition checkEvents (model : FModel In Out State) (history : list (Event In Out)) (verbose : bool)
    (timeout : Z) (sched : Schedule) (fuel : nat) : option (CheckResult * linearizationInfo) :=
  let partitions := f_PartitionEvent model history in
  checkParallel model ((λ sub, convertEntries (renumber sub)) <$> partitions) verbose fuel timeout sched.

Definition checkOperations (sort : list entry → list entry) (model : FModel In Out State)
    (history : list (Operation In Out)) (verbose : bool)
    (timeout : Z) (sched : Schedule) (fuel : nat) : option (CheckResult * linearizationInfo) :=
  let partitions := f_Partition model history in
  checkParallel model (makeEntries sort <$> partitions) verbose fuel timeout sched.

(** ** porcupine.go *)

Definition CheckOperations (sort : list entry → list entry) (model : FModel In Out State)
    (history : list (Operation In Out)) (sched : Schedule) (fuel : nat) : option bool :=
  '(res, _) ← checkOperations sort model history false 0 sched fuel; Some (bool_decide (res = Ok)).

Definition CheckOperationsTimeout (sort : list entry → list entry) (model : FModel In Out State)
    (history : list (Operation In Out)) (timeout : Z) (sched : Schedule) (fuel : nat) : option CheckResult :=
  fst <$> checkOperations sort model history false timeout sched fuel.

Definition CheckOperationsVerbose (sort : list entry → list entry) (model : FModel In Out State)
    (history : list (Operation In Out)) (timeout : Z) (sched : Schedule) (fuel : nat) :
    option (CheckResult * linearizationInfo) :=
  checkOperations sort model history true timeout sched fuel.

Definition CheckEvents (model : FModel In Out State) (history : list (Event In Out)) (sched : Schedule)
    (fuel : nat) : option bool :=
  '(res, _) ← checkEvents model history false 0 sched fuel; Some (bool_decide (res = Ok)).

Definition CheckEventsTimeout (model : FModel In Out State) (history : list (Event In Out)) (timeout : Z)
    (sched : Schedule) (fuel : nat) : option CheckResult :=
  fst <$> checkEvents model history false timeout sched fuel.

Definition CheckEventsVerbose (model : FModel In Out State) (history : list (Event In Out)) (timeout : Z)
    (sched : Schedule) (fuel : nat) : option (CheckResult * linearizationInfo) :=
  checkEvents model history true timeout sched fuel.

End checker.
Arguments entry : clear implicits.
Arguments node : clear implicits.
Arguments CState : clear implicits.
Arguments Outcome : clear implicits.
