(* ===== verification/PorcHeap.v ===== *)
(** * Lifting and unlifting in the linked list of entries

    [lift] takes a call and its return out of the doubly linked list and
    leaves their own pointers alone, so that [unlift] can put them back: on a
    well linked heap [unlift] restores the very heap. *)
From S2P Require Import Prelude GoBase Bitset Porcupine.

Section heap.
Context {In Out : Type}.
Notation heap := (gmap nat (node In Out)).
Implicit Types (h : heap) (p x y : nat) (l : list nat).

Definition nx h p : option nat := h !! p ≫= n_next.
Definition pv h p : option nat := h !! p ≫= n_prev.

(** [p] is followed by exactly the nodes of [l]. *)
Fixpoint dseg h p l : Prop :=
  match l with
  | [] => nx h p = None
  | x :: l' => nx h p = Some x ∧ pv h x = Some p ∧ dseg h x l'
  end.

Definition allocated h l : Prop := Forall (λ x, is_Some (h !! x)) l.

(** The fields no operation changes. *)
Definition same_data h h' : Prop :=
  ∀ p, (λ n, (n_value n, n_match n, n_id n)) <$> h' !! p = (λ n, (n_value n, n_match n, n_id n)) <$> h !! p.

(** Taking out and putting back one node. *)
Definition remove1 h x : option heap :=
  n ← h !! x; p ← n_prev n;
  let h := set_next p (n_next n) h in
  n ← h !! x;
  Some (match n_next n with None => h | Some y => set_prev y (n_prev n) h end).

Definition restore1 h x : option heap :=
  n ← h !! x; p ← n_prev n;
  let h := set_next p (Some x) h in
  n ← h !! x;
  Some (match n_next n with None => h | Some y => set_prev y (Some x) h end).

Lemma lookup_set_next p v h y :
  set_next p v h !! y =
    if decide (y = p) then (λ n, mkNode (n_value n) (n_match n) (n_id n) v (n_prev n)) <$> h !! y else h !! y.
Proof. rewrite /set_next lookup_alter. case_decide; case_decide; by subst. Qed.

Lemma lookup_set_prev p v h y :
  set_prev p v h !! y =
    if decide (y = p) then (λ n, mkNode (n_value n) (n_match n) (n_id n) (n_next n) v) <$> h !! y else h !! y.
Proof. rewrite /set_prev lookup_alter. case_decide; case_decide; by subst. Qed.

Lemma nx_set_next p v h y :
  is_Some (h !! p) → nx (set_next p v h) y = if decide (y = p) then v else nx h y.
Proof. intros [n Hn]. rewrite /nx lookup_set_next. case_decide; [subst; by rewrite Hn|done]. Qed.

Lemma pv_set_next p v h y : pv (set_next p v h) y = pv h y.
Proof. rewrite /pv lookup_set_next. case_decide; [|done]. by destruct (h !! y). Qed.

Lemma nx_set_prev p v h y : nx (set_prev p v h) y = nx h y.
Proof. rewrite /nx lookup_set_prev. case_decide; [|done]. by destruct (h !! y). Qed.

Lemma pv_set_prev p v h y :
  is_Some (h !! p) → pv (set_prev p v h) y = if decide (y = p) then v else pv h y.
Proof. intros [n Hn]. rewrite /pv lookup_set_prev. case_decide; [subst; by rewrite Hn|done]. Qed.

Lemma same_data_refl h : same_data h h.
Proof. done. Qed.

Lemma same_data_trans h1 h2 h3 : same_data h1 h2 → same_data h2 h3 → same_data h1 h3.
Proof. intros H1 H2 p. by rewrite H2 H1. Qed.

Lemma same_data_sym h1 h2 : same_data h1 h2 → same_data h2 h1.
Proof. intros H p. by rewrite H. Qed.

Lemma same_data_set_next p v h : same_data h (set_next p v h).
Proof. intros y. rewrite lookup_set_next. case_decide; [|done]. by destruct (h !! y). Qed.

Lemma same_data_set_prev p v h : same_data h (set_prev p v h).
Proof. intros y. rewrite lookup_set_prev. case_decide; [|done]. by destruct (h !! y). Qed.

Lemma same_data_lookup h h' p n :
  same_data h h' → h !! p = Some n →
  ∃ n', h' !! p = Some n' ∧ n_value n' = n_value n ∧ n_match n' = n_match n ∧ n_id n' = n_id n.
Proof.
  intros Hd Hp. specialize (Hd p). rewrite Hp /= in Hd.
  destruct (h' !! p) as [n'|]; simplify_eq/=. eauto.
Qed.

Lemma same_data_allocated h h' l : same_data h h' → allocated h l → allocated h' l.
Proof.
  intros Hd Hl. apply (Forall_impl _ _ _ Hl). intros x [n Hn].
  destruct (same_data_lookup _ _ _ _ Hd Hn) as (n' & -> & _). eauto.
Qed.

#[local] Hint Resolve same_data_refl same_data_set_next same_data_set_prev : labs.

Lemma dseg_frame h h' p l :
  (∀ y, y ∈ p :: l → nx h' y = nx h y) → (∀ y, y ∈ l → pv h' y = pv h y) →
  dseg h p l → dseg h' p l.
Proof.
  revert p. induction l as [|x l IH]; intros p Hn Hp; simpl; [by rewrite Hn; [|left]|].
  intros (H1 & H2 & H3). rewrite Hn; [|left]. rewrite Hp; [|left]. split_and!; [done..|].
  apply IH; [|intros y Hy; apply Hp; by right|done]. intros y Hy. apply Hn. by right.
Qed.

(** The neighbours of a node of the list. *)
Lemma dseg_mid h p l1 x l2 :
  dseg h p (l1 ++ x :: l2) →
  ∃ q, q ∈ p :: l1 ∧ nx h q = Some x ∧ pv h x = Some q ∧ nx h x = head l2.
Proof.
  revert p. induction l1 as [|y l1 IH]; intros p; simpl.
  - intros (H1 & H2 & H3). exists p. split_and!; [left|done..|]. by destruct l2; [|destruct H3].
  - intros (H1 & H2 & H3). destruct (IH y H3) as (q & Hq & ?). exists q. split; [by right|done].
Qed.

(** The list after the pointers around [x] were redirected. *)
Lemma dseg_remove h h' q p l1 x l2 :
  NoDup (p :: l1 ++ x :: l2) → dseg h p (l1 ++ x :: l2) →
  nx h q = Some x → q ∈ p :: l1 → pv h x = Some q →
  (∀ y, nx h' y = if decide (y = q) then nx h x else nx h y) →
  (∀ y, pv h' y = if decide (Some y = nx h x) then Some q else pv h y) →
  dseg h' p (l1 ++ l2).
Proof.
  intros Hnd Hs Hqx Hq Hx Hn Hp. revert p Hnd Hs Hq.
  induction l1 as [|y l1 IH]; intros p Hnd Hs Hq; simpl in *.
  - assert (q = p) as -> by set_solver. destruct Hs as (_ & _ & Hs).
    apply NoDup_cons in Hnd as [Hpx Hnd]. apply NoDup_cons in Hnd as [Hxl Hnd].
    destruct l2 as [|z l2]; simpl in *.
    + by rewrite Hn decide_True.
    + destruct Hs as (Hz1 & Hz2 & Hs). rewrite Hn decide_True // Hp decide_True; [|done].
      split_and!; [done..|]. apply NoDup_cons in Hnd as [Hz _].
      apply (dseg_frame h); [| |done].
      * intros w Hw. rewrite Hn decide_False //. set_solver.
      * intros w Hw. rewrite Hp decide_False //. rewrite Hz1. set_solver.
  - destruct Hs as (H1 & H2 & H3). apply NoDup_cons in Hnd as [Hpy Hnd].
    destruct (dseg_mid _ _ _ _ _ H3) as (q' & Hq' & _ & Hx' & Hxn).
    assert (q' = q) as -> by congruence.
    rewrite Hn decide_False; [|set_solver]. rewrite Hp decide_False; last first.
    { rewrite Hxn. destruct l2 as [|z l2]; [done|]. intros [= ->].
      apply NoDup_cons in Hnd as [Hnd _]. set_solver. }
    split_and!; [done..|]. by apply IH.
Qed.

Lemma remove1_spec h p l1 x l2 :
  NoDup (p :: l1 ++ x :: l2) → allocated h (p :: l1 ++ x :: l2) → dseg h p (l1 ++ x :: l2) →
  ∃ h', remove1 h x = Some h' ∧ dseg h' p (l1 ++ l2) ∧ same_data h h' ∧ restore1 h' x = Some h ∧
    nx h' x = nx h x.
Proof.
  intros Hnd Hal Hs. destruct (dseg_mid _ _ _ _ _ Hs) as (q & Hq & Hqx & Hxq & Hxn).
  assert (is_Some (h !! q)) as [nq Hnq].
  { rewrite /allocated Forall_forall in Hal. apply Hal. set_solver. }
  assert (is_Some (h !! x)) as [nn Hnn].
  { rewrite /allocated Forall_forall in Hal. apply Hal. set_solver. }
  assert (∀ y, nx h x = Some y → is_Some (h !! y) ∧ y ≠ x ∧ y ≠ q ∧ pv h y = Some x) as Hy.
  { intros y Hy. rewrite Hxn in Hy. destruct l2 as [|z l2]; simplify_eq/=.
    rewrite /allocated Forall_forall in Hal. split; [apply Hal; set_solver|].
    apply NoDup_cons in Hnd as [Hp Hnd]. apply NoDup_app in Hnd as (_ & Hl1 & Hnd).
    apply NoDup_cons in Hnd as [Hx _]. split; [set_solver|]. split; [set_solver|].
    clear -Hs. revert p Hs. induction l1 as [|w l1 IH]; intros p; simpl; [by intros (_ & _ & _ & ? & _)|].
    intros (_ & _ & Hs). by eapply IH. }
  assert (q ≠ x) as Hne.
  { intros ->. apply NoDup_cons in Hnd as [Hp Hnd]. apply NoDup_app in Hnd as (_ & Hl1 & _). set_solver. }
  rewrite /nx Hnn /= in Hxn Hy. rewrite /pv Hnn /= in Hxq. rewrite /nx Hnq /= in Hqx.
  set (h' := match n_next nn with None => set_next q (n_next nn) h
             | Some y => set_prev y (n_prev nn) (set_next q (n_next nn) h) end).
  assert (remove1 h x = Some h') as Hrm.
  { rewrite /remove1 Hnn /= Hxq /= lookup_set_next decide_False // Hnn //. }
  assert (h' !! x = Some nn) as Hx'.
  { rewrite /h'. destruct (n_next nn) as [y|] eqn:E; [|by rewrite lookup_set_next decide_False].
    destruct (Hy y eq_refl) as (_ & ? & _). rewrite lookup_set_prev decide_False // lookup_set_next decide_False //. }
  exists h'. split_and!; [done| | | |by rewrite /nx Hx' Hnn].
  - apply (dseg_remove h h' q p l1 x l2); [done..|by rewrite /nx Hnq|done|by rewrite /pv Hnn| |].
    + intros y. rewrite /nx Hnn /= -/(nx h y) -/(nx h' y) /h'.
      destruct (n_next nn); rewrite ?nx_set_prev nx_set_next //; eauto.
    + intros y. rewrite -/(pv h' y) /nx Hnn /= /h'. destruct (n_next nn) as [z|] eqn:E.
      * destruct (Hy z eq_refl) as ([nz Hz] & ? & ? & _). rewrite pv_set_prev.
        -- rewrite pv_set_next Hxq. repeat case_decide; naive_solver.
        -- rewrite lookup_set_next decide_False //.
      * by rewrite pv_set_next.
  - rewrite /h'. destruct (n_next nn); eauto using same_data_trans with labs.
  - rewrite /restore1 Hx' /= Hxq /= lookup_set_next decide_False // Hx' /=. f_equal.
    apply map_eq. intros y. rewrite /h'. destruct (n_next nn) as [z|] eqn:E.
    + destruct (Hy z eq_refl) as ([nz Hz] & ? & ? & Hpz). rewrite /pv Hz /= in Hpz.
      rewrite lookup_set_prev. case_decide as Hyz.
      * subst y. rewrite lookup_set_next decide_False // lookup_set_prev decide_True // lookup_set_next decide_False //.
        rewrite Hz /=. destruct nz; simplify_eq/=. done.
      * rewrite lookup_set_next. case_decide as Hyq.
        -- subst y. rewrite lookup_set_prev decide_False // lookup_set_next decide_True // Hnq /=.
           destruct nq; simplify_eq/=. done.
        -- rewrite lookup_set_prev decide_False // lookup_set_next decide_False //.
    + rewrite !lookup_set_next. case_decide; [|done]. subst y. rewrite Hnq /=.
      destruct nq; simplify_eq/=. done.
Qed.

(** [lift] is two removals, [unlift] two restorations. *)
Lemma lift_remove h h1 p n m :
  remove1 h p = Some h1 → h !! p = Some n → n_match n = Some m → is_Some (nx h1 p) →
  lift h p = remove1 h1 m.
Proof.
  intros Hrm Hn Hm Hnx. rewrite /remove1 Hn /= in Hrm. rewrite /lift Hn /=.
  destruct (n_prev n) as [pp|]; [|done]. simpl in *.
  pose proof (same_data_set_next pp (n_next n) h) as Hd.
  destruct (same_data_lookup _ _ _ _ Hd Hn) as (n' & Hn' & _ & Hm' & _). rewrite Hn' /= in Hrm |- *.
  injection Hrm as <-. destruct (n_next n') as [pn|] eqn:E.
  - rewrite Hm' Hm /=. done.
  - rewrite /nx Hn' /= E in Hnx. by destruct Hnx.
Qed.

Lemma unlift_restore h h1 p n n1 m :
  h !! p = Some n → n_match n = Some m → restore1 h m = Some h1 →
  h1 !! p = Some n1 → is_Some (n_prev n1) → (∀ q, n_prev n1 = Some q → is_Some (nx (set_next q (Some p) h1) p)) →
  unlift h p = restore1 h1 p.
Proof.
  intros Hn Hm Hrs Hn1 [q Hq] Hnx. rewrite /unlift Hn /= Hm /=. rewrite /restore1 in Hrs.
  destruct (h !! m) as [nm|] eqn:Enm; [|done]. simpl in *.
  destruct (n_prev nm) as [mp|]; [|done]. simpl in *.
  destruct (set_next mp (Some m) h !! m) as [nm'|]; [|done]. simpl in *.
  injection Hrs as ->. rewrite Hn1 /= Hq /= /restore1 Hn1 /= Hq /=.
  specialize (Hnx q Hq). rewrite /nx in Hnx.
  destruct (set_next q (Some p) h1 !! p) as [n2|]; [|done]. simpl in *. by destruct Hnx as [? ->].
Qed.

Lemma lift_spec h hd l1 c l2 m l3 nc :
  NoDup (hd :: l1 ++ c :: l2 ++ m :: l3) → allocated h (hd :: l1 ++ c :: l2 ++ m :: l3) →
  dseg h hd (l1 ++ c :: l2 ++ m :: l3) → h !! c = Some nc → n_match nc = Some m →
  ∃ h', lift h c = Some h' ∧ dseg h' hd (l1 ++ l2 ++ l3) ∧ same_data h h' ∧ unlift h' c = Some h.
Proof.
  intros Hnd Hal Hs Hc Hm.
  destruct (remove1_spec h hd l1 c (l2 ++ m :: l3) Hnd Hal Hs) as (h1 & Hr1 & Hs1 & Hd1 & Hre1 & Hnx1).
  assert (hd :: l1 ++ c :: l2 ++ m :: l3 ≡ₚ c :: hd :: (l1 ++ l2) ++ m :: l3) as Hperm by solve_Permutation.
  rewrite assoc_L in Hs1.
  destruct (remove1_spec h1 hd (l1 ++ l2) m l3) as (h2 & Hr2 & Hs2 & Hd2 & Hre2 & _).
  { rewrite Hperm in Hnd. by apply NoDup_cons in Hnd as [_ ?]. }
  { eapply same_data_allocated; [done|]. rewrite /allocated Hperm in Hal. by apply Forall_cons in Hal as [_ ?]. }
  { done. }
  destruct (dseg_mid _ _ _ _ _ Hs) as (q & Hq & _ & Hcq & Hcn).
  assert (is_Some (nx h c)) as Hcnx by (rewrite Hcn; destruct l2; simpl; eauto).
  exists h2. split_and!.
  - erewrite lift_remove; [done..|]. by rewrite Hnx1.
  - by rewrite assoc_L.
  - by eapply same_data_trans.
  - destruct (same_data_lookup _ _ _ _ Hd1 Hc) as (n1 & Hn1 & _ & Hm1 & _).
    destruct (same_data_lookup _ _ _ _ Hd2 Hn1) as (n2 & Hn2 & _ & Hm2 & _).
    rewrite -Hre1. rewrite /restore1 Hn1 /= in Hre1. destruct (n_prev n1) as [q1|] eqn:Eq1; [|done].
    apply (unlift_restore h2 h1 c n2 n1 m); [done|congruence|done|done|by eexists|]. intros q' ?. simplify_eq.
    rewrite /nx lookup_set_next. case_decide; rewrite Hn1 /=; [by eexists|].
    by rewrite /nx Hn1 /= in Hnx1; rewrite Hnx1.
Qed.

End heap.
