(* ===== verification/PorcLink.v ===== *)
(** * Building the linked list of entries

    What [makeLinkedEntries] builds: the nodes of the entries in their order,
    each call node pointing to the node of its return. *)
From S2P Require Import Prelude GoBase Bitset Porcupine PorcHeap.

Section link.
Context {In Out : Type}.
Notation heap := (gmap nat (node In Out)).
Implicit Types (h : heap) (es : list (entry In Out)).

Lemma insertBefore_spec h i mark l nd :
  h !! i = Some nd → n_next nd = None → n_prev nd = None →
  is_Some (h !! mark) → pv h mark = None → dseg h mark l → NoDup (i :: mark :: l) →
  let h' := insertBefore h i (Some mark) in
  dseg h' i (mark :: l) ∧ pv h' i = None ∧ same_data h h'.
Proof.
  intros Hi Hn Hp Hm Hpm Hs Hnd h'.
  apply NoDup_cons in Hnd as [Hil Hnd]. apply NoDup_cons in Hnd as [Hml _].
  assert (h' = set_next i (Some mark) (set_prev mark (Some i) h)) as ->.
  { rewrite /h' /insertBefore -/(pv h mark) Hpm. done. }
  assert (is_Some (set_prev mark (Some i) h !! i)) as Hi'.
  { rewrite lookup_set_prev decide_False; [by rewrite Hi|set_solver]. }
  split_and!.
  - simpl. rewrite nx_set_next // decide_True //. split; [done|].
    rewrite pv_set_next pv_set_prev // decide_True //. split; [done|].
    apply (dseg_frame h); [| |done].
    + intros y Hy. rewrite nx_set_next // decide_False; [by rewrite nx_set_prev|set_solver].
    + intros y Hy. rewrite pv_set_next pv_set_prev // decide_False //. set_solver.
  - rewrite pv_set_next pv_set_prev // decide_False; [|set_solver]. by rewrite /pv Hi.
  - eapply same_data_trans; [apply same_data_set_prev|apply same_data_set_next].
Qed.

(** Position [j] of [es] holds the return of operation [d]. *)
Definition return_at es (j : nat) (d : Z) : Prop :=
  ∃ e, es !! j = Some e ∧ e_kind e = returnEntry ∧ e_id e = d.

Definition returns_once es : Prop :=
  ∀ j1 j2 d, return_at es j1 d → return_at es j2 d → j1 = j2.

(** The node of an entry at position [j] of [es], which is stored from
    address [i] on. *)
Definition entry_node es (i j : nat) (e : entry In Out) (nd : node In Out) : Prop :=
  n_value nd = Some (e_value e) ∧ n_id nd = e_id e ∧
  match e_kind e with
  | returnEntry => n_match nd = None
  | callEntry => ∀ p, n_match nd = Some p ↔ ∃ j', p = (i + j')%nat ∧ (j < j')%nat ∧ return_at es j' (e_id e)
  end.

Record linked (i : nat) es h (m : gmap Z nat) (root : option nat) : Prop := {
  lk_root : root = match es with [] => None | _ => Some i end;
  lk_dom : ∀ p, is_Some (h !! p) ↔ (i ≤ p < i + length es)%nat;
  lk_list : ∀ e es', es = e :: es' → dseg h i (seq (S i) (length es')) ∧ pv h i = None;
  lk_node : ∀ j e, es !! j = Some e → ∃ nd, h !! (i + j)%nat = Some nd ∧ entry_node es i j e nd;
  lk_match : ∀ d p, m !! d = Some p ↔ ∃ j, p = (i + j)%nat ∧ return_at es j d;
}.

Lemma return_at_cons e es j d : return_at (e :: es) (S j) d ↔ return_at es j d.
Proof. done. Qed.

(** A new node in front of a linked list. *)
Lemma linked_cons i e es h m root mt :
  linked (S i) es h m root →
  let nd := mkNode (Some (e_value e)) mt (e_id e) None None in
  let h' := insertBefore (<[i := nd]> h) i root in
  (∀ p, is_Some (h' !! p) ↔ (i ≤ p < i + length (e :: es))%nat) ∧
  (dseg h' i (seq (S i) (length es)) ∧ pv h' i = None) ∧
  same_data (<[i := nd]> h) h'.
Proof.
  intros Hl nd h'.
  assert (h !! i = None) as Hi.
  { apply eq_None_not_Some. rewrite (lk_dom _ _ _ _ _ Hl). lia. }
  assert ((dseg h' i (seq (S i) (length es)) ∧ pv h' i = None) ∧ same_data (<[i := nd]> h) h') as [H1 H2].
  { rewrite /h' (lk_root _ _ _ _ _ Hl). destruct es as [|e' es].
    - simpl. rewrite /nx /pv lookup_insert_eq. done.
    - destruct (lk_list _ _ _ _ _ Hl e' es eq_refl) as [Hs Hpv].
      assert (∀ y, (S i ≤ y)%nat → (<[i:=nd]> h) !! y = h !! y) as Hne.
      { intros y Hy. rewrite lookup_insert_ne //. lia. }
      destruct (insertBefore_spec (<[i := nd]> h) i (S i) (seq (S (S i)) (length es)) nd)
        as (? & ? & ?); [by rewrite lookup_insert_eq|done|done| | | | |done].
      + rewrite Hne //. apply (lk_dom _ _ _ _ _ Hl). simpl. lia.
      + by rewrite /pv Hne.
      + apply (dseg_frame h); [| |done].
        * intros y Hy. rewrite /nx Hne //. apply elem_of_cons in Hy as [->|Hy]; [lia|].
          apply elem_of_seq in Hy. lia.
        * intros y Hy. rewrite /pv Hne //. apply elem_of_seq in Hy. lia.
      + apply NoDup_cons. split; [rewrite elem_of_cons elem_of_seq; lia|].
        apply NoDup_cons. split; [rewrite elem_of_seq; lia|apply NoDup_seq]. }
  split_and!; [|apply H1..|done]. intros p.
  assert (is_Some (h' !! p) ↔ is_Some ((<[i:=nd]> h) !! p)) as ->.
  { specialize (H2 p). destruct (h' !! p), ((<[i:=nd]> h) !! p); try done; split; intros; eauto; by destruct H. }
  destruct (decide (p = i)) as [->|Hne]; [rewrite lookup_insert_eq; simpl; split; [lia|eauto]|].
  rewrite lookup_insert_ne // (lk_dom _ _ _ _ _ Hl) /=. lia.
Qed.

Lemma makeLinkedEntries_go_linked i es :
  returns_once es →
  let '(h, m, root) := makeLinkedEntries_go i es in linked i es h m root.
Proof.
  revert i. induction es as [|e es IH]; intros i Hu; simpl.
  - split; [done| |done|done|].
    + intros p. rewrite lookup_empty /=. split; [by intros []|lia].
    + intros d p. rewrite lookup_empty. split; [done|]. by intros (j & _ & e & ? & _).
  - assert (returns_once es) as Hu'.
    { intros j1 j2 d H1 H2. specialize (Hu (S j1) (S j2) d H1 H2). lia. }
    specialize (IH (S i) Hu'). destruct (makeLinkedEntries_go (S i) es) as [[h m] root].
    set (mt := match e_kind e with callEntry => m !! e_id e | returnEntry => None end).
    destruct (linked_cons i e es h m root mt IH) as (Hdom & Hlist & Hdata).
    set (h' := insertBefore _ i root) in *.
    assert (∀ j e0, (e :: es) !! j = Some e0 →
      ∃ nd, h' !! (i + j)%nat = Some nd ∧ entry_node (e :: es) i j e0 nd) as Hnode.
    { intros [|j] e0 He0; simpl in He0.
      - injection He0 as <-. rewrite Nat.add_0_r.
        destruct (same_data_lookup _ _ i _ Hdata (lookup_insert_eq _ _ _)) as (nd & Hnd & Hv & Hmt & Hid).
        exists nd. split; [done|]. split_and!; [done..|]. simpl in Hmt. rewrite Hmt /mt.
        destruct (e_kind e); [|done]. intros p. rewrite (lk_match _ _ _ _ _ IH).
        split; [intros (j & -> & Hr); exists (S j); split_and!; [lia|lia|done]|].
        intros (j' & -> & Hlt & Hr). destruct j' as [|j']; [lia|]. exists j'. split; [lia|done].
      - destruct (lk_node _ _ _ _ _ IH j e0 He0) as (nd0 & Hnd0 & Hv & Hid & Hmt).
        assert ((<[i := mkNode (Some (e_value e)) mt (e_id e) None None]> h) !! (i + S j)%nat = Some nd0) as Hl.
        { rewrite lookup_insert_ne; [|lia]. by replace (i + S j)%nat with (S i + j)%nat by lia. }
        destruct (same_data_lookup _ _ _ _ Hdata Hl) as (nd & Hnd & Hv' & Hmt' & Hid').
        exists nd. split; [done|]. split_and!; [congruence..|]. rewrite Hmt'.
        destruct (e_kind e0); [|done]. intros p. rewrite Hmt. split.
        + intros (j' & -> & ? & ?). exists (S j'). split_and!; [lia|lia|done].
        + intros (j' & -> & ? & ?). destruct j' as [|j']; [lia|]. exists j'. split_and!; [lia|lia|done]. }
    destruct (e_kind e) eqn:Ek.
    + split; [done|done|by intros ? ? [= <- <-]|done|]. intros d p. rewrite (lk_match _ _ _ _ _ IH). split.
      * intros (j & -> & Hr). exists (S j). split; [lia|done].
      * intros ([|j] & -> & Hr); [destruct Hr as (e0 & [= <-] & ? & _); congruence|].
        exists j. split; [lia|done].
    + split; [done|done|by intros ? ? [= <- <-]|done|]. intros d p.
      destruct (decide (d = e_id e)) as [->|Hne].
      * rewrite lookup_insert_eq. split.
        -- intros [= <-]. exists 0%nat. split; [lia|]. by exists e.
        -- intros (j & -> & Hr). rewrite (Hu j 0%nat (e_id e) Hr); [|by exists e]. by rewrite Nat.add_0_r.
      * rewrite lookup_insert_ne // (lk_match _ _ _ _ _ IH). split.
        -- intros (j & -> & Hr). exists (S j). split; [lia|done].
        -- intros ([|j] & -> & Hr); [by destruct Hr as (e0 & [= <-] & _ & ?)|].
           exists j. split; [lia|done].
Qed.

Lemma list_length_dseg h p l :
  dseg h p l → list_length (S (length l)) h (Some p) = Z.of_nat (S (length l)).
Proof.
  revert p. induction l as [|x l IH]; intros p; [done|].
  intros (Hn & _ & Hs). specialize (IH x Hs).
  change (1 + list_length (S (length l)) h (nx h p) = Z.of_nat (S (S (length l)))).
  rewrite Hn IH. lia.
Qed.

End link.
