(* ===== verification/PorcSpec.v ===== *)
(** * Linearizability, and the search space of the checker

    The specification of the checker: a history of [n] operations, each with a
    call and a return position, is linearizable when its operations can be put
    in an order that the model allows and that never puts an operation before
    one that had returned before it was called. The search linearizes one
    candidate at a time: a remaining operation that no remaining return
    precedes. The two views agree ([path_linearization]). *)
From S2P Require Import Prelude GoBase Bitset Porcupine.

Lemma sorted_before (l1 l2 : list nat) x y :
  StronglySorted lt (l1 ++ x :: l2) → y ∈ l1 ++ x :: l2 → (y < x)%nat → y ∈ l1.
Proof.
  intros Hs [Hy|[->|Hy]%elem_of_cons]%elem_of_app Hlt; [done|lia|].
  exfalso. apply StronglySorted_app_1_r in Hs. apply StronglySorted_inv in Hs as [_ Hs].
  rewrite Forall_forall in Hs. specialize (Hs y Hy). lia.
Qed.

Lemma sorted_later (l1 l2 : list nat) x y :
  StronglySorted lt (l1 ++ x :: l2) → y ∈ l1 → (y < x)%nat.
Proof.
  induction l1 as [|z l1 IH]; [by intros _ ?%elem_of_nil|]. simpl.
  intros [Hs Hz]%StronglySorted_inv [->|Hy]%elem_of_cons; [|by apply IH].
  rewrite Forall_forall in Hz. apply Hz. set_solver.
Qed.

Lemma filter_ext_in {A} (P Q : A → Prop) `{∀ x, Decision (P x), ∀ x, Decision (Q x)} (l : list A) :
  (∀ x, x ∈ l → P x ↔ Q x) → filter P l = filter Q l.
Proof.
  intros Hl. induction l as [|x l IH]; [done|]. rewrite !filter_cons.
  pose proof (Hl x ltac:(left)). rewrite IH; [|intros; apply Hl; by right].
  repeat case_decide; naive_solver.
Qed.

Section spec.
Context {In Out State : Type} (model : FModel In Out State) (entries : list (entry In Out)).
Context (n : Z) (callpos retpos : Z → nat) (inp : Z → In) (outp : Z → Out).

(** The entries are the calls and returns of the operations [0..n-1]. *)
Record history_ok : Prop := {
  hk_call : ∀ i, 0 ≤ i < n → ∃ t c, entries !! callpos i = Some (mkEntry callEntry (inl (inp i)) i t c);
  hk_ret : ∀ i, 0 ≤ i < n → ∃ t c, entries !! retpos i = Some (mkEntry returnEntry (inr (outp i)) i t c);
  hk_order : ∀ i, 0 ≤ i < n → (callpos i < retpos i)%nat;
  hk_all : ∀ p e, entries !! p = Some e → 0 ≤ e_id e < n ∧
    p = match e_kind e with callEntry => callpos (e_id e) | returnEntry => retpos (e_id e) end;
  hk_length : Z.of_nat (length entries) = 2 * n;
}.

Definition stepf (s : State) (i : Z) : bool * State := f_Step model s (inp i) (outp i).

(** The model can take the operations in this order. *)
Fixpoint legal (s : State) (l : list Z) : Prop :=
  match l with [] => True | i :: l' => (stepf s i).1 = true ∧ legal (stepf s i).2 l' end.

Definition linearization (lin : list Z) : Prop :=
  lin ≡ₚ seqZ 0 n ∧ StronglySorted (λ a b, ¬ (retpos b < callpos a)%nat) lin ∧
  legal (f_Init model) lin.

(** ** The search space: [X] is the set of operations linearized so far *)

Definition cand (X : gset Z) (i : Z) : Prop :=
  0 ≤ i < n ∧ i ∉ X ∧ ∀ d, 0 ≤ d < n → d ∉ X → ¬ (retpos d < callpos i)%nat.

Inductive path : gset Z → State → list Z → gset Z → State → Prop :=
  | path_nil X s : path X s [] X s
  | path_cons X s i s1 l Y t :
      cand X i → stepf s i = (true, s1) → path ({[i]} ∪ X) s1 l Y t → path X s (i :: l) Y t.

Definition full (X : gset Z) : Prop := ∀ i, 0 ≤ i < n → i ∈ X.

Lemma path_snoc X s l Y t i u :
  path X s l Y t → cand Y i → stepf t i = (true, u) → path X s (l ++ [i]) ({[i]} ∪ Y) u.
Proof.
  induction 1 as [X s|X s j s1 l Y t Hc Hs Hp IH]; intros Hi Hst; simpl.
  - by apply (path_cons _ _ _ u); [..|constructor].
  - by apply (path_cons _ _ _ s1); [..|apply IH].
Qed.

Lemma path_elem X s l Y t :
  path X s l Y t → NoDup l ∧ (∀ i, i ∈ Y ↔ i ∈ l ∨ i ∈ X) ∧ (∀ i, i ∈ l → 0 ≤ i < n ∧ i ∉ X).
Proof.
  induction 1 as [X s|X s i s1 l Y t (Hi & HiX & Hc) Hs Hp (IH1 & IH2 & IH3)].
  - split_and!; [constructor|set_solver|set_solver].
  - split_and!.
    + constructor; [|done]. intros [_ Hin]%IH3. set_solver.
    + intros j. rewrite IH2. set_solver.
    + intros j [->|Hj]%elem_of_cons; [done|]. destruct (IH3 j Hj). set_solver.
Qed.

Lemma path_legal X s l Y t :
  path X s l Y t → legal s l ∧ StronglySorted (λ a b, ¬ (retpos b < callpos a)%nat) l.
Proof.
  induction 1 as [X s|X s i s1 l Y t (Hi & HiX & Hc) Hs Hp (IH1 & IH2)]; [by repeat constructor|].
  split; [by rewrite /= Hs|]. constructor; [done|]. apply Forall_forall. intros b Hb.
  destruct (path_elem _ _ _ _ _ Hp) as (_ & _ & Hr). destruct (Hr b Hb) as [Hbn HbX].
  apply Hc; [done|]. set_solver.
Qed.

Hypothesis Hok : history_ok.

Lemma legal_path X s l :
  NoDup l → (∀ i, i ∈ l ↔ 0 ≤ i < n ∧ i ∉ X) →
  StronglySorted (λ a b, ¬ (retpos b < callpos a)%nat) l → legal s l →
  ∃ Y t, path X s l Y t ∧ full Y.
Proof.
  revert X s. induction l as [|i l IH]; intros X s Hnd Hl Hs Hleg.
  - exists X, s. split; [constructor|]. intros i Hi. destruct (decide (i ∈ X)); [done|].
    destruct (not_elem_of_nil i). by apply Hl.
  - apply NoDup_cons in Hnd as [Hil Hnd]. destruct Hleg as [Hst Hleg].
    apply StronglySorted_inv in Hs as [Hs Hi]. rewrite Forall_forall in Hi.
    destruct (IH ({[i]} ∪ X) (stepf s i).2) as (Y & t & Hp & Hf); [done| |done|done|].
    { intros j. specialize (Hl j). set_solver. }
    exists Y, t. split; [|done]. apply (path_cons _ _ _ (stepf s i).2); [| |done].
    + destruct (proj1 (Hl i) ltac:(left)) as [Hin HiX]. split_and!; [lia|lia|done|].
      intros d Hd HdX. assert (d ∈ i :: l) as [->|Hdl]%elem_of_cons by by apply Hl.
      * pose proof (hk_order Hok i Hin). lia.
      * by apply Hi.
    + by destruct (stepf s i); simpl in *; subst.
Qed.

(** Complete paths of the search are the linearizations. *)
Lemma path_linearization lin :
  (∃ Y t, path ∅ (f_Init model) lin Y t ∧ full Y) ↔ linearization lin.
Proof.
  split.
  - intros (Y & t & Hp & Hf). destruct (path_elem _ _ _ _ _ Hp) as (Hnd & HY & Hr).
    destruct (path_legal _ _ _ _ _ Hp) as [Hl Hs]. split_and!; [|done..].
    apply NoDup_Permutation; [done|apply NoDup_seqZ|]. intros i. rewrite elem_of_seqZ. split.
    + intros Hi%Hr. lia.
    + intros Hi. specialize (Hf i ltac:(lia)). apply HY in Hf as [?|?]; [done|set_solver].
  - intros (Hp & Hs & Hl). apply legal_path; [|intros i|done|done].
    + rewrite Hp. apply NoDup_seqZ.
    + rewrite Hp elem_of_seqZ. set_solver by lia.
Qed.

(** ** Positions *)

Definition id_at (p : nat) : Z := default 0 (e_id <$> entries !! p).

(** The positions of the operations that are not linearized. *)
Definition remaining (X : gset Z) : list nat := filter (λ p, id_at p ∉ X) (seq 0 (length entries)).

Lemma callpos_lt i : 0 ≤ i < n → (callpos i < length entries)%nat.
Proof. intros Hi. destruct (hk_call Hok i Hi) as (t & c & He). by eapply lookup_lt_Some. Qed.

Lemma retpos_lt i : 0 ≤ i < n → (retpos i < length entries)%nat.
Proof. intros Hi. destruct (hk_ret Hok i Hi) as (t & c & He). by eapply lookup_lt_Some. Qed.

Lemma id_at_call i : 0 ≤ i < n → id_at (callpos i) = i.
Proof. intros Hi. destruct (hk_call Hok i Hi) as (t & c & He). by rewrite /id_at He. Qed.

Lemma id_at_ret i : 0 ≤ i < n → id_at (retpos i) = i.
Proof. intros Hi. destruct (hk_ret Hok i Hi) as (t & c & He). by rewrite /id_at He. Qed.

Lemma call_not_ret i j : 0 ≤ i < n → 0 ≤ j < n → callpos i ≠ retpos j.
Proof.
  intros Hi Hj He. destruct (hk_call Hok i Hi) as (? & ? & H1). destruct (hk_ret Hok j Hj) as (? & ? & H2).
  rewrite He H2 in H1. done.
Qed.

Lemma position_cases p :
  (p < length entries)%nat → ∃ i, 0 ≤ i < n ∧ id_at p = i ∧ (p = callpos i ∨ p = retpos i).
Proof.
  intros [e He]%lookup_lt_is_Some_2. destruct (hk_all Hok p e He) as [Hi Hp]. exists (e_id e).
  rewrite /id_at He. split_and!; [lia|lia|done|]. destruct (e_kind e); auto.
Qed.

Lemma elem_of_remaining X p :
  p ∈ remaining X ↔ ∃ i, 0 ≤ i < n ∧ i ∉ X ∧ (p = callpos i ∨ p = retpos i).
Proof.
  rewrite /remaining list_elem_of_filter elem_of_seq. split.
  - intros [HX Hp]. destruct (position_cases p) as (i & Hi & Hid & Hcr); [lia|]. rewrite Hid in HX. eauto.
  - intros (i & Hi & HX & [-> | ->]).
    + rewrite id_at_call //. pose proof (callpos_lt i Hi). split; [done|lia].
    + rewrite id_at_ret //. pose proof (retpos_lt i Hi). split; [done|lia].
Qed.

Lemma remaining_full X : remaining X = [] ↔ full X.
Proof.
  split.
  - intros HX i Hi. destruct (decide (i ∈ X)); [done|].
    assert (callpos i ∈ remaining X) as Hin by (apply elem_of_remaining; eauto).
    rewrite HX in Hin. by apply elem_of_nil in Hin.
  - intros Hf. destruct (remaining X) as [|p l] eqn:E; [done|].
    assert (p ∈ remaining X) as (i & Hi & HiX & _)%elem_of_remaining by (rewrite E; left).
    by destruct HiX; apply Hf.
Qed.

Lemma remaining_sorted X : StronglySorted lt (remaining X).
Proof.
  rewrite /remaining. generalize 0%nat as a. induction (length entries) as [|k IH]; intros a; simpl; [constructor|].
  rewrite filter_cons. case_decide; [|done]. constructor; [done|].
  apply Forall_forall. intros p [_ Hp]%list_elem_of_filter. apply elem_of_seq in Hp. lia.
Qed.

(** A remaining call that no remaining return precedes is a candidate. *)
Lemma cand_before X pre i suf :
  remaining X = pre ++ callpos i :: suf → 0 ≤ i < n →
  (∀ p, p ∈ pre → ∃ j, 0 ≤ j < n ∧ p = callpos j) → cand X i.
Proof.
  intros HL Hi Hpre.
  assert (callpos i ∈ remaining X) as Hin by (rewrite HL; set_solver).
  split_and!; [lia|lia|..].
  - apply elem_of_remaining in Hin as (j & Hj & HjX & [He|He]); [|by destruct (call_not_ret i j)].
    by rewrite -(id_at_call i) // He id_at_call.
  - intros d Hd HdX Hlt.
    assert (retpos d ∈ pre) as Hdp.
    { apply (sorted_before pre suf (callpos i)); [rewrite -HL; apply remaining_sorted| |done].
      rewrite -HL. apply elem_of_remaining. eauto. }
    destruct (Hpre _ Hdp) as (j & Hj & He). by destruct (call_not_ret j d).
Qed.

(** Every candidate stands before the first return. *)
Lemma cand_pre X pre r suf i d :
  remaining X = pre ++ r :: suf → 0 ≤ d < n → r = retpos d → cand X i → callpos i ∈ pre.
Proof.
  intros HL Hd -> (Hi & HiX & Hc).
  assert (retpos d ∈ remaining X) as (j & Hj & HjX & Hdj)%elem_of_remaining by (rewrite HL; set_solver).
  assert (j = d) as ->.
  { destruct Hdj as [He|He]; [by destruct (call_not_ret j d)|]. by rewrite -(id_at_ret j) // -He id_at_ret. }
  apply (sorted_before pre suf (retpos d)); [rewrite -HL; apply remaining_sorted|..].
  - rewrite -HL. apply elem_of_remaining. eauto.
  - specialize (Hc d Hd HjX). pose proof (call_not_ret i d Hi Hd). lia.
Qed.

(** Linearizing an operation takes its call and its return out. *)
Lemma remaining_split X i :
  0 ≤ i < n → i ∉ X →
  ∃ l1 l2 l3, remaining X = l1 ++ callpos i :: l2 ++ retpos i :: l3 ∧
    remaining ({[i]} ∪ X) = l1 ++ l2 ++ l3.
Proof.
  intros Hi HX. pose proof (hk_order Hok i Hi) as Hcr. pose proof (retpos_lt i Hi) as Hr.
  set (c := callpos i) in *. set (r := retpos i) in *.
  assert (seq 0 (length entries) =
    seq 0 c ++ c :: seq (S c) (r - S c) ++ r :: seq (S r) (length entries - S r)) as Hseq.
  { replace (length entries) with (c + (1 + ((r - S c) + (1 + (length entries - S r)))))%nat at 1 by lia.
    rewrite !seq_app. simpl. do 3 f_equal; [f_equal; lia|]. do 2 f_equal; lia. }
  assert (∀ p, (p < length entries)%nat → p ≠ c → p ≠ r → id_at p ≠ i) as Hother.
  { intros p Hp Hpc Hpr Hid. destruct (position_cases p Hp) as (j & _ & Hj & [He|He]);
      (assert (j = i) as -> by congruence); [by apply Hpc|by apply Hpr]. }
  exists (filter (λ p, id_at p ∉ X) (seq 0 c)), (filter (λ p, id_at p ∉ X) (seq (S c) (r - S c))),
    (filter (λ p, id_at p ∉ X) (seq (S r) (length entries - S r))).
  rewrite /remaining Hseq. split.
  - rewrite filter_app filter_cons_True; [|by rewrite id_at_call].
    rewrite filter_app filter_cons_True //. by rewrite id_at_ret.
  - rewrite filter_app filter_cons_False; [|rewrite id_at_call //; set_solver].
    rewrite filter_app filter_cons_False; [|rewrite id_at_ret //; set_solver].
    f_equal; [|f_equal]; apply filter_ext_in; intros p Hp%elem_of_seq;
      (assert (id_at p ≠ i) by (apply Hother; lia)); set_solver.
Qed.

End spec.
