(* ===== verification/PorcSearch.v ===== *)
(** * The search of [checkSingle] is correct

    The loop of [checkSingle] explores the search space of [PorcSpec]
    depth first: its linked list holds exactly the remaining entries, its bit
    set the linearized operations, its stack the path to the current
    configuration, and its cache the configurations it has entered. The lemma
    [explore] follows the loop through the exploration of one configuration;
    it terminates, and afterwards every successor of a configuration it entered
    is in the cache. *)
From S2P Require Import Prelude GoBase Bitset Porcupine PorcHeap PorcLink PorcSpec.

(** What the checker needs from the equality on states it is given. *)
Class EqualOk {In Out State} (model : FModel In Out State) : Prop := {
  Equal_refl : ∀ s, f_Equal model s s = true;
  Equal_trans : ∀ s t u, f_Equal model s t = true → f_Equal model t u = true → f_Equal model s u = true;
  Equal_step : ∀ s t i o s', f_Equal model s t = true → f_Step model s i o = (true, s') →
    ∃ t', f_Step model t i o = (true, t') ∧ f_Equal model s' t' = true;
}.

Section search.
Context {In Out State : Type} (model : FModel In Out State) (entries : list (entry In Out)).
Context (n : Z) (callpos retpos : Z → nat) (inp : Z → In) (outp : Z → Out).
Hypothesis Hok : history_ok entries n callpos retpos inp outp.
Context (cp : bool).

Notation heap := (gmap nat (node In Out)).
Notation remaining := (remaining entries).
Notation cand := (cand n callpos retpos).
Notation stepf := (stepf model inp outp).
Notation path := (path model n callpos retpos inp outp).
Notation full := (full n).
Notation hd := (length entries).

(** ** The state of the loop at a configuration *)

Definition nodes_ok (h : heap) : Prop := ∀ p e, entries !! p = Some e → ∃ nd, h !! p = Some nd ∧
  n_value nd = Some (e_value e) ∧ n_id nd = e_id e ∧
  n_match nd = match e_kind e with callEntry => Some (retpos (e_id e)) | returnEntry => None end.

Record conf_ok (h : heap) (b : list Z) (X : gset Z) : Prop := {
  co_list : dseg h hd (remaining X);
  co_nodes : nodes_ok h;
  co_head : is_Some (h !! hd);
  co_bits : bs_repr n b X;
}.

Lemma nodes_ok_same h h' : same_data h h' → nodes_ok h → nodes_ok h'.
Proof.
  intros Hd Hn p e He. destruct (Hn p e He) as (nd & Hnd & Hv & Hi & Hm).
  destruct (same_data_lookup _ _ _ _ Hd Hnd) as (nd' & -> & ? & ? & ?). eexists. split; [done|].
  split_and!; congruence.
Qed.

Lemma node_call h i :
  nodes_ok h → 0 ≤ i < n → ∃ nd, h !! callpos i = Some nd ∧ n_value nd = Some (inl (inp i)) ∧
    n_id nd = i ∧ n_match nd = Some (retpos i).
Proof. intros Hn Hi. destruct (hk_call _ _ _ _ _ _ Hok i Hi) as (t & c & He). apply (Hn _ _ He). Qed.

Lemma node_ret h i :
  nodes_ok h → 0 ≤ i < n → ∃ nd, h !! retpos i = Some nd ∧ n_value nd = Some (inr (outp i)) ∧
    n_id nd = i ∧ n_match nd = None.
Proof. intros Hn Hi. destruct (hk_ret _ _ _ _ _ _ Hok i Hi) as (t & c & He). apply (Hn _ _ He). Qed.

Lemma conf_head_next h b X : conf_ok h b X → nx h hd = head (remaining X).
Proof. intros Hc. pose proof (co_list _ _ _ Hc) as Hs. destruct (remaining X); [done|]. by destruct Hs. Qed.

Lemma conf_next h b X pre p suf :
  conf_ok h b X → remaining X = pre ++ p :: suf → nx h p = head suf.
Proof.
  intros Hc HL. pose proof (co_list _ _ _ Hc) as Hs. rewrite HL in Hs.
  by destruct (dseg_mid _ _ _ _ _ Hs) as (q & _ & _ & _ & ?).
Qed.

Lemma remaining_lt X p : p ∈ remaining X → (p < hd)%nat.
Proof. rewrite /PorcSpec.remaining list_elem_of_filter elem_of_seq. lia. Qed.

(** Lifting a candidate moves to its successor, and can be undone. *)
Lemma conf_lift h b X i :
  conf_ok h b X → 0 ≤ i < n → i ∉ X →
  ∃ h' b', lift h (callpos i) = Some h' ∧ bitset_set b i = Some b' ∧ conf_ok h' b' ({[i]} ∪ X) ∧
    unlift h' (callpos i) = Some h ∧ bitset_clear b' i = Some b.
Proof.
  intros [Hs Hn Hh Hb] Hi HX.
  destruct (remaining_split entries n callpos retpos inp outp Hok X i Hi HX) as (l1 & l2 & l3 & HL & HL').
  destruct (node_call h i Hn Hi) as (nc & Hnc & _ & _ & Hm).
  destruct (bitset_set_spec n b X i Hb Hi) as (b' & Hset & Hb').
  destruct (bitset_clear_spec n b' _ i Hb' Hi) as (b2 & Hclear & Hb2).
  assert (b2 = b) as ->.
  { eapply bs_repr_unique; [done|]. by replace (({[i]} ∪ X) ∖ {[i]}) with X by set_solver. }
  rewrite HL in Hs.
  destruct (lift_spec h hd l1 (callpos i) l2 (retpos i) l3 nc) as (h' & Hlift & Hs' & Hd & Hun); [| |done..|].
  - rewrite -HL. constructor; [intros ?%remaining_lt; lia|]. apply NoDup_filter, NoDup_seq.
  - rewrite -HL. constructor; [done|]. apply Forall_forall. intros p Hp%remaining_lt.
    apply lookup_lt_is_Some_2 in Hp as [e He]. destruct (Hn p e He) as (nd & -> & _). eauto.
  - exists h', b'. split_and!; [done..| |done|done]. split; [by rewrite HL'| | |done].
    + by eapply nodes_ok_same.
    + destruct Hh as [nh Hh]. destruct (same_data_lookup _ _ _ _ Hd Hh) as (? & ? & _). eauto.
Qed.

(** ** The cache *)

Notation Cache := (gmap Z (list (@cacheEntry State))).

Definition stored (cache : Cache) (X : gset Z) (t : State) : Prop :=
  ∃ b, bs_repr n b X ∧ mkCacheEntry b t ∈ default [] (cache !! bitset_hash b).

Definition visited (cache : Cache) (X : gset Z) (s : State) : Prop :=
  ∃ t, stored cache X t ∧ f_Equal model s t = true.

Lemma cacheContains_visited cache b X s :
  bs_repr n b X → cacheContains model cache (mkCacheEntry b s) = true ↔ visited cache X s.
Proof.
  intros Hb. rewrite /cacheContains existsb_exists. split.
  - intros ([b' t] & Hin & [Heq He]%andb_true_iff). simpl in *. apply bitset_equals_true in Heq as <-.
    exists t. split; [|done]. exists b. split; [done|]. by apply list_elem_of_In.
  - intros (t & (b' & Hb' & Hin) & He). rewrite -(bs_repr_unique n b b' X Hb Hb') in Hin.
    exists (mkCacheEntry b t). simpl. rewrite He andb_true_r bitset_equals_true.
    split; [by apply list_elem_of_In|done].
Qed.

Lemma stored_insert cache b X t Y u :
  bs_repr n b X →
  stored (cacheInsert cache (mkCacheEntry b t)) Y u ↔ stored cache Y u ∨ Y = X ∧ u = t.
Proof.
  intros Hb. rewrite /stored /cacheInsert /=. split.
  - intros (b' & Hb' & Hin). destruct (decide (bitset_hash b' = bitset_hash b)) as [He|He].
    + rewrite He lookup_insert_eq /= elem_of_app in Hin. destruct Hin as [Hin|Hin].
      * left. exists b'. by rewrite He.
      * apply list_elem_of_singleton in Hin as [= -> ->]. right. split; [by eapply bs_repr_inj|done].
    + rewrite lookup_insert_ne // in Hin. left. eauto.
  - intros [(b' & Hb' & Hin)|[-> ->]].
    + exists b'. split; [done|]. destruct (decide (bitset_hash b' = bitset_hash b)) as [He|He].
      * rewrite He lookup_insert_eq /= elem_of_app. left. by rewrite -He.
      * by rewrite lookup_insert_ne.
    + exists b. split; [done|]. rewrite lookup_insert_eq /= elem_of_app. right. by apply list_elem_of_singleton.
Qed.

(** All successors of a configuration have been entered. *)
Definition finished (cache : Cache) (X : gset Z) (s : State) : Prop :=
  ∀ i s', cand X i → stepf s i = (true, s') → visited cache ({[i]} ∪ X) s'.

Definition cache_le (c1 c2 : Cache) : Prop := ∀ X t, stored c1 X t → stored c2 X t.

Lemma visited_le c1 c2 X s : cache_le c1 c2 → visited c1 X s → visited c2 X s.
Proof. intros Hle (t & ? & ?). exists t. split; [by apply Hle|done]. Qed.

Lemma finished_le c1 c2 X s : cache_le c1 c2 → finished c1 X s → finished c2 X s.
Proof. intros Hle Hf i s' Hc Hs. eapply visited_le; [done|]. by apply Hf. Qed.

(** What was entered between two points of the search is finished. *)
Definition progress (c1 c2 : Cache) : Prop :=
  cache_le c1 c2 ∧ ∀ X t, stored c2 X t → stored c1 X t ∨ finished c2 X t ∧ remaining X ≠ [].

Lemma progress_refl c : progress c c.
Proof. split; [by intros ???|by left]. Qed.

Lemma progress_trans c1 c2 c3 : progress c1 c2 → progress c2 c3 → progress c1 c3.
Proof.
  intros [Hle1 Hp1] [Hle2 Hp2]. split; [by intros X t ?%Hle1%Hle2|].
  intros X t [Hs|Hf]%Hp2; [|by right]. apply Hp1 in Hs as [?|[Hf ?]]; [by left|].
  right. split; [|done]. by eapply finished_le.
Qed.

(** ** The stack and the recorded partial linearizations *)

Definition stack_ok (calls : list (@callsEntry State)) (l : list Z) : Prop :=
  ce_entry <$> calls = callpos <$> l.

Lemma calls_ids_ok h calls l :
  nodes_ok h → stack_ok calls l → Forall (λ i, 0 ≤ i < n) l → calls_ids h calls = Some l.
Proof.
  intros Hn. rewrite /calls_ids /stack_ok. revert calls.
  induction l as [|i l IH]; intros [|[p s] calls]; simpl; [done..|]. intros [= -> Hc] [Hi Hl]%Forall_cons.
  destruct (node_call h i Hn Hi) as (nd & -> & _ & <- & _). simpl. by rewrite IH.
Qed.

Lemma path_range l X s : path ∅ (f_Init model) l X s → Forall (λ i, 0 ≤ i < n) l.
Proof.
  intros Hp. apply Forall_forall. intros i Hi.
  destruct (path_elem _ _ _ _ _ _ _ _ _ _ _ Hp) as (_ & _ & Hr). by apply Hr.
Qed.

(** A legal order of some of the operations that respects real time. *)
Definition partial (l : list Z) : Prop := ∃ X s, path ∅ (f_Init model) l X s.

Definition longest_ok (longest : list (option (nat * list Z))) : Prop :=
  length longest = Z.to_nat n ∧ ∀ k m l, longest !! k = Some (Some (m, l)) → partial l.

Lemma update_longest_ok seq ids longest :
  Forall (λ i, 0 ≤ i < n) ids → partial seq.2 → longest_ok longest →
  ∃ longest', update_longest seq ids longest = Some longest' ∧ longest_ok longest'.
Proof.
  intros Hids Hseq. revert longest. induction Hids as [|i ids Hi Hids IH]; intros longest Hl; [eauto|].
  simpl. destruct Hl as [Hlen Hpart].
  destruct (lookup_lt_is_Some_2 longest (Z.to_nat i)) as [cur ->]; [lia|]. simpl. apply IH.
  case_match; [|done]. split; [by rewrite length_insert|].
  intros k m l [(_ & Hk & _)|[_ Hk]]%list_lookup_insert_Some; [by simplify_eq|by eapply Hpart].
Qed.

(** ** Single iterations *)

Notation iter := (check_iter model cp false hd).

Section iter.
Context (h : heap) (b : list Z) (X : gset Z) (cache : Cache) (calls : list (@callsEntry State)) (s : State)
  (longest : list (option (nat * list Z))) (ns : nat).
Hypothesis Hconf : conf_ok h b X.

Lemma iter_end l :
  remaining X = [] → stack_ok calls l → path ∅ (f_Init model) l X s →
  iter (mkCState None h b cache calls s longest ns) = Returned true (const (Some (ns, l)) <$> longest).
Proof.
  intros HL Hst Hp. pose proof (conf_head_next _ _ _ Hconf) as Hn. rewrite HL in Hn.
  destruct (co_head _ _ _ Hconf) as [nh Hh]. rewrite /nx Hh /= in Hn. rewrite /check_iter /= Hh Hn.
  rewrite (calls_ids_ok h calls l); [done|apply Hconf|done|by eapply path_range].
Qed.

Lemma iter_head_some p l : remaining X = p :: l → ∃ nh, h !! hd = Some nh ∧ n_next nh = Some p.
Proof.
  intros HL. pose proof (conf_head_next _ _ _ Hconf) as Hn. rewrite HL in Hn.
  destruct (co_head _ _ _ Hconf) as [nh Hh]. rewrite /nx Hh /= in Hn. eauto.
Qed.

Lemma nonempty_mid {A} (pre : list A) p suf : ∃ q l, pre ++ p :: suf = q :: l.
Proof. destruct pre; simpl; eauto. Qed.

Lemma iter_fail pre d suf :
  remaining X = pre ++ retpos d :: suf → 0 ≤ d < n → calls = [] →
  iter (mkCState (Some (retpos d)) h b cache calls s longest ns) = Returned false longest.
Proof.
  intros HL Hd ->. destruct (nonempty_mid pre (retpos d) suf) as (q & l & Hq). rewrite Hq in HL.
  destruct (iter_head_some _ _ HL) as (nh & Hh & Hn).
  destruct (node_ret h d (co_nodes _ _ _ Hconf) Hd) as (nd & Hnd & _ & _ & Hm).
  rewrite /check_iter /= Hh Hn Hnd Hm. done.
Qed.

Section call.
Context (pre : list nat) (i : Z) (suf : list nat).
Hypotheses (HL : remaining X = pre ++ callpos i :: suf) (Hi : 0 ≤ i < n) (HX : i ∉ X).

(** The iteration at a call entry, with its lookups done. *)
Lemma iter_call : ∃ nd b', h !! callpos i = Some nd ∧ n_next nd = head suf ∧ bitset_set b i = Some b' ∧
  iter (mkCState (Some (callpos i)) h b cache calls s longest ns) =
    let '(ok, s') := stepf s i in
    if ok && negb (cacheContains model cache (mkCacheEntry b' s')) then
      from_option_outcome (linearize hd (mkCState (Some (callpos i)) h b cache calls s longest ns)
                             (callpos i) nd b' s')
    else Continue (mkCState (head suf) h b cache calls s longest ns).
Proof.
  destruct (nonempty_mid pre (callpos i) suf) as (q & l & Hq).
  destruct (iter_head_some q l) as (nh & Hh & Hn); [by rewrite HL|].
  destruct (node_call h i (co_nodes _ _ _ Hconf) Hi) as (nd & Hnd & Hv & Hid & Hm).
  destruct (node_ret h i (co_nodes _ _ _ Hconf) Hi) as (nr & Hnr & Hvr & _ & _).
  destruct (bitset_set_spec n b X i (co_bits _ _ _ Hconf) Hi) as (b' & Hset & _).
  pose proof (conf_next _ _ _ _ _ _ Hconf HL) as Hnext. rewrite /nx Hnd /= in Hnext.
  exists nd, b'. split_and!; [done..|]. rewrite /check_iter /= Hh Hn Hnd Hm Hv Hnr /= Hvr.
  rewrite -/(stepf s i). destruct (stepf s i) as [[] s']; simpl; [|by rewrite /move_on Hnext].
  rewrite Hid /bitset_clone Hset. destruct (cacheContains _ _ _); simpl; [by rewrite /move_on Hnext|done].
Qed.

Lemma iter_skip :
  (∀ s', stepf s i = (true, s') → visited cache ({[i]} ∪ X) s') →
  iter (mkCState (Some (callpos i)) h b cache calls s longest ns) =
    Continue (mkCState (head suf) h b cache calls s longest ns).
Proof.
  intros Hskip. destruct iter_call as (nd & b' & _ & _ & Hset & ->).
  destruct (stepf s i) as [[] s'] eqn:Hst; simpl; [|done].
  destruct (bitset_set_spec n b X i (co_bits _ _ _ Hconf) Hi) as (b2 & Hset2 & Hb2). simplify_eq.
  rewrite (proj2 (cacheContains_visited cache b' _ s' Hb2)); [done|]. by apply Hskip.
Qed.

Lemma iter_linearize s' :
  stepf s i = (true, s') → ¬ visited cache ({[i]} ∪ X) s' →
  ∃ h' b', conf_ok h' b' ({[i]} ∪ X) ∧ unlift h' (callpos i) = Some h ∧ bitset_clear b' i = Some b ∧
    iter (mkCState (Some (callpos i)) h b cache calls s longest ns) =
      Continue (mkCState (head (remaining ({[i]} ∪ X))) h' b' (cacheInsert cache (mkCacheEntry b' s'))
                  (calls ++ [mkCallsEntry (callpos i) s]) s' longest ns).
Proof.
  intros Hst Hnv. destruct iter_call as (nd & b' & Hnd & _ & Hset & ->). rewrite Hst.
  destruct (conf_lift h b X i Hconf Hi HX) as (h' & b2 & Hlift & Hset2 & Hconf' & Hun & Hcl). simplify_eq.
  exists h', b'. split_and!; [done..|].
  destruct (cacheContains model cache _) eqn:Hc.
  { destruct Hnv. by eapply (cacheContains_visited cache b'); [apply Hconf'|]. }
  simpl. destruct (node_call h i (co_nodes _ _ _ Hconf) Hi) as (nd' & Hnd' & _ & Hid & _).
  assert (nd' = nd) as -> by congruence.
  rewrite /linearize /= Hlift /=. destruct (co_head _ _ _ Hconf') as [nh Hh]. rewrite Hh /= Hid Hset /=.
  pose proof (conf_head_next _ _ _ Hconf') as Hn. rewrite /nx Hh /= in Hn. by rewrite Hn.
Qed.
End call.
End iter.

Lemma iter_backtrack h b X h' b' X' cache calls s s' longest ns pre i suf pre' d suf' l :
  conf_ok h b X → remaining X = pre ++ callpos i :: suf → 0 ≤ i < n →
  conf_ok h' b' X' → remaining X' = pre' ++ retpos d :: suf' → 0 ≤ d < n →
  unlift h' (callpos i) = Some h → bitset_clear b' i = Some b →
  stack_ok calls l → path ∅ (f_Init model) (l ++ [i]) X' s' → longest_ok longest →
  ∃ longest', longest_ok longest' ∧
    iter (mkCState (Some (retpos d)) h' b' cache (calls ++ [mkCallsEntry (callpos i) s]) s' longest ns) =
      Continue (mkCState (head suf) h b cache calls s longest' (S ns)).
Proof.
  intros Hconf HL Hi Hconf' HL' Hd Hun Hcl Hst Hp Hlng.
  destruct (nonempty_mid pre' (retpos d) suf') as (q & l' & Hq). rewrite Hq in HL'.
  destruct (iter_head_some _ _ _ Hconf' _ _ HL') as (nh & Hh & Hn).
  destruct (node_ret h' d (co_nodes _ _ _ Hconf') Hd) as (nd & Hnd & _ & _ & Hm).
  destruct (node_call h' i (co_nodes _ _ _ Hconf') Hi) as (nc & Hnc & _ & Hid & _).
  destruct (node_call h i (co_nodes _ _ _ Hconf) Hi) as (nc0 & Hnc0 & _ & _ & _).
  pose proof (conf_next _ _ _ _ _ _ Hconf HL) as Hnext. rewrite /nx Hnc0 /= in Hnext.
  assert (stack_ok (calls ++ [mkCallsEntry (callpos i) s]) (l ++ [i])) as Hst'.
  { by rewrite /stack_ok !fmap_app Hst. }
  pose proof (calls_ids_ok h' _ _ (co_nodes _ _ _ Hconf') Hst' (path_range _ _ _ Hp)) as Hids.
  destruct (update_longest_ok (ns, l ++ [i]) (l ++ [i]) longest) as (lng1 & Hupd & Hlng1);
    [by eapply path_range|by eexists _, _|done|].
  exists (if cp then lng1 else longest). split; [by destruct cp|].
  rewrite /check_iter /= Hh Hn Hnd Hm reverse_app /= reverse_involutive.
  rewrite /backtrack /= Hids /= Hnc. destruct cp; cbn [mbind option_bind]; rewrite ?Hupd /= Hid Hcl /= Hun /= Hnc0 /= Hnext //.
Qed.

(** ** Several iterations *)

Fixpoint steps (m : nat) (st : CState In Out State) : Outcome In Out State :=
  match m with
  | O => Continue st
  | S m' => match iter st with Continue st' => steps m' st' | o => o end
  end.

Lemma steps_app m1 m2 st st' : steps m1 st = Continue st' → steps (m1 + m2) st = steps m2 st'.
Proof.
  revert st. induction m1 as [|m1 IH]; intros st; simpl; [by intros [= ->]|].
  destruct (iter st); [apply IH|done..].
Qed.

Lemma steps_cons m st st' : iter st = Continue st' → steps (S m) st = steps m st'.
Proof. intros Hi. simpl. by rewrite Hi. Qed.

Lemma check_loop_steps m st ok longest fuel :
  steps m st = Returned ok longest → (m ≤ fuel)%nat →
  check_loop model cp (λ _, false) hd fuel st = Some (Returned ok longest).
Proof.
  revert st fuel. induction m as [|m IH]; intros st fuel; [done|]. simpl.
  destruct fuel as [|fuel]; [lia|]. simpl. destruct (iter st); intros Hs Hf; [|by simplify_eq..].
  apply IH; [done|lia].
Qed.

(** ** Exploring one configuration *)

(** The search has found a complete order. *)
Definition success (longest : list (option (nat * list Z))) : Prop :=
  ∃ m l X s, path ∅ (f_Init model) l X s ∧ full X ∧ longest = replicate (Z.to_nat n) (Some (m, l)).

(** The search is back at configuration [X], [s], at its first return. *)
Record explored (X : gset Z) (s : State) (suf : list nat) (c1 c2 : Cache) (pre' : list nat) (d : Z)
    (suf' : list nat) : Prop := {
  ex_list : remaining X = pre' ++ retpos d :: suf';
  ex_ret : 0 ≤ d < n;
  ex_progress : progress c1 c2;
  ex_succ : ∀ i s', callpos i ∈ suf → cand X i → stepf s i = (true, s') → visited c2 ({[i]} ∪ X) s';
}.

Definition explores (X : gset Z) (s : State) (suf : list nat) (h : heap) (b : list Z) (cache : Cache)
    (calls : list (@callsEntry State)) (longest : list (option (nat * list Z))) (ns : nat) : Prop :=
  ∃ m, let st := mkCState (head suf) h b cache calls s longest ns in
  (∃ longest', steps m st = Returned true longest' ∧ success longest') ∨
  (∃ cache' pre' d suf' longest' ns',
     steps m st = Continue (mkCState (Some (retpos d)) h b cache' calls s longest' ns') ∧
     longest_ok longest' ∧ explored X s suf cache cache' pre' d suf').

(** One iteration that stays in the configuration. *)
Lemma explores_step X s i suf h b cache calls longest ns cache' longest' ns' m :
  let st := mkCState (Some (callpos i)) h b cache calls s longest ns in
  steps m st = Continue (mkCState (head suf) h b cache' calls s longest' ns') →
  progress cache cache' → (∀ s', stepf s i = (true, s') → visited cache' ({[i]} ∪ X) s') →
  0 ≤ i < n →
  explores X s suf h b cache' calls longest' ns' →
  explores X s (callpos i :: suf) h b cache calls longest ns.
Proof.
  intros st Hm Hpr Hv Hi (m2 & [(lng & Hs & Hsucc)|(c2 & pre' & d & suf' & lng & ns2 & Hs & Hl & [? ? Hpr2 Hex])]).
  - exists (m + m2)%nat. left. exists lng. split; [|done]. rewrite (steps_app _ _ _ _ Hm). done.
  - exists (m + m2)%nat. right. exists c2, pre', d, suf', lng, ns2. split_and!; [|done|].
    { rewrite (steps_app _ _ _ _ Hm). done. }
    split; [done|done|by eapply progress_trans|].
    intros j s' Hj Hc Hst. apply elem_of_cons in Hj as [Hj|Hj]; [|by apply Hex].
    assert (j = i) as ->.
    { destruct Hc as [Hjr _]. rewrite -(id_at_call entries n callpos retpos inp outp Hok j) // Hj.
      by rewrite (id_at_call entries n callpos retpos inp outp Hok). }
    eapply visited_le; [apply Hpr2|]. by apply Hv.
Qed.

Lemma first_return_suffix X pre i suf :
  remaining X = pre ++ callpos i :: suf → 0 ≤ i < n → i ∉ X → suf ≠ [].
Proof.
  intros HL Hi HX ->. assert (retpos i ∈ remaining X) as Hr.
  { apply (elem_of_remaining entries n callpos retpos inp outp Hok). eauto. }
  assert (retpos i ∈ pre) as Hp.
  { rewrite HL in Hr. apply elem_of_app in Hr as [?|Hr]; [done|].
    apply list_elem_of_singleton in Hr. by destruct (call_not_ret entries n callpos retpos inp outp Hok i i). }
  pose proof (remaining_sorted entries X) as Hs. rewrite HL in Hs.
  pose proof (sorted_later pre [] (callpos i) _ Hs Hp). pose proof (hk_order _ _ _ _ _ _ Hok i Hi). lia.
Qed.

(** Either the iteration at call [i] skips it, or it linearizes it. *)
Lemma call_cases cache b X i s h :
  conf_ok h b X → 0 ≤ i < n →
  (∀ s', stepf s i = (true, s') → visited cache ({[i]} ∪ X) s') ∨
  ∃ s', stepf s i = (true, s') ∧ ¬ visited cache ({[i]} ∪ X) s'.
Proof.
  intros Hconf Hi. destruct (stepf s i) as [[] s'] eqn:Hst; [|by left].
  destruct (bitset_set_spec n b X i (co_bits _ _ _ Hconf) Hi) as (b' & _ & Hb').
  destruct (cacheContains model cache (mkCacheEntry b' s')) eqn:Hc.
  - left. intros u [= <-]. by eapply cacheContains_visited.
  - right. exists s'. split; [done|]. intros Hv. by rewrite (proj2 (cacheContains_visited _ _ _ _ Hb') Hv) in Hc.
Qed.

Hypothesis HEq : EqualOk model.

(** At the first return nothing is left to try. *)
Lemma explores_return X s pre i suf h b cache calls longest ns :
  remaining X = pre ++ retpos i :: suf → 0 ≤ i < n → longest_ok longest →
  explores X s (retpos i :: suf) h b cache calls longest ns.
Proof.
  intros HL Hi Hlng. exists 0%nat. right. exists cache, pre, i, suf, longest, ns. split_and!; [done..|].
  split; [done|done|apply progress_refl|]. intros j s' Hj Hc _. exfalso.
  assert (callpos j ∈ pre) as Hjp by by eapply (cand_pre entries n callpos retpos inp outp Hok).
  assert (NoDup (remaining X)) as Hnd by apply NoDup_filter, NoDup_seq.
  rewrite HL in Hnd. apply NoDup_app in Hnd as (_ & Hnd & _). by apply (Hnd (callpos j)).
Qed.

(** When everything is linearized the order found is everybody's longest. *)
Lemma success_all longest ns l X s :
  longest_ok longest → path ∅ (f_Init model) l X s → remaining X = [] →
  success ((λ _, Some (ns, l)) <$> longest).
Proof.
  intros [Hlen _] Hp Hnil. exists ns, l, X, s.
  split_and!; [done|by apply (remaining_full entries n callpos retpos inp outp Hok)|].
  rewrite -Hlen. apply list_eq. intros j. rewrite list_lookup_fmap.
  destruct (longest !! j) eqn:Ej; simpl; symmetry.
  - apply lookup_replicate. split; [done|]. by eapply lookup_lt_Some.
  - apply lookup_replicate_None. by apply lookup_ge_None.
Qed.

(** Progress since a configuration was put into the cache and finished. *)
Lemma progress_insert c c1 c2 X s :
  (∀ Y u, stored c1 Y u ↔ stored c Y u ∨ Y = X ∧ u = s) → finished c2 X s → remaining X ≠ [] → progress c1 c2 → progress c c2.
Proof.
  intros Hins Hfin Hnil [Hle Hpr]. split.
  - intros Y u Hu. apply Hle, Hins. by left.
  - intros Y u [Hu|?]%Hpr; [|by right]. apply Hins in Hu as [?|[-> ->]]; [by left|by right].
Qed.

Lemma explore k X s pre suf h b cache calls longest ns l :
  length (remaining X) = k → remaining X = pre ++ suf → suf ≠ [] →
  (∀ p, p ∈ pre → ∃ j, 0 ≤ j < n ∧ p = callpos j) →
  conf_ok h b X → stack_ok calls l → path ∅ (f_Init model) l X s → longest_ok longest →
  explores X s suf h b cache calls longest ns.
Proof.
  revert X s pre suf h b cache calls longest ns l.
  induction (lt_wf k) as [k _ IHk]. intros X s pre suf. revert pre.
  induction suf as [|p suf IHsuf]; intros pre h b cache calls longest ns l Hk HL Hne Hpre Hconf Hst Hp Hlng; [done|].
  assert (p ∈ remaining X) as (i & Hi & HX & Hpi)%(elem_of_remaining entries n callpos retpos inp outp Hok)
    by (rewrite HL; set_solver).
  destruct Hpi as [-> | ->]; last first.
  { by eapply explores_return. }
  assert (cand X i) as Hc.
  { by eapply (cand_before entries n callpos retpos inp outp Hok). }
  assert (suf ≠ []) as Hsuf by by eapply first_return_suffix.
  assert (∀ p, p ∈ pre ++ [callpos i] → ∃ j, 0 ≤ j < n ∧ p = callpos j) as Hpre'.
  { intros q [?|Hq]%elem_of_app; [by apply Hpre|]. apply list_elem_of_singleton in Hq as ->. eauto. }
  assert (remaining X = (pre ++ [callpos i]) ++ suf) as HL2 by by rewrite -assoc_L.
  assert (∀ m cache' longest' ns', longest_ok longest' →
    steps m (mkCState (Some (callpos i)) h b cache calls s longest ns) =
      Continue (mkCState (head suf) h b cache' calls s longest' ns') →
    progress cache cache' → (∀ s', stepf s i = (true, s') → visited cache' ({[i]} ∪ X) s') →
    explores X s (callpos i :: suf) h b cache calls longest ns) as Hnext.
  { intros m cache' longest' ns' Hlng' Hm Hpr Hv. eapply explores_step; [done..|].
    by eapply (IHsuf (pre ++ [callpos i])). }
  destruct (call_cases cache b X i s h Hconf Hi) as [Hv|(s' & Hstep & Hnv)].
  { apply (Hnext 1%nat cache longest ns); [done| |apply progress_refl|done].
    rewrite (steps_cons _ _ _ (iter_skip h b X cache calls s longest ns Hconf pre i suf HL Hi Hv)) //. }
  destruct (iter_linearize h b X cache calls s longest ns Hconf pre i suf HL Hi HX s' Hstep Hnv)
    as (h' & b' & Hconf' & Hun & Hcl & Hit).
  set (X' := {[i]} ∪ X) in *. set (cache1 := cacheInsert _ _) in *.
  assert (path ∅ (f_Init model) (l ++ [i]) X' s') as Hp' by by eapply path_snoc.
  assert (stack_ok (calls ++ [mkCallsEntry (callpos i) s]) (l ++ [i])) as Hst'.
  { by rewrite /stack_ok !fmap_app Hst. }
  destruct (decide (remaining X' = [])) as [Hnil|Hnil].
  { exists 2%nat. left. eexists. rewrite (steps_cons _ _ _ Hit) Hnil. simpl.
    rewrite (iter_end _ _ _ _ _ _ _ _ Hconf' _ Hnil Hst' Hp'). split; [done|]. by eapply success_all. }
  assert (length (remaining X') < k)%nat as Hlt.
  { destruct (remaining_split entries n callpos retpos inp outp Hok X i Hi HX) as (l1 & l2 & l3 & E1 & E2).
    rewrite -Hk E1 E2 !length_app /= length_app /=. lia. }
  destruct (IHk _ Hlt X' s' [] (remaining X') h' b' cache1
    (calls ++ [mkCallsEntry (callpos i) s]) longest ns (l ++ [i]) eq_refl eq_refl Hnil)
    as (m & [(lng & Hs & Hsucc)|(cache2 & pre' & d & suf' & lng & ns2 & Hs & Hlng2 & [HL' Hd Hpr2 Hex])]);
    [by intros q ?%elem_of_nil|done|done|done|done|..].
  { exists (S m). left. exists lng. split; [|done]. by rewrite (steps_cons _ _ _ Hit). }
  assert (finished cache2 X' s') as Hfin.
  { intros j u Hcj Hsj. apply Hex; [|done|done].
    destruct Hcj as (Hj & HjX & _). apply (elem_of_remaining entries n callpos retpos inp outp Hok). eauto. }
  assert (∀ Y u, stored cache1 Y u ↔ stored cache Y u ∨ Y = X' ∧ u = s') as Hins.
  { intros Y u. apply stored_insert, Hconf'. }
  destruct (iter_backtrack h b X h' b' X' cache2 calls s s' lng ns2 pre i suf pre' d suf' l)
    as (lng3 & Hlng3 & Hback); [done..|].
  apply (Hnext (S (m + 1)) cache2 lng3 (S ns2)); [done| | |].
  - rewrite (steps_cons _ _ _ Hit) (steps_app _ _ _ _ Hs) (steps_cons _ _ _ Hback) //.
  - by eapply progress_insert.
  - intros u Hu. rewrite Hstep in Hu. simplify_eq. exists u.
    split; [apply Hpr2, Hins; by right|apply Equal_refl].
Qed.

(** ** The start of the search *)

Lemma remaining_empty : remaining ∅ = seq 0 hd.
Proof.
  rewrite /PorcSpec.remaining. induction (seq 0 hd) as [|p l IH]; [done|].
  rewrite filter_cons_True; [by rewrite IH|set_solver].
Qed.

Lemma entries_returns_once : returns_once entries.
Proof.
  intros j1 j2 d (e1 & H1 & K1 & I1) (e2 & H2 & K2 & I2).
  destruct (hk_all _ _ _ _ _ _ Hok _ _ H1) as [_ ->]. destruct (hk_all _ _ _ _ _ _ Hok _ _ H2) as [_ ->].
  by rewrite K1 K2 I1 I2.
Qed.

Lemma linked_nodes h h' m root :
  linked 0 entries h m root → same_data (<[hd := mkNode None None (-1) None None]> h) h' →
  nodes_ok h'.
Proof.
  intros Hl Hd p e He. destruct (lk_node _ _ _ _ _ Hl p e He) as (nd & Hnd & Hv & Hid & Hm).
  destruct (hk_all _ _ _ _ _ _ Hok p e He) as [Hi Hp].
  assert ((<[hd := mkNode None None (-1) None None]> h) !! p = Some nd) as Hnd'.
  { rewrite lookup_insert_ne //. apply lookup_lt_Some in He. lia. }
  destruct (same_data_lookup _ _ _ _ Hd Hnd') as (nd' & Hnd2 & Hv' & Hm' & Hid').
  exists nd'. split; [done|]. split_and!; [congruence..|]. rewrite Hm'.
  destruct (e_kind e) eqn:Ek; [|done]. apply Hm. exists (retpos (e_id e)). split; [lia|].
  pose proof (hk_order _ _ _ _ _ _ Hok _ Hi). split; [lia|].
  destruct (hk_ret _ _ _ _ _ _ Hok _ Hi) as (t & c & Hr). by eexists.
Qed.

Lemma check_start_ok : ∃ h b,
  check_start model entries =
    (hd, mkCState (head (remaining ∅)) h b ∅ [] (f_Init model) (replicate (Z.to_nat n) None) 0) ∧
  conf_ok h b ∅.
Proof.
  rewrite /check_start /makeLinkedEntries.
  pose proof (makeLinkedEntries_go_linked 0 entries entries_returns_once) as Hl.
  destruct (makeLinkedEntries_go 0 entries) as [[h m] root].
  assert (list_length hd h root / 2 = n) as ->.
  { assert (list_length hd h root = Z.of_nat hd) as ->.
    - rewrite (lk_root _ _ _ _ _ Hl). destruct entries as [|e es]; [done|].
      destruct (lk_list _ _ _ _ _ Hl e es eq_refl) as [Hs _].
      pose proof (list_length_dseg h 0 _ Hs) as Hlen. by rewrite length_seq in Hlen.
    - rewrite (hk_length _ _ _ _ _ _ Hok) Z.mul_comm Z.div_mul //. }
  set (nd := mkNode None None (-1) None None).
  assert (is_Some ((<[hd := nd]> h) !! hd)) as Hhd by (rewrite lookup_insert_eq; eauto).
  assert (dseg (insertBefore (<[hd:=nd]> h) hd root) hd (seq 0 hd) ∧
    same_data (<[hd:=nd]> h) (insertBefore (<[hd:=nd]> h) hd root)) as [Hs Hd].
  { rewrite (lk_root _ _ _ _ _ Hl). pose proof Hl as Hl2. remember entries as es eqn:Ees. destruct es as [|e es].
    - simpl. split; [|done]. rewrite /nx lookup_insert_eq //.
    - destruct (lk_list _ _ _ _ _ Hl e es eq_refl) as [Hs Hpv].
      assert (∀ y, (y < S (length es))%nat → (<[length (e :: es):=nd]> h) !! y = h !! y) as Hne.
      { intros y Hy. rewrite lookup_insert_ne //. simpl. lia. }
      destruct (insertBefore_spec (<[length (e :: es):=nd]> h) (length (e :: es)) 0 (seq 1 (length es)) nd)
        as (? & ? & ?); [by rewrite lookup_insert_eq|done|done| | | | |done].
      + rewrite Hne; [|lia]. apply (lk_dom _ _ _ _ _ Hl). simpl. lia.
      + rewrite /pv Hne; [done|lia].
      + apply (dseg_frame h); [| |done].
        * intros y Hy. rewrite /nx Hne //. apply elem_of_cons in Hy as [->|Hy]; [lia|].
          apply elem_of_seq in Hy. lia.
        * intros y Hy. rewrite /pv Hne //. apply elem_of_seq in Hy. lia.
      + constructor; [rewrite elem_of_cons elem_of_seq; simpl; lia|].
        constructor; [rewrite elem_of_seq; lia|apply NoDup_seq]. }
  exists (insertBefore (<[hd:=nd]> h) hd root), (newBitset n). split.
  - assert (root = head (remaining ∅)) as <-; [|done].
    rewrite remaining_empty (lk_root _ _ _ _ _ Hl). by destruct entries.
  - split; [rewrite remaining_empty; exact Hs| | |apply newBitset_repr].
    + by eapply linked_nodes.
    + destruct Hhd as [nh Hh]. destruct (same_data_lookup _ _ _ _ Hd Hh) as (? & ? & _). eauto.
Qed.

(** ** Nothing was missed *)

Lemma closed_no_path cache X s l Y u t :
  (∀ X t, stored cache X t → finished cache X t ∧ remaining X ≠ []) →
  path X s l Y u → f_Equal model s t = true → finished cache X t → remaining X ≠ [] → remaining Y ≠ [].
Proof.
  intros Hcl Hp. revert t. induction Hp as [X s|X s i s1 l Y u Hc Hst Hp IH]; intros t Ht Hf HX; [done|].
  destruct (Equal_step s t (inp i) (outp i) s1 Ht Hst) as (t1 & Hst1 & He1).
  destruct (Hf i t1 Hc Hst1) as (t2 & Hs2 & He2). destruct (Hcl _ _ Hs2) as [Hf2 Hn2].
  apply (IH t2); [by eapply Equal_trans|done|done].
Qed.

Lemma replicate_longest_ok : longest_ok (replicate (Z.to_nat n) None).
Proof.
  split; [by rewrite length_replicate|]. intros k m l Hk. apply lookup_replicate in Hk as [? _]. done.
Qed.

Lemma success_linearization longest :
  success longest → longest_ok longest ∧ (∃ lin, linearization model n callpos retpos inp outp lin) ∧
    ∀ k m l, longest !! k = Some (Some (m, l)) → linearization model n callpos retpos inp outp l.
Proof.
  intros (m & l & X & s & Hp & Hf & ->).
  assert (linearization model n callpos retpos inp outp l) as Hlin.
  { eapply path_linearization; [done|]. eauto. }
  split_and!; [|eauto|].
  - split; [by rewrite length_replicate|]. intros k m' l' [? _]%lookup_replicate. simplify_eq. by eexists _, _.
  - intros k m' l' [? _]%lookup_replicate. by simplify_eq.
Qed.

Lemma checkSingle_result : ∃ m ok longest,
  (∀ fuel, (m ≤ fuel)%nat → checkSingle model entries cp (λ _, false) fuel = Some (Returned ok longest)) ∧
  (ok = true ↔ ∃ lin, linearization model n callpos retpos inp outp lin) ∧ longest_ok longest ∧
  (ok = true → ∀ k m l, longest !! k = Some (Some (m, l)) → linearization model n callpos retpos inp outp l).
Proof.
  destruct check_start_ok as (h & b & Hstart & Hconf). rewrite /checkSingle Hstart.
  assert (path ∅ (f_Init model) [] ∅ (f_Init model)) as Hp by constructor.
  assert (stack_ok [] []) as Hst by done.
  destruct (decide (remaining ∅ = [])) as [Hnil|Hnil].
  - pose proof (iter_end h b ∅ ∅ [] (f_Init model) (replicate (Z.to_nat n) None) 0 Hconf [] Hnil Hst Hp) as Hit.
    assert (success (const (Some (0%nat, [])) <$> replicate (Z.to_nat n) (None : option (nat * list Z)))) as Hsuc.
    { exists 0%nat, [], ∅, (f_Init model). split_and!; [done|by apply (remaining_full entries n callpos retpos inp outp Hok)|].
      by rewrite fmap_replicate. }
    destruct (success_linearization _ Hsuc) as (H1 & H2 & H3).
    eexists 1%nat, true, _. split_and!; [|split; [by intros _|done]|exact H1|by intros _].
    intros fuel Hf. eapply check_loop_steps; [|exact Hf]. rewrite Hnil. simpl. by rewrite Hit.
  - destruct (explore _ ∅ (f_Init model) [] (remaining ∅) h b ∅ [] (replicate (Z.to_nat n) None) 0 [] eq_refl eq_refl Hnil)
      as (m & [(lng & Hs & Hsuc)|(cache & pre & d & suf & lng & ns & Hs & Hlng & [HL Hd Hpr Hex])]);
      [by intros q ?%elem_of_nil|done|done|done|apply replicate_longest_ok|..].
    + destruct (success_linearization _ Hsuc) as (H1 & H2 & H3).
      exists m, true, lng. split_and!; [|split; [by intros _|done]|exact H1|by intros _].
      intros fuel Hf. by eapply check_loop_steps.
    + exists (m + 1)%nat, false, lng. split_and!; [| |done|done].
      { intros fuel Hf. eapply check_loop_steps; [|exact Hf]. rewrite (steps_app _ _ _ _ Hs). simpl.
        by rewrite (iter_fail h b ∅ cache [] (f_Init model) lng ns Hconf pre d suf HL Hd eq_refl). }
      split; [done|]. intros [lin (Y & u & Hpath & Hfull)%(path_linearization _ entries)]; [|done].
      apply (remaining_full entries n callpos retpos inp outp Hok) in Hfull. exfalso. revert Hfull.
      assert (∀ X t, stored cache X t → finished cache X t ∧ remaining X ≠ []) as Hcl.
      { intros X t [(b' & _ & Hin)|?]%(proj2 Hpr); [|done]. rewrite lookup_empty in Hin. by apply elem_of_nil in Hin. }
      eapply (closed_no_path cache ∅ (f_Init model) _ _ _ (f_Init model)); [done|done|apply Equal_refl| |done].
      intros i s' Hc. apply Hex; [|done]. destruct Hc as (Hi & HiX & _).
      apply (elem_of_remaining entries n callpos retpos inp outp Hok). eauto.
Qed.

End search.

(** C7: [checkSingle], left alone, is a decision procedure with
    certificates. On every history of calls and matching later returns the
    search of the linked list terminates (from some number of iterations on the
    result no longer changes) without panic; it returns true exactly when the
    history has a linearization; every order it records for an operation is
    legal for the model and respects real time; and when it returns true each of
    them is a full linearization. *)
Theorem checkSingle_correct {In Out State} (model : FModel In Out State) entries n callpos retpos inp outp cp :
  history_ok entries n callpos retpos inp outp → EqualOk model →
  ∃ m ok longest,
    (∀ fuel, (m ≤ fuel)%nat → checkSingle model entries cp (λ _, false) fuel = Some (Returned ok longest)) ∧
    (ok = true ↔ ∃ lin, linearization model n callpos retpos inp outp lin) ∧
    (∀ k q l, longest !! k = Some (Some (q, l)) →
       legal model inp outp (f_Init model) l ∧ NoDup l ∧
       StronglySorted (λ a b, ¬ (retpos b < callpos a)%nat) l) ∧
    (ok = true → ∀ k q l, longest !! k = Some (Some (q, l)) → linearization model n callpos retpos inp outp l).
Proof.
  intros Hok HEq. destruct (checkSingle_result model entries n callpos retpos inp outp Hok cp HEq)
    as (m & ok & lng & H1 & H2 & [_ H3] & H4).
  exists m, ok, lng. split_and!; [done..| |done]. intros k q l Hl.
  destruct (H3 k q l Hl) as (X & s & Hp). destruct (path_legal _ _ _ _ _ _ _ _ _ _ _ Hp) as [? ?].
  destruct (path_elem _ _ _ _ _ _ _ _ _ _ _ Hp) as (? & _). done.
Qed.

(** A counter; one increment that returned 1. *)
Definition counter : FModel unit Z Z :=
  mkFModel _ _ _ (λ h, [h]) (λ h, [h]) 0 (λ s _ o, (bool_decide (o = s + 1), s + 1))
    (λ s t, bool_decide (s = t)) (λ _ _, "") (λ _, "").

Definition counter_entries : list (entry unit Z) :=
  [mkEntry callEntry (inl ()) 0 0 0; mkEntry returnEntry (inr 1) 0 1 0].

Lemma checkSingle_correct_witness :
  checkSingle counter counter_entries true (λ _, false) 10 =
    Some (Returned true [Some (0%nat, [0])]) ∧
  ∃ m ok longest,
    (∀ fuel, (m ≤ fuel)%nat → checkSingle counter counter_entries true (λ _, false) fuel = Some (Returned ok longest)) ∧
    (ok = true ↔ ∃ lin, linearization counter 1 (λ _, 0%nat) (λ _, 1%nat) (λ _, ()) (λ _, 1) lin) ∧
    (∀ k q l, longest !! k = Some (Some (q, l)) →
       legal counter (λ _, ()) (λ _, 1) (f_Init counter) l ∧ NoDup l ∧
       StronglySorted (λ a b, ¬ (1 < 0)%nat) l) ∧
    (ok = true → ∀ k q l, longest !! k = Some (Some (q, l)) →
       linearization counter 1 (λ _, 0%nat) (λ _, 1%nat) (λ _, ()) (λ _, 1) l).
Proof.
  split; [vm_compute; reflexivity|].
  apply (checkSingle_correct counter counter_entries 1 (λ _, 0%nat) (λ _, 1%nat) (λ _, ()) (λ _, 1) true).
  - split.
    + intros i Hi. assert (i = 0) as -> by lia. eexists _, _. reflexivity.
    + intros i Hi. assert (i = 0) as -> by lia. eexists _, _. reflexivity.
    + intros; lia.
    + intros [|[|p]] e He; [injection He as <-; split; [simpl; lia|reflexivity]..|discriminate].
    + reflexivity.
  - split; simpl.
    + intros s. by apply bool_decide_eq_true.
    + intros s t u ->%bool_decide_eq_true ->%bool_decide_eq_true. by apply bool_decide_eq_true.
    + intros s t i o s' ->%bool_decide_eq_true Hs. exists s'. split; [done|]. by apply bool_decide_eq_true.
Defined.
