(* ===== verification/PorcCheck.v ===== *)
(** * The checker decides linearizability

    The top of the checker: the entries of a history of operations, sorted by
    time, form a history the search is correct for ([PorcSearch]); the receive
    loop of [checkParallel] combines the verdicts of the partitions in whatever
    order they arrive. The specification, [linearizable], speaks of operations
    and their times only. *)
From S2P Require Import Prelude GoBase Bitset Porcupine PorcSpec PorcSearch.

Section sorted.
Context {A B : Type}.

Lemma StronglySorted_lookup_lt (R : A → A → Prop) l i j x y :
  StronglySorted R l → l !! i = Some x → l !! j = Some y → (i < j)%nat → R x y.
Proof.
  intros Hs. revert i j. induction Hs as [|z l Hs IH Hz]; intros i j Hi Hj Hlt; [done|].
  destruct j as [|j]; [lia|]. simpl in Hj. destruct i as [|i]; simpl in Hi.
  - simplify_eq. rewrite Forall_forall in Hz. apply Hz. by eapply list_elem_of_lookup_2.
  - eapply IH; [done..|lia].
Qed.

Lemma StronglySorted_fmap_iff (f : A → B) (R : B → B → Prop) l :
  StronglySorted R (f <$> l) ↔ StronglySorted (λ a b, R (f a) (f b)) l.
Proof.
  induction l as [|x l IH]; csimpl; [split; constructor|]. split.
  - intros [Hs Hx]%StronglySorted_inv. constructor; [by apply IH|].
    rewrite Forall_fmap in Hx. exact Hx.
  - intros [Hs Hx]%StronglySorted_inv. constructor; [by apply IH|].
    rewrite Forall_fmap. exact Hx.
Qed.

Lemma StronglySorted_impl_in (R R' : A → A → Prop) l :
  (∀ a b, a ∈ l → b ∈ l → R a b → R' a b) → StronglySorted R l → StronglySorted R' l.
Proof.
  intros HR Hs. induction Hs as [|x l Hs IH Hx]; constructor.
  - apply IH. intros a b Ha Hb. apply HR; set_solver.
  - rewrite Forall_forall in Hx. apply Forall_forall. intros b Hb. apply HR; [set_solver..|by apply Hx].
Qed.
End sorted.

Section check.
Context {In Out State : Type}.
Implicit Types (history : list (Operation In Out)).

(** What [sort.Sort(byTime(...))] promises. *)
Definition sort_ok (sort : list (entry In Out) → list (entry In Out)) : Prop :=
  ∀ l, sort l ≡ₚ l ∧ StronglySorted (λ a b, byTime_Less b a = false) (sort l).

(** ** The specification *)

Fixpoint ops_legal (model : FModel In Out State) (s : State) (ops : list (Operation In Out)) : Prop :=
  match ops with
  | [] => True
  | o :: ops' => ∃ s', f_Step model s (op_Input o) (op_Output o) = (true, s') ∧ ops_legal model s' ops'
  end.

(** Some order of the operations is legal for the model and never puts an
    operation before one that had returned before it was called. *)
Definition linearizable (model : FModel In Out State) (history : list (Operation In Out)) : Prop :=
  ∃ ops, ops ≡ₚ history ∧ StronglySorted (λ a b, ¬ op_Return b < op_Call a) ops ∧
    ops_legal model (f_Init model) ops.

(** ** Entries of operations *)

Definition call_entry (id : Z) (o : Operation In Out) : entry In Out :=
  mkEntry callEntry (inl (op_Input o)) id (op_Call o) (op_ClientId o).
Definition ret_entry (id : Z) (o : Operation In Out) : entry In Out :=
  mkEntry returnEntry (inr (op_Output o)) id (op_Return o) (op_ClientId o).

Lemma makeEntries_go_elem id history e :
  e ∈ makeEntries_go id history ↔ ∃ k o, history !! k = Some o ∧
    (e = call_entry (id + Z.of_nat k) o ∨ e = ret_entry (id + Z.of_nat k) o).
Proof.
  revert id. induction history as [|o history IH]; intros id; simpl.
  - split; [by intros ?%elem_of_nil|]. by intros (k & o & ? & _).
  - rewrite !elem_of_cons IH. split.
    + intros [->|[->|(k & o' & Hk & He)]].
      * exists 0%nat, o. rewrite Z.add_0_r. split; [done|by left].
      * exists 0%nat, o. rewrite Z.add_0_r. split; [done|by right].
      * exists (S k), o'. split; [done|]. by replace (id + Z.of_nat (S k)) with (id + 1 + Z.of_nat k) by lia.
    + intros ([|k] & o' & Hk & He); simplify_eq/=.
      * rewrite Z.add_0_r in He. destruct He as [-> | ->]; auto.
      * right; right. exists k, o'. split; [done|].
        by replace (id + 1 + Z.of_nat k) with (id + Z.pos (Pos.of_succ_nat k)) by lia.
Qed.

Lemma makeEntries_go_NoDup id history : NoDup (makeEntries_go id history).
Proof.
  revert id. induction history as [|o history IH]; intros id; simpl; [constructor|].
  constructor; [rewrite elem_of_cons; intros [?|Hin]; [done|]|constructor; [intros Hin|done]];
    apply makeEntries_go_elem in Hin as (k & o' & _ & [[=]|[=]]); lia.
Qed.

Lemma makeEntries_go_length id history :
  length (makeEntries_go id history) = (2 * length history)%nat.
Proof. revert id. induction history as [|o h IH]; intros id; simpl; [done|]. rewrite IH. lia. Qed.

Section ops.
Context (sort : list (entry In Out) → list (entry In Out)) (history : list (Operation In Out)) (o0 : Operation In Out).
Hypotheses (Hsort : sort_ok sort) (Htimes : Forall (λ o, op_Call o ≤ op_Return o) history).

Notation n := (Z.of_nat (length history)).
Notation es := (makeEntries sort history).

Definition op (i : Z) : Operation In Out := default o0 (history !! Z.to_nat i).

Definition pos (k : entryKind) (i : Z) : nat :=
  default 0%nat (fst <$> list_find (λ e, e_kind e = k ∧ e_id e = i) es).

Definition entry_of (k : entryKind) (i : Z) : entry In Out :=
  match k with callEntry => call_entry i (op i) | returnEntry => ret_entry i (op i) end.

Lemma op_lookup i : 0 ≤ i < n → history !! Z.to_nat i = Some (op i).
Proof. intros Hi. rewrite /op. destruct (lookup_lt_is_Some_2 history (Z.to_nat i)) as [o ->]; [lia|done]. Qed.

Lemma es_elem e : e ∈ es ↔ ∃ k i, 0 ≤ i < n ∧ e = entry_of k i.
Proof.
  rewrite /makeEntries (proj1 (Hsort _)) makeEntries_go_elem. split.
  - intros (k & o & Hk & He). pose proof (lookup_lt_Some _ _ _ Hk) as Hlt.
    assert (op (Z.of_nat k) = o) as Ho by by rewrite /op Nat2Z.id Hk.
    destruct He as [-> | ->]; [exists callEntry|exists returnEntry]; exists (Z.of_nat k); (split; [lia|]);
      by rewrite /entry_of Ho.
  - intros (k & i & Hi & ->). exists (Z.to_nat i), (op i). split; [by apply op_lookup|].
    replace (0 + Z.of_nat (Z.to_nat i)) with i by lia. destruct k; auto.
Qed.

Lemma es_NoDup : NoDup es.
Proof. rewrite /makeEntries (proj1 (Hsort _)). apply makeEntries_go_NoDup. Qed.

Lemma entry_of_kind k i : e_kind (entry_of k i) = k.
Proof. by destruct k. Qed.

Lemma entry_of_id k i : e_id (entry_of k i) = i.
Proof. by destruct k. Qed.

Lemma pos_lookup k i : 0 ≤ i < n → es !! pos k i = Some (entry_of k i).
Proof.
  intros Hi. rewrite /pos. destruct (list_find _ es) as [[p e]|] eqn:Hf.
  - apply list_find_Some in Hf as (Hp & [Hk He] & _). simpl. rewrite Hp. f_equal.
    assert (e ∈ es) as (k' & i' & _ & ->)%es_elem by by eapply list_elem_of_lookup_2.
    rewrite entry_of_kind in Hk. rewrite entry_of_id in He. by subst.
  - exfalso. apply list_find_None in Hf. rewrite Forall_forall in Hf.
    apply (Hf (entry_of k i)); [apply es_elem; eauto|]. by rewrite entry_of_kind entry_of_id.
Qed.

Lemma pos_lt k1 i1 k2 i2 :
  0 ≤ i1 < n → 0 ≤ i2 < n → byTime_Less (entry_of k1 i1) (entry_of k2 i2) = true → (pos k1 i1 < pos k2 i2)%nat.
Proof.
  intros H1 H2 Hless. pose proof (pos_lookup k1 i1 H1) as P1. pose proof (pos_lookup k2 i2 H2) as P2.
  assert (pos k1 i1 < pos k2 i2 ∨ pos k1 i1 = pos k2 i2 ∨ pos k2 i2 < pos k1 i1)%nat as [?|[He|Hlt]] by lia; [done|exfalso..].
  - rewrite He P2 in P1. assert (entry_of k2 i2 = entry_of k1 i1) as E by congruence. rewrite E in Hless.
    revert Hless. rewrite /byTime_Less bool_decide_true //=. destruct (e_kind (entry_of k1 i1)); done.
  - pose proof (StronglySorted_lookup_lt _ _ _ _ _ _ (proj2 (Hsort _)) P2 P1 Hlt) as Hs. simpl in Hs. congruence.
Qed.

Lemma call_le_return i : 0 ≤ i < n → op_Call (op i) ≤ op_Return (op i).
Proof.
  intros Hi. eapply (Forall_lookup_1 _ _ _ _ Htimes). by apply op_lookup.
Qed.

Lemma ops_history_ok :
  history_ok es n (pos callEntry) (pos returnEntry) (λ i, op_Input (op i)) (λ i, op_Output (op i)).
Proof.
  split.
  - intros i Hi. eexists _, _. by rewrite pos_lookup.
  - intros i Hi. eexists _, _. by rewrite pos_lookup.
  - intros i Hi. apply pos_lt; [done..|]. pose proof (call_le_return i Hi).
    rewrite /byTime_Less /=. case_bool_decide; simpl; [done|]. apply bool_decide_eq_true. lia.
  - intros p e Hp. assert (e ∈ es) as (k & i & Hi & ->)%es_elem by by eapply list_elem_of_lookup_2.
    rewrite entry_of_id entry_of_kind. split; [done|].
    assert (p = pos k i) as ->; [|by destruct k].
    eapply NoDup_lookup; [apply es_NoDup|done|by apply pos_lookup].
  - rewrite /makeEntries (proj1 (Hsort _)) makeEntries_go_length. lia.
Qed.

(** An operation's return comes before another's call in the sorted entries
    exactly when its return time is smaller. *)
Lemma pos_precedes i j :
  0 ≤ i < n → 0 ≤ j < n →
  (pos returnEntry i < pos callEntry j)%nat ↔ op_Return (op i) < op_Call (op j).
Proof.
  intros Hi Hj. split.
  - intros Hlt. pose proof (pos_lookup returnEntry i Hi) as P1. pose proof (pos_lookup callEntry j Hj) as P2.
    pose proof (StronglySorted_lookup_lt _ _ _ _ _ _ (proj2 (Hsort _)) P1 P2 Hlt) as Hs.
    simpl in Hs. rewrite /byTime_Less /= in Hs. case_bool_decide; simpl in Hs; [done|].
    apply bool_decide_eq_false in Hs. lia.
  - intros Hlt. apply pos_lt; [done..|]. rewrite /byTime_Less /=. rewrite bool_decide_false; [|lia].
    simpl. apply bool_decide_eq_true. lia.
Qed.

Lemma history_ops : history = op <$> seqZ 0 n.
Proof.
  apply list_eq. intros k. rewrite list_lookup_fmap.
  destruct (decide (k < length history)%nat) as [Hk|Hk].
  - rewrite lookup_seqZ_lt; [|lia]. simpl. rewrite -op_lookup; [|lia]. by replace (Z.to_nat (0 + Z.of_nat k)) with k by lia.
  - rewrite lookup_seqZ_ge; [|lia]. apply lookup_ge_None. lia.
Qed.

Context (model : FModel In Out State).

Lemma legal_ops s l :
  legal model (λ i, op_Input (op i)) (λ i, op_Output (op i)) s l ↔ ops_legal model s (op <$> l).
Proof.
  revert s. induction l as [|i l IH]; intros s; [done|]. csimpl. rewrite /stepf.
  destruct (f_Step model s _ _) as [ok s'] eqn:Hst. simpl. rewrite IH. split.
  - intros [-> ?]. exists s'. done.
  - intros (s2 & ? & ?). by simplify_eq.
Qed.

Lemma linearization_ops :
  (∃ lin, linearization model n (pos callEntry) (pos returnEntry)
            (λ i, op_Input (op i)) (λ i, op_Output (op i)) lin) ↔ linearizable model history.
Proof.
  assert (∀ lin, lin ≡ₚ seqZ 0 n →
    StronglySorted (λ a b, ¬ (pos returnEntry b < pos callEntry a)%nat) lin ↔
    StronglySorted (λ a b, ¬ op_Return b < op_Call a) (op <$> lin)) as Hss.
  { intros lin Hp. rewrite StronglySorted_fmap_iff.
    assert (∀ a, a ∈ lin → 0 ≤ a < n) as Hr by (intros a; rewrite Hp elem_of_seqZ; lia).
    split; apply StronglySorted_impl_in; intros a b Ha%Hr Hb%Hr; rewrite pos_precedes //. }
  split.
  - intros (lin & Hp & Hs & Hl). exists (op <$> lin). split_and!.
    + transitivity (op <$> seqZ 0 n); [by apply fmap_Permutation|by rewrite -history_ops].
    + by apply Hss.
    + by apply legal_ops.
  - intros (ops & Hp & Hs & Hl). assert (ops ≡ₚ op <$> seqZ 0 n) as Hp' by by rewrite -history_ops.
    destruct (Permutation_map_inv op (seqZ 0 n) Hp') as (lin & -> & Hlin). symmetry in Hlin.
    exists lin. split_and!; [done|by apply Hss|by apply legal_ops].
Qed.
End ops.

(** [checkSingle] on the entries of operations. *)
Lemma checkSingle_ops sort history model cp :
  sort_ok sort → Forall (λ o, op_Call o ≤ op_Return o) history → EqualOk model →
  ∃ m ok longest,
    (∀ fuel, (m ≤ fuel)%nat →
       checkSingle model (makeEntries sort history) cp (λ _, false) fuel = Some (Returned ok longest)) ∧
    (ok = true ↔ linearizable model history).
Proof.
  intros Hsort Ht HEq. destruct history as [|o0 history].
  - exists 1%nat, true, []. split.
    + intros [|fuel] Hf; [lia|].
      assert (makeEntries sort [] = []) as ->; [|done].
      apply Permutation_nil_r. apply Hsort.
    + split; [|done]. intros _. exists []. split_and!; [done|constructor|done].
  - pose proof (ops_history_ok sort (o0 :: history) o0 Hsort Ht) as Hok.
    destruct (checkSingle_result model _ _ _ _ _ _ Hok cp HEq) as (m & ok & lng & Hrun & Hiff & _).
    exists m, ok, lng. split; [done|]. rewrite Hiff. by apply linearization_ops.
Qed.

(** ** The receive loop *)

Lemma check_loop_ext (model : FModel In Out State) cp k1 k2 head fuel st :
  (∀ i, k1 i = k2 i) → check_loop model cp k1 head fuel st = check_loop model cp k2 head fuel st.
Proof.
  revert k1 k2 st. induction fuel as [|fuel IH]; intros k1 k2 st Hk; simpl; [done|]. rewrite Hk.
  destruct (check_iter _ _ _ _ _); [|done..]. apply IH. intros i. apply Hk.
Qed.

Section receive.
Context (hist : list (list (entry In Out))) (ci : bool) (results : nat → option bool) (truth : nat → bool).

Lemma receive_spec order0 order timer :
  (∀ o1 i o2, order0 ++ order = o1 ++ i :: o2 → (ci = true ∨ ∀ j, j ∈ o1 → truth j = true) →
     results i = Some (truth i)) →
  (length (order0 ++ order) = length hist)%nat → order ≠ [] →
  (ci = true ∨ ∀ j, j ∈ order0 → truth j = true) →
  ∃ ok to, receive hist ci results order timer (length order0) (forallb truth order0) = Some (ok, to) ∧
    (ok = false → ∃ i, i ∈ order0 ++ order ∧ truth i = false) ∧
    (ok = true → to = false → ∀ i, i ∈ order0 ++ order → truth i = true) ∧
    (to = true → is_Some timer).
Proof.
  revert order0 timer. induction order as [|i order IH]; intros order0 timer Hres Hlen Hne Hpre; [done|].
  assert (∀ l, forallb truth l = true → ∀ j, j ∈ l → truth j = true) as Hall.
  { intros l Hl j Hj. eapply forallb_forall in Hl; [done|]. by apply list_elem_of_In. }
  assert (∀ l, forallb truth l = false → ∃ j, j ∈ l ∧ truth j = false) as Hex.
  { intros l Hl. by apply forallb_false. }
  cbn [receive]. destruct timer as [[|k]|].
  { exists (forallb truth order0), true. split_and!; [done| |done|eauto].
    intros (j & ? & ?)%Hex. exists j. set_solver. }
  all: rewrite (Hres order0 i order) //; cbn [mbind option_bind];
    (replace (forallb truth order0 && truth i) with (forallb truth (order0 ++ [i]))
       by (by rewrite forallb_app /= andb_true_r));
    destruct (negb (forallb truth (order0 ++ [i])) && negb ci) eqn:Hstop;
    [ apply andb_true_iff in Hstop as [Hf%negb_true_iff _]; exists (forallb truth (order0 ++ [i])), false;
      (split_and!; [done| |by rewrite Hf|done]);
      intros (j & ? & ?)%Hex; exists j; split; [set_solver|done]
    | case_bool_decide as Hc;
      [ exists (forallb truth (order0 ++ [i])), false; rewrite length_app /= in Hlen;
        (assert (order = []) as -> by (apply length_zero_iff_nil; lia));
        (split_and!; [done|by intros ?%Hex|by intros ? _; apply Hall|done])
      | ] ].
  all: match goal with |- context [receive _ _ _ _ (pred <$> ?tm) _ _] =>
         destruct (IH (order0 ++ [i]) (pred <$> tm)) as (ok & to & Hr & H1 & H2 & H3) end;
    [ rewrite -assoc_L; exact Hres | rewrite -assoc_L; exact Hlen
    | intros ->; rewrite length_app /= in Hlen; lia
    | destruct ci; [by left|right]; rewrite andb_true_r in Hstop; apply negb_false_iff in Hstop; by apply Hall
    | ].
  all: exists ok, to; rewrite length_app /= Nat.add_1_r in Hr; rewrite -assoc_L /= in H1 H2;
    split_and!; [done..|]; intros Hto; specialize (H3 Hto); simpl in H3; by destruct H3.
Qed.
End receive.

(** ** Schedules

    Every goroutine's result is received once; a goroutine whose result comes
    before the kill flag is set has never seen it set. The flag is set when a
    result is false (unless all results are wanted) or the timer fires. *)
Definition sched_ok (model : FModel In Out State) (hist : list (list (entry In Out))) (ci : bool) (fuel : nat)
    (sched : Schedule) : Prop :=
  sc_order sched ≡ₚ seq 0 (length hist) ∧
  ∀ o1 i o2, sc_order sched = o1 ++ i :: o2 →
    (ci = true ∨ ∀ j, j ∈ o1 → fst <$> goroutine model hist ci fuel sched j = Some true) →
    ∀ k, sc_kill sched i k = false.

(** The verdict on each partition, from some fuel on. *)
Lemma verdicts sort (model : FModel In Out State) (parts : list (list (Operation In Out))) ci :
  sort_ok sort → EqualOk model → Forall (Forall (λ o, op_Call o ≤ op_Return o)) parts →
  ∃ (fuel0 : nat) (truth : nat → bool), ∀ i part, parts !! i = Some part →
  (truth i = true ↔ linearizable model part) ∧
  ∀ fuel sched, (fuel0 ≤ fuel)%nat → (∀ k, sc_kill sched i k = false) →
    fst <$> goroutine model (makeEntries sort <$> parts) ci fuel sched i = Some (truth i).
Proof.
  intros Hsort HEq Htimes. rewrite /goroutine.
  induction Htimes as [|part parts Hp Hps (f1 & truth & IH)]; [by exists 0%nat, (λ _, true)|].
  destruct (checkSingle_ops sort part model ci Hsort Hp HEq) as (m & ok & lng & Hrun & Hiff).
  exists (max m f1), (λ i, match i with O => ok | S i' => truth i' end).
  intros [|i] part' Hi; simpl in Hi.
  - injection Hi as <-. split; [done|]. intros fuel sched Hf Hk. simpl.
    rewrite /checkSingle in Hrun |- *. specialize (Hrun fuel ltac:(lia)).
    destruct (check_start _ _) as [hd st]. rewrite (check_loop_ext _ _ _ (λ _, false)) // Hrun //.
  - destruct (IH i part' Hi) as [H1 H2]. split; [done|]. intros fuel sched Hf Hk. simpl.
    apply (H2 fuel (mkSchedule (sc_order sched) (sc_timer sched) (λ i, sc_kill sched (S i)) (sc_range sched)));
      [lia|done].
Qed.

Section verdict.
Context (sort : list (entry In Out) → list (entry In Out)) (model : FModel In Out State)
  (parts : list (list (Operation In Out))).
Hypotheses (Hsort : sort_ok sort) (HEq : EqualOk model)
  (Htimes : Forall (Forall (λ o, op_Call o ≤ op_Return o)) parts) (Hne : parts ≠ []).

Notation hist := (makeEntries sort <$> parts).

(** The verdict of [checkParallel] without the partial linearizations. *)
Lemma checkParallel_verdict : ∃ fuel0, ∀ fuel sched timeout,
  (fuel0 ≤ fuel)%nat → sched_ok model hist false fuel sched →
  ∃ r, checkParallel model hist false fuel timeout sched = Some (r, mkInfo [] []) ∧
    (r = Ok → Forall (linearizable model) parts) ∧ (r = Illegal → ¬ Forall (linearizable model) parts) ∧
    (r = Unknown → 0 < timeout ∧ is_Some (sc_timer sched)).
Proof.
  destruct (verdicts sort model parts false Hsort HEq Htimes) as (fuel0 & truth & Hv).
  exists fuel0. intros fuel sched timeout Hf [Hord Hkill].
  set (timer := if bool_decide (0 < timeout) then sc_timer sched else None).
  assert (∀ i, i ∈ sc_order sched ↔ ∃ part, parts !! i = Some part) as Hin.
  { intros i. rewrite Hord elem_of_seq length_fmap -/(is_Some (parts !! i)) lookup_lt_is_Some. lia. }
  assert (∀ k o1 i o2, length o1 = k → sc_order sched = o1 ++ i :: o2 → (∀ j, j ∈ o1 → truth j = true) →
    fst <$> goroutine model hist false fuel sched i = Some (truth i)) as Hres.
  { intros k. induction (lt_wf k) as [k _ IH]. intros o1 i o2 Hk Ho Htrue.
    destruct (proj1 (Hin i)) as [part Hpart]; [rewrite Ho; set_solver|].
    apply (Hv i part Hpart); [done|]. apply (Hkill o1 i o2 Ho). right. intros j Hj.
    destruct (list_elem_of_split _ _ Hj) as (o3 & o4 & ->).
    rewrite -(Htrue j Hj). apply (IH (length o3)) with (o1 := o3) (o2 := o4 ++ i :: o2); [|done|..].
    - rewrite -Hk length_app /=. lia.
    - by rewrite Ho -assoc_L.
    - intros j' Hj'. apply Htrue. set_solver. }
  destruct (receive_spec hist false (λ i, fst <$> goroutine model hist false fuel sched i) truth
    [] (sc_order sched) timer) as (ok & to & Hr & H1 & H2 & H3).
  - intros o1 i o2 Ho [?|Ht]; [done|]. by eapply Hres.
  - rewrite /= Hord length_seq //.
  - intros Hnil. destruct parts as [|part ps]; [done|].
    assert (0%nat ∈ sc_order sched) as H0 by (apply Hin; by exists part).
    rewrite Hnil in H0. by apply elem_of_nil in H0.
  - right. by intros j ?%elem_of_nil.
  - rewrite /checkParallel -/timer. simpl in Hr. rewrite Hr. cbn [mbind option_bind].
    eexists. split; [done|]. split_and!.
    + destruct ok; [|done]. destruct to; [done|]. intros _. apply Forall_lookup_2. intros i part Hi.
      apply (Hv i part Hi). apply H2; [done..|]. apply Hin. eauto.
    + destruct ok; [by destruct to|]. intros _ Hall. destruct (H1 eq_refl) as (i & Hi & Hti).
      destruct (proj1 (Hin i) Hi) as [part Hpart].
      rewrite (proj2 (proj1 (Hv i part Hpart))) in Hti; [done|]. by eapply Forall_lookup_1.
    + destruct ok; [|done]. destruct to; [|done]. intros _. specialize (H3 eq_refl). rewrite /timer in H3.
      case_bool_decide; [done|]. by destruct H3.
Qed.

End verdict.
End check.

(** ** A sort *)

Section byTime.
Context {In Out : Type}.

Definition not_after (a b : entry In Out) : Prop := byTime_Less b a = false.

#[global] Instance not_after_dec a b : Decision (not_after a b).
Proof. unfold not_after. apply _. Defined.

Lemma not_after_iff (a b : entry In Out) :
  not_after a b ↔ e_time a < e_time b ∨
    e_time a = e_time b ∧ (e_kind a = returnEntry → e_kind b = returnEntry).
Proof.
  rewrite /not_after /byTime_Less. case_bool_decide as Ht; simpl.
  - destruct (e_kind a), (e_kind b); repeat case_bool_decide; simpl; naive_solver lia.
  - rewrite bool_decide_eq_false. lia.
Qed.

#[global] Instance not_after_total : Total not_after.
Proof.
  intros a b. rewrite !not_after_iff. destruct (Z.lt_trichotomy (e_time a) (e_time b)) as [?|[?|?]];
    destruct (e_kind a), (e_kind b); naive_solver.
Qed.

#[global] Instance not_after_trans : Transitive not_after.
Proof. intros a b c. rewrite !not_after_iff. intuition lia. Qed.

Definition sort_entries : list (entry In Out) → list (entry In Out) := merge_sort not_after.

Lemma sort_entries_ok : sort_ok sort_entries.
Proof.
  intros l. split; [apply merge_sort_Permutation|].
  apply Sorted_StronglySorted; [apply _|]. apply Sorted_merge_sort, _.
Qed.
End byTime.

(** All goroutines run to their end and report in order. *)
Definition calm (n : nat) : Schedule := mkSchedule (seq 0 n) None (λ _ _, false) id.

Lemma calm_ok {In Out State} (model : FModel In Out State) hist ci fuel :
  sched_ok model hist ci fuel (calm (length hist)).
Proof. by split. Qed.

(** ** The checker as its users call it *)


Definition register : FModel (option Z) Z Z :=
  mkFModel _ _ _ (λ h, [h]) (λ h, [h]) 0
    (λ s i o, match i with None => (bool_decide (o = s), s) | Some v => (true, v) end)
    (λ s t, bool_decide (s = t)) (λ _ _, "") (λ _, "").

Lemma register_EqualOk : EqualOk register.
Proof.
  split; simpl; intros *.
  - by apply bool_decide_eq_true.
  - intros ->%bool_decide_eq_true ->%bool_decide_eq_true. by apply bool_decide_eq_true.
  - intros ->%bool_decide_eq_true Hs. exists s'. split; [done|]. by apply bool_decide_eq_true.
Qed.

(** A write of 1 overlapping a read of 1, then a read of 0. *)
Definition register_history (last : Z) : list (Operation (option Z) Z) :=
  [mkOperation 0 (Some 1) 0 0 10; mkOperation 1 None 2 1 5; mkOperation 2 None 6 last 9].



