(* ===== verification/Kv.v ===== *)
(** * The key-value model of the checker, and its locality

    Models [models/kv.go]: the partition of a history by key, and the
    one-key model the checker runs on each partition. Documentation of
    [porcupine.Model] asks of a partition that a history is linearizable if and
    only if each of its parts is: [kv_locality] proves this for key-value
    stores, by giving every operation of every part a point of time between its
    call and its return and merging the parts by these points. *)
From S2P Require Import Prelude GoBase Bitset Porcupine PorcSpec PorcSearch PorcCheck.

Record KvInput := mkKvInput { ki_Op : Z; ki_Key : string; ki_Value : string }.
Record KvOutput := mkKvOutput { ko_Value : string }.

Notation KvOperation := (Operation KvInput KvOutput).

Definition op_key (o : KvOperation) : string := ki_Key (op_Input o).

(** [m[key] = append(m[key], v)] *)
Definition Kv_group (history : list KvOperation) : gmap string (list KvOperation) :=
  foldl (λ m v, <[op_key v := default [] (m !! op_key v) ++ [v]]> m) ∅ history.

(** The keys are sorted, so the order in which the map is iterated does not
    matter. *)
Definition Kv_Partition (history : list KvOperation) : list (list KvOperation) :=
  let m := Kv_group history in
  let keys := sort_Strings (map_to_list m).*1 in
  (λ k, default [] (m !! k)) <$> keys.

Definition Kv_Step (state : string) (inp : KvInput) (out : KvOutput) : bool * string :=
  if bool_decide (ki_Op inp = 0) then (bool_decide (ko_Value out = state), state)
  else if bool_decide (ki_Op inp = 1) then (true, ki_Value inp)
  else (true, state +:+ ki_Value inp).

Definition Kv_DescribeOperation (inp : KvInput) (out : KvOutput) : string :=
  if bool_decide (ki_Op inp = 0) then "get('" +:+ ki_Key inp +:+ "') -> '" +:+ ko_Value out +:+ "'"
  else if bool_decide (ki_Op inp = 1) then "put('" +:+ ki_Key inp +:+ "', '" +:+ ki_Value inp +:+ "')"
  else if bool_decide (ki_Op inp = 2) then "append('" +:+ ki_Key inp +:+ "', '" +:+ ki_Value inp +:+ "')"
  else "<invalid>".

Definition KvModel : Model KvInput KvOutput string :=
  mkModel _ _ _ (Some Kv_Partition) None "" Kv_Step None (Some Kv_DescribeOperation) None.

(** The model the checker works with; a state is described as itself. *)
Definition KvF : FModel KvInput KvOutput string := fillDefault (λ _ _, "") id KvModel.

(** ** A whole store *)

(** What an operation does to a store that holds the empty string for every key
    it does not mention. *)
Inductive store_op (m : gmap string string) (o : KvOperation) : gmap string string → Prop :=
| store_get : ki_Op (op_Input o) = 0 → ko_Value (op_Output o) = default "" (m !! op_key o) → store_op m o m
| store_put : ki_Op (op_Input o) = 1 → store_op m o (<[op_key o := ki_Value (op_Input o)]> m)
| store_append : ki_Op (op_Input o) ≠ 0 → ki_Op (op_Input o) ≠ 1 →
    store_op m o (<[op_key o := default "" (m !! op_key o) +:+ ki_Value (op_Input o)]> m).

(** The operations are what the store did, in this order. *)
Fixpoint store_legal (m : gmap string string) (ops : list KvOperation) : Prop :=
  match ops with
  | [] => True
  | o :: ops' => ∃ m', store_op m o m' ∧ store_legal m' ops'
  end.

(** The history is linearizable as the history of one key-value store. *)
Definition store_linearizable (history : list KvOperation) : Prop :=
  ∃ ops, ops ≡ₚ history ∧ StronglySorted (λ a b, ¬ op_Return b < op_Call a) ops ∧ store_legal ∅ ops.

(** ** The default equality *)

#[global] Instance fillDefault_EqualOk {In Out S} `{EqDecision S} fo fs (model : Model In Out S) :
  Equal model = None → EqualOk (fillDefault fo fs model).
Proof.
  intros HE. rewrite /fillDefault HE. split; simpl; unfold ShallowEqual.
  - intros s. by apply bool_decide_eq_true.
  - intros s t u ->%bool_decide_eq_true ->%bool_decide_eq_true. by apply bool_decide_eq_true.
  - intros s t i o s' ->%bool_decide_eq_true Hs. exists s'. split; [done|]. by apply bool_decide_eq_true.
Qed.

Lemma KvF_EqualOk : EqualOk KvF.
Proof. by apply fillDefault_EqualOk. Qed.

(** ** The partition *)

Notation of_key k := (filter (λ o, op_key o = k)).

Lemma Kv_group_lookup history k :
  Kv_group history !! k = match of_key k history with [] => None | l => Some l end.
Proof.
  rewrite /Kv_group. induction history as [|o history IH] using rev_ind; [done|].
  rewrite foldl_app /= filter_app filter_cons filter_nil.
  destruct (decide (op_key o = k)) as [<-|Hne].
  - rewrite lookup_insert_eq IH. by destruct (of_key (op_key o) history).
  - rewrite lookup_insert_ne // IH right_id_L //.
Qed.

Lemma default_Kv_group history k : default [] (Kv_group history !! k) = of_key k history.
Proof. rewrite Kv_group_lookup. by destruct (of_key k history). Qed.

Definition Kv_keys (history : list KvOperation) : list string := sort_Strings (map_to_list (Kv_group history)).*1.

Lemma Kv_Partition_eq history : Kv_Partition history = (λ k, of_key k history) <$> Kv_keys history.
Proof. rewrite /Kv_Partition. apply list_fmap_ext. intros i k _. apply default_Kv_group. Qed.

Lemma Kv_keys_NoDup history : NoDup (Kv_keys history).
Proof. rewrite /Kv_keys sort_Strings_perm. apply NoDup_fst_map_to_list. Qed.

Lemma Kv_keys_elem history k : k ∈ Kv_keys history ↔ ∃ o, o ∈ history ∧ op_key o = k.
Proof.
  rewrite /Kv_keys sort_Strings_perm (range_order_elem _ (Kv_group history)); [|apply range_order_default].
  rewrite Kv_group_lookup. destruct (of_key k history) as [|o l] eqn:E.
  - split; [by intros []|]. intros (o & Ho & Hk).
    assert (o ∈ of_key k history) as Hin by by apply list_elem_of_filter. rewrite E in Hin. by apply elem_of_nil in Hin.
  - split; [|eauto]. intros _. exists o.
    assert (o ∈ of_key k history) as [??]%list_elem_of_filter by (rewrite E; left). done.
Qed.

(** ** Projections of a legal history of the store *)

(** An operation of the store is a step of the model on its key. *)
Lemma store_op_Kv_Step m o m' :
  store_op m o m' →
  Kv_Step (default "" (m !! op_key o)) (op_Input o) (op_Output o) = (true, default "" (m' !! op_key o)) ∧
  ∀ k, k ≠ op_key o → m' !! k = m !! k.
Proof.
  intros [Hop Hv|Hop|H0 H1]; rewrite /Kv_Step ?lookup_insert_eq.
  - by rewrite bool_decide_true // bool_decide_true.
  - rewrite Hop. split; [done|]. intros k Hk. by rewrite lookup_insert_ne.
  - rewrite bool_decide_false // bool_decide_false //. split; [done|]. intros k Hk. by rewrite lookup_insert_ne.
Qed.

Lemma Kv_Step_store_op m o s :
  Kv_Step (default "" (m !! op_key o)) (op_Input o) (op_Output o) = (true, s) → ∃ m', store_op m o m'.
Proof.
  rewrite /Kv_Step. case_bool_decide as H0; [|case_bool_decide as H1].
  - intros [= Hv%bool_decide_eq_true <-]. eexists. by apply store_get.
  - intros _. eexists. by apply store_put.
  - intros _. eexists. by apply store_append.
Qed.

Lemma store_legal_iff m ops :
  store_legal m ops ↔ ∀ k, ops_legal KvF (default "" (m !! k)) (of_key k ops).
Proof.
  revert m. induction ops as [|o ops IH]; intros m; simpl; [done|]. split.
  - intros (m' & [Hs Hk]%store_op_Kv_Step & Hl) k. rewrite IH in Hl. specialize (Hl k).
    rewrite filter_cons. case_decide as Hok; [|by rewrite -Hk].
    subst k. eexists. split; [exact Hs|exact Hl].
  - intros Hl. pose proof (Hl (op_key o)) as Ho. rewrite filter_cons decide_True // in Ho.
    destruct Ho as (s & Hs & Hl'). destruct (Kv_Step_store_op m o s Hs) as [m' Hm']. exists m'. split; [done|].
    apply store_op_Kv_Step in Hm' as [Hs' Hk]. apply IH. intros k.
    destruct (decide (op_key o = k)) as [<-|Hne].
    + change (Kv_Step (default "" (m !! op_key o)) (op_Input o) (op_Output o) = (true, s)) in Hs. congruence.
    + specialize (Hl k). rewrite filter_cons decide_False // in Hl. by rewrite Hk.
Qed.

(** ** Points of time *)

Notation rt_sorted := (StronglySorted (λ a b : KvOperation, ¬ op_Return b < op_Call a)).
Notation timed := (KvOperation * Z)%type.

Definition earlier (x y : timed) : Prop := x.2 ≤ y.2.
#[local] Instance earlier_dec x y : Decision (earlier x y).
Proof. unfold earlier. apply _. Defined.
#[local] Instance earlier_total : Total earlier.
Proof. intros x y. unfold earlier. lia. Qed.
#[local] Instance earlier_trans : Transitive earlier.
Proof. intros x y z. unfold earlier. lia. Qed.

(** The point lies between the operation's call and its return. *)
Definition point_ok (x : timed) : Prop := op_Call x.1 ≤ x.2 ≤ op_Return x.1.

(** Each operation takes effect at its call, or as soon after it as the
    operations before it allow. *)
Fixpoint points (t : Z) (ops : list KvOperation) : list timed :=
  match ops with
  | [] => []
  | o :: ops' => let p := Z.max t (op_Call o) in (o, p) :: points p ops'
  end.

Lemma points_fst t ops : (points t ops).*1 = ops.
Proof. revert t. induction ops as [|o ops IH]; intros t; csimpl; [done|]. by rewrite IH. Qed.

Lemma points_ge t ops : Forall (λ x, t ≤ x.2) (points t ops).
Proof.
  revert t. induction ops as [|o ops IH]; intros t; simpl; constructor; [simpl; lia|].
  eapply Forall_impl; [apply IH|]. simpl. lia.
Qed.

Lemma points_sorted t ops : StronglySorted earlier (points t ops).
Proof.
  revert t. induction ops as [|o ops IH]; intros t; simpl; constructor; [done|apply points_ge].
Qed.

Lemma points_ok t ops :
  rt_sorted ops → Forall (λ o, op_Call o ≤ op_Return o ∧ t ≤ op_Return o) ops → Forall point_ok (points t ops).
Proof.
  intros Hs. revert t. induction Hs as [|o ops Hs IH Ho]; intros t Ht; simpl; [constructor|].
  apply Forall_cons in Ht as [[Ho1 Ho2] Ht]. constructor; [rewrite /point_ok /=; lia|]. apply IH.
  rewrite Forall_forall in Ho. rewrite Forall_forall in Ht. apply Forall_forall. intros b Hb.
  specialize (Ho b Hb). destruct (Ht b Hb). lia.
Qed.

Lemma points_rt (l : list timed) : StronglySorted earlier l → Forall point_ok l → rt_sorted l.*1.
Proof.
  intros Hs Hp. apply StronglySorted_fmap_iff. eapply StronglySorted_impl_in; [|done].
  intros x y Hx Hy Hxy. rewrite Forall_forall in Hp. pose proof (Hp x Hx). pose proof (Hp y Hy).
  unfold earlier, point_ok in *. lia.
Qed.

Lemma filter_merge (P : timed → Prop) `{∀ x, Decision (P x)} (l1 l2 : list timed) :
  Forall (λ x, ¬ P x) l1 → filter P (list_merge earlier l1 l2) = filter P l2.
Proof.
  intros H1. revert l2. induction H1 as [|x l1 Hx H1 IH1]; intros l2; [by rewrite list_merge_nil_l|].
  induction l2 as [|y l2 IH2].
  - specialize (IH1 []). rewrite list_merge_nil_r in IH1.
    rewrite list_merge_nil_r filter_cons_False //.
  - rewrite list_merge_cons. case_decide.
    + rewrite filter_cons_False // IH1 //.
    + rewrite !filter_cons. by rewrite IH2.
Qed.

Lemma filter_merge_r (P : timed → Prop) `{∀ x, Decision (P x)} (l1 l2 : list timed) :
  Forall (λ x, ¬ P x) l2 → filter P (list_merge earlier l1 l2) = filter P l1.
Proof.
  revert l2. induction l1 as [|x l1 IH1]; intros l2 H2.
  - rewrite list_merge_nil_l filter_nil. induction H2; [done|]. by rewrite filter_cons_False.
  - induction H2 as [|y l2 Hy H2 IH2]; [by rewrite list_merge_nil_r|]. rewrite list_merge_cons. case_decide.
    + rewrite !filter_cons IH1 //. by constructor.
    + by rewrite filter_cons_False.
Qed.

Lemma filter_fmap_fst (P : KvOperation → Prop) `{∀ x, Decision (P x)} (l : list timed) :
  (filter (λ x, P x.1) l).*1 = filter P l.*1.
Proof.
  induction l as [|x l IH]; [done|]. rewrite fmap_cons !filter_cons. case_decide; [|done].
  rewrite fmap_cons IH //.
Qed.

Section filters.
Context {A : Type}.

Lemma filter_all (P : A → Prop) `{∀ x, Decision (P x)} (l : list A) : Forall P l → filter P l = l.
Proof. induction 1 as [|x l Hx Hl IH]; [done|]. by rewrite filter_cons_True // IH. Qed.

Lemma filter_none (P : A → Prop) `{∀ x, Decision (P x)} (l : list A) : Forall (λ x, ¬ P x) l → filter P l = [].
Proof. induction 1 as [|x l Hx Hl IH]; [done|]. by rewrite filter_cons_False // IH. Qed.

Lemma StronglySorted_filter_any (R : A → A → Prop) (P : A → Prop) `{∀ x, Decision (P x)} (l : list A) :
  StronglySorted R l → StronglySorted R (filter P l).
Proof.
  induction 1 as [|x l Hl IH Hx]; [constructor|]. rewrite filter_cons. case_decide; [|done].
  constructor; [done|]. rewrite Forall_forall in Hx. apply Forall_forall.
  intros y [_ Hy]%list_elem_of_filter. by apply Hx.
Qed.
End filters.

Lemma filter_or_perm k ks (history : list KvOperation) :
  k ∉ ks →
  of_key k history ++ filter (λ o, op_key o ∈ ks) history ≡ₚ filter (λ o, op_key o ∈ k :: ks) history.
Proof.
  intros Hk. induction history as [|o history IH]; [done|]. rewrite !filter_cons.
  destruct (decide (op_key o = k)) as [He|He].
  - rewrite (decide_False (P:=op_key o ∈ ks)); [|by rewrite He]. rewrite decide_True; [|rewrite He; left].
    by rewrite -IH.
  - destruct (decide (op_key o ∈ ks)) as [Hin|Hin].
    + rewrite decide_True; [|by right]. by rewrite -Permutation_middle IH.
    + rewrite decide_False; [done|]. by rewrite not_elem_of_cons.
Qed.

(** Merging the linearizations of some keys. *)
Lemma merge_keys (history : list KvOperation) (ks : list string) :
  NoDup ks → Forall (λ o, op_Call o ≤ op_Return o) history →
  (∀ k, k ∈ ks → linearizable KvF (of_key k history)) →
  ∃ l : list timed, StronglySorted earlier l ∧ Forall point_ok l ∧
    l.*1 ≡ₚ filter (λ o, op_key o ∈ ks) history ∧
    ∀ k, k ∈ ks → ops_legal KvF "" (of_key k l.*1).
Proof.
  intros Hnd Ht. induction Hnd as [|k ks Hk Hnd IH]; intros Hlin.
  - exists []. split_and!; [constructor..| |by intros k ?%elem_of_nil].
    induction history as [|o history IH]; [done|]. apply Forall_cons in Ht as [_ Ht].
    rewrite filter_cons_False; [by apply IH; [|intros k ?%elem_of_nil]|apply not_elem_of_nil].
  - destruct IH as (l & Hs & Hp & Hl & Hleg); [intros k' Hk'; apply Hlin; by right|].
    destruct (Hlin k ltac:(left)) as (ops & Hops & Hrt & Hlegk).
    (* the part of this key, with its points *)
    set (t0 := foldr Z.min 0 (op_Return <$> ops)).
    assert (∀ x, x ∈ ops → t0 ≤ op_Return x) as Ht0.
    { rewrite /t0. clear. induction ops as [|o ops IH]; [by intros x ?%elem_of_nil|]. csimpl.
      intros x [->|Hx%IH]%elem_of_cons; lia. }
    set (lk := points t0 ops).
    assert (Forall point_ok lk) as Hpk.
    { apply points_ok; [done|]. apply Forall_forall. intros o Ho. split; [|by apply Ht0].
      rewrite Hops in Ho. apply list_elem_of_filter in Ho as [_ Ho]. rewrite Forall_forall in Ht. by apply Ht. }
    assert (Forall (λ x, op_key x.1 = k) lk) as Hkk.
    { apply Forall_forall. intros x Hx.
      assert (x.1 ∈ lk.*1) as Hx1 by (apply list_elem_of_fmap; eauto).
      rewrite /lk points_fst Hops in Hx1. by apply list_elem_of_filter in Hx1 as [? _]. }
    assert (Forall (λ x, op_key x.1 ∈ ks) l) as Hlk.
    { apply Forall_forall. intros x Hx.
      assert (x.1 ∈ l.*1) as Hx1 by (apply list_elem_of_fmap; eauto).
      rewrite Hl in Hx1. by apply list_elem_of_filter in Hx1 as [? _]. }
    exists (list_merge earlier lk l). split_and!.
    + apply Sorted_StronglySorted; [apply _|]. apply Sorted_list_merge; [apply _|..];
        apply StronglySorted_Sorted; [apply points_sorted|done].
    + rewrite merge_Permutation Forall_app //.
    + rewrite merge_Permutation fmap_app /lk points_fst Hops Hl. by apply filter_or_perm.
    + intros k' Hk'. rewrite -filter_fmap_fst.
      destruct (decide (k' = k)) as [->|Hne].
      * rewrite (filter_merge_r (λ x, op_key x.1 = k)).
        -- rewrite filter_all //. by rewrite /lk points_fst.
        -- apply (Forall_impl _ _ _ Hlk). intros x Hx Hx2. apply Hk. by rewrite -Hx2.
      * rewrite (filter_merge (λ x, op_key x.1 = k')).
        -- specialize (Hleg k' ltac:(set_solver)). rewrite -filter_fmap_fst in Hleg. exact Hleg.
        -- apply (Forall_impl _ _ _ Hkk). intros x Hx1 Hx2. apply Hne. by rewrite -Hx1 -Hx2.
Qed.

(** A history of a store is linearizable exactly when its parts are. *)
Lemma kv_locality history :
  Forall (λ o, op_Call o ≤ op_Return o) history →
  Forall (linearizable KvF) (Kv_Partition history) ↔ store_linearizable history.
Proof.
  intros Ht. rewrite Kv_Partition_eq Forall_fmap Forall_forall. split.
  - intros Hparts. destruct (merge_keys history (Kv_keys history)) as (l & Hs & Hp & Hl & Hleg);
      [apply Kv_keys_NoDup|done|exact Hparts|].
    exists l.*1. split_and!.
    + rewrite Hl filter_all //. apply Forall_forall. intros o Ho. apply Kv_keys_elem. eauto.
    + by apply points_rt.
    + apply store_legal_iff. intros k. rewrite lookup_empty.
      destruct (decide (k ∈ Kv_keys history)) as [Hk|Hk]; [by apply Hleg|].
      rewrite filter_none //. apply Forall_forall. intros o Ho Hok. apply Hk, Kv_keys_elem. exists o.
      split; [|done]. rewrite Hl in Ho. by apply list_elem_of_filter in Ho as [_ ?].
  - intros (ops & Hops & Hs & Hleg) k _. exists (of_key k ops). split_and!.
    + by rewrite Hops.
    + by apply StronglySorted_filter_any.
    + rewrite store_legal_iff in Hleg. specialize (Hleg k). by rewrite lookup_empty in Hleg.
Qed.

(** C1: The key-value checker decides linearizability of the whole store.
    For every nonempty history of gets, puts and appends on any keys, each
    returning no earlier than it was called, [CheckOperations] with [KvModel]
    (which splits the history by key and checks each key on its own) terminates
    and returns true exactly when the operations on all keys together have one
    order that respects real time in which a store, starting empty, does them:
    a put sets its key, an append extends it, and a get returns the value its
    key then has (the empty string if it was never set). *)
Theorem CheckOperations_kv_store sort history :
  sort_ok sort → history ≠ [] → Forall (λ o, op_Call o ≤ op_Return o) history →
  ∃ fuel0, ∀ fuel sched, (fuel0 ≤ fuel)%nat →
    sched_ok KvF (makeEntries sort <$> Kv_Partition history) false fuel sched →
    ∃ b, CheckOperations sort KvF history sched fuel = Some b ∧ (b = true ↔ store_linearizable history).
Proof.
  intros Hsort Hne Ht.
  assert (Kv_Partition history ≠ []) as Hpne.
  { rewrite Kv_Partition_eq. destruct history as [|o h]; [done|].
    assert (op_key o ∈ Kv_keys (o :: h)) as Hk by (apply Kv_keys_elem; exists o; split; [left|done]).
    destruct (Kv_keys (o :: h)); [by apply elem_of_nil in Hk|done]. }
  assert (Forall (Forall (λ o, op_Call o ≤ op_Return o)) (Kv_Partition history)) as Hpt.
  { rewrite Kv_Partition_eq Forall_fmap. apply Forall_forall. intros k _.
    apply Forall_forall. intros o [_ Ho]%list_elem_of_filter. rewrite Forall_forall in Ht. by apply Ht. }
  destruct (checkParallel_verdict sort KvF _ Hsort KvF_EqualOk Hpt Hpne) as (fuel0 & Hv).
  exists fuel0. intros fuel sched Hf Hs. destruct (Hv fuel sched 0 Hf Hs) as (r & Hr & H1 & H2 & H3).
  exists (bool_decide (r = Ok)). rewrite /CheckOperations /checkOperations.
  change (f_Partition KvF history) with (Kv_Partition history). rewrite Hr. split; [done|].
  rewrite bool_decide_eq_true -kv_locality //. split; [done|]. intros Hall.
  destruct r; [|done|by destruct H2]. destruct H3 as [? _]; [done|lia].
Qed.

Definition kv_put (c : Z) (k v : string) (call ret : Z) : KvOperation :=
  mkOperation c (mkKvInput 1 k v) call (mkKvOutput "") ret.
Definition kv_get (c : Z) (k v : string) (call ret : Z) : KvOperation :=
  mkOperation c (mkKvInput 0 k "") call (mkKvOutput v) ret.

Definition kv_demo (v : string) : list KvOperation :=
  [kv_put 0 "x" "1" 0 3; kv_put 1 "y" "2" 1 2; kv_get 2 "x" v 4 5; kv_get 2 "y" "2" 6 7].

Lemma CheckOperations_kv_store_witness :
  CheckOperations sort_entries KvF (kv_demo "1") (calm 2) 100 = Some true ∧
  CheckOperations sort_entries KvF (kv_demo "") (calm 2) 100 = Some false ∧
  ∃ fuel0, ∀ fuel sched, (fuel0 ≤ fuel)%nat →
    sched_ok KvF (makeEntries sort_entries <$> Kv_Partition (kv_demo "1")) false fuel sched →
    ∃ b, CheckOperations sort_entries KvF (kv_demo "1") sched fuel = Some b ∧
      (b = true ↔ store_linearizable (kv_demo "1")).
Proof.
  split; [vm_compute; reflexivity|]. split; [vm_compute; reflexivity|].
  apply (CheckOperations_kv_store sort_entries (kv_demo "1")).
  - apply sort_entries_ok.
  - discriminate.
  - repeat constructor; discriminate.
Defined.

(** An empty history is not answered: the key-value model has no
    partition for it, and the receive loop of [checkParallel] then waits for a
    result that no goroutine will send. [CheckOperations] never returns, for
    any schedule and any number of iterations; with a timeout that fires the
    answer is Unknown. *)
Theorem CheckOperations_empty_blocks sort :
  (∀ sched fuel, CheckOperations sort KvF [] sched fuel = None) ∧
  ∀ order (timeout : positive) kill range fuel,
    CheckOperationsTimeout sort KvF [] (Z.pos timeout) (mkSchedule order (Some 0%nat) kill range) fuel = Some Unknown.
Proof.
  split.
  - intros [[|i order] timer kill range] fuel; done.
  - intros [|i order] timeout kill range fuel; done.
Qed.
