(* ===== verification/VisualizeThm.v ===== *)
(** * What the visualization shows

    The entries give back the operations, the partial linearizations of the
    checker can be replayed, and [Largest] names a longest one. *)
From S2P Require Import Prelude GoBase Bitset Porcupine PorcSpec PorcSearch PorcCheck Visualize.

(** What [sort.Slice] promises. *)
Definition slice_ok (sort_Slice : list (list Z) → list (list Z)) : Prop :=
  ∀ l, sort_Slice l ≡ₚ l ∧ StronglySorted (λ a b, (length b ≤ length a)%nat) (sort_Slice l).

Lemma alter_at_Some {A} (f : A → A) i (l : list A) :
  0 ≤ i < Z.of_nat (length l) → alter_at f i l = Some (alter f (Z.to_nat i) l).
Proof. intros Hi. by rewrite /alter_at bool_decide_true. Qed.

(** ** Largest *)

(** The first of the lists that contains [id]. *)
Definition first_with (id : Z) (ls : list (list Z)) : option (nat * list Z) := list_find (λ l, id ∈ l) ls.

Definition largest_ok (ls : list (list Z)) (lg : gmap Z Z * gmap Z Z) : Prop :=
  ∀ id, lg.1 !! id = (λ x, Z.of_nat x.1) <$> first_with id ls ∧
        lg.2 !! id = (λ x, Z.of_nat (length x.2)) <$> first_with id ls.

Lemma fold_note_largest i len l lg id :
  let lg' := foldl (note_largest i len) lg l in
  (lg'.1 !! id, lg'.2 !! id) =
    if decide (id ∈ l ∧ default 0 (lg.2 !! id) < len) then (Some i, Some len) else (lg.1 !! id, lg.2 !! id).
Proof.
  cbn zeta. revert lg. induction l as [|j l IH]; intros lg; cbn [foldl].
  { case_decide as H; [|done]. by destruct H as [?%elem_of_nil _]. }
  rewrite IH /note_largest. case_bool_decide as Hj; simpl.
  - destruct (decide (id = j)) as [->|Hne].
    + rewrite !lookup_insert_eq /= decide_False; [|lia]. rewrite decide_True //. split; [left|done].
    + rewrite !lookup_insert_ne //. apply decide_ext. rewrite elem_of_cons. tauto.
  - apply decide_ext. rewrite elem_of_cons. split; [tauto|]. intros [[->|?] ?]; [done|tauto].
Qed.

Lemma largest_ok_snoc ls l lg :
  largest_ok ls lg → (∀ l', l' ∈ ls → (length l ≤ length l')%nat) →
  largest_ok (ls ++ [l]) (foldl (note_largest (Z.of_nat (length ls)) (Z.of_nat (length l))) lg l).
Proof.
  intros Hlg Hlen id. destruct (Hlg id) as [H1 H2].
  pose proof (fold_note_largest (Z.of_nat (length ls)) (Z.of_nat (length l)) l lg id) as Hf. simpl in Hf.
  destruct (first_with id ls) as [[k x]|] eqn:Hw.
  - assert (x ∈ ls) as Hx by (apply list_find_Some in Hw as [? _]; by eapply list_elem_of_lookup_2).
    specialize (Hlen x Hx). rewrite decide_False in Hf; [|rewrite H2 /=; lia].
    rewrite /first_with (list_find_app_l _ _ _ _ _ Hw). injection Hf as -> ->. by rewrite H1 H2.
  - rewrite H2 /= in Hf. rewrite /first_with list_find_app_r // /=. destruct (decide (id ∈ l)) as [Hin|Hin]; simpl.
    + rewrite decide_True in Hf; [|split; [done|]; destruct l; [by apply elem_of_nil in Hin|simpl; lia]]. by injection Hf as -> ->.
    + rewrite decide_False in Hf; [|tauto]. injection Hf as -> ->. by rewrite H1.
Qed.

(** ** Replaying *)

Section replay.
Context {In Out State : Type} (model : FModel In Out State) (vs : @VState In Out).
Context (n : Z) (inp : Z → In) (outp : Z → Out).
Hypothesis Hvalues : ∀ i, 0 ≤ i < n →
  v_callValue vs !! i = Some (inl (inp i)) ∧ v_returnValue vs !! i = Some (inr (outp i)).

(** The states the model goes through. *)
Fixpoint states (s : State) (l : list Z) : list State :=
  match l with [] => [] | i :: l' => let s' := (stepf model inp outp s i).2 in s' :: states s' l' end.

Definition steps_of (l : list Z) : list linearizationStep :=
  zip_with mkStep l (f_DescribeState model <$> states (f_Init model) l).

Lemma replay_legal i len s lg l :
  Forall (λ j, 0 ≤ j < n) l → legal model inp outp s l →
  replay model vs i len s lg l =
    Some (zip_with mkStep l (f_DescribeState model <$> states s l), foldl (note_largest i len) lg l).
Proof.
  intros Hl. revert s lg. induction Hl as [|j l Hj _ IH]; intros s lg; simpl; [done|].
  intros [Hok Hleg]. destruct (Hvalues j Hj) as [-> ->]. simpl. rewrite /stepf in Hok.
  destruct (f_Step model s (inp j) (outp j)) as [ok s'] eqn:Hst. simpl in *. subst ok. simpl.
  rewrite /stepf Hst /= in Hleg |- *. by rewrite IH.
Qed.

Lemma replay_all_legal ls0 lg ls :
  largest_ok ls0 lg → StronglySorted (λ a b, (length b ≤ length a)%nat) (ls0 ++ ls) →
  Forall (λ l, Forall (λ j, 0 ≤ j < n) l ∧ legal model inp outp (f_Init model) l) ls →
  ∃ lg', replay_all model vs (Z.of_nat (length ls0)) lg ls = Some (steps_of <$> ls, lg') ∧ largest_ok (ls0 ++ ls) lg'.
Proof.
  intros Hlg Hs Hls. revert ls0 lg Hlg Hs.
  induction Hls as [|l ls [Hr Hleg] _ IH]; intros ls0 lg Hlg Hs; simpl.
  - exists lg. by rewrite app_nil_r.
  - rewrite replay_legal //. simpl.
    destruct (IH (ls0 ++ [l]) (foldl (note_largest (Z.of_nat (length ls0)) (Z.of_nat (length l))) lg l)) as (lg' & Hr' & Hlg').
    + apply largest_ok_snoc; [done|]. intros l' Hl'. apply list_elem_of_split in Hl' as (a & b & ->).
      rewrite -app_assoc /= in Hs. apply StronglySorted_app_1_r in Hs. apply StronglySorted_inv in Hs as [_ Hs].
      rewrite Forall_forall in Hs. apply Hs. set_solver.
    + by rewrite -app_assoc.
    + rewrite length_app /= Nat2Z.inj_add /= in Hr'. rewrite Hr' /=. exists lg'. rewrite -app_assoc /= in Hlg'. done.
Qed.
End replay.

(** ** The entries give back the operations *)

Section entries.
Context {In Out State : Type} (model : FModel In Out State).
Context (sort : list (entry In Out) → list (entry In Out)) (history : list (Operation In Out)).
Context (o0 : Operation In Out).
Hypotheses (Hsort : sort_ok sort) (Htimes : Forall (λ o, op_Call o ≤ op_Return o) history).

Notation n := (Z.of_nat (length history)).
Notation es := (makeEntries sort history).
Notation op := (op history o0).
Notation pos := (pos sort history).

Definition shown_op (o : Operation In Out) : historyElement :=
  mkHE (op_ClientId o) (op_Call o) (op_Return o) (f_DescribeOperation model (op_Input o) (op_Output o)).

(** What is known of operation [i] after the first [k] entries. *)
Definition shown (k : nat) (i : Z) : historyElement :=
  let called := decide (pos callEntry i < k)%nat in
  let returned := decide (pos returnEntry i < k)%nat in
  mkHE (if called then op_ClientId (op i) else 0) (if called then op_Call (op i) else 0)
    (if returned then op_Return (op i) else 0)
    (if returned then f_DescribeOperation model (op_Input (op i)) (op_Output (op i)) else "").

Definition visited_to (k : nat) (st : @VState In Out) : Prop :=
  length (v_history st) = length history ∧
  ∀ i, 0 ≤ i < n →
    v_history st !! Z.to_nat i = Some (shown k i) ∧
    v_callValue st !! i = (if decide (pos callEntry i < k)%nat then Some (inl (op_Input (op i))) else None) ∧
    v_returnValue st !! i = (if decide (pos returnEntry i < k)%nat then Some (inr (op_Output (op i))) else None).

Lemma pos_lt_S k kd i kd' j :
  es !! k = Some (entry_of history o0 kd i) → 0 ≤ i < n → 0 ≤ j < n →
  (pos kd' j < S k)%nat ↔ (pos kd' j < k)%nat ∨ (kd' = kd ∧ j = i).
Proof.
  intros Hk Hi Hj. pose proof (pos_lookup sort history o0 Hsort kd' j Hj) as Hp.
  assert (pos kd' j = k ↔ kd' = kd ∧ j = i) as Heq; [|rewrite -Heq; lia]. split.
  - intros <-. rewrite Hk in Hp. injection Hp as Hp.
    pose proof (f_equal e_kind Hp) as H1. pose proof (f_equal e_id Hp) as H2.
    rewrite !entry_of_kind !entry_of_id in H1 H2. done.
  - intros [-> ->]. eapply NoDup_lookup; [by eapply es_NoDup|exact Hp|done].
Qed.

(** Cases that contradict the positions. *)
Ltac solve_pos := first [done | exfalso; intuition congruence | exfalso; intuition lia].

Lemma visit_entry_ok k e st :
  es !! k = Some e → visited_to k st → ∃ st', visit_entry model st e = Some st' ∧ visited_to (S k) st'.
Proof.
  intros Hk [Hlen Hst].
  assert (e ∈ es) as (kd & i & Hi & ->)%(es_elem sort history o0 Hsort) by by eapply list_elem_of_lookup_2.
  pose proof (λ kd' j, pos_lt_S k kd i kd' j Hk Hi) as HS.
  assert (pos kd i = k) as Hpos.
  { eapply NoDup_lookup; [by eapply es_NoDup|by apply (pos_lookup sort history o0 Hsort)|done]. }
  assert (∀ f, alter_at f i (v_history st) = Some (alter f (Z.to_nat i) (v_history st))) as Halter
    by (intros f; apply alter_at_Some; lia).
  pose proof (hk_order _ _ _ _ _ _ (ops_history_ok sort history o0 Hsort Htimes) i Hi) as Hord. simpl in Hord.
  destruct (Hst i Hi) as (_ & Hc & _). rewrite /visit_entry entry_of_kind entry_of_id. destruct kd; simpl.
  - rewrite Halter. eexists. split; [done|]. split; [by rewrite length_alter|].
    intros j Hj. destruct (Hst j Hj) as (Hhj & Hcj & Hrj). rewrite /shown in Hhj |- *. simpl.
    pose proof (HS callEntry j Hj) as Sc. pose proof (HS returnEntry j Hj) as Sr.
    destruct (decide (j = i)) as [->|Hne].
    + rewrite list_lookup_alter Hhj /= lookup_insert_eq Hrj. repeat case_decide; solve_pos.
    + rewrite list_lookup_alter_ne; [|lia]. rewrite lookup_insert_ne // Hhj Hcj Hrj.
      repeat case_decide; solve_pos.
  - rewrite Hc decide_True; [|lia]. simpl. rewrite Halter. eexists. split; [done|]. split; [by rewrite length_alter|].
    intros j Hj. destruct (Hst j Hj) as (Hhj & Hcj & Hrj). rewrite /shown in Hhj |- *. simpl.
    pose proof (HS callEntry j Hj) as Sc. pose proof (HS returnEntry j Hj) as Sr.
    destruct (decide (j = i)) as [->|Hne].
    + rewrite list_lookup_alter Hhj /= lookup_insert_eq Hcj. repeat case_decide; solve_pos.
    + rewrite list_lookup_alter_ne; [|lia]. rewrite lookup_insert_ne // Hhj Hcj Hrj.
      repeat case_decide; solve_pos.
Qed.

Lemma visit_entries_ok k st :
  (k ≤ length es)%nat → visited_to k st →
  ∃ st', visit_entries model st (drop k es) = Some st' ∧ visited_to (length es) st'.
Proof.
  remember (length es - k)%nat as m eqn:Hm. revert k st Hm. induction m as [|m IH]; intros k st Hm Hk Hst.
  - exists st. rewrite drop_ge; [|lia]. by replace (length es) with k by lia.
  - destruct (lookup_lt_is_Some_2 es k) as [e He]; [lia|]. rewrite (drop_S _ _ _ He) /=.
    destruct (visit_entry_ok k e st He Hst) as (st1 & -> & Hst1). simpl. apply IH; [lia..|done].
Qed.

(** After all entries the history shows every operation. *)
Lemma visit_all :
  ∃ vs, visit_entries model (mkVState (replicate (length es `div` 2) zero_HE) ∅ ∅) es = Some vs ∧
    v_history vs = shown_op <$> history ∧
    ∀ i, 0 ≤ i < n → v_callValue vs !! i = Some (inl (op_Input (op i))) ∧
                     v_returnValue vs !! i = Some (inr (op_Output (op i))).
Proof.
  pose proof (hk_length _ _ _ _ _ _ (ops_history_ok sort history o0 Hsort Htimes)) as Hlen.
  assert (length es `div` 2 = length history)%nat as ->.
  { replace (length es) with (length history * 2)%nat by lia. by apply Nat.div_mul. }
  destruct (visit_entries_ok 0 (mkVState (replicate (length history) zero_HE) ∅ ∅)) as (vs & Hvs & Hl & Hall); [lia| |].
  { split; [by rewrite length_replicate|]. intros i Hi. rewrite /shown /=.
    rewrite lookup_replicate_2; [|lia]. by rewrite !lookup_empty. }
  exists vs. rewrite drop_0 in Hvs. split; [done|].
  assert (∀ kd i, 0 ≤ i < n → (pos kd i < length es)%nat) as Hpos.
  { intros kd i Hi. eapply lookup_lt_Some. by apply (pos_lookup sort history o0 Hsort). }
  split.
  - apply list_eq. intros k. rewrite list_lookup_fmap.
    destruct (decide (k < length history)%nat) as [Hk|Hk].
    + destruct (Hall (Z.of_nat k)) as [Hh _]; [lia|]. rewrite Nat2Z.id in Hh. rewrite Hh.
      pose proof (op_lookup history o0 (Z.of_nat k) ltac:(lia)) as Hop. rewrite Nat2Z.id in Hop. rewrite Hop /=.
      rewrite /shown. by rewrite !decide_True; [|apply Hpos; lia..].
    + rewrite !(proj2 (lookup_ge_None _ _)) //; lia.
  - intros i Hi. destruct (Hall i Hi) as (_ & -> & ->). by rewrite !decide_True; [|apply Hpos; lia..].
Qed.
End entries.

(** ** The specification *)

Section spec.
Context {In Out State : Type} (model : FModel In Out State).
Implicit Types (part : list (Operation In Out)) (d : partitionVisualizationData).

Fixpoint run_ops (s : State) (ops : list (Operation In Out)) : list State :=
  match ops with
  | [] => []
  | o :: ops' => let s' := (f_Step model s (op_Input o) (op_Output o)).2 in s' :: run_ops s' ops'
  end.

(** The operations a list of steps stands for, in that order. *)
Definition steps_ops part (steps : list linearizationStep) : option (list (Operation In Out)) :=
  mapM (λ i, part !! Z.to_nat i) (ls_Index <$> steps).

Record displays part d : Prop := {
  d_history : pv_History d = shown_op model <$> part;
  d_partial : ∀ steps, steps ∈ pv_PartialLinearizations d → ∃ ops,
    steps_ops part steps = Some ops ∧ NoDup (ls_Index <$> steps) ∧
    ops_legal model (f_Init model) ops ∧ StronglySorted (λ a b, ¬ op_Return b < op_Call a) ops ∧
    ls_StateDescription <$> steps = f_DescribeState model <$> run_ops (f_Init model) ops ∧
    (linearizable model part → ops ≡ₚ part);
  d_largest : ∀ id k, pv_Largest d !! id = Some k → ∃ steps,
    pv_PartialLinearizations d !! Z.to_nat k = Some steps ∧ id ∈ ls_Index <$> steps ∧
    ∀ steps', steps' ∈ pv_PartialLinearizations d → id ∈ ls_Index <$> steps' → (length steps' ≤ length steps)%nat;
  d_largest_all : ∀ id steps, steps ∈ pv_PartialLinearizations d → id ∈ ls_Index <$> steps →
    is_Some (pv_Largest d !! id);
}.

Context (sort : list (entry In Out) → list (entry In Out)) (sort_Slice : list (list Z) → list (list Z)).
Hypotheses (Hsort : sort_ok sort) (Hslice : slice_ok sort_Slice) (HEq : EqualOk model).

(** A result does not change with more fuel. *)
Lemma check_loop_mono cp kill head fuel fuel' st o :
  check_loop model cp kill head fuel st = Some o → (fuel ≤ fuel')%nat →
  check_loop model cp kill head fuel' st = Some o.
Proof.
  revert fuel' kill st. induction fuel as [|fuel IH]; intros [|fuel'] kill st Hrun Hf; [done..|lia|].
  simpl in *. destruct (check_iter _ _ _ _ _); [|done..]. apply IH; [done|lia].
Qed.

Lemma checkSingle_det history kill fuel m ok lng ok' lng' :
  (∀ k, kill k = false) →
  (∀ fuel, (m ≤ fuel)%nat → checkSingle model history true (λ _, false) fuel = Some (Returned ok lng)) →
  checkSingle model history true kill fuel = Some (Returned ok' lng') → ok' = ok ∧ lng' = lng.
Proof.
  rewrite /checkSingle. destruct (check_start model history) as [hd st]. intros Hkill Hm Hrun.
  rewrite (check_loop_ext _ _ _ (λ _, false)) // in Hrun.
  apply (check_loop_mono _ _ _ _ (max m fuel)) in Hrun; [|lia]. rewrite Hm in Hrun; [|lia]. by simplify_eq.
Qed.

Section partition.
Context (history : list (Operation In Out)) (o0 : Operation In Out).
Hypothesis Htimes : Forall (λ o, op_Call o ≤ op_Return o) history.
Notation n := (Z.of_nat (length history)).
Notation op := (op history o0).
Notation inp := (λ i, op_Input (op i)).
Notation outp := (λ i, op_Output (op i)).

Lemma states_ops s l : states model inp outp s l = run_ops s (op <$> l).
Proof. revert s. induction l as [|i l IH]; intros s; [done|]. csimpl. by rewrite IH. Qed.

Lemma length_states s l : length (states model inp outp s l) = length l.
Proof. revert s. induction l as [|i l IH]; intros s; [done|]. simpl. by rewrite IH. Qed.

Lemma steps_of_Index l : ls_Index <$> steps_of model inp outp l = l.
Proof.
  rewrite /steps_of fmap_zip_with_l //. rewrite length_fmap length_states //.
Qed.

Lemma steps_of_ops l : Forall (λ i, 0 ≤ i < n) l → steps_ops history (steps_of model inp outp l) = Some (op <$> l).
Proof.
  intros Hl. rewrite /steps_ops steps_of_Index. induction Hl as [|i l Hi _ IH]; [done|]. csimpl.
  by rewrite (op_lookup history o0) // /= IH.
Qed.

Lemma partial_range l : partial model n (pos sort history callEntry) (pos sort history returnEntry) inp outp l →
  Forall (λ i, 0 ≤ i < n) l ∧ legal model inp outp (f_Init model) l ∧ NoDup l ∧
  StronglySorted (λ a b, ¬ op_Return b < op_Call a) (op <$> l).
Proof.
  intros (X & s & Hp). destruct (path_elem _ _ _ _ _ _ _ _ _ _ _ Hp) as (Hnd & _ & Hr).
  destruct (path_legal _ _ _ _ _ _ _ _ _ _ _ Hp) as [Hl Hs].
  assert (∀ i, i ∈ l → 0 ≤ i < n) as Hr' by (intros i Hi; by apply Hr).
  split_and!; [by apply Forall_forall|done|done|]. apply StronglySorted_fmap_iff.
  eapply StronglySorted_impl_in; [|exact Hs]. intros a b Ha%Hr' Hb%Hr' Hn Hlt. apply Hn.
  by apply (pos_precedes sort history o0).
Qed.

(** One partition, from the orders its goroutine has recorded. *)
Lemma computePartition_displays kill fuel ok lng ps :
  (∀ k, kill k = false) →
  checkSingle model (makeEntries sort history) true kill fuel = Some (Returned ok lng) →
  (∀ l, l ∈ ps → ∃ k q, lng !! k = Some (Some (q, l))) →
  ∃ d, computePartition model sort_Slice (makeEntries sort history) ps = Some d ∧ displays history d.
Proof.
  intros Hkill Hrun Hps.
  pose proof (ops_history_ok sort history o0 Hsort Htimes) as Hok.
  destruct (checkSingle_result model _ _ _ _ _ _ Hok true HEq) as (m & ok' & lng' & Hm & Hiff & [_ Hlng] & Hlin).
  destruct (checkSingle_det _ _ _ _ _ _ _ _ Hkill Hm Hrun) as [-> ->].
  destruct (visit_all model sort history o0 Hsort Htimes) as (vs & Hvs & Hhist & Hvals).
  destruct (Hslice ps) as [Hperm Hsorted]. set (ls := sort_Slice ps) in *.
  assert (∀ l, l ∈ ls → Forall (λ i, 0 ≤ i < n) l ∧ legal model inp outp (f_Init model) l ∧ NoDup l ∧
    StronglySorted (λ a b, ¬ op_Return b < op_Call a) (op <$> l) ∧ (linearizable model history → op <$> l ≡ₚ history)) as Hls.
  { intros l Hl. rewrite Hperm in Hl. destruct (Hps l Hl) as (k & q & Hk).
    destruct (partial_range l (Hlng k q l Hk)) as (? & ? & ? & ?). split_and!; [done..|].
    intros Hlz. rewrite -(linearization_ops sort history o0) // -Hiff in Hlz.
    destruct (Hlin Hlz k q l Hk) as [Hp _]. rewrite Hp -(history_ops history o0) //. }
  destruct (replay_all_legal model vs n inp outp Hvals [] (∅, ∅) ls) as ([li lz] & Hrep & Hlg); [|done| |].
  { intros id. by rewrite !lookup_empty. }
  { apply Forall_forall. intros l (? & ? & _)%Hls. done. }
  rewrite /computePartition Hvs /= -/ls Hrep /=. eexists. split; [done|].
  assert (∀ steps, steps ∈ steps_of model inp outp <$> ls → ∃ l, l ∈ ls ∧ steps = steps_of model inp outp l) as Hin.
  { intros steps (l & -> & ?)%list_elem_of_fmap. eauto. }
  assert (∀ l, length (steps_of model inp outp l) = length l) as Hlen.
  { intros l. rewrite -{2}(steps_of_Index l) length_fmap //. }
  split; simpl; [done|..].
  - intros steps (l & Hl & ->)%Hin. destruct (Hls l Hl) as (H1 & H2 & H3 & H4 & H5). exists (op <$> l).
    rewrite steps_of_ops // steps_of_Index. split_and!; [done|done|by apply legal_ops|done| |done].
    rewrite /steps_of fmap_zip_with_r; [by rewrite states_ops|done|by rewrite length_fmap length_states].
  - intros id k Hk. destruct (Hlg id) as [H1 _]. simpl in H1. rewrite H1 in Hk.
    destruct (first_with id ls) as [[j l]|] eqn:Hw; [|done]. simplify_eq/=. apply list_find_Some in Hw as (Hj & Hid & Hmin).
    exists (steps_of model inp outp l). rewrite Nat2Z.id list_lookup_fmap Hj steps_of_Index. split_and!; [done|done|].
    intros steps' (l' & Hl' & ->)%Hin Hid'. rewrite steps_of_Index in Hid'. rewrite !Hlen.
    apply list_elem_of_lookup in Hl' as [j' Hj']. destruct (decide (j' = j)) as [->|Hne]; [by simplify_eq|].
    destruct (decide (j' < j)%nat) as [?|?]; [by destruct (Hmin j' l' Hj')|].
    eapply (StronglySorted_lookup_lt _ _ _ _ _ _ Hsorted Hj Hj'). lia.
  - intros id steps (l & Hl & ->)%Hin Hid. rewrite steps_of_Index in Hid. destruct (Hlg id) as [H1 _]. simpl in H1.
    rewrite H1 fmap_is_Some. by eapply list_find_elem_of.
Qed.
End partition.
End spec.

(** ** A whole check *)

Lemma mapM_exists {A B} (f : A → option B) (Q : nat → B → Prop) (l : list A) :
  (∀ i x, l !! i = Some x → ∃ y, f x = Some y ∧ Q i y) →
  ∃ ys, mapM f l = Some ys ∧ length ys = length l ∧ ∀ i y, ys !! i = Some y → Q i y.
Proof.
  revert Q. induction l as [|x l IH]; intros Q Hl; simpl; [by exists []|].
  destruct (Hl 0%nat x eq_refl) as (y & -> & Hy). simpl.
  destruct (IH (λ i, Q (S i))) as (ys & -> & Hlen & Hys); [intros i; by apply (Hl (S i))|].
  exists (y :: ys). simpl. split_and!; [done|lia|]. intros [|i] y' ?; simplify_eq/=; [done|by apply Hys].
Qed.

(** A partition without operations. *)
Lemma computePartition_empty {In Out State} (model : FModel In Out State) sort sort_Slice :
  sort_ok sort → slice_ok sort_Slice →
  ∃ d, computePartition model sort_Slice (makeEntries sort []) [] = Some d ∧ displays model [] d.
Proof.
  intros Hsort Hslice. rewrite /computePartition.
  assert (makeEntries sort [] = []) as -> by apply Permutation_nil_r, Hsort. simpl.
  assert (sort_Slice [] = []) as -> by apply Permutation_nil_r, Hslice. simpl.
  eexists. split; [done|]. split; simpl; [done|by intros ? ?%elem_of_nil|by intros ? ?; rewrite lookup_empty|].
  by intros ? ? ?%elem_of_nil.
Qed.

Section check.
Context {In Out State : Type} (model : FModel In Out State).
Context (sort : list (entry In Out) → list (entry In Out)) (sort_Slice : list (list Z) → list (list Z)).
Hypotheses (Hsort : sort_ok sort) (Hslice : slice_ok sort_Slice) (HEq : EqualOk model).

(** What the goroutine of a partition records can be shown. *)
Lemma goroutine_displays (parts : list (list (Operation In Out))) fuel sched i part ok lng :
  Forall (Forall (λ o, op_Call o ≤ op_Return o)) parts → (∀ l, sc_range sched l ≡ₚ l) →
  (∀ k, sc_kill sched i k = false) → parts !! i = Some part →
  goroutine model (makeEntries sort <$> parts) true fuel sched i = Some (ok, lng) →
  ∃ d, computePartition model sort_Slice (makeEntries sort part) (partials sched lng) = Some d ∧ displays model part d.
Proof.
  intros Htimes Hrange Hkill Hi. rewrite /goroutine list_lookup_fmap Hi /=. intros Hg.
  destruct (checkSingle _ _ _ _ _) as [[|? ?|]|] eqn:Hrun; simplify_eq/=.
  assert (∀ l, l ∈ partials sched lng → ∃ k q, lng !! k = Some (Some (q, l))) as Hps.
  { intros l. rewrite /partials list_elem_of_fmap. intros ([q l'] & -> & Hin). rewrite Hrange in Hin.
    apply elem_of_remove_dups, list_elem_of_omap in Hin as (v & Hv & ->). apply list_elem_of_lookup in Hv as [k Hk].
    by exists k, q. }
  destruct part as [|o0 part'].
  - assert (partials sched lng = []) as ->; [|by apply computePartition_empty].
    assert (makeEntries sort [] = []) as Hnil by apply Permutation_nil_r, Hsort. rewrite Hnil in Hrun.
    destruct fuel; [done|].
    assert (checkSingle model [] true (sc_kill sched i) (S fuel) = Some (Returned true [])) as Hone by reflexivity.
    rewrite Hone in Hrun. simplify_eq.
    apply Permutation_nil_r. by rewrite /partials /= Hrange.
  - eapply (computePartition_displays model sort sort_Slice Hsort Hslice HEq (o0 :: part') o0); [|exact Hkill|done|done].
    by eapply Forall_lookup_1.
Qed.
End check.

(** C28: The visualization never panics on the checker's own results. Take any
    history of operations (each returning no earlier than it was called in every
    partition) and a verbose check of it that was not cut off. Replaying the
    partial linearizations the check has recorded never meets a step the model
    refuses; for each partition the result shows every operation with its
    client, times and description, each partial linearization as distinct
    operations in an order that is legal and respects real time, with the states
    the model goes through (all operations, if the partition is linearizable),
    and under [Largest] a longest partial linearization for every operation that
    occurs in one. *)
Theorem visualization_replays {In Out State} sort sort_Slice (model : FModel In Out State) history timeout sched fuel
    r info :
  sort_ok sort → slice_ok sort_Slice → EqualOk model →
  Forall (Forall (λ o, op_Call o ≤ op_Return o)) (f_Partition model history) →
  sched_ok model (makeEntries sort <$> f_Partition model history) true fuel sched →
  (∀ l, sc_range sched l ≡ₚ l) →
  CheckOperationsVerbose sort model history timeout sched fuel = Some (r, info) →
  ∃ data, computeVisualizationData model sort_Slice info = Some data ∧
    Forall2 (displays model) (f_Partition model history) data.
Proof.
  intros Hsort Hslice HEq Htimes [Hord Hkill] Hrange. set (parts := f_Partition model history) in *.
  rewrite /CheckOperationsVerbose /checkOperations /checkParallel -/parts.
  destruct (receive _ _ _ _ _ _ _) as [[ok to]|]; [|done]. cbn [mbind option_bind].
  destruct (mapM _ _) as [longest|] eqn:Hl; [|done]. cbn [mbind option_bind]. intros [= _ <-].
  assert (∀ i k, (i < length parts)%nat → sc_kill sched i k = false) as Hk.
  { intros i k Hi. assert (i ∈ sc_order sched) as Hin by (rewrite Hord elem_of_seq length_fmap; lia).
    apply list_elem_of_split in Hin as (o1 & o2 & Ho). by apply (Hkill o1 i o2 Ho); left. }
  rewrite /computeVisualizationData /=.
  destruct (mapM_exists (λ p : nat * list (entry In Out),
      ps ← (partials sched <$> longest) !! p.1; computePartition model sort_Slice p.2 ps)
    (λ i d, ∃ part, parts !! i = Some part ∧ displays model part d) (imap pair (makeEntries sort <$> parts)))
    as (data & Hdata & Hlen & Hd).
  - intros i x. rewrite list_lookup_imap list_lookup_fmap. destruct (parts !! i) as [part|] eqn:Hi; [|done].
    intros [= <-]. simpl. apply mapM_Some in Hl. pose proof (lookup_lt_Some _ _ _ Hi) as Hlt.
    assert (seq 0 (length (makeEntries sort <$> parts)) !! i = Some i) as Hseq
      by (apply lookup_seq; rewrite length_fmap; lia).
    destruct (Forall2_lookup_l _ _ _ _ _ Hl Hseq) as (lng & Hlng & Hg). rewrite list_lookup_fmap Hlng /=.
    destruct (goroutine _ _ _ _ _ _) as [[ok' l]|] eqn:Hgo; [|done]. simplify_eq/=.
    destruct (goroutine_displays model sort sort_Slice Hsort Hslice HEq parts fuel sched i part ok' lng)
      as (d & Hc & ?); [done..|by intros k; apply Hk|done|done|]. exists d. split; [exact Hc|]. by exists part.
  - exists data. split; [done|]. apply Forall2_same_length_lookup. rewrite length_imap length_fmap in Hlen.
    split; [done|]. intros i part d Hi (part' & ? & ?)%Hd. by simplify_eq.
Qed.

Definition no_shorter (a b : list Z) : Prop := (length b ≤ length a)%nat.

#[global] Instance no_shorter_dec a b : Decision (no_shorter a b).
Proof. unfold no_shorter. apply _. Defined.

Definition sort_lengths : list (list Z) → list (list Z) := merge_sort no_shorter.

Lemma sort_lengths_ok : slice_ok sort_lengths.
Proof.
  assert (Transitive no_shorter) by (unfold no_shorter; intros a b c ? ?; lia).
  assert (Total no_shorter) by (unfold no_shorter; intros a b; lia).
  intros l. split; [apply merge_sort_Permutation|by apply (StronglySorted_merge_sort no_shorter)].
Qed.

(** The register of [PorcCheck]: a write of 1 and a read that returned 1. *)
Lemma visualization_replays_witness :
  ∃ r info data, CheckOperationsVerbose sort_entries register (register_history 1) 0 (calm 1) 100 = Some (r, info) ∧
    r = Ok ∧ computeVisualizationData register sort_lengths info = Some data ∧
    Forall2 (displays register) [register_history 1] data.
Proof.
  destruct (CheckOperationsVerbose sort_entries register (register_history 1) 0 (calm 1) 100) as [[r info]|] eqn:E;
    [|by vm_compute in E].
  assert (r = Ok) as -> by (by vm_compute in E; simplify_eq).
  destruct (visualization_replays sort_entries sort_lengths register
    (register_history 1) 0 (calm 1) 100 Ok info) as (data & Hdata & Hall).
  - apply sort_entries_ok.
  - apply sort_lengths_ok.
  - apply register_EqualOk.
  - repeat constructor; discriminate.
  - apply calm_ok.
  - done.
  - exact E.
  - exists Ok, info, data. split_and!; [reflexivity|reflexivity|exact Hdata|exact Hall].
Defined.
