(* ===== verification/LabRpc.v ===== *)
(** * The simulated network of Lab 2

    Models [labrpc/labrpc.go]: the tables of [Network] and the operations on
    them, [Server] and [Service] dispatch, and the life of a request through
    the goroutine [processReq] as a step relation, interleaved with other
    requests and with changes of the network (servers killed, ends disabled).
    Random choices (dropping, delaying) are nondeterministic. Names of ends and
    servers, Go values of type [interface{}], are of a countable type; a server
    object is identified by its address. What a handler does is a function on
    the state of its receiver, [A]; gob encoding is part of it. *)
From S2P Require Import Prelude GoBase.

Section rpc.
Context `{Countable Name} {A : Type}.

(** ** Services and servers *)

(** A method as [reflect] shows it. *)
Record Method := mkMethod {
  m_Name : string;
  m_PkgPath : string;        (* empty for an exported method *)
  m_NumIn : Z;
  m_In2Ptr : bool;           (* is the third parameter a pointer? *)
  m_NumOut : Z;
  m_Func : string → A → A * string;
}.

Record Service := mkService { svc_name : string; svc_methods : gmap string Method }.

Definition suitable (m : Method) : bool :=
  negb (negb (bool_decide (m_PkgPath m = "")) || negb (bool_decide (m_NumIn m = 3)) ||
        negb (m_In2Ptr m) || negb (bool_decide (m_NumOut m = 0))).

Definition MakeService (name : string) (typ : list Method) : Service :=
  mkService name (foldl (λ ms m, if suitable m then <[m_Name m := m]> ms else ms) ∅ typ).

(** The receiver is called and its reply encoded; [None] is [log.Fatalf]. *)
Definition Service_dispatch (svc : Service) (methname args : string) (a : A) : option (A * string) :=
  m ← svc_methods svc !! methname; Some (m_Func m args a).

Record Server := mkServer {
  rs_services : gmap string Service;
  rs_count : Z;
  rs_state : A;
  rs_log : list nat;          (* the requests executed so far, oldest first *)
}.

Definition MakeServer (a : A) : Server := mkServer ∅ 0 a [].

Definition AddService (svc : Service) (rs : Server) : Server :=
  mkServer (<[svc_name svc := svc]> (rs_services rs)) (rs_count rs) (rs_state rs) (rs_log rs).

(** [s[:dot]] and [s[dot+1:]] for the last dot; slicing at -1 panics. *)
Definition split_method (svcMeth : string) : option (string * string) :=
  let dot := LastIndexByte svcMeth "." in
  if bool_decide (dot < 0) then None
  else Some (str_of_list (take (Z.to_nat dot) (str_to_list svcMeth)),
             str_of_list (drop (Z.to_nat dot + 1) (str_to_list svcMeth))).

Definition Server_dispatch (rs : Server) (rid : nat) (svcMeth args : string) : option (Server * string) :=
  '(serviceName, methodName) ← split_method svcMeth;
  service ← rs_services rs !! serviceName;
  '(a, reply) ← Service_dispatch service methodName args (rs_state rs);
  Some (mkServer (rs_services rs) (rs_count rs + 1) a (rs_log rs ++ [rid]), reply).

(** ** The network *)

Record Network := mkNetwork {
  reliable : bool;
  longDelays : bool;
  longReordering : bool;
  ends : gset Name;
  enabled : gmap Name bool;
  servers : gmap Name (option nat);      (* server objects by address, [None] is nil *)
  connections : gmap Name (option Name);
  count : Z;
  bytes : Z;
}.

Definition MakeNetwork : Network := mkNetwork true false false ∅ ∅ ∅ ∅ 0 0.

Definition set_flags (r d o : bool) (rn : Network) : Network :=
  mkNetwork r d o (ends rn) (enabled rn) (servers rn) (connections rn) (count rn) (bytes rn).
Definition Reliable (yes : bool) (rn : Network) : Network := set_flags yes (longDelays rn) (longReordering rn) rn.
Definition LongReordering (yes : bool) (rn : Network) : Network := set_flags (reliable rn) (longDelays rn) yes rn.
Definition LongDelays (yes : bool) (rn : Network) : Network := set_flags (reliable rn) yes (longReordering rn) rn.

Definition set_servers (f : gmap Name (option nat) → gmap Name (option nat)) (rn : Network) : Network :=
  mkNetwork (reliable rn) (longDelays rn) (longReordering rn) (ends rn) (enabled rn)
    (f (servers rn)) (connections rn) (count rn) (bytes rn).
Definition AddServer (servername : Name) (rs : nat) : Network → Network := set_servers <[servername := Some rs]>.
Definition DeleteServer (servername : Name) : Network → Network := set_servers <[servername := None]>.

(** [None] is [log.Fatalf]: the end exists already. *)
Definition MakeEnd (endname : Name) (rn : Network) : option Network :=
  if bool_decide (endname ∈ ends rn) then None else
  Some (mkNetwork (reliable rn) (longDelays rn) (longReordering rn) ({[endname]} ∪ ends rn)
          (<[endname := false]> (enabled rn)) (servers rn) (<[endname := None]> (connections rn))
          (count rn) (bytes rn)).

Definition Connect (endname servername : Name) (rn : Network) : Network :=
  mkNetwork (reliable rn) (longDelays rn) (longReordering rn) (ends rn) (enabled rn) (servers rn)
    (<[endname := Some servername]> (connections rn)) (count rn) (bytes rn).

Definition Enable (endname : Name) (yes : bool) (rn : Network) : Network :=
  mkNetwork (reliable rn) (longDelays rn) (longReordering rn) (ends rn) (<[endname := yes]> (enabled rn))
    (servers rn) (connections rn) (count rn) (bytes rn).

(** [atomic.AddInt32] and [atomic.AddInt64] *)
Definition add_traffic (c b : Z) (rn : Network) : Network :=
  mkNetwork (reliable rn) (longDelays rn) (longReordering rn) (ends rn) (enabled rn) (servers rn)
    (connections rn) ((count rn + c + 2 ^ 31) mod 2 ^ 32 - 2 ^ 31) (wrap_i64 (bytes rn + b)).

Definition Server_GetCount (rs : Server) : Z := rs_count rs.

(** [GetCount]: the number of RPCs of a server, [None] for a nil server. *)
Definition GetCount (servername : Name) (objs : gmap nat Server) (rn : Network) : option Z :=
  sid ← default None (servers rn !! servername); rs ← objs !! sid; Some (Server_GetCount rs).
Definition GetTotalCount (rn : Network) : Z := count rn.
Definition GetTotalBytes (rn : Network) : Z := bytes rn.

(** A missing key reads as the zero value, [false] or nil. *)
Definition readEndnameInfo (endname : Name) (rn : Network) : bool * option Name * option nat * bool * bool :=
  let servername := default None (connections rn !! endname) in
  let server := sn ← servername; default None (servers rn !! sn) in
  (default false (enabled rn !! endname), servername, server, reliable rn, longReordering rn).

Definition isServerDead (endname servername : Name) (server : nat) (rn : Network) : bool :=
  bool_decide (default false (enabled rn !! endname) = false) ||
  negb (bool_decide (default None (servers rn !! servername) = Some server)).

(** ** The life of a request *)

(** What [processReq] read when it chose the server. *)
Record Route := mkRoute { rt_name : Name; rt_server : nat; rt_reliable : bool; rt_reorder : bool }.

Inductive Pc :=
  | Queued                              (* handed to the network *)
  | Started                             (* the goroutine processReq runs *)
  | Failing                             (* nobody to deliver to: a failure is scheduled *)
  | Chosen (r : Route)                  (* a server was found *)
  | Waiting (r : Route)                 (* the handler goroutine is started *)
  | HandlerDone (reply : string) (r : Route)
  | Abandoned (r : Route)               (* the server died while waiting *)
  | Delayed (reply : string)            (* the reply is scheduled *)
  | Answered (ok : bool) (reply : string).

(** The goroutine that runs the handler; [live] is whether the server was
    still registered under its name when the handler ran. *)
Inductive Handler := NotSpawned | Spawned (r : Route) | Ran (r : Route) (live : bool) (reply : string).

Record Req := mkReq {
  rq_end : Name; rq_meth : string; rq_args : string; rq_pc : Pc; rq_handler : Handler;
}.

Definition set_pc (pc : Pc) (q : Req) : Req := mkReq (rq_end q) (rq_meth q) (rq_args q) pc (rq_handler q).
Definition set_handler (hd : Handler) (q : Req) : Req := mkReq (rq_end q) (rq_meth q) (rq_args q) (rq_pc q) hd.

Record RpcState := mkRpc { net : Network; objs : gmap nat Server; reqs : gmap nat Req }.

Definition registered (rn : Network) (r : Route) : bool :=
  bool_decide (default None (servers rn !! rt_name r) = Some (rt_server r)).

(** One step of [processReq] and what it does to the network's counters. *)
Inductive pc_step (rn : Network) (q : Req) : Network → Req → Prop :=
| step_accept :
    rq_pc q = Queued → pc_step rn q (add_traffic 1 (slen (rq_args q)) rn) (set_pc Started q)
| step_no_route en sn sv rel ord :
    rq_pc q = Started → readEndnameInfo (rq_end q) rn = (en, sn, sv, rel, ord) →
    en = false ∨ sn = None ∨ sv = None → pc_step rn q rn (set_pc Failing q)
| step_route sn sv rel ord :
    rq_pc q = Started → readEndnameInfo (rq_end q) rn = (true, Some sn, Some sv, rel, ord) →
    pc_step rn q rn (set_pc (Chosen (mkRoute sn sv rel ord)) q)
| step_drop_request r :
    rq_pc q = Chosen r → rt_reliable r = false → pc_step rn q rn (set_pc (Answered false "") q)
| step_spawn r :
    rq_pc q = Chosen r → pc_step rn q rn (set_handler (Spawned r) (set_pc (Waiting r) q))
| step_receive r live reply :
    rq_pc q = Waiting r → rq_handler q = Ran r live reply → pc_step rn q rn (set_pc (HandlerDone reply r) q)
| step_poll_dead r :
    rq_pc q = Waiting r → isServerDead (rq_end q) (rt_name r) (rt_server r) rn = true →
    pc_step rn q rn (set_pc (Abandoned r) q)
| step_abandon r :
    rq_pc q = Abandoned r → pc_step rn q rn (set_pc (Answered false "") q)
| step_dead reply r :
    rq_pc q = HandlerDone reply r → isServerDead (rq_end q) (rt_name r) (rt_server r) rn = true →
    pc_step rn q rn (set_pc (Answered false "") q)
| step_drop_reply reply r :
    rq_pc q = HandlerDone reply r → isServerDead (rq_end q) (rt_name r) (rt_server r) rn = false →
    rt_reliable r = false → pc_step rn q rn (set_pc (Answered false "") q)
| step_delay reply r :
    rq_pc q = HandlerDone reply r → isServerDead (rq_end q) (rt_name r) (rt_server r) rn = false →
    rt_reorder r = true → pc_step rn q rn (set_pc (Delayed reply) q)
| step_reply reply r :
    rq_pc q = HandlerDone reply r → isServerDead (rq_end q) (rt_name r) (rt_server r) rn = false →
    pc_step rn q (add_traffic 0 (slen reply) rn) (set_pc (Answered true reply) q)
| step_delayed reply :
    rq_pc q = Delayed reply → pc_step rn q (add_traffic 0 (slen reply) rn) (set_pc (Answered true reply) q)
| step_fail :
    rq_pc q = Failing → pc_step rn q rn (set_pc (Answered false "") q).

(** Steps of requests: of [processReq], or of the handler goroutine. *)
Inductive req_step : RpcState → RpcState → Prop :=
| step_pc rn rn' os rs i q q' :
    rs !! i = Some q → pc_step rn q rn' q' → req_step (mkRpc rn os rs) (mkRpc rn' os (<[i := q']> rs))
| step_handler rn os rs i q r rsv rsv' reply :
    rs !! i = Some q → rq_handler q = Spawned r → os !! rt_server r = Some rsv →
    Server_dispatch rsv i (rq_meth q) (rq_args q) = Some (rsv', reply) →
    req_step (mkRpc rn os rs)
      (mkRpc rn (<[rt_server r := rsv']> os) (<[i := set_handler (Ran r (registered rn r) reply) q]> rs)).

(** Steps of the environment: new calls, and changes of the network. A
    server object is made for one registration, as the test configurations
    do. *)
Inductive env_step : RpcState → RpcState → Prop :=
| step_Call rn os rs i endname svcMeth args :
    rs !! i = None →
    env_step (mkRpc rn os rs) (mkRpc rn os (<[i := mkReq endname svcMeth args Queued NotSpawned]> rs))
| step_flags r d o rn os rs : env_step (mkRpc rn os rs) (mkRpc (set_flags r d o rn) os rs)
| step_AddServer rn os rs sn sid svcs a :
    os !! sid = None →
    env_step (mkRpc rn os rs)
      (mkRpc (AddServer sn sid rn) (<[sid := foldr AddService (MakeServer a) svcs]> os) rs)
| step_DeleteServer rn os rs sn : env_step (mkRpc rn os rs) (mkRpc (DeleteServer sn rn) os rs)
| step_MakeEnd rn rn' os rs e : MakeEnd e rn = Some rn' → env_step (mkRpc rn os rs) (mkRpc rn' os rs)
| step_Connect rn os rs e sn : env_step (mkRpc rn os rs) (mkRpc (Connect e sn rn) os rs)
| step_Enable rn os rs e yes : env_step (mkRpc rn os rs) (mkRpc (Enable e yes rn) os rs).

Definition rpc_step (s s' : RpcState) : Prop := req_step s s' ∨ env_step s s'.

Definition init_rpc : RpcState := mkRpc MakeNetwork ∅ ∅.

(** ** The invariant *)

(** How often request [i] was executed by a server object. *)
Definition executions (i : nat) (rs : Server) : nat := length (filter (λ j, j = i) (rs_log rs)).

Definition ran_on (q : option Req) (sid : nat) : nat :=
  match q with
  | Some q => match rq_handler q with Ran r _ _ => if decide (rt_server r = sid) then 1%nat else 0%nat | _ => 0%nat end
  | None => 0%nat
  end.

(** What the program counter of [processReq] says about the handler. *)
Definition req_ok (q : Req) : Prop :=
  match rq_pc q with
  | Queued | Started | Failing | Chosen _ => rq_handler q = NotSpawned
  | Waiting r => rq_handler q = Spawned r ∨ ∃ live reply, rq_handler q = Ran r live reply
  | HandlerDone reply r => ∃ live, rq_handler q = Ran r live reply
  | Delayed reply | Answered true reply => ∃ r, rq_handler q = Ran r true reply
  | Abandoned _ | Answered false _ => True
  end.

Record rpc_inv (s : RpcState) : Prop := {
  ri_logs : ∀ i sid rs, objs s !! sid = Some rs → executions i rs = ran_on (reqs s !! i) sid;
  ri_reqs : ∀ i q, reqs s !! i = Some q → req_ok q;
  ri_server : ∀ i q r, reqs s !! i = Some q →
    (rq_handler q = Spawned r ∨ rq_pc q = Chosen r ∨ ∃ live reply, rq_handler q = Ran r live reply) →
    is_Some (objs s !! rt_server r);
  ri_registered : ∀ sn sid, servers (net s) !! sn = Some (Some sid) → is_Some (objs s !! sid);
  ri_gone : ∀ i q r reply, reqs s !! i = Some q → rq_handler q = Ran r false reply → registered (net s) r = false;
}.
End rpc.
