(* ===== verification/LabRpcThm.v ===== *)
(** * Replies of the simulated network can be trusted

    Theorems on [LabRpc]: a request is executed at most once, a positive reply
    is the result of exactly one execution on a server that was still
    registered, and a reliable network delivers. *)
From S2P Require Import Prelude GoBase LabRpc.

Section rpc.
Context `{Countable Name} {A : Type}.
Notation RpcState := (@RpcState Name _ _ A).
Notation Network := (@Network Name _ _).
Notation Req := (@Req Name).
Implicit Types (rn : Network) (q : Req) (s : RpcState).

Lemma isServerDead_registered e r rn :
  isServerDead e (rt_name r) (rt_server r) rn = false → registered rn r = true.
Proof. rewrite /isServerDead /registered orb_false_iff negb_false_iff. by intros [_ ?]. Qed.

(** What one step of [processReq] keeps. *)
Lemma pc_step_frame rn q rn' q' :
  pc_step rn q rn' q' → servers rn' = servers rn ∧ rq_end q' = rq_end q ∧
    (rq_handler q' = rq_handler q ∨ ∃ r, rq_pc q = Chosen r ∧ rq_handler q' = Spawned r).
Proof. destruct 1; simpl; split_and!; eauto. Qed.

Lemma pc_step_ok rn q rn' q' :
  pc_step rn q rn' q' → req_ok q →
  (∀ r reply, rq_handler q = Ran r false reply → registered rn r = false) → req_ok q'.
Proof.
  intros Hstep Hq Hgone. unfold req_ok in *.
  assert (∀ reply r, rq_pc q = HandlerDone reply r →
    isServerDead (rq_end q) (rt_name r) (rt_server r) rn = false →
    ∃ r, rq_handler q = Ran r true reply) as Hlive.
  { intros reply r Hpc Hd. rewrite Hpc in Hq. destruct Hq as ([] & Hh); [eauto|].
    apply isServerDead_registered in Hd. rewrite (Hgone _ _ Hh) in Hd. done. }
  destruct Hstep as [Hpc|????? Hpc|???? Hpc|? Hpc|? Hpc|? live reply Hpc|? Hpc|? Hpc|?? Hpc|?? Hpc|?? Hpc|?? Hpc|? Hpc|Hpc];
    simpl; rewrite Hpc in Hq; eauto.
Qed.

Lemma ran_on_step rn q rn' q' sid :
  pc_step rn q rn' q' → req_ok q → ran_on (Some q') sid = ran_on (Some q) sid.
Proof.
  intros Hstep Hq. destruct (pc_step_frame _ _ _ _ Hstep) as (_ & _ & [Hh|(r & Hpc & Hh)]); simpl.
  - by rewrite Hh.
  - rewrite /req_ok Hpc in Hq. by rewrite Hh Hq.
Qed.

(** The server a step of [processReq] talks to exists. *)
Lemma pc_step_server rn q rn' q' r (P : nat → Prop) :
  pc_step rn q rn' q' →
  (∀ r, rq_handler q = Spawned r ∨ rq_pc q = Chosen r ∨ (∃ live reply, rq_handler q = Ran r live reply) → P (rt_server r)) →
  (∀ sn sid, servers rn !! sn = Some (Some sid) → P sid) →
  rq_handler q' = Spawned r ∨ rq_pc q' = Chosen r ∨ (∃ live reply, rq_handler q' = Ran r live reply) →
  P (rt_server r).
Proof.
  intros Hstep Hq Hreg Hr.
  destruct Hstep as [Hpc|????? Hpc|sn sv rel ord Hpc Hinfo|? Hpc|? Hpc|? live reply Hpc|? Hpc|? Hpc|?? Hpc|?? Hpc|?? Hpc|?? Hpc|? Hpc|Hpc];
    simpl in Hr; try (apply Hq; destruct Hr as [?|[?|?]]; naive_solver).
  - destruct Hr as [Hr|[Hr|Hr]]; [apply Hq; auto| |apply Hq; auto]. injection Hr as <-. simpl.
    rewrite /readEndnameInfo in Hinfo. simplify_eq. apply (Hreg sn).
    destruct (default None (connections rn !! rq_end q)) as [sn'|]; simplify_eq/=.
    by destruct (servers rn !! sn) as [[]|]; simplify_eq/=.
Qed.

Lemma executions_run i j (rs rs' : @Server A) m a reply :
  Server_dispatch rs j m a = Some (rs', reply) →
  executions i rs' = (executions i rs + if decide (j = i) then 1 else 0)%nat.
Proof.
  rewrite /Server_dispatch. intros Hd. destruct (split_method m) as [[sn mn]|]; [|done]. simpl in Hd.
  destruct (rs_services rs !! sn) as [svc|]; [|done]. simpl in Hd.
  destruct (Service_dispatch svc mn a _) as [[a' r']|]; simplify_eq/=.
  rewrite /executions /= filter_app length_app filter_cons filter_nil. by case_decide.
Qed.

Lemma pc_step_inv rn rn' os rs i q q' :
  rpc_inv (mkRpc rn os rs) → rs !! i = Some q → pc_step rn q rn' q' → rpc_inv (A := A) (mkRpc rn' os (<[i := q']> rs)).
Proof.
  intros [Hlogs Hreqs Hserver Hreg Hgone] Hi Hpc. simpl in *.
  destruct (pc_step_frame _ _ _ _ Hpc) as (Hsv & _ & Hhd).
  split; simpl.
  + intros j sid rv Hrv. rewrite (Hlogs j sid rv Hrv). destruct (decide (j = i)) as [->|Hne].
    * rewrite lookup_insert_eq Hi. symmetry. eapply ran_on_step; [done|]. by eapply Hreqs.
    * by rewrite lookup_insert_ne.
  + intros j q0 Hj. destruct (decide (j = i)) as [->|Hne].
    * rewrite lookup_insert_eq in Hj. simplify_eq. eapply pc_step_ok; [done|by eapply Hreqs|].
      intros r reply Hr. by eapply Hgone.
    * rewrite lookup_insert_ne // in Hj. by eapply Hreqs.
  + intros j q0 r Hj Hr. destruct (decide (j = i)) as [->|Hne].
    * rewrite lookup_insert_eq in Hj. simplify_eq.
      eapply (pc_step_server _ _ _ _ r (λ sid, is_Some (os !! sid)) Hpc); [|done|done].
      intros r0 Hr0. by eapply Hserver.
    * rewrite lookup_insert_ne // in Hj. by eapply Hserver.
  + intros sn sid. rewrite Hsv. apply Hreg.
  + intros j q0 r reply Hj Hr. rewrite /registered Hsv. destruct (decide (j = i)) as [->|Hne].
    * rewrite lookup_insert_eq in Hj. simplify_eq. destruct Hhd as [Hhd|(r' & _ & Hhd)]; [|congruence].
      rewrite Hhd in Hr. by eapply Hgone.
    * rewrite lookup_insert_ne // in Hj. by eapply Hgone.
Qed.

Lemma handler_step_inv rn os rs i q r rsv rsv' reply :
  rpc_inv (mkRpc rn os rs) → rs !! i = Some q → rq_handler q = Spawned r → os !! rt_server r = Some rsv →
  Server_dispatch rsv i (rq_meth q) (rq_args q) = Some (rsv', reply) →
  rpc_inv (A := A) (mkRpc rn (<[rt_server r := rsv']> os) (<[i := set_handler (Ran r (registered rn r) reply) q]> rs)).
Proof.
  intros [Hlogs Hreqs Hserver Hreg Hgone] Hi Hh Hos Hdis. simpl in *.
  assert (is_Some (os !! rt_server r)) as Hsome by eauto.
  assert (∀ sid, is_Some (os !! sid) → is_Some (<[rt_server r:=rsv']> os !! sid)) as Hmono.
  { intros sid. destruct (decide (sid = rt_server r)) as [->|]; [rewrite lookup_insert_eq; eauto|].
    by rewrite lookup_insert_ne. }
  split; simpl.
  + intros j sid rv Hrv. destruct (decide (sid = rt_server r)) as [->|Hsid].
    * rewrite lookup_insert_eq in Hrv. simplify_eq. rewrite (executions_run _ _ _ _ _ _ _ Hdis) (Hlogs j _ _ Hos).
      destruct (decide (j = i)) as [->|Hne].
      -- rewrite lookup_insert_eq Hi /= Hh decide_True // decide_True //.
      -- rewrite lookup_insert_ne // decide_False; [lia|done].
    * rewrite lookup_insert_ne // in Hrv. rewrite (Hlogs j sid rv Hrv). destruct (decide (j = i)) as [->|Hne].
      -- rewrite lookup_insert_eq Hi /= Hh decide_False //.
      -- by rewrite lookup_insert_ne.
  + intros j q0 Hj. destruct (decide (j = i)) as [->|Hne]; [|rewrite lookup_insert_ne // in Hj; by eapply Hreqs].
    rewrite lookup_insert_eq in Hj. simplify_eq. specialize (Hreqs i q Hi). unfold req_ok in *. simpl.
    rewrite Hh in Hreqs. destruct (rq_pc q) as [| | | |r0|reply0 r0| |reply0|[] reply0]; try done.
    * destruct Hreqs as [[= <-]|(? & ? & ?)]; [eauto|done].
    * by destruct Hreqs.
    * by destruct Hreqs.
    * by destruct Hreqs.
  + intros j q0 r0 Hj Hr0. apply Hmono. destruct (decide (j = i)) as [->|Hne].
    * rewrite lookup_insert_eq in Hj. simplify_eq. simpl in Hr0.
      destruct Hr0 as [?|[Hr0|(? & ? & [= -> _ _])]]; [done| |done]. eapply Hserver; eauto.
    * rewrite lookup_insert_ne // in Hj. by eapply Hserver.
  + intros sn sid Hs. apply Hmono. by eapply Hreg.
  + intros j q0 r0 reply0 Hj Hr0. destruct (decide (j = i)) as [->|Hne].
    * rewrite lookup_insert_eq in Hj. simplify_eq. simpl in Hr0. by injection Hr0 as -> ? ->.
    * rewrite lookup_insert_ne // in Hj. by eapply Hgone.
Qed.

Lemma req_step_inv s s' : rpc_inv s → req_step s s' → rpc_inv s'.
Proof. intros Hinv Hs. destruct Hs; [by eapply pc_step_inv|by eapply handler_step_inv]. Qed.

Lemma AddServices_log (svcs : list (@Service A)) a : rs_log (foldr AddService (MakeServer a) svcs) = [].
Proof. by induction svcs. Qed.

(** Changes of the network that leave its servers alone. *)
Lemma inv_same_servers rn rn' (os : gmap nat (@Server A)) rs :
  servers rn' = servers rn → rpc_inv (mkRpc rn os rs) → rpc_inv (mkRpc rn' os rs).
Proof.
  intros Hs [H1 H2 H3 H4 H5]. unfold registered in *. split; simpl in *; [done..| |].
  - intros sn sid. rewrite Hs. apply H4.
  - intros i q r reply. unfold registered. simpl. rewrite Hs. apply H5.
Qed.

Lemma env_step_inv s s' : rpc_inv s → env_step s s' → rpc_inv s'.
Proof.
  intros Hinv Hstep.
  destruct Hstep as [rn os rs i e m a Hi| |rn os rs sn sid svcs a Hsid|rn os rs sn|rn rn' os rs e Hme| |];
    try (by eapply inv_same_servers; [|done]).
  - destruct Hinv as [H1 H2 H3 H4 H5]. split; simpl in *; [| | |done|].
    + intros j sid rv Hrv. rewrite (H1 j sid rv Hrv). destruct (decide (j = i)) as [->|Hne].
      * by rewrite lookup_insert_eq Hi.
      * by rewrite lookup_insert_ne.
    + intros j q Hj. destruct (decide (j = i)) as [->|Hne]; [|rewrite lookup_insert_ne // in Hj; by eapply H2].
      rewrite lookup_insert_eq in Hj. by simplify_eq.
    + intros j q r Hj Hr. destruct (decide (j = i)) as [->|Hne]; [|rewrite lookup_insert_ne // in Hj; by eapply H3].
      rewrite lookup_insert_eq in Hj. simplify_eq/=. naive_solver.
    + intros j q r reply Hj Hr. destruct (decide (j = i)) as [->|Hne]; [|rewrite lookup_insert_ne // in Hj; by eapply H5].
      rewrite lookup_insert_eq in Hj. by simplify_eq/=.
  - destruct Hinv as [H1 H2 H3 H4 H5].
    assert (∀ x, is_Some (os !! x) → x ≠ sid) as Hold by (intros x [? ?] ->; congruence).
    split; simpl in *; [|done| | |].
    + intros j x rv Hrv. destruct (decide (x = sid)) as [->|Hne]; [|rewrite lookup_insert_ne // in Hrv; by apply H1].
      rewrite lookup_insert_eq in Hrv. simplify_eq. rewrite /executions AddServices_log /=.
      destruct (rs !! j) as [q|] eqn:Hj; [|done]. simpl. destruct (rq_handler q) as [| |r live reply] eqn:Hh; [done..|].
      rewrite decide_False //. apply Hold. eapply H3; [exact Hj|]. right; right. eauto.
    + intros j q r Hj Hr. rewrite lookup_insert_ne; [by eapply H3|]. apply not_eq_sym, Hold. by eapply H3.
    + intros sn' x Hx. destruct (decide (x = sid)) as [->|Hne]; [rewrite lookup_insert_eq; eauto|].
      rewrite lookup_insert_ne //. apply (H4 sn'). destruct (decide (sn' = sn)) as [->|];
        [rewrite lookup_insert_eq in Hx; congruence|by rewrite lookup_insert_ne in Hx].
    + intros j q r reply Hj Hr. pose proof (H5 j q r reply Hj Hr) as Hg. unfold registered in *. simpl.
      destruct (decide (rt_name r = sn)) as [->|]; [|by rewrite lookup_insert_ne].
      rewrite lookup_insert_eq /=. apply bool_decide_eq_false. intros [= Heq].
      apply (Hold (rt_server r)); [|done]. eapply H3; [exact Hj|]. right; right. eauto.
  - destruct Hinv as [H1 H2 H3 H4 H5]. split; simpl in *; [done..| |].
    + intros sn' x Hx. apply (H4 sn'). destruct (decide (sn' = sn)) as [->|];
        [rewrite lookup_insert_eq in Hx; congruence|by rewrite lookup_insert_ne in Hx].
    + intros j q r reply Hj Hr. pose proof (H5 j q r reply Hj Hr) as Hg. unfold registered in *. simpl.
      destruct (decide (rt_name r = sn)) as [->|]; [|by rewrite lookup_insert_ne]. by rewrite lookup_insert_eq.
  - eapply inv_same_servers; [|done]. rewrite /MakeEnd in Hme. case_bool_decide; by simplify_eq.
Qed.

Lemma rpc_reachable_inv s : rtc rpc_step init_rpc s → rpc_inv s.
Proof.
  revert s. refine (rtc_ind_r rpc_inv init_rpc _ _).
  - split; simpl; intros *; by rewrite ?lookup_empty.
  - intros s s' _ [Hs|Hs] Hi; [by eapply req_step_inv|by eapply env_step_inv].
Qed.

End rpc.

(** C12: A positive reply can be trusted. In every reachable state of the
    network, with servers killed and replaced, ends disabled and messages
    dropped, delayed and reordered at any point: every request has been executed
    at most once, counting all server objects; and if a call was answered with
    success, its handler ran exactly once, on the one server object the request
    was routed to, the reply is the one that execution produced, and that object
    was still registered under its name when the handler ran. (So no client is
    told that an operation succeeded on a server that had been killed before.) *)
Theorem rpc_positive_reply `{Countable Name} {A : Type} (s : @RpcState Name _ _ A) i q :
  rtc rpc_step init_rpc s → reqs s !! i = Some q →
  (∀ sid1 sid2 rs1 rs2, objs s !! sid1 = Some rs1 → objs s !! sid2 = Some rs2 →
     (0 < executions i rs1)%nat → (0 < executions i rs2)%nat → sid1 = sid2 ∧ executions i rs1 = 1%nat) ∧
  ∀ reply, rq_pc q = Answered true reply →
    ∃ r rs, rq_handler q = Ran r true reply ∧ objs s !! rt_server r = Some rs ∧ executions i rs = 1%nat.
Proof.
  intros [Hlogs Hreqs Hserver _ _]%rpc_reachable_inv Hq. split.
  - intros sid1 sid2 rs1 rs2 H1 H2. rewrite (Hlogs i _ _ H1) (Hlogs i _ _ H2) Hq /=.
    destruct (rq_handler q) as [| |r live reply]; [lia..|]. repeat case_decide; lia.
  - intros reply Hpc. pose proof (Hreqs i q Hq) as Hok. rewrite /req_ok Hpc in Hok. destruct Hok as [r Hr].
    destruct (Hserver i q r Hq) as [rs Hrs]; [eauto|]. exists r, rs. split_and!; [done..|].
    by rewrite (Hlogs i _ _ Hrs) Hq /= Hr decide_True.
Qed.

(** ** A concrete run *)

Definition echo : @Method Z := mkMethod "Add" "" 3 true 0 (λ args a, (a + slen args, Itoa (a + slen args))).
Definition counter_service : @Service Z := MakeService "KV" [echo].

Definition demo_req : @Req string := mkReq "e" "KV.Add" "xyz" Queued NotSpawned.

Lemma rpc_positive_reply_witness :
  ∃ (s : @RpcState string _ _ Z) q, rtc rpc_step init_rpc s ∧ reqs s !! 0%nat = Some q ∧
    rq_pc q = Answered true "10" ∧
    ∃ r rs, rq_handler q = Ran r true "10" ∧ objs s !! rt_server r = Some rs ∧ executions 0 rs = 1%nat.
Proof.
  eexists _, _.
  assert (∀ (s : @RpcState string _ _ Z) q, rtc rpc_step init_rpc s → reqs s !! 0%nat = Some q →
    rq_pc q = Answered true "10" →
    rtc rpc_step init_rpc s ∧ reqs s !! 0%nat = Some q ∧ rq_pc q = Answered true "10" ∧
    ∃ r rs, rq_handler q = Ran r true "10" ∧ objs s !! rt_server r = Some rs ∧ executions 0 rs = 1%nat) as Hgo.
  { intros s q Hr Hq Hpc. split; [exact Hr|]. split; [exact Hq|]. split; [exact Hpc|].
    exact (proj2 (rpc_positive_reply s 0 q Hr Hq) "10" Hpc). }
  apply Hgo; [| |].
  - eapply rtc_l; [right; eapply (step_MakeEnd MakeNetwork _ ∅ ∅ "e"); reflexivity|].
    eapply rtc_l; [right; eapply (step_AddServer _ ∅ ∅ "s" 7 [counter_service] 7); reflexivity|].
    eapply rtc_l; [right; eapply (step_Connect _ _ _ "e" "s")|].
    eapply rtc_l; [right; eapply (step_Enable _ _ _ "e" true)|].
    eapply rtc_l; [right; eapply (step_Call _ _ _ 0 "e" "KV.Add" "xyz"); reflexivity|].
    eapply rtc_l; [left; eapply (step_pc _ _ _ _ 0); [reflexivity|apply step_accept; reflexivity]|].
    eapply rtc_l; [left; eapply (step_pc _ _ _ _ 0); [reflexivity|eapply step_route; reflexivity]|].
    eapply rtc_l; [left; eapply (step_pc _ _ _ _ 0); [reflexivity|eapply step_spawn; reflexivity]|].
    eapply rtc_l; [left; eapply (step_handler _ _ _ 0); [reflexivity|reflexivity|reflexivity|vm_compute; reflexivity]|].
    eapply rtc_l; [left; eapply (step_pc _ _ _ _ 0); [reflexivity|eapply step_receive; reflexivity]|].
    eapply rtc_l; [left; eapply (step_pc _ _ _ _ 0); [reflexivity|eapply step_reply; [reflexivity|vm_compute; reflexivity]]|].
    apply rtc_refl.
  - reflexivity.
  - reflexivity.
Defined.

(** ** Delivery on a reliable network *)

Section reliable.
Context `{Countable Name} {A : Type}.
Context (i : nat) (e sn : Name) (sv : nat) (svcMeth args svcname meth : string) (svc : @Service A) (m : @Method A).

Notation route := (mkRoute sn sv true false).

(** The network is reliable and the end connected to a server that has the
    method. *)
Record connected (s : @RpcState Name _ _ A) : Prop := {
  cn_reliable : reliable (net s) = true;
  cn_order : longReordering (net s) = false;
  cn_enabled : enabled (net s) !! e = Some true;
  cn_connection : connections (net s) !! e = Some (Some sn);
  cn_server : servers (net s) !! sn = Some (Some sv);
  cn_service : ∃ rs, objs s !! sv = Some rs ∧ rs_services rs !! svcname = Some svc;
}.

(** How far the call of request [i] has come. *)
Definition on_track (q : @Req Name) : Prop :=
  rq_end q = e ∧ rq_meth q = svcMeth ∧ rq_args q = args ∧
  match rq_pc q with
  | Queued | Started => rq_handler q = NotSpawned
  | Chosen r => r = route ∧ rq_handler q = NotSpawned
  | Waiting r => r = route ∧ (rq_handler q = Spawned route ∨ ∃ live reply, rq_handler q = Ran route live reply)
  | HandlerDone _ r => r = route
  | Answered ok _ => ok = true
  | Failing | Abandoned _ | Delayed _ => False
  end.

Lemma connected_info s : connected s → readEndnameInfo e (net s) = (true, Some sn, Some sv, true, false).
Proof. intros [H1 H2 H3 H4 H5 _]. by rewrite /readEndnameInfo H1 H2 H3 H4 /= H5. Qed.

Lemma connected_alive s : connected s → isServerDead e sn sv (net s) = false.
Proof. intros [_ _ H3 _ H5 _]. by rewrite /isServerDead H3 H5 /= bool_decide_true. Qed.

Lemma dispatch_services rs j mm a rs' reply :
  Server_dispatch rs j mm a = Some (rs', reply) → rs_services (A:=A) rs' = rs_services rs.
Proof.
  rewrite /Server_dispatch. destruct (split_method mm) as [[??]|]; [|done]. simpl.
  destruct (rs_services rs !! _); [|done]. simpl. destruct (Service_dispatch _ _ _ _) as [[??]|]; [|done].
  by intros [= <- <-].
Qed.

(** No step of any request disconnects the network. *)
Lemma connected_step s s' : connected s → req_step s s' → connected s'.
Proof.
  intros [H1 H2 H3 H4 H5 (rs & Hrs & Hsvc)] Hstep.
  destruct Hstep as [rn rn' os rqs j q q' Hj Hpc|rn os rqs j q r rsv rsv' reply Hj Hh Hos Hd]; simpl in *.
  - assert (reliable rn' = reliable rn ∧ longReordering rn' = longReordering rn ∧ enabled rn' = enabled rn ∧
      connections rn' = connections rn ∧ servers rn' = servers rn) as (E1 & E2 & E3 & E4 & E5) by by destruct Hpc.
    split; simpl; rewrite ?E1 ?E2 ?E3 ?E4 ?E5 //. eauto.
  - split; [done..|]. simpl. destruct (decide (rt_server r = sv)) as [<-|Hne].
    + rewrite lookup_insert_eq. exists rsv'. split; [done|]. rewrite (dispatch_services _ _ _ _ _ _ Hd). congruence.
    + rewrite lookup_insert_ne //. eauto.
Qed.

Lemma on_track_step s s' q :
  connected s → reqs s !! i = Some q → on_track q → req_step s s' →
  ∃ q', reqs s' !! i = Some q' ∧ on_track q'.
Proof.
  intros Hc Hi Ht Hstep. pose proof (connected_info s Hc) as Hinfo. pose proof (connected_alive s Hc) as Hal.
  destruct Hstep as [rn rn' os rqs j q0 q' Hj Hpc|rn os rqs j q0 r rsv rsv' reply Hj Hh Hos Hd]; simpl in *.
  - destruct (decide (j = i)) as [->|Hne]; [|rewrite lookup_insert_ne //; eauto].
    rewrite lookup_insert_eq. exists q'. split; [done|]. simplify_eq.
    destruct Ht as (He & Hm & Ha & Ht).
    rewrite -He in Hinfo Hal.
    destruct Hpc as [Hp|????? Hp Hi2 Hno|???? Hp Hi2|? Hp Hr|? Hp|??? Hp Hh|? Hp Hd|? Hp|?? Hp Hd|?? Hp Hd Hr|?? Hp Hd Hr|?? Hp Hd|? Hp|Hp];
      rewrite Hp in Ht; unfold on_track; simpl; (split; [done|]; split; [done|]; split; [done|]); try done.
    + rewrite Hinfo in Hi2. simplify_eq. naive_solver.
    + rewrite Hinfo in Hi2. by simplify_eq.
    + destruct Ht as [-> _]. done.
    + destruct Ht as [-> _]. auto.
    + by destruct Ht as [-> _].
    + destruct Ht as [-> _]. simpl in Hd. congruence.
    + subst. simpl in Hd. congruence.
    + by subst.
    + by subst.
  - destruct (decide (j = i)) as [->|Hne]; [|rewrite lookup_insert_ne //; eauto].
    rewrite lookup_insert_eq. eexists. split; [done|]. simplify_eq.
    destruct Ht as (He & Hm & Ha & Ht). split_and!; [done..|]. simpl. rewrite Hh in Ht.
    destruct (rq_pc q); naive_solver.
Qed.

Hypothesis Hmeth : split_method svcMeth = Some (svcname, meth).
Hypothesis Hfunc : svc_methods svc !! meth = Some m.

Lemma on_track_steps s s' q :
  rtc req_step s s' → connected s → reqs s !! i = Some q → on_track q →
  connected s' ∧ ∃ q', reqs s' !! i = Some q' ∧ on_track q'.
Proof.
  intros Hr. revert q. induction Hr as [s|s s1 s2 Hstep Hr IH]; intros q Hc Hi Ht; [eauto|].
  destruct (on_track_step s s1 q Hc Hi Ht Hstep) as (q1 & Hi1 & Ht1).
  eapply IH; [by eapply connected_step|done|done].
Qed.

Lemma dispatch_runs (rs : @Server A) :
  rs_services rs !! svcname = Some svc → ∃ rs' reply, Server_dispatch rs i svcMeth args = Some (rs', reply).
Proof.
  intros Hs. rewrite /Server_dispatch Hmeth /= Hs /= /Service_dispatch Hfunc /=.
  destruct (m_Func m args (rs_state rs)). eauto.
Qed.

(** One step of [processReq] for request [i]. *)
Lemma pc_run (s : @RpcState Name _ _ A) (rn' : @Network Name _ _) (q q' : @Req Name) :
  reqs s !! i = Some q → pc_step (net s) q rn' q' → req_step s (mkRpc rn' (objs s) (<[i := q']> (reqs s))).
Proof. destruct s as [rn os rs]. intros Hi Hp. by apply (step_pc _ _ _ _ i q). Qed.

(** A call on track can be brought to its answer. *)
Lemma on_track_finish (s : @RpcState Name _ _ A) (q : @Req Name) :
  connected s → reqs s !! i = Some q → rq_pc q = Queued → on_track q →
  ∃ s' q' reply, rtc req_step s s' ∧ reqs s' !! i = Some q' ∧ rq_pc q' = Answered true reply.
Proof.
  intros Hc Hi Hpc Ht. destruct (Ht) as (He & Hm & Ha & Hh). rewrite Hpc in Hh.
  pose proof (pc_run s _ q _ Hi (step_accept _ _ Hpc)) as S1. pose proof (connected_step _ _ Hc S1) as C1.
  set (s1 := mkRpc _ _ _) in S1, C1. set (q1 := set_pc Started q) in s1.
  assert (reqs s1 !! i = Some q1) as I1 by apply lookup_insert_eq.
  pose proof (connected_info s1 C1) as Hinfo. rewrite -He in Hinfo.
  pose proof (pc_run s1 _ q1 _ I1 (step_route _ q1 sn sv true false eq_refl Hinfo)) as S2.
  pose proof (connected_step _ _ C1 S2) as C2.
  set (s2 := mkRpc _ _ (<[i := set_pc (Chosen route) q1]> _)) in S2, C2. set (q2 := set_pc (Chosen route) q1) in s2.
  assert (reqs s2 !! i = Some q2) as I2 by apply lookup_insert_eq.
  pose proof (pc_run s2 _ q2 _ I2 (step_spawn _ q2 route eq_refl)) as S3.
  pose proof (connected_step _ _ C2 S3) as C3.
  set (q3 := set_handler (Spawned route) (set_pc (Waiting route) q2)) in S3, C3.
  set (s3 := mkRpc _ _ (<[i := q3]> _)) in S3, C3.
  assert (reqs s3 !! i = Some q3) as I3 by apply lookup_insert_eq.
  destruct (cn_service _ C3) as (rs & Hrs & Hsvc). destruct (dispatch_runs rs Hsvc) as (rs' & reply & Hd).
  assert (Server_dispatch rs i (rq_meth q3) (rq_args q3) = Some (rs', reply)) as Hd' by by rewrite /= Hm Ha.
  pose proof (step_handler (net s3) (objs s3) (reqs s3) i q3 route rs rs' reply I3 eq_refl Hrs Hd') as S4.
  change (mkRpc (net s3) (objs s3) (reqs s3)) with s3 in S4. pose proof (connected_step _ _ C3 S4) as C4.
  set (q4 := set_handler (Ran route (registered (net s3) route) reply) q3) in S4, C4.
  set (s4 := mkRpc _ _ (<[i := q4]> _)) in S4, C4.
  assert (reqs s4 !! i = Some q4) as I4 by apply lookup_insert_eq.
  pose proof (pc_run s4 _ q4 _ I4 (step_receive _ q4 route _ reply eq_refl eq_refl)) as S5.
  pose proof (connected_step _ _ C4 S5) as C5.
  set (q5 := set_pc (HandlerDone reply route) q4) in S5, C5. set (s5 := mkRpc _ _ (<[i := q5]> _)) in S5, C5.
  assert (reqs s5 !! i = Some q5) as I5 by apply lookup_insert_eq.
  pose proof (connected_alive s5 C5) as Hal. rewrite -He in Hal.
  pose proof (pc_run s5 _ q5 _ I5 (step_reply _ q5 reply route eq_refl Hal)) as S6.
  set (s6 := mkRpc _ _ (<[i := set_pc (Answered true reply) q5]> _)) in S6.
  exists s6, (set_pc (Answered true reply) q5), reply. split_and!; [|apply lookup_insert_eq|done].
  apply (rtc_l _ _ s1); [done|]. apply (rtc_l _ _ s2); [done|]. apply (rtc_l _ _ s3); [done|].
  apply (rtc_l _ _ s4); [done|]. apply (rtc_l _ _ s5); [done|]. by apply rtc_once.
Qed.
End reliable.

(** With the call queued and nobody reconfiguring the network, success is the
    only possible answer and can be reached. *)
Lemma reliable_delivers `{Countable Name} {A : Type} (s : @RpcState Name _ _ A) i q sn sv
    svcname meth svc m :
  connected (rq_end q) sn sv svcname svc s →
  split_method (rq_meth q) = Some (svcname, meth) → svc_methods svc !! meth = Some m →
  reqs s !! i = Some q → rq_pc q = Queued → rq_handler q = NotSpawned →
  (∃ s' q' reply, rtc req_step s s' ∧ reqs s' !! i = Some q' ∧ rq_pc q' = Answered true reply) ∧
  (∀ s' q' ok reply, rtc req_step s s' → reqs s' !! i = Some q' → rq_pc q' = Answered ok reply → ok = true).
Proof.
  intros Hc Hm Hf Hi Hpc Hh.
  assert (on_track (rq_end q) sn sv (rq_meth q) (rq_args q) q) as Ht.
  { by split_and!; [..|rewrite Hpc]. }
  split; [by eapply on_track_finish|]. intros s' q' ok reply Hr Hq' Ha.
  destruct (on_track_steps i (rq_end q) sn sv (rq_meth q) (rq_args q) svcname svc s s' q Hr Hc Hi Ht)
    as (_ & q2 & Hq2 & Ht2).
  assert (q2 = q') as -> by congruence. destruct Ht2 as (_ & _ & _ & Ht2). by rewrite Ha in Ht2.
Qed.

(** A reliable network delivers. A call on an enabled end, connected to a
    registered server that has the service and the method, on a network that is
    reliable and does not reorder, and which nobody reconfigures: however the
    steps of all requests interleave, the call is never answered with failure,
    and there is a run in which it is answered with success. *)
Theorem rpc_reliable_delivers `{Countable Name} {A : Type} (s : @RpcState Name _ _ A) i q sn sv
    svcname meth svc m :
  connected (rq_end q) sn sv svcname svc s →
  split_method (rq_meth q) = Some (svcname, meth) → svc_methods svc !! meth = Some m →
  reqs s !! i = Some q → rq_pc q = Queued → rq_handler q = NotSpawned →
  (∃ s' q' reply, rtc req_step s s' ∧ reqs s' !! i = Some q' ∧ rq_pc q' = Answered true reply) ∧
  (∀ s' q' ok reply, rtc req_step s s' → reqs s' !! i = Some q' → rq_pc q' = Answered ok reply → ok = true).
Proof. apply reliable_delivers. Qed.

(** A server and an end, and one call on its way. *)
Definition demo_rpc : @RpcState string _ _ Z :=
  mkRpc (Enable "e" true (Connect "e" "s" (AddServer "s" 7 MakeNetwork)))
    {[7%nat := AddService counter_service (MakeServer 0)]} {[0%nat := demo_req]}.

Lemma rpc_reliable_delivers_witness :
  (∃ s' q' reply, rtc req_step demo_rpc s' ∧ reqs s' !! 0%nat = Some q' ∧ rq_pc q' = Answered true reply) ∧
  (∀ s' q' ok reply, rtc req_step demo_rpc s' → reqs s' !! 0%nat = Some q' → rq_pc q' = Answered ok reply → ok = true).
Proof.
  apply (rpc_reliable_delivers demo_rpc 0 demo_req "s" 7 "KV" "Add" counter_service echo).
  - split; [reflexivity..|]. eexists. split; reflexivity.
  - vm_compute; reflexivity.
  - reflexivity.
  - reflexivity.
  - reflexivity.
  - reflexivity.
Defined.
