(* ===== verification/LabRpcCall.v ===== *)
(** * Calls from end to end

    Models the client's side of [labrpc/labrpc.go]: [ClientEnd.Call] with its
    encoding, the [select] between sending and a network that is cleaned up, the
    wait for the reply and its decoding into the caller's variable; the
    goroutine of [MakeNetwork] that accepts requests; [Cleanup]; and what
    [Service.dispatch] does around a handler. The steps of [LabRpc] go on
    underneath. Package gob is an interface, [Gob], with its laws in [GobLaws]. *)
From S2P Require Import Prelude GoBase LabRpc LabRpcThm.

(** ** The interface of gob *)

(** Encoding gives the bytes written and whether there was no error. Decoding
    goes into a variable: it gives what the variable holds afterwards, and
    whether there was no error. *)
Class Gob (V : Type) := {
  gob_enc : V → string * bool;
  gob_dec : string → V → V * bool;
}.

(** Values that survive the wire ([portable]: all fields exported, no empty
    slices that are not nil) are read back when the variable holds the zero
    value of their type; into another variable gob leaves fields alone that
    were zero at the sender. *)
Class GobLaws (V : Type) `{Gob V} := {
  zero_of : V → V;
  portable : V → Prop;
  gob_writes : ∀ v, portable v → (gob_enc v).2 = true;
  gob_reads : ∀ v, portable v → gob_dec (gob_enc v).1 (zero_of v) = (v, true);
}.

Section call.
Context `{Countable Name} {A : Type} `{Gob V}.
Notation Network := (@Network Name _ _).
Notation RpcState := (@RpcState Name _ _ A).
Notation Req := (@Req Name).

(** ** Operations *)

(** Around a handler: the arguments are decoded into a zero value of their
    type, the handler gets a zero reply to fill in, and the reply is encoded;
    both errors are ignored. *)
Definition served (h : V → V → A → A * V) (zargs zreply : V) (args : string) (a : A) : A * string :=
  let '(a', replyv) := h (gob_dec args zargs).1 zreply a in (a', (gob_enc replyv).1).

(** Where [Call] is. [Fatal] is [log.Fatalf]: the reply could not be decoded. *)
Inductive CallPc := Sending | Sent | Returned (ok : bool) | Fatal.

Record Call := mkCall {
  c_end : Name;
  c_meth : string;
  c_args : string;             (* the encoded arguments *)
  c_reply : V;                 (* the variable [reply] points to *)
  c_pc : CallPc;
}.

Definition move (pc : CallPc) (c : Call) : Call := mkCall (c_end c) (c_meth c) (c_args c) (c_reply c) pc.

(** The start of [Call]; [None] is the panic when encoding fails. *)
Definition Call_start (endname : Name) (svcMeth : string) (args reply : V) : option Call :=
  let '(qb, ok) := gob_enc args in
  if ok then Some (mkCall endname svcMeth qb reply Sending) else None.

(** The end of [Call], with the message from the reply channel. *)
Definition Call_finish (ok : bool) (rb : string) (c : Call) : Call :=
  if ok then
    let '(v, good) := gob_dec rb (c_reply c) in
    mkCall (c_end c) (c_meth c) (c_args c) v (if good then Returned true else Fatal)
  else move (Returned false) c.

(** The network with the channel [done], the goroutine that accepts requests,
    and the calls made so far. *)
Record CallState := mkCalls {
  cs_rpc : RpcState;
  cs_done : bool;              (* done is closed *)
  cs_loop : bool;              (* the goroutine of MakeNetwork runs *)
  cs_calls : gmap nat Call;
}.

Definition init_calls : CallState := mkCalls init_rpc false true ∅.

(** [None]: closing a closed channel panics. *)
Definition Cleanup (cs : CallState) : option CallState :=
  if cs_done cs then None else Some (mkCalls (cs_rpc cs) true (cs_loop cs) (cs_calls cs)).

Definition set_call (i : nat) (c : Call) (cs : CallState) : CallState :=
  mkCalls (cs_rpc cs) (cs_done cs) (cs_loop cs) (<[i := c]> (cs_calls cs)).

(** The goroutine of [MakeNetwork] takes a request from the channel, counts it
    and starts [processReq]. *)
Definition accept (i : nat) (c : Call) (s : RpcState) : RpcState :=
  mkRpc (add_traffic 1 (slen (c_args c)) (net s)) (objs s)
    (<[i := mkReq (c_end c) (c_meth c) (c_args c) Started NotSpawned]> (reqs s)).

(** A call and its request share their number. Once [done] is closed, a caller
    may still be served if the goroutine happens to take its request first. *)
Inductive call_step (cs : CallState) : CallState → Prop :=
| call_begin i endname svcMeth args reply c :
    cs_calls cs !! i = None → Call_start endname svcMeth args reply = Some c → call_step cs (set_call i c cs)
| call_send i c :
    cs_calls cs !! i = Some c → c_pc c = Sending → cs_loop cs = true →
    call_step cs (mkCalls (accept i c (cs_rpc cs)) (cs_done cs) true (<[i := move Sent c]> (cs_calls cs)))
| call_destroyed i c :
    cs_calls cs !! i = Some c → c_pc c = Sending → cs_done cs = true →
    call_step cs (set_call i (move (Returned false) c) cs)
| call_reply i c q ok rb :
    cs_calls cs !! i = Some c → c_pc c = Sent → reqs (cs_rpc cs) !! i = Some q → rq_pc q = Answered ok rb →
    call_step cs (set_call i (Call_finish ok rb c) cs)
| call_loop_exits :
    cs_done cs = true → cs_loop cs = true →
    call_step cs (mkCalls (cs_rpc cs) true false (cs_calls cs))
| call_Cleanup cs' : Cleanup cs = Some cs' → call_step cs cs'
| call_req s' : req_step (cs_rpc cs) s' → call_step cs (mkCalls s' (cs_done cs) (cs_loop cs) (cs_calls cs))
| call_net s' :
    env_step (cs_rpc cs) s' → reqs s' = reqs (cs_rpc cs) →
    call_step cs (mkCalls s' (cs_done cs) (cs_loop cs) (cs_calls cs)).
End call.
