(* ===== verification/LabRpcCallThm.v ===== *)
(** * A successful call takes effect once, while it runs

    Theorems on [LabRpcCall]: calls refine the requests of [LabRpc]; a call
    that returns true was executed at one moment between its start and its
    return, on its own arguments, and brings back that execution's reply; and
    after [Cleanup] nothing new is executed. *)
From S2P Require Import Prelude GoBase LabRpc LabRpcThm LabRpcCall.

Section history.
Context `{Countable Name} {A : Type}.
Notation RpcState := (@RpcState Name _ _ A).
Notation Req := (@Req Name).
Implicit Types (s : RpcState) (q : Req).

(** At [s1] the handler of request [i] runs, leading to [s2]. *)
Definition executes (i : nat) (r : Route) (live : bool) (meth args reply : string) (rs rs' : @Server A) s1 s2 : Prop :=
  rpc_step s1 s2 ∧ objs s1 !! rt_server r = Some rs ∧ objs s2 = <[rt_server r := rs']> (objs s1) ∧
  registered (net s1) r = live ∧ Server_dispatch rs i meth args = Some (rs', reply).

(** What a request asks for never changes, and an answer is final. *)
Definition req_kept q q' : Prop :=
  rq_meth q' = rq_meth q ∧ rq_args q' = rq_args q ∧
  ∀ ok reply, rq_pc q = Answered ok reply → rq_pc q' = Answered ok reply.

Lemma rpc_step_req s s' i q :
  rpc_step s s' → reqs s !! i = Some q → ∃ q', reqs s' !! i = Some q' ∧ req_kept q q'.
Proof.
  intros [Hs|Hs] Hi.
  - destruct Hs as [rn rn' os rs j q1 q2 Hj Hpc|rn os rs j q1 r rsv rsv' reply Hj Hh Hos Hd]; simpl in *;
      (destruct (decide (j = i)) as [->|]; [|rewrite lookup_insert_ne //; by exists q]);
      rewrite lookup_insert_eq; simplify_eq; eexists; (split; [reflexivity|]); [|done].
    destruct Hpc; by split_and!; [..|intros; congruence].
  - destruct Hs; simpl in *; try by exists q. exists q. by rewrite lookup_insert_ne; [|congruence].
Qed.

Lemma rpc_steps_req s s' i q :
  rtc rpc_step s s' → reqs s !! i = Some q → ∃ q', reqs s' !! i = Some q' ∧ req_kept q q'.
Proof.
  intros Hr. revert q. induction Hr as [s|s s1 s2 Hs _ IH]; intros q Hi; [by exists q|].
  destruct (rpc_step_req _ _ _ _ Hs Hi) as (q1 & H1 & Hm & Ha & Hk).
  destruct (IH q1 H1) as (q2 & ? & ? & ? & ?). exists q2. split_and!; [done|]. by split_and!; [congruence..|eauto].
Qed.

(** Where an execution in the state after a step comes from. *)
Lemma rpc_step_ran s s' i q' r live reply :
  rpc_step s s' → reqs s' !! i = Some q' → rq_handler q' = Ran r live reply →
  (∃ q, reqs s !! i = Some q ∧ rq_handler q = Ran r live reply) ∨
  ∃ rs rs', executes i r live (rq_meth q') (rq_args q') reply rs rs' s s'.
Proof.
  intros Hstep Hi Hh. pose proof Hstep as Hrun. destruct Hstep as [Hs|Hs].
  - destruct Hs as [rn rn' os rs j q1 q2 Hj Hpc|rn os rs j q1 r1 rsv rsv' reply1 Hj Hh1 Hos Hd]; simpl in *;
      (destruct (decide (j = i)) as [->|]; [|rewrite lookup_insert_ne // in Hi; eauto]);
      rewrite lookup_insert_eq in Hi; injection Hi as <-.
    + left. exists q1. split; [done|].
      destruct (pc_step_frame _ _ _ _ Hpc) as (_ & _ & [<-|(? & _ & ?)]); [done|congruence].
    + right. simpl in Hh. injection Hh as -> <- <-. exists rsv, rsv'. by split_and!.
  - left. destruct Hs; simpl in *; eauto.
    destruct (decide (i0 = i)) as [->|]; [|rewrite lookup_insert_ne // in Hi; eauto].
    rewrite lookup_insert_eq in Hi. by simplify_eq.
Qed.

(** A request that did not exist at [s0] and was executed by now was executed
    at one of the steps since. *)
Lemma ran_history s0 s i q r live reply :
  reqs s0 !! i = None → rtc rpc_step s0 s → reqs s !! i = Some q → rq_handler q = Ran r live reply →
  ∃ s1 s2 rs rs', rtc rpc_step s0 s1 ∧ executes i r live (rq_meth q) (rq_args q) reply rs rs' s1 s2 ∧ rtc rpc_step s2 s.
Proof.
  intros H0 Hr. revert s Hr q. refine (rtc_ind_r _ s0 _ _); [by intros; congruence|].
  intros s s' Hr Hs IH q' Hi Hh.
  destruct (rpc_step_ran _ _ _ _ _ _ _ Hs Hi Hh) as [(q & Hq & Hqh)|(rs & rs' & He)].
  - destruct (IH q Hq Hqh) as (s1 & s2 & rs & rs' & H1 & He & H2).
    destruct (rpc_step_req _ _ _ _ Hs Hq) as (q2 & Hq2 & Hm & Ha & _). assert (q2 = q') as -> by congruence.
    exists s1, s2, rs, rs'. rewrite Hm Ha. split_and!; [done..|by eapply rtc_r].
  - exists s, s', rs, rs'. by split_and!; [..|apply rtc_refl].
Qed.
End history.

Section call.
Context `{Countable Name} {A : Type} `{Gob V}.
Notation RpcState := (@RpcState Name _ _ A).
Notation CallState := (@CallState Name _ _ A V).
Notation Call := (@Call Name V).
Implicit Types (cs : CallState) (c : Call) (s : RpcState).

(** Requests belong to calls that were sent. *)
Definition calls_ok cs : Prop :=
  ∀ i q, reqs (cs_rpc cs) !! i = Some q → ∃ c, cs_calls cs !! i = Some c ∧ c_pc c ≠ Sending.

Lemma calls_ok_set i c c' cs :
  calls_ok cs → cs_calls cs !! i = Some c → c_pc c' ≠ Sending → calls_ok (set_call i c' cs).
Proof.
  intros Hok Hi Hpc j q Hj. destruct (Hok j q Hj) as (c1 & H1 & Hp1). simpl.
  destruct (decide (i = j)) as [->|]; [rewrite lookup_insert_eq; eauto|rewrite lookup_insert_ne; eauto].
Qed.

Lemma Call_finish_pc ok rb c : c_pc (Call_finish ok rb c) ≠ Sending.
Proof. rewrite /Call_finish. destruct ok; [|done]. destruct (gob_dec rb (c_reply c)) as [v []]; done. Qed.

Lemma Call_start_pc e m args reply c :
  Call_start e m args reply = Some c → c = mkCall e m (gob_enc args).1 reply Sending.
Proof. rewrite /Call_start. destruct (gob_enc args) as [qb []]; intros; by simplify_eq. Qed.

Lemma reqs_none_iff s s' i : req_step s s' → reqs s !! i = None ↔ reqs s' !! i = None.
Proof.
  destruct 1 as [rn rn' os rs j q1 q2 Hj Hpc|rn os rs j q1 r rsv rsv' reply Hj Hh Hos Hd]; simpl;
    (destruct (decide (j = i)) as [->|]; [rewrite lookup_insert_eq|by rewrite lookup_insert_ne]; split; congruence).
Qed.

Lemma calls_ok_req s' cs :
  calls_ok cs → req_step (cs_rpc cs) s' → calls_ok (mkCalls s' (cs_done cs) (cs_loop cs) (cs_calls cs)).
Proof.
  intros Hok Hs i q Hi. simpl in *. destruct (reqs (cs_rpc cs) !! i) as [q0|] eqn:Hq0; [by eapply Hok|].
  apply (reqs_none_iff _ _ i Hs) in Hq0. congruence.
Qed.

Lemma call_step_ok cs cs' : calls_ok cs → call_step cs cs' → calls_ok cs'.
Proof.
  intros Hok Hs.
  destruct Hs as [i e m args reply c Hi Hc|i c Hi Hpc Hl|i c Hi Hpc Hd|i c q ok rb Hi Hpc Hq Ha|Hd Hl|cs' Hc|s' Hs|s' Hs Heq].
  - intros j q Hj. destruct (Hok j q Hj) as (c1 & H1 & Hp1). exists c1. simpl.
    by rewrite lookup_insert_ne; [|congruence].
  - intros j q Hj. simpl in *. destruct (decide (i = j)) as [->|]; [rewrite lookup_insert_eq; by eexists|].
    rewrite lookup_insert_ne // in Hj. rewrite lookup_insert_ne //. eauto.
  - by eapply calls_ok_set.
  - eapply calls_ok_set; [done..|]. apply Call_finish_pc.
  - exact Hok.
  - rewrite /Cleanup in Hc. destruct (cs_done cs); by simplify_eq.
  - by apply calls_ok_req.
  - intros j q. simpl. rewrite Heq. apply Hok.
Qed.

(** Every step of a call is some steps of the network. *)
Lemma call_step_sim cs cs' : calls_ok cs → call_step cs cs' → rtc rpc_step (cs_rpc cs) (cs_rpc cs').
Proof.
  intros Hok Hs.
  destruct Hs as [| i c Hi Hpc Hl| | | |cs' Hc|s' Hs|s' Hs Heq]; simpl; try apply rtc_refl.
  - destruct (cs_rpc cs) as [rn os rs] eqn:Hcs.
    assert (rs !! i = None) as Hnone.
    { destruct (rs !! i) as [q|] eqn:Hq; [|done]. destruct (Hok i q) as (c1 & H1 & ?); [by rewrite Hcs|congruence]. }
    eapply rtc_l; [right; by apply (step_Call rn os rs i (c_end c) (c_meth c) (c_args c))|].
    apply rtc_once. left.
    set (q := mkReq (c_end c) (c_meth c) (c_args c) Queued NotSpawned).
    pose proof (step_pc rn _ os _ i q _ (lookup_insert_eq rs i q) (step_accept rn q eq_refl)) as Hacc.
    by rewrite insert_insert_eq in Hacc.
  - rewrite /Cleanup in Hc. destruct (cs_done cs); simplify_eq. apply rtc_refl.
  - apply rtc_once. by left.
  - apply rtc_once. by right.
Qed.

Lemma call_steps_sim cs cs' :
  calls_ok cs → rtc call_step cs cs' → calls_ok cs' ∧ rtc rpc_step (cs_rpc cs) (cs_rpc cs').
Proof.
  intros Hok Hr. induction Hr as [cs|cs cs1 cs2 Hs _ IH]; [by split; [|apply rtc_refl]|].
  destruct (IH (call_step_ok _ _ Hok Hs)) as [Hok2 Hsim].
  split; [done|]. etrans; [by apply call_step_sim|done].
Qed.

Lemma init_calls_ok : calls_ok init_calls.
Proof. intros i q. by rewrite lookup_empty. Qed.

(** Call [i], which began with these bytes and this variable for the reply. *)
Definition tracked (i : nat) (meth qb : string) (target : V) cs : Prop :=
  ∃ c, cs_calls cs !! i = Some c ∧ c_meth c = meth ∧ c_args c = qb ∧
  match c_pc c with
  | Sending => c_reply c = target
  | Sent => c_reply c = target ∧ ∃ q, reqs (cs_rpc cs) !! i = Some q ∧ rq_meth q = meth ∧ rq_args q = qb
  | Returned true => ∃ q rb, reqs (cs_rpc cs) !! i = Some q ∧ rq_meth q = meth ∧ rq_args q = qb ∧
      rq_pc q = Answered true rb ∧ gob_dec rb target = (c_reply c, true)
  | Returned false | Fatal => True
  end.

Lemma tracked_net i meth qb target cs cs' :
  tracked i meth qb target cs → rtc rpc_step (cs_rpc cs) (cs_rpc cs') →
  cs_calls cs' !! i = cs_calls cs !! i → tracked i meth qb target cs'.
Proof.
  intros (c & Hc & Hm & Ha & Hpc) Hr Heq. exists c. rewrite Heq. split_and!; [done..|].
  destruct (c_pc c) as [| |[]|]; [done| | |done..].
  - destruct Hpc as (Ht & q & Hq & Hqm & Hqa). split; [done|].
    destruct (rpc_steps_req _ _ _ _ Hr Hq) as (q' & Hq' & Hk1 & Hk2 & _). exists q'. by rewrite Hk1 Hk2.
  - destruct Hpc as (q & rb & Hq & Hqm & Hqa & Hans & Hdec).
    destruct (rpc_steps_req _ _ _ _ Hr Hq) as (q' & Hq' & Hk1 & Hk2 & Hk3).
    exists q', rb. rewrite Hk1 Hk2. by split_and!; [..|apply Hk3|].
Qed.

Lemma tracked_finish i meth qb target cs c q ok rb :
  tracked i meth qb target cs → cs_calls cs !! i = Some c → c_pc c = Sent →
  reqs (cs_rpc cs) !! i = Some q → rq_pc q = Answered ok rb →
  tracked i meth qb target (set_call i (Call_finish ok rb c) cs).
Proof.
  intros (c1 & Hc1 & Hm & Ha & Hpc) Hc Hsent Hq Hans. assert (c1 = c) as -> by congruence. rewrite Hsent in Hpc.
  destruct Hpc as (Ht & q1 & Hq1 & Hqm & Hqa). assert (q1 = q) as -> by congruence.
  exists (Call_finish ok rb c). simpl. rewrite lookup_insert_eq /Call_finish.
  destruct ok; [|by split_and!]. rewrite Ht. destruct (gob_dec rb target) as [v []] eqn:Hdec; split_and!; try done.
  simpl. exists q, rb. by split_and!.
Qed.

Lemma call_step_tracked i meth qb target cs cs' :
  calls_ok cs → call_step cs cs' → tracked i meth qb target cs → tracked i meth qb target cs'.
Proof.
  intros Hok Hs Ht. pose proof (call_step_sim _ _ Hok Hs) as Hsim.
  destruct Hs as [j e m args reply c Hj Hc|j c Hj Hpc Hl|j c Hj Hpc Hd|j c q ok rb Hj Hpc Hq Ha|Hd Hl|cs' Hc|s' Hs|s' Hs Heq];
    try (eapply tracked_net; [exact Ht|exact Hsim|done]).
  - eapply tracked_net; [exact Ht|exact Hsim|]. destruct Ht as (c1 & Hc1 & _). simpl.
    by rewrite lookup_insert_ne; [|congruence].
  - destruct (decide (j = i)) as [->|]; [|eapply tracked_net; [exact Ht|exact Hsim|by apply lookup_insert_ne]].
    destruct Ht as (c1 & Hc1 & Hm & Ha & Hp). assert (c1 = c) as -> by congruence. rewrite Hpc in Hp.
    exists (move Sent c). simpl. rewrite !lookup_insert_eq. split_and!; [done..|]. eexists. by split_and!.
  - destruct (decide (j = i)) as [->|]; [|eapply tracked_net; [exact Ht|exact Hsim|by apply lookup_insert_ne]].
    destruct Ht as (c1 & Hc1 & Hm & Ha & Hp). assert (c1 = c) as -> by congruence.
    exists (move (Returned false) c). simpl. by rewrite lookup_insert_eq.
  - destruct (decide (j = i)) as [->|]; [|eapply tracked_net; [exact Ht|exact Hsim|by apply lookup_insert_ne]].
    by eapply tracked_finish.
  - eapply tracked_net; [exact Ht|exact Hsim|]. rewrite /Cleanup in Hc. destruct (cs_done cs); by simplify_eq.
Qed.

Lemma call_steps_tracked i meth qb target cs cs' :
  calls_ok cs → rtc call_step cs cs' → tracked i meth qb target cs → tracked i meth qb target cs'.
Proof.
  intros Hok Hr. induction Hr as [cs|cs cs1 cs2 Hs _ IH]; [done|]. intros Ht.
  apply IH; [by eapply call_step_ok|by eapply call_step_tracked].
Qed.
End call.

Lemma Server_dispatch_inv {A} (rs rs' : @Server A) i svcMeth args reply :
  Server_dispatch rs i svcMeth args = Some (rs', reply) →
  ∃ svcname meth svc m, split_method svcMeth = Some (svcname, meth) ∧ rs_services rs !! svcname = Some svc ∧
    svc_methods svc !! meth = Some m ∧ (rs_state rs', reply) = m_Func m args (rs_state rs).
Proof.
  rewrite /Server_dispatch /Service_dispatch. intros Hd.
  destruct (split_method svcMeth) as [[svcname meth]|]; [|done]. simpl in Hd.
  destruct (rs_services rs !! svcname) as [svc|] eqn:Hsvc; [|done]. simpl in Hd.
  destruct (svc_methods svc !! meth) as [m|] eqn:Hm; [|done]. simpl in Hd.
  destruct (m_Func m args (rs_state rs)) as [a' r'] eqn:Hf; simplify_eq/=. by exists svcname, meth, svc, m.
Qed.

(** C13: A call that returns true took effect exactly once, while it was running.
    Take any state the network can reach, with other calls under way, servers
    killed and replaced, messages lost, delayed and reordered, before and after;
    in it Call is entered, and later it has returned true. Then there is one
    moment in between at which a server that was registered under its name ran
    the method that was called; no server runs this request at any other moment.
    If the method's handler is h, the server's state changed as h says for the
    very arguments of the call, and if the caller's variable held the zero value
    it now holds the reply of h (for arguments and replies that gob can carry). *)
Theorem Call_takes_effect `{Countable Name} {A : Type} `{GobLaws V} (cs0 cs : @CallState Name _ _ A V)
    i e svcMeth args target c0 c :
  rtc call_step init_calls cs0 → cs_calls cs0 !! i = None → Call_start e svcMeth args target = Some c0 →
  rtc call_step (set_call i c0 cs0) cs → cs_calls cs !! i = Some c → c_pc c = Returned true →
  ∃ s1 s2 sn sid rs rs' svcname meth svc m,
    rtc rpc_step (cs_rpc cs0) s1 ∧ rpc_step s1 s2 ∧ rtc rpc_step s2 (cs_rpc cs) ∧
    servers (net s1) !! sn = Some (Some sid) ∧ objs s1 !! sid = Some rs ∧ objs s2 = <[sid := rs']> (objs s1) ∧
    (∀ sid1 rs1, objs (cs_rpc cs) !! sid1 = Some rs1 → executions i rs1 = if decide (sid1 = sid) then 1%nat else 0%nat) ∧
    split_method svcMeth = Some (svcname, meth) ∧ rs_services rs !! svcname = Some svc ∧ svc_methods svc !! meth = Some m ∧
    ∀ h zreply, m_Func m = served h (zero_of args) zreply → portable args →
      let '(st, replyv) := h args zreply (rs_state rs) in
      rs_state rs' = st ∧ (portable replyv → target = zero_of replyv → c_reply c = replyv).
Proof.
  intros Hr0 Hnone Hstart Hr Hc Hpc.
  destruct (call_steps_sim _ _ init_calls_ok Hr0) as [Hok0 Hsim0]. apply Call_start_pc in Hstart as ->.
  set (c0 := mkCall e svcMeth (gob_enc args).1 target Sending) in *.
  assert (calls_ok (set_call i c0 cs0)) as Hok1.
  { intros j q Hj. destruct (Hok0 j q Hj) as (c1 & ? & ?). exists c1. simpl. by rewrite lookup_insert_ne; [|congruence]. }
  assert (reqs (cs_rpc cs0) !! i = None) as Hq0.
  { apply eq_None_not_Some. intros [q Hq]. destruct (Hok0 i q Hq) as (c1 & ? & _). congruence. }
  destruct (call_steps_sim _ _ Hok1 Hr) as [_ Hsim]. simpl in Hsim.
  destruct (call_steps_tracked i svcMeth (gob_enc args).1 target _ _ Hok1 Hr) as (c1 & Hc1 & _ & _ & Ht).
  { exists c0. simpl. by rewrite lookup_insert_eq. }
  assert (c1 = c) as -> by congruence. rewrite Hpc in Ht. destruct Ht as (q & rb & Hq & Hm & Ha & Hans & Hdec).
  assert (rpc_inv (cs_rpc cs)) as Hinv. { apply rpc_reachable_inv. by etrans. }
  pose proof (ri_reqs _ Hinv i q Hq) as Hok. rewrite /req_ok Hans in Hok. destruct Hok as [r Hran].
  destruct (ran_history _ _ _ _ _ _ _ Hq0 Hsim Hq Hran) as (s1 & s2 & rs & rs' & Hs1 & (Hs & Hrs & Hobj & Hreg & Hd) & Hs2).
  rewrite Hm Ha in Hd. destruct (Server_dispatch_inv _ _ _ _ _ _ Hd) as (svcname & meth & svc & m & Hsp & Hsvc & Hme & Hf).
  exists s1, s2, (rt_name r), (rt_server r), rs, rs', svcname, meth, svc, m. split_and!; try done.
  - rewrite /registered bool_decide_eq_true in Hreg. by destruct (servers (net s1) !! rt_name r) as [[]|]; simplify_eq/=.
  - intros sid1 rs1 H1'. rewrite (ri_logs _ Hinv i _ _ H1') Hq /= Hran. by repeat case_decide; congruence.
  - intros h zreply Hh Hp. rewrite Hh /served gob_reads //= in Hf.
    destruct (h args zreply (rs_state rs)) as [st v]. injection Hf as -> ->. split; [done|].
    intros Hv ->. rewrite gob_reads // in Hdec. congruence.
Qed.

(** ** After [Cleanup] *)

(** Once the network is cleaned up and its goroutine is gone, no request is
    created any more: calls that were not sent can only return false, can
    always do so, and are never executed; a second [Cleanup] panics. *)
Lemma Cleanup_stops `{Countable Name} {A : Type} `{Gob V} (cs cs' : @CallState Name _ _ A V) :
  cs_done cs = true → cs_loop cs = false → rtc call_step cs cs' →
  cs_done cs' = true ∧ cs_loop cs' = false ∧ Cleanup cs' = None ∧
  (∀ i, reqs (cs_rpc cs) !! i = None → reqs (cs_rpc cs') !! i = None) ∧
  ∀ i c, cs_calls cs' !! i = Some c → c_pc c = Sending →
    call_step cs' (set_call i (move (Returned false) c) cs').
Proof.
  intros Hd Hl Hr.
  assert (cs_done cs' = true ∧ cs_loop cs' = false ∧
    ∀ i, reqs (cs_rpc cs) !! i = None → reqs (cs_rpc cs') !! i = None) as (Hd' & Hl' & Hreq).
  { revert cs' Hr. refine (rtc_ind_r _ cs _ _); [done|]. intros cs1 cs2 _ Hs (Hd1 & Hl1 & Hq1).
    destruct Hs as [| | | | |cs' Hc|s' Hs|s' Hs Heq]; simpl; try (split_and!; congruence || done).
    - rewrite /Cleanup Hd1 in Hc. done.
    - split_and!; [done..|]. intros i Hi. by apply (reqs_none_iff _ _ i Hs), Hq1.
    - rewrite Heq. by split_and!. }
  split_and!; [done..|by rewrite /Cleanup Hd'|done|]. intros i c Hi Hpc. by eapply call_destroyed.
Qed.

(** ** A concrete call *)

(** Strings are carried as they are. *)
#[local] Instance string_gob : Gob string := {| gob_enc v := (v, true); gob_dec b _ := (b, true) |}.

#[local] Program Instance string_gob_laws : GobLaws string := {| zero_of _ := ""; portable _ := True |}.
Solve All Obligations with done.

(** A counter that grows by the length of the argument. *)
Definition grow (args zreply : string) (a : Z) : Z * string := (a + slen args, Itoa (a + slen args)).
Definition grow_service : @Service Z := MakeService "KV" [mkMethod "Grow" "" 3 true 0 (served grow "" "")].

(** A network with one server and one end. *)
Definition one_server : @CallState string _ _ Z string :=
  mkCalls (mkRpc (Enable "e" true (Connect "e" "s" (AddServer "s" 7 MakeNetwork)))
    {[7%nat := AddService grow_service (MakeServer 7)]} ∅) false true ∅.

Lemma one_server_reachable : rtc call_step init_calls one_server.
Proof.
  eapply rtc_l; [eapply (call_net init_calls); [eapply (step_AddServer _ ∅ ∅ "s" 7 [grow_service] 7); reflexivity|reflexivity]|].
  eapply rtc_l; [eapply call_net; [eapply (step_Connect _ _ _ "e" "s")|reflexivity]|].
  eapply rtc_l; [eapply call_net; [eapply (step_Enable _ _ _ "e" true)|reflexivity]|].
  apply rtc_refl.
Qed.

Lemma Call_takes_effect_witness :
  ∃ (cs : @CallState string _ _ Z string) c s1 s2 sn sid rs rs',
    cs_calls cs !! 0%nat = Some c ∧ c_pc c = Returned true ∧ c_reply c = "10" ∧
    rtc rpc_step (cs_rpc one_server) s1 ∧ rpc_step s1 s2 ∧ rtc rpc_step s2 (cs_rpc cs) ∧
    servers (net s1) !! sn = Some (Some sid) ∧ objs s1 !! sid = Some rs ∧ objs s2 = <[sid := rs']> (objs s1).
Proof.
  destruct (Call_start "e" "KV.Grow" "xyz" "") as [c0|] eqn:Hstart; [|discriminate].
  assert (∃ (cs : @CallState string _ _ Z string) c, rtc call_step (set_call 0 c0 one_server) cs ∧
    cs_calls cs !! 0%nat = Some c ∧ c_pc c = Returned true ∧ c_reply c = "10") as (cs & c & Hr & Hc & Hpc & Hv).
  { injection Hstart as <-. eexists _, _. split; [|split; [|split]].
    - eapply rtc_l; [eapply (call_send _ 0); reflexivity|].
      eapply rtc_l; [eapply call_req, (step_pc _ _ _ _ 0); [reflexivity|eapply step_route; reflexivity]|].
      eapply rtc_l; [eapply call_req, (step_pc _ _ _ _ 0); [reflexivity|eapply step_spawn; reflexivity]|].
      eapply rtc_l; [eapply call_req, (step_handler _ _ _ 0); [reflexivity|reflexivity|reflexivity|vm_compute; reflexivity]|].
      eapply rtc_l; [eapply call_req, (step_pc _ _ _ _ 0); [reflexivity|eapply step_receive; reflexivity]|].
      eapply rtc_l; [eapply call_req, (step_pc _ _ _ _ 0); [reflexivity|eapply step_reply; [reflexivity|vm_compute; reflexivity]]|].
      eapply rtc_l; [eapply (call_reply _ 0); reflexivity|]. apply rtc_refl.
    - reflexivity.
    - reflexivity.
    - reflexivity. }
  destruct (Call_takes_effect one_server cs 0 "e" "KV.Grow" "xyz" "" c0 c one_server_reachable eq_refl Hstart Hr Hc Hpc)
    as (s1 & s2 & sn & sid & rs & rs' & _ & _ & _ & _ & H1 & H2 & H3 & Hsn & Hrs & Hobj & _).
  exists cs, c, s1, s2, sn, sid, rs, rs'. tauto.
Defined.
