(* ===== verification/LabRpcLive.v ===== *)
(** * Calls return

    [raft/raft.go] tells its readers that [Call] "is guaranteed to return (perhaps
    after a delay) except if the handler function on the server side does not
    return". Here this is a theorem on [LabRpcCall]: a measure of the work left
    for a call, which no step of anybody increases, and which some step that is
    always possible decreases. *)
From S2P Require Import Prelude GoBase LabRpc LabRpcThm LabRpcCall LabRpcCallThm.

Section live.
Context `{Countable Name} {A : Type} `{Gob V}.
Notation RpcState := (@RpcState Name _ _ A).
Notation CallState := (@CallState Name _ _ A V).
Notation Req := (@Req Name).
Implicit Types (cs : CallState) (s : RpcState) (q : Req).

(** ** The work left *)

Definition req_work q : nat :=
  (match rq_pc q with
   | Queued => 8 | Started => 7 | Chosen _ => 6 | Waiting _ => 4 | HandlerDone _ _ => 2
   | Failing | Abandoned _ | Delayed _ => 1 | Answered _ _ => 0
   end + match rq_handler q with Spawned _ => 1 | _ => 0 end)%nat.

Definition pc_work (pc : CallPc) : nat := match pc with Sending => 10 | Sent => 1 | Returned _ | Fatal => 0 end.

Definition work cs (i : nat) : nat :=
  (from_option (λ c, pc_work (c_pc c)) 0 (cs_calls cs !! i) + from_option req_work 0 (reqs (cs_rpc cs) !! i))%nat.

Lemma pc_step_work rn q rn' q' : pc_step rn q rn' q' → req_ok q → (req_work q' < req_work q)%nat.
Proof.
  intros Hs Hok. rewrite /req_work. rewrite /req_ok in Hok.
  destruct Hs as [H1|????? H1|???? H1|? H1|? H1|??? H1|? H1|? H1|?? H1|?? H1|?? H1|?? H1|? H1|H1]; simpl; rewrite H1 in Hok |- *; try lia;
    by rewrite Hok; lia.
Qed.

Lemma req_step_work s s' i : rpc_inv s → req_step s s' →
  (from_option req_work 0 (reqs s' !! i) ≤ from_option req_work 0 (reqs s !! i))%nat.
Proof.
  intros Hinv Hs. pose proof (ri_reqs _ Hinv) as Hok.
  destruct Hs as [rn rn' os rs j q q' Hj Hpc|rn os rs j q r rsv rsv' reply Hj Hh Hos Hd]; simpl in *;
    (destruct (decide (j = i)) as [->|]; [|by rewrite lookup_insert_ne]); rewrite lookup_insert_eq Hj /=.
  - apply Nat.lt_le_incl. eapply pc_step_work; [done|by eapply Hok].
  - rewrite /req_work /= Hh. lia.
Qed.

(** ** Invariants of calls *)

(** A call that was sent has its request; and the goroutine that accepts requests
    only ends when the network is cleaned up. *)
Record live_inv cs : Prop := {
  lv_ok : calls_ok cs;
  lv_rpc : rpc_inv (cs_rpc cs);
  lv_sent : ∀ i c, cs_calls cs !! i = Some c → c_pc c = Sent → is_Some (reqs (cs_rpc cs) !! i);
  lv_loop : cs_loop cs = false → cs_done cs = true;
}.

Lemma call_step_rpc_inv cs cs' : calls_ok cs → call_step cs cs' → rpc_inv (cs_rpc cs) → rpc_inv (cs_rpc cs').
Proof.
  intros Hok Hs Hi. pose proof (call_step_sim _ _ Hok Hs) as Hr. induction Hr as [|s1 s2 s3 [Hq|He] _ IH] in Hi |- *; [done|..]; apply IH.
  - by eapply req_step_inv.
  - by eapply env_step_inv.
Qed.

Lemma sent_set i c cs :
  (∀ j c, cs_calls cs !! j = Some c → c_pc c = Sent → is_Some (reqs (cs_rpc cs) !! j)) → c_pc c ≠ Sent →
  ∀ j c', <[i := c]> (cs_calls cs) !! j = Some c' → c_pc c' = Sent → is_Some (reqs (cs_rpc cs) !! j).
Proof.
  intros Hs Hc j c' [[-> ->]|[_ Hj]]%lookup_insert_Some Hp; [done|by eapply Hs].
Qed.

Lemma Call_finish_sent ok rb c : c_pc (Call_finish (Name := Name) ok rb c) ≠ Sent.
Proof. rewrite /Call_finish. destruct ok; [|done]. destruct (gob_dec rb (c_reply c)) as [v []]; done. Qed.

Lemma call_step_live cs cs' : live_inv cs → call_step cs cs' → live_inv cs'.
Proof.
  intros [H1 H2 H3 H4] Hs. split; [by eapply call_step_ok|by eapply call_step_rpc_inv|..]; clear H2.
  - destruct Hs as [i e m args reply c Hi Hc|i c Hi Hpc Hl|i c Hi Hpc Hd|i c q ok rb Hi Hpc Hq Ha|Hd Hl|cs' Hc|s' Hs|s' Hs Heq]; simpl.
    + apply sent_set; [done|]. by apply Call_start_pc in Hc as ->.
    + intros j c' [[-> <-]|[Hne Hj]]%lookup_insert_Some Hp; [rewrite lookup_insert_eq; eauto|].
      rewrite lookup_insert_ne //. by eapply H3.
    + by apply sent_set.
    + apply sent_set; [done|]. apply Call_finish_sent.
    + done.
    + rewrite /Cleanup in Hc. destruct (cs_done cs); by simplify_eq.
    + intros j c Hj Hp. destruct (H3 j c Hj Hp) as [q Hq].
      destruct (rpc_step_req _ _ _ _ (or_introl Hs) Hq) as (q' & ? & _). eauto.
    + rewrite Heq. done.
  - destruct Hs as [| | | | |cs' Hc| |]; simpl; try done. rewrite /Cleanup in Hc. destruct (cs_done cs); by simplify_eq.
Qed.

Lemma live_reachable cs : rtc call_step init_calls cs → live_inv cs.
Proof.
  revert cs. refine (rtc_ind_r live_inv init_calls _ _).
  - split; simpl; [apply init_calls_ok|by apply rpc_reachable_inv, rtc_refl|intros i c; by rewrite lookup_empty|done].
  - intros cs cs' _ Hs Hi. by eapply call_step_live.
Qed.

(** ** No step adds work, and some step does some *)

Lemma finish_work ok rb c : pc_work (c_pc (Call_finish (Name := Name) ok rb c)) = 0%nat.
Proof. rewrite /Call_finish. destruct ok; [|done]. destruct (gob_dec rb (c_reply c)) as [v []]; done. Qed.

Lemma call_step_work cs cs' i :
  live_inv cs → is_Some (cs_calls cs !! i) → call_step cs cs' → (work cs' i ≤ work cs i)%nat.
Proof.
  intros [H1 H2 H3 H4] [c0 Hc0] Hs. rewrite /work.
  destruct Hs as [j e m args reply c Hj Hc|j c Hj Hpc Hl|j c Hj Hpc Hd|j c q ok rb Hj Hpc Hq Ha|Hd Hl|cs' Hc|s' Hs|s' Hs Heq]; simpl.
  - rewrite lookup_insert_ne //. congruence.
  - destruct (decide (j = i)) as [->|]; [|by rewrite !lookup_insert_ne].
    rewrite !lookup_insert_eq Hj /= Hpc /req_work /=. lia.
  - destruct (decide (j = i)) as [->|]; [|by rewrite !lookup_insert_ne]. rewrite lookup_insert_eq Hj /=. lia.
  - destruct (decide (j = i)) as [->|]; [|by rewrite !lookup_insert_ne]. rewrite lookup_insert_eq Hj /= finish_work. lia.
  - done.
  - rewrite /Cleanup in Hc. destruct (cs_done cs); by simplify_eq.
  - pose proof (req_step_work _ _ i H2 Hs). lia.
  - by rewrite Heq.
Qed.

(** The handler of the call, if it is running, returns. *)
Definition handler_returns cs (i : nat) : Prop :=
  ∀ q r rsv, reqs (cs_rpc cs) !! i = Some q → rq_handler q = Spawned r → objs (cs_rpc cs) !! rt_server r = Some rsv →
    is_Some (Server_dispatch rsv i (rq_meth q) (rq_args q)).

(** The network has a step for a request that is not answered. *)
Lemma request_progress s i q :
  rpc_inv s → reqs s !! i = Some q → (∀ ok rb, rq_pc q ≠ Answered ok rb) →
  (∀ r rsv, rq_handler q = Spawned r → objs s !! rt_server r = Some rsv → is_Some (Server_dispatch rsv i (rq_meth q) (rq_args q))) →
  ∃ s' q', req_step s s' ∧ reqs s' !! i = Some q' ∧ (req_work q' < req_work q)%nat.
Proof.
  intros Hinv Hi Hna Hret. pose proof (ri_reqs _ Hinv i q Hi) as Hok. destruct s as [rn os rs]. simpl in *.
  assert (∀ rn' q', pc_step rn q rn' q' → ∃ s' q', req_step (mkRpc rn os rs) s' ∧ reqs s' !! i = Some q' ∧ (req_work q' < req_work q)%nat)
    as Hpc.
  { intros rn' q' Hs. exists (mkRpc rn' os (<[i := q']> rs)), q'.
    split_and!; [by econstructor|apply lookup_insert_eq|by eapply pc_step_work]. }
  pose proof Hok as Hok'. rewrite /req_ok in Hok'. destruct (rq_pc q) as [| | |r|r|reply r|r|reply|ok rb] eqn:Epc.
  - by eapply Hpc, step_accept.
  - destruct (readEndnameInfo (rq_end q) rn) as [[[[en sn] sv] rel] ord] eqn:Hinfo.
    destruct en; [|by eapply Hpc, step_no_route; eauto]. destruct sn as [sn|]; [|by eapply Hpc, step_no_route; eauto].
    destruct sv as [sv|]; [by eapply Hpc, step_route|by eapply Hpc, step_no_route; eauto].
  - by eapply Hpc, step_fail.
  - by eapply Hpc, step_spawn.
  - destruct Hok' as [Hh|(live & reply & Hh)]; [|by eapply Hpc, step_receive].
    destruct (ri_server _ Hinv i q r Hi) as [rsv Hrsv]; [by left|]. destruct (Hret r rsv Hh Hrsv) as [[rsv' reply] Hd].
    eexists _, _. split_and!; [by eapply step_handler|apply lookup_insert_eq|]. rewrite /req_work /= Hh. lia.
  - destruct (isServerDead (rq_end q) (rt_name r) (rt_server r) rn) eqn:Hd; [by eapply Hpc, step_dead|by eapply Hpc, step_reply].
  - by eapply Hpc, step_abandon.
  - by eapply Hpc, step_delayed.
  - by destruct (Hna ok rb).
Qed.

Definition pending (pc : CallPc) : Prop := pc = Sending ∨ pc = Sent.

Lemma call_progress cs i c :
  live_inv cs → cs_calls cs !! i = Some c → pending (c_pc c) → handler_returns cs i →
  ∃ cs', call_step cs cs' ∧ (work cs' i < work cs i)%nat.
Proof.
  intros [H1 H2 H3 H4] Hi [Hpc|Hpc] Hret.
  - destruct (cs_loop cs) eqn:Hl.
    + eexists. split; [by eapply call_send|]. rewrite /work /= !lookup_insert_eq Hi /= Hpc /req_work /=. lia.
    + eexists. split; [by eapply call_destroyed; eauto|]. rewrite /work /= lookup_insert_eq Hi /= Hpc /=. lia.
  - destruct (H3 i c Hi Hpc) as [q Hq].
    destruct (rq_pc q) as [| | |r|r|reply r|r|reply|ok rb] eqn:Epc;
      try (destruct (request_progress (cs_rpc cs) i q) as (s' & q' & Hs & Hq' & Hw); [done|done|by rewrite Epc|by intros; eapply Hret|];
        exists (mkCalls s' (cs_done cs) (cs_loop cs) (cs_calls cs)); split; [by apply call_req|];
        rewrite /work /= Hi Hq' Hq /=; lia).
    eexists. split; [by eapply call_reply|]. rewrite /work /= lookup_insert_eq Hi Hq /= finish_work Hpc /=. lia.
Qed.

Lemma calls_kept cs cs' i : call_step cs cs' → is_Some (cs_calls cs !! i) → is_Some (cs_calls cs' !! i).
Proof.
  intros Hs Hi. destruct Hs as [| | | | |cs' Hc| |]; simpl; rewrite ?lookup_insert_is_Some'; auto.
  rewrite /Cleanup in Hc. destruct (cs_done cs); by simplify_eq.
Qed.

Lemma work_bound cs i : (work cs i ≤ 20)%nat.
Proof.
  rewrite /work. assert (∀ q : Req, req_work q ≤ 9)%nat as Hq.
  { intros q. rewrite /req_work. destruct (rq_pc q), (rq_handler q); lia. }
  destruct (cs_calls cs !! i) as [c|], (reqs (cs_rpc cs) !! i) as [q|]; simpl; try specialize (Hq q);
    try destruct (c_pc c); simpl; lia.
Qed.

(** Left to itself a call has returned after at most as many steps. *)
Lemma call_finishes n cs i c :
  live_inv cs → cs_calls cs !! i = Some c → (work cs i ≤ n)%nat → (∀ cs', rtc call_step cs cs' → handler_returns cs' i) →
  ∃ k cs' c', (k ≤ n)%nat ∧ nsteps call_step k cs cs' ∧ cs_calls cs' !! i = Some c' ∧ ¬ pending (c_pc c').
Proof.
  revert cs c. induction n as [|n IH]; intros cs c Hinv Hi Hw Hret.
  - exists 0%nat, cs, c. split_and!; [done|constructor|done|]. intros Hp.
    destruct (call_progress cs i c Hinv Hi Hp (Hret cs (rtc_refl _ _))) as (cs' & _ & Hlt). lia.
  - assert (pending (c_pc c) ∨ ¬ pending (c_pc c)) as [Hp|Hp].
    { unfold pending. destruct (c_pc c); naive_solver. }
    + destruct (call_progress cs i c Hinv Hi Hp (Hret cs (rtc_refl _ _))) as (cs1 & Hs & Hlt).
      destruct (calls_kept cs cs1 i Hs) as [c1 Hc1]; [by exists c|].
      destruct (IH cs1 c1) as (k & cs' & c' & Hk & Hn & Hc' & Hnp); [by eapply call_step_live|done|lia|..].
      { intros cs' Hr. apply Hret. by eapply rtc_l. }
      exists (S k), cs', c'. split_and!; [lia|by econstructor|done..].
    + exists 0%nat, cs, c. split_and!; [lia|constructor|done..].
Qed.
End live.

(** C14: Call is guaranteed to return unless its handler does not. In every state
    clients, servers and the network can reach, with servers killed, ends disabled
    or reconnected, or the whole network cleaned up at any point: no step of
    anybody adds to the work that is left for a call, which is 20 at most; while
    the call has not returned, and unless its handler is running and never returns,
    some step is possible that lessens that work; so that, if handlers return, the
    call can return within that many steps whatever happened before. *)
Theorem Call_returns `{Countable Name} {A : Type} `{Gob V} (cs : @CallState Name _ _ A V) i c :
  rtc call_step init_calls cs → cs_calls cs !! i = Some c →
  (work cs i ≤ 20)%nat ∧
  (∀ cs', call_step cs cs' → (work cs' i ≤ work cs i)%nat) ∧
  (pending (c_pc c) → handler_returns cs i → ∃ cs', call_step cs cs' ∧ (work cs' i < work cs i)%nat) ∧
  ((∀ cs', rtc call_step cs cs' → handler_returns cs' i) →
    ∃ k cs' c', (k ≤ work cs i)%nat ∧ nsteps call_step k cs cs' ∧ cs_calls cs' !! i = Some c' ∧ ¬ pending (c_pc c')).
Proof.
  intros Hinv%live_reachable Hi. split_and!.
  - apply work_bound.
  - intros cs' Hs. apply call_step_work; [done|by exists c|done].
  - by apply call_progress.
  - by eapply call_finishes.
Qed.

(** A call on the network of [one_server] that was just entered. *)
#[local] Existing Instance string_gob.

Definition entered : @Call string string := mkCall "e" "KV.Grow" "xyz" "" Sending.

Lemma Call_returns_witness :
  ∃ cs', call_step (set_call 0 entered one_server) cs' ∧ (work cs' 0 < work (set_call 0 entered one_server) 0)%nat.
Proof.
  assert (rtc call_step init_calls (set_call 0 entered one_server)) as Hr.
  { eapply rtc_r; [exact one_server_reachable|]. exact (call_begin one_server 0 "e" "KV.Grow" "xyz" "" entered eq_refl eq_refl). }
  refine (proj1 (proj2 (proj2 (Call_returns (set_call 0 entered one_server) 0 entered Hr _))) _ _).
  - reflexivity.
  - left. reflexivity.
  - intros q r rsv Hq. exfalso. vm_compute in Hq. discriminate.
Defined.
