(* ===== verification/Persister.v ===== *)
(** * The persister of Raft

    Models [raft/persister.go]. Byte slices are references: the memory maps
    addresses to byte strings, and a caller may overwrite any slice it has
    passed in or been given. [Save], [ReadRaftState] and [ReadSnapshot] clone;
    [Copy] shares the slices with the original. *)
From S2P Require Import Prelude GoBase.

Notation Memory := (gmap nat string).

(** A [Persister]; a nil slice is [None]. *)
Record Persister := mkPersister { raftstate : option nat; snapshot : option nat }.

Definition MakePersister : Persister := mkPersister None None.

(** The bytes of a slice; nil has none. *)
Definition slice (mem : Memory) (p : option nat) : string := default "" (a ← p; mem !! a).

(** [make] and [copy]: a new array with the bytes of [orig]. *)
Definition clone (mem : Memory) (orig : option nat) : Memory * nat :=
  let x := fresh (dom mem) in (<[x := slice mem orig]> mem, x).

Definition Copy (ps : Persister) : Persister := mkPersister (raftstate ps) (snapshot ps).

Definition ReadRaftState (mem : Memory) (ps : Persister) : Memory * nat := clone mem (raftstate ps).
Definition RaftStateSize (mem : Memory) (ps : Persister) : Z := slen (slice mem (raftstate ps)).

Definition Save (mem : Memory) (raftstate snapshot : option nat) : Memory * Persister :=
  let '(mem, r) := clone mem raftstate in
  let '(mem, s) := clone mem snapshot in
  (mem, mkPersister (Some r) (Some s)).

Definition ReadSnapshot (mem : Memory) (ps : Persister) : Memory * nat := clone mem (snapshot ps).
Definition SnapshotSize (mem : Memory) (ps : Persister) : Z := slen (slice mem (snapshot ps)).

(** ** Using persisters

    A state: the memory, the slices the rest of the program can reach, and the
    persisters with what they are supposed to hold. *)
Record PState := mkPState {
  memory : Memory;
  reachable : gset nat;
  persisters : gmap nat Persister;
  contents : gmap nat (string * string);
}.

Definition init_persisters : PState := mkPState ∅ ∅ ∅ ∅.

Definition known (s : PState) (p : option nat) : Prop :=
  match p with None => True | Some a => a ∈ reachable s end.

Inductive persister_step : PState → PState → Prop :=
| ps_alloc mem R P C a data :
    (* the program makes a slice *)
    mem !! a = None → persister_step (mkPState mem R P C) (mkPState (<[a := data]> mem) ({[a]} ∪ R) P C)
| ps_write mem R P C a data :
    (* and overwrites one it can reach *)
    a ∈ R → persister_step (mkPState mem R P C) (mkPState (<[a := data]> mem) R P C)
| ps_Make mem R P C i :
    P !! i = None →
    persister_step (mkPState mem R P C) (mkPState mem R (<[i := MakePersister]> P) (<[i := ("", "")]> C))
| ps_Copy mem R P C i j ps c :
    P !! i = Some ps → C !! i = Some c → P !! j = None →
    persister_step (mkPState mem R P C) (mkPState mem R (<[j := Copy ps]> P) (<[j := c]> C))
| ps_Save mem R P C i ps r sn mem' ps' :
    P !! i = Some ps → known (mkPState mem R P C) r → known (mkPState mem R P C) sn →
    Save mem r sn = (mem', ps') →
    persister_step (mkPState mem R P C)
      (mkPState mem' R (<[i := ps']> P) (<[i := (slice mem r, slice mem sn)]> C))
| ps_ReadRaftState mem R P C i ps mem' a :
    P !! i = Some ps → ReadRaftState mem ps = (mem', a) →
    persister_step (mkPState mem R P C) (mkPState mem' ({[a]} ∪ R) P C)
| ps_ReadSnapshot mem R P C i ps mem' a :
    P !! i = Some ps → ReadSnapshot mem ps = (mem', a) →
    persister_step (mkPState mem R P C) (mkPState mem' ({[a]} ∪ R) P C).

(** The slices of a persister are allocated and out of the program's reach. *)
Definition private (mem : Memory) (R : gset nat) (p : option nat) : Prop :=
  match p with None => True | Some a => is_Some (mem !! a) ∧ a ∉ R end.

Record persister_inv (s : PState) : Prop := {
  pi_reachable : ∀ a, a ∈ reachable s → is_Some (memory s !! a);
  pi_contents : ∀ i ps, persisters s !! i = Some ps →
    private (memory s) (reachable s) (raftstate ps) ∧ private (memory s) (reachable s) (snapshot ps) ∧
    contents s !! i = Some (slice (memory s) (raftstate ps), slice (memory s) (snapshot ps));
}.

Lemma clone_spec mem orig mem' x :
  clone mem orig = (mem', x) → mem !! x = None ∧ mem' = <[x := slice mem orig]> mem.
Proof. intros [= <- <-]. split; [|done]. apply not_elem_of_dom, is_fresh. Qed.

(** Writing where a private slice is not does not change it. *)
Lemma slice_write mem a data p : p ≠ Some a → slice (<[a := data]> mem) p = slice mem p.
Proof. intros Hp. destruct p as [b|]; [|done]. rewrite /slice /= lookup_insert_ne //. congruence. Qed.

Lemma slice_new mem a data : slice (<[a := data]> mem) (Some a) = data.
Proof. by rewrite /slice /= lookup_insert_eq. Qed.

Lemma private_write mem R R' a data p :
  private mem R p → (∀ b, b ∈ R' → b ∈ R ∨ mem !! b = None) → private (<[a := data]> mem) R' p.
Proof.
  destruct p as [b|]; [|done]. intros [[d Hd] HR] HR'. split.
  - destruct (decide (b = a)) as [->|]; [rewrite lookup_insert_eq; eauto|rewrite lookup_insert_ne //; eauto].
  - intros [?|?]%HR'; [done|congruence].
Qed.

Lemma private_not_reachable mem R p a : private mem R p → a ∈ R ∨ mem !! a = None → p ≠ Some a.
Proof. intros Hp Ha ->. destruct Hp as [[d Hd] Hn]. destruct Ha as [?|?]; [done|congruence]. Qed.

(** A write to a slice the program can reach, or a new one. *)
Lemma inv_write mem R R' P C a data :
  persister_inv (mkPState mem R P C) → a ∈ R ∨ mem !! a = None →
  (∀ b, b ∈ R' ↔ b ∈ R ∨ b = a) → persister_inv (mkPState (<[a := data]> mem) R' P C).
Proof.
  intros [HR HC] Ha HR'. simpl in *. assert (∀ b, b ∈ R' → b ∈ R ∨ mem !! b = None) as Hsub.
  { intros b [?| ->]%HR'; auto. }
  split; simpl.
  - intros b Hb. destruct (decide (b = a)) as [->|]; [rewrite lookup_insert_eq; eauto|].
    rewrite lookup_insert_ne //. apply HR. apply HR' in Hb as [?|?]; done.
  - intros i ps Hi. destruct (HC i ps Hi) as (H1 & H2 & H3). split_and!; [by eapply private_write..|].
    rewrite H3 !slice_write //; by eapply private_not_reachable.
Qed.

Lemma inv_weaken mem R P C a data :
  persister_inv (mkPState mem R P C) → mem !! a = None → persister_inv (mkPState (<[a := data]> mem) R P C).
Proof.
  intros [HR HC] Ha. simpl in *. split; simpl.
  - intros b Hb. destruct (decide (b = a)) as [->|]; [rewrite lookup_insert_eq; eauto|].
    rewrite lookup_insert_ne //. by apply HR.
  - intros i ps Hi. destruct (HC i ps Hi) as (H1 & H2 & H3).
    split_and!; [eapply private_write; [done|by auto]..|].
    rewrite H3 !slice_write //; eapply private_not_reachable; eauto.
Qed.

Lemma persister_step_inv s s' : persister_inv s → persister_step s s' → persister_inv s'.
Proof.
  intros Hinv Hstep.
  destruct Hstep as [mem R P C a data Ha|mem R P C a data Ha|mem R P C i Hi|mem R P C i j ps c Hi Hc Hj|
    mem R P C i ps r sn mem' ps' Hi Hr Hsn Hsave|mem R P C i ps mem' a Hi Hread|mem R P C i ps mem' a Hi Hread].
  - eapply inv_write; [done|by right|set_solver].
  - eapply inv_write; [done|by left|]. set_solver.
  - destruct Hinv as [HR HC]. split; simpl in *; [done|]. intros j ps Hj.
    destruct (decide (j = i)) as [->|]; [|rewrite lookup_insert_ne // in Hj; rewrite lookup_insert_ne //; by apply HC].
    rewrite lookup_insert_eq in Hj. simplify_eq. by rewrite lookup_insert_eq.
  - destruct Hinv as [HR HC]. split; simpl in *; [done|]. intros k ps0 Hk.
    destruct (decide (k = j)) as [->|]; [|rewrite lookup_insert_ne // in Hk; rewrite lookup_insert_ne //; by apply HC].
    rewrite lookup_insert_eq in Hk. simplify_eq. rewrite lookup_insert_eq. simpl.
    destruct (HC i ps Hi) as (? & ? & ?). split_and!; [done..|congruence].
  - rewrite /Save in Hsave. destruct (clone mem r) as [mem1 x] eqn:E1. destruct (clone mem1 sn) as [mem2 y] eqn:E2.
    simplify_eq. apply clone_spec in E1 as [Hx ->]. apply clone_spec in E2 as [Hy ->].
    assert (x ≠ y) as Hxy by (intros ->; by rewrite lookup_insert_eq in Hy).
    assert (sn ≠ Some x) as Hsx.
    { intros ->. destruct Hinv as [HR _]. simpl in *. destruct (HR x Hsn). congruence. }
    pose proof (inv_weaken _ _ _ _ x (slice mem r) Hinv Hx) as Hinv1.
    pose proof (inv_weaken _ _ _ _ y (slice (<[x:=slice mem r]> mem) sn) Hinv1 Hy) as [HR HC].
    split; simpl in *; [done|]. intros j ps0 Hj.
    destruct (decide (j = i)) as [->|]; [|rewrite lookup_insert_ne // in Hj; rewrite lookup_insert_ne //; by apply HC].
    rewrite lookup_insert_eq in Hj. simplify_eq. rewrite lookup_insert_eq. simpl.
    assert (x ∉ R ∧ y ∉ R) as [Hxr Hyr].
    { destruct Hinv as [HR0 _]. simpl in *. rewrite lookup_insert_ne // in Hy.
      split; intros Hin; destruct (HR0 _ Hin); congruence. }
    split_and!; [rewrite lookup_insert_ne // lookup_insert_eq; eauto|done|rewrite lookup_insert_eq; eauto|done|].
    rewrite (slice_write _ y); [|by intros [= ->]].
    by rewrite !slice_new slice_write.
  - apply clone_spec in Hread as [Ha ->]. eapply inv_write; [done|by right|set_solver].
  - apply clone_spec in Hread as [Ha ->]. eapply inv_write; [done|by right|set_solver].
Qed.

Lemma persister_reachable_inv s : rtc persister_step init_persisters s → persister_inv s.
Proof.
  revert s. refine (rtc_ind_r persister_inv init_persisters _ _); [|by eauto using persister_step_inv].
  split; simpl; [set_solver|]. intros i ps. by rewrite lookup_empty.
Qed.

(** C40: The persister keeps what was saved. However the rest of the program
    overwrites slices it passed to [Save] or got from [ReadRaftState] and
    [ReadSnapshot], and although [Copy] shares the slices of the original: in
    every reachable state reading a persister gives exactly the Raft state and
    the snapshot of its last [Save] (of the one it was copied from, if it has
    not been saved to since), both of the same [Save], and the sizes reported
    are theirs. *)
Theorem persister_keeps s i ps mem1 a1 mem2 a2 :
  rtc persister_step init_persisters s → persisters s !! i = Some ps →
  ReadRaftState (memory s) ps = (mem1, a1) → ReadSnapshot (memory s) ps = (mem2, a2) →
  ∃ r sn, contents s !! i = Some (r, sn) ∧ mem1 !! a1 = Some r ∧ mem2 !! a2 = Some sn ∧
    RaftStateSize (memory s) ps = slen r ∧ SnapshotSize (memory s) ps = slen sn.
Proof.
  intros [_ HC]%persister_reachable_inv Hi [_ ->]%clone_spec [_ ->]%clone_spec.
  destruct (HC i ps Hi) as (_ & _ & Hc). eexists _, _. split; [exact Hc|].
  by rewrite !lookup_insert_eq.
Qed.

(** A persister saved to from two slices; the program then overwrites the first. *)
Definition persister_sample : PState :=
  mkPState {[0%nat := "garbage"; 1%nat := "state"; 2%nat := ""]} {[0%nat]}
    {[7%nat := mkPersister (Some 1%nat) (Some 2%nat)]} {[7%nat := ("state", "")]}.

Lemma persister_sample_reachable : rtc persister_step init_persisters persister_sample.
Proof.
  eapply rtc_l; [apply (ps_alloc ∅ ∅ ∅ ∅ 0%nat "state"); reflexivity|].
  eapply rtc_l; [apply (ps_Make _ _ _ _ 7%nat); reflexivity|].
  eapply rtc_l; [eapply (ps_Save _ _ _ _ 7%nat _ (Some 0%nat) None); [reflexivity|simpl; set_solver|done|reflexivity]|].
  eapply rtc_l; [apply (ps_write _ _ _ _ 0%nat "garbage"); set_solver|].
  match goal with |- rtc _ ?s ?t => replace s with t by (vm_compute; reflexivity); apply rtc_refl end.
Qed.

Lemma persister_keeps_witness :
  ∃ r sn, contents persister_sample !! 7%nat = Some (r, sn) ∧ (r, sn) = ("state", "").
Proof.
  destruct (ReadRaftState (memory persister_sample) (mkPersister (Some 1%nat) (Some 2%nat))) as [m1 a1] eqn:E1.
  destruct (ReadSnapshot (memory persister_sample) (mkPersister (Some 1%nat) (Some 2%nat))) as [m2 a2] eqn:E2.
  destruct (persister_keeps persister_sample 7%nat _ m1 a1 m2 a2 persister_sample_reachable eq_refl E1 E2)
    as (r & sn & Hc & _).
  exists r, sn. split; [exact Hc|]. by vm_compute in Hc; simplify_eq.
Defined.
