(* ===== verification/Clerks.v ===== *)
(** * The clerks of the shard controller and of the sharded key/value store

    Models [shardctrler/client.go] and [shardkv/client.go] with the types of
    both [common.go] files. The servers of these services are not part of the
    repository (their handlers are empty), nor is the network's choice of which
    messages arrive: both are the function [net], which answers a call given
    every call made before it, [None] being a call that failed. The [for] loops
    that retry for ever are given a number of rounds; [None] as the result of
    an operation means it had not returned by then. *)
From stdpp Require Import vector.
From S2P Require Import Prelude GoBase.

(** ** The messages *)

Definition NShards : nat := 10.

Record Config := mkConfig {
  Num : Z;
  Shards : vec Z NShards;
  Groups : gmap Z (list string);
}.

#[global] Instance Config_eq_dec : EqDecision Config.
Proof. solve_decision. Defined.

(** The zero value of the struct. *)
Definition zero_Config : Config := mkConfig 0 (vreplicate NShards 0) ∅.

Record CtrlReply := mkCtrlReply { WrongLeader : bool; CtrlErr : string }.
Record QueryReply := mkQueryReply { QWrongLeader : bool; QErr : string; QConfig : Config }.
Record PutAppendReply := mkPutAppendReply { PErr : string }.
Record GetReply := mkGetReply { GErr : string; GValue : string }.

Definition OK : string := "OK".
Definition ErrNoKey : string := "ErrNoKey".
Definition ErrWrongGroup : string := "ErrWrongGroup".
Definition ErrWrongLeader : string := "ErrWrongLeader".

(** The methods called, with their arguments ([QueryArgs], [JoinArgs], ...). *)
Inductive Args :=
| Join_args (Servers : gmap Z (list string))
| Leave_args (GIDs : list Z)
| Move_args (Shard GID : Z)
| Query_args (num : Z)
| Get_args (Key : string)
| PutAppend_args (Key Value Op : string).

Definition Reply (a : Args) : Type :=
  match a with
  | Query_args _ => QueryReply
  | Join_args _ | Leave_args _ | Move_args _ _ => CtrlReply
  | Get_args _ => GetReply
  | PutAppend_args _ _ _ => PutAppendReply
  end.

(** ** Loops *)

(** How the body of a loop ends. [Diverge]: a call in it has not returned. *)
Inductive Ctl (R : Type) := Return (r : R) | Break | Continue | Diverge.
Arguments Return {_} _.
Arguments Break {_}.
Arguments Continue {_}.
Arguments Diverge {_}.

Section loops.
Context {S A R : Type}.

(** [for _, a := range l]. *)
Fixpoint for_range (l : list A) (body : A → S → S * Ctl R) (s : S) : S * Ctl R :=
  match l with
  | [] => (s, Continue)
  | a :: l' =>
      match body a s with
      | (s', Continue) => for_range l' body s'
      | (s', Break) => (s', Continue)
      | (s', c) => (s', c)
      end
  end.

(** [for { body }], for at most [fuel] rounds. *)
Fixpoint forever (fuel : nat) (body : S → S * Ctl R) (s : S) : S * option R :=
  match fuel with
  | O => (s, None)
  | Datatypes.S fuel' =>
      match body s with
      | (s', Return r) => (s', Some r)
      | (s', Diverge) | (s', Break) => (s', None)
      | (s', Continue) => forever fuel' body s'
      end
  end.
End loops.

Section clerks.
Context {End : Type}.

(** A call made and its outcome. *)
Record Entry := mkEntry { e_end : End; e_args : Args; e_reply : option (Reply e_args) }.
Notation Log := (list Entry).

Variable net : Log → End → ∀ a : Args, option (Reply a).

(** [srv.Call(method, args, &reply)]. *)
Definition Call (srv : End) (a : Args) (log : Log) : Log * option (Reply a) :=
  let r := net log srv a in (log ++ [mkEntry srv a r], r).

(** ** The clerk of the shard controller *)

Record CtrlClerk := mkCtrlClerk { servers : list End }.

Definition Ctrl_MakeClerk (servers : list End) : CtrlClerk := mkCtrlClerk servers.

Definition Query (fuel : nat) (ck : CtrlClerk) (num : Z) : Log → Log * option Config :=
  forever fuel (for_range (servers ck) (λ srv log,
    let '(log, reply) := Call srv (Query_args num) log in
    (log, match reply with
          | Some reply => if negb (QWrongLeader reply) then Return (QConfig reply) else Continue
          | None => Continue
          end))).

Definition Join (fuel : nat) (ck : CtrlClerk) (srvs : gmap Z (list string)) : Log → Log * option () :=
  forever fuel (for_range (servers ck) (λ srv log,
    let '(log, reply) := Call srv (Join_args srvs) log in
    (log, match reply with
          | Some reply => if negb (WrongLeader reply) then Return () else Continue
          | None => Continue
          end))).

Definition Leave (fuel : nat) (ck : CtrlClerk) (gids : list Z) : Log → Log * option () :=
  forever fuel (for_range (servers ck) (λ srv log,
    let '(log, reply) := Call srv (Leave_args gids) log in
    (log, match reply with
          | Some reply => if negb (WrongLeader reply) then Return () else Continue
          | None => Continue
          end))).

Definition Move (fuel : nat) (ck : CtrlClerk) (shard gid : Z) : Log → Log * option () :=
  forever fuel (for_range (servers ck) (λ srv log,
    let '(log, reply) := Call srv (Move_args shard gid) log in
    (log, match reply with
          | Some reply => if negb (WrongLeader reply) then Return () else Continue
          | None => Continue
          end))).

(** ** The clerk of the key/value store *)

Definition key2shard (key : string) : Z :=
  let shard := match key with EmptyString => 0 | String c _ => byte_Z c end in
  Z.rem shard (Z.of_nat NShards).

Record Clerk := mkClerk {
  sm : CtrlClerk;
  config : Config;
  make_end : string → End;
}.

Definition MakeClerk (ctrlers : list End) (make_end : string → End) : Clerk :=
  mkClerk (Ctrl_MakeClerk ctrlers) zero_Config make_end.

(** [ck.config.Shards[shard]]; [None]: index out of range. *)
Definition shard_gid (c : Config) (shard : Z) : option Z := vec_to_list (Shards c) !! Z.to_nat shard.

(** [ck.config = ck.sm.Query(-1)]. *)
Definition refresh (fuel : nat) (s : Clerk * Log) {R} : (Clerk * Log) * Ctl R :=
  let '(ck, log) := s in
  match Query fuel (sm ck) (-1) log with
  | (log, Some c) => ((mkClerk (sm ck) c (make_end ck), log), Continue)
  | (log, None) => ((ck, log), Diverge)
  end.

Definition Get (fuel : nat) (key : string) : Clerk * Log → (Clerk * Log) * option string :=
  forever fuel (λ s,
    let shard := key2shard key in
    match shard_gid (config s.1) shard with
    | None => (s, Diverge)
    | Some gid =>
        let '(s, c) :=
          match Groups (config s.1) !! gid with
          | Some servers =>
              for_range servers (λ name s,
                let srv := make_end s.1 name in
                let '(log, reply) := Call srv (Get_args key) s.2 in
                ((s.1, log),
                 match reply with
                 | Some reply =>
                     if bool_decide (GErr reply = OK) || bool_decide (GErr reply = ErrNoKey)
                     then Return (GValue reply)
                     else if bool_decide (GErr reply = ErrWrongGroup) then Break
                     else Continue
                 | None => Continue
                 end)) s
          | None => (s, Continue)
          end in
        match c with Continue => refresh fuel s | c => (s, c) end
    end).

Definition PutAppend (fuel : nat) (key value op : string) : Clerk * Log → (Clerk * Log) * option () :=
  forever fuel (λ s,
    let shard := key2shard key in
    match shard_gid (config s.1) shard with
    | None => (s, Diverge)
    | Some gid =>
        let '(s, c) :=
          match Groups (config s.1) !! gid with
          | Some servers =>
              for_range servers (λ name s,
                let srv := make_end s.1 name in
                let '(log, reply) := Call srv (PutAppend_args key value op) s.2 in
                ((s.1, log),
                 match reply with
                 | Some reply =>
                     if bool_decide (PErr reply = OK) then Return ()
                     else if bool_decide (PErr reply = ErrWrongGroup) then Break
                     else Continue
                 | None => Continue
                 end)) s
          | None => (s, Continue)
          end in
        match c with Continue => refresh fuel s | c => (s, c) end
    end).

Definition Put (fuel : nat) (key value : string) := PutAppend fuel key value "Put".
Definition Append (fuel : nat) (key value : string) := PutAppend fuel key value "Append".

End clerks.
Arguments Entry : clear implicits.
Arguments CtrlClerk : clear implicits.
Arguments Clerk : clear implicits.
