(* ===== verification/ClerksThm.v ===== *)
(** * What the clerks promise

    Rules for the loops, the retry loop of the shard controller's clerk, and
    the loop of the key/value clerk that follows the configuration. *)
From stdpp Require Import vector.
From S2P Require Import Prelude GoBase Clerks.

(** ** Rules for the loops *)

Section rules.
Context {S A R : Type}.
Implicit Types (s : S) (J : S → Prop) (Q : R → S → Prop).

(** What a loop leaves: the result, or a state to go on from. *)
Definition ends (J : S → Prop) (Q : R → S → Prop) (o : S * Ctl R) : Prop :=
  match o.2 with Return r => Q r o.1 | Continue => J o.1 | _ => False end.

Lemma for_range_rule (I : nat → S → Prop) J Q (body : A → S → S * Ctl R) l s :
  (∀ i a s, l !! i = Some a → I i s →
     match body a s with
     | (s', Return r) => Q r s' | (s', Continue) => I (Datatypes.S i) s' | (s', Break) => J s' | _ => False
     end) →
  (∀ s, I (length l) s → J s) → I O s → ends J Q (for_range l body s).
Proof.
  revert I s. induction l as [|a l IH]; intros I s Hb HJ H0; [by apply HJ|]. simpl.
  pose proof (Hb O a s eq_refl H0) as H1. destruct (body a s) as [s' []]; try done.
  apply (IH (λ i, I (Datatypes.S i))); [|done..]. intros i. by apply (Hb (Datatypes.S i)).
Qed.

(** A loop some body of which returns, none breaking off, returns. *)
Lemma for_range_returns (I : S → Prop) (body : A → S → S * Ctl R) l a s :
  (∀ a s, a ∈ l → I s → match body a s with (_, Return _) => True | (s', Continue) => I s' | _ => False end) →
  a ∈ l → (∀ s, I s → ∃ s' r, body a s = (s', Return r)) → I s →
  ∃ s' r, for_range l body s = (s', Return r).
Proof.
  revert s. induction l as [|b l IH]; intros s Hb Ha Hr Hs; [by apply not_elem_of_nil in Ha|]. simpl.
  pose proof (Hb b s (list_elem_of_here _ _) Hs) as H1.
  destruct (body b s) as [s' [r| | |]] eqn:E; try done; [by eauto|].
  apply elem_of_cons in Ha as [<-|Ha]; [destruct (Hr s Hs) as (? & ? & ?); congruence|].
  apply IH; [|done..]. intros a' s'' Ha'. apply Hb. by right.
Qed.

Lemma forever_rule J Q (body : S → S * Ctl R) fuel s s' r :
  (∀ s, J s → match body s with (s', Return r) => Q r s' | (s', Continue) => J s' | _ => True end) →
  J s → forever fuel body s = (s', Some r) → Q r s'.
Proof.
  intros Hb. revert s. induction fuel as [|fuel IH]; intros s Hs; simpl; [done|].
  pose proof (Hb s Hs) as H1. destruct (body s) as [s1 []]; try done; [by intros [= -> ->]|by apply IH].
Qed.

Lemma forever_returns J (m : S → nat) (body : S → S * Ctl R) fuel s :
  (∀ s, J s → match body s with (_, Return _) => True | (s', Continue) => J s' ∧ (m s' < m s)%nat | _ => False end) →
  J s → (m s < fuel)%nat → ∃ s' r, forever fuel body s = (s', Some r).
Proof.
  intros Hb. revert s. induction fuel as [|fuel IH]; intros s Hs Hm; [lia|]. simpl.
  pose proof (Hb s Hs) as H1. destruct (body s) as [s1 []]; try done; [by eauto|].
  destruct H1. apply IH; [done|lia].
Qed.
End rules.

(** ** Retrying until a server accepts *)

Section clerks.
Context {End : Type} (net : list (Entry End) → End → ∀ a : Args, option (Reply a)).
Notation Log := (list (Entry End)).
Implicit Types (log : Log) (ck : Clerk End).

(** The loop of the four operations of the controller's clerk. *)
Definition attempt {V} (a : Args) (acc : Reply a → bool) (f : Reply a → V) (srv : End) (log : Log) : Log * Ctl V :=
  let '(log, reply) := Call net srv a log in
  (log, match reply with
        | Some reply => if acc reply then Return (f reply) else Continue
        | None => Continue
        end).

Definition retry {V} (ends : list End) (a : Args) (acc : Reply a → bool) (f : Reply a → V)
    (fuel : nat) : Log → Log * option V :=
  forever fuel (for_range ends (attempt a acc f)).

(** [log] extends [log0] by calls of [a] only, the [k]-th to server [k] modulo
    the number of servers, none of them accepted. *)
Definition refused (ends : list End) (a : Args) (acc : Reply a → bool) (log0 log : Log) : Prop :=
  ∃ new, log = log0 ++ new ∧ ∀ k e, new !! k = Some e →
    ∃ srv r, e = mkEntry srv a r ∧ ends !! (k mod length ends)%nat = Some srv ∧ from_option acc false r = false.

(** The operation ended with the first call accepted, and gives its reply. *)
Definition accepted_at {V} (ends : list End) (a : Args) (acc : Reply a → bool) (f : Reply a → V)
    (log0 log : Log) (v : V) : Prop :=
  ∃ log1 srv r, refused ends a acc log0 log1 ∧ log = log1 ++ [mkEntry srv a (Some r)] ∧
    ends !! ((length log1 - length log0) mod length ends)%nat = Some srv ∧
    net log1 srv a = Some r ∧ acc r = true ∧ v = f r.

(** From some point on server [srv] accepts the call. *)
Definition accepts_from (n : nat) (srv : End) (a : Args) (acc : Reply a → bool) : Prop :=
  ∀ log, (n ≤ length log)%nat → ∃ r, net log srv a = Some r ∧ acc r = true.

Lemma refused_refl ends a acc log : refused ends a acc log log.
Proof. exists []. by rewrite app_nil_r. Qed.

(** One more call that is not accepted. *)
Lemma refused_snoc ends a acc log0 log srv r :
  refused ends a acc log0 log → ends !! ((length log - length log0) mod length ends)%nat = Some srv →
  from_option acc false r = false → refused ends a acc log0 (log ++ [mkEntry srv a r]).
Proof.
  intros (new & -> & Hnew) Hsrv Hr. exists (new ++ [mkEntry srv a r]). rewrite -app_assoc. split; [done|].
  intros k e [Hk|[Hk He]]%lookup_app_Some; [by apply Hnew|].
  rewrite length_app in Hsrv. apply list_lookup_singleton_Some in He as [Hk0 <-].
  exists srv, r. split_and!; [done| |done]. rewrite -Hsrv. do 2 f_equal. lia.
Qed.

Lemma refused_length ends a acc log0 log : refused ends a acc log0 log → (length log0 ≤ length log)%nat.
Proof. intros (new & -> & _). rewrite length_app. lia. Qed.

(** One round of the loop. *)
Lemma round_accepted {V} ends a acc (f : Reply a → V) log0 log :
  let J l := refused ends a acc log0 l ∧ ((length l - length log0) mod length ends = 0)%nat in
  J log → ClerksThm.ends J (λ v l, accepted_at ends a acc f log0 l v) (for_range ends (attempt a acc f) log).
Proof.
  intros J [Hlog Hmod].
  apply (for_range_rule (λ i l,
    refused ends a acc log0 l ∧ ((length l - length log0) mod length ends = i mod length ends)%nat)).
  - intros i srv l Hi [Hl Hm]. pose proof (lookup_lt_Some _ _ _ Hi) as Hlt. pose proof (refused_length _ _ _ _ _ Hl).
    assert (ends !! ((length l - length log0) mod length ends)%nat = Some srv) as Hsrv
      by (by rewrite Hm Nat.mod_small).
    assert ((length (l ++ [mkEntry srv a (net l srv a)]) - length log0) mod length ends = S i mod length ends)%nat.
    { rewrite length_app /= Nat.add_sub_swap // -Nat.Div0.add_mod_idemp_l Hm Nat.Div0.add_mod_idemp_l. f_equal. lia. }
    rewrite /attempt /Call. destruct (net l srv a) as [r|] eqn:Enet; [destruct (acc r) eqn:Eacc|].
    + exists l, srv, r. done.
    + split; [by apply refused_snoc|done].
    + split; [by apply refused_snoc|done].
  - intros l [Hl Hm]. split; [done|]. rewrite Hm. destruct ends; [done|]. by apply Nat.Div0.mod_same.
  - split; [done|]. rewrite Hmod. by rewrite Nat.Div0.mod_0_l.
Qed.

Lemma retry_accepted {V} ends a acc (f : Reply a → V) fuel log log' v :
  retry ends a acc f fuel log = (log', Some v) → accepted_at ends a acc f log log' v.
Proof.
  intros Hret. set (J := λ l, refused ends a acc log l ∧ ((length l - length log) mod length ends = 0)%nat).
  refine (forever_rule J (λ v log', accepted_at ends a acc f log log' v) _ _ _ _ _ _ _ Hret).
  - intros l Hl. pose proof (round_accepted ends a acc f log l Hl) as Hr. unfold ClerksThm.ends in Hr.
    by destruct (for_range _ _ l) as [? []].
  - split; [apply refused_refl|]. by rewrite Nat.sub_diag Nat.Div0.mod_0_l.
Qed.
(** Each round calls every server once, unless it returns. *)
Lemma round_length {V} ends a acc (f : Reply a → V) log :
  ClerksThm.ends (λ l, length l = (length log + length ends)%nat) (λ _ _, True)
    (for_range ends (attempt a acc f) log).
Proof.
  apply (for_range_rule (λ i l, length l = (length log + i)%nat)); [|done|lia].
  intros i srv l _ Hl. rewrite /attempt /Call.
  destruct (net l srv a) as [r|]; [destruct (acc r)|]; rewrite ?length_app /=; [done|lia..].
Qed.

Lemma retry_returns {V} ends a acc (f : Reply a → V) n srv fuel log :
  srv ∈ ends → accepts_from n srv a acc → (n < fuel)%nat →
  ∃ log' v, retry ends a acc f fuel log = (log', Some v).
Proof.
  intros Hsrv Hacc Hfuel.
  apply (forever_returns (λ _, True) (λ l, n - length l)%nat); [|done|lia].
  intros l _. pose proof (round_length ends a acc f l) as Hlen. unfold ClerksThm.ends in Hlen.
  assert (ends ≠ []) as Hne by (intros ->; by apply not_elem_of_nil in Hsrv).
  destruct (decide (n ≤ length l)%nat) as [Hn|Hn].
  - destruct (for_range_returns (λ l, n ≤ length l)%nat (attempt a acc f) ends srv l) as (? & ? & ->); [|done| |done|done].
    + intros srv' l' _ Hl'. rewrite /attempt /Call.
      destruct (net l' srv' a) as [r|]; [destruct (acc r)|]; rewrite ?length_app /=; [done|lia..].
    + intros l' Hl'. rewrite /attempt /Call. destruct (Hacc l' Hl') as (r & -> & ->). eauto.
  - destruct (for_range _ _ _) as [l' []]; try done. simpl in *. destruct ends; [done|]. simpl in *. lia.
Qed.

(** What an operation of the controller's clerk does: it calls the servers in
    turn until one accepts, and it returns if one of them accepts from some
    point on. *)
Definition retries {V} (op : nat → Log → Log * option V) (ends : list End) (a : Args)
    (acc : Reply a → bool) (f : Reply a → V) : Prop :=
  (∀ fuel log log' v, op fuel log = (log', Some v) → accepted_at ends a acc f log log' v) ∧
  (∀ n srv fuel log, srv ∈ ends → accepts_from n srv a acc → (n < fuel)%nat →
     ∃ log' v, op fuel log = (log', Some v)).

Lemma retry_retries {V} ends a acc (f : Reply a → V) : retries (retry ends a acc f) ends a acc f.
Proof. split; [intros *; apply retry_accepted|intros *; apply retry_returns]. Qed.

(** The operations of the shard controller's clerk: [Query], [Join],
    [Leave] and [Move] call the servers in turn, again and again in the same
    order and always with the same arguments, and return at the first reply
    that arrives without [WrongLeader], [Query] with the configuration of that
    reply. If one of the servers answers so from some point on they return,
    whatever the other servers do. *)
Theorem ctrl_clerk_retries (ck : CtrlClerk End) num srvs gids shard gid :
  retries (λ fuel, Query net fuel ck num) (servers ck) (Query_args num) (λ r, negb (QWrongLeader r)) QConfig ∧
  retries (λ fuel, Join net fuel ck srvs) (servers ck) (Join_args srvs) (λ r, negb (WrongLeader r)) (λ _, ()) ∧
  retries (λ fuel, Leave net fuel ck gids) (servers ck) (Leave_args gids) (λ r, negb (WrongLeader r)) (λ _, ()) ∧
  retries (λ fuel, Move net fuel ck shard gid) (servers ck) (Move_args shard gid)
    (λ r, negb (WrongLeader r)) (λ _, ()).
Proof. split_and!; apply retry_retries. Qed.

(** ** Following the configuration *)

Lemma key2shard_bound key : 0 ≤ key2shard key < Z.of_nat NShards.
Proof.
  rewrite /key2shard. destruct key as [|c key]; [by vm_compute|].
  pose proof (byte_Z_range c). apply Z.rem_bound_pos; [lia|done].
Qed.

(** The index of an array of shards is never out of range. *)
Lemma shard_gid_Some c key : ∃ gid, shard_gid c (key2shard key) = Some gid.
Proof.
  apply lookup_lt_is_Some. rewrite length_vec_to_list. pose proof (key2shard_bound key). lia.
Qed.

(** The configurations the controller has answered [Query] with. *)
Definition answered_config (e : Entry End) : option Config :=
  match e with
  | mkEntry _ (Query_args _) (Some r) => if QWrongLeader r then None else Some (QConfig r)
  | _ => None
  end.
Definition answered_configs : Log → list Config := omap answered_config.

(** The loop shared by [Get] and [PutAppend]. *)
Section kv.
Context {V : Type} (key : string) (a : Args) (acc wrong : Reply a → bool) (f : Reply a → V).

Definition kv_attempt (name : string) (s : Clerk End * Log) : (Clerk End * Log) * Ctl V :=
  let srv := make_end s.1 name in
  let '(log, reply) := Call net srv a s.2 in
  ((s.1, log),
   match reply with
   | Some reply => if acc reply then Return (f reply) else if wrong reply then Break else Continue
   | None => Continue
   end).

Definition kv_round (fuel : nat) (s : Clerk End * Log) : (Clerk End * Log) * Ctl V :=
  let shard := key2shard key in
  match shard_gid (config s.1) shard with
  | None => (s, Diverge)
  | Some gid =>
      let '(s, c) :=
        match Groups (config s.1) !! gid with
        | Some servers => for_range servers kv_attempt s
        | None => (s, Continue)
        end in
      match c with Continue => refresh net fuel s | c => (s, c) end
  end.

Definition kv_loop (fuel : nat) : Clerk End * Log → (Clerk End * Log) * option V := forever fuel (kv_round fuel).

(** The servers of the group that owns the key in a configuration. *)
Definition owners (c : Config) : list string :=
  default [] (gid ← shard_gid c (key2shard key); Groups c !! gid).

Lemma kv_round_eq fuel s :
  kv_round fuel s =
    let '(s, c) := for_range (owners (config s.1)) kv_attempt s in
    match c with Continue => refresh net fuel s | c => (s, c) end.
Proof.
  rewrite /kv_round /owners. destruct (shard_gid_Some (config s.1) key) as [gid ->]. simpl.
  by destruct (Groups _ !! gid).
Qed.

(** A call of this operation that did not end it. *)
Definition passed (ck : Clerk End) (e : Entry End) : Prop :=
  (∃ srv r, e = mkEntry srv (Query_args (-1)) r ∧ srv ∈ servers (sm ck)) ∨
  (∃ name r, e = mkEntry (make_end ck name) a r ∧ from_option acc false r = false).

(** [s] is reached from [s0] without an answer, and holds the last
    configuration the clerk was given. *)
Definition follows (s0 s : Clerk End * Log) : Prop :=
  sm s.1 = sm s0.1 ∧ make_end s.1 = make_end s0.1 ∧
  ∃ new, s.2 = s0.2 ++ new ∧ Forall (passed s0.1) new ∧
    config s.1 = default (config s0.1) (last (answered_configs new)).

(** The last call is to a server of the group that owns the key in the
    configuration the clerk holds, and gives the result. *)
Definition answered_by_owner (s0 s : Clerk End * Log) (v : V) : Prop :=
  ∃ log1 name r, follows s0 (s.1, log1) ∧ name ∈ owners (config s.1) ∧
    s.2 = log1 ++ [mkEntry (make_end s0.1 name) a (Some r)] ∧ acc r = true ∧ v = f r.

Hypothesis a_not_query : ∀ num, a ≠ Query_args num.

Lemma answered_other srv r : answered_config (mkEntry srv a r) = None.
Proof. destruct a; try done. by destruct (a_not_query num). Qed.

Lemma follows_refl s : follows s s.
Proof. split_and!; [done..|]. exists []. by rewrite app_nil_r. Qed.

Lemma follows_call s0 ck log name r :
  follows s0 (ck, log) → from_option acc false r = false →
  follows s0 (ck, log ++ [mkEntry (make_end ck name) a r]).
Proof.
  intros (Hsm & Hme & new & Hlog & Hnew & Hc) Hr. simpl in *. split_and!; [done..|].
  exists (new ++ [mkEntry (make_end ck name) a r]). rewrite Hlog app_assoc. split_and!; [done| |].
  - apply Forall_app. split; [done|]. apply Forall_singleton. right. rewrite Hme. eauto.
  - rewrite /answered_configs omap_app. rewrite [omap _ [_]]/omap. cbn [list_omap].
    by rewrite answered_other app_nil_r.
Qed.

Lemma follows_refresh s0 ck log log' c fuel :
  follows s0 (ck, log) → Query net fuel (sm ck) (-1) log = (log', Some c) →
  follows s0 (mkClerk (sm ck) c (make_end ck), log').
Proof.
  intros (Hsm & Hme & new & Hlog & Hnew & Hc)
    (l1 & srv & r & (new1 & -> & Hn1) & -> & Hsrv & _ & Hr & ->)%(retry_accepted _ (Query_args (-1)) (λ r, negb (QWrongLeader r)) QConfig).
  simpl in *. split_and!; [done..|].
  exists (new ++ new1 ++ [mkEntry srv (Query_args (-1)) (Some r)]).
  rewrite Hlog !app_assoc. split_and!; [done| |].
  - apply Forall_app. split; [|apply Forall_singleton; left].
    + apply Forall_app. split; [done|]. apply Forall_lookup. intros k e He.
      destruct (Hn1 k e He) as (srv' & r' & -> & Hs' & _). left. exists srv', r'. split; [done|].
      rewrite -Hsm. by eapply list_elem_of_lookup_2.
    + exists srv, (Some r). split; [done|]. rewrite -Hsm. by eapply list_elem_of_lookup_2.
  - rewrite /answered_configs omap_app /=. apply negb_true_iff in Hr as ->. by rewrite last_snoc.
Qed.

Lemma kv_round_follows s0 s fuel :
  follows s0 s → match kv_round fuel s with
                 | (s', Return v) => answered_by_owner s0 s' v | (s', Continue) => follows s0 s' | _ => True
                 end.
Proof.
  intros Hs. rewrite kv_round_eq.
  assert (ends (follows s0) (λ v s', answered_by_owner s0 s' v)
    (for_range (owners (config s.1)) kv_attempt s)) as Hr.
  { apply (for_range_rule (λ _ s', follows s0 s' ∧ s'.1 = s.1)); [|by intros ? []|done].
    intros i name [ck log] Hi [Hf Hck]. rewrite /kv_attempt /Call. simpl in *. subst ck.
    destruct (net log _ a) as [r|]; [|by split; [apply follows_call|]].
    destruct (acc r) eqn:Eacc; [|destruct (wrong r); [|split; [|done]]; by apply follows_call].
    exists log, name, r. split_and!; [done|by eapply list_elem_of_lookup_2| |done..].
    destruct Hf as (_ & Hme & _). simpl in Hme. by rewrite Hme. }
  unfold ends in Hr. destruct (for_range _ _ _) as [[ck log] []]; try done. simpl in *.
  destruct (Query _ _ _ _ _) as [log' [c|]] eqn:EQ; [|done]. by eapply follows_refresh.
Qed.

Lemma kv_loop_answered fuel s0 s v : kv_loop fuel s0 = (s, Some v) → answered_by_owner s0 s v.
Proof.
  apply (forever_rule (follows s0) (λ v s, answered_by_owner s0 s v)); [|apply follows_refl].
  intros s'. apply kv_round_follows.
Qed.

(** From some point on the controller answers with [c], a server of the group
    that owns the key there accepts the call, and none of that group says it is
    the wrong group. *)
Record serves_from (n : nat) (ck : Clerk End) (c : Config) : Prop := {
  sf_ctl : ∃ ctl, ctl ∈ servers (sm ck) ∧
    accepts_from n ctl (Query_args (-1)) (λ r, negb (QWrongLeader r));
  sf_config : ∀ ctl log r, ctl ∈ servers (sm ck) → (n ≤ length log)%nat →
    net log ctl (Query_args (-1)) = Some r → QWrongLeader r = false → QConfig r = c;
  sf_owner : ∃ name, name ∈ owners c ∧ accepts_from n (make_end ck name) a acc;
  sf_group : ∀ name log r, name ∈ owners c → (n ≤ length log)%nat →
    net log (make_end ck name) a = Some r → acc r = false → wrong r = false;
}.

(** The rounds left, at most. *)
Definition rounds_left (n : nat) (c : Config) (s : Clerk End * Log) : nat :=
  if decide (n ≤ length s.2)%nat then if decide (config s.1 = c) then O else 1%nat
  else (2 + (n - length s.2))%nat.

Lemma refresh_progress n ck c fuel ck' log :
  serves_from n ck c → sm ck' = sm ck → (n < fuel)%nat →
  ∃ c' log', refresh (R:=V) net fuel (ck', log) = ((mkClerk (sm ck') c' (make_end ck'), log'), Continue) ∧
    (length log < length log')%nat ∧ ((n ≤ length log)%nat → c' = c).
Proof.
  intros Hs Hsm Hfuel. destruct (sf_ctl _ _ _ Hs) as (ctl & Hctl & Hacc). rewrite -Hsm in Hctl. simpl.
  destruct (retry_returns _ (Query_args (-1)) _ QConfig n ctl fuel log Hctl Hacc Hfuel) as (log' & c' & HQ).
  change (Query net fuel (sm ck') (-1) log = (log', Some c')) in HQ. rewrite HQ. exists c', log'. split; [done|].
  apply (retry_accepted _ (Query_args (-1)) (λ r, negb (QWrongLeader r)) QConfig) in HQ as
    (l1 & srv & r & Hl1%refused_length & -> & Hsrv & Hnet & Hr & ->).
  rewrite length_app /=. split; [lia|]. intros Hn. eapply sf_config; [done| | |done|by apply negb_true_iff].
  - rewrite -Hsm. by eapply list_elem_of_lookup_2.
  - lia.
Qed.

Lemma kv_round_progress n ck c fuel s :
  serves_from n ck c → (n < fuel)%nat → sm s.1 = sm ck ∧ make_end s.1 = make_end ck →
  match kv_round fuel s with
  | (_, Return _) => True
  | (s', Continue) => (sm s'.1 = sm ck ∧ make_end s'.1 = make_end ck) ∧ (rounds_left n c s' < rounds_left n c s)%nat
  | _ => False
  end.
Proof.
  intros Hs Hfuel [Hsm Hme]. rewrite kv_round_eq.
  assert (ends (λ s', s'.1 = s.1 ∧ (length s.2 ≤ length s'.2)%nat) (λ _ _, True)
    (for_range (owners (config s.1)) kv_attempt s)) as Hr.
  { apply (for_range_rule (λ _ s', s'.1 = s.1 ∧ (length s.2 ≤ length s'.2)%nat)); [|done|done].
    intros i name [ck' log] _ [Hck Hl]. rewrite /kv_attempt /Call. simpl in *.
    destruct (net log _ a) as [r|]; [destruct (acc r); [done|]; destruct (wrong r)|];
      (split; [done|simpl; rewrite length_app; lia]). }
  destruct (decide (n ≤ length s.2 ∧ config s.1 = c)%nat) as [[Hn Hc]|Hnc].
  - destruct (sf_owner _ _ _ Hs) as (name & Hname & Hacc).
    destruct (for_range_returns (λ s', s'.1 = s.1 ∧ n ≤ length s'.2)%nat kv_attempt (owners (config s.1)) name s)
      as (? & ? & ->); [|by rewrite Hc| |done|done].
    + intros name' [ck' log] Hname' [Hck Hl]. rewrite /kv_attempt /Call. simpl in *. subst ck'. rewrite Hc in Hname'.
      destruct (net log _ a) as [r|] eqn:Enet; [destruct (acc r) eqn:Eacc; [done|]|];
        [rewrite Hme in Enet; rewrite (sf_group _ _ _ Hs name' log r)//|]; (split; [done|simpl; rewrite length_app; lia]).
    + intros [ck' log] [Hck Hl]. rewrite /kv_attempt /Call. simpl in *. subst ck'. rewrite Hme.
      destruct (Hacc log Hl) as (r & -> & ->). eauto.
  - unfold ends in Hr. destruct (for_range _ _ _) as [[ck' log] []]; try done. simpl in Hr. destruct Hr as [-> Hl].
    destruct (refresh_progress n ck c fuel s.1 log Hs Hsm Hfuel) as (c' & log' & -> & Hlt & Hc').
    split; [done|]. rewrite /rounds_left /=. repeat case_decide; try lia; naive_solver lia.
Qed.

Lemma kv_loop_returns n ck c fuel log :
  serves_from n ck c → (n + 2 < fuel)%nat → ∃ s v, kv_loop fuel (ck, log) = (s, Some v).
Proof.
  intros Hs Hfuel.
  apply (forever_returns (λ s, sm s.1 = sm ck ∧ make_end s.1 = make_end ck) (rounds_left n c)); [|done|].
  - intros s Hinv. apply (kv_round_progress n ck c); [done|lia|done].
  - rewrite /rounds_left. repeat case_decide; lia.
Qed.
End kv.

Definition get_acc (r : GetReply) : bool := bool_decide (GErr r = OK) || bool_decide (GErr r = ErrNoKey).
Definition get_wrong (r : GetReply) : bool := bool_decide (GErr r = ErrWrongGroup).
Definition put_acc (r : PutAppendReply) : bool := bool_decide (PErr r = OK).
Definition put_wrong (r : PutAppendReply) : bool := bool_decide (PErr r = ErrWrongGroup).

(** What an operation of the key/value clerk does: it returns what a server of
    the group owning the key answered, and it does return once the services
    answer. *)
Definition kv_operation {V} (op : nat → Clerk End * Log → (Clerk End * Log) * option V) (key : string) (a : Args)
    (acc wrong : Reply a → bool) (f : Reply a → V) : Prop :=
  (∀ fuel s0 s v, op fuel s0 = (s, Some v) → answered_by_owner key a acc f s0 s v) ∧
  (∀ n ck c fuel log, serves_from key a acc wrong n ck c → (n + 2 < fuel)%nat →
     ∃ s v, op fuel (ck, log) = (s, Some v)).

Lemma kv_loop_operation {V} key a acc wrong (f : Reply a → V) :
  (∀ num, a ≠ Query_args num) → kv_operation (kv_loop key a acc wrong f) key a acc wrong f.
Proof. intros Ha. split; [intros *; by apply kv_loop_answered|intros *; by apply kv_loop_returns]. Qed.

(** C39: The clerk of the sharded key/value store. [Get], [Put] and [Append]
    return only when a server answered [OK] (for [Get] also [ErrNoKey]) to
    their own request, [Get] with the value of that answer; that server belongs
    to the group which owns the key's shard in the configuration the clerk
    holds, and this is the last one the controller answered to the clerk's
    queries (the one held before if it made none). Every other call they made
    was a query of the latest configuration to one of the controllers or the
    same request, not answered so. They do return if from some point on the
    controller answers with one configuration, a server of the owning group
    there accepts the request and none of that group refuses it as the wrong
    group, whatever happened before. *)
Theorem kv_clerk_follows_config key value :
  kv_operation (λ fuel, Get net fuel key) key (Get_args key) get_acc get_wrong GValue ∧
  kv_operation (λ fuel, Put net fuel key value) key (PutAppend_args key value "Put") put_acc put_wrong (λ _, ()) ∧
  kv_operation (λ fuel, Append net fuel key value) key (PutAppend_args key value "Append")
    put_acc put_wrong (λ _, ()).
Proof. split_and!; by apply kv_loop_operation. Qed.
End clerks.

(** A run: the configuration is stale, the first controller is not the leader,
    nor is the first server of the new group, and one message is lost. *)
Definition sample_config : Config := mkConfig 1 (vreplicate NShards 100) {[100 := ["s0"; "s1"]]}.

Definition sample_net (log : list (Entry string)) (srv : string) (a : Args) : option (Reply a) :=
  if bool_decide (length log = 1%nat) then None
  else match a with
       | Query_args _ => Some (mkQueryReply (bool_decide (srv = "c0")) "" sample_config)
       | Get_args _ => Some (if bool_decide (srv = "s1") then mkGetReply OK "v" else mkGetReply ErrWrongLeader "")
       | Join_args _ | Leave_args _ | Move_args _ _ => Some (mkCtrlReply true "")
       | PutAppend_args _ _ _ => Some (mkPutAppendReply OK)
       end.

Example Get_sample :
  let '(ck, log, v) := Get sample_net 10 "key" (MakeClerk ["c0"; "c1"] id, []) in
  v = Some "v" ∧ config ck = sample_config ∧ e_end <$> log = ["c0"; "c1"; "c0"; "c1"; "s0"; "s1"].
Proof. vm_compute. done. Qed.
