(* ===== verification/LabGob.v ===== *)
(** * The checks of labgob

    Models [labgob/labgob.go], a wrapper around [encoding/gob] that looks for
    two mistakes before it encodes or decodes: struct types with fields that
    gob would silently leave out because their names are not upper case, and
    decoding into variables that already hold something. Types are nodes of a
    table, as [reflect.Type] values are pointers and types can be recursive.
    Package gob itself is outside the repository: its operations are arguments. *)
From S2P Require Import Prelude GoBase GoUtf8.

(** ** Types *)

Abbreviation Ty := nat (only parsing).

(** What [reflect] tells of a type. *)
Inductive TypeDesc :=
  | TStruct (name : string) (fields : list (string * Ty))
  | TElem (elem : Ty)                  (* slice, array, pointer *)
  | TMap (key elem : Ty)
  | TOther.

(** A complaint about a field of a struct type. *)
Definition Complaint : Type := Ty * string.

(** The package variables, and the lines printed by [checkType]. *)
Record GobState := mkGob {
  checked : gset Ty;                   (* a nil map is an empty one *)
  errorCount : Z;
  complaints : list Complaint;         (* "lower-case field ..." *)
  warnings : list string;              (* "Decoding into a non-default ..." *)
}.

Definition gob_init : GobState := mkGob ∅ 0 [] [].

Definition mark (t : Ty) (st : GobState) : GobState :=
  mkGob ({[t]} ∪ checked st) (errorCount st) (complaints st) (warnings st).

Definition complain (t : Ty) (field : string) (st : GobState) : GobState :=
  mkGob (checked st) (errorCount st + 1) (complaints st ++ [(t, field)]) (warnings st).

Section labgob.
(** [unicode.IsUpper] for code points from [0x80] on, and the type table. *)
Variable nonascii_upper : Z → bool.
Variable types : gmap Ty TypeDesc.

Definition IsUpper (r : Z) : bool :=
  if bool_decide (r < 0x80) then bool_decide (65 ≤ r ≤ 90) else nonascii_upper r.

(** Is the field exported? An empty name decodes as [RuneError]. *)
Definition upper_name (name : string) : bool := IsUpper (DecodeRune (str_to_list name)).1.

(** The loop over the fields of a struct; [None] when [check] gives none. *)
Fixpoint check_fields (check : Ty → GobState → option GobState) (t : Ty) (fields : list (string * Ty))
    (st : GobState) : option GobState :=
  match fields with
  | [] => Some st
  | (name, ft) :: fields' =>
      st ← check ft (if negb (upper_name name) then complain t name st else st);
      check_fields check t fields' st
  end.

(** Recursive types are cut off by [checked]; [fuel] bounds the depth. *)
Fixpoint checkType (fuel : nat) (t : Ty) (st : GobState) : option GobState :=
  match fuel with
  | O => None
  | S fuel =>
      desc ← types !! t;
      if bool_decide (t ∈ checked st) then Some st else
      let st := mark t st in
      match desc with
      | TStruct _ fields => check_fields (checkType fuel) t fields st
      | TElem elem => checkType fuel elem st
      | TMap key elem => st ← checkType fuel elem st; checkType fuel key st
      | TOther => Some st
      end
  end.

(** ** Values *)

Inductive Basic :=
  | BBool (b : bool)
  | BInt (z : Z)
  | BFloat (is_zero : bool)            (* [0 == -0], and NaN is not zero *)
  | BString (s : string).

Definition is_default (b : Basic) : bool :=
  match b with
  | BBool b => negb b
  | BInt z => bool_decide (z = 0)
  | BFloat z => z
  | BString s => bool_decide (s = "")
  end.

Inductive Value :=
  | VStruct (fields : list (string * bool * Value))   (* name, embedded?, value *)
  | VPtr (elem : option Value)
  | VBasic (tname : string) (b : Basic)
  | VOther.

(** How [reflect] remembers that a value came through an unexported field;
    [Interface] panics on such a value. *)
Inductive RO := RW | EmbedRO | StickyRO.

Definition field_ro (name : string) (embedded : bool) (ro : RO) : RO :=
  if upper_name name then match ro with StickyRO => StickyRO | _ => RW end
  else match ro with StickyRO => StickyRO | _ => if embedded then EmbedRO else StickyRO end.

Definition warn_default (what : string) (st : GobState) : GobState :=
  mkGob (checked st) (errorCount st + 1) (complaints st)
    (warnings st ++ (if bool_decide (errorCount st < 1) then [what] else [])).

(** [checkDefault1], [None] for a panic. [n] is how many more levels are
    looked at: [depth] is [4 - n]. *)
Fixpoint checkDefault1 (value : Value) (n : nat) (ro : RO) (name : string) (st : GobState) : option GobState :=
  match n with
  | O => Some st
  | S n =>
      match value with
      | VStruct fields =>
          (fix go fields st :=
             match fields with
             | [] => Some st
             | (fname, embedded, vv) :: fields' =>
                 let name1 := if bool_decide (name = "") then fname else name +:+ "." +:+ fname in
                 st ← checkDefault1 vv n (field_ro fname embedded ro) name1 st; go fields' st
             end) fields st
      | VPtr None => Some st
      | VPtr (Some elem) => checkDefault1 elem n ro name st
      | VBasic tname b =>
          match ro with
          | RW => Some (if is_default b then st else
                        warn_default (if bool_decide (name = "") then tname else name) st)
          | _ => None
          end
      | VOther => Some st
      end
  end.

(** ** The operations

    An argument of type [interface{}] is nil or has a type and a value. *)
Definition Iface : Type := option (Ty * Value).

(** [None] is a panic: the type of a nil interface is nil. *)
Definition checkValue (fuel : nat) (e : Iface) (st : GobState) : option GobState :=
  '(t, _) ← e; checkType fuel t st.

Definition checkDefault (e : Iface) (st : GobState) : option GobState :=
  match e with None => Some st | Some (_, v) => checkDefault1 v 3 RW "" st end.

Context {G R : Type}.

Definition Encode (fuel : nat) (gob : Iface → G → R) (e : Iface) (st : GobState) (enc : G) : option (GobState * R) :=
  st ← checkValue fuel e st; Some (st, gob e enc).

Definition EncodeValue (fuel : nat) (gob : Iface → G → R) (value : Iface) (st : GobState) (enc : G) :
    option (GobState * R) :=
  st ← checkValue fuel value st; Some (st, gob value enc).

Definition Decode (fuel : nat) (gob : Iface → G → R) (e : Iface) (st : GobState) (dec : G) : option (GobState * R) :=
  st ← checkValue fuel e st; st ← checkDefault e st; Some (st, gob e dec).

Definition Register (fuel : nat) (gob : Iface → R) (value : Iface) (st : GobState) : option (GobState * R) :=
  st ← checkValue fuel value st; Some (st, gob value).

Definition RegisterName (fuel : nat) (gob : string → Iface → R) (name : string) (value : Iface) (st : GobState) :
    option (GobState * R) :=
  st ← checkValue fuel value st; Some (st, gob name value).
End labgob.
