(* ===== verification/LabGobThm.v ===== *)
(** * What the checks of labgob find

    [checkType] is a depth-first search of the graph of types: it terminates on
    recursive types and complains of every lower-case field of every struct type
    it can reach, once. [checkDefault] looks at the values within three levels. *)
From S2P Require Import Prelude GoBase GoUtf8 LabGob.

Section types.
Variable nonascii_upper : Z → bool.
Variable types : gmap nat TypeDesc.
Notation checkType := (checkType nonascii_upper types).
Notation upper_name := (upper_name nonascii_upper).
Implicit Types (t u : nat) (st : GobState).

(** The types a type is made of. *)
Definition parts t : list nat :=
  match types !! t with
  | Some (TStruct _ fields) => fields.*2
  | Some (TElem elem) => [elem]
  | Some (TMap key elem) => [elem; key]
  | Some TOther | None => []
  end.

Definition part_of t u : Prop := u ∈ parts t.

(** The types that occur anywhere in [t]. *)
Definition occurs_in t u : Prop := rtc part_of t u.

Definition lower_fields t (fields : list (string * nat)) : list Complaint :=
  (λ f, (t, f.1)) <$> filter (λ f, upper_name f.1 = false) fields.

(** The fields of a type that gob would leave out. *)
Definition lower_case t : list Complaint :=
  match types !! t with Some (TStruct _ fields) => lower_fields t fields | _ => [] end.

(** The table describes every type it mentions. *)
Definition table_wf : Prop := ∀ t u, t ∈ dom types → part_of t u → u ∈ dom types.

Definition new_types st st' : gset nat := checked st' ∖ checked st.

(** [st'] comes from [st] by checking the types [from] and complaining of
    [extra] besides. *)
Record grows (extra : list Complaint) (from : list nat) st st' : Prop := {
  g_sub : checked st ⊆ checked st';
  g_from : ∀ t, t ∈ from → t ∈ checked st';
  g_reach : ∀ u, u ∈ new_types st st' → ∃ t, t ∈ from ∧ occurs_in t u;
  g_closed : ∀ u v, u ∈ new_types st st' → part_of u v → v ∈ checked st';
  g_complaints : complaints st' ≡ₚ complaints st ++ extra ++ (elements (new_types st st') ≫= lower_case);
  g_count : errorCount st' - errorCount st = Z.of_nat (length (complaints st')) - Z.of_nat (length (complaints st));
  g_warnings : warnings st' = warnings st;
}.

Lemma elem_of_new_types st st' u : u ∈ new_types st st' ↔ u ∈ checked st' ∧ u ∉ checked st.
Proof. by rewrite /new_types elem_of_difference. Qed.

Lemma new_types_same st st' : checked st' = checked st → new_types st st' = ∅.
Proof. intros Heq. apply set_eq. intros u. rewrite elem_of_new_types Heq. set_solver. Qed.

Lemma grows_refl from st : (∀ t, t ∈ from → t ∈ checked st) → grows [] from st st.
Proof.
  intros Hfrom. split; [done|done|rewrite new_types_same //; set_solver..| |lia|done].
  by rewrite new_types_same // elements_empty /= app_nil_r.
Qed.

Lemma grows_complain t name st : grows [(t, name)] [] st (complain t name st).
Proof.
  assert (new_types st (complain t name st) = ∅) as Hnew by by apply new_types_same.
  split; [done|set_solver|rewrite Hnew; set_solver..| | |done].
  - by rewrite Hnew elements_empty.
  - rewrite /= length_app /=. lia.
Qed.

Lemma grows_trans e1 e2 f1 f2 st1 st2 st3 :
  grows e1 f1 st1 st2 → grows e2 f2 st2 st3 → grows (e1 ++ e2) (f1 ++ f2) st1 st3.
Proof.
  intros [S1 F1 R1 C1 P1 N1 W1] [S2 F2 R2 C2 P2 N2 W2].
  assert (new_types st1 st3 = new_types st1 st2 ∪ new_types st2 st3) as Hnew.
  { apply set_eq. intros u. rewrite elem_of_union !elem_of_new_types.
    destruct (decide (u ∈ checked st2)); set_solver. }
  split; [set_solver|set_solver| | | |lia|congruence].
  - rewrite Hnew. set_solver.
  - rewrite Hnew. set_solver.
  - rewrite Hnew elements_disj_union; [|intros u; rewrite !elem_of_new_types; tauto]. rewrite bind_app P2 P1. solve_Permutation.
Qed.

(** A type is done when its parts are. *)
Lemma grows_node t st st' :
  t ∉ checked st → grows (lower_case t) (parts t) (mark t st) st' → grows [] [t] st st'.
Proof.
  intros Ht [S1 F1 R1 C1 P1 N1 W1].
  assert (new_types st st' = {[t]} ∪ new_types (mark t st) st') as Hnew.
  { apply set_eq. intros u. rewrite elem_of_union !elem_of_new_types /=. simpl in S1.
    destruct (decide (u = t)); set_solver. }
  simpl in *. split; [set_solver|set_solver| | | |done|done].
  - intros u. rewrite Hnew. intros [->%elem_of_singleton|Hu]%elem_of_union.
    + exists t. split; [set_solver|apply rtc_refl].
    + destruct (R1 u Hu) as (p & Hp & Hr). exists t. split; [set_solver|]. by eapply rtc_l.
  - intros u v. rewrite Hnew. intros [->%elem_of_singleton|Hu]%elem_of_union; [apply F1|by apply C1].
  - rewrite Hnew elements_disj_union; [|intros u; rewrite elem_of_new_types /=; set_solver].
    by rewrite elements_singleton /= P1.
Qed.

(** The types not yet checked bound the depth of the recursion. *)
Definition unchecked st : nat := size (dom types ∖ checked st).

Lemma unchecked_mono st st' : checked st ⊆ checked st' → (unchecked st' ≤ unchecked st)%nat.
Proof. intros. rewrite /unchecked. apply subseteq_size. set_solver. Qed.

Lemma unchecked_mark t st : t ∈ dom types → t ∉ checked st → (unchecked (mark t st) < unchecked st)%nat.
Proof. intros. rewrite /unchecked /=. apply subset_size. set_solver. Qed.

(** What a check does to a state with [n] unchecked types. *)
Definition checks (n : nat) (check : nat → GobState → option GobState) : Prop :=
  ∀ t st, t ∈ dom types → (unchecked st < n)%nat → ∃ st', check t st = Some st' ∧ grows [] [t] st st'.

Lemma check_fields_grows n check t fields st :
  checks n check → (∀ f, f ∈ fields → f.2 ∈ dom types) → (unchecked st < n)%nat →
  ∃ st', check_fields nonascii_upper check t fields st = Some st' ∧
    grows (lower_fields t fields) fields.*2 st st'.
Proof.
  intros Hcheck. revert st. induction fields as [|[name ft] fields IH]; intros st Hdom Hn; simpl.
  - exists st. split; [done|]. by apply grows_refl; set_solver.
  - set (st1 := if negb (upper_name name) then complain t name st else st).
    assert (grows (lower_fields t [(name, ft)]) [] st st1) as H1.
    { rewrite /st1 /lower_fields filter_cons /=. destruct (upper_name name); simpl;
        [apply grows_refl; set_solver|apply grows_complain]. }
    pose proof (unchecked_mono _ _ (g_sub _ _ _ _ H1)) as Hn1.
    destruct (Hcheck ft st1) as (st2 & -> & H2); [apply (Hdom (name, ft)); left|lia|]. simpl.
    pose proof (unchecked_mono _ _ (g_sub _ _ _ _ H2)) as Hn2.
    destruct (IH st2) as (st3 & -> & H3); [set_solver|lia|]. exists st3. split; [done|].
    pose proof (grows_trans _ _ _ _ _ _ _ (grows_trans _ _ _ _ _ _ _ H1 H2) H3) as H.
    rewrite app_nil_r in H.
    replace (lower_fields t ((name, ft) :: fields)) with (lower_fields t [(name, ft)] ++ lower_fields t fields)
      by (by rewrite /lower_fields -fmap_app -filter_app). exact H.
Qed.

Lemma checkType_grows fuel : table_wf → checks fuel (checkType fuel).
Proof.
  intros Hwf. induction fuel as [|fuel IH]; intros t st Ht Hn; [lia|]. simpl.
  assert (∀ u, u ∈ parts t → u ∈ dom types) as Hparts by (intros u; by apply Hwf).
  destruct (types !! t) as [desc|] eqn:Hd; [|by apply not_elem_of_dom in Hd]. simpl.
  case_bool_decide as Hc; [exists st; split; [done|by apply grows_refl; set_solver]|].
  pose proof (unchecked_mark t st Ht Hc) as Hlt.
  cut (∃ st', match desc with
      | TStruct _ fields => check_fields nonascii_upper (checkType fuel) t fields (mark t st)
      | TElem elem => checkType fuel elem (mark t st)
      | TMap key elem => checkType fuel elem (mark t st) ≫= checkType fuel key
      | TOther => Some (mark t st)
      end = Some st' ∧ grows (lower_case t) (parts t) (mark t st) st').
  { intros (st' & Heq & Hg). exists st'. split; [by destruct desc|by apply grows_node]. }
  rewrite /lower_case /parts Hd in Hparts |- *. destruct desc as [name fields|elem|key elem|].
  - apply (check_fields_grows fuel); [done| |lia]. intros f Hf. apply Hparts. by apply (list_elem_of_fmap_2 snd).
  - apply IH; [apply Hparts; left|lia].
  - destruct (IH elem (mark t st)) as (st2 & -> & H2); [apply Hparts; left|lia|]. simpl.
    pose proof (unchecked_mono _ _ (g_sub _ _ _ _ H2)).
    destruct (IH key st2) as (st3 & -> & H3); [apply Hparts; right; left|lia|].
    exists st3. split; [done|]. exact (grows_trans _ _ _ _ _ _ _ H2 H3).
  - exists (mark t st). split; [done|]. apply grows_refl. set_solver.
Qed.

(** Checked types have checked parts. *)
Definition closed st : Prop := ∀ t u, t ∈ checked st → part_of t u → u ∈ checked st.

Lemma closed_occurs st t u : closed st → t ∈ checked st → occurs_in t u → u ∈ checked st.
Proof. intros Hc Ht. induction 1 as [|t v u Hv _ IH]; [done|]. apply IH. by eapply Hc. Qed.

(** Checking several values one after the other. *)
Fixpoint check_values (fuel : nat) (es : list Iface) st : option GobState :=
  match es with
  | [] => Some st
  | e :: es' => st ← checkValue nonascii_upper types fuel e st; check_values fuel es' st
  end.

Definition sound st : Prop :=
  closed st ∧ complaints st ≡ₚ (elements (checked st) ≫= lower_case) ∧
  errorCount st = Z.of_nat (length (complaints st)) ∧ warnings st = [].

Lemma check_one fuel t st :
  table_wf → t ∈ dom types → (size (dom types) < fuel)%nat → sound st →
  ∃ st', checkType fuel t st = Some st' ∧ sound st' ∧
    ∀ u, u ∈ checked st' ↔ u ∈ checked st ∨ occurs_in t u.
Proof.
  intros Hwf Ht Hfuel (Hc & Hp & Hn & Hw).
  assert (unchecked st ≤ size (dom types))%nat as Hsize by (rewrite /unchecked; apply subseteq_size; set_solver).
  destruct (checkType_grows fuel Hwf t st Ht) as (st' & Heq & [S F R C P N W]); [lia|].
  exists st'. split; [done|]. assert (closed st') as Hc'.
  { intros u v Hu Hv. destruct (decide (u ∈ checked st)); [apply S; by eapply Hc|].
    apply (C u v); [by apply elem_of_new_types|done]. }
  split.
  - split_and!; [done| |lia|congruence]. rewrite P Hp /= -bind_app -elements_disj_union;
      [|intros u; rewrite elem_of_new_types; tauto].
    rewrite /new_types -union_difference_L //.
  - intros u. split; [|intros [?|?]; [by apply S|]].
    + intros Hu. destruct (decide (u ∈ checked st)); [by left|right].
      destruct (R u) as (t' & ->%list_elem_of_singleton & ?); [by apply elem_of_new_types|done].
    + apply (closed_occurs st' t); [done|apply F; set_solver|done].
Qed.

Lemma check_all fuel es st :
  table_wf → (size (dom types) < fuel)%nat → Forall (λ e, ∃ t v, e = Some (t, v) ∧ t ∈ dom types) es → sound st →
  ∃ st', check_values fuel es st = Some st' ∧ sound st' ∧
    ∀ u, u ∈ checked st' ↔ u ∈ checked st ∨ ∃ t v, Some (t, v) ∈ es ∧ occurs_in t u.
Proof.
  intros Hwf Hfuel Hes. revert st. induction Hes as [|e es (t & v & -> & Ht) _ IH]; intros st Hs; simpl.
  - exists st. split_and!; [done..|]. set_solver.
  - destruct (check_one fuel t st Hwf Ht Hfuel Hs) as (st1 & -> & Hs1 & H1).
    destruct (IH st1 Hs1) as (st2 & Heq & Hs2 & H2). exists st2. split_and!; [done..|]. intros u.
    rewrite H2 H1. setoid_rewrite elem_of_cons. naive_solver.
Qed.
End types.


(** [type Node struct { Val int; next *Node }] *)
Definition node_types : gmap nat TypeDesc :=
  {[ 0%nat := TStruct "Node" [("Val", 1%nat); ("next", 2%nat)]; 1%nat := TOther; 2%nat := TElem 0 ]}.


(** ** Values that are not empty *)

Section values.
Variable nonascii_upper : Z → bool.
Notation checkDefault1 := (checkDefault1 nonascii_upper).
Notation field_ro := (field_ro nonascii_upper).

(** A basic value at most [n - 1] struct or pointer levels inside a value, and
    whether an unexported field lies on the way. *)
Inductive within : nat → RO → Value → RO → Basic → Prop :=
| w_basic n ro tname b : within (S n) ro (VBasic tname b) ro b
| w_ptr n ro v ro' b : within n ro v ro' b → within (S n) ro (VPtr (Some v)) ro' b
| w_field n ro fields fname embedded v ro' b :
    (fname, embedded, v) ∈ fields → within n (field_ro fname embedded ro) v ro' b →
    within (S n) ro (VStruct fields) ro' b.

(** What looking at some basic values did. *)
Record looked (P : RO → Basic → Prop) (st st' : GobState) : Prop := {
  l_exported : ∀ ro b, P ro b → ro = RW;
  l_count : errorCount st ≤ errorCount st';
  l_default : errorCount st' = errorCount st ↔ ∀ ro b, P ro b → is_default b = true;
  l_checked : checked st' = checked st ∧ complaints st' = complaints st;
  l_warned : ∃ w, warnings st' = warnings st ++ w ∧
    length w = if decide (errorCount st = 0 ∧ errorCount st' ≠ 0) then 1%nat else 0%nat;
}.

Lemma looked_nothing (P : RO → Basic → Prop) st : (∀ ro b, ¬ P ro b) → looked P st st.
Proof.
  intros HP. split; [by intros ro b ?%HP|lia|split; [by intros _ ro b ?%HP|done]|done|].
  exists []. rewrite app_nil_r decide_False //. lia.
Qed.

Lemma looked_app (P Q PQ : RO → Basic → Prop) st1 st2 st3 :
  0 ≤ errorCount st1 → (∀ ro b, PQ ro b ↔ P ro b ∨ Q ro b) →
  looked P st1 st2 → looked Q st2 st3 → looked PQ st1 st3.
Proof.
  intros H0 HPQ [E1 C1 D1 [K1 M1] (w1 & W1 & L1)] [E2 C2 D2 [K2 M2] (w2 & W2 & L2)].
  split; [intros ro b [?|?]%HPQ; eauto|lia| |split; congruence|].
  - split; [|intros Hd].
    + intros Heq ro b [?|?]%HPQ; [apply (proj1 D1) with ro|apply (proj1 D2) with ro]; done || lia.
    + rewrite (proj2 D2); [apply D1|]; intros ro b ?; apply (Hd ro), HPQ; auto.
  - exists (w1 ++ w2). rewrite W2 W1 app_assoc length_app L1 L2. split; [done|].
    repeat case_decide; lia.
Qed.

Lemma looked_basic (P : RO → Basic → Prop) b what st :
  0 ≤ errorCount st → (∀ ro b', P ro b' ↔ ro = RW ∧ b' = b) →
  looked P st (if is_default b then st else warn_default what st).
Proof.
  intros H0 HP. destruct (is_default b) eqn:Hb; split; simpl.
  1, 6: by intros ro b' []%HP.
  1, 5: lia.
  1: split; [by intros _ ro b' [_ ->]%HP|done].
  3: split; [lia|]; intros Hd; pose proof (Hd RW b (proj2 (HP _ _) (conj eq_refl eq_refl))); congruence.
  1, 3: done.
  - exists []. rewrite app_nil_r decide_False //. lia.
  - eexists. split; [done|]. case_bool_decide; case_decide; simpl; lia.
Qed.

Lemma checkDefault1_looked n v ro name st :
  0 ≤ errorCount st →
  match checkDefault1 v n ro name st with
  | None => ∃ ro' b, within n ro v ro' b ∧ ro' ≠ RW
  | Some st' => looked (within n ro v) st st'
  end.
Proof.
  revert v ro name st. induction n as [|n IH]; intros v ro name st H0.
  { destruct v; apply looked_nothing; inversion 1. }
  destruct v as [fields|[v|]|tname b|]; simpl.
  - set (P (fs : list (string * bool * Value)) ro' b := ∃ fname embedded v, (fname, embedded, v) ∈ fs ∧
      within n (field_ro fname embedded ro) v ro' b).
    match goal with |- match ?go fields st with _ => _ end => set (F := go) end.
    assert (∀ fs st, 0 ≤ errorCount st →
      match F fs st with None => ∃ ro' b, P fs ro' b ∧ ro' ≠ RW | Some st' => looked (P fs) st st' end) as HF.
    { clear st H0. induction fs as [|[[fname embedded] v] fs IHfs]; intros st H0.
      - apply looked_nothing. intros ro' b (? & ? & ? & []%elem_of_nil & _).
      - simpl. set (name1 := if bool_decide (name = "") then fname else name +:+ "." +:+ fname).
        specialize (IH v (field_ro fname embedded ro) name1 st H0).
        destruct (checkDefault1 v n _ name1 st) as [st1|]; simpl.
        + assert (0 ≤ errorCount st1) as H1 by (pose proof (l_count _ _ _ IH); lia).
          specialize (IHfs st1 H1). destruct (F fs st1) as [st2|].
          * eapply looked_app; [done| |exact IH|exact IHfs]. intros ro' b. rewrite /P.
            setoid_rewrite elem_of_cons. naive_solver.
          * destruct IHfs as (ro' & b & (x & y & z & ? & ?) & ?). exists ro', b. split; [|done].
            exists x, y, z. split; [by right|done].
        + destruct IH as (ro' & b & Hw & ?). exists ro', b. split; [|done].
          exists fname, embedded, v. split; [left|done]. }
    assert (∀ ro' b, P fields ro' b ↔ within (S n) ro (VStruct fields) ro' b) as HP.
    { intros ro' b. split; [intros (? & ? & ? & ? & ?); by eapply w_field|].
      inversion 1; simplify_eq. by eexists _, _, _. }
    specialize (HF fields st H0). destruct (F fields st) as [st'|]; [|setoid_rewrite <- HP; naive_solver].
    eapply looked_app; [done| |exact HF|apply (looked_nothing (λ _ _, False)); tauto].
    intros ro' b. rewrite -HP. tauto.
  - specialize (IH v ro name st H0).
    assert (∀ ro' b, within (S n) ro (VPtr (Some v)) ro' b ↔ within n ro v ro' b) as HP.
    { intros ro' b. split; [by inversion 1|apply w_ptr]. }
    destruct (checkDefault1 v n ro name st) as [st'|]; [|setoid_rewrite HP; done].
    eapply looked_app; [done| |exact IH|apply (looked_nothing (λ _ _, False)); tauto].
    intros ro' b. rewrite HP. tauto.
  - apply looked_nothing. inversion 1.
  - destruct ro; [|eexists _, b; split; [constructor|done]..].
    apply looked_basic; [done|]. intros ro' b'. split; [by inversion 1|intros [-> ->]; constructor].
  - apply looked_nothing. inversion 1.
Qed.
End values.

(** The value check of labgob. [Decode] panics if a basic value it looks at,
    that is one at most two struct or pointer levels inside the argument, lies
    below an unexported field. Otherwise the error count stays the same exactly
    if every basic value it looks at is the zero value, and a warning is printed
    exactly when the count leaves zero; nothing else changes. Values deeper
    inside, and those in slices, maps and interfaces, are never looked at. *)
Theorem gob_checks_defaults nonascii_upper t v st :
  0 ≤ errorCount st →
  match checkDefault nonascii_upper (Some (t, v)) st with
  | None => ∃ ro b, within nonascii_upper 3 RW v ro b ∧ ro ≠ RW
  | Some st' => looked (within nonascii_upper 3 RW v) st st'
  end.
Proof. apply checkDefault1_looked. Qed.

(** A reply struct that holds a value already, behind a pointer. *)
Lemma gob_checks_defaults_witness :
  ∃ st', checkDefault (λ _, false) (Some (0%nat, VPtr (Some (VStruct
      [("Err", false, VBasic "Err" (BString "")); ("Value", false, VBasic "string" (BString "x"))])))) gob_init
    = Some st' ∧ warnings st' = ["Value"] ∧ errorCount st' ≠ errorCount gob_init.
Proof.
  pose proof (gob_checks_defaults (λ _, false) 0%nat (VPtr (Some (VStruct
      [("Err", false, VBasic "Err" (BString "")); ("Value", false, VBasic "string" (BString "x"))]))) gob_init) as H.
  destruct (checkDefault _ _ _) as [st'|] eqn:E; [|by vm_compute in E].
  exists st'. split; [done|]. split; [by vm_compute in E; simplify_eq|].
  intros Heq. apply (l_default _ _ _ (H ltac:(done))) with (ro := RW) (b := BString "x") in Heq; [done|].
  constructor. eapply w_field; [right; left|constructor].
Defined.
