(* ===== verification/Harness.v ===== *)
(** * What the test configurations share

    The four [config.go] files drive the simulated network and the persisters:
    they make ends for an instance of a server, connect and enable them, and copy
    persisters between instances. This file has loops that may panic, the
    effect of enabling and of making several ends, and the persister operations
    on a store of persister objects. An end is named by a string, a server by
    another: names of type [interface{}] are a sum. *)
From S2P Require Import Prelude GoBase LabRpc Persister.

(** [for _, a := range l]: a body may panic. *)
Fixpoint foldM {A S} (f : A → S → option S) (l : list A) (s : S) : option S :=
  match l with [] => Some s | a :: l' => s ← f a s; foldM f l' s end.

(** [l[i] = x] *)
Definition set_at {A} (i : nat) (x : A) (l : list A) : option (list A) :=
  if bool_decide (i < length l)%nat then Some (<[i := x]> l) else None.

(** [l[i] = append(l[i], ...)] and the like are written out where they occur. *)
Lemma set_at_Some {A} i (x : A) l l' : set_at i x l = Some l' ↔ (i < length l)%nat ∧ l' = <[i := x]> l.
Proof. rewrite /set_at. case_bool_decide; naive_solver. Qed.

Lemma foldM_app {A S} (f : A → S → option S) l1 l2 s :
  foldM f (l1 ++ l2) s = foldM f l1 s ≫= foldM f l2.
Proof. revert s. induction l1 as [|a l1 IH]; intros s; [done|]. simpl. destruct (f a s); [apply IH|done]. Qed.

(** An invariant of a loop, with the elements already done. *)
Lemma foldM_inv {A S} (P : list A → S → Prop) (f : A → S → option S) l s s' :
  (∀ l1 a s s', P l1 s → f a s = Some s' → a ∈ l → P (l1 ++ [a]) s') →
  P [] s → foldM f l s = Some s' → P l s'.
Proof.
  intros Hf. cut (∀ l2 l1 s, l = l1 ++ l2 → P l1 s → foldM f l2 s = Some s' → P l s').
  { intros Hall HP Hr. by eapply (Hall l []). }
  induction l2 as [|a l2 IH]; intros l1 s1 Hl HP Hr; simpl in Hr.
  - rewrite app_nil_r in Hl. by simplify_eq.
  - destruct (f a s1) as [s2|] eqn:E; [|done]. apply (IH (l1 ++ [a]) s2); [by rewrite -app_assoc| |done].
    eapply Hf; [done|done|]. rewrite Hl. set_solver.
Qed.

(** A loop none of whose bodies panics. *)
Lemma foldM_total {A S} (P : S → Prop) (f : A → S → option S) l s :
  (∀ a s, a ∈ l → P s → ∃ s', f a s = Some s' ∧ P s') → P s → ∃ s', foldM f l s = Some s' ∧ P s'.
Proof.
  revert s. induction l as [|a l IH]; intros s Hf HP; simpl; [eauto|].
  destruct (Hf a s) as (s1 & -> & HP1); [left|done|]. apply IH; [|done]. intros a' s' Ha'. apply Hf. by right.
Qed.

(** ** Ends *)

Section ends.
Context `{Countable Name}.
Implicit Types (rn : Network (Name := Name)) (e : Name).

Definition enable_all (names : list Name) (yes : bool) rn : Network := foldl (λ rn e, Enable e yes rn) rn names.

(** Two networks differ in which ends are enabled only. *)
Definition same_but_enabled rn rn' : Prop :=
  ends rn' = ends rn ∧ connections rn' = connections rn ∧ servers rn' = servers rn.

Lemma enable_all_enabled names yes rn e :
  enabled (enable_all names yes rn) !! e = if decide (e ∈ names) then Some yes else enabled rn !! e.
Proof.
  rewrite /enable_all. revert rn. induction names as [|e' names IH]; intros rn; cbn [foldl].
  { case_decide as He; [by apply elem_of_nil in He|done]. }
  rewrite IH. repeat case_decide; simpl; try set_solver.
  - destruct (decide (e = e')) as [->|]; [by rewrite lookup_insert_eq|set_solver].
  - rewrite lookup_insert_ne //. set_solver.
Qed.

Lemma enable_all_same names yes rn : same_but_enabled rn (enable_all names yes rn).
Proof.
  rewrite /enable_all. revert rn. induction names as [|e names IH]; intros rn; [done|].
  exact (IH (Enable e yes rn)).
Qed.

(** [for j := 0; ...; j++ { if cond { cfg.net.Enable(endname, yes) } }]: [pick j]
    is the end of the [j]-th round, if there is one; [None] is a panic. *)
Definition toggle_loop (pick : nat → option (option Name)) (yes : bool) (js : list nat) rn : option Network :=
  foldM (λ j rn, oe ← pick j; Some (match oe with Some e => Enable e yes rn | None => rn end)) js rn.

Lemma toggle_loop_spec pick yes js rn rn' :
  toggle_loop pick yes js rn = Some rn' →
  ∃ names, rn' = enable_all names yes rn ∧ ∀ e, e ∈ names ↔ ∃ j, j ∈ js ∧ pick j = Some (Some e).
Proof.
  rewrite /toggle_loop. revert rn. induction js as [|j js IH]; intros rn Hr; simpl in Hr.
  - simplify_eq. exists []. split; [done|set_solver].
  - destruct (pick j) as [[e|]|] eqn:Hj; [| |done]; simpl in Hr.
    + destruct (IH _ Hr) as (names & -> & Hn). exists (e :: names). split; [done|].
      intros e'. rewrite elem_of_cons Hn. setoid_rewrite elem_of_cons. naive_solver.
    + destruct (IH _ Hr) as (names & -> & Hn). exists names. split; [done|].
      intros e'. rewrite Hn. setoid_rewrite elem_of_cons. naive_solver.
Qed.

Lemma toggle_loop_total pick yes js rn :
  (∀ j, j ∈ js → is_Some (pick j)) → is_Some (toggle_loop pick yes js rn).
Proof.
  intros Hp. destruct (foldM_total (λ _, True) (λ j rn, oe ← pick j;
    Some (match oe with Some e => Enable e yes rn | None => rn end)) js rn) as (rn' & Hr & _); [|done|by exists rn'].
  intros j rn1 Hj _. destruct (Hp j Hj) as [oe ->]. simpl. eauto.
Qed.

(** [ends[j] = MakeEnd(name); Connect(name, server)] for a list of pairs. *)
Definition make_end (p : Name * Name) rn : option Network := Connect p.1 p.2 <$> MakeEnd p.1 rn.
Definition make_ends (ps : list (Name * Name)) rn : option Network := foldM make_end ps rn.

Lemma make_ends_spec ps rn rn' :
  make_ends ps rn = Some rn' →
  NoDup ps.*1 ∧ (∀ e, e ∈ ps.*1 → e ∉ ends rn) ∧ ends rn' = list_to_set ps.*1 ∪ ends rn ∧
  servers rn' = servers rn ∧
  (∀ e, enabled rn' !! e = if decide (e ∈ ps.*1) then Some false else enabled rn !! e) ∧
  (∀ e s, (e, s) ∈ ps → connections rn' !! e = Some (Some s)) ∧
  (∀ e, e ∉ ps.*1 → connections rn' !! e = connections rn !! e).
Proof.
  revert rn. induction ps as [|[e s] ps IH]; intros rn Hr.
  { rewrite /make_ends /= in Hr. simplify_eq. split_and!; [apply NoDup_nil_2|set_solver|set_solver|done| |set_solver|done].
    intros e. case_decide as He; [by apply elem_of_nil in He|done]. }
  change (make_end (e, s) rn ≫= make_ends ps = Some rn') in Hr. rewrite /make_end /= /MakeEnd in Hr.
  destruct (decide (e ∈ ends rn)) as [Hin|Hin]; [by rewrite bool_decide_true in Hr|].
  rewrite bool_decide_false // in Hr. simpl in Hr.
  apply IH in Hr as (Hnd & Hnew & Hends & Hsrv & Hen & Hc1 & Hc2). simpl in *.
  assert (e ∉ ps.*1) as Hfresh by (intros He; by apply (Hnew e He); set_solver).
  split_and!; [by constructor|set_solver|rewrite Hends; set_solver|done|..].
  - intros e'. rewrite Hen. destruct (decide (e' ∈ ps.*1)); [rewrite decide_True //; by right|].
    destruct (decide (e' = e)) as [->|]; [rewrite lookup_insert_eq decide_True //; left|].
    rewrite lookup_insert_ne // decide_False //. set_solver.
  - intros e' s' [Heq|Hp]%elem_of_cons; [|by apply Hc1]. simplify_eq. rewrite Hc2 // lookup_insert_eq //.
  - intros e' He'. rewrite Hc2; [|set_solver]. rewrite !lookup_insert_ne //; set_solver.
Qed.

Lemma make_ends_total ps rn :
  NoDup ps.*1 → (∀ e, e ∈ ps.*1 → e ∉ ends rn) → is_Some (make_ends ps rn).
Proof.
  revert rn. induction ps as [|[e s] ps IH]; intros rn Hnd Hnew; [eauto|].
  apply NoDup_cons in Hnd as [He Hnd]. change (is_Some (make_end (e, s) rn ≫= make_ends ps)).
  rewrite /make_end /= /MakeEnd bool_decide_false; [|apply Hnew; left]. simpl. apply IH; [done|].
  intros e' He' Hin. simpl in Hin. apply elem_of_union in Hin as [->%elem_of_singleton|Hin]; [done|].
  apply (Hnew e'); [by right|done].
Qed.
End ends.

(** ** Persister objects *)

(** [p.Copy()]; [None] is a nil pointer. *)
Definition obj_Copy (p : nat) (s : PState) : option (PState * nat) :=
  ps ← persisters s !! p; c ← contents s !! p;
  let q := fresh (dom (persisters s)) in
  Some (mkPState (memory s) (reachable s) (<[q := Copy ps]> (persisters s)) (<[q := c]> (contents s)), q).

(** [MakePersister()] *)
Definition obj_Make (s : PState) : PState * nat :=
  let q := fresh (dom (persisters s)) in
  (mkPState (memory s) (reachable s) (<[q := MakePersister]> (persisters s)) (<[q := ("", "")]> (contents s)), q).

(** [p.Save(r, sn)] with slices the program can reach. *)
Definition obj_Save (p : nat) (r sn : option nat) (s : PState) : option PState :=
  _ ← persisters s !! p;
  let '(mem, ps') := Save (memory s) r sn in
  Some (mkPState mem (reachable s) (<[p := ps']> (persisters s))
    (<[p := (slice (memory s) r, slice (memory s) sn)]> (contents s))).

(** [p.ReadRaftState()] and [p.ReadSnapshot()] *)
Definition obj_Read (read : Memory → Persister → Memory * nat) (p : nat) (s : PState) : option (PState * nat) :=
  ps ← persisters s !! p;
  let '(mem, a) := read (memory s) ps in
  Some (mkPState mem ({[a]} ∪ reachable s) (persisters s) (contents s), a).

(** A server puts bytes into a new slice. *)
Definition obj_alloc (data : string) (s : PState) : PState * nat :=
  let a := fresh (dom (memory s)) in
  (mkPState (<[a := data]> (memory s)) ({[a]} ∪ reachable s) (persisters s) (contents s), a).

Notation steps := (rtc persister_step).

Lemma obj_Copy_spec p s s' q :
  obj_Copy p s = Some (s', q) →
  persister_step s s' ∧ persisters s !! q = None ∧ contents s' = <[q := default ("", "") (contents s !! p)]> (contents s) ∧
  dom (persisters s') = {[q]} ∪ dom (persisters s) ∧ is_Some (contents s !! p).
Proof.
  rewrite /obj_Copy. destruct (persisters s !! p) as [ps|] eqn:Hp; [|done].
  destruct (contents s !! p) as [c|] eqn:Hc; [|done]. intros [= <- <-].
  assert (persisters s !! fresh (dom (persisters s)) = None) as Hf by apply not_elem_of_dom, is_fresh.
  split_and!; [|done|done|by rewrite /= dom_insert_L|done]. destruct s. by eapply ps_Copy.
Qed.

Lemma obj_Make_spec s s' q :
  obj_Make s = (s', q) →
  persister_step s s' ∧ persisters s !! q = None ∧ contents s' = <[q := ("", "")]> (contents s) ∧
  dom (persisters s') = {[q]} ∪ dom (persisters s).
Proof.
  intros [= <- <-].
  assert (persisters s !! fresh (dom (persisters s)) = None) as Hf by apply not_elem_of_dom, is_fresh.
  split_and!; [|done|done|by rewrite /= dom_insert_L]. destruct s. by apply ps_Make.
Qed.

Lemma obj_Save_spec p r sn s s' :
  obj_Save p r sn s = Some s' → known s r → known s sn →
  persister_step s s' ∧ contents s' = <[p := (slice (memory s) r, slice (memory s) sn)]> (contents s) ∧
  dom (persisters s') = dom (persisters s).
Proof.
  rewrite /obj_Save. destruct (persisters s !! p) as [ps|] eqn:Hp; [|done]. cbn [mbind option_bind].
  destruct (Save (memory s) r sn) as [mem ps'] eqn:HS. intros [= <-] Hr Hsn. split_and!; [|done|].
  - destruct s. by eapply ps_Save.
  - rewrite /= dom_insert_L. apply elem_of_dom_2 in Hp. set_solver.
Qed.

Lemma obj_alloc_spec data s s' a :
  obj_alloc data s = (s', a) →
  persister_step s s' ∧ contents s' = contents s ∧ persisters s' = persisters s ∧ a ∈ reachable s' ∧
  slice (memory s') (Some a) = data ∧ (∀ b, b ∈ reachable s → b ∈ reachable s') ∧
  (∀ b, is_Some (memory s !! b) → slice (memory s') (Some b) = slice (memory s) (Some b)).
Proof.
  intros [= <- <-]. assert (memory s !! fresh (dom (memory s)) = None) as Hf by apply not_elem_of_dom, is_fresh.
  split_and!; simpl; [destruct s; by apply ps_alloc|done|done|set_solver|apply slice_new|set_solver|].
  intros b Hb. apply slice_write. intros [= ->]. rewrite Hf in Hb. by destruct Hb.
Qed.

Lemma obj_Read_spec (read : Memory → Persister → Memory * nat) (field : Persister → option nat) p s s' a :
  (∀ mem ps, read mem ps = clone mem (field ps)) →
  (∀ ps mem R P C b i, P !! i = Some ps → b = fresh (dom mem) →
     persister_step (mkPState mem R P C) (mkPState (<[b := slice mem (field ps)]> mem) ({[b]} ∪ R) P C)) →
  obj_Read read p s = Some (s', a) →
  ∃ ps, persisters s !! p = Some ps ∧ persister_step s s' ∧ contents s' = contents s ∧
    persisters s' = persisters s ∧ a ∈ reachable s' ∧ slice (memory s') (Some a) = slice (memory s) (field ps) ∧
    (∀ b, b ∈ reachable s → b ∈ reachable s') ∧
    (∀ b, is_Some (memory s !! b) → slice (memory s') (Some b) = slice (memory s) (Some b)).
Proof.
  intros Hread Hstep. rewrite /obj_Read. destruct (persisters s !! p) as [ps|] eqn:Hp; [|done]. cbn [mbind option_bind].
  rewrite Hread /clone. intros [= <- <-]. exists ps. split_and!; simpl; [done| |done|done|set_solver|apply slice_new|set_solver|].
  - destruct s. by eapply Hstep.
  - intros b Hb. apply slice_write. intros [= ->]. apply elem_of_dom in Hb. by apply is_fresh in Hb.
Qed.

Lemma ReadRaftState_spec p s s' a :
  obj_Read ReadRaftState p s = Some (s', a) →
  ∃ ps, persisters s !! p = Some ps ∧ persister_step s s' ∧ contents s' = contents s ∧
    persisters s' = persisters s ∧ a ∈ reachable s' ∧ slice (memory s') (Some a) = slice (memory s) (raftstate ps) ∧
    (∀ b, b ∈ reachable s → b ∈ reachable s') ∧
    (∀ b, is_Some (memory s !! b) → slice (memory s') (Some b) = slice (memory s) (Some b)).
Proof. apply obj_Read_spec; [done|]. intros ps mem R P C b i Hi ->. by eapply ps_ReadRaftState. Qed.

Lemma ReadSnapshot_spec p s s' a :
  obj_Read ReadSnapshot p s = Some (s', a) →
  ∃ ps, persisters s !! p = Some ps ∧ persister_step s s' ∧ contents s' = contents s ∧
    persisters s' = persisters s ∧ a ∈ reachable s' ∧ slice (memory s') (Some a) = slice (memory s) (snapshot ps) ∧
    (∀ b, b ∈ reachable s → b ∈ reachable s') ∧
    (∀ b, is_Some (memory s !! b) → slice (memory s') (Some b) = slice (memory s) (Some b)).
Proof. apply obj_Read_spec; [done|]. intros ps mem R P C b i Hi ->. by eapply ps_ReadSnapshot. Qed.

Lemma obj_Copy_total p s : persister_inv s → p ∈ dom (persisters s) → is_Some (obj_Copy p s).
Proof.
  intros [_ Hc] [ps Hps]%elem_of_dom. rewrite /obj_Copy Hps /=. destruct (Hc p ps Hps) as (_ & _ & ->). simpl. eauto.
Qed.

Lemma obj_Read_total read p s : p ∈ dom (persisters s) → is_Some (obj_Read read p s).
Proof. intros [ps Hps]%elem_of_dom. rewrite /obj_Read Hps /=. destruct (read _ _). eauto. Qed.

Lemma obj_Save_total p r sn s : p ∈ dom (persisters s) → is_Some (obj_Save p r sn s).
Proof. intros [ps Hps]%elem_of_dom. rewrite /obj_Save Hps. cbn [mbind option_bind]. destruct (Save (memory s) r sn). eauto. Qed.

Lemma set_at_total {A} i (x : A) l : (i < length l)%nat → set_at i x l = Some (<[i := x]> l).
Proof. intros Hi. by rewrite /set_at bool_decide_true. Qed.
