(* ===== verification/RaftConfig.v ===== *)
(** * The test configuration of Raft: servers on the network

    Models [raft/config.go] as far as it starts, crashes, connects and
    disconnects servers and restores their logs, on top of the network of
    [LabRpc] and the persisters of [Persister], and what there is of
    [raft/raft.go]: the object, [Make] and [Kill] (the rest of it is empty in
    this repository). Instances of servers are objects that outlive their
    crash: they keep the ends and the persister they were made with.

    Between the critical sections of [crash1] and [start1] other goroutines run;
    what they can do to the state here is to save into the persisters they hold.
    [w] lists such saves. *)
From S2P Require Import Prelude GoBase LabRpc Persister Harness.

(** Names on the network: ends have random strings, servers their number. *)
Abbreviation NetName := (string + nat)%type (only parsing).

(** ** raft.go *)

Record Raft := mkRaft {
  rf_peers : list string;      (* the names of its ends *)
  rf_persister : nat;          (* the persister object *)
  rf_me : nat;
  rf_dead : bool;
}.

Definition Raft_Make (peers : list string) (me : nat) (persister : nat) : Raft := mkRaft peers persister me false.
Definition Raft_Kill (rf : Raft) : Raft := mkRaft (rf_peers rf) (rf_persister rf) (rf_me rf) true.
Definition Raft_killed (rf : Raft) : bool := rf_dead rf.

Section config.
Context {Cmd : Type}.

(** A value of type [interface{}] in a log; nil is [None]. *)
Notation Log := (gmap Z (option Cmd)).

Record rcfg := mkRC {
  rc_net : Network (Name := NetName);
  rc_n : nat;
  rc_rafts : list (option nat);
  rc_connected : list bool;
  rc_saved : list (option nat);
  rc_endnames : list (option (list string));
  rc_logs : list Log;
  rc_lastApplied : list Z;
  rc_insts : gmap nat Raft;    (* every instance ever made *)
  rc_ps : PState;              (* the persister objects *)
}.

Definition set_net (rn : Network) (cfg : rcfg) : rcfg :=
  mkRC rn (rc_n cfg) (rc_rafts cfg) (rc_connected cfg) (rc_saved cfg) (rc_endnames cfg) (rc_logs cfg)
    (rc_lastApplied cfg) (rc_insts cfg) (rc_ps cfg).
Definition set_connected (l : list bool) (cfg : rcfg) : rcfg :=
  mkRC (rc_net cfg) (rc_n cfg) (rc_rafts cfg) l (rc_saved cfg) (rc_endnames cfg) (rc_logs cfg)
    (rc_lastApplied cfg) (rc_insts cfg) (rc_ps cfg).
Definition set_endnames (l : list (option (list string))) (cfg : rcfg) : rcfg :=
  mkRC (rc_net cfg) (rc_n cfg) (rc_rafts cfg) (rc_connected cfg) (rc_saved cfg) l (rc_logs cfg)
    (rc_lastApplied cfg) (rc_insts cfg) (rc_ps cfg).
Definition set_saved (l : list (option nat)) (ps : PState) (cfg : rcfg) : rcfg :=
  mkRC (rc_net cfg) (rc_n cfg) (rc_rafts cfg) (rc_connected cfg) l (rc_endnames cfg) (rc_logs cfg)
    (rc_lastApplied cfg) (rc_insts cfg) ps.
Definition set_rafts (l : list (option nat)) (insts : gmap nat Raft) (cfg : rcfg) : rcfg :=
  mkRC (rc_net cfg) (rc_n cfg) l (rc_connected cfg) (rc_saved cfg) (rc_endnames cfg) (rc_logs cfg)
    (rc_lastApplied cfg) insts (rc_ps cfg).
Definition set_logs (l : list Log) (la : list Z) (cfg : rcfg) : rcfg :=
  mkRC (rc_net cfg) (rc_n cfg) (rc_rafts cfg) (rc_connected cfg) (rc_saved cfg) (rc_endnames cfg) l la
    (rc_insts cfg) (rc_ps cfg).

(** ** Connecting *)

(** [cfg.endnames[i][j]]; [None] when an index is out of range or the row nil. *)
Definition end_name (cfg : rcfg) (i j : nat) : option string := ns ← mjoin (rc_endnames cfg !! i); ns !! j.

Definition connect (i : nat) (cfg : rcfg) : option rcfg :=
  conn ← set_at i true (rc_connected cfg);
  (* outgoing ClientEnds *)
  rn ← toggle_loop (λ j, c ← conn !! j;
         if (c : bool) then endname ← end_name cfg i j; Some (Some (inl endname)) else Some None)
       true (seq 0 (rc_n cfg)) (rc_net cfg);
  (* incoming ClientEnds *)
  rn ← toggle_loop (λ j, c ← conn !! j;
         if (c : bool) then endname ← end_name cfg j i; Some (Some (inl endname)) else Some None)
       true (seq 0 (rc_n cfg)) rn;
  Some (set_net rn (set_connected conn cfg)).

Definition disconnect (i : nat) (cfg : rcfg) : option rcfg :=
  conn ← set_at i false (rc_connected cfg);
  (* outgoing ClientEnds *)
  rn ← toggle_loop (λ j, row ← rc_endnames cfg !! i;
         match row with
         | Some _ => endname ← end_name cfg i j; Some (Some (inl endname))
         | None => Some None
         end) false (seq 0 (rc_n cfg)) (rc_net cfg);
  (* incoming ClientEnds *)
  rn ← toggle_loop (λ j, row ← rc_endnames cfg !! j;
         match row with
         | Some _ => endname ← end_name cfg j i; Some (Some (inl endname))
         | None => Some None
         end) false (seq 0 (rc_n cfg)) rn;
  Some (set_net rn (set_connected conn cfg)).

(** ** Saving *)

(** Instance [o] saves its state and a snapshot. *)
Definition inst_save (o : nat) (state snap : string) (cfg : rcfg) : option rcfg :=
  rf ← rc_insts cfg !! o;
  let '(ps, a) := obj_alloc state (rc_ps cfg) in
  let '(ps, b) := obj_alloc snap ps in
  ps ← obj_Save (rf_persister rf) (Some a) (Some b) ps;
  Some (set_saved (rc_saved cfg) ps cfg).

Abbreviation Saves := (list (nat * string * string)) (only parsing).

Definition inst_saves : Saves → rcfg → option rcfg := foldM (λ x, inst_save x.1.1 x.1.2 x.2).

(** ** Crashing and starting *)

(** [if cfg.saved[i] != nil { cfg.saved[i] = cfg.saved[i].Copy() }] *)
Definition copy_saved (i : nat) (cfg : rcfg) : option rcfg :=
  p ← rc_saved cfg !! i;
  match p with
  | None => Some cfg
  | Some p =>
      '(ps, q) ← obj_Copy p (rc_ps cfg);
      saved ← set_at i (Some q) (rc_saved cfg);
      Some (set_saved saved ps cfg)
  end.

(** [rf.Kill(); cfg.rafts[i] = nil] *)
Definition kill_raft (i : nat) (cfg : rcfg) : option rcfg :=
  rf ← rc_rafts cfg !! i;
  match rf with
  | None => Some cfg
  | Some o =>
      rafts ← set_at i None (rc_rafts cfg);
      Some (set_rafts rafts (alter Raft_Kill o (rc_insts cfg)) cfg)
  end.

(** [raftlog := ReadRaftState(); ...; saved[i] = &Persister{}; Save(raftlog, snapshot)] *)
Definition renew_saved (i : nat) (cfg : rcfg) : option rcfg :=
  p ← rc_saved cfg !! i;
  match p with
  | None => Some cfg
  | Some p =>
      '(ps, raftlog) ← obj_Read ReadRaftState p (rc_ps cfg);
      '(ps, snapshot) ← obj_Read ReadSnapshot p ps;
      let '(ps, q) := obj_Make ps in
      ps ← obj_Save q (Some raftlog) (Some snapshot) ps;
      saved ← set_at i (Some q) (rc_saved cfg);
      Some (set_saved saved ps cfg)
  end.

Definition crash1 (i : nat) (w : Saves) (cfg : rcfg) : option rcfg :=
  cfg ← disconnect i cfg;
  let cfg := set_net (DeleteServer (inr i) (rc_net cfg)) cfg in
  cfg ← copy_saved i cfg;
  cfg ← inst_saves w cfg;
  cfg ← kill_raft i cfg;
  renew_saved i cfg.

(** The snapshot's index and log, decoded; an error is fatal in every use. *)
Variable decode_snapshot : string → option (Z * list (option Cmd)).

Definition snapshot_log (xlog : list (option Cmd)) : Log :=
  list_to_map (imap (λ j v, (Z.of_nat j, v)) xlog).

Definition ingestSnap (i : nat) (snapshot : string) (index : Z) (cfg : rcfg) : option rcfg :=
  '(lastIncludedIndex, xlog) ← decode_snapshot snapshot;
  if negb (bool_decide (index = -1)) && negb (bool_decide (index = lastIncludedIndex)) then None else
  logs ← set_at i (snapshot_log xlog) (rc_logs cfg);
  la ← set_at i lastIncludedIndex (rc_lastApplied cfg);
  Some (set_logs logs la cfg).

(** The persister a new instance is given, and the snapshot it may hold. *)
Definition prepare_saved (i : nat) (cfg : rcfg) : option (rcfg * nat) :=
  p ← rc_saved cfg !! i;
  match p with
  | Some p =>
      cfg ← copy_saved i cfg;
      q ← mjoin (rc_saved cfg !! i);
      '(ps, a) ← obj_Read ReadSnapshot q (rc_ps cfg);
      let cfg := set_saved (rc_saved cfg) ps cfg in
      let snapshot := slice (memory ps) (Some a) in
      cfg ← if bool_decide (0 < slen snapshot) then ingestSnap i snapshot (-1) cfg else Some cfg;
      Some (cfg, q)
  | None =>
      let '(ps, q) := obj_Make (rc_ps cfg) in
      saved ← set_at i (Some q) (rc_saved cfg);
      Some (set_saved saved ps cfg, q)
  end.

(** [names] are the random names of the new ends. *)
Definition start1 (i : nat) (names : list string) (w1 w2 : Saves) (cfg : rcfg) : option rcfg :=
  cfg ← crash1 i w1 cfg;
  if negb (bool_decide (length names = rc_n cfg)) then None else
  rows ← set_at i (Some names) (rc_endnames cfg);
  let cfg := set_endnames rows cfg in
  rn ← make_ends (imap (λ j name, (inl name, inr j)) names) (rc_net cfg);
  let cfg := set_net rn cfg in
  cfg ← inst_saves w2 cfg;
  la ← set_at i 0 (rc_lastApplied cfg);
  let cfg := set_logs (rc_logs cfg) la cfg in
  '(cfg, q) ← prepare_saved i cfg;
  let o := fresh (dom (rc_insts cfg)) in
  rafts ← set_at i (Some o) (rc_rafts cfg);
  let cfg := set_rafts rafts (<[o := Raft_Make names i q]> (rc_insts cfg)) cfg in
  Some (set_net (AddServer (inr i) o (rc_net cfg)) cfg).

(** ** make_config *)

Definition init_cfg (n : nat) (unreliable : bool) : rcfg :=
  mkRC (LongDelays true (Reliable (negb unreliable) MakeNetwork)) n (replicate n None) (replicate n false)
    (replicate n None) (replicate n None) (replicate n ∅) (replicate n 0) ∅ init_persisters.

Definition make_config (n : nat) (unreliable : bool) (names : nat → list string) : option rcfg :=
  cfg ← foldM (λ i, start1 i (names i) [] []) (seq 0 n) (init_cfg n unreliable);
  foldM connect (seq 0 n) cfg.

(** [cfg.net.GetCount(server)], with the server objects of the network, ... *)
Definition rpcCount {A} (server : nat) (objs : gmap nat (@Server A)) (cfg : rcfg) : option Z := GetCount (inr server) objs (rc_net cfg).
Definition rpcTotal (cfg : rcfg) : Z := GetTotalCount (rc_net cfg).
Definition bytesTotal (cfg : rcfg) : Z := GetTotalBytes (rc_net cfg).
Definition setunreliable (unrel : bool) (cfg : rcfg) : rcfg := set_net (Reliable (negb unrel) (rc_net cfg)) cfg.
Definition setlongreordering (longrel : bool) (cfg : rcfg) : rcfg := set_net (LongReordering longrel (rc_net cfg)) cfg.

(** Every server that runs is killed. *)
Definition cleanup (cfg : rcfg) : rcfg :=
  set_rafts (rc_rafts cfg)
    (foldl (λ insts rf, match rf with Some o => alter Raft_Kill o insts | None => insts end) (rc_insts cfg) (rc_rafts cfg)) cfg.

(** The largest Raft state of the servers; a nil persister panics. *)
Definition LogSize (cfg : rcfg) : option Z :=
  foldM (λ i logsize,
    p ← mjoin (rc_saved cfg !! i); ps ← persisters (rc_ps cfg) !! p;
    let n := RaftStateSize (memory (rc_ps cfg)) ps in
    Some (if bool_decide (logsize < n) then n else logsize))
  (seq 0 (rc_n cfg)) 0.
End config.
Arguments rcfg : clear implicits.
