(* ===== verification/RaftConfigThm.v ===== *)
(** * Crashed instances of Raft servers are isolated

    The test configuration cannot really kill a server. What it promises
    instead: an instance that was crashed can no longer send or be reached, and
    no longer changes the state its successors are started with. *)
From S2P Require Import Prelude GoBase LabRpc Persister Harness RaftConfig.

Section thm.
Context {Cmd : Type}.
Implicit Types (cfg : rcfg Cmd) (i j o : nat) (e : string).

(** Is the server on the net? *)
Definition conn cfg i : bool := default false (rc_connected cfg !! i).

(** Operations on persisters and logs leave the network alone, and the other
    way round. *)
Definition same_net cfg cfg' : Prop :=
  rc_net cfg' = rc_net cfg ∧ rc_n cfg' = rc_n cfg ∧ rc_rafts cfg' = rc_rafts cfg ∧
  rc_connected cfg' = rc_connected cfg ∧ rc_endnames cfg' = rc_endnames cfg ∧ rc_insts cfg' = rc_insts cfg.
Definition same_pers cfg cfg' : Prop :=
  rc_n cfg' = rc_n cfg ∧ rc_rafts cfg' = rc_rafts cfg ∧ rc_saved cfg' = rc_saved cfg ∧
  rc_insts cfg' = rc_insts cfg ∧ rc_ps cfg' = rc_ps cfg.

#[global] Instance same_net_preorder : PreOrder same_net.
Proof. split; [by intros ?|]. unfold same_net. intros ???. naive_solver congruence. Qed.
#[global] Instance same_pers_preorder : PreOrder same_pers.
Proof. split; [by intros ?|]. unfold same_pers. intros ???. naive_solver congruence. Qed.

Lemma foldM_rel {A S} (R : S → S → Prop) `{!PreOrder R} (f : A → S → option S) l s s' :
  (∀ a s s', f a s = Some s' → R s s') → foldM f l s = Some s' → R s s'.
Proof.
  intros Hf. revert s. induction l as [|a l IH]; intros s Hr; simpl in Hr; [by simplify_eq|].
  destruct (f a s) eqn:E; [|done]. etrans; [by eapply Hf|by apply IH].
Qed.

(** ** What the operations change *)

Lemma inst_save_frame o st sn cfg cfg' :
  inst_save o st sn cfg = Some cfg' → same_net cfg cfg' ∧ rc_saved cfg' = rc_saved cfg.
Proof.
  rewrite /inst_save. destruct (rc_insts cfg !! o); [|done]. cbn [mbind option_bind].
  destruct (obj_alloc st _) as [ps1 a]. destruct (obj_alloc sn ps1) as [ps2 b].
  destruct (obj_Save _ _ _ _); [|done]. by intros [= <-].
Qed.

Lemma inst_saves_frame w cfg cfg' :
  inst_saves w cfg = Some cfg' → same_net cfg cfg' ∧ rc_saved cfg' = rc_saved cfg.
Proof.
  intros Hr. split.
  - eapply (foldM_rel same_net); [|exact Hr]. intros x s s' Hs. by apply inst_save_frame in Hs as [].
  - assert (PreOrder (λ s s' : rcfg Cmd, rc_saved s' = rc_saved s)) by (split; [done|intros ???; congruence]).
    revert Hr. apply (foldM_rel (λ s s', rc_saved s' = rc_saved s)).
    intros x s s' Hs. by apply inst_save_frame in Hs as [].
Qed.

Lemma copy_saved_frame i cfg cfg' : copy_saved i cfg = Some cfg' → same_net cfg cfg'.
Proof.
  rewrite /copy_saved. destruct (rc_saved cfg !! i) as [[p|]|]; [|by intros [= <-]|done]. cbn [mbind option_bind].
  destruct (obj_Copy _ _) as [[ps q]|]; [|done]. cbn [mbind option_bind].
  destruct (set_at _ _ _); [|done]. by intros [= <-].
Qed.

Lemma renew_saved_frame i cfg cfg' : renew_saved i cfg = Some cfg' → same_net cfg cfg'.
Proof.
  rewrite /renew_saved. destruct (rc_saved cfg !! i) as [[p|]|]; [|by intros [= <-]|done]. cbn [mbind option_bind].
  destruct (obj_Read _ _ _) as [[ps1 a]|]; [|done]. cbn [mbind option_bind].
  destruct (obj_Read _ _ ps1) as [[ps2 b]|]; [|done]. cbn [mbind option_bind].
  destruct (obj_Make ps2) as [ps3 q]. destruct (obj_Save _ _ _ _); [|done]. cbn [mbind option_bind].
  destruct (set_at _ _ _); [|done]. by intros [= <-].
Qed.

Lemma ingestSnap_frame dec i sn idx cfg cfg' :
  ingestSnap dec i sn idx cfg = Some cfg' → same_net cfg cfg' ∧ same_pers cfg cfg'.
Proof.
  rewrite /ingestSnap. destruct (dec sn) as [[la xlog]|]; [|done]. cbn [mbind option_bind].
  destruct (negb _ && negb _); [done|]. destruct (set_at i (snapshot_log xlog) _); [|done]. cbn [mbind option_bind].
  destruct (set_at i la _); [|done]. by intros [= <-].
Qed.

(** ** The network *)

Record net_inv cfg : Prop := {
  ni_len : length (rc_rafts cfg) = rc_n cfg ∧ length (rc_connected cfg) = rc_n cfg ∧
           length (rc_endnames cfg) = rc_n cfg;
  ni_row : ∀ i ns, rc_endnames cfg !! i = Some (Some ns) → length ns = rc_n cfg;
  ni_end : ∀ i j e, end_name cfg i j = Some e →
    inl e ∈ ends (rc_net cfg) ∧ enabled (rc_net cfg) !! inl e = Some (conn cfg i && conn cfg j) ∧
    connections (rc_net cfg) !! inl e = Some (Some (inr j));
  ni_inj : ∀ i j i' j' e, end_name cfg i j = Some e → end_name cfg i' j' = Some e → i = i' ∧ j = j';
  ni_old : ∀ e, inl e ∈ ends (rc_net cfg) → (∀ i j, end_name cfg i j ≠ Some e) →
    enabled (rc_net cfg) !! inl e = Some false;
  ni_conn : ∀ i, conn cfg i = true → ∃ o, rc_rafts cfg !! i = Some (Some o);
  ni_cur : ∀ i o, rc_rafts cfg !! i = Some (Some o) →
    ∃ rf, rc_insts cfg !! o = Some rf ∧ rf_me rf = i ∧ rc_endnames cfg !! i = Some (Some (rf_peers rf));
  ni_gone : ∀ o rf, rc_insts cfg !! o = Some rf → rc_rafts cfg !! rf_me rf ≠ Some (Some o) →
    ∀ e, e ∈ rf_peers rf → inl e ∈ ends (rc_net cfg) ∧
      ∀ i j, end_name cfg i j = Some e → i = rf_me rf ∧ rc_rafts cfg !! i = Some None;
}.

Lemma end_name_Some cfg i j e :
  end_name cfg i j = Some e ↔ ∃ ns, rc_endnames cfg !! i = Some (Some ns) ∧ ns !! j = Some e.
Proof. rewrite /end_name. destruct (rc_endnames cfg !! i) as [[ns|]|]; naive_solver. Qed.

Lemma row_end cfg i e : e ∈ default [] (mjoin (rc_endnames cfg !! i)) ↔ ∃ j, end_name cfg i j = Some e.
Proof.
  rewrite list_elem_of_lookup /end_name. destruct (rc_endnames cfg !! i) as [[ns|]|]; simpl; [done|..].
  all: split; intros [j Hj]; [by rewrite lookup_nil in Hj|done].
Qed.

Lemma end_name_lt cfg i j e : net_inv cfg → end_name cfg i j = Some e → (i < rc_n cfg)%nat ∧ (j < rc_n cfg)%nat.
Proof.
  intros Hinv (ns & Hi & Hj)%end_name_Some. destruct (ni_len _ Hinv) as (_ & _ & Hl).
  rewrite -{2}(ni_row _ Hinv i ns Hi) -Hl. split; by eapply lookup_lt_Some.
Qed.

(** What both operations come to: the row and the column of a server. *)
Lemma connect_spec i cfg cfg' :
  connect i cfg = Some cfg' → ∃ names : list (string + nat),
    (i < length (rc_connected cfg))%nat ∧
    cfg' = set_net (enable_all names true (rc_net cfg)) (set_connected (<[i := true]> (rc_connected cfg)) cfg) ∧
    ∀ x, x ∈ names ↔ ∃ e j, x = inl e ∧ (j < rc_n cfg)%nat ∧ <[i := true]> (rc_connected cfg) !! j = Some true ∧
      (end_name cfg i j = Some e ∨ end_name cfg j i = Some e).
Proof.
  rewrite /connect. destruct (set_at _ _ _) as [c|] eqn:Hs; [|done]. apply set_at_Some in Hs as [Hi ->].
  cbn [mbind option_bind]. set (c := <[i := true]> (rc_connected cfg)).
  destruct (toggle_loop _ _ _ _) as [rn1|] eqn:H1; [|done]. cbn [mbind option_bind].
  destruct (toggle_loop _ _ _ rn1) as [rn2|] eqn:H2; [|done]. intros [= <-].
  apply toggle_loop_spec in H1 as (n1 & -> & Hn1). apply toggle_loop_spec in H2 as (n2 & -> & Hn2).
  exists (n1 ++ n2). split_and!; [done|by rewrite /enable_all foldl_app|].
  intros x. rewrite elem_of_app Hn1 Hn2. setoid_rewrite elem_of_seq. split.
  - intros [(j & Hj & Hp)|(j & Hj & Hp)]; destruct (c !! j) as [[]|] eqn:Hc; simpl in Hp; try done;
      [destruct (end_name cfg i j) as [e|] eqn:He|destruct (end_name cfg j i) as [e|] eqn:He];
      simplify_eq/=; exists e, j; (split_and!; [done|lia|done|auto]).
  - intros (e & j & -> & Hj & Hc & [He|He]); [left|right]; exists j; (split; [lia|]); by rewrite Hc /= He.
Qed.

Lemma disconnect_spec i cfg cfg' :
  disconnect i cfg = Some cfg' → ∃ names : list (string + nat),
    (i < length (rc_connected cfg))%nat ∧
    cfg' = set_net (enable_all names false (rc_net cfg)) (set_connected (<[i := false]> (rc_connected cfg)) cfg) ∧
    ∀ x, x ∈ names ↔ ∃ e j, x = inl e ∧ (j < rc_n cfg)%nat ∧ (end_name cfg i j = Some e ∨ end_name cfg j i = Some e).
Proof.
  rewrite /disconnect. destruct (set_at _ _ _) as [c|] eqn:Hs; [|done]. apply set_at_Some in Hs as [Hi ->].
  cbn [mbind option_bind]. set (c := <[i := false]> (rc_connected cfg)).
  destruct (toggle_loop _ _ _ _) as [rn1|] eqn:H1; [|done]. cbn [mbind option_bind].
  destruct (toggle_loop _ _ _ rn1) as [rn2|] eqn:H2; [|done]. intros [= <-].
  apply toggle_loop_spec in H1 as (n1 & -> & Hn1). apply toggle_loop_spec in H2 as (n2 & -> & Hn2).
  exists (n1 ++ n2). split_and!; [done|by rewrite /enable_all foldl_app|].
  intros x. rewrite elem_of_app Hn1 Hn2. setoid_rewrite elem_of_seq. split.
  - intros [(j & Hj & Hp)|(j & Hj & Hp)];
      [destruct (rc_endnames cfg !! i) as [[ns|]|]; simpl in Hp; try done; destruct (end_name cfg i j) as [e|] eqn:He
      |destruct (rc_endnames cfg !! j) as [[ns|]|]; simpl in Hp; try done; destruct (end_name cfg j i) as [e|] eqn:He];
      simplify_eq/=; exists e, j; (split_and!; [done|lia|auto]).
  - intros (e & j & -> & Hj & [He|He]); [left|right]; exists j; (split; [lia|]);
      pose proof He as (ns & -> & _)%end_name_Some; by rewrite /= He.
Qed.
(** Toggling ends of the table so that they fit the new flags. *)
Lemma net_inv_toggle cfg (names : list (string + nat)) yes c' :
  net_inv cfg → length c' = length (rc_connected cfg) →
  (∀ x, x ∈ names → ∃ e a b, x = inl e ∧ end_name cfg a b = Some e) →
  (∀ a b e, end_name cfg a b = Some e →
     (if decide (inl e ∈ names) then yes else conn cfg a && conn cfg b) =
       default false (c' !! a) && default false (c' !! b)) →
  (∀ i, c' !! i = Some true → ∃ o, rc_rafts cfg !! i = Some (Some o)) →
  net_inv (set_net (enable_all names yes (rc_net cfg)) (set_connected c' cfg)).
Proof.
  intros [(L1 & L2 & L3) Hrow Hend Hinj Hold Hconn Hcur Hgone] Hlen Hnames Htab Hc'.
  destruct (enable_all_same names yes (rc_net cfg)) as (He & Hco & Hsv).
  split; simpl; rewrite ?He ?Hco; try done.
  - split_and!; congruence.
  - intros a b e Hab. destruct (Hend a b e Hab) as (H1 & H2 & H3). split_and!; [done| |done].
    rewrite enable_all_enabled /conn /= -(Htab a b e Hab). by case_decide.
  - intros e Hin Hno. rewrite enable_all_enabled decide_False; [by apply Hold|].
    intros Hx%Hnames. destruct Hx as (e' & a & b & [= <-] & Hab). by apply (Hno a b).
  - intros i. rewrite /conn /=. destruct (c' !! i) as [[]|] eqn:Hi; [|done..]. intros _. by apply Hc'.
Qed.

Lemma conn_insert cfg i j b :
  (i < length (rc_connected cfg))%nat →
  default false (<[i := b]> (rc_connected cfg) !! j) = if decide (j = i) then b else conn cfg j.
Proof.
  intros Hi. case_decide as Hj; [subst; by rewrite list_lookup_insert_eq|by rewrite list_lookup_insert_ne].
Qed.

Lemma connect_net_inv i cfg cfg' :
  net_inv cfg → (∃ o, rc_rafts cfg !! i = Some (Some o)) → connect i cfg = Some cfg' → net_inv cfg'.
Proof.
  intros Hinv Hup (names & Hi & -> & Hn)%connect_spec. apply net_inv_toggle; [done|by rewrite length_insert|..].
  - intros x Hx. apply Hn in Hx as (e & j & -> & _ & _ & [?|?]); eauto.
  - intros a b e Hab. rewrite !conn_insert //. destruct (end_name_lt cfg a b e Hinv Hab) as [Ha Hb].
    destruct (ni_len _ Hinv) as (_ & Hl & _).
    assert (inl e ∈ names ↔ (a = i ∧ (b = i ∨ conn cfg b = true)) ∨ (b = i ∧ (a = i ∨ conn cfg a = true))) as Hiff.
    { assert (∀ j, (j < rc_n cfg)%nat → <[i:=true]> (rc_connected cfg) !! j = Some true ↔ j = i ∨ conn cfg j = true) as Hj.
      { intros j Hj. rewrite /conn. destruct (decide (j = i)) as [->|Hne]; [rewrite list_lookup_insert_eq //; tauto|].
        rewrite list_lookup_insert_ne //. destruct (lookup_lt_is_Some_2 (rc_connected cfg) j) as [c ->]; [lia|].
        simpl. naive_solver. }
      rewrite Hn. split.
      - intros (e' & j & [= <-] & Hjn & Hc%(Hj j Hjn) & [He|He]);
          destruct (ni_inj _ Hinv _ _ _ _ _ Hab He) as [-> ->]; naive_solver.
      - intros [[-> Hc]|[-> Hc]]; [exists e, b|exists e, a]; (split_and!; [done|done|by apply Hj|auto]). }
    destruct (decide (inl e ∈ names)) as [Hin|Hin].
    + apply Hiff in Hin. clear Hiff. destruct (decide (a = i)), (decide (b = i)), (conn cfg a), (conn cfg b); intuition congruence.
    + rewrite Hiff in Hin. destruct (decide (a = i)), (decide (b = i)), (conn cfg a), (conn cfg b); intuition congruence.
  - intros j. destruct (decide (j = i)) as [->|]; [done|]. rewrite list_lookup_insert_ne //. intros Hj.
    apply (ni_conn _ Hinv). by rewrite /conn Hj.
Qed.

Lemma disconnect_net_inv i cfg cfg' :
  net_inv cfg → disconnect i cfg = Some cfg' → net_inv cfg' ∧ conn cfg' i = false.
Proof.
  intros Hinv (names & Hi & -> & Hn)%disconnect_spec. split.
  - apply net_inv_toggle; [done|by rewrite length_insert|..].
    + intros x Hx. apply Hn in Hx as (e & j & -> & _ & [?|?]); eauto.
    + intros a b e Hab. rewrite !conn_insert //. destruct (end_name_lt cfg a b e Hinv Hab) as [Ha Hb].
      assert (inl e ∈ names ↔ a = i ∨ b = i) as Hiff.
      { rewrite Hn. split.
        - intros (e' & j & [= <-] & _ & [He|He]); destruct (ni_inj _ Hinv _ _ _ _ _ Hab He) as [-> ->]; auto.
        - intros [->| ->]; [exists e, b|exists e, a]; (split_and!; [done|done|auto]). }
      destruct (decide (inl e ∈ names)) as [Hin|Hin].
      * apply Hiff in Hin as [->| ->]; rewrite (decide_True (P := i = i)) // andb_false_r //.
      * rewrite Hiff in Hin. rewrite !decide_False; [done|tauto..].
    + intros j. destruct (decide (j = i)) as [->|]; [by rewrite list_lookup_insert_eq|].
      rewrite list_lookup_insert_ne //. intros Hj. apply (ni_conn _ Hinv). by rewrite /conn Hj.
  - rewrite /conn /= list_lookup_insert_eq //.
Qed.

(** The invariant depends on the network part only, and not on which server
    objects are registered. *)
Lemma net_inv_same cfg cfg' :
  net_inv cfg → same_net cfg cfg' → net_inv cfg'.
Proof.
  intros [L Hrow Hend Hinj Hold Hconn Hcur Hgone] (E1 & E2 & E3 & E4 & E5 & E6).
  destruct cfg'; simpl in *; subst. by split.
Qed.

Lemma net_inv_servers cfg f : net_inv cfg → net_inv (set_net (set_servers f (rc_net cfg)) cfg).
Proof. intros [L Hrow Hend Hinj Hold Hconn Hcur Hgone]. by split. Qed.

Lemma kill_raft_net_inv i cfg cfg' :
  net_inv cfg → conn cfg i = false → kill_raft i cfg = Some cfg' →
  net_inv cfg' ∧ conn cfg' i = false ∧ rc_rafts cfg' !! i = Some None.
Proof.
  intros Hinv Hc. rewrite /kill_raft. destruct (rc_rafts cfg !! i) as [[o|]|] eqn:Hi; [|by intros [= <-]|done].
  cbn [mbind option_bind]. destruct (set_at _ _ _) as [l|] eqn:Hs; [|done]. apply set_at_Some in Hs as [Hlt ->].
  intros [= <-]. split_and!; [|done|by rewrite /= list_lookup_insert_eq].
  destruct (ni_cur _ Hinv i o Hi) as (rf0 & Ho & Hme0 & Hrow0).
  assert (∀ o' rf', alter Raft_Kill o (rc_insts cfg) !! o' = Some rf' →
    ∃ rf, rc_insts cfg !! o' = Some rf ∧ rf_me rf' = rf_me rf ∧ rf_peers rf' = rf_peers rf) as Halt.
  { intros o' rf' H. destruct (decide (o' = o)) as [->|Hne].
    - rewrite lookup_alter_eq Ho in H. simplify_eq/=. eauto.
    - rewrite lookup_alter_ne // in H. eauto. }
  destruct Hinv as [(L1 & L2 & L3) Hrow Hend Hinj Hold Hconn Hcur Hgone].
  split; simpl; try done.
  - by rewrite length_insert.
  - intros j Hj. destruct (decide (j = i)) as [->|Hne]; [by change (conn cfg i = true) in Hj; congruence|].
    rewrite list_lookup_insert_ne //. by apply Hconn.
  - intros j o' Hj. destruct (decide (j = i)) as [->|Hne]; [by rewrite list_lookup_insert_eq in Hj|].
    rewrite list_lookup_insert_ne // in Hj. destruct (Hcur j o' Hj) as (rf & Hrf & Hme & Hr).
    destruct (decide (o' = o)) as [->|Ho']; [rewrite Ho in Hrf; simplify_eq|].
    exists rf. by rewrite lookup_alter_ne.
  - intros o' rf' Ho' Hnc e He. destruct (Halt o' rf' Ho') as (rf & Hrf & Hme & Hpeers). rewrite Hme Hpeers in Hnc He |- *.
    destruct (decide (rc_rafts cfg !! rf_me rf = Some (Some o'))) as [Hwas|Hwas].
    + destruct (decide (rf_me rf = i)) as [Hmi|Hmi]; [|by rewrite list_lookup_insert_ne in Hnc].
      rewrite Hmi in Hwas |- *. rewrite Hi in Hwas. injection Hwas as <-.
      rewrite Ho in Hrf. injection Hrf as <-. apply list_elem_of_lookup in He as [b0 Hb0].
      assert (end_name cfg i b0 = Some e) as Hen by (apply end_name_Some; eauto).
      destruct (Hend _ _ _ Hen) as [? _]. split; [done|]. intros a b Hab.
      destruct (Hinj _ _ _ _ _ Hab Hen) as [-> _]. split; [done|]. by rewrite list_lookup_insert_eq.
    + destruct (Hgone o' rf Hrf Hwas e He) as [? Hg]. split; [done|]. intros a b Hab.
      destruct (Hg a b Hab) as [-> Hnone]. split; [done|].
      destruct (decide (rf_me rf = i)) as [->|]; [by rewrite list_lookup_insert_eq|by rewrite list_lookup_insert_ne].
Qed.

Lemma crash1_net_inv i w cfg cfg' :
  net_inv cfg → crash1 i w cfg = Some cfg' → net_inv cfg' ∧ conn cfg' i = false ∧ rc_rafts cfg' !! i = Some None.
Proof.
  intros Hinv. rewrite /crash1. destruct (disconnect i cfg) as [c1|] eqn:H1; [|done]. cbn [mbind option_bind].
  destruct (disconnect_net_inv _ _ _ Hinv H1) as [I1 C1].
  set (c2 := set_net _ c1). assert (net_inv c2) as I2 by by apply net_inv_servers.
  destruct (copy_saved i c2) as [c3|] eqn:H3; [|done]. cbn [mbind option_bind]. apply copy_saved_frame in H3.
  destruct (inst_saves w c3) as [c4|] eqn:H4; [|done]. cbn [mbind option_bind]. apply inst_saves_frame in H4 as [H4 _].
  assert (same_net c2 c4) as H24 by by etrans.
  destruct (kill_raft i c4) as [c5|] eqn:H5; [|done]. cbn [mbind option_bind].
  apply (kill_raft_net_inv i c4 c5) in H5 as (I5 & C5 & R5); [|by eapply net_inv_same|].
  - intros H6%renew_saved_frame. split; [by eapply net_inv_same|]. destruct H6 as (_ & _ & E1 & E2 & _).
    rewrite /conn E1 E2. done.
  - destruct H24 as (_ & _ & _ & E & _). rewrite /conn E. exact C1.
Qed.

Lemma crash1_insts i w cfg cfg' : crash1 i w cfg = Some cfg' → dom (rc_insts cfg') = dom (rc_insts cfg).
Proof.
  rewrite /crash1. destruct (disconnect i cfg) as [c1|] eqn:H1; [|done]. cbn [mbind option_bind].
  apply disconnect_spec in H1 as (names & _ & -> & _).
  destruct (copy_saved i _) as [c3|] eqn:H3; [|done]. cbn [mbind option_bind]. apply copy_saved_frame in H3.
  destruct (inst_saves w c3) as [c4|] eqn:H4; [|done]. cbn [mbind option_bind]. apply inst_saves_frame in H4 as [H4 _].
  destruct (kill_raft i c4) as [c5|] eqn:H5; [|done]. cbn [mbind option_bind]. intros H6%renew_saved_frame.
  destruct H6 as (_ & _ & _ & _ & _ & ->). transitivity (dom (rc_insts c4)).
  - revert H5. rewrite /kill_raft. destruct (rc_rafts c4 !! i) as [[o|]|]; [|by intros [= <-]|done]. cbn [mbind option_bind].
    destruct (set_at _ _ _); [|done]. intros [= <-]. by rewrite /= dom_alter_L.
  - destruct H4 as (_ & _ & _ & _ & _ & ->). by destruct H3 as (_ & _ & _ & _ & _ & ->).
Qed.

Lemma crash1_ends i w cfg cfg' : crash1 i w cfg = Some cfg' → ends (rc_net cfg') = ends (rc_net cfg).
Proof.
  rewrite /crash1. destruct (disconnect i cfg) as [c1|] eqn:H1; [|done]. cbn [mbind option_bind].
  apply disconnect_spec in H1 as (names & _ & -> & _).
  destruct (copy_saved i _) as [c3|] eqn:H3; [|done]. cbn [mbind option_bind]. apply copy_saved_frame in H3.
  destruct (inst_saves w c3) as [c4|] eqn:H4; [|done]. cbn [mbind option_bind]. apply inst_saves_frame in H4 as [H4 _].
  destruct (kill_raft i c4) as [c5|] eqn:H5; [|done]. cbn [mbind option_bind]. intros H6%renew_saved_frame.
  destruct H6 as (-> & _). transitivity (ends (rc_net c4)).
  - revert H5. rewrite /kill_raft. destruct (rc_rafts c4 !! i) as [[o|]|]; [|by intros [= <-]|done]. cbn [mbind option_bind].
    destruct (set_at _ _ _); [|done]. by intros [= <-].
  - destruct H4 as (-> & _). destruct H3 as (-> & _). simpl.
    by destruct (enable_all_same names false (rc_net cfg)) as (-> & _).
Qed.

(** The names of the ends of every instance are taken. *)
Lemma net_inv_peers cfg o rf e :
  net_inv cfg → rc_insts cfg !! o = Some rf → e ∈ rf_peers rf → inl e ∈ ends (rc_net cfg).
Proof.
  intros Hinv Ho He. destruct (decide (rc_rafts cfg !! rf_me rf = Some (Some o))) as [Hc|Hc].
  - destruct (ni_cur _ Hinv _ _ Hc) as (rf' & Ho' & _ & Hrow). rewrite Ho in Ho'. simplify_eq.
    apply list_elem_of_lookup in He as [j Hj].
    apply (ni_end _ Hinv (rf_me rf') j). apply end_name_Some. eauto.
  - by apply (ni_gone _ Hinv o rf Ho Hc e He).
Qed.

(** An end that is not in the table, or only in the row of a server that is
    down, is disabled. *)
Lemma net_inv_gone_disabled cfg rf e :
  net_inv cfg → inl e ∈ ends (rc_net cfg) →
  (∀ i j, end_name cfg i j = Some e → i = rf_me rf ∧ rc_rafts cfg !! i = Some None) →
  enabled (rc_net cfg) !! inl e = Some false.
Proof.
  intros Hinv He Hg. destruct (decide (e ∈ default [] (mjoin (rc_endnames cfg !! rf_me rf)))) as [[j Hj]%row_end|Hno].
  - destruct (Hg _ _ Hj) as [_ Hd]. destruct (ni_end _ Hinv _ _ _ Hj) as (_ & -> & _).
    destruct (conn cfg (rf_me rf)) eqn:Hc; [|done]. destruct (ni_conn _ Hinv _ Hc) as [o' Ho']. congruence.
  - apply (ni_old _ Hinv); [done|]. intros i j Hj. destruct (Hg i j Hj) as [-> _]. apply Hno, row_end. eauto.
Qed.

Lemma row_names (names : list string) :
  (imap (λ j name, (inl name, inr j) : (string + nat) * (string + nat)) names).*1 = inl <$> names.
Proof. by rewrite fmap_imap -(imap_const _ names). Qed.

(** A fresh row of ends for a server that is down. *)
Lemma net_inv_ends i names rn cfg :
  net_inv cfg → conn cfg i = false → rc_rafts cfg !! i = Some None → length names = rc_n cfg →
  make_ends (imap (λ j name, (inl name, inr j)) names) (rc_net cfg) = Some rn →
  let cfg' := set_net rn (set_endnames (<[i := Some names]> (rc_endnames cfg)) cfg) in
  net_inv cfg' ∧ ∀ o rf e, rc_insts cfg !! o = Some rf → e ∈ rf_peers rf → e ∉ names.
Proof.
  intros Hinv Hdown Hnone Hlen Hme cfg'. pose proof Hinv as [(L1 & L2 & L3) Hrow Hend Hinj Hold Hconn Hcur Hgone].
  apply make_ends_spec in Hme as (Hnd & Hfresh & Hends & _ & Hen & Hc1 & Hc2). set (ps := imap _ names) in *.
  assert (ps.*1 = inl <$> names) as Eps by apply row_names.
  rewrite Eps in Hnd Hfresh Hends Hen Hc2. apply NoDup_fmap_1 in Hnd.
  assert (∀ e, inl e ∈ (inl <$> names : list (string + nat)) ↔ e ∈ names) as Hin.
  { intros e. rewrite list_elem_of_fmap. naive_solver. }
  assert (∀ e, e ∈ names → inl e ∉ ends (rc_net cfg)) as Hf by (intros e He; by apply Hfresh, Hin).
  assert (i < length (rc_endnames cfg))%nat as Hi by (rewrite L3 -L1; by eapply lookup_lt_Some).
  assert (∀ a b, end_name cfg' a b = if decide (a = i) then names !! b else end_name cfg a b) as Een.
  { intros a b. rewrite /end_name /=. case_decide as Ha; [subst; by rewrite list_lookup_insert_eq|].
    by rewrite list_lookup_insert_ne. }
  assert (∀ a b e, end_name cfg a b = Some e → e ∉ names) as Hnew.
  { intros a b e Hab He. apply (Hf e He). by apply (Hend a b). }
  assert (∀ o rf e, rc_insts cfg !! o = Some rf → e ∈ rf_peers rf → e ∉ names) as Hpeers.
  { intros o rf e Ho He Hn. apply (Hf e Hn). by eapply net_inv_peers. }
  split; [|done]. split; simpl.
  - by rewrite length_insert.
  - intros a ns. destruct (decide (a = i)) as [->|]; [rewrite list_lookup_insert_eq //; by intros [= <-]|].
    rewrite list_lookup_insert_ne //. apply Hrow.
  - intros a b e. rewrite Een Hends Hen. destruct (decide (a = i)) as [->|Ha]; intros Hab.
    + assert (e ∈ names) as He by by eapply list_elem_of_lookup_2.
      rewrite decide_True; [|by apply Hin]. split_and!; [set_solver|by rewrite /conn /= in Hdown |- *; rewrite Hdown|].
      apply Hc1. subst ps. apply elem_of_lookup_imap. eauto.
    + specialize (Hnew _ _ _ Hab). rewrite decide_False; [|by rewrite Hin]. rewrite Hc2; [|by rewrite Hin].
      destruct (Hend a b e Hab) as (? & ? & ?). split_and!; [set_solver|done|done].
  - intros a b a' b' e. rewrite !Een.
    destruct (decide (a = i)) as [->|], (decide (a' = i)) as [->|]; intros H1 H2.
    + split; [done|]. by eapply NoDup_lookup.
    + destruct (Hnew _ _ _ H2). by eapply list_elem_of_lookup_2.
    + destruct (Hnew _ _ _ H1). by eapply list_elem_of_lookup_2.
    + by eapply Hinj.
  - intros e He Hno. rewrite Hends in He. rewrite Hen. setoid_rewrite Een in Hno.
    destruct (decide (inl e ∈ _)) as [|Hn]; [done|]. apply elem_of_union in He as [He|He]; [set_solver|].
    destruct (decide (e ∈ default [] (mjoin (rc_endnames cfg !! i)))) as [[b Hb]%row_end|Hnb].
    + destruct (Hend _ _ _ Hb) as (_ & -> & _). by rewrite Hdown.
    + apply Hold; [done|]. intros a b Hab. destruct (decide (a = i)) as [->|Ha]; [by apply Hnb, row_end; exists b|].
      apply (Hno a b). by rewrite decide_False.
  - done.
  - intros a o Ha. destruct (Hcur a o Ha) as (rf & ? & ? & ?). exists rf. split_and!; [done..|].
    destruct (decide (a = i)) as [->|]; [congruence|]. by rewrite list_lookup_insert_ne.
  - intros o rf Ho Hnc e He. destruct (Hgone o rf Ho Hnc e He) as [Hg1 Hg2]. split; [set_solver|].
    intros a b. rewrite Een. destruct (decide (a = i)) as [->|]; [|apply Hg2].
    intros Hb. destruct (Hpeers o rf e Ho He). by eapply list_elem_of_lookup_2.
Qed.

(** A new instance with that row. *)
Lemma net_inv_new i names o q cfg :
  net_inv cfg → rc_rafts cfg !! i = Some None → rc_endnames cfg !! i = Some (Some names) → rc_insts cfg !! o = None →
  (∀ o rf e, rc_insts cfg !! o = Some rf → e ∈ rf_peers rf → e ∉ names) →
  net_inv (set_rafts (<[i := Some o]> (rc_rafts cfg)) (<[o := Raft_Make names i q]> (rc_insts cfg)) cfg).
Proof.
  intros [(L1 & L2 & L3) Hrow Hend Hinj Hold Hconn Hcur Hgone] Hi Hnames Ho Hpeers.
  assert (i < length (rc_rafts cfg))%nat as Hlt by by eapply lookup_lt_Some.
  split; simpl; try done.
  - by rewrite length_insert.
  - intros a Ha. destruct (decide (a = i)) as [->|]; [rewrite list_lookup_insert_eq; eauto|].
    rewrite list_lookup_insert_ne //. by apply Hconn.
  - intros a o' Ha. destruct (decide (a = i)) as [->|].
    + rewrite list_lookup_insert_eq // in Ha. simplify_eq. rewrite lookup_insert_eq. eauto.
    + rewrite list_lookup_insert_ne // in Ha. destruct (Hcur a o' Ha) as (rf & ? & ? & ?). exists rf.
      rewrite lookup_insert_ne; [done|congruence].
  - intros o' rf Ho' Hnc e He. destruct (decide (o' = o)) as [->|Hne].
    + rewrite lookup_insert_eq in Ho'. simplify_eq/=. by rewrite list_lookup_insert_eq in Hnc.
    + rewrite lookup_insert_ne // in Ho'.
      assert (rc_rafts cfg !! rf_me rf ≠ Some (Some o')) as Hnc'.
      { intros Hc. apply Hnc. rewrite list_lookup_insert_ne //. congruence. }
      destruct (Hgone o' rf Ho' Hnc' e He) as [? Hg]. split; [done|]. intros a b Hab.
      destruct (Hg a b Hab) as [-> Hd]. split; [done|]. destruct (decide (rf_me rf = i)) as [Hm|].
      * destruct (Hpeers o' rf e Ho' He). apply end_name_Some in Hab as (ns & Hns & Hb). rewrite Hm Hnames in Hns.
        simplify_eq. by eapply list_elem_of_lookup_2.
      * by rewrite list_lookup_insert_ne.
Qed.

Lemma prepare_saved_frame dec i cfg cfg' q : prepare_saved dec i cfg = Some (cfg', q) → same_net cfg cfg'.
Proof.
  rewrite /prepare_saved. destruct (rc_saved cfg !! i) as [[p|]|]; [| |done]; cbn [mbind option_bind].
  - destruct (copy_saved i cfg) as [c1|] eqn:H1; [|done]. apply copy_saved_frame in H1. cbn [mbind option_bind].
    destruct (mjoin _) as [q1|]; [|done]. cbn [mbind option_bind].
    destruct (obj_Read _ _ _) as [[ps a]|]; [|done]. cbn [mbind option_bind].
    set (c2 := set_saved _ _ c1). assert (same_net cfg c2) as H2 by (etrans; [exact H1|done]).
    case_bool_decide; [|by intros [= <- <-]].
    destruct (ingestSnap _ _ _ _ _) as [c3|] eqn:H3; [|done]. intros [= <- <-].
    apply ingestSnap_frame in H3 as [H3 _]. by etrans.
  - destruct (obj_Make _) as [ps q1]. destruct (set_at _ _ _); [|done]. by intros [= <- <-].
Qed.

Lemma start1_net_inv dec i names w1 w2 cfg cfg' :
  net_inv cfg → start1 dec i names w1 w2 cfg = Some cfg' → net_inv cfg'.
Proof.
  intros Hinv. rewrite /start1. destruct (crash1 i w1 cfg) as [c1|] eqn:H1; [|done]. cbn [mbind option_bind].
  destruct (crash1_net_inv _ _ _ _ Hinv H1) as (I1 & D1 & N1).
  case_bool_decide as Hlen; [|done]. simpl.
  destruct (set_at i (Some names) _) as [rows|] eqn:Hs; [|done]. apply set_at_Some in Hs as [Hi ->]. cbn [mbind option_bind].
  destruct (make_ends _ _) as [rn|] eqn:Hm; [|done]. cbn [mbind option_bind].
  destruct (net_inv_ends i names rn c1 I1 D1 N1 Hlen Hm) as [I2 Hp]. set (c2 := set_net rn _) in *.
  destruct (inst_saves w2 c2) as [c3|] eqn:H3; [|done]. cbn [mbind option_bind]. apply inst_saves_frame in H3 as [H3 _].
  destruct (set_at i 0 _) as [la|]; [|done]. cbn [mbind option_bind].
  destruct (prepare_saved dec i _) as [[c4 q]|] eqn:H4; [|done]. cbn [mbind option_bind]. apply prepare_saved_frame in H4.
  destruct (set_at i _ (rc_rafts c4)) as [rafts|] eqn:Hr; [|done]. apply set_at_Some in Hr as [Hri ->]. intros [= <-].
  assert (same_net c2 c4) as H24 by (etrans; [exact H3|exact H4]).
  apply (net_inv_servers (set_rafts _ _ c4)), net_inv_new.
  - by eapply net_inv_same.
  - destruct H24 as (_ & _ & -> & _). done.
  - destruct H24 as (_ & _ & _ & _ & -> & _). by rewrite /= list_lookup_insert_eq.
  - apply not_elem_of_dom, is_fresh.
  - destruct H24 as (_ & _ & _ & _ & _ & ->). exact Hp.
Qed.
End thm.
