(* ===== verification/RaftDisk.v ===== *)
(** * What a Raft server finds on its disk

    The other half of the isolation of crashed instances: every instance keeps
    the persister it was made with, and the test configuration hands a copy of it
    to the next instance, so that a crashed instance that goes on saving does not
    change what its successor reads. *)
From S2P Require Import Prelude GoBase LabRpc Persister Harness RaftConfig RaftConfigThm.

Section disk.
Context {Cmd : Type}.
Implicit Types (cfg : rcfg Cmd) (i j o : nat).

(** The bytes the persister [cfg.saved[i]] holds: Raft state and snapshot. *)
Definition stored cfg i : option (string * string) :=
  p ← mjoin (rc_saved cfg !! i); ps ← persisters (rc_ps cfg) !! p;
  Some (slice (memory (rc_ps cfg)) (raftstate ps), slice (memory (rc_ps cfg)) (snapshot ps)).

(** Persisters of different servers are different objects, and the one of a
    server is held by its current instance only; by none while [x] is being
    crashed or started. *)
Record pers_inv (x : option nat) cfg : Prop := {
  pv_inv : persister_inv (rc_ps cfg);
  pv_saved : ∀ i p, rc_saved cfg !! i = Some (Some p) → p ∈ dom (persisters (rc_ps cfg));
  pv_inst : ∀ o rf, rc_insts cfg !! o = Some rf → rf_persister rf ∈ dom (persisters (rc_ps cfg));
  pv_inj : ∀ i j p, rc_saved cfg !! i = Some (Some p) → rc_saved cfg !! j = Some (Some p) → i = j;
  pv_cur : ∀ i o, rc_rafts cfg !! i = Some (Some o) → Some i ≠ x →
    ∃ rf, rc_insts cfg !! o = Some rf ∧ rc_saved cfg !! i = Some (Some (rf_persister rf));
  pv_hold : ∀ o rf i, rc_insts cfg !! o = Some rf → rc_saved cfg !! i = Some (Some (rf_persister rf)) →
    rc_rafts cfg !! i = Some (Some o) ∧ Some i ≠ x;
}.

Lemma stored_contents x cfg i :
  pers_inv x cfg → stored cfg i = (p ← mjoin (rc_saved cfg !! i); contents (rc_ps cfg) !! p).
Proof.
  intros Hinv. rewrite /stored. destruct (rc_saved cfg !! i) as [[p|]|] eqn:Hp; [|done..]. simpl.
  pose proof (pv_saved _ _ Hinv i p Hp) as [ps Hps]%elem_of_dom.
  destruct (pi_contents _ (pv_inv _ _ Hinv) p ps Hps) as (_ & _ & ->). by rewrite Hps.
Qed.

Lemma pers_inv_same x cfg cfg' : pers_inv x cfg → same_pers cfg cfg' → pers_inv x cfg'.
Proof.
  intros [H1 H2 H3 H4 H5 H6] (E1 & E2 & E3 & E4 & E5). destruct cfg'; simpl in *; subst. by split.
Qed.

Lemma stored_same cfg cfg' i : same_pers cfg cfg' → stored cfg' i = stored cfg i.
Proof. intros (_ & _ & Es & _ & Ep). by rewrite /stored Es Ep. Qed.

(** Steps on the persister objects that keep the existing ones. *)
Lemma pers_inv_ps x cfg ps :
  pers_inv x cfg → persister_inv ps → dom (persisters (rc_ps cfg)) ⊆ dom (persisters ps) →
  pers_inv x (set_saved (rc_saved cfg) ps cfg).
Proof. intros [H1 H2 H3 H4 H5 H6] Hps Hd. split; simpl; try done; [by eauto..]. Qed.

(** [cfg.saved[i] = q] for an object no one holds. *)
Lemma pers_inv_replace x i q ps cfg :
  pers_inv x cfg → (x = None ∨ x = Some i) → persister_inv ps → dom (persisters ps) = {[q]} ∪ dom (persisters (rc_ps cfg)) →
  q ∉ dom (persisters (rc_ps cfg)) →
  pers_inv (Some i) (set_saved (<[i := Some q]> (rc_saved cfg)) ps cfg).
Proof.
  intros [H1 H2 H3 H4 H5 H6] Hx Hps Hd Hq. split; simpl; try done; rewrite ?Hd.
  - intros j p [(-> & [= ->] & _)|[_ Hp]]%list_lookup_insert_Some; [set_solver|]. apply H2 in Hp. set_solver.
  - intros o rf Ho. apply H3 in Ho. set_solver.
  - intros j k p [(<- & Hp & _)|[? Hp]]%list_lookup_insert_Some [(<- & Hp' & _)|[? Hp']]%list_lookup_insert_Some;
      [done|simplify_eq; by destruct Hq; eapply H2..|by eapply H4].
  - intros j o Ho Hj. destruct (H5 j o Ho) as (rf & ? & ?); [naive_solver|]. exists rf. split; [done|].
    rewrite list_lookup_insert_ne //. congruence.
  - intros o rf j Ho [(-> & [= Hrf] & _)|[Hj Hp]]%list_lookup_insert_Some.
    + destruct Hq. rewrite Hrf. by eapply H3.
    + split; [by eapply H6|congruence].
Qed.

(** ** Each operation *)

(** What [cfg.saved[j]] holds after the saves [w]: those of the instance that is
    current at [j] count. *)
Definition after_saves cfg (w : list (nat * string * string)) j : option (string * string) :=
  foldl (λ c x, if bool_decide (rc_rafts cfg !! j = Some (Some x.1.1)) then Some (x.1.2, x.2) else c) (stored cfg j) w.

Lemma inst_save_spec x o st sn cfg cfg' :
  pers_inv x cfg → inst_save o st sn cfg = Some cfg' →
  pers_inv x cfg' ∧ rc_rafts cfg' = rc_rafts cfg ∧ ∀ j, stored cfg' j =
    if bool_decide (rc_rafts cfg !! j = Some (Some o) ∧ Some j ≠ x) then Some (st, sn) else stored cfg j.
Proof.
  intros Hinv. rewrite /inst_save. destruct (rc_insts cfg !! o) as [rf|] eqn:Ho; [|done]. cbn [mbind option_bind].
  destruct (obj_alloc st (rc_ps cfg)) as [ps1 a] eqn:H1. destruct (obj_alloc sn ps1) as [ps2 b] eqn:H2.
  destruct (obj_Save _ _ _ ps2) as [ps3|] eqn:H3; [|done]. intros [= <-].
  apply obj_alloc_spec in H1 as (S1 & C1 & P1 & R1 & V1 & _ & _). pose proof (persister_step_inv _ _ (pv_inv _ _ Hinv) S1) as I1.
  apply obj_alloc_spec in H2 as (S2 & C2 & P2 & R2 & V2 & M2 & V2'). pose proof (persister_step_inv _ _ I1 S2) as I2.
  apply obj_Save_spec in H3 as (S3 & C3 & D3); [|by apply M2|done]. pose proof (persister_step_inv _ _ I2 S3) as I3.
  assert (pers_inv x (set_saved (rc_saved cfg) ps3 cfg)) as I4 by (apply pers_inv_ps; [done..|rewrite D3 P2 P1 //]).
  split_and!; [done..|]. intros j. rewrite (stored_contents _ _ _ I4) (stored_contents _ _ _ Hinv) /=.
  rewrite C3 C2 C1 V2 V2'; [|by apply (pi_reachable _ I1)]. rewrite V1.
  assert (rc_rafts cfg !! j = Some (Some o) ∧ Some j ≠ x ↔ rc_saved cfg !! j = Some (Some (rf_persister rf))) as Hiff.
  { split; [|by apply (pv_hold _ _ Hinv)]. intros [Hr Hx]. destruct (pv_cur _ _ Hinv j o Hr Hx) as (rf' & Ho' & Hs).
    congruence. }
  rewrite (bool_decide_ext _ _ Hiff). case_bool_decide as Hj; [by rewrite Hj /= lookup_insert_eq|].
  destruct (rc_saved cfg !! j) as [[p|]|]; [|done..]. simpl. rewrite lookup_insert_ne //. congruence.
Qed.

Lemma after_saves_cons cfg cfg' o st sn w j :
  rc_rafts cfg' = rc_rafts cfg →
  stored cfg' j = (if bool_decide (rc_rafts cfg !! j = Some (Some o)) then Some (st, sn) else stored cfg j) →
  after_saves cfg' w j = after_saves cfg ((o, st, sn) :: w) j.
Proof. intros Hr Hs. rewrite /after_saves /= Hr Hs. done. Qed.

Lemma inst_saves_spec x w cfg cfg' :
  pers_inv x cfg → inst_saves w cfg = Some cfg' →
  pers_inv x cfg' ∧ rc_rafts cfg' = rc_rafts cfg ∧
  ∀ j, stored cfg' j = if bool_decide (Some j = x) then stored cfg j else after_saves cfg w j.
Proof.
  revert cfg. induction w as [|[[o st] sn] w IH]; intros cfg Hinv Hr.
  { injection Hr as <-. split_and!; [done..|]. intros j. by case_bool_decide. }
  rewrite /inst_saves /= in Hr. destruct (inst_save o st sn cfg) as [c1|] eqn:H1; [|done]. cbn [mbind option_bind] in Hr.
  destruct (inst_save_spec _ _ _ _ _ _ Hinv H1) as (I1 & R1 & S1).
  destruct (IH c1 I1 Hr) as (I2 & R2 & S2). split_and!; [done|congruence|].
  intros j. rewrite S2. specialize (S1 j). destruct (decide (Some j = x)) as [Hx|Hx].
  - rewrite bool_decide_false in S1; [|tauto]. by rewrite !(bool_decide_true (Some j = x)).
  - rewrite (bool_decide_ext _ (rc_rafts cfg !! j = Some (Some o))) in S1; [|tauto].
    rewrite !(bool_decide_false (Some j = x)) //. by apply after_saves_cons.
Qed.

(** [cfg.saved[i]] is replaced by a new object that holds [c]. *)
Lemma stored_replace x i q c ps cfg :
  pers_inv x cfg → (x = None ∨ x = Some i) → persister_inv ps →
  dom (persisters ps) = {[q]} ∪ dom (persisters (rc_ps cfg)) → q ∉ dom (persisters (rc_ps cfg)) →
  contents ps = <[q := c]> (contents (rc_ps cfg)) → (i < length (rc_saved cfg))%nat →
  let cfg' := set_saved (<[i := Some q]> (rc_saved cfg)) ps cfg in
  pers_inv (Some i) cfg' ∧ ∀ j, stored cfg' j = if bool_decide (j = i) then Some c else stored cfg j.
Proof.
  intros Hinv Hx Hps Hd Hq Hc Hi cfg'. pose proof (pers_inv_replace x i q ps cfg Hinv Hx Hps Hd Hq) as Hinv'.
  split; [done|]. intros j. rewrite (stored_contents _ _ _ Hinv') (stored_contents _ _ _ Hinv) /= Hc.
  case_bool_decide as Hj; [subst; by rewrite list_lookup_insert_eq //= lookup_insert_eq|].
  rewrite list_lookup_insert_ne //. destruct (rc_saved cfg !! j) as [[p|]|] eqn:Hp; [|done..]. simpl.
  rewrite lookup_insert_ne //. intros ->. by apply Hq, (pv_saved _ _ Hinv j).
Qed.

Lemma pers_inv_nil x i cfg : pers_inv x cfg → (x = None ∨ x = Some i) → rc_saved cfg !! i = Some None → pers_inv (Some i) cfg.
Proof.
  intros [H1 H2 H3 H4 H5 H6] Hx Hi. split; [done..| |].
  - intros j o Hj Hne. apply H5; [done|naive_solver].
  - intros o rf j Ho Hj. split; [by eapply H6|]. intros [= ->]. congruence.
Qed.

Lemma copy_saved_spec x i cfg cfg' :
  pers_inv x cfg → (x = None ∨ x = Some i) → copy_saved i cfg = Some cfg' →
  pers_inv (Some i) cfg' ∧ (∀ j, stored cfg' j = stored cfg j) ∧
  (rc_saved cfg !! i = Some None → cfg' = cfg) ∧ (rc_saved cfg !! i ≠ Some None → ∃ q, rc_saved cfg' !! i = Some (Some q)).
Proof.
  intros Hinv Hx. rewrite /copy_saved. destruct (rc_saved cfg !! i) as [[p|]|] eqn:Hi; [| |done]; cbn [mbind option_bind].
  2: { intros [= <-]. split_and!; [by eapply pers_inv_nil|done..]. }
  destruct (obj_Copy p (rc_ps cfg)) as [[ps q]|] eqn:Hc; [|done]. cbn [mbind option_bind].
  destruct (set_at i (Some q) _) as [l|] eqn:Hs; [|done]. apply set_at_Some in Hs as [Hlt ->]. intros [= <-].
  apply obj_Copy_spec in Hc as (Hst & Hq & Hc & Hd & [c Hpc]). pose proof (persister_step_inv _ _ (pv_inv _ _ Hinv) Hst) as Hps.
  rewrite Hpc /= in Hc. apply not_elem_of_dom in Hq.
  destruct (stored_replace x i q c ps cfg) as [I S]; [done..|].
  split_and!; [done| |done|by rewrite /= list_lookup_insert_eq; eauto].
  intros j. rewrite S. case_bool_decide as Hj; [|done]. subst. rewrite (stored_contents _ _ _ Hinv) Hi. done.
Qed.

Lemma renew_saved_spec x i cfg cfg' :
  pers_inv x cfg → (x = None ∨ x = Some i) → renew_saved i cfg = Some cfg' →
  pers_inv (Some i) cfg' ∧ ∀ j, stored cfg' j = stored cfg j.
Proof.
  intros Hinv Hx. rewrite /renew_saved. destruct (rc_saved cfg !! i) as [[p|]|] eqn:Hi; [| |done]; cbn [mbind option_bind].
  2: { intros [= <-]. split_and!; [by eapply pers_inv_nil|done..]. }
  destruct (obj_Read _ _ _) as [[ps1 a]|] eqn:H1; [|done]. cbn [mbind option_bind].
  destruct (obj_Read _ _ ps1) as [[ps2 b]|] eqn:H2; [|done]. cbn [mbind option_bind].
  destruct (obj_Make ps2) as [ps3 q] eqn:H3. destruct (obj_Save q _ _ ps3) as [ps4|] eqn:H4; [|done]. cbn [mbind option_bind].
  destruct (set_at i (Some q) _) as [l|] eqn:Hs; [|done]. apply set_at_Some in Hs as [Hlt ->]. intros [= <-].
  apply ReadRaftState_spec in H1 as (pp & Hpp & S1 & C1 & P1 & R1 & V1 & _ & V1').
  pose proof (persister_step_inv _ _ (pv_inv _ _ Hinv) S1) as I1.
  apply ReadSnapshot_spec in H2 as (pp' & Hpp' & S2 & C2 & P2 & R2 & V2 & M2 & V2').
  pose proof (persister_step_inv _ _ I1 S2) as I2. rewrite P1 Hpp in Hpp'. injection Hpp' as <-.
  destruct (pi_contents _ (pv_inv _ _ Hinv) p pp Hpp) as (_ & Hpr & Hcon).
  assert (memory ps3 = memory ps2 ∧ reachable ps3 = reachable ps2) as [Em Er] by (by injection H3 as <- <-).
  apply obj_Make_spec in H3 as (S3 & Q3 & C3 & D3). pose proof (persister_step_inv _ _ I2 S3) as I3.
  apply obj_Save_spec in H4 as (S4 & C4 & D4); [|simpl; rewrite Er; by auto..]. pose proof (persister_step_inv _ _ I3 S4) as I4.
  apply not_elem_of_dom in Q3. rewrite P2 P1 in D3 Q3.
  assert (slice (memory ps1) (snapshot pp) = slice (memory (rc_ps cfg)) (snapshot pp)) as Esn.
  { destruct (snapshot pp) as [b0|]; [|done]. apply V1'. by destruct Hpr. }
  assert (contents ps4 = <[q := (slice (memory (rc_ps cfg)) (raftstate pp), slice (memory (rc_ps cfg)) (snapshot pp))]>
    (contents (rc_ps cfg))) as EC.
  { rewrite C4 C3 C2 C1 insert_insert_eq Em V2 V2'; [|by apply (pi_reachable _ I1)]. by rewrite V1 Esn. }
  assert (dom (persisters ps4) = {[q]} ∪ dom (persisters (rc_ps cfg))) as Ed by by rewrite D4.
  destruct (stored_replace x i q _ ps4 cfg Hinv Hx I4 Ed Q3 EC Hlt) as [I S].
  split; [done|]. intros j. rewrite S. case_bool_decide as Hj; [|done]. subst.
  by rewrite (stored_contents _ _ _ Hinv) Hi /= Hcon.
Qed.

Lemma kill_raft_pers_inv i cfg cfg' :
  pers_inv (Some i) cfg → kill_raft i cfg = Some cfg' →
  pers_inv None cfg' ∧ (∀ j, stored cfg' j = stored cfg j) ∧ ∀ j, j ≠ i → rc_rafts cfg' !! j = rc_rafts cfg !! j.
Proof.
  intros [H1 H2 H3 H4 H5 H6]. rewrite /kill_raft. destruct (rc_rafts cfg !! i) as [[o|]|] eqn:Hi; [| |done]; cbn [mbind option_bind].
  - destruct (set_at i None _) as [l|] eqn:Hs; [|done]. apply set_at_Some in Hs as [Hlt ->]. intros [= <-].
    split_and!; [|done|by intros j Hj; rewrite /= list_lookup_insert_ne].
    assert (∀ o' rf', alter Raft_Kill o (rc_insts cfg) !! o' = Some rf' →
      ∃ rf, rc_insts cfg !! o' = Some rf ∧ rf_persister rf' = rf_persister rf) as Halt.
    { intros o' rf'. rewrite lookup_alter_Some. naive_solver. }
    split; simpl; try done.
    + intros o' rf' (rf & Hrf & ->)%Halt. by eapply H3.
    + intros j o' Hj _. apply list_lookup_insert_Some in Hj as [(_ & [=] & _)|[Hj Ho']].
      destruct (H5 j o' Ho') as (rf & Hrf & Hs); [congruence|]. destruct (decide (o' = o)) as [->|].
      * rewrite lookup_alter_eq Hrf. exists (Raft_Kill rf). done.
      * rewrite lookup_alter_ne //. eauto.
    + intros o' rf' j (rf & Hrf & ->)%Halt Hs. destruct (H6 o' rf j Hrf Hs) as [Hj Hne]. split; [|done].
      rewrite list_lookup_insert_ne //. congruence.
  - intros [= <-]. split_and!; [|done..]. split; [done..| |].
    + intros j o' Hj _. apply H5; [done|congruence].
    + intros o' rf j Ho Hj. by destruct (H6 o' rf j Ho Hj).
Qed.

Lemma pers_inv_down i cfg : pers_inv (Some i) cfg → rc_rafts cfg !! i = Some None → pers_inv None cfg.
Proof.
  intros [H1 H2 H3 H4 H5 H6] Hi. split; [done..| |].
  - intros j o Hj _. apply H5; [done|congruence].
  - intros o rf j Ho Hj. by destruct (H6 o rf j Ho Hj).
Qed.

Lemma stored_saved x i p cfg : pers_inv x cfg → rc_saved cfg !! i = Some (Some p) → is_Some (stored cfg i).
Proof. intros Hinv Hi. rewrite /stored Hi /=. by pose proof (pv_saved _ _ Hinv i p Hi) as [ps ->]%elem_of_dom. Qed.

Lemma after_saves_same cfg cfg' w j :
  rc_rafts cfg' !! j = rc_rafts cfg !! j → stored cfg' j = stored cfg j → after_saves cfg' w j = after_saves cfg w j.
Proof. intros E1 E2. by rewrite /after_saves E1 E2. Qed.

Lemma after_saves_app cfg cfg' w1 w2 j :
  rc_rafts cfg' !! j = rc_rafts cfg !! j → stored cfg' j = after_saves cfg w1 j →
  after_saves cfg' w2 j = after_saves cfg (w1 ++ w2) j.
Proof. intros E1 E2. by rewrite /after_saves foldl_app E1 E2. Qed.

Lemma disconnect_same_pers i cfg cfg' : disconnect i cfg = Some cfg' → same_pers cfg cfg'.
Proof. by intros (names & _ & -> & _)%disconnect_spec. Qed.

Lemma crash1_disk i w cfg cfg' :
  pers_inv None cfg → crash1 i w cfg = Some cfg' →
  pers_inv (Some i) cfg' ∧ stored cfg' i = stored cfg i ∧
  ∀ j, j ≠ i → stored cfg' j = after_saves cfg w j ∧ rc_rafts cfg' !! j = rc_rafts cfg !! j.
Proof.
  intros Hinv. rewrite /crash1. destruct (disconnect i cfg) as [c1|] eqn:H1; [|done]. cbn [mbind option_bind].
  set (c2 := set_net _ c1). assert (same_pers cfg c2) as F2 by (etrans; [by eapply disconnect_same_pers|done]).
  pose proof (pers_inv_same _ _ _ Hinv F2) as I2.
  destruct (copy_saved i c2) as [c3|] eqn:H3; [|done]. cbn [mbind option_bind].
  pose proof (copy_saved_frame _ _ _ H3) as (_ & _ & R3 & _).
  destruct (copy_saved_spec _ _ _ _ I2 (or_introl eq_refl) H3) as (I3 & S3 & _).
  destruct (inst_saves w c3) as [c4|] eqn:H4; [|done]. cbn [mbind option_bind].
  destruct (inst_saves_spec _ _ _ _ I3 H4) as (I4 & R4 & S4).
  destruct (kill_raft i c4) as [c5|] eqn:H5; [|done]. cbn [mbind option_bind].
  destruct (kill_raft_pers_inv _ _ _ I4 H5) as (I5 & S5 & R5). intros H6.
  pose proof (renew_saved_frame _ _ _ H6) as (_ & _ & R6 & _).
  destruct (renew_saved_spec _ _ _ _ I5 (or_introl eq_refl) H6) as (I6 & S6).
  assert (rc_rafts c3 = rc_rafts cfg) as E3 by (rewrite R3; apply F2).
  split_and!; [done| |].
  - rewrite S6 S5 S4 bool_decide_true // S3. by apply stored_same.
  - intros j Hj. split.
    + rewrite S6 S5 S4 bool_decide_false; [|congruence]. apply after_saves_same; [by rewrite E3|].
      rewrite S3. by apply stored_same.
    + by rewrite R6 R5 // R4 E3.
Qed.

Lemma prepare_saved_spec dec x i cfg cfg' q :
  pers_inv x cfg → (x = None ∨ x = Some i) → prepare_saved dec i cfg = Some (cfg', q) →
  pers_inv (Some i) cfg' ∧ rc_saved cfg' !! i = Some (Some q) ∧ rc_rafts cfg' = rc_rafts cfg ∧
  ∀ j, stored cfg' j = if bool_decide (j = i) then Some (default ("", "") (stored cfg i)) else stored cfg j.
Proof.
  intros Hinv Hx Hp. pose proof (prepare_saved_frame _ _ _ _ _ Hp) as (_ & _ & Hr & _). revert Hp. rewrite /prepare_saved.
  destruct (rc_saved cfg !! i) as [[p|]|] eqn:Hi; [| |done]; cbn [mbind option_bind].
  - destruct (copy_saved i cfg) as [c1|] eqn:H1; [|done]. cbn [mbind option_bind].
    destruct (copy_saved_spec _ _ _ _ Hinv Hx H1) as (I1 & S1 & _ & [q1 Q1]); [congruence|]. rewrite Q1. cbn [mbind option_bind mjoin option_join].
    destruct (obj_Read _ _ _) as [[ps a]|] eqn:H2; [|done]. cbn [mbind option_bind].
    apply ReadSnapshot_spec in H2 as (pp & _ & St & C2 & P2 & _).
    set (c2 := set_saved _ ps c1).
    assert (pers_inv (Some i) c2) as I2.
    { apply pers_inv_ps; [done|by eapply persister_step_inv, St; apply I1|by rewrite P2]. }
    assert (∀ j, stored c2 j = stored cfg j) as S2.
    { intros j. rewrite (stored_contents _ _ _ I2) /= C2 -(stored_contents _ _ _ I1). done. }
    assert (∀ c3, same_pers c2 c3 → pers_inv (Some i) c3 ∧ rc_saved c3 !! i = Some (Some q1) ∧
      ∀ j, stored c3 j = if bool_decide (j = i) then Some (default ("", "") (stored cfg i)) else stored cfg j) as Hfin.
    { intros c3 F3. split_and!; [by eapply pers_inv_same|destruct F3 as (_ & _ & -> & _); done|].
      intros j. rewrite (stored_same _ _ _ F3) S2. case_bool_decide as Hj; [|done]. subst.
      by destruct (stored_saved _ _ _ _ Hinv Hi) as [? ->]. }
    case_bool_decide.
    + destruct (ingestSnap _ _ _ _ _) as [c3|] eqn:H3; [|done]. intros [= <- <-].
      apply ingestSnap_frame in H3 as [_ H3]. by destruct (Hfin c3 H3) as (? & ? & ?).
    + intros [= <- <-]. by destruct (Hfin c2) as (? & ? & ?).
  - destruct (obj_Make (rc_ps cfg)) as [ps q1] eqn:H1. destruct (set_at i (Some q1) _) as [l|] eqn:Hs; [|done].
    apply set_at_Some in Hs as [Hlt ->]. intros [= <- <-]. apply obj_Make_spec in H1 as (St & Q1 & C1 & D1).
    apply not_elem_of_dom in Q1. pose proof (persister_step_inv _ _ (pv_inv _ _ Hinv) St) as Ips.
    destruct (stored_replace x i q1 _ ps cfg Hinv Hx Ips D1 Q1 C1 Hlt) as [I S].
    split_and!; [done|by rewrite /= list_lookup_insert_eq|done|]. intros j. rewrite S. case_bool_decide; [|done].
    by rewrite /stored Hi.
Qed.

Lemma pers_inv_new i names o q cfg :
  pers_inv (Some i) cfg → rc_saved cfg !! i = Some (Some q) → rc_insts cfg !! o = None → (i < length (rc_rafts cfg))%nat →
  (∀ j, j ≠ i → rc_rafts cfg !! j ≠ Some (Some o)) →
  pers_inv None (set_rafts (<[i := Some o]> (rc_rafts cfg)) (<[o := Raft_Make names i q]> (rc_insts cfg)) cfg).
Proof.
  intros [H1 H2 H3 H4 H5 H6] Hi Ho Hlt Hno. split; simpl; try done.
  - intros o' rf [(<- & <-)|[_ Hrf]]%lookup_insert_Some; [by eapply H2|by eapply H3].
  - intros j o' [(<- & [= <-] & _)|[Hj Ho']]%list_lookup_insert_Some _.
    + rewrite lookup_insert_eq. eauto.
    + rewrite lookup_insert_ne; [|intros <-; by apply (Hno j)]. apply H5; [done|congruence].
  - intros o' rf j [(<- & <-)|[Hne Hrf]]%lookup_insert_Some Hj; split; try done.
    + simpl in Hj. rewrite (H4 j i q Hj Hi). by rewrite list_lookup_insert_eq.
    + destruct (H6 o' rf j Hrf Hj) as [? ?]. rewrite list_lookup_insert_ne //. congruence.
Qed.

Lemma start1_disk dec i names w1 w2 cfg cfg' :
  net_inv cfg → pers_inv None cfg → start1 dec i names w1 w2 cfg = Some cfg' →
  pers_inv None cfg' ∧ stored cfg' i = Some (default ("", "") (stored cfg i)) ∧
  (∃ o, rc_rafts cfg' !! i = Some (Some o) ∧ rc_insts cfg !! o = None) ∧
  ∀ j, j ≠ i → stored cfg' j = after_saves cfg (w1 ++ w2) j ∧ rc_rafts cfg' !! j = rc_rafts cfg !! j.
Proof.
  intros Hnet Hinv. rewrite /start1. destruct (crash1 i w1 cfg) as [c1|] eqn:H1; [|done]. cbn [mbind option_bind].
  destruct (crash1_net_inv _ _ _ _ Hnet H1) as (N1 & _ & _).
  pose proof (crash1_insts _ _ _ _ H1) as D1.
  destruct (crash1_disk _ _ _ _ Hinv H1) as (I1 & S1 & J1). case_bool_decide as Hlen; [|done]. simpl.
  destruct (set_at i (Some names) _) as [rows|] eqn:Hs; [|done]. cbn [mbind option_bind].
  destruct (make_ends _ _) as [rn|] eqn:Hm; [|done]. cbn [mbind option_bind].
  set (c2 := set_net rn _) in *. assert (pers_inv (Some i) c2) as I2 by by eapply pers_inv_same.
  destruct (inst_saves w2 c2) as [c3|] eqn:H3; [|done]. cbn [mbind option_bind].
  destruct (inst_saves_spec _ _ _ _ I2 H3) as (I3 & R3 & S3). apply inst_saves_frame in H3 as [H3 _].
  destruct (set_at i 0 _) as [la|]; [|done]. cbn [mbind option_bind].
  set (c3' := set_logs _ la c3). assert (pers_inv (Some i) c3') as I3' by by eapply pers_inv_same.
  destruct (prepare_saved dec i c3') as [[c4 q]|] eqn:H4; [|done]. cbn [mbind option_bind].
  destruct (prepare_saved_spec _ _ _ _ _ _ I3' (or_intror eq_refl) H4) as (I4 & Q4 & R4 & S4). apply prepare_saved_frame in H4.
  destruct (set_at i _ (rc_rafts c4)) as [rafts|] eqn:Hr; [|done]. apply set_at_Some in Hr as [Hri ->]. intros [= <-].
  set (o := fresh (dom (rc_insts c4))). assert (rc_insts c4 !! o = None) as Ho by apply not_elem_of_dom, is_fresh.
  assert (rc_insts c4 = rc_insts c1) as Ei.
  { destruct H4 as (_ & _ & _ & _ & _ & ->). by destruct H3 as (_ & _ & _ & _ & _ & E3). }
  assert (rc_rafts c4 = rc_rafts c1) as Er by by rewrite R4 /= R3.
  split_and!.
  - eapply (pers_inv_same None (set_rafts _ _ c4)); [|done]. apply pers_inv_new; [done..|].
    intros j _. rewrite Er. intros Hj. destruct (ni_cur _ N1 j o Hj) as (rf & Hrf & _). congruence.
  - rewrite /stored /=. change (stored c4 i = Some (default ("", "") (stored cfg i))).
    rewrite S4 bool_decide_true //. change (stored c3' i) with (stored c3 i). rewrite S3 bool_decide_true //.
    change (stored c2 i) with (stored c1 i). by rewrite S1.
  - exists o. split; [by rewrite /= list_lookup_insert_eq|]. apply not_elem_of_dom. rewrite -D1 -Ei. apply is_fresh.
  - intros j Hj. destruct (J1 j Hj) as [Sj Rj]. split; [|by rewrite /= list_lookup_insert_ne // Er].
    change (stored c4 j = after_saves cfg (w1 ++ w2) j).
    rewrite S4 bool_decide_false //. change (stored c3' j) with (stored c3 j). rewrite S3 bool_decide_false; [|congruence].
    by apply after_saves_app.
Qed.
End disk.
