(* ===== verification/RaftTester.v ===== *)
(** * Testing Raft: servers that crash, restart and are partitioned

    The operations a test applies to a configuration, in any order, with saves
    by any instance at any time, also by instances that were crashed. The
    theorems say what the configuration promises to the tests. *)
From S2P Require Import Prelude GoBase LabRpc Persister Harness RaftConfig RaftConfigThm RaftDisk.

Section tester.
Context {Cmd : Type}.
Variable decode_snapshot : string → option (Z * list (option Cmd)).
Implicit Types (cfg : rcfg Cmd) (i j o : nat) (e : string).

(** The operations: the tests connect servers only that are running. *)
Inductive TOp :=
| TStart i (names : list string) (w1 w2 : list (nat * string * string))
| TCrash i (w : list (nat * string * string))
| TConnect i
| TDisconnect i
| TSave o (state snap : string)
| TOverwrite (a : nat) (data : string).   (* of a slice the servers can reach *)

Definition run_op (op : TOp) cfg : option (rcfg Cmd) :=
  match op with
  | TStart i names w1 w2 => start1 decode_snapshot i names w1 w2 cfg
  | TCrash i w => crash1 i w cfg
  | TConnect i => _ ← mjoin (rc_rafts cfg !! i); connect i cfg
  | TDisconnect i => disconnect i cfg
  | TSave o state snap => inst_save o state snap cfg
  | TOverwrite a data =>
      let ps := rc_ps cfg in
      if bool_decide (a ∈ reachable ps)
      then Some (set_saved (rc_saved cfg) (mkPState (<[a := data]> (memory ps)) (reachable ps) (persisters ps) (contents ps)) cfg)
      else None
  end.

Definition run_ops : list TOp → rcfg Cmd → option (rcfg Cmd) := foldM run_op.

Lemma net_inv_init n unreliable : net_inv (init_cfg (Cmd := Cmd) n unreliable).
Proof.
  assert (∀ i j, end_name (init_cfg (Cmd := Cmd) n unreliable) i j = None) as He.
  { intros i j. rewrite /end_name /=. destruct (replicate n None !! i) as [x|] eqn:Hi; [|done].
    apply lookup_replicate in Hi as [-> _]. done. }
  split; simpl; try (intros *; rewrite He; done).
  - by rewrite !length_replicate.
  - intros i ns [? _]%lookup_replicate. done.
  - set_solver.
  - intros i. rewrite /conn /=. destruct (replicate n false !! i) as [x|] eqn:Hi; [|done].
    by apply lookup_replicate in Hi as [-> _].
  - intros i o [? _]%lookup_replicate. done.
  - intros o rf Ho. by rewrite lookup_empty in Ho.
Qed.

Lemma pers_inv_init n unreliable : pers_inv None (init_cfg (Cmd := Cmd) n unreliable).
Proof.
  split; simpl.
  - apply persister_reachable_inv, rtc_refl.
  - by intros i p [? _]%lookup_replicate.
  - intros o rf Ho. by rewrite lookup_empty in Ho.
  - by intros i j p [? _]%lookup_replicate.
  - by intros i o [? _]%lookup_replicate.
  - intros o rf i Ho. by rewrite lookup_empty in Ho.
Qed.

(** What the persisters of the servers hold after an operation: the disk of a
    server changes when its current instance saves, and not otherwise. *)
Definition disk_after (op : TOp) cfg j : option (string * string) :=
  match op with
  | TStart i _ w1 w2 =>
      if bool_decide (j = i) then Some (default ("", "") (stored cfg i)) else after_saves cfg (w1 ++ w2) j
  | TCrash i w => if bool_decide (j = i) then stored cfg i else after_saves cfg w j
  | TSave o state snap => after_saves cfg [(o, state, snap)] j
  | _ => stored cfg j
  end.

Lemma run_op_inv op cfg cfg' :
  net_inv cfg → pers_inv None cfg → run_op op cfg = Some cfg' →
  net_inv cfg' ∧ pers_inv None cfg' ∧ ∀ j, stored cfg' j = disk_after op cfg j.
Proof.
  intros Hn Hp. destruct op as [i names w1 w2|i w|i|i|o st sn|a data]; simpl; intros Hr.
  - destruct (start1_disk _ _ _ _ _ _ _ Hn Hp Hr) as (Hp' & Hs & _ & Hj).
    split_and!; [by eapply start1_net_inv|done|]. intros j. case_bool_decide; [by subst|by apply Hj].
  - destruct (crash1_disk _ _ _ _ Hp Hr) as (Hp' & Hs & Hj). destruct (crash1_net_inv _ _ _ _ Hn Hr) as (Hn' & _ & Hd).
    split_and!; [done|by eapply pers_inv_down|]. intros j. case_bool_decide; [by subst|by apply Hj].
  - destruct (rc_rafts cfg !! i) as [[o|]|] eqn:Hi; [|done..]. simpl in Hr.
    assert (same_pers cfg cfg') by by apply connect_spec in Hr as (names & _ & -> & _).
    split_and!; [by eapply connect_net_inv; eauto|by eapply pers_inv_same|]. intros j. by apply stored_same.
  - pose proof (disconnect_same_pers _ _ _ Hr) as Hf.
    split_and!; [by eapply disconnect_net_inv|by eapply pers_inv_same|]. intros j. by apply stored_same.
  - destruct (inst_save_spec _ _ _ _ _ _ Hp Hr) as (Hp' & _ & Hs). apply inst_save_frame in Hr as [Hf _].
    split_and!; [by eapply net_inv_same|done|]. intros j. rewrite Hs /after_saves /=.
    rewrite (bool_decide_ext _ (rc_rafts cfg !! j = Some (Some o))) //. naive_solver.
  - case_bool_decide as Ha; [|done]. injection Hr as <-.
    pose proof (ps_write (memory (rc_ps cfg)) (reachable (rc_ps cfg)) (persisters (rc_ps cfg)) (contents (rc_ps cfg)) a data Ha) as Hst.
    assert (persister_inv (mkPState (<[a:=data]> (memory (rc_ps cfg))) (reachable (rc_ps cfg)) (persisters (rc_ps cfg))
      (contents (rc_ps cfg)))) as Hpi.
    { eapply persister_step_inv; [|exact Hst]. pose proof (pv_inv _ _ Hp) as Hv. by destruct (rc_ps cfg). }
    pose proof (pers_inv_ps _ _ _ Hp Hpi ltac:(done)) as Hp'.
    split_and!; [by eapply net_inv_same|done|]. intros j. by rewrite (stored_contents _ _ _ Hp') (stored_contents _ _ _ Hp).
Qed.

Lemma run_ops_inv ops n unreliable cfg :
  run_ops ops (init_cfg n unreliable) = Some cfg → net_inv cfg ∧ pers_inv None cfg.
Proof.
  revert ops cfg. refine (λ ops cfg Hr, foldM_inv (λ _ c, net_inv c ∧ pers_inv None c) run_op ops _ cfg _ _ Hr).
  - intros _ op c c' [Hn Hp] Ho _. by destruct (run_op_inv _ _ _ Hn Hp Ho) as (? & ? & _).
  - split; [apply net_inv_init|apply pers_inv_init].
Qed.


(** C17: What a server is started with is what its current instance saved last,
    whatever crashed instances save meanwhile, and however the servers overwrite
    slices they passed to the persister or read from it: after any operations,
    one more operation changes what [cfg.saved[j]] holds only if it saves, and
    only as the saves of the current instance of server [j] say; a crash and a
    start of the server keep it, the first start makes it empty. *)
Theorem disks_survive_crashes ops op n unreliable cfg cfg' j :
  run_ops ops (init_cfg n unreliable) = Some cfg → run_op op cfg = Some cfg' → stored cfg' j = disk_after op cfg j.
Proof. intros [Hn Hp]%run_ops_inv Hr. by apply (run_op_inv _ _ _ Hn Hp Hr). Qed.

(** ** Operations return *)

(** The slices of the configuration keep their lengths. *)
Definition lens cfg : nat * nat * nat * nat := (rc_n cfg, length (rc_saved cfg), length (rc_logs cfg), length (rc_lastApplied cfg)).

Ltac open_binds H :=
  repeat (match type of H with
          | context [mbind _ (set_at ?i ?x ?l)] =>
              let E := fresh "Hset" in destruct (set_at i x l) eqn:E; [apply set_at_Some in E as [? ->]|done]
          | context [mbind _ ?y] => destruct y as [[]|] || destruct y; [|done]
          | context [let '(_, _) := ?y in _] => destruct y
          end; cbn [mbind option_bind] in H).

Lemma inst_save_lens o st sn cfg cfg' : inst_save o st sn cfg = Some cfg' → lens cfg' = lens cfg.
Proof. rewrite /inst_save. intros Hr. open_binds Hr. by injection Hr as <-. Qed.

Lemma copy_saved_lens i cfg cfg' : copy_saved i cfg = Some cfg' → lens cfg' = lens cfg.
Proof.
  rewrite /copy_saved. destruct (rc_saved cfg !! i) as [[p|]|]; [|by intros [= <-]|done]. intros Hr. simpl in Hr. open_binds Hr.
  injection Hr as <-. by rewrite /lens /= length_insert.
Qed.

Lemma renew_saved_lens i cfg cfg' : renew_saved i cfg = Some cfg' → lens cfg' = lens cfg.
Proof.
  rewrite /renew_saved. destruct (rc_saved cfg !! i) as [[p|]|]; [|by intros [= <-]|done]. intros Hr.
  cbn [mbind option_bind] in Hr. open_binds Hr. injection Hr as <-. by rewrite /lens /= length_insert.
Qed.

Lemma kill_raft_lens i cfg cfg' : kill_raft i cfg = Some cfg' → lens cfg' = lens cfg.
Proof.
  rewrite /kill_raft. destruct (rc_rafts cfg !! i) as [[p|]|]; [|by intros [= <-]|done]. intros Hr. simpl in Hr. open_binds Hr.
  by injection Hr as <-.
Qed.

Lemma inst_saves_lens w cfg cfg' : inst_saves w cfg = Some cfg' → lens cfg' = lens cfg.
Proof.
  assert (PreOrder (λ s s' : rcfg Cmd, lens s' = lens s)) by (split; [done|intros ???; congruence]).
  apply (foldM_rel (λ s s', lens s' = lens s)). intros x s s'. apply inst_save_lens.
Qed.

Lemma ingestSnap_lens i sn idx cfg cfg' : ingestSnap decode_snapshot i sn idx cfg = Some cfg' → lens cfg' = lens cfg.
Proof.
  rewrite /ingestSnap. destruct (decode_snapshot sn) as [[la xlog]|]; [|done]. cbn [mbind option_bind].
  destruct (negb _ && negb _); [done|]. intros Hr. open_binds Hr. injection Hr as <-. by rewrite /lens /= !length_insert.
Qed.

Lemma crash1_lens i w cfg cfg' : crash1 i w cfg = Some cfg' → lens cfg' = lens cfg.
Proof.
  rewrite /crash1. destruct (disconnect i cfg) as [c1|] eqn:H1; [|done]. cbn [mbind option_bind].
  apply disconnect_spec in H1 as (names & _ & -> & _).
  destruct (copy_saved i _) as [c3|] eqn:H3; [|done]. cbn [mbind option_bind]. apply copy_saved_lens in H3.
  destruct (inst_saves w c3) as [c4|] eqn:H4; [|done]. cbn [mbind option_bind]. apply inst_saves_lens in H4.
  destruct (kill_raft i c4) as [c5|] eqn:H5; [|done]. cbn [mbind option_bind]. apply kill_raft_lens in H5.
  intros H6%renew_saved_lens. rewrite H6 H5 H4 H3. done.
Qed.

Lemma prepare_saved_lens i cfg cfg' q : prepare_saved decode_snapshot i cfg = Some (cfg', q) → lens cfg' = lens cfg.
Proof.
  rewrite /prepare_saved. destruct (rc_saved cfg !! i) as [[p|]|]; [| |done]; cbn [mbind option_bind].
  - destruct (copy_saved i cfg) as [c1|] eqn:H1; [|done]. apply copy_saved_lens in H1. cbn [mbind option_bind].
    destruct (mjoin _) as [q1|]; [|done]. cbn [mbind option_bind].
    destruct (obj_Read _ _ _) as [[ps a]|]; [|done]. cbn [mbind option_bind].
    case_bool_decide; [|by intros [= <- <-]].
    destruct (ingestSnap _ _ _ _ _) as [c3|] eqn:H3; [|done]. intros [= <- <-]. apply ingestSnap_lens in H3. by rewrite H3.
  - destruct (obj_Make _) as [ps q1]. intros Hr. open_binds Hr. injection Hr as <- <-. by rewrite /lens /= length_insert.
Qed.

Lemma start1_lens i names w1 w2 cfg cfg' : start1 decode_snapshot i names w1 w2 cfg = Some cfg' → lens cfg' = lens cfg.
Proof.
  rewrite /start1. destruct (crash1 i w1 cfg) as [c1|] eqn:H1; [|done]. apply crash1_lens in H1. cbn [mbind option_bind].
  destruct (negb _); [done|]. destruct (set_at i (Some names) _); [|done]. cbn [mbind option_bind].
  destruct (make_ends _ _); [|done]. cbn [mbind option_bind].
  destruct (inst_saves w2 _) as [c3|] eqn:H3; [|done]. apply inst_saves_lens in H3. cbn [mbind option_bind].
  destruct (set_at i 0 _) eqn:Hs; [|done]. apply set_at_Some in Hs as [_ ->]. cbn [mbind option_bind].
  destruct (prepare_saved _ i _) as [[c4 q]|] eqn:H4; [|done]. apply prepare_saved_lens in H4. cbn [mbind option_bind].
  destruct (set_at i _ (rc_rafts c4)); [|done]. intros [= <-]. change (lens c4 = lens cfg). rewrite H4.
  rewrite -H1. change (lens c1) with (lens (set_net n (set_endnames l c1))). rewrite -H3. by rewrite /lens /= length_insert.
Qed.

Lemma run_op_lens op cfg cfg' : run_op op cfg = Some cfg' → lens cfg' = lens cfg.
Proof.
  destruct op as [i names w1 w2|i w|i|i|o st sn|a data]; simpl.
  - apply start1_lens.
  - apply crash1_lens.
  - destruct (mjoin _); [|done]. simpl. by intros (names & _ & -> & _)%connect_spec.
  - by intros (names & _ & -> & _)%disconnect_spec.
  - apply inst_save_lens.
  - case_bool_decide; [|done]. by intros [= <-].
Qed.

Lemma run_ops_lens ops n unreliable cfg : run_ops ops (init_cfg n unreliable) = Some cfg → lens cfg = (n, n, n, n).
Proof.
  assert (PreOrder (λ s s' : rcfg Cmd, lens s' = lens s)) by (split; [done|intros ???; congruence]).
  intros Hr. apply (foldM_rel (λ s s', lens s' = lens s) run_op) in Hr; [|intros ???; apply run_op_lens].
  rewrite Hr /lens /= !length_replicate //.
Qed.
Lemma bind_is_Some {A B} (m : option A) (f : A → option B) : is_Some m → (∀ a, is_Some (f a)) → is_Some (m ≫= f).
Proof. intros [a ->] Hf. apply Hf. Qed.

Lemma disconnect_total i cfg : net_inv cfg → (i < rc_n cfg)%nat → is_Some (disconnect i cfg).
Proof.
  intros Hinv Hi. destruct (ni_len _ Hinv) as (_ & L2 & L3). rewrite /disconnect set_at_total; [|lia]. cbn [mbind option_bind].
  assert (∀ a b, (b < rc_n cfg)%nat → rc_endnames cfg !! a ≠ None →
    is_Some (row ← rc_endnames cfg !! a;
      match row with Some _ => endname ← end_name cfg a b; Some (Some (inl endname)) | None => Some None end
      : option (option (string + nat)))) as Hrow.
  { intros a b Hb Ha. destruct (rc_endnames cfg !! a) as [[ns|]|] eqn:Hr; [|by eauto|done]. cbn [mbind option_bind].
    rewrite /end_name Hr /=. destruct (lookup_lt_is_Some_2 ns b) as [e ->]; [|by eauto]. by rewrite (ni_row _ Hinv a ns). }
  assert (∀ a, (a < rc_n cfg)%nat → rc_endnames cfg !! a ≠ None) as Hlt.
  { intros a Ha. destruct (lookup_lt_is_Some_2 (rc_endnames cfg) a) as [? ->]; [lia|done]. }
  eapply bind_is_Some; [apply toggle_loop_total; intros j Hj%elem_of_seq; apply Hrow; [lia|by apply Hlt]|intros rn1].
  eapply bind_is_Some; [apply toggle_loop_total; intros j Hj%elem_of_seq; apply Hrow; [lia|apply Hlt; lia]|by eauto].
Qed.

Lemma connect_total i cfg : net_inv cfg → (∃ o, rc_rafts cfg !! i = Some (Some o)) → is_Some (connect i cfg).
Proof.
  intros Hinv [o Ho]. destruct (ni_len _ Hinv) as (L1 & L2 & L3). pose proof (lookup_lt_Some _ _ _ Ho) as Hi.
  rewrite /connect set_at_total; [|lia]. cbn [mbind option_bind].
  assert (∀ a b, (b < rc_n cfg)%nat → <[i := true]> (rc_connected cfg) !! a = Some true → ∃ e, end_name cfg a b = Some e) as Hrow.
  { intros a b Hb Ha. assert (∃ o', rc_rafts cfg !! a = Some (Some o')) as [o' Ho'].
    { apply list_lookup_insert_Some in Ha as [(<- & _ & _)|[_ Ha]]; [by eauto|]. apply (ni_conn _ Hinv). by rewrite /conn Ha. }
    destruct (ni_cur _ Hinv a o' Ho') as (rf & _ & _ & Hr). destruct (lookup_lt_is_Some_2 (rf_peers rf) b) as [e He];
      [by rewrite (ni_row _ Hinv _ _ Hr)|]. exists e. apply end_name_Some. eauto. }
  eapply bind_is_Some; [apply toggle_loop_total|intros rn1; eapply bind_is_Some; [apply toggle_loop_total|by eauto]];
    intros j Hj%elem_of_seq; (destruct (lookup_lt_is_Some_2 (<[i := true]> (rc_connected cfg)) j) as [[] Hc];
      [rewrite length_insert; lia|rewrite Hc; cbn [mbind option_bind]|rewrite Hc /=; by eauto]).
  - destruct (Hrow i j) as [e ->]; [lia|rewrite list_lookup_insert_eq; [done|lia]|]. simpl. eauto.
  - destruct (Hrow j i) as [e ->]; [lia|done|]. simpl. eauto.
Qed.

Lemma copy_saved_total x i cfg : pers_inv x cfg → (i < length (rc_saved cfg))%nat → is_Some (copy_saved i cfg).
Proof.
  intros Hinv Hi. rewrite /copy_saved. destruct (lookup_lt_is_Some_2 _ _ Hi) as [[p|] Hp]; rewrite Hp; [|by eauto].
  cbn [mbind option_bind]. destruct (obj_Copy_total p (rc_ps cfg)) as [[ps q] ->];
    [apply Hinv|by eapply pv_saved|]. cbn [mbind option_bind]. by rewrite set_at_total.
Qed.

Lemma renew_saved_total x i cfg : pers_inv x cfg → (i < length (rc_saved cfg))%nat → is_Some (renew_saved i cfg).
Proof.
  intros Hinv Hi. rewrite /renew_saved. destruct (lookup_lt_is_Some_2 _ _ Hi) as [[p|] Hp]; rewrite Hp; [|by eauto].
  cbn [mbind option_bind]. pose proof (pv_saved _ _ Hinv i p Hp) as Hd.
  destruct (obj_Read_total ReadRaftState p (rc_ps cfg) Hd) as [[ps1 a] H1]. rewrite H1. cbn [mbind option_bind].
  apply ReadRaftState_spec in H1 as (_ & _ & _ & _ & P1 & _).
  destruct (obj_Read_total ReadSnapshot p ps1) as [[ps2 b] ->]; [by rewrite P1|]. cbn [mbind option_bind].
  destruct (obj_Make ps2) as [ps3 q] eqn:H3. apply obj_Make_spec in H3 as (_ & _ & _ & D3).
  destruct (obj_Save_total q (Some a) (Some b) ps3) as [ps4 ->]; [set_solver|]. cbn [mbind option_bind].
  by rewrite set_at_total.
Qed.

Lemma kill_raft_total i cfg : (i < length (rc_rafts cfg))%nat → is_Some (kill_raft i cfg).
Proof.
  intros Hi. rewrite /kill_raft. destruct (lookup_lt_is_Some_2 _ _ Hi) as [[o|] Ho]; rewrite Ho; [|by eauto].
  cbn [mbind option_bind]. by rewrite set_at_total.
Qed.

(** The snapshot a server left can be read. *)
Definition readable cfg i : Prop :=
  match stored cfg i with Some (_, sn) => sn = "" ∨ is_Some (decode_snapshot sn) | None => True end.

Definition sized cfg : Prop := lens cfg = (rc_n cfg, rc_n cfg, rc_n cfg, rc_n cfg).

Lemma crash1_total i cfg :
  net_inv cfg → pers_inv None cfg → sized cfg → (i < rc_n cfg)%nat → is_Some (crash1 i [] cfg).
Proof.
  intros Hn Hp Hl Hi. rewrite /crash1. destruct (disconnect_total i cfg Hn Hi) as [c1 H1]. rewrite H1. cbn [mbind option_bind].
  pose proof (disconnect_same_pers _ _ _ H1) as F1. set (c2 := set_net _ c1).
  assert (pers_inv None c2) as I2 by (eapply pers_inv_same; [exact Hp|]; etrans; [exact F1|done]).
  assert (length (rc_saved c2) = rc_n cfg) as L2 by (destruct F1 as (_ & _ & E & _); rewrite /= E; by injection Hl).
  destruct (copy_saved_total None i c2 I2) as [c3 H3]; [lia|]. rewrite H3. cbn [mbind option_bind].
  change (inst_saves [] c3) with (Some c3). cbn [mbind option_bind].
  pose proof (copy_saved_frame _ _ _ H3) as (_ & _ & R3 & _).
  assert (rc_rafts c3 = rc_rafts cfg) as R3' by (destruct F1 as (_ & E & _); by rewrite R3).
  destruct (copy_saved_spec _ _ _ _ I2 (or_introl eq_refl) H3) as (I3 & _). apply copy_saved_lens in H3.
  destruct (kill_raft_total i c3) as [c4 H4]; [rewrite R3'; by destruct (ni_len _ Hn) as [-> _]|]. rewrite H4. cbn [mbind option_bind].
  destruct (kill_raft_pers_inv _ _ _ I3 H4) as (I4 & _). apply kill_raft_lens in H4.
  apply (renew_saved_total None); [done|]. assert (lens c4 = lens c2) as L4 by congruence. injection L4 as _ E _ _. simpl in E, L2. lia.
Qed.

Lemma ingestSnap_total i sn cfg :
  sized cfg → (i < rc_n cfg)%nat → is_Some (decode_snapshot sn) → is_Some (ingestSnap decode_snapshot i sn (-1) cfg).
Proof.
  intros [= _ L2 L3] Hi [[la xlog] Hd]. rewrite /ingestSnap Hd /=. rewrite set_at_total; [|lia].
  cbn [mbind option_bind]. rewrite set_at_total; [|lia]. simpl. eauto.
Qed.

Lemma prepare_saved_total i cfg :
  pers_inv (Some i) cfg → sized cfg → (i < rc_n cfg)%nat → readable cfg i → is_Some (prepare_saved decode_snapshot i cfg).
Proof.
  intros Hinv Hl Hi Hread. pose proof Hl as [= L1 _ _]. rewrite /prepare_saved.
  destruct (lookup_lt_is_Some_2 (rc_saved cfg) i) as [[p|] Hp]; [lia|rewrite Hp; cbn [mbind option_bind]..].
  2: { destruct (obj_Make _). rewrite set_at_total; [|lia]. simpl. eauto. }
  destruct (copy_saved_total _ i cfg Hinv) as [c1 H1]; [lia|]. rewrite H1. cbn [mbind option_bind].
  destruct (copy_saved_spec _ _ _ _ Hinv (or_intror eq_refl) H1) as (I1 & S1 & _ & [q Hq]); [congruence|].
  apply copy_saved_lens in H1. rewrite Hq. cbn [mbind option_bind mjoin option_join].
  destruct (obj_Read_total ReadSnapshot q (rc_ps c1)) as [[ps a] H2]; [by eapply pv_saved|]. rewrite H2. cbn [mbind option_bind].
  apply ReadSnapshot_spec in H2 as (pp & Hpp & _ & _ & _ & _ & V2 & _). rewrite V2.
  assert (stored c1 i = Some (slice (memory (rc_ps c1)) (raftstate pp), slice (memory (rc_ps c1)) (snapshot pp))) as Est.
  { by rewrite /stored Hq /= Hpp. }
  rewrite S1 in Est. rewrite /readable Est in Hread. case_bool_decide as Hne; [|by cbn; eauto].
  destruct Hread as [He|Hd]; [rewrite He in Hne; done|].
  assert (lens (set_saved (rc_saved c1) ps c1) = lens cfg) as Hlens by exact H1. injection H1 as En _ _ _.
  destruct (ingestSnap_total i (slice (memory (rc_ps c1)) (snapshot pp)) (set_saved (rc_saved c1) ps c1)) as [c3 Hc3];
    [| |exact Hd|].
  - rewrite /sized Hlens. change (rc_n (set_saved (rc_saved c1) ps c1)) with (rc_n c1). rewrite En. exact Hl.
  - change (i < rc_n c1)%nat. by rewrite En.
  - rewrite Hc3. cbn [mbind option_bind]. eauto.
Qed.

Lemma start1_total i names cfg :
  net_inv cfg → pers_inv None cfg → sized cfg → (i < rc_n cfg)%nat → readable cfg i →
  length names = rc_n cfg → NoDup names → (∀ e, e ∈ names → inl e ∉ ends (rc_net cfg)) →
  is_Some (start1 decode_snapshot i names [] [] cfg).
Proof.
  intros Hn Hp Hl Hi Hread Hlen Hnd Hnew. rewrite /start1. destruct (crash1_total i cfg Hn Hp Hl Hi) as [c1 H1].
  rewrite H1. cbn [mbind option_bind]. destruct (crash1_disk _ _ _ _ Hp H1) as (I1 & S1 & _).
  destruct (crash1_net_inv _ _ _ _ Hn H1) as (N1 & _ & _). pose proof (crash1_ends _ _ _ _ H1) as E1.
  apply crash1_lens in H1. rewrite /sized in Hl. injection H1 as En Es El Ea. injection Hl as Ls Ll La.
  rewrite En bool_decide_true //. cbn [negb]. destruct (ni_len _ N1) as (R1 & _ & L3).
  rewrite set_at_total; [|lia]. cbn [mbind option_bind].
  edestruct (make_ends_total (imap (λ j name, (inl name, inr j)) names) (rc_net c1)) as [rn Hm].
  { rewrite row_names. by apply NoDup_fmap_2; [apply _|]. }
  { intros e. rewrite row_names list_elem_of_fmap. intros (e' & -> & He'). rewrite E1. by apply Hnew. }
  rewrite /= Hm. cbn [mbind option_bind]. change (inst_saves [] ?c) with (Some c). cbn [mbind option_bind rc_lastApplied set_net set_endnames].
  rewrite set_at_total; [|lia]. cbn [mbind option_bind].
  match goal with |- context [prepare_saved _ i ?c] => destruct (prepare_saved_total i c) as [[c4 q] H4] end;
     [| | | |rewrite H4; cbn [mbind option_bind]].
  - by eapply pers_inv_same.
  - rewrite /sized /lens /= length_insert. congruence.
  - simpl. lia.
  - rewrite /readable. change (stored _ i) with (stored c1 i). rewrite S1. exact Hread.
  - apply prepare_saved_frame in H4 as (_ & _ & R4 & _). simpl in R4. rewrite set_at_total; [|rewrite R4; lia].
    simpl. eauto.
Qed.

(** A server can always be brought back. After any operations, if the random
    names of its new ends are different and unused and the snapshot it left can be
    decoded (or there is none), starting a server returns, with a new instance
    running, and so does connecting it to the net. *)
Theorem servers_come_back ops n unreliable cfg i names :
  run_ops ops (init_cfg n unreliable) = Some cfg → (i < n)%nat → readable cfg i →
  length names = n → NoDup names → (∀ e, e ∈ names → inl e ∉ ends (rc_net cfg)) →
  ∃ cfg1 cfg2 o, run_op (TStart i names [] []) cfg = Some cfg1 ∧ run_op (TConnect i) cfg1 = Some cfg2 ∧
    rc_rafts cfg2 !! i = Some (Some o) ∧ rc_insts cfg !! o = None ∧ conn cfg2 i = true.
Proof.
  intros Hr Hi Hread Hlen Hnd Hnew. destruct (run_ops_inv _ _ _ _ Hr) as [Hn Hp]. pose proof (run_ops_lens _ _ _ _ Hr) as Hl.
  assert (rc_n cfg = n) as En by (injection Hl; auto).
  destruct (start1_total i names cfg) as [c1 H1]; [done|done|by rewrite /sized Hl En|lia|done|lia|done|done|].
  destruct (start1_disk _ _ _ _ _ _ _ Hn Hp H1) as (_ & _ & (o & Ho & Hnewo) & _).
  pose proof (start1_net_inv _ _ _ _ _ _ _ Hn H1) as Hn1.
  destruct (connect_total i c1 Hn1) as [c2 H2]; [by eauto|]. exists c1, c2, o. split_and!; [done| |..].
  - by rewrite /= Ho.
  - by apply connect_spec in H2 as (? & _ & -> & _).
  - done.
  - apply connect_spec in H2 as (? & Hlt & -> & _). rewrite /conn /= list_lookup_insert_eq //.
Qed.
End tester.

(** Two servers; server 0 saves, is crashed and started again, and its first
    instance saves once more. *)
Definition sample_ops : list TOp :=
  [TStart 0 ["a"; "b"] [] []; TStart 1 ["c"; "d"] [] []; TConnect 0; TConnect 1; TSave 0 "term 1" "";
   TStart 0 ["e"; "f"] [(0%nat, "stale", "")] [(1%nat, "other", "")]; TConnect 0].

Definition sample_cfg : rcfg Z := default (init_cfg 2 false) (run_ops (λ _, None) sample_ops (init_cfg 2 false)).


Lemma disks_survive_crashes_witness :
  ∃ cfg' : rcfg Z, run_op (λ _, None) (TSave 0 "stale again" "") sample_cfg = Some cfg' ∧
    stored cfg' 0 = Some ("term 1", "") ∧ stored cfg' 1 = Some ("other", "").
Proof.
  assert (run_ops (λ _, None) sample_ops (init_cfg 2 false) = Some sample_cfg) as Hr by (vm_compute; reflexivity).
  assert (is_Some (run_op (λ _, None) (TSave 0 "stale again" "") sample_cfg)) as [cfg' Hs] by (vm_compute; eauto).
  exists cfg'. split; [exact Hs|]. rewrite !(disks_survive_crashes (λ _, None) _ _ _ _ _ _ _ Hr Hs).
  vm_compute. split; reflexivity.
Defined.

Lemma servers_come_back_witness :
  ∃ (cfg1 cfg2 : rcfg Z) o, run_op (λ _, None) (TStart 1 ["g"; "h"] [] []) sample_cfg = Some cfg1 ∧
    run_op (λ _, None) (TConnect 1) cfg1 = Some cfg2 ∧ rc_rafts cfg2 !! 1%nat = Some (Some o).
Proof.
  assert (run_ops (λ _, None) sample_ops (init_cfg 2 false) = Some sample_cfg) as Hr by (vm_compute; reflexivity).
  destruct (servers_come_back (λ _, None) _ _ _ _ 1 ["g"; "h"] Hr) as (c1 & c2 & o & H1 & H2 & H3 & _).
  - lia.
  - assert (stored sample_cfg 1 = Some ("other", "")) as Hs by (vm_compute; reflexivity).
    rewrite /readable Hs. left. reflexivity.
  - reflexivity.
  - apply (bool_decide_unpack _). vm_compute. exact I.
  - assert (bool_decide (inl "g" ∈ ends (rc_net sample_cfg)) = false ∧
            bool_decide (inl "h" ∈ ends (rc_net sample_cfg)) = false) as [Hg Hh] by (vm_compute; split; reflexivity).
    apply bool_decide_eq_false in Hg, Hh. intros e [->|[->|[]%elem_of_nil]%elem_of_cons]%elem_of_cons; assumption.
  - exists c1, c2, o. split_and!; assumption.
Defined.
