(* ===== verification/RaftApply.v ===== *)
(** * What Raft servers apply

    Models the readers of the apply channels in [raft/config.go]: [checkLogs],
    [applier], [applierSnap] and the messages of [raft/raft.go]. Commands are
    compared with [==]. [None] is [log.Fatalf], which ends the process. Readers
    of different servers run concurrently and take turns between messages. *)
From S2P Require Import Prelude GoBase LabRpc Persister Harness RaftConfig.

Section apply.
Context {Cmd : Type} `{EqDecision Cmd}.
Notation Log := (gmap Z (option Cmd)).

Record ApplyMsg := mkApplyMsg {
  CommandValid : bool;
  Command : option Cmd;
  CommandIndex : Z;
  SnapshotValid : bool;
  Snapshot : string;
  SnapshotTerm : Z;
  SnapshotIndex : Z;
}.

(** The part of the configuration the readers use. *)
Record applied := mkApplied {
  ap_logs : list Log;          (* copy of each server's committed entries *)
  ap_lastApplied : list Z;
  ap_maxIndex : Z;
}.

(** The messages the readers print. *)
Inductive ApplyErr :=
| CommitMismatch (index : Z) (i : nat) (v : option Cmd) (j : nat) (old : option Cmd)
| OutOfOrder (i : nat) (index : Z)
| UnexpectedIndex (i : nat) (expected index : Z)
| SnapshotMismatch (i : nat).

(** Compares with every log, the own one included; the last difference counts. *)
Definition compare_logs (i : nat) (m : ApplyMsg) (logs : list Log) : option ApplyErr :=
  foldl (λ err j,
    match logs !! j with
    | Some log =>
        match log !! CommandIndex m with
        | Some old => if bool_decide (old ≠ Command m) then Some (CommitMismatch (CommandIndex m) i (Command m) j old) else err
        | None => err
        end
    | None => err
    end) None (seq 0 (length logs)).

Definition checkLogs (i : nat) (m : ApplyMsg) (cfg : applied) : option (applied * option ApplyErr * bool) :=
  let err_msg := compare_logs i m (ap_logs cfg) in
  log ← ap_logs cfg !! i;
  let prevok := bool_decide (is_Some (log !! (CommandIndex m - 1))) in
  logs ← set_at i (<[CommandIndex m := Command m]> log) (ap_logs cfg);
  let maxIndex := if bool_decide (CommandIndex m > ap_maxIndex cfg) then CommandIndex m else ap_maxIndex cfg in
  Some (mkApplied logs (ap_lastApplied cfg) maxIndex, err_msg, prevok).

(** [if err_msg != "" { log.Fatalf(...) }] *)
Definition fatal {A} (err : option ApplyErr) (a : A) : option A := match err with Some _ => None | None => Some a end.

(** One round of [applier]. *)
Definition applier (x : nat * ApplyMsg) (cfg : applied) : option applied :=
  let '(i, m) := x in
  if CommandValid m then
    '(cfg, err_msg, prevok) ← checkLogs i m cfg;
    let err_msg := if bool_decide (CommandIndex m > 1) && negb prevok then Some (OutOfOrder i (CommandIndex m)) else err_msg in
    fatal err_msg cfg
  else Some cfg.

(** The readers of all servers, in the order they take messages. *)
Definition appliers : list (nat * ApplyMsg) → applied → option applied := foldM applier.

Definition init_applied (n : nat) : applied := mkApplied (replicate n ∅) (replicate n 0) 0.

(** ** With snapshots *)

Definition SnapShotInterval : Z := 10.

(** What gob makes of an index and a log, and back. *)
Variable encode_snapshot : Z → list (option Cmd) → string.
Variable decode_snapshot : string → option (Z * list (option Cmd)).

(** [ingestSnap]: an error string; [None] is [log.Fatalf]. *)
Definition ingest (i : nat) (snapshot : string) (index : Z) (cfg : applied) : option (applied * option ApplyErr) :=
  '(lastIncludedIndex, xlog) ← decode_snapshot snapshot;
  if negb (bool_decide (index = -1)) && negb (bool_decide (index = lastIncludedIndex)) then Some (cfg, Some (SnapshotMismatch i)) else
  logs ← set_at i (snapshot_log xlog) (ap_logs cfg);
  la ← set_at i lastIncludedIndex (ap_lastApplied cfg);
  Some (mkApplied logs la (ap_maxIndex cfg), None).

(** [for j := 0; j <= m.CommandIndex; j++ { xlog = append(xlog, cfg.logs[i][j]) }] *)
Definition xlog_of (log : Log) (index : Z) : list (option Cmd) :=
  (λ j : nat, default None (log !! Z.of_nat j)) <$> seq 0 (Z.to_nat (index + 1)).

(** One round of [applierSnap]; the second component is what it passes to
    [rf.Snapshot]. *)
Definition applierSnap (i : nat) (m : ApplyMsg) (cfg : applied) : option (applied * option (Z * string)) :=
  if SnapshotValid m then
    '(cfg, err_msg) ← ingest i (Snapshot m) (SnapshotIndex m) cfg;
    fatal err_msg (cfg, None)
  else if CommandValid m then
    last ← ap_lastApplied cfg !! i;
    let err_msg := if bool_decide (CommandIndex m ≠ last + 1) then Some (UnexpectedIndex i (last + 1) (CommandIndex m)) else None in
    '(cfg, err_msg) ← match err_msg with
      | None =>
          '(cfg, err_msg, prevok) ← checkLogs i m cfg;
          Some (cfg, if bool_decide (CommandIndex m > 1) && negb prevok then Some (OutOfOrder i (CommandIndex m)) else err_msg)
      | Some e => Some (cfg, Some e)
      end;
    la ← set_at i (CommandIndex m) (ap_lastApplied cfg);
    let cfg := mkApplied (ap_logs cfg) la (ap_maxIndex cfg) in
    log ← ap_logs cfg !! i;
    let snap := if bool_decide (Z.rem (CommandIndex m + 1) SnapShotInterval = 0)
                then Some (CommandIndex m, encode_snapshot (CommandIndex m) (xlog_of log (CommandIndex m))) else None in
    fatal err_msg (cfg, snap)
  else Some (cfg, None).

(** [start1]: the reader of a new instance, with the snapshot it left, if any. *)
Definition restart (i : nat) (snapshot : string) (cfg : applied) : option applied :=
  la ← set_at i 0 (ap_lastApplied cfg);
  let cfg := mkApplied (ap_logs cfg) la (ap_maxIndex cfg) in
  if bool_decide (0 < slen snapshot) then
    '(cfg, err) ← ingest i snapshot (-1) cfg; fatal err cfg
  else Some cfg.

(** ** Counting *)

(** [nCommitted]: how many servers have the entry, and its command; [None] when
    two of them differ, which fails the test. *)
Definition nCommitted (index : Z) (cfg : applied) : option (Z * option Cmd) :=
  foldM (λ log '(count, cmd),
    match log !! index with
    | Some cmd1 =>
        if bool_decide (count > 0) && bool_decide (cmd ≠ cmd1) then None else Some (count + 1, cmd1)
    | None => Some (count, cmd)
    end) (ap_logs cfg) (0, None).
End apply.
Arguments ApplyMsg : clear implicits.
Arguments applied : clear implicits.
