(* ===== verification/RaftApplyThm.v ===== *)
(** * Correctness of the readers of the apply channels

    Without snapshots the readers accept exactly the histories in which all
    servers apply the same commands, each without gaps. With snapshots, the logs
    of all servers still agree, provided the snapshots are ones the readers
    took. *)
From S2P Require Import Prelude GoBase LabRpc Persister Harness RaftConfig RaftApply.

Section thm.
Context {Cmd : Type} `{EqDecision Cmd}.
Notation Log := (gmap Z (option Cmd)).
Implicit Types (m : ApplyMsg Cmd) (cfg : applied Cmd) (ms : list (nat * ApplyMsg Cmd)).

Lemma compare_logs_None i m (logs : list Log) :
  compare_logs i m logs = None ↔
  ∀ j log old, logs !! j = Some log → log !! CommandIndex m = Some old → old = Command m.
Proof.
  rewrite /compare_logs. set (f := λ (err : option ApplyErr) j, _).
  assert (∀ js e, foldl f e js = None ↔ e = None ∧ ∀ j log old, j ∈ js → logs !! j = Some log →
    log !! CommandIndex m = Some old → old = Command m) as Hf.
  { induction js as [|j js IH]; intros e; cbn [foldl]; [set_solver|]. rewrite IH. rewrite {1}/f.
    setoid_rewrite elem_of_cons. destruct (logs !! j) as [log|] eqn:Hj; [|naive_solver].
    destruct (log !! CommandIndex m) as [old|] eqn:Ho; [|naive_solver]. case_bool_decide; naive_solver. }
  rewrite Hf. setoid_rewrite elem_of_seq. split; [|naive_solver].
  intros [_ Ha] j log old Hj. apply (Ha j log old); [|done]. apply lookup_lt_Some in Hj. lia.
Qed.

(** ** Without snapshots *)

(** What the messages of server [i] leave in its log. *)
Definition entries ms (i : nat) : Log :=
  foldl (λ log x, if bool_decide (x.1 = i) && CommandValid x.2 then <[CommandIndex x.2 := Command x.2]> log else log) ∅ ms.

(** No index gets two commands. *)
Definition agree ms : Prop :=
  ∀ x y, x ∈ ms → y ∈ ms → CommandValid x.2 = true → CommandValid y.2 = true → CommandIndex x.2 = CommandIndex y.2 →
    Command x.2 = Command y.2.

(** A command of index [k > 1] comes after one of index [k - 1] at the same server. *)
Definition in_order ms : Prop :=
  ∀ ms1 i m ms2, ms = ms1 ++ (i, m) :: ms2 → CommandValid m = true → CommandIndex m > 1 →
    ∃ m', (i, m') ∈ ms1 ∧ CommandValid m' = true ∧ CommandIndex m' = CommandIndex m - 1.

Lemma entries_snoc ms i j m :
  entries (ms ++ [(j, m)]) i =
    if bool_decide (j = i) && CommandValid m then <[CommandIndex m := Command m]> (entries ms i) else entries ms i.
Proof. by rewrite /entries foldl_app. Qed.

Lemma entries_Some ms i k : is_Some (entries ms i !! k) ↔ ∃ m, (i, m) ∈ ms ∧ CommandValid m = true ∧ CommandIndex m = k.
Proof.
  induction ms as [|[j m] ms IH] using rev_ind.
  { rewrite lookup_empty. split; [by intros []|]. intros (m & []%elem_of_nil & _). }
  setoid_rewrite elem_of_app. setoid_rewrite list_elem_of_singleton. rewrite entries_snoc.
  case_bool_decide as Hj; [subst|naive_solver]. destruct (CommandValid m) eqn:Hv; [|naive_solver congruence].
  cbn [andb]. destruct (decide (k = CommandIndex m)) as [->|Hk].
  - rewrite lookup_insert_eq. split; [|by eauto]. intros _. exists m. auto.
  - rewrite lookup_insert_ne // IH. naive_solver.
Qed.

Lemma entries_lookup ms i k v :
  entries ms i !! k = Some v → ∃ m, (i, m) ∈ ms ∧ CommandValid m = true ∧ CommandIndex m = k ∧ Command m = v.
Proof.
  induction ms as [|[j m] ms IH] using rev_ind; [by rewrite lookup_empty|]. rewrite entries_snoc.
  setoid_rewrite elem_of_app. setoid_rewrite list_elem_of_singleton.
  case_bool_decide as Hj; [subst|naive_solver]. destruct (CommandValid m) eqn:Hv; [|naive_solver congruence].
  cbn [andb]. intros [[<- <-]|[_ Hk]]%lookup_insert_Some; [by exists m; auto|]. by destruct (IH Hk) as (m' & ? & ?); exists m'; auto.
Qed.

(** What a message has to satisfy after others. *)
Definition fits ms (x : nat * ApplyMsg Cmd) : Prop :=
  CommandValid x.2 = true →
  (∀ y, y ∈ ms → CommandValid y.2 = true → CommandIndex y.2 = CommandIndex x.2 → Command y.2 = Command x.2) ∧
  (CommandIndex x.2 > 1 → ∃ m', (x.1, m') ∈ ms ∧ CommandValid m' = true ∧ CommandIndex m' = CommandIndex x.2 - 1).

Lemma consistent_snoc ms x : agree (ms ++ [x]) ∧ in_order (ms ++ [x]) ↔ (agree ms ∧ in_order ms) ∧ fits ms x.
Proof.
  rewrite /agree /fits. setoid_rewrite elem_of_app. setoid_rewrite list_elem_of_singleton. split.
  - intros [Ha Ho]. split_and!.
    + naive_solver.
    + intros ms1 i m ms2 ->. apply (Ho ms1 i m (ms2 ++ [x])). by rewrite -app_assoc.
    + intros Hv. split; [naive_solver|]. destruct x as [i m]. by apply (Ho ms i m []).
  - intros [[Ha Ho] Hf]. split; [naive_solver|]. intros ms1 i m ms2 He. destruct ms2 as [|z ms2 _] using rev_ind.
    + apply app_inj_tail in He as [-> ->]. naive_solver.
    + rewrite app_comm_cons app_assoc in He. apply app_inj_tail in He as [-> ->]. by eapply Ho.
Qed.

Lemma applier_spec n ms i m cfg :
  Forall (λ x, x.1 < n)%nat ms → ap_logs cfg = entries ms <$> seq 0 n → (i < n)%nat →
  (fits ms (i, m) → is_Some (applier (i, m) cfg)) ∧
  (∀ cfg', applier (i, m) cfg = Some cfg' → (agree ms → fits ms (i, m)) ∧ ap_logs cfg' = entries (ms ++ [(i, m)]) <$> seq 0 n).
Proof.
  intros Hms Hlogs Hi. assert (∀ j, (j < n)%nat → ap_logs cfg !! j = Some (entries ms j)) as Hl.
  { intros j Hj. rewrite Hlogs list_lookup_fmap lookup_seq_lt //. }
  rewrite /applier /fits /=. destruct (CommandValid m) eqn:Hv.
  2: { split; [by eauto|]. intros cfg' [= <-]. split; [done|]. rewrite Hlogs. apply list_fmap_ext. intros j k _.
       rewrite entries_snoc Hv andb_false_r //. }
  rewrite /checkLogs (Hl i Hi). cbn [mbind option_bind]. rewrite set_at_total; [|rewrite Hlogs length_fmap length_seq //].
  cbn [mbind option_bind].
  assert (is_Some (entries ms i !! (CommandIndex m - 1)) ↔
    ∃ m', (i, m') ∈ ms ∧ CommandValid m' = true ∧ CommandIndex m' = CommandIndex m - 1) as Hprev by apply entries_Some.
  split.
  - intros Hf. destruct (Hf eq_refl) as [Hc Hp]. replace (compare_logs i m (ap_logs cfg)) with (@None (@ApplyErr Cmd)).
    + case_bool_decide as Hidx; [|by simpl; eauto].
      rewrite (bool_decide_true (is_Some _)); [by simpl; eauto|by apply Hprev, Hp].
    + symmetry. apply compare_logs_None. intros j log old Hj Hold. rewrite Hlogs list_lookup_fmap in Hj.
      apply fmap_Some in Hj as (j' & _ & ->). apply entries_lookup in Hold as (m' & Hin & Hv' & He & <-).
      by apply (Hc (j', m')).
  - intros cfg'. destruct (bool_decide (CommandIndex m > 1) && negb _) eqn:Hord; [done|].
    destruct (compare_logs i m (ap_logs cfg)) eqn:Hcmp; [done|]. intros [= <-]. split.
    + intros Hagree _. split.
      * intros [j m'] Hin Hv' He. simpl in *. rewrite compare_logs_None in Hcmp.
        assert (is_Some (entries ms j !! CommandIndex m)) as [old Hold] by (apply entries_Some; eauto).
        assert (j < n)%nat as Hj by (rewrite Forall_forall in Hms; by apply (Hms (j, m'))).
        rewrite -(Hcmp j _ old (Hl j Hj) Hold). apply entries_lookup in Hold as (m2 & Hin2 & Hv2 & He2 & <-).
        apply (Hagree (j, m') (j, m2)); simpl; try done. congruence.
      * intros Hidx. apply Hprev. apply andb_false_iff in Hord as [Hord|Hord]; [by rewrite bool_decide_true in Hord|].
        apply negb_false_iff, bool_decide_eq_true in Hord. done.
    + simpl. apply list_eq. intros j. rewrite list_lookup_fmap. destruct (decide (j < n)%nat) as [Hj|Hj].
      * rewrite lookup_seq_lt //= entries_snoc Hv andb_true_r. destruct (decide (i = j)) as [->|Hij].
        -- rewrite list_lookup_insert_eq; [|rewrite Hlogs length_fmap length_seq //]. by rewrite bool_decide_true.
        -- rewrite list_lookup_insert_ne // bool_decide_false // Hl //.
      * rewrite lookup_seq_ge; [|lia]. simpl. apply lookup_ge_None. rewrite length_insert Hlogs length_fmap length_seq. lia.
Qed.

Lemma appliers_spec n ms :
  Forall (λ x, x.1 < n)%nat ms →
  (agree ms ∧ in_order ms → is_Some (appliers ms (init_applied n))) ∧
  (∀ cfg, appliers ms (init_applied n) = Some cfg → (agree ms ∧ in_order ms) ∧ ap_logs cfg = entries ms <$> seq 0 n).
Proof.
  induction ms as [|[i m] ms IH] using rev_ind; intros Hms.
  { split; [by eauto|]. intros cfg [= <-]. split_and!.
    - intros x y []%elem_of_nil.
    - intros ms1 ? ? ? He. by destruct ms1.
    - simpl. clear. generalize 0%nat. induction n as [|n IH]; intros k; [done|].
      change (∅ :: replicate n ∅ = entries [] k :: (entries [] <$> seq (S k) n)). by rewrite -(IH (S k)). }
  apply Forall_app in Hms as [Hms Hi]. rewrite Forall_singleton /= in Hi. specialize (IH Hms) as [IH1 IH2].
  assert (∀ c, appliers (ms ++ [(i, m)]) c = appliers ms c ≫= appliers [(i, m)]) as Happ by apply foldM_app.
  setoid_rewrite consistent_snoc. rewrite Happ. assert (∀ c, appliers [(i, m)] c = applier (i, m) c) as Hone.
  { intros c. change (applier (i, m) c ≫= Some = applier (i, m) c). by destruct (applier (i, m) c). }
  split.
  - intros [Hc Hf]. destruct (IH1 Hc) as [cfg Hcfg]. rewrite Hcfg. cbn [mbind option_bind]. rewrite Hone.
    destruct (IH2 cfg Hcfg) as [_ Hl]. destruct (applier_spec n ms i m cfg Hms Hl Hi) as [Hs _].
    by apply Hs.
  - intros cfg'. destruct (appliers ms _) as [cfg|] eqn:Hcfg; [|done]. cbn [mbind option_bind]. rewrite Hone. intros Ha.
    destruct (IH2 cfg eq_refl) as [Hc Hl]. destruct (applier_spec n ms i m cfg Hms Hl Hi) as [_ Hs].
    destruct (Hs cfg' Ha) as [Hf Hl']. split; [split; [done|]|done]. by apply Hf, Hc.
Qed.

(** C18: Without snapshots the readers of the apply channels accept exactly the
    histories a correct Raft may produce, whatever the order in which they take
    messages: no error is reported if and only if no index is applied with two
    different commands, by the same or by different servers, and every server
    applies a command of index [k > 1] only after one of index [k - 1]. And then
    the copy of each server's log holds what the server has applied. *)
Theorem appliers_accept_agreement n ms :
  Forall (λ x, x.1 < n)%nat ms →
  (is_Some (appliers ms (init_applied n)) ↔ agree ms ∧ in_order ms) ∧
  (∀ cfg i k v, appliers ms (init_applied n) = Some cfg → (i < n)%nat →
     (ap_logs cfg !! i ≫= lookup k) = Some v ↔
       ∃ m, (i, m) ∈ ms ∧ CommandValid m = true ∧ CommandIndex m = k ∧ Command m = v).
Proof.
  intros Hms. destruct (appliers_spec n ms Hms) as [H1 H2]. split.
  - split; [|done]. by intros [cfg Hcfg]; apply (H2 cfg).
  - intros cfg i k v Hcfg Hi. destruct (H2 cfg Hcfg) as [[Hagree _] Hl].
    rewrite Hl list_lookup_fmap lookup_seq_lt //=. split; [apply entries_lookup|].
    intros (m & Hin & Hv & Hk & <-). assert (is_Some (entries ms i !! k)) as [v' Hv'] by (apply entries_Some; eauto).
    rewrite Hv'. f_equal. apply entries_lookup in Hv' as (m' & Hin' & Hvm & Hk' & <-).
    apply (Hagree (i, m') (i, m)); simpl; congruence.
Qed.
End thm.

(** Two servers apply two commands; a third one then applies another command at
    index 2. *)
Definition good_history : list (nat * ApplyMsg Z) :=
  [(0%nat, mkApplyMsg true (Some 10) 1 false "" 0 0); (1%nat, mkApplyMsg true (Some 10) 1 false "" 0 0);
   (1%nat, mkApplyMsg true (Some 11) 2 false "" 0 0); (0%nat, mkApplyMsg true (Some 11) 2 false "" 0 0)].
Definition bad_history : list (nat * ApplyMsg Z) :=
  good_history ++ [(2%nat, mkApplyMsg true (Some 10) 1 false "" 0 0); (2%nat, mkApplyMsg true (Some 12) 2 false "" 0 0)].

Lemma appliers_accept_agreement_witness :
  (agree good_history ∧ in_order good_history) ∧ ¬ (agree bad_history ∧ in_order bad_history).
Proof.
  split.
  - apply (appliers_accept_agreement 3 good_history); [repeat constructor; simpl; lia|vm_compute; eauto].
  - rewrite -(proj1 (appliers_accept_agreement 3 bad_history ltac:(repeat constructor; simpl; lia))).
    intros [cfg Hcfg]. vm_compute in Hcfg. discriminate.
Defined.
