(* ===== verification/RaftSnapThm.v ===== *)
(** * The readers that take snapshots

    If Raft delivers one committed log, [applierSnap] reports nothing, and the
    snapshots it takes restore that log; a command that is not next, or differs
    from what another server applied, is reported. *)
From S2P Require Import Prelude GoBase LabRpc Persister Harness RaftConfig RaftApply RaftApplyThm.

Lemma snapshot_log_lookup {Cmd} (xlog : list (option Cmd)) k v :
  snapshot_log xlog !! k = Some v ↔ 0 ≤ k ∧ xlog !! Z.to_nat k = Some v.
Proof.
  rewrite /snapshot_log -elem_of_list_to_map.
  - rewrite elem_of_lookup_imap. split.
    + intros (j & x & [= -> ->] & Hj). rewrite Nat2Z.id. split; [lia|done].
    + intros [Hk Hx]. exists (Z.to_nat k), v. split; [f_equal; lia|done].
  - rewrite fmap_imap. apply NoDup_alt. intros a b x Ha Hb. rewrite list_lookup_imap in Ha. rewrite list_lookup_imap in Hb.
    apply fmap_Some in Ha as (? & _ & ->). apply fmap_Some in Hb as (? & _ & Hb). simpl in Hb. lia.
Qed.

(** The readers restore logs the way [start1] does. *)
Lemma ingestSnap_ingest {Cmd} (dec : string → option (Z * list (option Cmd))) i sn index mx cfg :
  ingestSnap dec i sn index cfg =
    ('(a, err) ← ingest dec i sn index (mkApplied (rc_logs cfg) (rc_lastApplied cfg) mx);
     fatal err (set_logs (ap_logs a) (ap_lastApplied a) cfg)).
Proof.
  rewrite /ingestSnap /ingest. destruct (dec sn) as [[la xlog]|]; [|done]. cbn [mbind option_bind].
  destruct (negb _ && negb _); [done|]. simpl. destruct (set_at i (snapshot_log xlog) (rc_logs cfg)); [|done].
  cbn [mbind option_bind]. by destruct (set_at i la (rc_lastApplied cfg)).
Qed.

Section snap.
Context {Cmd : Type} `{EqDecision Cmd}.
Variable encode_snapshot : Z → list (option Cmd) → string.
Variable decode_snapshot : string → option (Z * list (option Cmd)).
(** gob gives back what it was given. *)
Hypothesis decode_encode : ∀ index xlog, decode_snapshot (encode_snapshot index xlog) = Some (index, xlog).

(** The committed log: indices start with 1. *)
Variable committed : Z → option Cmd.
Implicit Types (m : ApplyMsg Cmd) (cfg : applied Cmd) (snaps : list (Z * string)).
Notation Log := (gmap Z (option Cmd)).

Definition log_entry (k : Z) : option Cmd := if bool_decide (k = 0) then None else committed k.

(** A Raft that is correct hands out the next command of that log or a snapshot
    it was given; a restarted server may have such a snapshot. *)
Inductive follows : applied Cmd * list (Z * string) → applied Cmd * list (Z * string) → Prop :=
| f_command i m last cfg cfg' out snaps :
    SnapshotValid m = false → CommandValid m = true →
    ap_lastApplied cfg !! i = Some last → CommandIndex m = last + 1 → Command m = committed (CommandIndex m) →
    applierSnap encode_snapshot decode_snapshot i m cfg = Some (cfg', out) →
    follows (cfg, snaps) (cfg', option_list out ++ snaps)
| f_snapshot i m cfg cfg' out snaps :
    SnapshotValid m = true → (SnapshotIndex m, Snapshot m) ∈ snaps →
    applierSnap encode_snapshot decode_snapshot i m cfg = Some (cfg', out) →
    follows (cfg, snaps) (cfg', snaps)
| f_restart i sn cfg cfg' snaps :
    sn = "" ∨ (∃ index, (index, sn) ∈ snaps) → restart decode_snapshot i sn cfg = Some cfg' →
    follows (cfg, snaps) (cfg', snaps).

Record snap_inv (n : nat) cfg snaps : Prop := {
  si_len : length (ap_logs cfg) = n ∧ length (ap_lastApplied cfg) = n;
  si_entry : ∀ j log k v, ap_logs cfg !! j = Some log → log !! k = Some v → 0 ≤ k ∧ v = log_entry k;
  si_last : ∀ j log la, ap_logs cfg !! j = Some log → ap_lastApplied cfg !! j = Some la →
    0 ≤ la ∧ ∀ k, 1 ≤ k ≤ la → is_Some (log !! k);
  si_snaps : ∀ index sn, (index, sn) ∈ snaps → 0 ≤ index ∧
    decode_snapshot sn = Some (index, (λ j : nat, log_entry (Z.of_nat j)) <$> seq 0 (Z.to_nat (index + 1)));
}.

Lemma log_entry_pos k : 1 ≤ k → log_entry k = committed k.
Proof. intros Hk. rewrite /log_entry bool_decide_false //. lia. Qed.

Lemma restored_lookup index k v :
  snapshot_log ((λ j : nat, log_entry (Z.of_nat j)) <$> seq 0 (Z.to_nat (index + 1))) !! k = Some v ↔
  0 ≤ k ≤ index ∧ v = log_entry k.
Proof.
  rewrite snapshot_log_lookup list_lookup_fmap fmap_Some. split.
  - intros (Hk & j & Hj & ->). apply lookup_seq in Hj as [-> Hlt]. split; [lia|]. f_equal. lia.
  - intros [Hk ->]. split; [lia|]. exists (Z.to_nat k). rewrite lookup_seq_lt; [|lia]. split; [done|]. f_equal. lia.
Qed.

Lemma ingest_lt n i sn si cfg cfg' e snaps :
  snap_inv n cfg snaps → ingest decode_snapshot i sn si cfg = Some (cfg', e) → e = None → (i < n)%nat.
Proof.
  intros Hinv. rewrite /ingest. destruct (decode_snapshot sn) as [[la xlog]|]; [|done]. cbn [mbind option_bind].
  destruct (negb _ && negb _); [by intros [= <- <-]|]. destruct (set_at i (snapshot_log xlog) _) eqn:Hs; [|done].
  intros _ _. apply set_at_Some in Hs as [Hlt _]. by rewrite (proj1 (si_len _ _ _ Hinv)) in Hlt.
Qed.

(** Restoring a log from one of the snapshots. *)
Lemma ingest_inv n i sn si index cfg snaps :
  snap_inv n cfg snaps → (index, sn) ∈ snaps → (i < n)%nat → si = -1 ∨ si = index →
  ∃ cfg', ingest decode_snapshot i sn si cfg = Some (cfg', None) ∧ snap_inv n cfg' snaps.
Proof.
  intros [[L1 L2] He Hl Hs] Hin Hi Hsi. destruct (Hs index sn Hin) as [Hpos Hdec]. rewrite /ingest Hdec. cbn [mbind option_bind].
  assert (negb (bool_decide (si = -1)) && negb (bool_decide (si = index)) = false) as ->.
  { destruct Hsi as [-> | ->]; [by rewrite bool_decide_true|rewrite (bool_decide_true (index = index)) // andb_false_r //]. }
  rewrite set_at_total; [|lia]. cbn [mbind option_bind]. rewrite set_at_total; [|lia]. cbn [mbind option_bind].
  eexists. split; [done|]. split; simpl; [by rewrite !length_insert| | |done].
  - intros j log k v [(<- & <- & _)|[_ Hj]]%list_lookup_insert_Some; [|by eapply He].
    intros [? ->]%restored_lookup. split; [lia|done].
  - intros j log la [(<- & <- & _)|[Hne Hj]]%list_lookup_insert_Some.
    + rewrite list_lookup_insert_eq; [|lia]. intros [= <-]. split; [done|]. intros k Hk.
      exists (log_entry k). apply restored_lookup. split; [lia|done].
    + rewrite list_lookup_insert_ne //. by apply Hl.
Qed.

(** Taking a command: when it is reported, and what it leaves. *)
Lemma command_spec n i m cfg snaps last :
  snap_inv n cfg snaps → (i < n)%nat → SnapshotValid m = false → CommandValid m = true →
  ap_lastApplied cfg !! i = Some last →
  (is_Some (applierSnap encode_snapshot decode_snapshot i m cfg) ↔
    CommandIndex m = last + 1 ∧ ((∃ j log, ap_logs cfg !! j = Some log ∧ is_Some (log !! CommandIndex m)) →
      Command m = committed (CommandIndex m))) ∧
  (Command m = committed (CommandIndex m) → ∀ cfg' out,
     applierSnap encode_snapshot decode_snapshot i m cfg = Some (cfg', out) → snap_inv n cfg' (option_list out ++ snaps)).
Proof.
  intros Hinv Hi Hsv Hcv Hlast. pose proof Hinv as [[L1 L2] He Hl Hs]. rewrite /applierSnap Hsv Hcv Hlast. cbn [mbind option_bind].
  destruct (lookup_lt_is_Some_2 (ap_logs cfg) i) as [log Hlog]; [lia|]. destruct (Hl i log last Hlog Hlast) as [Hpos Hpre].
  destruct (decide (CommandIndex m = last + 1)) as [Hidx|Hidx].
  2: { rewrite (bool_decide_true (CommandIndex m ≠ last + 1)) //. cbn [mbind option_bind]. rewrite set_at_total; [|lia]. cbn [mbind option_bind ap_logs].
       rewrite Hlog /=. split; [split; [by intros []|tauto]|done]. }
  rewrite (bool_decide_false (CommandIndex m ≠ last + 1)); [|tauto]. rewrite /checkLogs Hlog. cbn [mbind option_bind].
  rewrite set_at_total; [|lia]. cbn [mbind option_bind ap_lastApplied]. rewrite set_at_total; [|lia].
  cbn [mbind option_bind ap_logs]. rewrite list_lookup_insert_eq; [|lia]. cbn [mbind option_bind].
  assert (bool_decide (CommandIndex m > 1) && negb (bool_decide (is_Some (log !! (CommandIndex m - 1)))) = false) as ->.
  { destruct (decide (CommandIndex m > 1)); [|by rewrite bool_decide_false].
    rewrite (bool_decide_true (is_Some _)) ?andb_false_r //. apply Hpre. lia. }
  assert (compare_logs i m (ap_logs cfg) = None ↔
    ((∃ j log, ap_logs cfg !! j = Some log ∧ is_Some (log !! CommandIndex m)) → Command m = committed (CommandIndex m))) as Hcmp.
  { rewrite compare_logs_None. rewrite -(log_entry_pos (CommandIndex m)); [|lia]. split.
    - intros Hall (j & log' & Hj & [old Hold]). rewrite -(Hall j log' old Hj Hold). by apply (He j log' _ _ Hj Hold).
    - intros Hall j log' old Hj Hold. destruct (He j log' _ _ Hj Hold) as [_ ->]. symmetry. apply Hall. eauto. }
  split.
  - destruct (compare_logs i m (ap_logs cfg)) eqn:Ec; simpl.
    + split; [by intros []|]. intros [_ Hall]. by apply Hcmp in Hall.
    + split; [|by eauto]. intros _. split; [done|]. by apply Hcmp.
  - intros Hcmd cfg' out. destruct (compare_logs i m (ap_logs cfg)) eqn:Ec; [done|]. intros [= <- Hout].
    assert (∀ k, 1 ≤ k ≤ CommandIndex m → is_Some (<[CommandIndex m:=Command m]> log !! k)) as Hfull.
    { intros k Hk. destruct (decide (k = CommandIndex m)) as [->|]; [rewrite lookup_insert_eq; eauto|].
      rewrite lookup_insert_ne //. apply Hpre. lia. }
    assert (∀ k v, <[CommandIndex m:=Command m]> log !! k = Some v → 0 ≤ k ∧ v = log_entry k) as Hent.
    { intros k v [[<- <-]|[_ Hk]]%lookup_insert_Some; [|by eapply He]. rewrite log_entry_pos; [|lia]. split; [lia|done]. }
    split; simpl; [by rewrite !length_insert|..].
    + intros j log' k v [(<- & <- & _)|[_ Hj]]%list_lookup_insert_Some; [apply Hent|by eapply He].
    + intros j log' la [(<- & <- & _)|[Hne Hj]]%list_lookup_insert_Some.
      * rewrite list_lookup_insert_eq; [|lia]. intros [= <-]. split; [lia|done].
      * rewrite list_lookup_insert_ne //. by apply Hl.
    + intros index sn [Hin|Hin]%elem_of_app; [|by apply Hs]. subst out.
      case_bool_decide; simpl in Hin; [|by apply elem_of_nil in Hin].
      apply list_elem_of_singleton in Hin as [= -> ->]. split; [lia|]. rewrite decode_encode. do 2 f_equal.
      rewrite /xlog_of. apply list_fmap_ext. intros a b Hab. apply lookup_seq in Hab as [-> Hlt]. simpl.
      destruct (decide (a = 0%nat)) as [->|Ha].
      * change (Z.of_nat 0) with 0. destruct (_ !! 0) as [v|] eqn:Hv; [|done]. simpl. by destruct (Hent 0 v Hv) as [_ ->].
      * destruct (Hfull (Z.of_nat a)) as [v Hv]; [lia|]. rewrite Hv /=. by destruct (Hent _ _ Hv) as [_ ->].
Qed.

Lemma follows_inv n s s' : snap_inv n s.1 s.2 → follows s s' → snap_inv n s'.1 s'.2.
Proof.
  intros Hinv Hf. destruct Hf as [i m last cfg cfg' out snaps Hsv Hcv Hl Hidx Hcmd Hr|i m cfg cfg' out snaps Hsv Hin Hr|
    i sn cfg cfg' snaps Hsn Hr]; simpl in *.
  - destruct (si_len _ _ _ Hinv) as [L1 L2]. pose proof (lookup_lt_Some _ _ _ Hl) as Hi. rewrite L2 in Hi.
    by apply (command_spec n i m cfg snaps last).
  - rewrite /applierSnap Hsv in Hr. destruct (ingest _ i _ _ cfg) as [[c e]|] eqn:Hing; [|done]. cbn [mbind option_bind] in Hr.
    destruct e; [done|]. injection Hr as <- <-. assert (i < n)%nat as Hi by by eapply ingest_lt.
    destruct (ingest_inv n i (Snapshot m) (SnapshotIndex m) (SnapshotIndex m) cfg snaps) as (c' & Hc & Hi'); [auto..|]. congruence.
  - rewrite /restart in Hr. destruct (set_at i 0 _) as [la|] eqn:Hs; [|done]. apply set_at_Some in Hs as [Hlt ->].
    cbn [mbind option_bind] in Hr. destruct (si_len _ _ _ Hinv) as [L1 L2].
    assert (snap_inv n (mkApplied (ap_logs cfg) (<[i := 0]> (ap_lastApplied cfg)) (ap_maxIndex cfg)) snaps) as Hinv0.
    { destruct Hinv as [_ He Hla Hs]. split; simpl; [by rewrite length_insert|done| |done].
      intros j log la Hj [(<- & <- & _)|[_ Hl]]%list_lookup_insert_Some; [split; [done|lia]|by eapply Hla]. }
    case_bool_decide; [|by injection Hr as <-].
    destruct Hsn as [->|[index Hin]]; [done|].
    destruct (ingest_inv n i sn (-1) index _ snaps Hinv0 Hin) as (c' & Hc & Hi'); [lia|auto|].
    rewrite Hc in Hr. cbn [mbind option_bind] in Hr. by injection Hr as <-.
Qed.

Lemma follows_reachable_inv n s : rtc follows (init_applied n, []) s → snap_inv n s.1 s.2.
Proof.
  revert s. refine (rtc_ind_r (λ s, snap_inv n s.1 s.2) _ _ _); [|intros; by eapply follows_inv].
  split; simpl.
  - by rewrite !length_replicate.
  - intros j log k v [-> _]%lookup_replicate. by rewrite lookup_empty.
  - intros j log la _ [-> _]%lookup_replicate. split; [done|lia].
  - intros index sn []%elem_of_nil.
Qed.

(** C19: The readers that take snapshots check against one committed log. While
    Raft hands out the next commands of a log [committed], and snapshots the
    readers took before, also to restarted servers: what a reader has of a log is
    the committed log, without gaps up to what it applied last; every snapshot it
    took restores exactly the committed entries up to its index, and is never
    rejected; and whatever command comes next, it is accepted exactly when its
    index is the next one and, if some server has that log_entry already, it is the
    committed one. *)
Theorem applierSnap_checks_log n cfg snaps i m last :
  rtc follows (init_applied n, []) (cfg, snaps) → (i < n)%nat → ap_lastApplied cfg !! i = Some last →
  (∀ j log k, ap_logs cfg !! j = Some log → (∀ v, log !! k = Some v → v = log_entry k) ∧
     (i = j → 1 ≤ k ≤ last → log !! k = Some (committed k))) ∧
  (∀ index sn, (index, sn) ∈ snaps → ∃ cfg' log',
     applierSnap encode_snapshot decode_snapshot i (mkApplyMsg false None 0 true sn 0 index) cfg = Some (cfg', None) ∧
     ap_logs cfg' !! i = Some log' ∧ ∀ k v, log' !! k = Some v ↔ 0 ≤ k ≤ index ∧ v = log_entry k) ∧
  (SnapshotValid m = false → CommandValid m = true →
     is_Some (applierSnap encode_snapshot decode_snapshot i m cfg) ↔
     CommandIndex m = last + 1 ∧ ((∃ j log, ap_logs cfg !! j = Some log ∧ is_Some (log !! CommandIndex m)) →
       Command m = committed (CommandIndex m))).
Proof.
  intros Hinv%follows_reachable_inv Hi Hlast. simpl in Hinv. pose proof Hinv as [[L1 L2] He Hl Hs]. split_and!.
  - intros j log k Hj. split; [intros v Hv; by apply (He j log k v)|]. intros <- Hk.
    destruct (Hl i log last Hj Hlast) as [_ Hfull]. destruct (Hfull k Hk) as [v Hv].
    destruct (He i log k v Hj Hv) as [_ ->]. rewrite log_entry_pos // in Hv. lia.
  - intros index sn Hin. destruct (Hs index sn Hin) as [_ Hdec]. rewrite /applierSnap /=.
    rewrite /ingest Hdec. cbn [mbind option_bind]. rewrite (bool_decide_true (index = index)) // andb_false_r.
    rewrite set_at_total; [|lia]. cbn [mbind option_bind]. rewrite set_at_total; [|lia]. cbn [mbind option_bind fatal].
    eexists _, _. split; [done|]. simpl. rewrite list_lookup_insert_eq; [|lia]. split; [done|]. apply restored_lookup.
  - intros Hsv Hcv. by apply (command_spec n i m cfg snaps last).
Qed.
End snap.

(** ** An instance: ten commands, and a snapshot of them *)

Section sample.
(** A stand-in for gob: anything countable, in binary digits. *)
Fixpoint digits (p : positive) : string :=
  match p with xH => "" | xO p => String "0" (digits p) | xI p => String "1" (digits p) end.
Fixpoint undigits (s : string) : positive :=
  match s with
  | "" => xH
  | String c s => if bool_decide (c = "0"%char) then xO (undigits s) else xI (undigits s)
  end.

Lemma undigits_digits p : undigits (digits p) = p.
Proof. induction p as [p IH|p IH|]; simpl; [by rewrite IH..|done]. Qed.

Definition sample_encode (index : Z) (xlog : list (option Z)) : string := digits (encode (index, xlog)).
Definition sample_decode (s : string) : option (Z * list (option Z)) := decode (undigits s).

Lemma sample_decode_encode index xlog : sample_decode (sample_encode index xlog) = Some (index, xlog).
Proof. by rewrite /sample_decode /sample_encode undigits_digits decode_encode. Qed.

Definition sample_log (k : Z) : option Z := Some (100 + k).
Definition sample_msg (k : Z) : ApplyMsg Z := mkApplyMsg true (sample_log k) k false "" 0 0.

(** Server 0 applies commands. *)
Definition deliver (k : Z) (s : applied Z * list (Z * string)) : option (applied Z * list (Z * string)) :=
  last ← ap_lastApplied s.1 !! 0%nat;
  if bool_decide (k = last + 1) then
    '(cfg, out) ← applierSnap sample_encode sample_decode 0 (sample_msg k) s.1; Some (cfg, option_list out ++ s.2)
  else None.

Lemma deliver_follows ks s s' :
  foldM deliver ks s = Some s' → rtc (follows sample_encode sample_decode sample_log) s s'.
Proof.
  revert s. induction ks as [|k ks IH]; intros s Hr; simpl in Hr; [by simplify_eq|].
  destruct (deliver k s) as [s1|] eqn:Hd; [|done]. eapply rtc_l; [|by apply IH].
  destruct s as [cfg snaps]. rewrite /deliver /= in Hd. destruct (ap_lastApplied cfg !! 0%nat) as [last|] eqn:Hl; [|done].
  cbn [mbind option_bind] in Hd. case_bool_decide as Hk; [|done].
  destruct (applierSnap _ _ _ _ _) as [[c out]|] eqn:Ha; [|done]. injection Hd as <-.
  by apply (f_command _ _ _ 0%nat (sample_msg k) last).
Qed.

Definition ten : list Z := [1; 2; 3; 4; 5; 6; 7; 8; 9; 10].

Definition sample_state : applied Z * list (Z * string) := default (init_applied 2, []) (foldM deliver ten (init_applied 2, [])).

(** Server 1, which applied nothing, is brought up to date by the snapshot, and
    the reader of server 0 waits for index 11. *)
Lemma applierSnap_checks_log_witness :
  (∃ sn cfg' log', sample_state.2 = [(9, sn)] ∧
     applierSnap sample_encode sample_decode 1 (mkApplyMsg false None 0 true sn 0 9) sample_state.1 = Some (cfg', None) ∧
     ap_logs cfg' !! 1%nat = Some log' ∧ log' !! 7 = Some (Some 107)) ∧
  ¬ is_Some (applierSnap sample_encode sample_decode 1 (mkApplyMsg true (Some 5) 1 false "" 0 0) sample_state.1).
Proof.
  assert (rtc (follows sample_encode sample_decode sample_log) (init_applied 2, []) (sample_state.1, sample_state.2)) as Hf.
  { apply (deliver_follows ten). vm_compute. reflexivity. }
  destruct (applierSnap_checks_log sample_encode sample_decode sample_decode_encode sample_log 2 sample_state.1 sample_state.2 1
    (mkApplyMsg true (Some 5) 1 false "" 0 0) 0 Hf) as (_ & Hsn & Hcmd); [lia|vm_compute; reflexivity|]. split.
  - assert (∃ sn, sample_state.2 = [(9, sn)]) as [sn Esn] by (vm_compute; eauto).
    destruct (Hsn 9 sn) as (cfg' & log' & H1 & H2 & H3); [rewrite Esn; left|].
    exists sn, cfg', log'. split_and!; [exact Esn|exact H1|exact H2|]. apply H3. split; [lia|reflexivity].
  - rewrite Hcmd; [|reflexivity..]. intros [_ Hall]. assert (Some 5 = sample_log 1) as Hc; [|discriminate Hc].
    apply Hall. exists 0%nat. vm_compute. eauto.
Defined.
End sample.
