(* ===== verification/RaftChecks.v ===== *)
(** * The checks of the Raft tests

    Models [one], [wait], [checkOneLeader], [checkTerms] and [checkNoLeader] of
    [raft/config.go]. They look at servers that run concurrently: what the code
    reads is given by a sequence of observations, one for each time it looks, and
    the time that passed since the one before. Durations are in nanoseconds;
    [time.Since(t).Seconds() < s] compares them with [s] seconds. *)
From S2P Require Import Prelude GoBase LabRpc Persister Harness RaftConfig RaftApply.

(** How a check ends: it returns, the test fails ([t.Fatalf]), or the code panics. *)
Inductive CheckOutcome A := Returns (a : A) | Fails | Panics | OutOfFuel.
Arguments Returns {A} a.
Arguments Fails {A}.
Arguments Panics {A}.
Arguments OutOfFuel {A}.

Definition second : Z := 1000000000.
Definition millisecond : Z := 1000000.

Section checks.
Context {Cmd : Type} `{EqDecision Cmd}.

Record Obs := mkObs {
  ob_delay : nat;                        (* nanoseconds since the observation before *)
  ob_finished : bool;
  ob_connected : list bool;
  ob_rafts : list (option nat);
  ob_start : nat → Z * Z * bool;         (* what [Start] of an instance returns *)
  ob_state : option nat → Z * bool;      (* what [GetState] returns *)
  ob_applied : applied Cmd;
}.

Variable env : nat → Obs.

(** The code has made [k] observations and it is [t]. *)
Record Clock := mkClock { tick : nat; now : Z }.

Definition look (c : Clock) : Obs * Clock :=
  (env (tick c), mkClock (S (tick c)) (now c + Z.of_nat (ob_delay (env (tick c))))).
Definition Sleep (d : Z) (c : Clock) : Clock := mkClock (tick c) (now c + d).

(** ** one *)

(** [for si := 0; si < cfg.n; si++ { ... }]: the index a server that claims to be
    the leader gave the command, and [starts]. [None] is an index out of range. *)
Fixpoint try_servers (n : nat) (si : nat) (starts : nat) (c : Clock) : option (Z * nat * Clock) :=
  match si with
  | O => Some (-1, starts, c)
  | S si =>
      let starts := ((starts + 1) mod n)%nat in
      let '(w, c) := look c in
      connected ← ob_connected w !! starts;
      rf ← if (connected : bool) then ob_rafts w !! starts else Some None;
      match rf with
      | Some o =>
          let '(index1, _, ok) := ob_start w o in
          if (ok : bool) then Some (index1, starts, c) else try_servers n si starts c
      | None => try_servers n si starts c
      end
  end.

Inductive WaitRes := Agreed | TimedOut | WaitFails | WaitFuel.

(** [for time.Since(t1).Seconds() < 2 { ... }] *)
Fixpoint await (fuel : nat) (t1 : Z) (cmd : option Cmd) (index expectedServers : Z) (c : Clock) : WaitRes * Clock :=
  match fuel with
  | O => (WaitFuel, c)
  | S fuel =>
      if bool_decide (now c - t1 < 2 * second) then
        let '(w, c) := look c in
        match nCommitted index (ob_applied w) with
        | None => (WaitFails, c)
        | Some (nd, cmd1) =>
            if bool_decide (nd > 0) && bool_decide (nd >= expectedServers) && bool_decide (cmd1 = cmd) then (Agreed, c)
            else await fuel t1 cmd index expectedServers (Sleep (20 * millisecond) c)
        end
      else (TimedOut, c)
  end.

Definition await_rounds : nat := 101.

Fixpoint one_loop (fuel : nat) (t0 : Z) (n : nat) (cmd : option Cmd) (expectedServers : Z) (retry : bool)
    (starts : nat) (c : Clock) : CheckOutcome Z :=
  match fuel with
  | O => OutOfFuel
  | S fuel =>
      let '(w, c1) := look c in
      if bool_decide (now c - t0 < 10 * second) && negb (ob_finished w) then
        (* try all the servers, maybe one is the leader. *)
        match try_servers n n starts c1 with
        | None => Panics
        | Some (index, starts, c2) =>
            if bool_decide (index ≠ -1) then
              (* wait a while for agreement. *)
              match await await_rounds (now c2) cmd index expectedServers c2 with
              | (Agreed, _) => Returns index
              | (WaitFails, _) => Fails
              | (WaitFuel, _) => OutOfFuel
              | (TimedOut, c3) =>
                  if retry then one_loop fuel t0 n cmd expectedServers retry starts c3 else Fails
              end
            else one_loop fuel t0 n cmd expectedServers retry starts (Sleep (50 * millisecond) c2)
        end
      else if negb (ob_finished (look c1).1) then Fails else Returns (-1)
  end.

Definition one_rounds : nat := 201.

Definition one (n : nat) (cmd : option Cmd) (expectedServers : Z) (retry : bool) (c : Clock) : CheckOutcome Z :=
  one_loop one_rounds (now c) n cmd expectedServers retry 0 c.

(** ** wait *)

(** [for _, r := range cfg.rafts { if t, _ := r.GetState(); t > startTerm { return -1 } }] *)
Fixpoint moved_on (startTerm : Z) (i len : nat) (c : Clock) : bool * Clock :=
  match len with
  | O => (false, c)
  | S len =>
      let '(w, c) := look c in
      let '(t, _) := ob_state w (default None (ob_rafts w !! i)) in
      if bool_decide (t > startTerm) then (true, c) else moved_on startTerm (S i) len c
  end.

(** The result of [wait]: a command, or -1. *)
Inductive Waited := WCmd (cmd : option Cmd) | WMovedOn.

Definition wait_end (index n : Z) (c : Clock) : CheckOutcome Waited :=
  match nCommitted index (ob_applied (look c).1) with
  | None => Fails
  | Some (nd, cmd) => if bool_decide (nd < n) then Fails else Returns (WCmd cmd)
  end.

Fixpoint wait_loop (iters : nat) (to : Z) (index n startTerm : Z) (servers : nat) (c : Clock) : CheckOutcome Waited :=
  match iters with
  | O => wait_end index n c
  | S iters =>
      let '(w, c1) := look c in
      match nCommitted index (ob_applied w) with
      | None => Fails
      | Some (nd, _) =>
          if bool_decide (nd >= n) then wait_end index n c1 else
          let c2 := Sleep to c1 in
          let to := if bool_decide (to < second) then to * 2 else to in
          if bool_decide (startTerm > -1) then
            let '(moved, c3) := moved_on startTerm 0 servers c2 in
            if moved then Returns WMovedOn else wait_loop iters to index n startTerm servers c3
          else wait_loop iters to index n startTerm servers c2
      end
  end.

Definition wait (index n startTerm : Z) (servers : nat) (c : Clock) : CheckOutcome Waited :=
  wait_loop 30 (10 * millisecond) index n startTerm servers c.

(** ** Leaders and terms *)

(** The servers that are connected, with what each says when it is asked. *)
Fixpoint ask (n : nat) (i : nat) (c : Clock) : option (list (nat * (Z * bool)) * Clock) :=
  match n with
  | O => Some ([], c)
  | S n =>
      let '(w, c) := look c in
      connected ← ob_connected w !! i;
      answer ← if (connected : bool) then rf ← ob_rafts w !! i; Some [(i, ob_state w rf)] else Some [];
      '(rest, c) ← ask n (S i) c;
      Some (answer ++ rest, c)
  end.

(** [leaders[term] = append(leaders[term], i)] *)
Definition leaders_of (answers : list (nat * (Z * bool))) : gmap Z (list nat) :=
  foldl (λ leaders '(i, (term, leader)),
    if (leader : bool) then <[term := default [] (leaders !! term) ++ [i]]> leaders else leaders) ∅ answers.

(** A loop over the map, in any order: more than one leader of a term is fatal. *)
Definition last_term (leaders : gmap Z (list nat)) : option Z :=
  if bool_decide (map_Forall (λ _ js, (length js ≤ 1)%nat) leaders)
  then Some (foldr (λ x lastTerm, if bool_decide (x.1 > lastTerm) then x.1 else lastTerm) (-1) (map_to_list leaders))
  else None.

(** [ms] are the random milliseconds to sleep. *)
Fixpoint checkOneLeader (iters : list Z) (n : nat) (c : Clock) : CheckOutcome nat :=
  match iters with
  | [] => Fails
  | ms :: iters =>
      let c := Sleep ((450 + ms mod 100) * millisecond) c in
      match ask n 0 c with
      | None => Panics
      | Some (answers, c) =>
          let leaders := leaders_of answers in
          match last_term leaders with
          | None => Fails
          | Some lastTermWithLeader =>
              if bool_decide (leaders ≠ ∅) then
                match leaders !! lastTermWithLeader with
                | Some (i :: _) => Returns i
                | _ => Panics
                end
              else checkOneLeader iters n c
          end
      end
  end.

Definition checkTerms (n : nat) (c : Clock) : CheckOutcome Z :=
  match ask n 0 c with
  | None => Panics
  | Some (answers, _) =>
      match foldM (λ '(_, (xterm, _)) term,
        if bool_decide (term = -1) then Some xterm else if bool_decide (term ≠ xterm) then None else Some term) answers (-1) with
      | None => Fails
      | Some term => Returns term
      end
  end.

Definition checkNoLeader (n : nat) (c : Clock) : CheckOutcome () :=
  match ask n 0 c with
  | None => Panics
  | Some (answers, _) => if existsb (λ x, x.2.2) answers then Fails else Returns ()
  end.
End checks.
Arguments Obs : clear implicits.

(** ** Reporting *)

Definition checkTimeout (failed : bool) (start now : Z) : bool := negb (negb failed && bool_decide (now - start > 120 * second)).

(** What [begin] remembers and [end] prints. *)
Record Stats := mkStats { t0 : Z; rpcs0 : Z; bytes0 : Z; cmds0 : Z; maxIndex0 : Z }.

Definition begin {Cmd} (now maxIndex : Z) (cfg : rcfg Cmd) : Stats :=
  mkStats now (rpcTotal cfg) (bytesTotal cfg) 0 maxIndex.

(** Time, peers, RPCs, bytes, commands; [None] when the test failed. *)
Definition end_ {Cmd} (failed : bool) (start now maxIndex : Z) (st : Stats) (cfg : rcfg Cmd) : option (Z * nat * Z * Z * Z) :=
  if checkTimeout failed start now && negb failed
  then Some (now - t0 st, rc_n cfg, rpcTotal cfg - rpcs0 st, bytesTotal cfg - bytes0 st, maxIndex - maxIndex0 st)
  else None.

(** ** The servers of this repository *)

(** [GetState] and [Start] of [raft.go], to be written by students. *)
Definition stub_GetState (rf : option nat) : Z * bool := (0, false).
Definition stub_Start (rf : nat) : Z * Z * bool := (-1, -1, true).
