(* ===== verification/RaftChecksThm.v ===== *)
(** * What the checks of the Raft tests establish *)
From S2P Require Import Prelude GoBase LabRpc Persister Harness RaftConfig RaftApply RaftChecks.

Section thm.
Context {Cmd : Type} `{EqDecision Cmd}.
Variable env : nat → Obs Cmd.
Implicit Types (c : Clock) (cmd : option Cmd) (a : applied Cmd).

(** ** nCommitted *)

(** The servers that have [cmd] at [index]. *)
Definition have (index : Z) cmd a : nat := length (filter (λ log, log !! index = Some cmd) (ap_logs a)).

Definition counted (index : Z) (logs : list (gmap Z (option Cmd))) (r : Z * option Cmd) : Prop :=
  (r.1 = 0 ∧ ∀ log, log ∈ logs → log !! index = None) ∨
  (0 < r.1 ∧ r.1 = Z.of_nat (length (filter (λ log, log !! index = Some r.2) logs)) ∧
   ∀ log v, log ∈ logs → log !! index = Some v → v = r.2).

Lemma filter_snoc_length (index : Z) cmd (logs : list (gmap Z (option Cmd))) log :
  length (filter (λ log, log !! index = Some cmd) (logs ++ [log])) =
  (length (filter (λ log, log !! index = Some cmd) logs) + if decide (log !! index = Some cmd) then 1 else 0)%nat.
Proof. rewrite filter_app length_app. f_equal. rewrite filter_cons. by case_decide. Qed.

Lemma filter_nothing (index : Z) cmd (logs : list (gmap Z (option Cmd))) :
  (∀ log, log ∈ logs → log !! index = None) → length (filter (λ log, log !! index = Some cmd) logs) = 0%nat.
Proof.
  induction logs as [|log logs IH]; intros Hn; [done|]. rewrite filter_cons decide_False; [|by rewrite Hn //; left].
  apply IH. intros log' Hl. apply Hn. by right.
Qed.

Lemma nCommitted_counted index a r : nCommitted index a = Some r → counted index (ap_logs a) r.
Proof.
  rewrite /nCommitted. apply foldM_inv; [|left; split; [done|intros log []%elem_of_nil]].
  intros logs log [count cmd] r' Hc Hr _. rewrite /counted /= in Hc. destruct (log !! index) as [cmd1|] eqn:Hlog.
  - destruct (bool_decide (count > 0) && bool_decide (cmd ≠ cmd1)) eqn:Hb; [done|]. injection Hr as <-. right. simpl.
    destruct Hc as [[-> Hno]|(Hpos & Hcount & Hall)]; simpl in *.
    + split_and!; [done|rewrite filter_snoc_length filter_nothing // decide_True //|].
      intros log' v [Hl| ->%list_elem_of_singleton]%elem_of_app; [by rewrite Hno|congruence].
    + apply andb_false_iff in Hb as [Hb|Hb]; [rewrite bool_decide_true in Hb; [done|lia]|].
      apply bool_decide_eq_false, dec_stable in Hb. subst cmd1. split_and!; [lia|rewrite filter_snoc_length decide_True //; lia|].
      intros log' v [Hl| ->%list_elem_of_singleton]%elem_of_app; [by apply Hall|congruence].
  - injection Hr as <-. destruct Hc as [[-> Hno]|(Hpos & Hcount & Hall)]; simpl in *.
    + left. split; [done|]. intros log' [Hl| ->%list_elem_of_singleton]%elem_of_app; auto.
    + right. simpl. split_and!; [done|rewrite filter_snoc_length decide_False; [lia|congruence]|].
      intros log' v [Hl| ->%list_elem_of_singleton]%elem_of_app; [by apply Hall|congruence].
Qed.

(** At least [n] servers have applied [cmd] at [index], and none another command. *)
Definition agreed (index n : Z) cmd a : Prop :=
  n ≤ Z.of_nat (have index cmd a) ∧ ∀ log v, log ∈ ap_logs a → log !! index = Some v → v = cmd.

Lemma nCommitted_agreed index n a nd cmd :
  nCommitted index a = Some (nd, cmd) → 0 < nd → n ≤ nd → agreed index n cmd a.
Proof.
  intros [[Hz _]|(_ & Hc & Hall)]%nCommitted_counted Hpos Hn; simpl in *; [lia|]. split; [|done]. rewrite /have. lia.
Qed.

(** ** one *)

Lemma try_servers_now n si starts c index starts' c' :
  try_servers env n si starts c = Some (index, starts', c') → now c ≤ now c'.
Proof.
  revert starts c. induction si as [|si IH]; intros starts c; simpl; [by intros [= <- <- <-]|].
  destruct (ob_connected _ !! _) as [b|]; [|done]. cbn [mbind option_bind].
  destruct (if b then _ else _) as [[o|]|]; [| |done]; cbn [mbind option_bind].
  - destruct (ob_start _ o) as [[index1 t] []]; [intros [= <- <- <-]|intros Hc%IH]; simpl in *; lia.
  - intros Hc%IH. simpl in *. lia.
Qed.

(** [Start] of a connected server claimed to have given the command an index. *)
Lemma try_servers_start n si starts c index starts' c' :
  try_servers env n si starts c = Some (index, starts', c') → index ≠ -1 →
  ∃ k j o t, ob_connected (env k) !! j = Some true ∧ ob_rafts (env k) !! j = Some (Some o) ∧
    ob_start (env k) o = (index, t, true).
Proof.
  intros Hr Hne. revert starts c Hr. induction si as [|si IH]; intros starts c; simpl; [by intros [= <- <- <-]|].
  destruct (ob_connected _ !! _) as [[]|] eqn:Hc; [| |done]; cbn [mbind option_bind]; [|apply IH].
  destruct (ob_rafts _ !! _) as [[o|]|] eqn:Hr; [| |done]; cbn [mbind option_bind]; [|apply IH].
  destruct (ob_start _ o) as [[index1 t] []] eqn:Hs; [|apply IH]. intros [= <- <- <-]. eauto 10.
Qed.

Lemma await_time fuel t1 cmd index n c :
  now c - t1 >= 20 * millisecond * (Z.of_nat await_rounds - Z.of_nat fuel) →
  (fuel ≤ await_rounds)%nat → (0 < fuel)%nat →
  match await env fuel t1 cmd index n c with
  | (WaitFuel, _) => False
  | (TimedOut, c') => now c' - t1 >= 2 * second
  | (Agreed, _) => ∃ k, agreed index n cmd (ob_applied (env k))
  | (WaitFails, _) => True
  end.
Proof.
  revert c. induction fuel as [|fuel IH]; intros c Hc Hle Hpos; [lia|]. cbn [await].
  case_bool_decide as Ht; [|simpl; lia]. simpl.
  destruct (nCommitted index _) as [[nd cmd1]|] eqn:Hn; [|done].
  destruct (bool_decide (nd > 0) && bool_decide (nd >= n) && bool_decide (cmd1 = cmd)) eqn:Hb.
  - apply andb_true_iff in Hb as [[H1%bool_decide_eq_true H2%bool_decide_eq_true]%andb_true_iff ->%bool_decide_eq_true].
    exists (tick c). eapply nCommitted_agreed; [done|lia|lia].
  - destruct fuel as [|fuel].
    + exfalso. rewrite /await_rounds /millisecond /second in Hc Ht. simpl in Hc. lia.
    + apply IH; [|lia|lia]. simpl. rewrite /millisecond in Hc |- *. lia.
Qed.

Lemma one_loop_spec fuel t0 n cmd expected retry starts c :
  now c - t0 >= 50 * millisecond * (Z.of_nat one_rounds - Z.of_nat fuel) → (fuel ≤ one_rounds)%nat → (0 < fuel)%nat →
  match one_loop env fuel t0 n cmd expected retry starts c with
  | OutOfFuel => False
  | Returns index =>
      (index = -1 ∧ ∃ k, ob_finished (env k) = true) ∨
      (index ≠ -1 ∧ (∃ k, agreed index expected cmd (ob_applied (env k))) ∧
       ∃ k j o t, ob_connected (env k) !! j = Some true ∧ ob_rafts (env k) !! j = Some (Some o) ∧
         ob_start (env k) o = (index, t, true))
  | _ => True
  end.
Proof.
  revert starts c. induction fuel as [|fuel IH]; intros starts c Hc Hle Hpos; [lia|]. cbn [one_loop look].
  destruct (bool_decide (now c - t0 < 10 * second) && _) eqn:Hb.
  2: { simpl. destruct (ob_finished (env (S (tick c)))) eqn:Hf; simpl; [|done]. left. eauto. }
  apply andb_true_iff in Hb as [Ht%bool_decide_eq_true _].
  assert (0 < fuel)%nat as Hf.
  { destruct fuel; [|lia]. rewrite /one_rounds /millisecond /second in Hc Ht. lia. }
  destruct (try_servers _ _ _ _ _) as [[[index starts'] c2]|] eqn:Htry; [|done].
  pose proof (try_servers_now _ _ _ _ _ _ _ Htry) as Hnow. simpl in Hnow.
  case_bool_decide as Hidx.
  - pose proof (await_time await_rounds (now c2) cmd index expected c2) as Hw.
    destruct (await _ _ _ _ _ _ _) as [[] c3].
    + right. split_and!; [done|apply Hw; rewrite /await_rounds; lia|by eapply try_servers_start].
    + destruct retry; [|done]. apply IH; [|lia|done].
      assert (now c3 - now c2 >= 2 * second) as Ht3 by (apply Hw; rewrite /await_rounds; lia).
      rewrite /millisecond /second in Hc Ht3 |- *. lia.
    + done.
    + exfalso. apply Hw; rewrite /await_rounds; lia.
  - apply IH; [|lia|done]. simpl. rewrite /millisecond in Hc |- *. lia.
Qed.


(** ** wait *)

Lemma wait_end_spec index n c cmd : 0 < n → wait_end env index n c = Returns (WCmd cmd) → ∃ k, agreed index n cmd (ob_applied (env k)).
Proof.
  intros Hn. rewrite /wait_end. destruct (nCommitted index _) as [[nd cmd']|] eqn:Hc; [|done]. case_bool_decide; [done|].
  intros [= <-]. exists (tick c). eapply nCommitted_agreed; [done|lia|lia].
Qed.

Lemma wait_agreement iters to index n startTerm servers c cmd :
  0 < n → wait_loop env iters to index n startTerm servers c = Returns (WCmd cmd) → ∃ k, agreed index n cmd (ob_applied (env k)).
Proof.
  intros Hn. revert to c. induction iters as [|iters IH]; intros to c; cbn [wait_loop look]; [by apply wait_end_spec|].
  destruct (nCommitted index _) as [[nd cmd']|]; [|done]. case_bool_decide; [by apply wait_end_spec|].
  case_bool_decide; [|apply IH]. destruct (moved_on _ _ _ _ _) as [[] c3]; [done|apply IH].
Qed.

(** ** Leaders *)

Implicit Types (answers : list (nat * (Z * bool))).

(** The servers that said to lead term [t]. *)
Lemma leaders_of_spec answers t j :
  j ∈ default [] (leaders_of answers !! t) ↔ (j, (t, true)) ∈ answers.
Proof.
  induction answers as [|[i [t' b]] answers IH] using rev_ind.
  { rewrite /leaders_of /= lookup_empty. simpl. rewrite !elem_of_nil. done. }
  rewrite /leaders_of foldl_app /= elem_of_app list_elem_of_singleton -IH. change (foldl _ ∅ answers) with (leaders_of answers).
  destruct b; [|naive_solver]. destruct (decide (t = t')) as [->|Ht].
  - rewrite lookup_insert_eq /= elem_of_app list_elem_of_singleton. naive_solver.
  - rewrite lookup_insert_ne //. naive_solver.
Qed.

Lemma leaders_of_nonempty answers t js : leaders_of answers !! t = Some js → js ≠ [].
Proof.
  revert js. induction answers as [|[i [t' b]] answers IH] using rev_ind; intros js; [done|].
  rewrite /leaders_of foldl_app /=. change (foldl _ ∅ answers) with (leaders_of answers). destruct b; [|apply IH].
  intros [[_ <-]|[_ Ht]]%lookup_insert_Some; [by destruct (default [] _)|by apply IH].
Qed.

Lemma last_term_spec (leaders : gmap Z (list nat)) r :
  last_term leaders = Some r →
  (∀ t js, leaders !! t = Some js → t ≤ r ∧ (length js ≤ 1)%nat) ∧ (r = -1 ∨ is_Some (leaders !! r)).
Proof.
  rewrite /last_term. case_bool_decide as Hall; [|done]. intros [= <-].
  set (g := λ (x : Z * list nat) lastTerm, _).
  assert (∀ l, (∀ x, x ∈ l → x.1 ≤ foldr g (-1) l) ∧ (foldr g (-1) l = -1 ∨ ∃ x, x ∈ l ∧ x.1 = foldr g (-1) l)) as Hg.
  { induction l as [|x l [IH1 IH2]]; cbn [foldr]; [split; [by intros x []%elem_of_nil|by left]|].
    assert (∀ r, g x r = if bool_decide (x.1 > r) then x.1 else r) as -> by done.
    case_bool_decide as Hx.
    - split; [|right; exists x; split; [left|done]]. intros y [->|Hy]%elem_of_cons; [done|]. specialize (IH1 y Hy). lia.
    - split; [|destruct IH2 as [?|(y & ? & ?)]; [by left|right; exists y; split; [by right|done]]].
      intros y [->|Hy]%elem_of_cons; [lia|by apply IH1]. }
  destruct (Hg (map_to_list leaders)) as [H1 H2]. split.
  - intros t js Ht. split; [|by apply (Hall t)]. by apply (H1 (t, js)), elem_of_map_to_list.
  - destruct H2 as [->|([t js] & Ht%elem_of_map_to_list & <-)]; [by left|right; simpl; eauto].
Qed.

(** Who is asked: the connected servers, once each. *)
Lemma ask_spec n i c answers c' :
  ask env n i c = Some (answers, c') →
  ∀ j s, (j, s) ∈ answers ↔ (i ≤ j < i + n)%nat ∧ ∃ rf, let w := env (tick c + (j - i))%nat in
    ob_connected w !! j = Some true ∧ ob_rafts w !! j = Some rf ∧ s = ob_state w rf.
Proof.
  revert i c answers. induction n as [|n IH]; intros i c answers; simpl.
  { intros [= <- <-] j s. rewrite elem_of_nil. split; [done|]. intros [? _]. lia. }
  destruct (ob_connected _ !! i) as [b|] eqn:Hc; [|done]. cbn [mbind option_bind].
  destruct (if b then _ else _) as [ans|] eqn:Ha; [|done]. cbn [mbind option_bind].
  destruct (ask env n (S i) _) as [[rest c2]|] eqn:Hr; [|done]. intros [= <- <-] j s.
  rewrite elem_of_app (IH _ _ _ Hr). simpl.
  assert ((j, s) ∈ ans ↔ j = i ∧ ∃ rf, ob_connected (env (tick c)) !! i = Some true ∧
    ob_rafts (env (tick c)) !! i = Some rf ∧ s = ob_state (env (tick c)) rf) as ->.
  { rewrite Hc. destruct b; [|injection Ha as <-; rewrite elem_of_nil; split; [done|by intros [_ (rf & ? & _)]]].
    destruct (ob_rafts _ !! i) as [rf|]; [|done]. injection Ha as <-. rewrite list_elem_of_singleton. split.
    - intros [= -> ->]. eauto.
    - by intros [-> (rf' & _ & [= <-] & ->)]. }
  destruct (decide (j = i)) as [->|Hj].
  - replace (tick c + (i - i))%nat with (tick c) by lia. split; [|intros [_ (rf & ?)]; left; eauto].
    intros [[_ (rf & ?)]|[? _]]; [split; [lia|eauto]|lia].
  - assert (i < j → tick c + (j - i) = S (tick c + (j - S i)))%nat as E by lia.
    split; [intros [[? _]|[? H]]; [done|]|intros [? H]; right]; (split; [lia|]).
    + by rewrite E; [|lia].
    + by rewrite E in H; [|lia].
Qed.
(** Server [j] was connected and said to lead term [t] when it was asked in the
    round that began with look [k]. *)
Definition claims_lead (k j : nat) (t : Z) : Prop :=
  ∃ rf, ob_connected (env (k + j)%nat) !! j = Some true ∧ ob_rafts (env (k + j)%nat) !! j = Some rf ∧
    ob_state (env (k + j)%nat) rf = (t, true).

Lemma ask_claims n c answers c' j t :
  ask env n 0 c = Some (answers, c') → (j, (t, true)) ∈ answers ↔ (j < n)%nat ∧ claims_lead (tick c) j t.
Proof.
  intros Hask. rewrite (ask_spec _ _ _ _ _ Hask) /claims_lead /= Nat.sub_0_r. split.
  - intros [? (rf & ? & ? & ?)]. split; [lia|eauto].
  - intros [? (rf & ? & ? & ?)]. split; [lia|eauto].
Qed.

(** C27: When [checkOneLeader] returns a server, there was a round in which it
    asked every connected server, one after the other, and in which that server
    said it was the leader of some term, no other one said so of the same term,
    and none said to be the leader of a later term. *)
Theorem checkOneLeader_unique iters n c i :
  checkOneLeader env iters n c = Returns i →
  ∃ k t, (i < n)%nat ∧ claims_lead k i t ∧ ∀ j t', (j < n)%nat → claims_lead k j t' → t' ≤ t ∧ (t' = t → j = i).
Proof.
  revert c. induction iters as [|ms iters IH]; intros c; simpl; [done|]. set (c0 := Sleep _ c).
  destruct (ask env n 0 c0) as [[answers c2]|] eqn:Hask; [|done].
  destruct (last_term (leaders_of answers)) as [r|] eqn:Hl; [|done]. case_bool_decide; [|apply IH].
  destruct (leaders_of answers !! r) as [[|i' js]|] eqn:Hr; [done| |done]. intros [= ->].
  apply last_term_spec in Hl as [Hmax _]. exists (tick c0), r.
  assert ((i, (r, true)) ∈ answers) as Hi by (apply leaders_of_spec; rewrite Hr; left).
  apply (ask_claims _ _ _ _ _ _ Hask) in Hi as [Hin Hi]. split_and!; [done..|].
  intros j t' Hjn Hj. assert ((j, (t', true)) ∈ answers) as Ha by by apply (ask_claims _ _ _ _ _ _ Hask).
  apply leaders_of_spec in Ha. destruct (leaders_of answers !! t') as [js'|] eqn:Ht'; [|by apply elem_of_nil in Ha].
  destruct (Hmax t' js' Ht') as [? _]. split; [done|]. intros ->. rewrite Hr in Ht'. injection Ht' as <-.
  destruct (Hmax r _ Hr) as [_ Hlen]. destruct js; simpl in Hlen; [|lia]. by apply list_elem_of_singleton in Ha.
Qed.
End thm.

(** Three servers; server 1 leads term 2, server 2 still thinks it leads term 1. *)
Definition sample_obs : Obs Z :=
  mkObs 1 false [true; true; true] [Some 0%nat; Some 1%nat; Some 2%nat] (λ o, (1, 2, bool_decide (o = 1%nat)))
    (λ rf, if bool_decide (rf = Some 1%nat) then (2, true) else (1, bool_decide (rf = Some 2%nat)))
    (mkApplied [{[1 := Some 7]}; {[1 := Some 7]}; ∅] [1; 1; 0] 1).

Lemma checkOneLeader_unique_witness :
  ∃ k t, (1 < 3)%nat ∧ claims_lead (λ _, sample_obs) k 1 t ∧
    ∀ j t', (j < 3)%nat → claims_lead (λ _, sample_obs) k j t' → t' ≤ t ∧ (t' = t → j = 1%nat).
Proof. apply (checkOneLeader_unique (λ _, sample_obs) [17; 4] 3 (mkClock 0 0)). vm_compute. reflexivity. Defined.

(** And [one] returns with agreement of two servers. *)
Example one_returns : one (λ _, sample_obs) 3 (Some 7) 2 true (mkClock 0 0) = Returns 1.
Proof. vm_compute. reflexivity. Qed.

(** With the servers of this repository it cannot: [Start] gives no index. *)
Example one_stub_fails :
  one (λ _, mkObs 0 false [true] [Some 0%nat] stub_Start stub_GetState (init_applied (Cmd := Z) 1)) 1 (Some 7) 1 true (mkClock 0 0) = Fails.
Proof. vm_compute. reflexivity. Qed.
