(* ===== verification/KvConfig.v ===== *)
(** * The test configuration of replicated services

    Models [kvraft/config.go] and [shardctrler/config.go], which are the same
    code for two kinds of server, with the servers of [kvraft/server.go] and
    [shardctrler/server.go] as far as they are written in this repository. The
    common part is a section over the kind of server; the modules at the end are
    its instances. [w] lists saves by instances of servers that happen while the
    configuration does not hold its lock. *)
From S2P Require Import Prelude GoBase LabRpc Persister Harness RaftConfig.

(** ** Lists *)

(** [for i := range sa { j := rand.Intn(i + 1); sa[i], sa[j] = sa[j], sa[i] }]
    with the random numbers [js]; [None] is a number out of range. *)
Definition random_handles {A} (js : list nat) (kvh : list A) : option (list A) :=
  foldM (λ i sa,
    j ← js !! i;
    x ← sa !! i; y ← sa !! j;
    if bool_decide (j ≤ i)%nat then Some (<[j := x]> (<[i := y]> sa)) else None)
  (seq 0 (length kvh)) kvh.

(** [make_partition] after the leader is known; [None] is [p2[-1]]. *)
Definition split_servers (n l : nat) : option (list nat * list nat) :=
  let len1 := (n / 2 + 1)%nat in
  let len2 := (n / 2)%nat in
  '(p1, p2, _) ← foldM (λ i '(p1, p2, j),
     if bool_decide (i ≠ l) then
       if bool_decide (j < length p1)%nat then p1 ← set_at j i p1; Some (p1, p2, S j)
       else p2 ← set_at (j - length p1) i p2; Some (p1, p2, S j)
     else Some (p1, p2, j)) (seq 0 n) (replicate len1 0%nat, replicate len2 0%nat, 0%nat);
  if bool_decide (len2 = 0%nat) then None else
  p2 ← set_at (len2 - 1) l p2;
  Some (p1, p2).

(** ** Kinds of server *)

(** What the configuration needs of a kind of server: its Raft object, how it is
    started with ends, an index and a persister, and how it is killed. *)
Class ServerKind (Srv : Type) := {
  srv_rf : Srv → Raft;
  srv_Start : list string → nat → nat → Srv;
  srv_Kill : Srv → Srv;
  srv_rf_Start : ∀ names i q, srv_rf (srv_Start names i q) = Raft_Make names i q;
  srv_rf_Kill : ∀ s, srv_rf (srv_Kill s) = Raft_Kill (srv_rf s);
}.

Section config.
Context {Srv : Type} `{!ServerKind Srv}.

Record kcfg := mkKC {
  k_net : Network (Name := NetName);
  k_n : nat;
  k_servers : list (option nat);
  k_saved : list (option nat);
  k_endnames : list (option (list string));
  k_clerks : gmap nat (list string);
  k_nextClientId : Z;
  k_insts : gmap nat Srv;
  k_ps : PState;
}.

Definition k_set_net (rn : Network) (cfg : kcfg) : kcfg :=
  mkKC rn (k_n cfg) (k_servers cfg) (k_saved cfg) (k_endnames cfg) (k_clerks cfg) (k_nextClientId cfg) (k_insts cfg) (k_ps cfg).
Definition k_set_saved (l : list (option nat)) (ps : PState) (cfg : kcfg) : kcfg :=
  mkKC (k_net cfg) (k_n cfg) (k_servers cfg) l (k_endnames cfg) (k_clerks cfg) (k_nextClientId cfg) (k_insts cfg) ps.
Definition k_set_servers (l : list (option nat)) (insts : gmap nat Srv) (cfg : kcfg) : kcfg :=
  mkKC (k_net cfg) (k_n cfg) l (k_saved cfg) (k_endnames cfg) (k_clerks cfg) (k_nextClientId cfg) insts (k_ps cfg).
Definition k_set_endnames (l : list (option (list string))) (cfg : kcfg) : kcfg :=
  mkKC (k_net cfg) (k_n cfg) (k_servers cfg) (k_saved cfg) l (k_clerks cfg) (k_nextClientId cfg) (k_insts cfg) (k_ps cfg).
Definition k_set_clerks (cl : gmap nat (list string)) (id : Z) (cfg : kcfg) : kcfg :=
  mkKC (k_net cfg) (k_n cfg) (k_servers cfg) (k_saved cfg) (k_endnames cfg) cl id (k_insts cfg) (k_ps cfg).

(** ** Connections between servers *)

Definition k_end (cfg : kcfg) (i j : nat) : option string := ns ← mjoin (k_endnames cfg !! i); ns !! j.

Definition connectUnlocked (i : nat) (to : list nat) (cfg : kcfg) : option kcfg :=
  (* outgoing socket files *)
  rn ← toggle_loop (λ j, t ← to !! j; endname ← k_end cfg i t; Some (Some (inl endname))) true (seq 0 (length to)) (k_net cfg);
  (* incoming socket files *)
  rn ← toggle_loop (λ j, t ← to !! j; endname ← k_end cfg t i; Some (Some (inl endname))) true (seq 0 (length to)) rn;
  Some (k_set_net rn cfg).

(** The second loop looks at row [j] before it uses row [from[j]]. *)
Definition disconnectUnlocked (i : nat) (from : list nat) (cfg : kcfg) : option kcfg :=
  (* outgoing socket files *)
  rn ← toggle_loop (λ j, row ← k_endnames cfg !! i;
         match row with
         | Some _ => f ← from !! j; endname ← k_end cfg i f; Some (Some (inl endname))
         | None => Some None
         end) false (seq 0 (length from)) (k_net cfg);
  (* incoming socket files *)
  rn ← toggle_loop (λ j, row ← k_endnames cfg !! j;
         match row with
         | Some _ => f ← from !! j; endname ← k_end cfg f i; Some (Some (inl endname))
         | None => Some None
         end) false (seq 0 (length from)) rn;
  Some (k_set_net rn cfg).

Definition All (cfg : kcfg) : list nat := seq 0 (k_n cfg).

Definition ConnectAll (cfg : kcfg) : option kcfg :=
  foldM (λ i cfg, connectUnlocked i (All cfg) cfg) (seq 0 (k_n cfg)) cfg.

Definition partition (p1 p2 : list nat) (cfg : kcfg) : option kcfg :=
  cfg ← foldM (λ i cfg, cfg ← disconnectUnlocked i p2 cfg; connectUnlocked i p1 cfg) p1 cfg;
  foldM (λ i cfg, cfg ← disconnectUnlocked i p1 cfg; connectUnlocked i p2 cfg) p2 cfg.

(** ** Clients *)

Definition ConnectClientUnlocked (ck : nat) (to : list nat) (cfg : kcfg) : option kcfg :=
  let endnames := default [] (k_clerks cfg !! ck) in
  rn ← toggle_loop (λ j, t ← to !! j; s ← endnames !! t; Some (Some (inl s))) true (seq 0 (length to)) (k_net cfg);
  Some (k_set_net rn cfg).

Definition DisconnectClientUnlocked (ck : nat) (from : list nat) (cfg : kcfg) : option kcfg :=
  let endnames := default [] (k_clerks cfg !! ck) in
  rn ← toggle_loop (λ j, f ← from !! j; s ← endnames !! f; Some (Some (inl s))) false (seq 0 (length from)) (k_net cfg);
  Some (k_set_net rn cfg).

(** The new clerk and the ends it is given, shuffled with [js]. *)
Definition makeClient (names : list string) (js : list nat) (to : list nat) (cfg : kcfg) : option (kcfg * nat * list string) :=
  if negb (bool_decide (length names = k_n cfg)) then None else
  rn ← make_ends (imap (λ j name, (inl name, inr j)) names) (k_net cfg);
  handles ← random_handles js names;
  let ck := fresh (dom (k_clerks cfg)) in
  let cfg := k_set_clerks (<[ck := names]> (k_clerks cfg)) (k_nextClientId cfg + 1) (k_set_net rn cfg) in
  cfg ← ConnectClientUnlocked ck to cfg;
  Some (cfg, ck, handles).

(** [os.Remove] of files that do not exist does nothing. *)
Definition deleteClient (ck : nat) (cfg : kcfg) : kcfg := k_set_clerks (delete ck (k_clerks cfg)) (k_nextClientId cfg) cfg.

(** ** Servers *)

(** Instance [o] saves its state and a snapshot. *)
Definition k_inst_save (x : nat * string * string) (cfg : kcfg) : option kcfg :=
  let '(o, state, snap) := x in
  srv ← k_insts cfg !! o;
  let '(ps, a) := obj_alloc state (k_ps cfg) in
  let '(ps, b) := obj_alloc snap ps in
  ps ← obj_Save (rf_persister (srv_rf srv)) (Some a) (Some b) ps;
  Some (k_set_saved (k_saved cfg) ps cfg).

(** [if cfg.saved[i] != nil { cfg.saved[i] = cfg.saved[i].Copy() }] *)
Definition k_copy_saved (i : nat) (cfg : kcfg) : option kcfg :=
  p ← k_saved cfg !! i;
  match p with
  | None => Some cfg
  | Some p =>
      '(ps, q) ← obj_Copy p (k_ps cfg);
      saved ← set_at i (Some q) (k_saved cfg);
      Some (k_set_saved saved ps cfg)
  end.

Definition ShutdownServer (i : nat) (w : list (nat * string * string)) (cfg : kcfg) : option kcfg :=
  cfg ← disconnectUnlocked i (All cfg) cfg;
  let cfg := k_set_net (DeleteServer (inr i) (k_net cfg)) cfg in
  cfg ← k_copy_saved i cfg;
  kv ← k_servers cfg !! i;
  match kv with
  | None => Some cfg
  | Some o =>
      cfg ← foldM k_inst_save w cfg;
      servers ← set_at i None (k_servers cfg);
      Some (k_set_servers servers (alter srv_Kill o (k_insts cfg)) cfg)
  end.

Definition k_start_persister (i : nat) (cfg : kcfg) : option kcfg :=
  p ← k_saved cfg !! i;
  match p with
  | Some _ => k_copy_saved i cfg
  | None =>
      let '(ps, q) := obj_Make (k_ps cfg) in
      saved ← set_at i (Some q) (k_saved cfg);
      Some (k_set_saved saved ps cfg)
  end.

Definition StartServer (i : nat) (names : list string) (cfg : kcfg) : option kcfg :=
  if negb (bool_decide (length names = k_n cfg)) then None else
  rows ← set_at i (Some names) (k_endnames cfg);
  let cfg := k_set_endnames rows cfg in
  rn ← make_ends (imap (λ j name, (inl name, inr j)) names) (k_net cfg);
  cfg ← k_start_persister i (k_set_net rn cfg);
  q ← mjoin (k_saved cfg !! i);
  let o := fresh (dom (k_insts cfg)) in
  servers ← set_at i (Some o) (k_servers cfg);
  let cfg := k_set_servers servers (<[o := srv_Start names i q]> (k_insts cfg)) cfg in
  Some (k_set_net (AddServer (inr i) o (k_net cfg)) cfg).

(** What the persisters use. *)
Definition largest (size : Memory → Persister → Z) (cfg : kcfg) : option Z :=
  foldM (λ i mx,
    p ← mjoin (k_saved cfg !! i); ps ← persisters (k_ps cfg) !! p;
    let n := size (memory (k_ps cfg)) ps in Some (if bool_decide (n > mx) then n else mx)) (seq 0 (k_n cfg)) 0.

(** ** make_config *)

Definition k_init (n : nat) : kcfg :=
  mkKC MakeNetwork n (replicate n None) (replicate n None) (replicate n None) ∅ (Z.of_nat n + 1000) ∅ init_persisters.

Definition make_config (n : nat) (unreliable : bool) (names : nat → list string) : option kcfg :=
  cfg ← foldM (λ i, StartServer i (names i)) (seq 0 n) (k_init n);
  cfg ← ConnectAll cfg;
  Some (k_set_net (Reliable (negb unreliable) (k_net cfg)) cfg).

Definition cleanup (cfg : kcfg) : kcfg :=
  k_set_servers (k_servers cfg)
    (foldl (λ insts s, match s with Some o => alter srv_Kill o insts | None => insts end) (k_insts cfg) (k_servers cfg)) cfg.
End config.
Arguments kcfg : clear implicits.

(** ** kvraft *)

Module KvRaft.

Record KVServer := mkKVServer { kv_me : nat; kv_rf : Raft; kv_dead : bool; kv_maxraftstate : Z }.

Definition StartKVServer (maxraftstate : Z) (servers : list string) (me persister : nat) : KVServer :=
  mkKVServer me (Raft_Make servers me persister) false maxraftstate.
Definition KV_Kill (kv : KVServer) : KVServer := mkKVServer (kv_me kv) (Raft_Kill (kv_rf kv)) true (kv_maxraftstate kv).
Definition KV_killed (kv : KVServer) : bool := kv_dead kv.

#[export] Program Instance KVServer_kind (maxraftstate : Z) : ServerKind KVServer :=
  {| srv_rf := kv_rf; srv_Start := StartKVServer maxraftstate; srv_Kill := KV_Kill |}.
Solve Obligations with done.

Definition kv_connect := connectUnlocked (Srv := KVServer).
Definition kv_disconnect := disconnectUnlocked (Srv := KVServer).
Definition kv_partition := partition (Srv := KVServer).
Definition kv_ShutdownServer := ShutdownServer (Srv := KVServer) (ServerKind0 := KVServer_kind 0).
Definition kv_StartServer (maxraftstate : Z) := StartServer (ServerKind0 := KVServer_kind maxraftstate).
Definition kv_make_config (maxraftstate : Z) := make_config (ServerKind0 := KVServer_kind maxraftstate).
Definition kv_LogSize := largest (Srv := KVServer) RaftStateSize.
Definition kv_SnapshotSize := largest (Srv := KVServer) SnapshotSize.

(** [GetState] of the instances; a server that was shut down is a nil pointer,
    and this [Leader] panics there. *)
Definition kv_Leader (getState : KVServer → Z * bool) (cfg : kcfg KVServer) : option (bool * nat) :=
  (fix go (l : list nat) : option (bool * nat) :=
    match l with
    | [] => Some (false, 0%nat)
    | i :: l =>
        o ← mjoin (k_servers cfg !! i); kv ← k_insts cfg !! o;
        if (getState kv).2 then Some (true, i) else go l
    end) (seq 0 (k_n cfg)).

Definition kv_make_partition (getState : KVServer → Z * bool) (cfg : kcfg KVServer) : option (list nat * list nat) :=
  '(_, l) ← kv_Leader getState cfg; split_servers (k_n cfg) l.

(** ** Reporting *)

(** [false]: the test fails because it took longer than two minutes. *)
Definition kv_checkTimeout (failed : bool) (start now : Z) : bool :=
  negb (negb failed && bool_decide (now - start > 120 * 1000000000)).

(** What [begin] resets and [end] prints: the time, the calls, and the number of
    operations of clerks, an [int32]. *)
Record kv_stats := mkStats { kv_t0 : Z; kv_rpcs0 : Z; kv_ops : Z }.

Definition kv_rpcTotal (cfg : kcfg KVServer) : Z := GetTotalCount (k_net cfg).

Definition kv_begin (now : Z) (cfg : kcfg KVServer) : kv_stats := mkStats now (kv_rpcTotal cfg) 0.
Definition kv_op (st : kv_stats) : kv_stats :=
  mkStats (kv_t0 st) (kv_rpcs0 st) ((kv_ops st + 1 + 2 ^ 31) `mod` 2 ^ 32 - 2 ^ 31).
Definition kv_end (failed : bool) (start now : Z) (st : kv_stats) (cfg : kcfg KVServer) : option (Z * nat * Z * Z) :=
  if kv_checkTimeout failed start now && negb failed
  then Some (now - kv_t0 st, k_n cfg, kv_rpcTotal cfg - kv_rpcs0 st, kv_ops st) else None.
End KvRaft.

(** ** shardctrler *)

Module ShardCtrlerTest.

Record ShardCtrler := mkShardCtrler { sc_me : nat; sc_rf : Raft }.

Definition StartShardCtrler (servers : list string) (me persister : nat) : ShardCtrler :=
  mkShardCtrler me (Raft_Make servers me persister).
Definition SC_Kill (sc : ShardCtrler) : ShardCtrler := mkShardCtrler (sc_me sc) (Raft_Kill (sc_rf sc)).

#[export] Program Instance ShardCtrler_kind : ServerKind ShardCtrler :=
  {| srv_rf := sc_rf; srv_Start := StartShardCtrler; srv_Kill := SC_Kill |}.
Solve Obligations with done.

Definition sc_connect := connectUnlocked (Srv := ShardCtrler).
Definition sc_disconnect := disconnectUnlocked (Srv := ShardCtrler).
Definition sc_random_handles := random_handles (A := string).
Definition sc_connectUnlocked := connectUnlocked (Srv := ShardCtrler).
Definition sc_disconnectUnlocked := disconnectUnlocked (Srv := ShardCtrler).
Definition sc_All := All (Srv := ShardCtrler).
Definition sc_ConnectClient := ConnectClientUnlocked (Srv := ShardCtrler).
Definition sc_DisconnectClient := DisconnectClientUnlocked (Srv := ShardCtrler).
Definition sc_deleteClient := deleteClient (Srv := ShardCtrler).
Definition sc_cleanup := cleanup (Srv := ShardCtrler).
Definition sc_checkTimeout := KvRaft.kv_checkTimeout.
Definition sc_config := kcfg ShardCtrler.
Definition sc_Raft (sc : ShardCtrler) : Raft := sc_rf sc.
Definition sc_partition := partition (Srv := ShardCtrler).
Definition sc_ConnectAll := ConnectAll (Srv := ShardCtrler).
Definition sc_makeClient := makeClient (Srv := ShardCtrler).
Definition sc_ShutdownServer := ShutdownServer (Srv := ShardCtrler).
Definition sc_StartServer := StartServer (Srv := ShardCtrler).
Definition sc_make_config := make_config (Srv := ShardCtrler).
Definition sc_LogSize := largest (Srv := ShardCtrler) RaftStateSize.

(** This [Leader] skips servers that were shut down. *)
Definition sc_Leader (getState : ShardCtrler → Z * bool) (cfg : kcfg ShardCtrler) : option (bool * nat) :=
  (fix go (l : list nat) : option (bool * nat) :=
    match l with
    | [] => Some (false, 0%nat)
    | i :: l =>
        s ← k_servers cfg !! i;
        match s with
        | Some o => sc ← k_insts cfg !! o; if (getState sc).2 then Some (true, i) else go l
        | None => go l
        end
    end) (seq 0 (k_n cfg)).

Definition sc_make_partition (getState : ShardCtrler → Z * bool) (cfg : kcfg ShardCtrler) : option (list nat * list nat) :=
  '(_, l) ← sc_Leader getState cfg; split_servers (k_n cfg) l.
End ShardCtrlerTest.
