(* ===== verification/KvConfigThm.v ===== *)
(** * Partitions of replicated services

    What the test configurations of the replicated services promise to their
    tests: a partition connects exactly the servers on the same side, the leader
    ends up in the minority, and shuffling handles loses none. *)
From S2P Require Import Prelude GoBase LabRpc Persister Harness RaftConfig RaftConfigThm KvConfig.

(** ** Shuffling *)

Lemma random_handles_Permutation {A} js (kvh sa : list A) : random_handles js kvh = Some sa → sa ≡ₚ kvh.
Proof.
  rewrite /random_handles. apply (foldM_inv (λ _ l, l ≡ₚ kvh)); [|done].
  intros _ i l l' Hl Hr _. destruct (js !! i) as [j|]; [|done]. cbn [mbind option_bind] in Hr.
  destruct (l !! i) as [x|] eqn:Hi; [|done]. cbn [mbind option_bind] in Hr.
  destruct (l !! j) as [y|] eqn:Hj; [|done]. cbn [mbind option_bind] in Hr. case_bool_decide; [|done]. simplify_eq.
  by rewrite (Permutation_insert_swap l i j x y).
Qed.

Lemma random_handles_total {A} js (kvh : list A) :
  length js = length kvh → (∀ i j, js !! i = Some j → (j ≤ i)%nat) → is_Some (random_handles js kvh).
Proof.
  intros Hlen Hjs. destruct (foldM_total (λ l : list A, length l = length kvh) (λ i sa,
    j ← js !! i; x ← sa !! i; y ← sa !! j; if bool_decide (j ≤ i)%nat then Some (<[j := x]> (<[i := y]> sa)) else None)
    (seq 0 (length kvh)) kvh) as (l & Hl & _); [|done|by exists l].
  intros i l Hi%elem_of_seq Hl. destruct (lookup_lt_is_Some_2 js i) as [j Hj]; [lia|]. rewrite Hj /=. specialize (Hjs i j Hj).
  destruct (lookup_lt_is_Some_2 l i) as [x ->]; [lia|]. destruct (lookup_lt_is_Some_2 l j) as [y ->]; [lia|]. simpl.
  rewrite bool_decide_true //. eexists. split; [done|]. by rewrite !length_insert.
Qed.

(** ** The table of ends *)

Section table.
Context {Srv : Type} `{!ServerKind Srv}.
Implicit Types (cfg : kcfg Srv) (i j a b : nat) (e : string) (p q l : list nat).

(** Every server has been started; names of ends are different and taken. *)
Record table cfg : Prop := {
  tb_len : length (k_endnames cfg) = k_n cfg;
  tb_row : ∀ a, (a < k_n cfg)%nat → ∃ ns, k_endnames cfg !! a = Some (Some ns) ∧ length ns = k_n cfg;
  tb_inj : ∀ a b a' b' e, k_end cfg a b = Some e → k_end cfg a' b' = Some e → a = a' ∧ b = b';
}.

(** Is the end of server [a] for server [b] enabled? *)
Definition linked cfg a b : option bool := e ← k_end cfg a b; enabled (k_net cfg) !! inl e.

Lemma table_end cfg a b : table cfg → (a < k_n cfg)%nat → (b < k_n cfg)%nat → ∃ e, k_end cfg a b = Some e.
Proof.
  intros Ht Ha Hb. destruct (tb_row _ Ht a Ha) as (ns & Hns & Hlen). rewrite /k_end Hns /=.
  destruct (lookup_lt_is_Some_2 ns b) as [e He]; [lia|eauto].
Qed.

Lemma table_net cfg rn : table cfg → table (k_set_net rn cfg).
Proof. intros [H1 H2 H3]. by split. Qed.

(** Enabling or disabling a set of ends of the table. *)
Lemma linked_toggle cfg (names : list (string + nat)) yes (P : nat → nat → Prop) `{!RelDecision P} :
  table cfg → (∀ a b e, k_end cfg a b = Some e → inl e ∈ names ↔ P a b) →
  ∀ a b, (a < k_n cfg)%nat → (b < k_n cfg)%nat →
  linked (k_set_net (enable_all names yes (k_net cfg)) cfg) a b = if decide (P a b) then Some yes else linked cfg a b.
Proof.
  intros Ht Hn a b Ha Hb. destruct (table_end cfg a b Ht Ha Hb) as [e He].
  rewrite /linked. change (k_end (k_set_net _ cfg) a b) with (k_end cfg a b). rewrite He /= enable_all_enabled.
  specialize (Hn a b e He). repeat case_decide; tauto.
Qed.

(** Both operations toggle the ends between a server and those listed. *)
Lemma toggle_pair i p yes pick1 pick2 cfg :
  table cfg → (i < k_n cfg)%nat → (∀ t, t ∈ p → (t < k_n cfg)%nat) →
  (∀ j, (j < length p)%nat → pick1 j = (t ← p !! j; endname ← k_end cfg i t; Some (Some (inl endname)))) →
  (∀ j, (j < length p)%nat → pick2 j = (t ← p !! j; endname ← k_end cfg t i; Some (Some (inl endname)))) →
  ∃ rn, (rn ← toggle_loop pick1 yes (seq 0 (length p)) (k_net cfg);
         rn ← toggle_loop pick2 yes (seq 0 (length p)) rn; Some (k_set_net rn cfg)) = Some (k_set_net rn cfg) ∧
    same_but_enabled (k_net cfg) rn ∧
    ∀ a b, (a < k_n cfg)%nat → (b < k_n cfg)%nat →
      linked (k_set_net rn cfg) a b = if decide ((a = i ∧ b ∈ p) ∨ (b = i ∧ a ∈ p)) then Some yes else linked cfg a b.
Proof.
  intros Ht Hi Hp Hpick1 Hpick2.
  destruct (toggle_loop_total pick1 yes (seq 0 (length p)) (k_net cfg)) as [rn1 H1].
  { intros j Hj%elem_of_seq. rewrite Hpick1; [|lia]. destruct (lookup_lt_is_Some_2 p j) as [t Hpj]; [lia|]. rewrite Hpj /=.
    destruct (table_end cfg i t) as [e ->]; eauto using list_elem_of_lookup_2. }
  rewrite H1. cbn [mbind option_bind].
  destruct (toggle_loop_total pick2 yes (seq 0 (length p)) rn1) as [rn2 H2].
  { intros j Hj%elem_of_seq. rewrite Hpick2; [|lia]. destruct (lookup_lt_is_Some_2 p j) as [t Hpj]; [lia|]. rewrite Hpj /=.
    destruct (table_end cfg t i) as [e ->]; eauto using list_elem_of_lookup_2. }
  rewrite H2. cbn [mbind option_bind]. apply toggle_loop_spec in H1 as (n1 & -> & Hn1). apply toggle_loop_spec in H2 as (n2 & -> & Hn2).
  assert (enable_all n2 yes (enable_all n1 yes (k_net cfg)) = enable_all (n1 ++ n2) yes (k_net cfg)) as Eall
    by by rewrite /enable_all foldl_app.
  rewrite Eall. eexists. split_and!; [done|apply enable_all_same|].
  apply (linked_toggle cfg (n1 ++ n2) yes (λ a b, (a = i ∧ b ∈ p) ∨ (b = i ∧ a ∈ p))); [done|].
  intros a b e He. rewrite elem_of_app Hn1 Hn2. setoid_rewrite elem_of_seq. split.
  - intros [(j & Hj & Hx)|(j & Hj & Hx)]; [rewrite Hpick1 in Hx; [|lia]|rewrite Hpick2 in Hx; [|lia]];
      destruct (p !! j) as [t|] eqn:Hpj; [|done| |done]; cbn [mbind option_bind] in Hx.
    + destruct (k_end cfg i t) as [e'|] eqn:He'; [|done]. simpl in Hx. simplify_eq.
      destruct (tb_inj _ Ht _ _ _ _ _ He He') as [-> ->]. left. eauto using list_elem_of_lookup_2.
    + destruct (k_end cfg t i) as [e'|] eqn:He'; [|done]. simpl in Hx. simplify_eq.
      destruct (tb_inj _ Ht _ _ _ _ _ He He') as [-> ->]. right. eauto using list_elem_of_lookup_2.
  - intros [[-> [j Hj]%list_elem_of_lookup]|[-> [j Hj]%list_elem_of_lookup]]; [left|right]; exists j;
      pose proof (lookup_lt_Some _ _ _ Hj); [rewrite Hpick1; [|lia]|rewrite Hpick2; [|lia]]; rewrite Hj /= He; (split; [lia|done]).
Qed.

Lemma connectUnlocked_spec i p cfg :
  table cfg → (i < k_n cfg)%nat → (∀ t, t ∈ p → (t < k_n cfg)%nat) →
  ∃ rn, connectUnlocked i p cfg = Some (k_set_net rn cfg) ∧ same_but_enabled (k_net cfg) rn ∧
    ∀ a b, (a < k_n cfg)%nat → (b < k_n cfg)%nat →
      linked (k_set_net rn cfg) a b = if decide ((a = i ∧ b ∈ p) ∨ (b = i ∧ a ∈ p)) then Some true else linked cfg a b.
Proof. intros Ht Hi Hp. by apply toggle_pair. Qed.

(** Disconnecting from at most as many servers as there are: the wrong row the
    second loop looks at is one of the table. *)
Lemma disconnectUnlocked_spec i p cfg :
  table cfg → (i < k_n cfg)%nat → (∀ t, t ∈ p → (t < k_n cfg)%nat) → (length p ≤ k_n cfg)%nat →
  ∃ rn, disconnectUnlocked i p cfg = Some (k_set_net rn cfg) ∧ same_but_enabled (k_net cfg) rn ∧
    ∀ a b, (a < k_n cfg)%nat → (b < k_n cfg)%nat →
      linked (k_set_net rn cfg) a b = if decide ((a = i ∧ b ∈ p) ∨ (b = i ∧ a ∈ p)) then Some false else linked cfg a b.
Proof.
  intros Ht Hi Hp Hlen. apply toggle_pair; [done..| |]; intros j Hj.
  - by destruct (tb_row _ Ht i Hi) as (ns & -> & _).
  - by destruct (tb_row _ Ht j) as (ns & -> & _); [lia|].
Qed.

(** One side of a partition: its servers are cut off from [q] and linked to [p]. *)
Lemma side_spec l p q cfg :
  table cfg → (∀ t, t ∈ p → (t < k_n cfg)%nat) → (∀ t, t ∈ q → (t < k_n cfg)%nat) → (length q ≤ k_n cfg)%nat →
  (∀ t, t ∈ l → t ∈ p) → (∀ t, t ∈ p → t ∉ q) →
  ∃ rn, foldM (λ i cfg, cfg ← disconnectUnlocked i q cfg; connectUnlocked i p cfg) l cfg = Some (k_set_net rn cfg) ∧
    same_but_enabled (k_net cfg) rn ∧
    ∀ a b, (a < k_n cfg)%nat → (b < k_n cfg)%nat → linked (k_set_net rn cfg) a b =
      if decide ((a ∈ l ∧ b ∈ p) ∨ (b ∈ l ∧ a ∈ p)) then Some true
      else if decide ((a ∈ l ∧ b ∈ q) ∨ (b ∈ l ∧ a ∈ q)) then Some false else linked cfg a b.
Proof.
  intros Ht Hp Hq Hlen. revert cfg Ht Hp Hq Hlen. induction l as [|i l IH]; intros cfg Ht Hp Hq Hlen Hl Hd.
  { exists (k_net cfg). split_and!; [by destruct cfg|done|]. intros a b Ha Hb.
    destruct (decide _) as [Hx|_]; [set_solver|]. destruct (decide _) as [Hx|_]; [set_solver|]. by destruct cfg. }
  cbn [foldM]. assert (i ∈ p) as Hip by (apply Hl; left).
  destruct (disconnectUnlocked_spec i q cfg Ht) as (rn1 & -> & (S1a & S1b & S1c) & L1); [by apply Hp|done..|]. cbn [mbind option_bind].
  destruct (connectUnlocked_spec i p (k_set_net rn1 cfg)) as (rn2 & -> & (S2a & S2b & S2c) & L2); [by apply table_net|by apply Hp|done|].
  cbn [mbind option_bind]. simpl in *.
  destruct (IH (k_set_net rn2 cfg)) as (rn3 & Hr & (S3a & S3b & S3c) & L3); [by apply table_net|done..|by intros t Ht'; apply Hl; right|done|].
  exists rn3. split_and!; [exact Hr|split_and!; simpl in *; congruence|].
  intros a b Ha Hb. specialize (L1 a b Ha Hb). specialize (L2 a b Ha Hb). specialize (L3 a b Ha Hb). simpl in *.
  change (linked (k_set_net rn3 (k_set_net rn2 cfg)) a b) with (linked (k_set_net rn3 cfg) a b) in L3.
  change (linked (k_set_net rn2 (k_set_net rn1 cfg)) a b) with (linked (k_set_net rn2 cfg) a b) in L2.
  rewrite L3 L2 L1. pose proof (Hd a) as Da. pose proof (Hd b) as Db.
  pose proof (elem_of_cons l a i) as Ea. pose proof (elem_of_cons l b i) as Eb.
  assert (a = i → a ∈ p) as Pa by congruence. assert (b = i → b ∈ p) as Pb by congruence. clear -Da Db Ea Eb Pa Pb.
  repeat case_decide; try done; tauto.
Qed.

Lemma partition_spec p1 p2 cfg :
  table cfg → (∀ t, t ∈ p1 → (t < k_n cfg)%nat) → (∀ t, t ∈ p2 → (t < k_n cfg)%nat) →
  (length p1 ≤ k_n cfg)%nat → (length p2 ≤ k_n cfg)%nat → (∀ t, t ∈ p1 → t ∉ p2) →
  ∃ rn, partition p1 p2 cfg = Some (k_set_net rn cfg) ∧ same_but_enabled (k_net cfg) rn ∧
    ∀ a b, (a < k_n cfg)%nat → (b < k_n cfg)%nat → linked (k_set_net rn cfg) a b =
      if decide ((a ∈ p1 ∧ b ∈ p1) ∨ (a ∈ p2 ∧ b ∈ p2)) then Some true
      else if decide ((a ∈ p1 ∧ b ∈ p2) ∨ (a ∈ p2 ∧ b ∈ p1)) then Some false else linked cfg a b.
Proof.
  intros Ht H1 H2 L1 L2 Hd. rewrite /partition.
  destruct (side_spec p1 p1 p2 cfg) as (rn1 & -> & (S1a & S1b & S1c) & K1); [done..|]. cbn [mbind option_bind].
  destruct (side_spec p2 p2 p1 (k_set_net rn1 cfg)) as (rn2 & -> & (S2a & S2b & S2c) & K2);
    [by apply table_net|done..|by intros t Ht2 Ht1; apply (Hd t)|].
  exists rn2. simpl in *. split_and!; [done|split_and!; congruence|]. intros a b Ha Hb.
  specialize (K1 a b Ha Hb). specialize (K2 a b Ha Hb).
  change (linked (k_set_net rn2 (k_set_net rn1 cfg)) a b) with (linked (k_set_net rn2 cfg) a b) in K2.
  rewrite K2 K1. pose proof (Hd a) as Da. pose proof (Hd b) as Db. clear -Da Db. repeat case_decide; try done; tauto.
Qed.
End table.

(** ** The leader in the minority *)

Lemma split_loop l js (done p1 p2 : list nat) k :
  p1 ++ p2 = done ++ replicate k 0%nat → (length (filter (λ i, i ≠ l) js) ≤ k)%nat →
  ∃ p1' p2', foldM (λ i '(p1, p2, j),
     if bool_decide (i ≠ l) then
       if bool_decide (j < length p1)%nat then p1 ← set_at j i p1; Some (p1, p2, S j)
       else p2 ← set_at (j - length p1) i p2; Some (p1, p2, S j)
     else Some (p1, p2, j)) js (p1, p2, length done) =
       Some (p1', p2', length (done ++ filter (λ i, i ≠ l) js)) ∧
    length p1' = length p1 ∧ length p2' = length p2 ∧
    p1' ++ p2' = (done ++ filter (λ i, i ≠ l) js) ++ replicate (k - length (filter (λ i, i ≠ l) js)) 0%nat.
Proof.
  revert done p1 p2 k. induction js as [|i js IH]; intros done p1 p2 k Hpp Hk.
  { exists p1, p2. rewrite /= app_nil_r Nat.sub_0_r. done. }
  cbn [foldM]. rewrite filter_cons in Hk |- *. destruct (decide (i ≠ l)) as [Hi|Hi].
  2: { rewrite bool_decide_false //. cbn [mbind option_bind]. by apply IH. }
  rewrite bool_decide_true //. simpl in Hk. destruct k as [|k]; [lia|].
  assert (length p1 + length p2 = length done + S k)%nat as Hlen by (rewrite -length_app Hpp length_app length_replicate //).
  assert (<[length done := i]> (p1 ++ p2) = (done ++ [i]) ++ replicate k 0%nat) as Hins.
  { rewrite Hpp insert_app_r_alt // Nat.sub_diag /= -app_assoc //. }
  assert (length (done ++ [i]) = S (length done)) as Hl by (rewrite length_app /=; lia).
  case_bool_decide as Hj.
  - rewrite set_at_total //. cbn [mbind option_bind]. rewrite insert_app_l // in Hins. rewrite -Hl.
    destruct (IH (done ++ [i]) _ p2 k Hins) as (p1' & p2' & Hr & H1 & H2 & H3); [lia|]. exists p1', p2'.
    rewrite length_insert in H1. rewrite Hr H3 -!app_assoc /=. done.
  - rewrite set_at_total; [|lia]. cbn [mbind option_bind]. rewrite insert_app_r_alt in Hins; [|lia]. rewrite -Hl.
    destruct (IH (done ++ [i]) p1 _ k Hins) as (p1' & p2' & Hr & H1 & H2 & H3); [lia|]. exists p1', p2'.
    rewrite length_insert in H2. rewrite Hr H3 -!app_assoc /=. done.
Qed.

(** With an odd number of servers, at least three, the sides are disjoint, all
    servers are on one of them, and the leader is in the smaller one. *)
Lemma split_servers_spec m l :
  (0 < m)%nat → (l < 2 * m + 1)%nat →
  ∃ p1 p2, split_servers (2 * m + 1) l = Some (p1, p2) ∧ length p1 = (m + 1)%nat ∧ length p2 = m ∧ l ∈ p2 ∧
    p1 ++ p2 ≡ₚ seq 0 (2 * m + 1).
Proof.
  intros Hm Hl. rewrite /split_servers. assert ((2 * m + 1) / 2 = m)%nat as ->.
  { rewrite Nat.add_comm Nat.mul_comm Nat.div_add //. }
  assert (l :: filter (λ i, i ≠ l) (seq 0 (2 * m + 1)) ≡ₚ seq 0 (2 * m + 1)) as Hperm.
  { apply NoDup_Permutation.
    - constructor; [rewrite list_elem_of_filter; tauto|apply NoDup_filter, NoDup_seq].
    - apply NoDup_seq.
    - intros x. rewrite elem_of_cons list_elem_of_filter elem_of_seq. destruct (decide (x = l)); naive_solver lia. }
  assert (length (filter (λ i, i ≠ l) (seq 0 (2 * m + 1))) = 2 * m)%nat as Hlen.
  { apply Permutation_length in Hperm. rewrite length_cons length_seq in Hperm. lia. }
  destruct (split_loop l (seq 0 (2 * m + 1)) [] (replicate (m + 1) 0%nat) (replicate m 0%nat) (2 * m + 1)) as
    (p1 & p2 & Hr & H1 & H2 & H3).
  { rewrite -replicate_add /=. f_equal. lia. }
  { lia. }
  rewrite Hr. cbn [mbind option_bind]. rewrite bool_decide_false; [|lia]. rewrite !length_replicate in H1, H2.
  rewrite set_at_total; [|lia]. cbn [mbind option_bind]. eexists _, _. split_and!; [done|done|by rewrite length_insert| |].
  - apply (list_elem_of_lookup_2 _ (m - 1)). rewrite list_lookup_insert_eq //. lia.
  - replace (p1 ++ <[(m - 1)%nat := l]> p2) with (<[(2 * m)%nat := l]> (p1 ++ p2)).
    + rewrite H3 Hlen app_nil_l. replace (2 * m + 1 - 2 * m)%nat with 1%nat by lia.
      rewrite insert_app_r_alt; [|lia]. rewrite Hlen Nat.sub_diag. change (<[0%nat := l]> (replicate 1 0%nat)) with [l].
      etrans; [|exact Hperm]. symmetry. apply Permutation_cons_append.
    + rewrite insert_app_r_alt; [|lia]. do 2 f_equal. lia.
Qed.
