(* ===== verification/KvTester.v ===== *)
(** * Testing replicated services

    The operations of the tests on a configuration, in any order after
    [make_config], and what a partition then does. *)
From S2P Require Import Prelude GoBase LabRpc Persister Harness RaftConfig RaftConfigThm KvConfig KvConfigThm.

Section tester.
Context {Srv : Type} `{!ServerKind Srv}.
Implicit Types (cfg : kcfg Srv) (i j a b : nat) (e : string) (p q l : list nat).

(** ** The names of ends *)

Record names_inv cfg : Prop := {
  nm_len : length (k_endnames cfg) = k_n cfg;
  nm_row : ∀ a ns, k_endnames cfg !! a = Some (Some ns) → length ns = k_n cfg;
  nm_inj : ∀ a b a' b' e, k_end cfg a b = Some e → k_end cfg a' b' = Some e → a = a' ∧ b = b';
  nm_ends : ∀ a b e, k_end cfg a b = Some e → inl e ∈ ends (k_net cfg);
  nm_conn : ∀ a b e, k_end cfg a b = Some e → connections (k_net cfg) !! inl e = Some (Some (inr b));
}.

(** Which servers have been started. *)
Definition started cfg a : Prop := ∃ ns, k_endnames cfg !! a = Some (Some ns).

Lemma names_inv_table cfg : names_inv cfg → (∀ a, (a < k_n cfg)%nat → started cfg a) → table cfg.
Proof.
  intros [H1 H2 H3 H4 _] Hs. split; [done| |done]. intros a Ha. destruct (Hs a Ha) as [ns Hns]. eauto.
Qed.

(** Ends are only added, and stay connected to their servers. *)
Definition more_ends (rn rn' : Network (Name := NetName)) : Prop :=
  ends rn ⊆ ends rn' ∧ ∀ e : NetName, e ∈ ends rn → connections rn' !! e = connections rn !! e.

#[global] Instance more_ends_preorder : PreOrder more_ends.
Proof.
  split; [by intros ?|]. intros r1 r2 r3 (A1 & A2) (B1 & B2). split; [set_solver|].
  intros e He. rewrite B2; [by apply A2|by apply A1].
Qed.

(** Most operations leave the names alone. *)
Definition same_names cfg cfg' : Prop :=
  k_n cfg' = k_n cfg ∧ k_endnames cfg' = k_endnames cfg ∧ more_ends (k_net cfg) (k_net cfg').

#[global] Instance same_names_preorder : PreOrder same_names.
Proof. split; [by intros ?|]. intros c1 c2 c3 (A1 & A2 & A3) (B1 & B2 & B3). split_and!; [congruence..|by etrans]. Qed.

Lemma same_names_inv cfg cfg' : names_inv cfg → same_names cfg cfg' → names_inv cfg' ∧ ∀ a, started cfg a → started cfg' a.
Proof.
  intros [H1 H2 H3 H4 H5] (E1 & E2 & E3 & E4). assert (∀ a b, k_end cfg' a b = k_end cfg a b) as Ee by (intros a b; by rewrite /k_end E2).
  split; [|intros a; by rewrite /started E2].
  split; [by rewrite E1 E2|by rewrite E1 E2| | |].
  - intros a b a' b' e. rewrite !Ee. apply H3.
  - intros a b e. rewrite Ee. intros He. apply E3. by eapply H4.
  - intros a b e. rewrite Ee. intros He. rewrite E4; [by eapply H5|by eapply H4].
Qed.

Lemma same_names_toggle (pick : nat → option (option (string + nat))) yes js rn rn' :
  toggle_loop pick yes js rn = Some rn' → more_ends rn rn'.
Proof. intros (names & -> & _)%toggle_loop_spec. destruct (enable_all_same names yes rn) as (E1 & E2 & _). by rewrite /more_ends E1 E2. Qed.

Lemma make_ends_more ps rn rn' : make_ends ps rn = Some rn' → more_ends rn rn'.
Proof.
  intros (_ & Hf & He & _ & _ & _ & Hc)%make_ends_spec. split; [rewrite He; set_solver|].
  intros e Hin. apply Hc. intros Hp. by apply (Hf e).
Qed.

Lemma connectUnlocked_names i p cfg cfg' : connectUnlocked i p cfg = Some cfg' → same_names cfg cfg'.
Proof.
  rewrite /connectUnlocked. destruct (toggle_loop _ _ _ _) as [rn1|] eqn:H1; [|done]. cbn [mbind option_bind].
  destruct (toggle_loop _ _ _ rn1) as [rn2|] eqn:H2; [|done]. intros [= <-].
  apply same_names_toggle in H1, H2. split_and!; [done..|]. simpl. by etrans.
Qed.

Lemma disconnectUnlocked_names i p cfg cfg' : disconnectUnlocked i p cfg = Some cfg' → same_names cfg cfg'.
Proof.
  rewrite /disconnectUnlocked. destruct (toggle_loop _ _ _ _) as [rn1|] eqn:H1; [|done]. cbn [mbind option_bind].
  destruct (toggle_loop _ _ _ rn1) as [rn2|] eqn:H2; [|done]. intros [= <-].
  apply same_names_toggle in H1, H2. split_and!; [done..|]. simpl. by etrans.
Qed.

Lemma ConnectAll_names cfg cfg' : ConnectAll cfg = Some cfg' → same_names cfg cfg'.
Proof. apply foldM_rel; [apply _|]. intros i c c'. apply connectUnlocked_names. Qed.

Lemma partition_names p1 p2 cfg cfg' : partition p1 p2 cfg = Some cfg' → same_names cfg cfg'.
Proof.
  rewrite /partition. destruct (foldM _ p1 cfg) as [c1|] eqn:H1; [|done]. cbn [mbind option_bind]. intros H2.
  apply (foldM_rel same_names) in H1, H2; [by etrans|..]; intros i c c' Hc;
    (destruct (disconnectUnlocked _ _ c) as [c2|] eqn:H3; [|done]); cbn [mbind option_bind] in Hc;
    (etrans; [by eapply disconnectUnlocked_names|by eapply connectUnlocked_names]).
Qed.

Lemma ConnectClientUnlocked_names ck p cfg cfg' : ConnectClientUnlocked ck p cfg = Some cfg' → same_names cfg cfg'.
Proof.
  rewrite /ConnectClientUnlocked. destruct (toggle_loop _ _ _ _) as [rn1|] eqn:H1; [|done]. intros [= <-].
  apply same_names_toggle in H1. by split_and!.
Qed.

Lemma DisconnectClientUnlocked_names ck p cfg cfg' : DisconnectClientUnlocked ck p cfg = Some cfg' → same_names cfg cfg'.
Proof.
  rewrite /DisconnectClientUnlocked. destruct (toggle_loop _ _ _ _) as [rn1|] eqn:H1; [|done]. intros [= <-].
  apply same_names_toggle in H1. by split_and!.
Qed.

Lemma makeClient_names names js to cfg r : makeClient names js to cfg = Some r → same_names cfg r.1.1.
Proof.
  rewrite /makeClient. destruct (negb _); [done|]. destruct (make_ends _ _) as [rn|] eqn:Hm; [|done]. cbn [mbind option_bind].
  destruct (random_handles js names); [|done]. cbn [mbind option_bind].
  destruct (ConnectClientUnlocked _ _ _) as [c|] eqn:Hc; [|done]. intros [= <-]. apply ConnectClientUnlocked_names in Hc.
  etrans; [|exact Hc]. split_and!; [done..|]. by apply make_ends_more in Hm.
Qed.

Lemma k_copy_saved_names i cfg cfg' : k_copy_saved i cfg = Some cfg' → same_names cfg cfg'.
Proof.
  rewrite /k_copy_saved. destruct (k_saved cfg !! i) as [[x|]|]; [|by intros [= <-]|done]. cbn [mbind option_bind].
  destruct (obj_Copy _ _) as [[ps q]|]; [|done]. cbn [mbind option_bind]. destruct (set_at _ _ _); [|done]. by intros [= <-].
Qed.

Lemma k_inst_save_names x cfg cfg' : k_inst_save x cfg = Some cfg' → same_names cfg cfg'.
Proof.
  destruct x as [[o st] sn]. rewrite /k_inst_save. destruct (k_insts cfg !! o); [|done]. cbn [mbind option_bind].
  destruct (obj_alloc st _) as [ps1 a]. destruct (obj_alloc sn ps1) as [ps2 b].
  destruct (obj_Save _ _ _ _); [|done]. by intros [= <-].
Qed.

Lemma ShutdownServer_names i w cfg cfg' : ShutdownServer i w cfg = Some cfg' → same_names cfg cfg'.
Proof.
  rewrite /ShutdownServer. destruct (disconnectUnlocked _ _ _) as [c1|] eqn:H1; [|done]. cbn [mbind option_bind].
  apply disconnectUnlocked_names in H1.
  destruct (k_copy_saved i _) as [c2|] eqn:H2; [|done]. cbn [mbind option_bind]. apply k_copy_saved_names in H2.
  assert (same_names cfg c2) as H12 by (etrans; [exact H1|etrans; [|exact H2]; done]).
  destruct (k_servers c2 !! i) as [[o|]|]; [|by intros [= <-]|done]. cbn [mbind option_bind].
  destruct (foldM k_inst_save w c2) as [c3|] eqn:H3; [|done]. cbn [mbind option_bind].
  apply (foldM_rel same_names) in H3; [|by apply k_inst_save_names].
  destruct (set_at _ _ _); [|done]. intros [= <-]. etrans; [exact H12|]. etrans; [exact H3|done].
Qed.

(** Starting a server gives it a row of new names. *)
Lemma StartServer_names i names cfg cfg' :
  names_inv cfg → StartServer i names cfg = Some cfg' →
  names_inv cfg' ∧ (i < k_n cfg)%nat ∧ started cfg' i ∧ k_n cfg' = k_n cfg ∧ ∀ a, started cfg a → started cfg' a.
Proof.
  intros [H1 H2 H3 H4 H5]. rewrite /StartServer. case_bool_decide as Hlen; [|done]. simpl.
  destruct (set_at i _ (k_endnames cfg)) as [rows|] eqn:Hs; [|done]. apply set_at_Some in Hs as [Hi ->]. cbn [mbind option_bind].
  destruct (make_ends _ _) as [rn|] eqn:Hm; [|done]. cbn [mbind option_bind]. set (c1 := k_set_net rn _).
  assert (names_inv c1 ∧ started c1 i ∧ ∀ a, started cfg a → started c1 a) as (I1 & S1 & S1').
  { pose proof (make_ends_more _ _ _ Hm) as [_ Hkeep].
    apply make_ends_spec in Hm as (Hnd & Hfresh & Hends & _ & _ & Hconn & _). rewrite row_names in Hnd, Hfresh, Hends.
    apply NoDup_fmap_1 in Hnd. simpl in Hfresh.
    assert (∀ e, inl e ∈ (inl <$> names : list (string + nat)) ↔ e ∈ names) as Hin.
    { intros e. rewrite list_elem_of_fmap. naive_solver. }
    assert (∀ a b, k_end c1 a b = if decide (a = i) then names !! b else k_end cfg a b) as Ee.
    { intros a b. rewrite /k_end /=. case_decide; [subst; by rewrite list_lookup_insert_eq|by rewrite list_lookup_insert_ne]. }
    assert (∀ a b e, k_end cfg a b = Some e → e ∉ names) as Hnew.
    { intros a b e Hab He. apply (Hfresh (inl e)); [by apply Hin|by eapply H4]. }
    split_and!.
    - split; simpl.
      + by rewrite length_insert.
      + intros a ns [(<- & [= <-] & _)|[_ Ha]]%list_lookup_insert_Some; [done|by eapply H2].
      + intros a b a' b' e. rewrite !Ee. destruct (decide (a = i)) as [->|], (decide (a' = i)) as [->|]; intros Hab Hab'.
        * split; [done|by eapply NoDup_lookup].
        * destruct (Hnew _ _ _ Hab'). by eapply list_elem_of_lookup_2.
        * destruct (Hnew _ _ _ Hab). by eapply list_elem_of_lookup_2.
        * by eapply H3.
      + intros a b e. rewrite Ee Hends. case_decide as Ha; intros Hab.
        * apply list_elem_of_lookup_2, Hin in Hab. set_solver.
        * apply H4 in Hab. set_solver.
      + intros a b e. rewrite Ee. case_decide as Ha; intros Hab.
        * apply Hconn. apply elem_of_lookup_imap. eauto.
        * rewrite Hkeep; [by eapply H5|by eapply H4].
    - exists names. by rewrite /= list_lookup_insert_eq.
    - intros a [ns Ha]. rewrite /started /=. destruct (decide (a = i)) as [->|]; [by rewrite list_lookup_insert_eq; eauto|].
      rewrite list_lookup_insert_ne //. eauto. }
  destruct (k_start_persister i c1) as [c2|] eqn:Hps; [|done]. cbn [mbind option_bind].
  assert (same_names c1 c2) as F2.
  { revert Hps. rewrite /k_start_persister. destruct (k_saved c1 !! i) as [[x|]|]; [|..|done]; cbn [mbind option_bind];
      [by apply k_copy_saved_names|]. destruct (obj_Make _). destruct (set_at _ _ _); [|done]. by intros [= <-]. }
  destruct (mjoin _) as [q|]; [|done]. cbn [mbind option_bind]. destruct (set_at _ _ (k_servers c2)); [|done]. intros [= <-].
  destruct (same_names_inv c1 _ I1 F2) as [I2 S2].
  split_and!; [by apply (same_names_inv c2)|congruence|exact (S2 _ S1)|exact (proj1 F2)|].
  intros a Ha. exact (S2 _ (S1' _ Ha)).
Qed.

(** ** The operations of a test *)

Inductive KOp :=
| KConnect i (to : list nat) | KDisconnect i (from : list nat) | KConnectAll | KPartition (p1 p2 : list nat)
| KMakeClient (names : list string) (js to : list nat)
| KConnectClient (ck : nat) (to : list nat) | KDisconnectClient (ck : nat) (from : list nat) | KDeleteClient (ck : nat)
| KShutdown i (w : list (nat * string * string)) | KStart i (names : list string)
| KSave (x : nat * string * string).

Definition run_kop (op : KOp) cfg : option (kcfg Srv) :=
  match op with
  | KConnect i to => connectUnlocked i to cfg
  | KDisconnect i from => disconnectUnlocked i from cfg
  | KConnectAll => ConnectAll cfg
  | KPartition p1 p2 => partition p1 p2 cfg
  | KMakeClient names js to => '(cfg, _, _) ← makeClient names js to cfg; Some cfg
  | KConnectClient ck to => ConnectClientUnlocked ck to cfg
  | KDisconnectClient ck from => DisconnectClientUnlocked ck from cfg
  | KDeleteClient ck => Some (deleteClient ck cfg)
  | KShutdown i w => ShutdownServer i w cfg
  | KStart i names => StartServer i names cfg
  | KSave x => k_inst_save x cfg
  end.

Definition run_kops : list KOp → kcfg Srv → option (kcfg Srv) := foldM run_kop.

Definition ready n cfg : Prop := names_inv cfg ∧ k_n cfg = n ∧ ∀ a, (a < n)%nat → started cfg a.

Lemma ready_same n cfg cfg' : ready n cfg → same_names cfg cfg' → ready n cfg'.
Proof.
  intros (Hn & En & Hs) Hf. destruct (same_names_inv cfg cfg' Hn Hf) as [Hn' Hs']. destruct Hf as (E & _).
  split_and!; [done|congruence|]. intros a Ha. by apply Hs', Hs.
Qed.

Lemma run_kop_ready n op cfg cfg' : ready n cfg → run_kop op cfg = Some cfg' → ready n cfg'.
Proof.
  intros Hr. destruct op as [i to|i from| |p1 p2|names js to|ck to|ck from|ck|i w|i names|x]; simpl; intros Ho.
  10: { destruct Hr as (Hn & En & Hs). destruct (StartServer_names _ _ _ _ Hn Ho) as (Hn' & _ & _ & En' & Hs').
        split_and!; [done|congruence|]. intros a Ha. by apply Hs', Hs. }
  all: apply (ready_same n cfg); [done|].
  - by eapply connectUnlocked_names.
  - by eapply disconnectUnlocked_names.
  - by apply ConnectAll_names.
  - by eapply partition_names.
  - destruct (makeClient names js to cfg) as [[[c ck] hs]|] eqn:Hm; [|done]. injection Ho as <-. by apply makeClient_names in Hm.
  - by eapply ConnectClientUnlocked_names.
  - by eapply DisconnectClientUnlocked_names.
  - by injection Ho as <-.
  - by eapply ShutdownServer_names.
  - by eapply k_inst_save_names.
Qed.

Lemma run_kops_ready n ops cfg cfg' : ready n cfg → run_kops ops cfg = Some cfg' → ready n cfg'.
Proof.
  intros Hr. refine (foldM_inv (λ _ c, ready n c) run_kop ops cfg cfg' _ Hr). intros _ op c c' Hc Ho _. by eapply run_kop_ready.
Qed.

Lemma names_inv_init n : names_inv (k_init (Srv := Srv) n).
Proof.
  assert (∀ a b, k_end (k_init (Srv := Srv) n) a b = None) as He.
  { intros a b. rewrite /k_end /=. destruct (replicate n None !! a) as [x|] eqn:Hx; [|done]. by apply lookup_replicate in Hx as [-> _]. }
  split; simpl; [by rewrite length_replicate|by intros a ns [? _]%lookup_replicate|intros *; by rewrite He..].
Qed.

Lemma make_config_ready n unreliable names cfg : make_config n unreliable names = Some cfg → ready n cfg.
Proof.
  rewrite /make_config. destruct (foldM _ _ _) as [c1|] eqn:H1; [|done]. cbn [mbind option_bind].
  destruct (ConnectAll c1) as [c2|] eqn:H2; [|done]. intros [= <-].
  assert (ready n c1) as Hr.
  { apply (foldM_inv (λ js c, names_inv c ∧ k_n c = n ∧ ∀ a, a ∈ js → started c a)) in H1 as (Hn & En & Hs).
    - split_and!; [done..|]. intros a Ha. apply Hs, elem_of_seq. lia.
    - intros js i c c' (Hn & En & Hs) Ho _. destruct (StartServer_names _ _ _ _ Hn Ho) as (Hn' & _ & Hi & En' & Hs').
      split_and!; [done|congruence|]. intros a [Ha| ->%list_elem_of_singleton]%elem_of_app; [by apply Hs', Hs|done].
    - split_and!; [apply names_inv_init|done|by intros a []%elem_of_nil]. }
  apply (ready_same n c1); [done|]. etrans; [by apply ConnectAll_names|done].
Qed.

Lemma ready_table n cfg : ready n cfg → table cfg.
Proof. intros (Hn & En & Hs). apply names_inv_table; [done|]. by rewrite En. Qed.

Lemma ready_partition n cfg p1 p2 :
  ready n cfg → p1 ++ p2 ≡ₚ seq 0 n →
  ∃ cfg', partition p1 p2 cfg = Some cfg' ∧
    ∀ a b, (a < n)%nat → (b < n)%nat → linked cfg' a b = Some (bool_decide (a ∈ p1 ↔ b ∈ p1)).
Proof.
  intros Hr Hp. pose proof (ready_table n cfg Hr) as Ht. destruct Hr as (_ & En & _).
  assert (∀ t, t ∈ p1 ++ p2 ↔ (t < n)%nat) as Hin by (intros t; rewrite Hp elem_of_seq; lia).
  setoid_rewrite elem_of_app in Hin. pose proof (Permutation_length Hp) as Hlen. rewrite length_app length_seq in Hlen.
  assert (NoDup (p1 ++ p2)) as Hnd by (rewrite Hp; apply NoDup_seq). apply NoDup_app in Hnd as (_ & Hd & _).
  destruct (partition_spec p1 p2 cfg Ht) as (rn & Hpt & _ & Hl).
  { intros t Hx. rewrite En. apply Hin. by left. }
  { intros t Hx. rewrite En. apply Hin. by right. }
  { lia. }
  { lia. }
  { done. }
  eexists. split; [exact Hpt|]. intros a b Ha Hb. rewrite Hl ?En //.
  pose proof (Hd a) as Da. pose proof (Hd b) as Db. apply Hin in Ha, Hb.
  destruct (decide ((a ∈ p1 ∧ b ∈ p1) ∨ (a ∈ p2 ∧ b ∈ p2))); [rewrite bool_decide_true //; tauto|].
  rewrite decide_True; [|tauto]. rewrite bool_decide_false //. tauto.
Qed.

(** A partition does what it says, whatever the tests did before: starting
    and shutting down servers, other partitions, clients coming and going. With
    the servers split in two sides, [partition] returns, and then the end of a
    server for another one is enabled exactly when both are on the same side. *)
Theorem partition_separates n unreliable names ops cfg0 cfg p1 p2 :
  make_config n unreliable names = Some cfg0 → run_kops ops cfg0 = Some cfg → p1 ++ p2 ≡ₚ seq 0 n →
  ∃ cfg', partition p1 p2 cfg = Some cfg' ∧
    ∀ a b, (a < n)%nat → (b < n)%nat → linked cfg' a b = Some (bool_decide (a ∈ p1 ↔ b ∈ p1)).
Proof. intros H0%make_config_ready H1. apply ready_partition. by eapply run_kops_ready. Qed.
End tester.

Lemma Leader_lt getState (cfg : kcfg KvRaft.KVServer) found l :
  KvRaft.kv_Leader getState cfg = Some (found, l) → (l < k_n cfg ∨ l = 0)%nat.
Proof.
  rewrite /KvRaft.kv_Leader. assert (∀ i, i ∈ seq 0 (k_n cfg) → (i < k_n cfg)%nat) as Hlt by (intros i Hi%elem_of_seq; lia).
  induction (seq 0 (k_n cfg)) as [|i js IH]; [intros [= <- <-]; auto|].
  destruct (mjoin _) as [o|]; [|done]. cbn [mbind option_bind]. destruct (k_insts cfg !! o) as [kv|]; [|done]. cbn [mbind option_bind].
  destruct (getState kv) as [t []]; [intros [= <- <-]; left; apply Hlt; left|]. apply IH. intros j Hj. apply Hlt. by right.
Qed.

(** With an odd number of servers, at least three, [make_partition] of
    [kvraft] followed by [partition] leaves the leader it found (or server 0 if
    there is none) linked to a minority: fewer than half of all servers, itself
    included, and all others are linked with each other. *)
Theorem leader_in_minority m maxraftstate unreliable names ops cfg0 cfg getState found l :
  (0 < m)%nat → KvRaft.kv_make_config maxraftstate (2 * m + 1) unreliable names = Some cfg0 →
  run_kops (ServerKind0 := KvRaft.KVServer_kind maxraftstate) ops cfg0 = Some cfg →
  KvRaft.kv_Leader getState cfg = Some (found, l) →
  ∃ p1 p2 cfg', KvRaft.kv_make_partition getState cfg = Some (p1, p2) ∧ KvRaft.kv_partition p1 p2 cfg = Some cfg' ∧
    l ∈ p2 ∧ length p2 = m ∧ length p1 = (m + 1)%nat ∧
    (∀ b, (b < 2 * m + 1)%nat → linked cfg' l b = Some (bool_decide (b ∈ p2)) ∧ linked cfg' b l = Some (bool_decide (b ∈ p2))) ∧
    (∀ a b, a ∈ p1 → b ∈ p1 → linked cfg' a b = Some true).
Proof.
  intros Hm H0 H1 Hl. assert (ready (2 * m + 1) cfg) as Hr.
  { eapply (run_kops_ready (ServerKind0 := KvRaft.KVServer_kind maxraftstate)); [|exact H1]. by eapply make_config_ready. }
  pose proof Hr as (_ & En & _). pose proof (Leader_lt _ _ _ _ Hl) as Hlt. rewrite En in Hlt.
  destruct (split_servers_spec m l Hm) as (p1 & p2 & Hs & L1 & L2 & Hlp & Hp); [lia|].
  destruct (ready_partition _ cfg p1 p2 Hr Hp) as (cfg' & Hpt & Hlink). exists p1, p2, cfg'.
  assert (∀ t, (t < 2 * m + 1)%nat → t ∈ p2 ↔ t ∉ p1) as Hside.
  { intros t Ht. assert (t ∈ p1 ++ p2) as Hin by (rewrite Hp; apply elem_of_seq; lia).
    assert (NoDup (p1 ++ p2)) as Hnd by (rewrite Hp; apply NoDup_seq). apply NoDup_app in Hnd as (_ & Hd & _).
    apply elem_of_app in Hin. specialize (Hd t). tauto. }
  assert (l < 2 * m + 1)%nat as Hll by lia. pose proof (proj1 (Hside l Hll) Hlp) as Hl1.
  split_and!; [by rewrite /KvRaft.kv_make_partition Hl /= En|done..| |].
  - intros b Hb. rewrite !Hlink //. specialize (Hside b Hb).
    split; f_equal; apply bool_decide_ext; tauto.
  - intros a b Ha Hb. rewrite Hlink; [by rewrite bool_decide_true| |].
    + assert (a ∈ p1 ++ p2) as Hin by (apply elem_of_app; by left). rewrite Hp in Hin. apply elem_of_seq in Hin. lia.
    + assert (b ∈ p1 ++ p2) as Hin by (apply elem_of_app; by left). rewrite Hp in Hin. apply elem_of_seq in Hin. lia.
Qed.

(** ** An instance: three servers; one was restarted and leads *)

Definition sample_names (i : nat) : list string :=
  match i with O => ["a0"; "a1"; "a2"] | S O => ["b0"; "b1"; "b2"] | _ => ["c0"; "c1"; "c2"] end.
Definition sample_kops : list KOp :=
  [KPartition [0; 2]%nat [1%nat]; KMakeClient ["x0"; "x1"; "x2"] [0; 0; 1]%nat [0; 1]%nat; KShutdown 1 [(1%nat, "late", "")];
   KStart 1 ["d0"; "d1"; "d2"]; KConnectAll].
Definition sample_leads (kv : KvRaft.KVServer) : Z * bool := (3, bool_decide (KvRaft.kv_me kv = 1%nat)).

Definition sample_kcfg0 : kcfg KvRaft.KVServer := default (k_init 3) (KvRaft.kv_make_config 1000 3 false sample_names).
Definition sample_kcfg : kcfg KvRaft.KVServer :=
  default (k_init 3) (run_kops (ServerKind0 := KvRaft.KVServer_kind 1000) sample_kops sample_kcfg0).

Lemma partition_separates_witness :
  ∃ cfg', partition [2%nat] [0; 1]%nat sample_kcfg = Some cfg' ∧ linked cfg' 0 1 = Some true ∧ linked cfg' 1 2 = Some false.
Proof.
  assert (KvRaft.kv_make_config 1000 3 false sample_names = Some sample_kcfg0) as H0 by (vm_compute; reflexivity).
  assert (run_kops (ServerKind0 := KvRaft.KVServer_kind 1000) sample_kops sample_kcfg0 = Some sample_kcfg) as H1
    by (vm_compute; reflexivity).
  destruct (partition_separates (ServerKind0 := KvRaft.KVServer_kind 1000) 3 false sample_names sample_kops sample_kcfg0 sample_kcfg
    [2%nat] [0; 1]%nat H0 H1) as (cfg' & Hp & Hl).
  { exact (Permutation_app_comm [2%nat] [0; 1]%nat). }
  exists cfg'. split; [exact Hp|]. rewrite !Hl; [|lia..]. split; reflexivity.
Defined.

Lemma leader_in_minority_witness :
  ∃ p1 p2 cfg', KvRaft.kv_make_partition sample_leads sample_kcfg = Some (p1, p2) ∧
    KvRaft.kv_partition p1 p2 sample_kcfg = Some cfg' ∧ 1%nat ∈ p2 ∧ length p2 = 1%nat ∧ length p1 = 2%nat.
Proof.
  assert (KvRaft.kv_make_config 1000 3 false sample_names = Some sample_kcfg0) as H0 by (vm_compute; reflexivity).
  assert (run_kops (ServerKind0 := KvRaft.KVServer_kind 1000) sample_kops sample_kcfg0 = Some sample_kcfg) as H1
    by (vm_compute; reflexivity).
  assert (KvRaft.kv_Leader sample_leads sample_kcfg = Some (true, 1%nat)) as Hl by (vm_compute; reflexivity).
  destruct (leader_in_minority 1 1000 false sample_names sample_kops sample_kcfg0 sample_kcfg sample_leads true 1
    ltac:(lia) H0 H1 Hl) as (p1 & p2 & cfg' & Hm & Hp & Hin & L2 & L1 & _).
  exists p1, p2, cfg'. split_and!; assumption.
Defined.

(** With an even number of servers the sides overlap: the last free place of the
    minority keeps its initial value, server 0. And one server cannot be split. *)
Example split_even : split_servers 4 1 = Some ([0; 2; 3]%nat, [0; 1]%nat) ∧ split_servers 1 0 = None.
Proof. split; reflexivity. Qed.
