(* ===== verification/KvPartition.v ===== *)
(** * What a partition does to calls

    Composes the test configurations of replicated services ([KvConfig]) with
    the network their servers call each other on ([LabRpc]): an end that is not
    enabled carries no new request and no new answer, so that after [partition]
    the two sides do not hear of each other, while calls within a side arrive. *)
From S2P Require Import Prelude GoBase LabRpc LabRpcThm LabRpcCall LabRpcCallThm Persister Harness RaftConfig RaftConfigThm KvConfig KvConfigThm KvTester.

(** ** Ends that are not enabled *)

Section silent.
Context `{Countable Name} {A : Type}.
Notation RpcState := (@RpcState Name _ _ A).
Notation Req := (@Req Name).
Implicit Types (s : RpcState) (q : Req) (e : Name).

(** Nobody enables or disables ends; servers may come and go. *)
Definition quiet_step s s' : Prop := rpc_step s s' ∧ enabled (net s') = enabled (net s).

Definition off e s : Prop := default false (enabled (net s) !! e) = false.

Lemma quiet_off e s s' : rtc quiet_step s s' → off e s → off e s'.
Proof. rewrite /off. induction 1 as [s|s s1 s2 [_ He] _ IH]; [done|]. intros Ho. apply IH. by rewrite He. Qed.

Lemma quiet_rpc s s' : rtc quiet_step s s' → rtc rpc_step s s'.
Proof. apply rtc_subrel. by intros ?? []. Qed.

(** A request on an end that has been off since it was made. *)
Definition unheard q : Prop :=
  rq_handler q = NotSpawned ∧
  match rq_pc q with Queued | Started | Failing | Answered false _ => True | _ => False end.

(** A reply that cannot be stopped. *)
Definition on_its_way q reply : Prop := rq_pc q = Delayed reply ∨ rq_pc q = Answered true reply.

Lemma isServerDead_off e s sn sv : off e s → isServerDead e sn sv (net s) = true.
Proof. rewrite /off /isServerDead => ->. by rewrite bool_decide_true. Qed.

Lemma pc_step_unheard s q rn' q' : pc_step (net s) q rn' q' → off (rq_end q) s → unheard q → unheard q'.
Proof.
  intros Hs Ho [Hh Hpc].
  destruct Hs as [H1|????? H1|???? H1 Hinfo|? H1|? H1|??? H1|? H1|? H1|?? H1|?? H1|?? H1|?? H1|? H1|H1];
    rewrite H1 in Hpc; try done.
  exfalso. rewrite /readEndnameInfo in Hinfo. injection Hinfo. intros _ _ _ _. by rewrite Ho.
Qed.

Lemma pc_step_on_its_way s q rn' q' reply :
  pc_step (net s) q rn' q' → off (rq_end q) s → on_its_way q' reply → on_its_way q reply.
Proof.
  intros Hs Ho Hw.
  destruct Hs as [H1|????? H1|???? H1 Hinfo|? H1|? H1|??? H1|? H1|? H1|?? H1|?? H1 Hd|?? H1 Hd|?? H1 Hd|? H1|H1];
    rewrite /on_its_way /= in Hw |- *; try (destruct Hw; discriminate);
    try (by rewrite isServerDead_off in Hd). destruct Hw as [|[= ->]]; [done|auto].
Qed.

(** Requests on [e] at [s'], seen from [s]: made since and unheard, or there
    already, and answered with success only if the reply was on its way. *)
Definition silent e s s' : Prop :=
  ∀ i q, reqs s' !! i = Some q → rq_end q = e →
    (reqs s !! i = None ∧ unheard q) ∨
    ∃ q0, reqs s !! i = Some q0 ∧ rq_end q0 = e ∧ ∀ reply, on_its_way q reply → on_its_way q0 reply.

Lemma silent_step e s s1 s2 : off e s1 → rpc_step s1 s2 → silent e s s1 → (∀ i, is_Some (reqs s !! i) → is_Some (reqs s1 !! i)) →
  silent e s s2.
Proof.
  intros Ho [Hs|Hs] Hsil Hdom i q Hi He.
  - destruct Hs as [rn rn' os rs j q1 q2 Hj Hpc|rn os rs j q1 r rsv rsv' reply Hj Hh Hos Hd]; simpl in *;
      (destruct (decide (j = i)) as [->|]; [|rewrite lookup_insert_ne // in Hi; by eapply Hsil]);
      rewrite lookup_insert_eq in Hi; injection Hi as <-.
    + pose proof (pc_step_frame _ _ _ _ Hpc) as (_ & Ee & _). rewrite Ee in He.
      destruct (Hsil i q1 Hj He) as [[Hn Hu]|(q0 & Hq0 & He0 & Hw)].
      * left. split; [done|]. eapply (pc_step_unheard (mkRpc rn os rs)); [done|by rewrite He|done].
      * right. exists q0. split_and!; [done..|]. intros reply Hr. apply Hw.
        eapply (pc_step_on_its_way (mkRpc rn os rs)); [done|by rewrite He|done].
    + destruct (Hsil i q1 Hj He) as [[Hn [Hu _]]|(q0 & Hq0 & He0 & Hw)]; [congruence|].
      right. exists q0. split_and!; [done..|]. intros rep Hr. by apply Hw.
  - destruct Hs; simpl in *; try by eapply Hsil.
    destruct (decide (i0 = i)) as [->|]; [|rewrite lookup_insert_ne // in Hi; by eapply Hsil].
    rewrite lookup_insert_eq in Hi. injection Hi as <-. left. split; [|done].
    destruct (reqs s !! i) eqn:Hq; [|done]. destruct (Hdom i); [done|congruence].
Qed.

Lemma rpc_step_dom s s' i : rpc_step s s' → is_Some (reqs s !! i) → is_Some (reqs s' !! i).
Proof. intros Hs [q Hq]. destruct (rpc_step_req _ _ _ _ Hs Hq) as (q' & ? & _). eauto. Qed.

Lemma quiet_silent e s s' : off e s → rtc quiet_step s s' → silent e s s'.
Proof.
  intros Ho Hr.
  assert (silent e s s' ∧ off e s' ∧ ∀ i, is_Some (reqs s !! i) → is_Some (reqs s' !! i)) as (? & _ & _); [|done].
  revert s' Hr. refine (rtc_ind_r _ s _ _).
  - split_and!; [|done..]. intros i q Hi He. right. by exists q.
  - intros s1 s2 _ [Hs He] (Hsil & Ho1 & Hdom). split_and!.
    + by eapply silent_step.
    + by rewrite /off He.
    + intros i Hi. by eapply rpc_step_dom, Hdom.
Qed.
End silent.

(** ** Partitions *)

Section partition.
Context {Srv A : Type} `{!ServerKind Srv}.
Notation RpcState := (@RpcState NetName _ _ A).
Implicit Types (cfg : kcfg Srv) (s : RpcState).

(** The tables of the network are those the configuration made. *)
Definition shows cfg s : Prop :=
  enabled (net s) = enabled (k_net cfg) ∧ connections (net s) = connections (k_net cfg) ∧
  servers (net s) = servers (k_net cfg).

End partition.

(** ** An instance: two servers, one on each side *)

Definition reach {A} : @RpcState NetName _ _ A → Prop := rtc rpc_step init_rpc.

Definition add_end {A} (e : string) (b : nat) (yes : bool) (s : @RpcState NetName _ _ A) : RpcState :=
  match MakeEnd (inl e) (net s) with
  | Some rn => mkRpc (Enable (inl e) yes (Connect (inl e) (inr b) rn)) (objs s) (reqs s)
  | None => s
  end.

Lemma reach_end {A} (e : string) (b : nat) (yes : bool) (s : @RpcState NetName _ _ A) : reach s → reach (add_end e b yes s).
Proof.
  rewrite /reach /add_end. intros Hr. destruct (MakeEnd _ _) as [rn|] eqn:Hm; [|done]. destruct s as [rn0 os rs].
  eapply rtc_r; [|right; apply step_Enable]. eapply rtc_r; [|right; apply step_Connect].
  eapply rtc_r; [exact Hr|right; by apply (step_MakeEnd rn0 rn os rs (inl e))].
Qed.

Definition add_server {A} (b sid : nat) (svc : @Service A) (a : A) (s : @RpcState NetName _ _ A) : RpcState :=
  if decide (objs s !! sid = None) then
    mkRpc (AddServer (inr b) sid (net s)) (<[sid := foldr AddService (MakeServer a) [svc]]> (objs s)) (reqs s)
  else s.

Lemma reach_server {A} (b sid : nat) (svc : @Service A) (a : A) (s : @RpcState NetName _ _ A) : reach s → reach (add_server b sid svc a s).
Proof.
  rewrite /reach /add_server. intros Hr. case_decide as Hs; [|done]. destruct s as [rn os rs].
  eapply rtc_r; [exact Hr|right]. by apply (step_AddServer rn os rs).
Qed.

Definition add_call {A} (i : nat) (e : string) (meth args : string) (s : @RpcState NetName _ _ A) : RpcState :=
  if decide (reqs s !! i = None) then
    mkRpc (net s) (objs s) (<[i := mkReq (inl e) meth args Queued NotSpawned]> (reqs s))
  else s.

Lemma reach_call {A} (i : nat) (e meth args : string) (s : @RpcState NetName _ _ A) : reach s → reach (add_call i e meth args s).
Proof.
  rewrite /reach /add_call. intros Hr. case_decide as Hs; [|done]. destruct s as [rn os rs].
  eapply rtc_r; [exact Hr|right]. by apply (step_Call rn os rs).
Qed.

Definition pair_names (i : nat) : list string := match i with O => ["a0"; "a1"] | _ => ["b0"; "b1"] end.
Definition pair_cfg : kcfg KvRaft.KVServer := default (k_init 2) (KvRaft.kv_make_config 1000 2 false pair_names).
Definition pair_state : @RpcState NetName _ _ Z :=
  add_call 0 "a0" "KV.Add" "xyz" $
  add_end "b1" 1 true $ add_end "b0" 0 false $ add_end "a1" 1 false $ add_end "a0" 0 true $
  add_server 1 1 counter_service 0 $ add_server 0 0 counter_service 0 init_rpc.
Definition pair_call : @Req NetName := mkReq (inl "a0") "KV.Add" "xyz" Queued NotSpawned.

Lemma pair_state_reach : reach pair_state.
Proof. apply reach_call. repeat apply reach_end. repeat apply reach_server. apply rtc_refl. Qed.

