(* ===== verification/KvDisk.v ===== *)
(** * The disks of replicated services

    The configurations of the replicated services handle persisters the way the
    one of Raft does: seen through the Raft objects of the servers, their
    operations on persisters are those of [RaftConfig], and so what is proved of
    those carries over. *)
From S2P Require Import Prelude GoBase LabRpc Persister Harness RaftConfig RaftConfigThm RaftDisk KvConfig KvConfigThm KvTester.

Section disk.
Context {Srv : Type} `{!ServerKind Srv}.
Implicit Types (cfg : kcfg Srv) (i j o : nat).

(** The Raft objects of the servers, and what they are stored with. *)
Definition as_raft cfg : rcfg unit :=
  mkRC (k_net cfg) (k_n cfg) (k_servers cfg) [] (k_saved cfg) (k_endnames cfg) [] [] (srv_rf <$> k_insts cfg) (k_ps cfg).

Lemma as_raft_copy i cfg : copy_saved i (as_raft cfg) = as_raft <$> k_copy_saved i cfg.
Proof.
  rewrite /copy_saved /k_copy_saved /=. destruct (k_saved cfg !! i) as [[p|]|]; [|done..]. cbn [mbind option_bind].
  destruct (obj_Copy p (k_ps cfg)) as [[ps q]|]; [|done]. cbn [mbind option_bind]. by destruct (set_at i (Some q) (k_saved cfg)).
Qed.

Lemma as_raft_save o st sn cfg : inst_save o st sn (as_raft cfg) = as_raft <$> k_inst_save (o, st, sn) cfg.
Proof.
  rewrite /inst_save /k_inst_save. cbn [as_raft rc_insts rc_ps]. rewrite lookup_fmap.
  destruct (k_insts cfg !! o) as [s|]; [|done]. cbn [mbind option_bind fmap option_fmap option_map].
  destruct (obj_alloc st (k_ps cfg)) as [ps1 a]. destruct (obj_alloc sn ps1) as [ps2 b].
  by destruct (obj_Save (rf_persister (srv_rf s)) (Some a) (Some b) ps2).
Qed.

Lemma as_raft_saves w cfg : inst_saves w (as_raft cfg) = as_raft <$> foldM k_inst_save w cfg.
Proof.
  revert cfg. induction w as [|[[o st] sn] w IH]; intros cfg; [done|]. rewrite /inst_saves. cbn [foldM].
  change (inst_save o st sn (as_raft cfg) ≫= inst_saves w = as_raft <$> (k_inst_save (o, st, sn) cfg ≫= foldM k_inst_save w)).
  rewrite as_raft_save. destruct (k_inst_save (o, st, sn) cfg) as [c|]; [apply IH|done].
Qed.

(** Killing the instance and forgetting it. *)
Lemma as_raft_kill i o servers cfg :
  k_servers cfg !! i = Some (Some o) → set_at i None (k_servers cfg) = Some servers →
  kill_raft i (as_raft cfg) = Some (as_raft (k_set_servers servers (alter srv_Kill o (k_insts cfg)) cfg)).
Proof.
  intros Ho Hs. rewrite /kill_raft /= Ho. cbn [mbind option_bind]. rewrite Hs. cbn [mbind option_bind].
  rewrite /set_rafts /as_raft /=. do 2 f_equal. apply map_eq. intros o'. rewrite lookup_fmap.
  destruct (decide (o' = o)) as [->|Hne].
  - rewrite !lookup_alter_eq lookup_fmap. destruct (k_insts cfg !! o); [|done]. simpl. by rewrite srv_rf_Kill.
  - by rewrite !lookup_alter_ne // lookup_fmap.
Qed.

Definition k_stored cfg j : option (string * string) := stored (as_raft cfg) j.
Definition k_pers cfg : Prop := pers_inv None (as_raft cfg).

(** What the disk of server [j] holds after an operation. *)
Definition k_disk_after (op : KOp) cfg j : option (string * string) :=
  match op with
  | KShutdown i w =>
      if bool_decide (j = i) || negb (bool_decide (is_Some (mjoin (k_servers cfg !! i)))) then k_stored cfg j
      else after_saves (as_raft cfg) w j
  | KStart i _ => if bool_decide (j = i) then Some (default ("", "") (k_stored cfg i)) else k_stored cfg j
  | KSave x => after_saves (as_raft cfg) [x] j
  | _ => k_stored cfg j
  end.

Lemma k_pers_same cfg cfg' :
  k_pers cfg → same_pers (as_raft cfg) (as_raft cfg') → k_pers cfg' ∧ ∀ j, k_stored cfg' j = k_stored cfg j.
Proof. intros Hp Hs. split; [by eapply pers_inv_same|]. intros j. by apply stored_same. Qed.

Lemma ShutdownServer_disk i w cfg cfg' :
  k_pers cfg → ShutdownServer i w cfg = Some cfg' → k_pers cfg' ∧ ∀ j, k_stored cfg' j = k_disk_after (KShutdown i w) cfg j.
Proof.
  intros Hp. rewrite /ShutdownServer. destruct (disconnectUnlocked _ _ _) as [c1|] eqn:H1; [|done]. cbn [mbind option_bind].
  assert (∃ rn, c1 = k_set_net rn cfg) as [rn ->].
  { revert H1. rewrite /disconnectUnlocked. destruct (toggle_loop _ _ _ _) as [rn1|]; [|done]. cbn [mbind option_bind].
    destruct (toggle_loop _ _ _ rn1); [|done]. intros [= <-]. eauto. }
  set (c2 := k_set_net _ _). assert (pers_inv None (as_raft c2)) as I2 by by eapply pers_inv_same.
  destruct (k_copy_saved i c2) as [c3|] eqn:H3; [|done]. cbn [mbind option_bind].
  assert (copy_saved i (as_raft c2) = Some (as_raft c3)) as H3' by by rewrite as_raft_copy H3.
  destruct (copy_saved_spec _ _ _ _ I2 (or_introl eq_refl) H3') as (I3 & S3 & _).
  apply copy_saved_frame in H3' as (_ & _ & R3 & _). simpl in R3.
  assert (∀ j, stored (as_raft c3) j = k_stored cfg j) as S3' by (intros j; rewrite S3; done).
  rewrite /k_disk_after. destruct (k_servers c3 !! i) as [[o|]|] eqn:Ho; [| |done]; cbn [mbind option_bind].
  - destruct (foldM k_inst_save w c3) as [c4|] eqn:H4; [|done]. cbn [mbind option_bind].
    assert (inst_saves w (as_raft c3) = Some (as_raft c4)) as H4' by by rewrite as_raft_saves H4.
    destruct (inst_saves_spec _ _ _ _ I3 H4') as (I4 & R4 & S4). simpl in R4.
    destruct (set_at i None (k_servers c4)) as [l|] eqn:Hs; [|done]. intros [= <-].
    assert (k_servers c4 !! i = Some (Some o)) as Ho4 by by rewrite R4.
    pose proof (as_raft_kill i o l c4 Ho4 Hs) as Hk. destruct (kill_raft_pers_inv _ _ _ I4 Hk) as (I5 & S5 & _).
    split; [done|]. intros j. rewrite /k_stored S5 S4. rewrite R3 in Ho. rewrite Ho. cbn [mjoin option_join].
    rewrite (bool_decide_true (is_Some (Some o))); [|by eauto]. rewrite orb_false_r.
    destruct (decide (j = i)) as [->|Hj]; [rewrite !bool_decide_true //; apply S3'|].
    rewrite !bool_decide_false; [|congruence..]. apply after_saves_same; [by rewrite /= R3|apply S3'].
  - intros [= <-]. split; [by apply (pers_inv_down i)|]. intros j. rewrite R3 in Ho. rewrite Ho. cbn [mjoin option_join].
    rewrite (bool_decide_false (is_Some None)) ?orb_true_r; [apply S3'|by intros []].
Qed.

Lemma k_start_persister_disk i cfg cfg' :
  k_pers cfg → k_start_persister i cfg = Some cfg' →
  pers_inv (Some i) (as_raft cfg') ∧ k_servers cfg' = k_servers cfg ∧
  ∀ j, k_stored cfg' j = if bool_decide (j = i) then Some (default ("", "") (k_stored cfg i)) else k_stored cfg j.
Proof.
  intros Hp. rewrite /k_start_persister. destruct (k_saved cfg !! i) as [[p|]|] eqn:Hi; [| |done]; cbn [mbind option_bind]; intros Hr.
  - assert (copy_saved i (as_raft cfg) = Some (as_raft cfg')) as Hr' by by rewrite as_raft_copy Hr.
    destruct (copy_saved_spec _ _ _ _ Hp (or_introl eq_refl) Hr') as (I & S & _). apply copy_saved_frame in Hr' as (_ & _ & R & _).
    split_and!; [done..|]. intros j. rewrite /k_stored S. case_bool_decide as Hj; [|done]. subst.
    by destruct (stored_saved _ _ _ _ Hp Hi) as [? ->].
  - destruct (obj_Make (k_ps cfg)) as [ps q] eqn:H1. destruct (set_at i (Some q) (k_saved cfg)) as [l|] eqn:Hs; [|done].
    apply set_at_Some in Hs as [Hlt ->]. injection Hr as <-. apply obj_Make_spec in H1 as (St & Q1 & C1 & D1).
    apply not_elem_of_dom in Q1. pose proof (persister_step_inv _ _ (pv_inv _ _ Hp) St) as Ips.
    destruct (stored_replace None i q _ ps (as_raft cfg) Hp (or_introl eq_refl) Ips D1 Q1 C1 Hlt) as [I S].
    split_and!; [done..|]. intros j. etrans; [apply S|]. case_bool_decide; [|done].
    by rewrite /k_stored /stored /= Hi.
Qed.

Lemma StartServer_disk i names cfg cfg' :
  k_pers cfg → StartServer i names cfg = Some cfg' → k_pers cfg' ∧ ∀ j, k_stored cfg' j = k_disk_after (KStart i names) cfg j.
Proof.
  intros Hp. rewrite /StartServer. destruct (negb _); [done|]. destruct (set_at i (Some names) _) as [rows|]; [|done]. cbn [mbind option_bind].
  destruct (make_ends _ _) as [rn|]; [|done]. cbn [mbind option_bind]. set (c1 := k_set_net rn _).
  assert (k_pers c1) as I1 by by eapply pers_inv_same.
  destruct (k_start_persister i c1) as [c2|] eqn:H2; [|done]. cbn [mbind option_bind].
  destruct (k_start_persister_disk _ _ _ I1 H2) as (I2 & R2 & S2).
  destruct (k_saved c2 !! i) as [[q|]|] eqn:Hq; [|done..]. cbn [mbind option_bind mjoin option_join].
  set (o := fresh (dom (k_insts c2))). destruct (set_at i _ (k_servers c2)) as [l|] eqn:Hs; [|done].
  apply set_at_Some in Hs as [Hlt ->]. intros [= <-]. split; [|intros j; exact (S2 j)].
  assert (k_insts c2 !! o = None) as Ho by apply not_elem_of_dom, is_fresh.
  assert (rc_insts (as_raft c2) !! o = None) as Ho' by by rewrite /= lookup_fmap Ho.
  pose proof (pers_inv_new i names o q (as_raft c2) I2 Hq Ho' Hlt) as Hnew.
  eapply pers_inv_same; [apply Hnew|].
  - intros j Hj Hjo. destruct (pv_cur _ _ I2 j o Hjo) as (rf & Hrf & _); [congruence|congruence].
  - split_and!; try done. by rewrite /= fmap_insert srv_rf_Start.
Qed.

(** The other operations are on the network only. *)
Definition same_k cfg cfg' : Prop := same_pers (as_raft cfg) (as_raft cfg').

#[local] Instance same_k_preorder : PreOrder same_k.
Proof. split; [by intros ?|]. intros c1 c2 c3 H1 H2. rewrite /same_k. by etrans. Qed.

Lemma connectUnlocked_same_k i p cfg cfg' : connectUnlocked i p cfg = Some cfg' → same_k cfg cfg'.
Proof.
  rewrite /connectUnlocked. destruct (toggle_loop _ _ _ _) as [rn1|]; [|done]. cbn [mbind option_bind].
  destruct (toggle_loop _ _ _ rn1); [|done]. by intros [= <-].
Qed.

Lemma disconnectUnlocked_same_k i p cfg cfg' : disconnectUnlocked i p cfg = Some cfg' → same_k cfg cfg'.
Proof.
  rewrite /disconnectUnlocked. destruct (toggle_loop _ _ _ _) as [rn1|]; [|done]. cbn [mbind option_bind].
  destruct (toggle_loop _ _ _ rn1); [|done]. by intros [= <-].
Qed.

Lemma side_same_k p q l cfg cfg' :
  foldM (λ i cfg, cfg ← disconnectUnlocked i q cfg; connectUnlocked i p cfg) l cfg = Some cfg' → same_k cfg cfg'.
Proof.
  apply foldM_rel; [apply _|]. intros i c c' Hc. destruct (disconnectUnlocked i q c) as [c1|] eqn:H1; [|done].
  etrans; [by eapply disconnectUnlocked_same_k|by eapply connectUnlocked_same_k].
Qed.

Lemma net_op_same_k op cfg cfg' :
  match op with KShutdown _ _ | KStart _ _ | KSave _ => False | _ => True end → run_kop op cfg = Some cfg' → same_k cfg cfg'.
Proof.
  destruct op as [i to|i from| |p1 p2|names js to|ck to|ck from|ck|i w|i names|x]; simpl; intros Hop Ho; try done.
  - by eapply connectUnlocked_same_k.
  - by eapply disconnectUnlocked_same_k.
  - revert Ho. apply foldM_rel; [apply _|]. intros i c c'. apply connectUnlocked_same_k.
  - revert Ho. rewrite /partition. destruct (foldM _ p1 cfg) as [c1|] eqn:H1; [|done]. intros H2.
    etrans; [by eapply side_same_k|by eapply side_same_k].
  - revert Ho. rewrite /makeClient. destruct (negb _); [done|]. destruct (make_ends _ _); [|done]. cbn [mbind option_bind].
    destruct (random_handles js names); [|done]. cbn [mbind option_bind]. rewrite /ConnectClientUnlocked.
    destruct (toggle_loop _ _ _ _); [|done]. by intros [= <-].
  - revert Ho. rewrite /ConnectClientUnlocked. destruct (toggle_loop _ _ _ _); [|done]. by intros [= <-].
  - revert Ho. rewrite /DisconnectClientUnlocked. destruct (toggle_loop _ _ _ _); [|done]. by intros [= <-].
  - by injection Ho as <-.
Qed.

Lemma run_kop_disk op cfg cfg' :
  k_pers cfg → run_kop op cfg = Some cfg' → k_pers cfg' ∧ ∀ j, k_stored cfg' j = k_disk_after op cfg j.
Proof.
  intros Hp Ho. destruct op as [i to|i from| |p1 p2|names js to|ck to|ck from|ck|i w|i names|[[o st] sn]].
  1-8: apply k_pers_same; [done|]; by eapply net_op_same_k; [|exact Ho].
  - by apply ShutdownServer_disk.
  - by apply StartServer_disk.
  - assert (inst_save o st sn (as_raft cfg) = Some (as_raft cfg')) as Hs by (rewrite as_raft_save; change (as_raft <$> run_kop (KSave (o, st, sn)) cfg = Some (as_raft cfg')); by rewrite Ho).
    destruct (inst_save_spec _ _ _ _ _ _ Hp Hs) as (Hp' & _ & Hst). split; [done|]. intros j. rewrite /k_stored Hst /k_disk_after /after_saves /=.
    rewrite (bool_decide_ext _ (k_servers cfg !! j = Some (Some o))) //. simpl. naive_solver.
Qed.

Lemma k_pers_init n : k_pers (k_init n).
Proof.
  split; simpl.
  - apply persister_reachable_inv, rtc_refl.
  - by intros i p [? _]%lookup_replicate.
  - intros o rf Ho. by rewrite fmap_empty lookup_empty in Ho.
  - by intros i j p [? _]%lookup_replicate.
  - by intros i o [? _]%lookup_replicate.
  - intros o rf i Ho. by rewrite fmap_empty lookup_empty in Ho.
Qed.

Lemma make_config_pers n unreliable names cfg : make_config n unreliable names = Some cfg → k_pers cfg.
Proof.
  rewrite /make_config. destruct (foldM _ _ _) as [c1|] eqn:H1; [|done]. cbn [mbind option_bind].
  destruct (ConnectAll c1) as [c2|] eqn:H2; [|done]. intros [= <-].
  assert (k_pers c1) as Hp1.
  { apply (foldM_inv (λ _ c, k_pers c)) in H1; [done| |apply k_pers_init]. intros _ i c c' Hc Ho _. by eapply StartServer_disk. }
  apply (k_pers_same c2); [|done]. apply (k_pers_same c1); [done|]. by apply (net_op_same_k KConnectAll).
Qed.

(** C24: The services find on their disks what they saved. As for Raft, in every
    state the tests can reach: an operation changes what [cfg.saved[j]] holds only
    as the saves of the current instance of server [j] say, shutting a server down
    and starting it again keep it, and instances that were shut down change
    nothing however long they go on saving. *)
Theorem service_disks_survive n unreliable names ops op cfg0 cfg cfg' j :
  make_config n unreliable names = Some cfg0 → run_kops ops cfg0 = Some cfg → run_kop op cfg = Some cfg' →
  k_stored cfg' j = k_disk_after op cfg j.
Proof.
  intros H0%make_config_pers H1 Ho. assert (k_pers cfg) as Hp.
  { revert H1. apply (foldM_inv (λ _ c, k_pers c)); [|done]. intros _ op' c c' Hc Ho' _. by eapply run_kop_disk. }
  by apply run_kop_disk.
Qed.
End disk.

(** After the restart of server 1 its first instance saves again. *)
Lemma service_disks_survive_witness :
  ∃ cfg', run_kop (ServerKind0 := KvRaft.KVServer_kind 1000) (KSave (1%nat, "even later", "")) sample_kcfg = Some cfg' ∧
    k_stored (ServerKind0 := KvRaft.KVServer_kind 1000) cfg' 1 = Some ("", "").
Proof.
  assert (KvRaft.kv_make_config 1000 3 false sample_names = Some sample_kcfg0) as H0 by (vm_compute; reflexivity).
  assert (run_kops (ServerKind0 := KvRaft.KVServer_kind 1000) sample_kops sample_kcfg0 = Some sample_kcfg) as H1
    by (vm_compute; reflexivity).
  assert (is_Some (run_kop (ServerKind0 := KvRaft.KVServer_kind 1000) (KSave (1%nat, "even later", "")) sample_kcfg)) as [cfg' Ho]
    by (vm_compute; eauto).
  exists cfg'. split; [exact Ho|].
  rewrite (service_disks_survive (ServerKind0 := KvRaft.KVServer_kind 1000) 3 false sample_names sample_kops _ _ _ _ 1 H0 H1 Ho).
  vm_compute. reflexivity.
Defined.
