(* ===== verification/ShardConfig.v ===== *)
(** * The test configuration of the sharded key/value store

    Models [shardkv/config.go]: three replicas of the shard controller and three
    groups of servers on one network, clients, and the calls that make groups
    join and leave; with what there is of [shardkv/server.go]. Names of servers
    are strings here, like those of ends. *)
From S2P Require Import Prelude GoBase LabRpc Persister Harness RaftConfig Clerks KvConfig.

(** ** Names *)

(** controler server name for labrpc. *)
Definition ctrlername (i : nat) : string := "ctrler" +:+ Itoa (Z.of_nat i).

(** shard server name for labrpc: [i]'th server of group [gid]. *)
Definition servername (gid : Z) (i : nat) : string := "server-" +:+ Itoa gid +:+ "-" +:+ Itoa (Z.of_nat i).

(** ** Data *)

(** A server of a group; ends are given by their names. *)
Record ShardKV := mkShardKV {
  skv_me : nat;
  skv_rf : Raft;
  skv_gid : Z;
  skv_ctrlers : list string;
  skv_maxraftstate : Z;
}.

Definition ShardKV_StartServer (servers : list string) (me persister : nat) (maxraftstate gid : Z) (ctrlers : list string) : ShardKV :=
  mkShardKV me (Raft_Make servers me persister) gid ctrlers maxraftstate.
Definition ShardKV_Kill (kv : ShardKV) : ShardKV :=
  mkShardKV (skv_me kv) (Raft_Kill (skv_rf kv)) (skv_gid kv) (skv_ctrlers kv) (skv_maxraftstate kv).

Record group := mkGroup {
  g_gid : Z;
  g_servers : list (option nat);
  g_saved : list (option nat);
  g_endnames : list (option (list string));
  g_mendnames : list (option (list string));
}.

Record scfg := mkSC {
  s_net : Network (Name := string);
  s_nctrlers : nat;
  s_ctrlerservers : list (option nat);
  s_mck : CtrlClerk string;
  s_ngroups : nat;
  s_n : nat;                    (* servers per k/v group *)
  s_groups : list group;
  s_clerks : gmap nat (list string);
  s_nextClientId : Z;
  s_maxraftstate : Z;
  s_insts : gmap nat (ShardKV + ShardCtrlerTest.ShardCtrler);
  s_ps : PState;
}.

Definition s_set_net (rn : Network) (cfg : scfg) : scfg :=
  mkSC rn (s_nctrlers cfg) (s_ctrlerservers cfg) (s_mck cfg) (s_ngroups cfg) (s_n cfg) (s_groups cfg) (s_clerks cfg)
    (s_nextClientId cfg) (s_maxraftstate cfg) (s_insts cfg) (s_ps cfg).
Definition s_set_groups (l : list group) (cfg : scfg) : scfg :=
  mkSC (s_net cfg) (s_nctrlers cfg) (s_ctrlerservers cfg) (s_mck cfg) (s_ngroups cfg) (s_n cfg) l (s_clerks cfg)
    (s_nextClientId cfg) (s_maxraftstate cfg) (s_insts cfg) (s_ps cfg).
Definition s_set_insts (insts : gmap nat (ShardKV + ShardCtrlerTest.ShardCtrler)) (ps : PState) (cfg : scfg) : scfg :=
  mkSC (s_net cfg) (s_nctrlers cfg) (s_ctrlerservers cfg) (s_mck cfg) (s_ngroups cfg) (s_n cfg) (s_groups cfg) (s_clerks cfg)
    (s_nextClientId cfg) (s_maxraftstate cfg) insts ps.
Definition s_set_ctrlers (l : list (option nat)) (cfg : scfg) : scfg :=
  mkSC (s_net cfg) (s_nctrlers cfg) l (s_mck cfg) (s_ngroups cfg) (s_n cfg) (s_groups cfg) (s_clerks cfg)
    (s_nextClientId cfg) (s_maxraftstate cfg) (s_insts cfg) (s_ps cfg).
Definition s_set_mck (mck : CtrlClerk string) (cfg : scfg) : scfg :=
  mkSC (s_net cfg) (s_nctrlers cfg) (s_ctrlerservers cfg) mck (s_ngroups cfg) (s_n cfg) (s_groups cfg) (s_clerks cfg)
    (s_nextClientId cfg) (s_maxraftstate cfg) (s_insts cfg) (s_ps cfg).
Definition s_set_clerks (cl : gmap nat (list string)) (id : Z) (cfg : scfg) : scfg :=
  mkSC (s_net cfg) (s_nctrlers cfg) (s_ctrlerservers cfg) (s_mck cfg) (s_ngroups cfg) (s_n cfg) (s_groups cfg) cl
    id (s_maxraftstate cfg) (s_insts cfg) (s_ps cfg).

(** ** Ends *)

(** [MakeEnd(name); Connect(name, servername); Enable(name, true)] *)
Definition open_end (x : string * string) (rn : Network (Name := string)) : option Network :=
  Enable x.1 true <$> Harness.make_end x rn.
Definition open_ends : list (string * string) → Network → option Network := foldM open_end.

(** The function clients and servers get to reach the servers of a group. *)
Definition cfg_make_end (name servername : string) (cfg : scfg) : option scfg :=
  rn ← open_end (name, servername) (s_net cfg); Some (s_set_net rn cfg).

(** Ends for the replicas of the controller. *)
Definition ctrler_ends (names : list string) : list (string * string) := imap (λ j name, (name, ctrlername j)) names.

(** ** The controller *)

Definition StartCtrlerserver (i : nat) (names : list string) (cfg : scfg) : option scfg :=
  if negb (bool_decide (length names = s_nctrlers cfg)) then None else
  rn ← open_ends (ctrler_ends names) (s_net cfg);
  let '(ps, p) := obj_Make (s_ps cfg) in
  let o := fresh (dom (s_insts cfg)) in
  ctrlers ← set_at i (Some o) (s_ctrlerservers cfg);
  let cfg := s_set_insts (<[o := inr (ShardCtrlerTest.StartShardCtrler names i p)]> (s_insts cfg)) ps (s_set_ctrlers ctrlers cfg) in
  Some (s_set_net (AddServer (ctrlername i) o rn) cfg).

Definition shardclerk (names : list string) (cfg : scfg) : option (scfg * CtrlClerk string) :=
  if negb (bool_decide (length names = s_nctrlers cfg)) then None else
  rn ← open_ends (ctrler_ends names) (s_net cfg);
  Some (s_set_net rn cfg, Ctrl_MakeClerk names).

(** ** Clients *)

(** [endnames] has [cfg.n] elements and gets one name for each replica: an index
    out of range when there are more replicas. *)
Definition makeClient (names : list string) (cfg : scfg) : option (scfg * nat) :=
  if negb (bool_decide (length names = s_nctrlers cfg)) then None else
  endnames ← foldM (λ j l, name ← names !! j; set_at j name l) (seq 0 (s_nctrlers cfg)) (replicate (s_n cfg) "");
  rn ← open_ends (ctrler_ends names) (s_net cfg);
  let ck := fresh (dom (s_clerks cfg)) in
  Some (s_set_clerks (<[ck := endnames]> (s_clerks cfg)) (s_nextClientId cfg + 1) (s_set_net rn cfg), ck).

Definition deleteClient (ck : nat) (cfg : scfg) : scfg := s_set_clerks (delete ck (s_clerks cfg)) (s_nextClientId cfg) cfg.

(** ** Servers *)

(** [gg.saved[i]] is replaced by a copy. *)
Definition g_copy_saved (gi i : nat) (cfg : scfg) : option scfg :=
  gg ← s_groups cfg !! gi;
  p ← g_saved gg !! i;
  match p with
  | None => Some cfg
  | Some p =>
      '(ps, q) ← obj_Copy p (s_ps cfg);
      saved ← set_at i (Some q) (g_saved gg);
      groups ← set_at gi (mkGroup (g_gid gg) (g_servers gg) saved (g_endnames gg) (g_mendnames gg)) (s_groups cfg);
      Some (s_set_insts (s_insts cfg) ps (s_set_groups groups cfg))
  end.

Definition ShutdownServer (gi i : nat) (cfg : scfg) : option scfg :=
  gg ← s_groups cfg !! gi;
  (* prevent this server from sending *)
  rn ← toggle_loop (λ j, ns ← mjoin (g_endnames gg !! i); name ← ns !! j; Some (Some name)) false
         (seq 0 (length (g_servers gg))) (s_net cfg);
  row ← g_mendnames gg !! i;
  rn ← toggle_loop (λ j, ns ← row; name ← ns !! j; Some (Some name)) false (seq 0 (length (default [] row))) rn;
  let cfg := s_set_net (DeleteServer (servername (g_gid gg) i) rn) cfg in
  cfg ← g_copy_saved gi i cfg;
  gg ← s_groups cfg !! gi;
  kv ← g_servers gg !! i;
  match kv with
  | None => Some cfg
  | Some o =>
      servers ← set_at i None (g_servers gg);
      groups ← set_at gi (mkGroup (g_gid gg) servers (g_saved gg) (g_endnames gg) (g_mendnames gg)) (s_groups cfg);
      Some (s_set_insts (alter (sum_map ShardKV_Kill id) o (s_insts cfg)) (s_ps cfg) (s_set_groups groups cfg))
  end.

Definition ShutdownGroup (gi : nat) (cfg : scfg) : option scfg := foldM (ShutdownServer gi) (seq 0 (s_n cfg)) cfg.

(** The persister of a new instance. *)
Definition g_start_persister (gi i : nat) (cfg : scfg) : option scfg :=
  gg ← s_groups cfg !! gi;
  p ← g_saved gg !! i;
  match p with
  | Some _ => g_copy_saved gi i cfg
  | None =>
      let '(ps, q) := obj_Make (s_ps cfg) in
      saved ← set_at i (Some q) (g_saved gg);
      groups ← set_at gi (mkGroup (g_gid gg) (g_servers gg) saved (g_endnames gg) (g_mendnames gg)) (s_groups cfg);
      Some (s_set_insts (s_insts cfg) ps (s_set_groups groups cfg))
  end.

(** The random names: of the ends for the group, and for the controller. *)
Definition StartServer (gi i : nat) (names mnames : list string) (cfg : scfg) : option scfg :=
  if negb (bool_decide (length names = s_n cfg)) || negb (bool_decide (length mnames = s_nctrlers cfg)) then None else
  gg ← s_groups cfg !! gi;
  endnames ← set_at i (Some names) (g_endnames gg);
  rn ← open_ends (imap (λ j name, (name, servername (g_gid gg) j)) names) (s_net cfg);
  mendnames ← set_at i (Some mnames) (g_mendnames gg);
  rn ← open_ends (ctrler_ends mnames) rn;
  groups ← set_at gi (mkGroup (g_gid gg) (g_servers gg) (g_saved gg) endnames mendnames) (s_groups cfg);
  cfg ← g_start_persister gi i (s_set_groups groups (s_set_net rn cfg));
  gg ← s_groups cfg !! gi;
  q ← mjoin (g_saved gg !! i);
  let o := fresh (dom (s_insts cfg)) in
  servers ← set_at i (Some o) (g_servers gg);
  groups ← set_at gi (mkGroup (g_gid gg) servers (g_saved gg) (g_endnames gg) (g_mendnames gg)) (s_groups cfg);
  let kv := ShardKV_StartServer names i q (s_maxraftstate cfg) (g_gid gg) mnames in
  let cfg := s_set_insts (<[o := inl kv]> (s_insts cfg)) (s_ps cfg) (s_set_groups groups cfg) in
  Some (s_set_net (AddServer (servername (g_gid gg) i) o (s_net cfg)) cfg).

Definition StartGroup (gi : nat) (names mnames : nat → list string) (cfg : scfg) : option scfg :=
  foldM (λ i, StartServer gi i (names i) (mnames i)) (seq 0 (s_n cfg)) cfg.

(** [checklogs]: the sizes of every server's persister. [None] is a nil pointer,
    [false] a failed test. *)
Definition checklogs (cfg : scfg) : option bool :=
  foldM (λ gi ok, gg ← s_groups cfg !! gi;
    foldM (λ i ok,
      p ← mjoin (g_saved gg !! i); ps ← persisters (s_ps cfg) !! p;
      let raft := RaftStateSize (memory (s_ps cfg)) ps in
      let snap := slen (slice (memory (s_ps cfg)) (snapshot ps)) in
      Some (ok && negb (bool_decide (s_maxraftstate cfg >= 0) && bool_decide (raft > 8 * s_maxraftstate cfg))
               && negb (bool_decide (s_maxraftstate cfg < 0) && bool_decide (snap > 0))))
    (seq 0 (s_n cfg)) ok) (seq 0 (s_ngroups cfg)) true.

(** ** Joining and leaving *)

Definition join_map (gis : list nat) (cfg : scfg) : option (gmap Z (list string)) :=
  foldM (λ g m, gg ← s_groups cfg !! g; Some (<[g_gid gg := servername (g_gid gg) <$> seq 0 (s_n cfg)]> m)) gis ∅.

Definition joinm net (fuel : nat) (gis : list nat) (cfg : scfg) (log : list (Entry string)) :=
  m ← join_map gis cfg; Some (Join net fuel (s_mck cfg) m log).
Definition join net (fuel : nat) (gi : nat) := joinm net fuel [gi].

Definition leave_gids (gis : list nat) (cfg : scfg) : option (list Z) :=
  foldM (λ g gids, gg ← s_groups cfg !! g; Some (gids ++ [g_gid gg])) gis [].

Definition leavem net (fuel : nat) (gis : list nat) (cfg : scfg) (log : list (Entry string)) :=
  gids ← leave_gids gis cfg; Some (Leave net fuel (s_mck cfg) gids log).
Definition leave net (fuel : nat) (gi : nat) := leavem net fuel [gi].

(** ** make_config *)

(** The random names the configuration draws. *)
Record Names := mkNames {
  nm_ctrler : nat → list string;
  nm_clerk : list string;
  nm_group : nat → nat → list string;
  nm_mgroup : nat → nat → list string;
}.

Definition s_init (maxraftstate : Z) : scfg :=
  mkSC MakeNetwork 3 (replicate 3 None) (mkCtrlClerk []) 0 0 [] ∅ 0 maxraftstate ∅ init_persisters.

Definition new_group (n nctrlers : nat) (gi : nat) : group :=
  mkGroup (100 + Z.of_nat gi) (replicate n None) (replicate n None) (replicate n None) (replicate nctrlers None).

Definition start_group (n : nat) (nm : Names) (gi : nat) (cfg : scfg) : option scfg :=
  let cfg := s_set_groups (s_groups cfg ++ [new_group n (s_nctrlers cfg) gi]) cfg in
  foldM (λ i, StartServer gi i (nm_group nm gi i) (nm_mgroup nm gi i)) (seq 0 n) cfg.

Definition make_config (n : nat) (unreliable : bool) (maxraftstate : Z) (nm : Names) : option scfg :=
  cfg ← foldM (λ i, StartCtrlerserver i (nm_ctrler nm i)) (seq 0 3) (s_init maxraftstate);
  '(cfg, mck) ← shardclerk (nm_clerk nm) cfg;
  let cfg := s_set_mck mck cfg in
  let cfg := mkSC (s_net cfg) (s_nctrlers cfg) (s_ctrlerservers cfg) (s_mck cfg) 3 n (s_groups cfg) (s_clerks cfg)
               (s_nextClientId cfg) (s_maxraftstate cfg) (s_insts cfg) (s_ps cfg) in
  cfg ← foldM (start_group n nm) (seq 0 3) cfg;
  let cfg := s_set_clerks ∅ (Z.of_nat n + 1000) cfg in
  Some (s_set_net (Reliable (negb unreliable) (s_net cfg)) cfg).

(** All groups are shut down and the controller's replicas killed. *)
Definition cleanup (cfg : scfg) : option scfg :=
  cfg ← foldM ShutdownGroup (seq 0 (s_ngroups cfg)) cfg;
  insts ← foldM (λ i insts, o ← mjoin (s_ctrlerservers cfg !! i);
            Some (alter (sum_map id ShardCtrlerTest.SC_Kill) o insts)) (seq 0 (s_nctrlers cfg)) (s_insts cfg);
  Some (s_set_insts insts (s_ps cfg) cfg).

(** ** Shared with the other configurations *)

(** [random_handles] is not called here: clients keep the order of their ends. *)
Definition sk_random_handles := random_handles (A := string).
Definition sk_checkTimeout := KvRaft.kv_checkTimeout.
