(* ===== verification/ShardConfigThm.v ===== *)
(** * The names of the sharded store lead to its servers

    What clients learn about a group, through the controller, are names of
    servers. They are different for different servers, and at any time lead to the
    instance that runs, or to none. *)
From S2P Require Import Prelude GoBase LabRpc Persister Harness RaftConfig RaftConfigThm Clerks KvConfig ShardConfig.

(** ** Names *)

Lemma servername_inj g i g' i' : 0 ≤ g → 0 ≤ g' → servername g i = servername g' i' → g = g' ∧ i = i'.
Proof.
  intros Hg Hg'. rewrite /servername. intros He. apply (inj (String.app "server-")), (f_equal str_to_list) in He.
  rewrite !str_to_list_app /= in He. apply list_split_sep_inj in He as [H1 H2]; [|by apply Itoa_no_dash..].
  split; [|apply (inj Z.of_nat)]; apply (inj Itoa); by apply (inj str_to_list).
Qed.

Lemma ctrlername_servername i g j : ctrlername i ≠ servername g j.
Proof. done. Qed.

(** ** The registry of servers *)

(** The registered object of every server of a group that runs is its current
    instance; the others are not registered. *)
Record reg_inv (cfg : scfg) : Prop := {
  rg_gid : ∀ gi gg, s_groups cfg !! gi = Some gg → g_gid gg = 100 + Z.of_nat gi;
  rg_len : ∀ gi gg, s_groups cfg !! gi = Some gg → length (g_mendnames gg) = s_nctrlers cfg ∧
    length (g_servers gg) = s_n cfg;
  rg_up : ∀ gi gg i o, s_groups cfg !! gi = Some gg → g_servers gg !! i = Some (Some o) →
    LabRpc.servers (s_net cfg) !! servername (g_gid gg) i = Some (Some o) ∧
    ∃ kv, s_insts cfg !! o = Some (inl kv) ∧ skv_gid kv = g_gid gg ∧ skv_me kv = i;
  rg_down : ∀ gi gg i, s_groups cfg !! gi = Some gg → g_servers gg !! i = Some None →
    mjoin (LabRpc.servers (s_net cfg) !! servername (g_gid gg) i) = None;
  rg_new : ∀ gid i, 100 + Z.of_nat (length (s_groups cfg)) ≤ gid → LabRpc.servers (s_net cfg) !! servername gid i = None;
}.

(** Changes of the network that keep the registry. *)
Lemma reg_inv_net rn cfg : reg_inv cfg → LabRpc.servers rn = LabRpc.servers (s_net cfg) → reg_inv (s_set_net rn cfg).
Proof. intros [H1 H2 H3 H4 H5] E. split; simpl; rewrite ?E; done. Qed.

Lemma open_ends_servers ps (rn rn' : Network (Name := string)) : open_ends ps rn = Some rn' → LabRpc.servers rn' = LabRpc.servers rn.
Proof.
  assert (PreOrder (λ rn rn' : Network (Name := string), LabRpc.servers rn' = LabRpc.servers rn)) by (split; [done|intros ???; congruence]).
  apply (foldM_rel (λ rn rn', LabRpc.servers rn' = LabRpc.servers rn)). intros [e s] r r'.
  rewrite /open_end /Harness.make_end /= /MakeEnd. case_bool_decide; [done|]. by intros [= <-].
Qed.

Lemma toggle_servers (pick : nat → option (option string)) yes js rn rn' :
  toggle_loop pick yes js rn = Some rn' → LabRpc.servers rn' = LabRpc.servers rn.
Proof. intros (names & -> & _)%toggle_loop_spec. by destruct (enable_all_same names yes rn) as (_ & _ & ->). Qed.

(** Changing a group in its persisters and ends. *)
Definition same_servers (gg gg' : group) : Prop :=
  g_gid gg' = g_gid gg ∧ g_servers gg' = g_servers gg ∧ length (g_mendnames gg') = length (g_mendnames gg).

Lemma reg_inv_group gi gg gg' ps cfg :
  reg_inv cfg → s_groups cfg !! gi = Some gg → same_servers gg gg' →
  reg_inv (s_set_insts (s_insts cfg) ps (s_set_groups (<[gi := gg']> (s_groups cfg)) cfg)).
Proof.
  intros [H1 H2 H3 H4 H5] Hgi (E1 & E2 & E3). split; simpl; [..|by rewrite length_insert].
  - intros gj g [(<- & <- & _)|[_ Hg]]%list_lookup_insert_Some; [rewrite E1|]; by apply H1.
  - intros gj g [(<- & <- & _)|[_ Hg]]%list_lookup_insert_Some; [rewrite E2 E3|]; by eapply H2.
  - intros gj g i o [(<- & <- & _)|[_ Hg]]%list_lookup_insert_Some; [rewrite E1 E2|]; by eapply H3.
  - intros gj g i [(<- & <- & _)|[_ Hg]]%list_lookup_insert_Some; [rewrite E1 E2|]; by eapply H4.
Qed.

Lemma g_copy_saved_inv gi i cfg cfg' :
  reg_inv cfg → g_copy_saved gi i cfg = Some cfg' →
  reg_inv cfg' ∧ s_net cfg' = s_net cfg ∧ s_insts cfg' = s_insts cfg ∧ s_n cfg' = s_n cfg ∧ s_nctrlers cfg' = s_nctrlers cfg ∧
  length (s_groups cfg') = length (s_groups cfg) ∧
  ∀ gj gg, s_groups cfg !! gj = Some gg → ∃ gg', s_groups cfg' !! gj = Some gg' ∧ same_servers gg gg'.
Proof.
  intros Hinv. rewrite /g_copy_saved. destruct (s_groups cfg !! gi) as [gg|] eqn:Hgi; [|done]. cbn [mbind option_bind].
  destruct (g_saved gg !! i) as [[p|]|] eqn:Hp; [| |done]; cbn [mbind option_bind].
  2: { intros [= <-]. split_and!; [done..|]. intros gj g Hg. by exists g. }
  destruct (obj_Copy p (s_ps cfg)) as [[ps q]|]; [|done]. cbn [mbind option_bind].
  destruct (set_at i (Some q) _) as [l|] eqn:Hl; [|done]. apply set_at_Some in Hl as [Hlt ->]. cbn [mbind option_bind].
  destruct (set_at gi _ _) as [gs|] eqn:Hg; [|done]. apply set_at_Some in Hg as [Hglt ->]. intros [= <-].
  set (gg' := mkGroup _ _ _ _ _). assert (same_servers gg gg') as Hss by by split_and!.
  split_and!; [by eapply reg_inv_group|done..|by rewrite /= length_insert|].
  intros gj g Hgj. simpl. destruct (decide (gj = gi)) as [->|]; [|rewrite list_lookup_insert_ne //; by exists g].
  rewrite list_lookup_insert_eq //. simplify_eq. eauto.
Qed.

Lemma g_copy_saved_net gi i rn cfg : g_copy_saved gi i (s_set_net rn cfg) = s_set_net rn <$> g_copy_saved gi i cfg.
Proof.
  rewrite /g_copy_saved /=. destruct (s_groups cfg !! gi) as [gg|]; [|done]. cbn [mbind option_bind].
  destruct (g_saved gg !! i) as [[p|]|]; [|done..]. cbn [mbind option_bind].
  destruct (obj_Copy p (s_ps cfg)) as [[ps q]|]; [|done]. cbn [mbind option_bind].
  destruct (set_at i (Some q) _); [|done]. cbn [mbind option_bind]. destruct (set_at gi _ _); reflexivity.
Qed.

(** The server [i] of a group is registered, or no longer. *)
Definition with_server (gi i : nat) (gg : group) (so : option nat) insts (cfg : scfg) : scfg :=
  s_set_net (set_servers <[servername (g_gid gg) i := so]> (s_net cfg))
    (s_set_insts insts (s_ps cfg) (s_set_groups
      (<[gi := mkGroup (g_gid gg) (<[i := so]> (g_servers gg)) (g_saved gg) (g_endnames gg) (g_mendnames gg)]> (s_groups cfg)) cfg)).

Lemma with_server_id gi i gg cfg :
  s_groups cfg !! gi = Some gg → g_servers gg !! i = Some None →
  with_server gi i gg None (s_insts cfg) cfg = s_set_net (DeleteServer (servername (g_gid gg) i) (s_net cfg)) cfg.
Proof.
  intros Hgi Hi. rewrite /with_server (list_insert_id (g_servers gg)) //.
  replace (mkGroup (g_gid gg) (g_servers gg) (g_saved gg) (g_endnames gg) (g_mendnames gg)) with gg by by destruct gg.
  by rewrite list_insert_id.
Qed.

Lemma reg_inv_set gi i gg so insts cfg :
  reg_inv cfg → s_groups cfg !! gi = Some gg → (i < length (g_servers gg))%nat →
  (∀ o kv, s_insts cfg !! o = Some (inl kv) → ∃ kv', insts !! o = Some (inl kv') ∧ skv_gid kv' = skv_gid kv ∧ skv_me kv' = skv_me kv) →
  (∀ o, so = Some o → ∃ kv, insts !! o = Some (inl kv) ∧ skv_gid kv = g_gid gg ∧ skv_me kv = i) →
  reg_inv (with_server gi i gg so insts cfg).
Proof.
  intros [H1 H2 H3 H4 H5] Hgi Hi Hinsts Hso. pose proof (lookup_lt_Some _ _ _ Hgi) as Hlt.
  assert (∀ gj g k, s_groups cfg !! gj = Some g → (gj, k) ≠ (gi, i) → servername (g_gid gg) i ≠ servername (g_gid g) k) as Hne.
  { intros gj g k Hg Hd He. rewrite (H1 _ _ Hgi) (H1 _ _ Hg) in He. apply servername_inj in He as [? ?]; [|lia..].
    apply Hd. f_equal; [lia|done]. }
  split; simpl.
  - intros gj g [(<- & <- & _)|[_ Hg]]%list_lookup_insert_Some; simpl; by eapply H1.
  - intros gj g [(<- & <- & _)|[_ Hg]]%list_lookup_insert_Some; [rewrite /= length_insert|]; by eapply H2.
  - intros gj g k o [(<- & <- & _)|[Hd Hg]]%list_lookup_insert_Some; simpl.
    + intros [(<- & -> & _)|[Hk Ho]]%list_lookup_insert_Some.
      * rewrite lookup_insert_eq. split; [done|by apply Hso].
      * destruct (H3 gi gg k o Hgi Ho) as [Hs (kv & Hkv & Hgid & Hme)]. destruct (Hinsts o kv Hkv) as (kv' & ? & ? & ?).
        rewrite lookup_insert_ne; [split; [done|exists kv'; split_and!; congruence]|]. apply (Hne gi); [done|congruence].
    + intros Ho. destruct (H3 gj g k o Hg Ho) as [Hs (kv & Hkv & Hgid & Hme)]. destruct (Hinsts o kv Hkv) as (kv' & ? & ? & ?).
      rewrite lookup_insert_ne; [split; [done|exists kv'; split_and!; congruence]|]. apply (Hne gj); [done|congruence].
  - intros gj g k [(<- & <- & _)|[Hd Hg]]%list_lookup_insert_Some; simpl.
    + intros [(<- & -> & _)|[Hk Ho]]%list_lookup_insert_Some; [by rewrite lookup_insert_eq|].
      rewrite lookup_insert_ne; [by eapply H4|]. apply (Hne gi); [done|congruence].
    + intros Ho. rewrite lookup_insert_ne; [by eapply H4|]. apply (Hne gj); [done|congruence].
  - intros gid k Hgid. rewrite length_insert in Hgid. rewrite lookup_insert_ne; [by apply H5|]. intros He.
    rewrite (H1 _ _ Hgi) in He. apply servername_inj in He as [? _]; lia.
Qed.

(** The state a configuration keeps while servers come and go. *)
Definition same_shape cfg cfg' : Prop :=
  s_n cfg' = s_n cfg ∧ s_nctrlers cfg' = s_nctrlers cfg ∧ length (s_groups cfg') = length (s_groups cfg).

#[global] Instance same_shape_preorder : PreOrder same_shape.
Proof. split; [by intros ?|]. intros ??? (? & ? & ?) (? & ? & ?). split_and!; congruence. Qed.

Lemma ShutdownServer_reg gi i cfg cfg' : reg_inv cfg → ShutdownServer gi i cfg = Some cfg' → reg_inv cfg' ∧ same_shape cfg cfg'.
Proof.
  intros Hinv. rewrite /ShutdownServer. destruct (s_groups cfg !! gi) as [gg|] eqn:Hgi; [|done]. cbn [mbind option_bind].
  destruct (toggle_loop _ _ _ (s_net cfg)) as [rn1|] eqn:T1; [|done]. cbn [mbind option_bind].
  destruct (g_mendnames gg !! i) as [row|]; [|done]. cbn [mbind option_bind].
  destruct (toggle_loop _ _ _ rn1) as [rn2|] eqn:T2; [|done]. cbn [mbind option_bind].
  apply toggle_servers in T1, T2. rewrite g_copy_saved_net.
  pose proof (reg_inv_net rn2 cfg Hinv ltac:(by rewrite T2)) as I2.
  destruct (g_copy_saved gi i cfg) as [c3|] eqn:H3; [|done].
  assert (g_copy_saved gi i (s_set_net rn2 cfg) = Some (s_set_net rn2 c3)) as H3' by by rewrite g_copy_saved_net H3.
  destruct (g_copy_saved_inv _ _ _ _ I2 H3') as (I3 & _ & _ & En & Ec & El & Hgg). simpl in Hgg, En, Ec, El.
  cbn [mbind option_bind fmap option_fmap option_map s_groups s_set_net].
  destruct (Hgg gi gg Hgi) as (gg3 & Hgi3 & (E1 & E2 & E3)). rewrite Hgi3. cbn [mbind option_bind].
  destruct (g_servers gg3 !! i) as [kv|] eqn:Hkv; [|done]. cbn [mbind option_bind]. pose proof (lookup_lt_Some _ _ _ Hkv) as Hi.
  rewrite -E1. destruct kv as [o|].
  - rewrite set_at_total //. cbn [mbind option_bind]. rewrite set_at_total; [|by eapply lookup_lt_Some]. intros [= <-].
    split; [|split_and!; simpl; [done..|by rewrite length_insert]].
    pose proof (reg_inv_set gi i gg3 None (alter (sum_map ShardKV_Kill id) o (s_insts c3)) (s_set_net rn2 c3) I3 Hgi3 Hi) as Hset.
    apply Hset; [|done]. intros o' kv' Ho'. destruct (decide (o' = o)) as [->|].
    + rewrite lookup_alter_eq. simpl in Ho'. rewrite Ho' /=. eauto.
    + rewrite lookup_alter_ne //. eauto.
  - intros [= <-]. split; [|done]. pose proof (with_server_id gi i gg3 (s_set_net rn2 c3) Hgi3 Hkv) as Eid.
    assert (reg_inv (with_server gi i gg3 None (s_insts c3) (s_set_net rn2 c3))) as Hset
      by (apply reg_inv_set; [done..|by eauto|done]). rewrite Eid in Hset. exact Hset.
Qed.

Lemma g_start_persister_inv gi i cfg cfg' :
  reg_inv cfg → g_start_persister gi i cfg = Some cfg' →
  reg_inv cfg' ∧ s_net cfg' = s_net cfg ∧ s_insts cfg' = s_insts cfg ∧ s_n cfg' = s_n cfg ∧ s_nctrlers cfg' = s_nctrlers cfg ∧
  length (s_groups cfg') = length (s_groups cfg) ∧
  ∀ gj gg, s_groups cfg !! gj = Some gg → ∃ gg', s_groups cfg' !! gj = Some gg' ∧ same_servers gg gg'.
Proof.
  intros Hinv. rewrite /g_start_persister. destruct (s_groups cfg !! gi) as [gg|] eqn:Hgi; [|done]. cbn [mbind option_bind].
  destruct (g_saved gg !! i) as [[p|]|] eqn:Hp; [by apply g_copy_saved_inv| |done]; cbn [mbind option_bind].
  destruct (obj_Make (s_ps cfg)) as [ps q].
  destruct (set_at i (Some q) _) as [l|] eqn:Hl; [|done]. apply set_at_Some in Hl as [Hlt ->]. cbn [mbind option_bind].
  destruct (set_at gi _ _) as [gs|] eqn:Hg; [|done]. apply set_at_Some in Hg as [Hglt ->]. intros [= <-].
  set (gg' := mkGroup _ _ _ _ _). assert (same_servers gg gg') as Hss by by split_and!.
  split_and!; [by eapply reg_inv_group|done..|by rewrite /= length_insert|].
  intros gj g Hgj. simpl. destruct (decide (gj = gi)) as [->|]; [|rewrite list_lookup_insert_ne //; by exists g].
  rewrite list_lookup_insert_eq //. simplify_eq. eauto.
Qed.

(** Starting a server registers it; there are as many servers in a group as
    rows of names for the controller, at most. *)
Lemma StartServer_reg gi i names mnames cfg cfg' :
  reg_inv cfg → StartServer gi i names mnames cfg = Some cfg' →
  reg_inv cfg' ∧ same_shape cfg cfg' ∧ (i < s_nctrlers cfg)%nat ∧
  ∀ gj gg, s_groups cfg !! gj = Some gg → ∃ gg', s_groups cfg' !! gj = Some gg' ∧ length (g_servers gg') = length (g_servers gg) ∧
    (gj = gi → ∃ o, g_servers gg' !! i = Some (Some o)) ∧
    ∀ k, is_Some (mjoin (g_servers gg !! k)) → is_Some (mjoin (g_servers gg' !! k)).
Proof.
  intros Hinv. rewrite /StartServer. destruct (negb _ || negb _); [done|].
  destruct (s_groups cfg !! gi) as [gg|] eqn:Hgi; [|done]. cbn [mbind option_bind].
  destruct (set_at i (Some names) _) as [es|] eqn:He; [|done]. apply set_at_Some in He as [_ ->]. cbn [mbind option_bind].
  destruct (open_ends _ (s_net cfg)) as [rn1|] eqn:T1; [|done]. cbn [mbind option_bind].
  destruct (set_at i (Some mnames) _) as [ms|] eqn:Hm; [|done]. apply set_at_Some in Hm as [Hmi ->]. cbn [mbind option_bind].
  destruct (open_ends _ rn1) as [rn2|] eqn:T2; [|done]. cbn [mbind option_bind]. apply open_ends_servers in T1, T2.
  destruct (set_at gi _ (s_groups cfg)) as [gs|] eqn:Hg; [|done]. apply set_at_Some in Hg as [Hglt ->]. cbn [mbind option_bind].
  set (gg1 := mkGroup _ _ _ _ _). assert (same_servers gg gg1) as Hss1 by (split_and!; [done..|by rewrite /= length_insert]).
  pose proof (reg_inv_net rn2 cfg Hinv ltac:(by rewrite T2)) as I2.
  pose proof (reg_inv_group gi gg gg1 (s_ps cfg) _ I2 Hgi Hss1) as I3. set (c3 := s_set_groups _ _).
  change (reg_inv c3) in I3.
  destruct (g_start_persister gi i c3) as [c4|] eqn:H4; [|done]. cbn [mbind option_bind].
  destruct (g_start_persister_inv _ _ _ _ I3 H4) as (I4 & En & Ei & E1 & E2 & E3 & Hgg4).
  assert (∀ gj g, s_groups cfg !! gj = Some g → ∃ g4, s_groups c4 !! gj = Some g4 ∧ same_servers g g4) as Hgg.
  { intros gj g Hgj. destruct (decide (gj = gi)) as [->|Hne].
    - destruct (Hgg4 gi gg1) as (g4 & ? & ?); [by rewrite /= list_lookup_insert_eq|]. exists g4. split; [done|].
      simplify_eq. destruct Hss1 as (? & ? & ?), H0 as (? & ? & ?). split_and!; congruence.
    - apply Hgg4. by rewrite /= list_lookup_insert_ne. }
  destruct (Hgg gi gg Hgi) as (gg4 & Hgi4 & (F1 & F2 & F3)). rewrite Hgi4. cbn [mbind option_bind].
  destruct (mjoin (g_saved gg4 !! i)) as [q|]; [|done]. cbn [mbind option_bind]. set (o := fresh _).
  destruct (set_at i (Some o) _) as [ss|] eqn:Hs; [|done]. apply set_at_Some in Hs as [Hsi ->]. cbn [mbind option_bind].
  rewrite set_at_total; [|by eapply lookup_lt_Some]. intros [= <-].
  assert (s_insts c4 !! o = None) as Ho by apply not_elem_of_dom, is_fresh.
  split_and!.
  - apply (reg_inv_set gi i gg4 (Some o) (<[o := inl (ShardKV_StartServer names i q (s_maxraftstate c4) (g_gid gg4) mnames)]> (s_insts c4)) c4); try done.
    + intros o' kv Ho'. rewrite lookup_insert_ne; [by eauto|]. congruence.
    + intros o' [= <-]. rewrite lookup_insert_eq. eauto.
  - split_and!; simpl; [done..|]. rewrite length_insert E3 /= length_insert //.
  - by rewrite -(proj1 (rg_len _ Hinv gi gg Hgi)).
  - intros gj g Hgj. simpl. destruct (decide (gj = gi)) as [->|Hne].
    + rewrite list_lookup_insert_eq; [|by eapply lookup_lt_Some]. rewrite Hgj in Hgi. injection Hgi as ->. eexists. split; [done|]. simpl.
      rewrite length_insert F2. split; [done|]. rewrite -F2. split; [by rewrite list_lookup_insert_eq; eauto|].
      intros k Hk. destruct (decide (k = i)) as [->|]; [rewrite list_lookup_insert_eq //=; eauto|]. by rewrite list_lookup_insert_ne.
    + rewrite list_lookup_insert_ne //. destruct (Hgg gj g Hgj) as (g4 & ? & (_ & E & _)). exists g4. rewrite E.
      split_and!; [done|done|by intros ->|done].
Qed.

(** ** make_config *)

Lemma StartCtrlerserver_reg i names cfg cfg' :
  reg_inv cfg → StartCtrlerserver i names cfg = Some cfg' →
  reg_inv cfg' ∧ s_groups cfg' = s_groups cfg ∧ s_nctrlers cfg' = s_nctrlers cfg.
Proof.
  intros [H1 H2 H3 H4 H5]. rewrite /StartCtrlerserver. destruct (negb _); [done|].
  destruct (open_ends _ _) as [rn|] eqn:T; [|done]. cbn [mbind option_bind]. apply open_ends_servers in T.
  destruct (obj_Make _) as [ps p]. set (o := fresh _). destruct (set_at _ _ _) as [l|]; [|done]. intros [= <-].
  assert (s_insts cfg !! o = None) as Ho by apply not_elem_of_dom, is_fresh.
  split; [|done]. split; simpl; rewrite ?T; try done.
  - intros gi gg k o' Hgi Hk. destruct (H3 gi gg k o' Hgi Hk) as [? (kv & ? & ?)].
    rewrite !lookup_insert_ne; [by eauto|congruence|done].
  - intros gi gg k Hgi Hk. rewrite lookup_insert_ne //. by eapply H4.
  - intros gid k Hg. rewrite lookup_insert_ne //. by apply H5.
Qed.

(** The servers of group [gi] with indices in [js] run. *)
Definition running (cfg : scfg) (gi : nat) (js : list nat) : Prop :=
  ∃ gg, s_groups cfg !! gi = Some gg ∧ ∀ i, i ∈ js → is_Some (mjoin (g_servers gg !! i)).

Lemma reg_inv_new_group n cfg :
  reg_inv cfg → s_n cfg = n → reg_inv (s_set_groups (s_groups cfg ++ [new_group n (s_nctrlers cfg) (length (s_groups cfg))]) cfg).
Proof.
  intros [H1 H2 H3 H4 H5] Hn.
  assert (∀ gi gg, (s_groups cfg ++ [new_group n (s_nctrlers cfg) (length (s_groups cfg))]) !! gi = Some gg →
    s_groups cfg !! gi = Some gg ∨ (gi = length (s_groups cfg) ∧ gg = new_group n (s_nctrlers cfg) gi)) as Hgs.
  { intros gi gg [?|[Hle Hl]]%lookup_app_Some; [by left|right]. apply list_lookup_singleton_Some in Hl as [? <-].
    assert (gi = length (s_groups cfg)) as -> by lia. done. }
  split; simpl.
  - intros gi gg [?|[-> ->]]%Hgs; [by apply H1|done].
  - intros gi gg [?|[-> ->]]%Hgs; [by eapply H2|]. by rewrite /= !length_replicate.
  - intros gi gg k o [?|[-> ->]]%Hgs; [by eapply H3|]. simpl. by intros [? _]%lookup_replicate.
  - intros gi gg k [?|[-> ->]]%Hgs; [by eapply H4|]. simpl. intros _. by rewrite H5.
  - intros gid k. rewrite length_app /=. intros Hg. apply H5. lia.
Qed.

Lemma start_group_reg n nm gi cfg cfg' :
  reg_inv cfg → s_n cfg = n → length (s_groups cfg) = gi → start_group n nm gi cfg = Some cfg' →
  reg_inv cfg' ∧ length (s_groups cfg') = S gi ∧ s_n cfg' = s_n cfg ∧ s_nctrlers cfg' = s_nctrlers cfg ∧
  (n ≤ s_nctrlers cfg)%nat ∧ running cfg' gi (seq 0 n) ∧ ∀ gj js, running cfg gj js → running cfg' gj js.
Proof.
  intros Hinv Hsn Hlen. rewrite /start_group. set (c0 := s_set_groups _ cfg).
  assert (reg_inv c0) as I0 by (subst c0 gi; by apply reg_inv_new_group). intros Hr.
  apply (foldM_inv (λ js c, reg_inv c ∧ same_shape c0 c ∧ running c gi js ∧ (∀ i, i ∈ js → (i < s_nctrlers c0)%nat) ∧
    ∀ gj js, running cfg gj js → running c gj js)) in Hr as (I & (E1 & E2 & E3) & Hrun & Hlt & Hold).
  - split_and!; [done|rewrite E3 /= length_app /=; lia|done|done| |done|done].
    destruct n as [|n]; [lia|]. assert (n < s_nctrlers c0)%nat as Hn by (apply Hlt, elem_of_seq; lia). simpl in Hn. lia.
  - intros js i c c' (I & F & (gg & Hgg & Hrun) & Hlt & Hold) Ho _. destruct (StartServer_reg _ _ _ _ _ _ I Ho) as (I' & F' & Hi & Hgs).
    split_and!; [done|by etrans| | |].
    + destruct (Hgs gi gg Hgg) as (gg' & Hgg' & _ & Hnew & Hkeep). exists gg'. split; [done|].
      intros k [Hk| ->%list_elem_of_singleton]%elem_of_app; [by apply Hkeep, Hrun|]. destruct (Hnew eq_refl) as [o ->]. simpl. eauto.
    + intros k [Hk| ->%list_elem_of_singleton]%elem_of_app; [by apply Hlt|]. destruct F as (_ & <- & _). done.
    + intros gj js' Hj. destruct (Hold gj js' Hj) as (g & Hg & Hr'). destruct (Hgs gj g Hg) as (g' & Hg' & _ & _ & Hkeep).
      exists g'. split; [done|]. intros k Hk. by apply Hkeep, Hr'.
  - split_and!; [done|done| |by intros i []%elem_of_nil|].
    + exists (new_group n (s_nctrlers cfg) gi). split; [|by intros i []%elem_of_nil].
      rewrite /= lookup_app_r; [|lia]. by rewrite Hlen Nat.sub_diag.
    + intros gj js (gg & Hgg & Hrun). exists gg. split; [|done]. rewrite /= lookup_app_l //. by eapply lookup_lt_Some.
Qed.

Lemma make_config_reg n unreliable maxraftstate nm cfg :
  make_config n unreliable maxraftstate nm = Some cfg →
  reg_inv cfg ∧ s_n cfg = n ∧ s_nctrlers cfg = 3%nat ∧ length (s_groups cfg) = 3%nat ∧ (n ≤ 3)%nat ∧
  ∀ gi, (gi < 3)%nat → running cfg gi (seq 0 n).
Proof.
  rewrite /make_config. destruct (foldM _ (seq 0 3) (s_init maxraftstate)) as [c1|] eqn:H1; [|done]. cbn [mbind option_bind].
  apply (foldM_inv (λ _ c, reg_inv c ∧ s_groups c = [] ∧ s_nctrlers c = 3%nat)) in H1 as (I1 & G1 & N1).
  2: { intros _ i c c' (I & G & N) Ho _. destruct (StartCtrlerserver_reg _ _ _ _ I Ho) as (I' & G' & N'). split_and!; [done|congruence..]. }
  2: { split_and!; [|done..]. split; simpl; try done. }
  destruct (shardclerk (nm_clerk nm) c1) as [[c2 mck]|] eqn:H2; [|done]. cbn [mbind option_bind].
  revert H2. rewrite /shardclerk. destruct (negb _); [done|]. destruct (open_ends _ _) as [rn|] eqn:T; [|done]. intros [= <- <-].
  apply open_ends_servers in T. set (c3 := mkSC _ _ _ _ _ _ _ _ _ _ _ _).
  assert (reg_inv c3) as I3.
  { destruct (reg_inv_net rn c1 I1 T) as [K1 K2 K3 K4 K5]. split; simpl in *; try done.
    intros gi gg Hgi. by rewrite G1 in Hgi. }
  cbn [seq foldM]. assert (length (s_groups c3) = 0%nat) as L3 by by rewrite /= G1.
  destruct (start_group n nm 0 c3) as [c4|] eqn:H4; [|done]. cbn [mbind option_bind].
  destruct (start_group_reg _ _ _ _ _ I3 eq_refl L3 H4) as (I4 & L4 & En4 & Ec4 & Hle & R4 & _).
  destruct (start_group n nm 1 c4) as [c5|] eqn:H5; [|done]. cbn [mbind option_bind].
  destruct (start_group_reg _ _ _ _ _ I4 En4 L4 H5) as (I5 & L5 & En5 & Ec5 & _ & R5 & K5).
  destruct (start_group n nm 2 c5) as [c6|] eqn:H6; [|done]. intros [= <-].
  destruct (start_group_reg _ _ _ _ _ I5 ltac:(by rewrite En5) L5 H6) as (I6 & L6 & En6 & Ec6 & _ & R6 & K6). simpl in *.
  split_and!; [by destruct I6|congruence|congruence|done|lia|].
  intros [|[|[|gi]]] Hgi; [by apply K6, K5|by apply K6|done|lia].
Qed.

(** ** What the tests do *)

Inductive SOp :=
| SShutdown (gi i : nat) | SStart (gi i : nat) (names mnames : list string)
| SMakeClient (names : list string) | SDeleteClient (ck : nat)
| SMakeEnd (name servername : string).     (* by a client or a server *)

Definition run_sop (op : SOp) (cfg : scfg) : option scfg :=
  match op with
  | SShutdown gi i => ShutdownServer gi i cfg
  | SStart gi i names mnames => StartServer gi i names mnames cfg
  | SMakeClient names => '(cfg, _) ← makeClient names cfg; Some cfg
  | SDeleteClient ck => Some (deleteClient ck cfg)
  | SMakeEnd name servername => cfg_make_end name servername cfg
  end.

Definition run_sops : list SOp → scfg → option scfg := foldM run_sop.

Lemma run_sop_reg op cfg cfg' : reg_inv cfg → run_sop op cfg = Some cfg' → reg_inv cfg' ∧ same_shape cfg cfg'.
Proof.
  intros I. destruct op as [gi i|gi i names mnames|names|ck|name srv]; simpl; intros Ho.
  - by eapply ShutdownServer_reg.
  - by destruct (StartServer_reg _ _ _ _ _ _ I Ho) as (? & ? & _).
  - revert Ho. rewrite /makeClient. destruct (negb _); [done|]. destruct (foldM _ _ _) as [l|]; [|done]. cbn [mbind option_bind].
    destruct (open_ends _ _) as [rn|] eqn:T; [|done]. intros [= <-]. split; [|done].
    by destruct (reg_inv_net rn cfg I (open_ends_servers _ _ _ T)).
  - injection Ho as <-. split; [|done]. by destruct I.
  - revert Ho. rewrite /cfg_make_end. destruct (open_end _ _) as [rn|] eqn:T; [|done]. intros [= <-]. split; [|done].
    apply reg_inv_net; [done|]. apply (open_ends_servers [(name, srv)]). by rewrite /open_ends /= T.
Qed.

Lemma run_sops_reg n unreliable maxraftstate nm ops cfg0 cfg :
  make_config n unreliable maxraftstate nm = Some cfg0 → run_sops ops cfg0 = Some cfg →
  reg_inv cfg ∧ s_n cfg = n ∧ s_nctrlers cfg = 3%nat ∧ length (s_groups cfg) = 3%nat.
Proof.
  intros (I & En & Ec & L & _)%make_config_reg Hr.
  assert (reg_inv cfg ∧ same_shape cfg0 cfg) as (I' & (E1 & E2 & E3)); [|split_and!; congruence].
  revert Hr. apply (foldM_inv (λ _ c, reg_inv c ∧ same_shape cfg0 c)); [|done].
  intros _ op c c' [Ic Fc] Ho _. destruct (run_sop_reg _ _ _ Ic Ho). split; [done|by etrans].
Qed.

Lemma join_map_spec gis cfg m gid names :
  join_map gis cfg = Some m → m !! gid = Some names →
  ∃ gi gg, gi ∈ gis ∧ s_groups cfg !! gi = Some gg ∧ g_gid gg = gid ∧ names = servername gid <$> seq 0 (s_n cfg).
Proof.
  intros Hj. revert gid names. revert Hj. apply (foldM_inv (λ gs (m : gmap Z (list string)), ∀ gid names, m !! gid = Some names →
    ∃ gi gg, gi ∈ gs ∧ s_groups cfg !! gi = Some gg ∧ g_gid gg = gid ∧ names = servername gid <$> seq 0 (s_n cfg))).
  - intros gs g m1 m2 IH Ho _. destruct (s_groups cfg !! g) as [gg|] eqn:Hg; [|done]. injection Ho as <-.
    intros gid names [[<- <-]|[_ Hm]]%lookup_insert_Some.
    + exists g, gg. split_and!; [set_solver|done..].
    + destruct (IH gid names Hm) as (gi & g' & ? & ?). exists gi, g'. split; [set_solver|done].
  - intros gid names. by rewrite lookup_empty.
Qed.

(** C25: The names a group joins with lead to its servers. Whatever the tests have
    done since [make_config] (servers shut down and started again, clients, ends
    made by clients and servers): the name [joinm] gives the controller for the
    [j]-th server of a group is registered with the instance that runs as that
    server, of that group and index, or with none while the server is down. *)
Theorem joined_names_reach_servers n unreliable maxraftstate nm ops cfg0 cfg gis m gid names j name :
  make_config n unreliable maxraftstate nm = Some cfg0 → run_sops ops cfg0 = Some cfg →
  join_map gis cfg = Some m → m !! gid = Some names → names !! j = Some name →
  ∃ gi gg, gi ∈ gis ∧ s_groups cfg !! gi = Some gg ∧ g_gid gg = gid ∧
    match mjoin (g_servers gg !! j) with
    | Some o => LabRpc.servers (s_net cfg) !! name = Some (Some o) ∧
        ∃ kv, s_insts cfg !! o = Some (inl kv) ∧ skv_gid kv = gid ∧ skv_me kv = j
    | None => mjoin (LabRpc.servers (s_net cfg) !! name) = None
    end.
Proof.
  intros H0 H1 Hm Hgid Hj. destruct (run_sops_reg _ _ _ _ _ _ _ H0 H1) as (I & En & _ & _).
  destruct (join_map_spec gis cfg m gid names Hm Hgid) as (gi & gg & Hin & Hgi & Hg & ->).
  exists gi, gg. split_and!; [done..|]. rewrite list_lookup_fmap in Hj. apply fmap_Some in Hj as (k & Hk & ->).
  apply lookup_seq in Hk as [-> Hlt]. simpl in *. subst gid.
  destruct (g_servers gg !! j) as [[o|]|] eqn:Ho; simpl.
  - by destruct (rg_up _ I gi gg j o Hgi Ho) as [? (kv & ? & ? & ?)]; eauto 10.
  - by eapply rg_down.
  - apply lookup_ge_None in Ho. rewrite (proj2 (rg_len _ I gi gg Hgi)) in Ho. lia.
Qed.

Lemma makeClient_bound names cfg cfg' ck : makeClient names cfg = Some (cfg', ck) → (s_nctrlers cfg ≤ s_n cfg)%nat.
Proof.
  rewrite /makeClient. destruct (negb _); [done|]. destruct (foldM _ _ _) as [l|] eqn:Hf; [|done]. intros _.
  apply (foldM_inv (λ js l, length l = s_n cfg ∧ ∀ j, j ∈ js → (j < s_n cfg)%nat)) in Hf as [_ Hlt].
  - destruct (s_nctrlers cfg) as [|k] eqn:Ek; [lia|]. assert (k < s_n cfg)%nat; [apply Hlt, elem_of_seq|]; lia.
  - intros js j l1 l2 [Hl Hj] Ho _. destruct (names !! j); [|done]. cbn [mbind option_bind] in Ho.
    apply set_at_Some in Ho as [Hlt ->]. rewrite length_insert. split; [done|].
    intros k [Hk| ->%list_elem_of_singleton]%elem_of_app; [by apply Hj|lia].
  - rewrite length_replicate. split; [done|by intros j []%elem_of_nil].
Qed.

(** C26: The configuration works for groups of three servers only: with more,
    [make_config] runs out of the rows it made for the names of ends to the
    controller, one for each of its three replicas; with fewer, a client runs out
    of the places it made for those names, one for each server of a group. So if
    a test got a client, the groups have three servers. *)
Theorem groups_of_three n unreliable maxraftstate nm ops cfg0 cfg names cfg' ck :
  make_config n unreliable maxraftstate nm = Some cfg0 → run_sops ops cfg0 = Some cfg →
  makeClient names cfg = Some (cfg', ck) → n = 3%nat.
Proof.
  intros H0 H1 Hb%makeClient_bound. destruct (run_sops_reg _ _ _ _ _ _ _ H0 H1) as (_ & En & Ec & _).
  apply make_config_reg in H0 as (_ & _ & _ & _ & Hle & _). lia.
Qed.

(** ** An instance: a server of the second group is restarted *)

Definition sample_row (prefix : string) : list string := [prefix +:+ "0"; prefix +:+ "1"; prefix +:+ "2"].
Definition digit (i : nat) : string := match i with O => "0" | S O => "1" | _ => "2" end.
Definition sample_nm : Names :=
  mkNames (λ i, sample_row ("c" +:+ digit i)) (sample_row "k") (λ gi i, sample_row ("g" +:+ digit gi +:+ digit i))
    (λ gi i, sample_row ("m" +:+ digit gi +:+ digit i)).
Definition sample_sops : list SOp :=
  [SMakeClient (sample_row "x"); SMakeEnd "y" "server-101-2"; SShutdown 1 2; SStart 1 2 (sample_row "r") (sample_row "s"); SShutdown 1 0].

Definition sample_scfg0 : scfg := default (s_init 1000) (make_config 3 true 1000 sample_nm).
Definition sample_scfg : scfg := default (s_init 1000) (run_sops sample_sops sample_scfg0).
Definition sample_join : gmap Z (list string) := default ∅ (join_map [1%nat] sample_scfg).

Lemma joined_names_reach_servers_witness :
  ∃ gi gg, gi ∈ [1%nat] ∧ s_groups sample_scfg !! gi = Some gg ∧ g_gid gg = 101 ∧
    match mjoin (g_servers gg !! 2%nat) with
    | Some o => LabRpc.servers (s_net sample_scfg) !! "server-101-2" = Some (Some o) ∧
        ∃ kv, s_insts sample_scfg !! o = Some (inl kv) ∧ skv_gid kv = 101 ∧ skv_me kv = 2%nat
    | None => mjoin (LabRpc.servers (s_net sample_scfg) !! "server-101-2") = None
    end.
Proof.
  assert (make_config 3 true 1000 sample_nm = Some sample_scfg0) as H0 by (vm_compute; reflexivity).
  assert (run_sops sample_sops sample_scfg0 = Some sample_scfg) as H1 by (vm_compute; reflexivity).
  assert (join_map [1%nat] sample_scfg = Some sample_join) as Hm by (vm_compute; reflexivity).
  assert (sample_join !! 101 = Some ["server-101-0"; "server-101-1"; "server-101-2"]) as Hn by (vm_compute; reflexivity).
  exact (joined_names_reach_servers 3 true 1000 sample_nm sample_sops sample_scfg0 sample_scfg [1%nat] sample_join 101 _ 2
    "server-101-2" H0 H1 Hm Hn eq_refl).
Defined.

Lemma groups_of_three_witness : ∃ cfg' ck, makeClient (sample_row "z") sample_scfg = Some (cfg', ck) ∧ (3 = 3)%nat.
Proof.
  assert (make_config 3 true 1000 sample_nm = Some sample_scfg0) as H0 by (vm_compute; reflexivity).
  assert (run_sops sample_sops sample_scfg0 = Some sample_scfg) as H1 by (vm_compute; reflexivity).
  assert (is_Some (makeClient (sample_row "z") sample_scfg)) as [[cfg' ck] Hc] by (vm_compute; eauto).
  exists cfg', ck. split; [exact Hc|].
  exact (groups_of_three 3 true 1000 sample_nm sample_sops sample_scfg0 sample_scfg (sample_row "z") cfg' ck H0 H1 Hc).
Defined.

(** With four servers in a group there is no configuration, whatever the names;
    with two there is one, but no client. *)
Example no_group_of_four : make_config 4 true 1000 (mkNames (λ i, sample_row ("c" +:+ digit i)) (sample_row "k")
  (λ gi i, sample_row ("g" +:+ digit gi +:+ Itoa (Z.of_nat i)) ++ ["h" +:+ digit gi +:+ Itoa (Z.of_nat i)])
  (λ gi i, sample_row ("m" +:+ digit gi +:+ Itoa (Z.of_nat i)))) = None.
Proof. vm_compute. reflexivity. Qed.

(** A server that was shut down cannot use its ends to its group and to the
    controller, but an end it made for a server of another group stays enabled. *)
Example made_end_stays_enabled :
  enabled (s_net sample_scfg) !! "g102" = Some false ∧ enabled (s_net sample_scfg) !! "y" = Some true.
Proof. vm_compute. split; reflexivity. Qed.
