(* ===== verification/Skeletons.v ===== *)
(** * The servers as they stand

    What [raft/raft.go], [kvraft/client.go], [kvraft/common.go] and the [server.go]
    files do contain besides starting and killing ([RaftConfig], [KvConfig],
    [ShardConfig]): handlers and functions that are left to be written, so that
    replies stay as they were passed in, and the ticker of Raft. Composed with the
    clerks of [Clerks], which are complete, this says what a client of these
    servers gets. *)
From S2P Require Import Prelude GoBase LabRpc LabRpcCall RaftConfig KvConfig Clerks ClerksThm.

(** ** Raft *)

(** [persist], [readPersist] and [Snapshot] leave the object alone; [readPersist]
    returns early without data. *)
Definition raft_persist (rf : Raft) : Raft := rf.
Definition raft_readPersist (data : option string) (rf : Raft) : Raft :=
  match data with
  | None => rf
  | Some d => if bool_decide (slen d < 1) then rf else rf
  end.
Definition raft_Snapshot (index : Z) (snapshot : option string) (rf : Raft) : Raft := rf.

(** The structs have no fields yet. *)
Definition RequestVoteArgs : Type := unit.
Definition RequestVoteReply : Type := unit.
Definition raft_RequestVote (args : RequestVoteArgs) (reply : RequestVoteReply) (rf : Raft) : Raft * RequestVoteReply := (rf, reply).

(** The call that is made; [None]: no such peer, or the arguments cannot be
    encoded. *)
Definition sendRequestVote `{Gob V} (server : nat) (args reply : V) (rf : Raft) : option (LabRpcCall.Call (Name := NetName) (V := V)) :=
  e ← rf_peers rf !! server; Call_start (inl e) "Raft.RequestVote" args reply.

(** The loop of [ticker], for at most [fuel] rounds: [killed k] is what [killed]
    says in round [k], [rands k] the random number. The result is the pauses in
    milliseconds, and whether the goroutine has ended. *)
Fixpoint raft_ticker (fuel : nat) (killed : nat → bool) (rands : nat → Z) (k : nat) : list Z * bool :=
  match fuel with
  | O => ([], false)
  | S fuel =>
      if killed k then ([], true) else
      let ms := 50 + Z.rem (rands k) 300 in
      let '(pauses, ended) := raft_ticker fuel killed rands (S k) in (ms :: pauses, ended)
  end.

(** The pauses are as the comment says, and the ticker ends once the object is
    killed, at the next round. *)
Lemma raft_ticker_spec killed rands k n fuel :
  (∀ j, 0 ≤ rands j < 2 ^ 63) → (∀ j, (j < n)%nat → killed (k + j)%nat = false) → killed (k + n)%nat = true → (n < fuel)%nat →
  ∃ pauses, raft_ticker fuel killed rands k = (pauses, true) ∧ length pauses = n ∧ Forall (λ ms, 50 ≤ ms < 350) pauses.
Proof.
  intros Hr. revert k n. induction fuel as [|fuel IH]; intros k n Hlive Hk Hn; [lia|]. simpl. destruct n as [|n].
  - rewrite Nat.add_0_r in Hk. rewrite Hk. by exists [].
  - rewrite -{1}(Nat.add_0_r k) Hlive; [|lia].
    destruct (IH (S k) n) as (pauses & -> & Hlen & Hp).
    + intros j Hj. rewrite Nat.add_succ_comm. apply Hlive. lia.
    + by rewrite Nat.add_succ_comm.
    + lia.
    + eexists. split_and!; [done|by rewrite /= Hlen|]. constructor; [|done].
      specialize (Hr k). rewrite Z.rem_mod_nonneg; [|lia..]. pose proof (Z.mod_pos_bound (rands k) 300 ltac:(lia)). lia.
Qed.

(** ** kvraft *)

Record KvPutAppendArgs := mkKvPutAppendArgs { kpa_Key : string; kpa_Value : string; kpa_Op : string }.
Record KvGetArgs := mkKvGetArgs { kga_Key : string }.

Section kvraft.
Context {End : Type}.

Record KvClerk := mkKvClerk { kck_servers : list End }.

Definition kv_MakeClerk (servers : list End) : KvClerk := mkKvClerk servers.
Definition kv_Get (ck : KvClerk) (key : string) : KvClerk * string := (ck, "").
Definition kv_PutAppend (ck : KvClerk) (key value op : string) : KvClerk := ck.
Definition kv_Put (ck : KvClerk) (key value : string) : KvClerk := kv_PutAppend ck key value "Put".
Definition kv_Append (ck : KvClerk) (key value : string) : KvClerk := kv_PutAppend ck key value "Append".
End kvraft.

(** The handlers leave the reply they are given. *)
Definition kv_server_Get (args : KvGetArgs) (reply : GetReply) (kv : KvRaft.KVServer) : KvRaft.KVServer * GetReply := (kv, reply).
Definition kv_server_PutAppend (args : KvPutAppendArgs) (reply : PutAppendReply) (kv : KvRaft.KVServer) :
  KvRaft.KVServer * PutAppendReply := (kv, reply).

(** ** shardctrler and shardkv *)

(** The reply a handler is passed is the zero value of its type. *)
Definition zero_reply (a : Args) : Reply a :=
  match a with
  | Query_args _ => mkQueryReply false "" zero_Config
  | Join_args _ | Leave_args _ | Move_args _ _ => mkCtrlReply false ""
  | Get_args _ => mkGetReply "" ""
  | PutAppend_args _ _ _ => mkPutAppendReply ""
  end.

Definition sc_Join (Servers : gmap Z (list string)) (reply : CtrlReply) : CtrlReply := reply.
Definition sc_Leave (GIDs : list Z) (reply : CtrlReply) : CtrlReply := reply.
Definition sc_Move (Shard GID : Z) (reply : CtrlReply) : CtrlReply := reply.
Definition sc_Query (num : Z) (reply : QueryReply) : QueryReply := reply.
Definition sk_Get (Key : string) (reply : GetReply) : GetReply := reply.
Definition sk_PutAppend (Key Value Op : string) (reply : PutAppendReply) : PutAppendReply := reply.

Definition stub_handler (a : Args) : Reply a → Reply a :=
  match a with
  | Join_args srvs => sc_Join srvs
  | Leave_args gids => sc_Leave gids
  | Move_args shard gid => sc_Move shard gid
  | Query_args num => sc_Query num
  | Get_args key => sk_Get key
  | PutAppend_args key value op => sk_PutAppend key value op
  end.

(** ** What clients get *)

Section clients.
Context {End : Type} (net : list (Entry End) → End → ∀ a : Args, option (Reply a)).

(** Calls reach these servers or fail. *)
Definition stub_net : Prop := ∀ log e a r, net log e a = Some r → r = stub_handler a (zero_reply a).

Lemma stub_Query fuel ck num log log' c : stub_net → Query net fuel ck num log = (log', Some c) → c = zero_Config.
Proof.
  intros Hnet. apply (forever_rule (λ _, True) (λ c _, c = zero_Config)); [|done]. intros l _.
  pose proof (for_range_rule (λ _ _, True) (λ _, True) (λ c _, c = zero_Config)
    (λ srv log, let '(log, reply) := Call net srv (Query_args num) log in
      (log, match reply with Some reply => if negb (QWrongLeader reply) then Return (QConfig reply) else Continue | None => Continue end))
    (servers ck) l) as Hr. unfold ends in Hr.
  destruct (for_range _ _ l) as [l' []]; try done. apply Hr; [|done..]. intros i srv l1 _ _. simpl.
  destruct (net l1 srv (Query_args num)) as [rp|] eqn:Hn; [|done]. by apply Hnet in Hn as ->.
Qed.

(** A clerk that knows no configuration learns none. *)
Lemma stub_refresh fuel s {R} : stub_net → config s.1 = zero_Config →
  match refresh net fuel s (R := R) with ((ck, _), Continue) => config ck = zero_Config | (_, Return _) => False | _ => True end.
Proof.
  intros Hnet Hc. destruct s as [ck log]. rewrite /refresh. destruct (Query _ _ _ _ _) as [l [c|]] eqn:Hq; [|done].
  simpl. by eapply stub_Query.
Qed.

Lemma zero_gid key : shard_gid zero_Config (key2shard key) = Some 0.
Proof.
  pose proof (key2shard_bound key) as Hb. rewrite /shard_gid.
  change (vec_to_list (Shards zero_Config)) with (replicate NShards 0). apply lookup_replicate_2. lia.
Qed.

(** With these servers [Get], [Put] and [Append] of the sharded store never return:
    the controller answers every query with the empty configuration, in which no
    group serves any shard. ([Join], [Leave] and [Move] return at once, without
    effect, as the reply does not say that the server is not the leader.) *)
Lemma skeleton_kv_never_returns fuel ctrlers mk key value log :
  stub_net → (Get net fuel key (MakeClerk ctrlers mk, log)).2 = None ∧
    (Put net fuel key value (MakeClerk ctrlers mk, log)).2 = None ∧ (Append net fuel key value (MakeClerk ctrlers mk, log)).2 = None.
Proof.
  intros Hnet.
  assert (∀ R (body : Clerk End * list (Entry End) → (Clerk End * list (Entry End)) * Ctl R),
    (∀ s, config s.1 = zero_Config → body s = refresh net fuel s) → (forever fuel body (MakeClerk ctrlers mk, log)).2 = None) as Hgo.
  { intros R body Hb. destruct (forever fuel body _) as [s [r|]] eqn:Hf; [|done]. exfalso.
    refine (forever_rule (λ s, config s.1 = zero_Config) (λ _ _, False) body fuel (MakeClerk ctrlers mk, log) s r _ _ Hf); [|done].
    intros s1 Hs1. rewrite Hb //. pose proof (stub_refresh fuel s1 (R := R) Hnet Hs1) as Hr.
    by destruct (refresh _ _ _) as [[ck l] []]. }
  rewrite /Put /Append /PutAppend /Get. split_and!; apply Hgo; intros s Hs; by rewrite Hs zero_gid /= lookup_empty.
Qed.
End clients.
