(* ===== verification/TestEnd.v ===== *)
(** * The end of a test

    [cleanup] of the four [config.go]: the servers that run are killed, the
    network is shut down ([LabRpcCall]), and the time limit is checked. The part
    on the servers is in the file of each configuration; here the whole function
    is put together, and what is left afterwards: killed servers, and calls that
    can only return false. *)
From S2P Require Import Prelude GoBase LabRpc LabRpcCall LabRpcCallThm Persister Harness RaftConfig RaftChecks KvConfig ShardConfig.

Section cleanup.
Context {A V : Type} `{Gob V}.

(** [cfg.finished], an [int32] that is 0 or 1 *)
Definition checkFinished (finished : Z) : bool := negb (bool_decide (finished = 0)).

(** The results: the configuration, the network, and whether the test still
    passes; [None] is the panic of a second [Cleanup]. *)
Definition raft_cleanup {Cmd} (failed : bool) (start now : Z) (cfg : rcfg Cmd) (cs : @CallState NetName _ _ A V)
    : option (Z * rcfg Cmd * CallState * bool) :=
  let finished := 1 in
  let cfg := RaftConfig.cleanup cfg in
  cs ← Cleanup cs;
  Some (finished, cfg, cs, checkTimeout failed start now).

Definition kv_cleanup {Srv} `{!ServerKind Srv} (failed : bool) (start now : Z) (cfg : kcfg Srv)
    (cs : @CallState NetName _ _ A V) : option (kcfg Srv * CallState * bool) :=
  let cfg := KvConfig.cleanup cfg in
  cs ← Cleanup cs;
  Some (cfg, cs, KvRaft.kv_checkTimeout failed start now).

Definition shardctrler_cleanup := kv_cleanup (ServerKind0 := ShardCtrlerTest.ShardCtrler_kind).

Definition shardkv_cleanup (failed : bool) (start now : Z) (cfg : scfg) (cs : @CallState string _ _ A V)
    : option (scfg * CallState * bool) :=
  cfg ← ShardConfig.cleanup cfg;
  cs ← Cleanup cs;
  Some (cfg, cs, sk_checkTimeout failed start now).

(** Killing the current instances. *)
Lemma kill_all_dead (l : list (option nat)) (insts : gmap nat Raft) o rf :
  foldl (λ insts rf, match rf with Some o => alter Raft_Kill o insts | None => insts end) insts l !! o = Some rf →
  Some o ∈ l ∨ Raft_killed (default rf (insts !! o)) = true → Raft_killed rf = true.
Proof.
  revert insts. induction l as [|x l IH]; intros insts Hf Ho; simpl in Hf.
  - destruct Ho as [?%elem_of_nil|Ho]; [done|]. by rewrite Hf in Ho.
  - eapply IH; [exact Hf|]. destruct Ho as [[<-|?]%elem_of_cons|Ho]; [|by left|].
    + right. rewrite /= lookup_alter_eq. destruct (insts !! o) as [rf0|] eqn:E; [done|].
      exfalso. assert (∀ l (m : gmap nat Raft), m !! o = None →
        foldl (λ insts rf, match rf with Some o => alter Raft_Kill o insts | None => insts end) m l !! o = None) as Hno.
      { clear. induction l as [|[o'|] l IH]; intros m Hm; simpl; [done|apply IH|by apply IH].
        rewrite lookup_alter. case_decide; [by subst; rewrite Hm|done]. }
      rewrite Hno in Hf; [done|]. by rewrite lookup_alter_eq E.
    + right. destruct x as [o'|]; [|done]. rewrite lookup_alter. case_decide; [|done]. subst o'.
      by destruct (insts !! o).
Qed.

(** After [cleanup] every current server is killed; the test fails exactly when it
    had not failed and took more than two minutes; and once the goroutine of the
    network has seen the end, calls not sent before are never executed. *)
Lemma raft_cleanup_ends {Cmd} (failed : bool) (start now : Z) (cfg cfg' : rcfg Cmd) (cs cs' cs2 : @CallState NetName _ _ A V) (finished : Z) (ok : bool) :
  raft_cleanup failed start now cfg cs = Some (finished, cfg', cs', ok) →
  checkFinished finished = true ∧
  (∀ i o rf, rc_rafts cfg !! i = Some (Some o) → rc_insts cfg' !! o = Some rf → Raft_killed rf = true) ∧
  (ok = false ↔ failed = false ∧ now - start > 120 * second) ∧
  (cs_loop cs' = false → rtc call_step cs' cs2 →
     ∀ i, reqs (cs_rpc cs') !! i = None → reqs (cs_rpc cs2) !! i = None).
Proof.
  rewrite /raft_cleanup. destruct (Cleanup cs) as [cs1|] eqn:Hc; [|done]. intros [= <- <- <- <-].
  split_and!; [done| | |].
  - intros i o rf Hi Hrf. eapply kill_all_dead; [exact Hrf|]. left. by eapply list_elem_of_lookup_2.
  - rewrite /checkTimeout. destruct failed; simpl; [naive_solver|]. case_bool_decide; naive_solver.
  - intros Hl Hr. assert (cs_done cs1 = true) as Hd.
    { revert Hc. rewrite /Cleanup. destruct (cs_done cs); [done|]. by intros [= <-]. }
    by destruct (Cleanup_stops cs1 cs2 Hd Hl Hr) as (_ & _ & _ & ? & _).
Qed.
End cleanup.
